(* ===== verification/_CoqProject ===== *)
-Q . S2P
Prelude.v
Types.v
Crc32.v
Snapshot.v
Message.v
Membership.v
Slots.v
MembershipIndex.v
Progress.v
Config.v
NodeState.v
Log.v
View.v
Commit.v
CommitQuorum.v
Send.v
ReadIndex.v
Transfer.v
Election.v
SnapshotTransfer.v
Receive.v
MembershipChange.v
LocalSnapshot.v
Dispatch.v
Bootstrap.v
Validate.v
Observe.v
Spec.v
SpecProps.v
Abstraction.v
RefineCommit.v
RefineSend.v
RefineRead.v
RefineElection.v
RefineReceive.v
RefineSnapshot.v
RefineMembership.v
Refinement.v
KernelAudit.v
Safety.v
Drain.v
Window.v
Batch.v
Reigns.v
Consensus.v
Recovery.v
Cluster.v
Scenario.v
Wire.v
CodecV1.v
Frame.v
Grammar.v
Emit.v
CodecSpec.v
FrameSpec.v
ReceiveLimit.v
Stores.v
MemoryStores.v
Runtime.v
SnapshotFlow.v
Durability.v
Persistence.v
Fence.v
RuntimeStep.v
RuntimeErrors.v
Restart.v
RuntimeCluster.v
RestartTotal.v
FaultyStores.v
RuntimeScenario.v
StorageFormat.v
StorageSpec.v
FileSystem.v
HardStateFile.v
LogFile.v
SnapshotFormat.v
SnapshotFile.v
SnapshotStoreSpec.v
FileStores.v
FileCluster.v
