(* ===== verification/Prelude.v ===== *)
(** * Rafter: a verification development

    Rafter ([crates/]) is a Raft stack whose kernel performs no I/O: a [Node] is
    a value, [step] and its relatives map it and an input to a new node and a
    list of outputs, and everything that touches a disk or a socket lives in
    crates around it. The development follows that structure. Definitions are
    executable translations of the source, named as in the source where Rocq
    allows it, with a prefix where two types share a method name.

    ** Conventions

    - [u8], [u32], [u64] and [usize] (64 bits) are naturals [N]; every operation
      that can wrap, saturate or be checked says which ([u64_add],
      [u64_saturating_add], [u64_checked_add], ...).
    - A fallible function returns [result]; [let?] is the [?] operator. A method
      on [&mut self] takes the state and returns it with its value.
    - [r <| f := v |>] updates a field. Shared payloads and entry slices are the
      sequences they denote. A [BTreeSet] of ids is a sorted list, a bit set of
      slots keeps its words.
    - A loop whose recursion is not structural carries fuel computed from its
      input, and a theorem shows that the fuel never runs out:
      [drain_dispatches_all] for the dispatch loop (fuel: the distance from the
      dispatch cursor to the commit index), [window_fills] for the replication
      window (fuel: the entries above the follower's [next_index]),
      [pull_payload_length] for the pull of a snapshot payload (fuel: the number
      of chunks).

    ** The kernel ([crates/rafter])

    - [Types], [Crc32], [Snapshot], [Message], [Membership], [Config]: the data
      of [types/], [message/] and [node/config/] with their constructors.
      [MembershipSet_new_correct], [NodeConfig_constructors_correct] and
      [effective_feature_clamps] say what the constructors accept and build;
      [quorums_intersect] is the majority rule, joint memberships included;
      [crc32_is_bitwise], [running_crc32_concat] and [crc32_detects_window] are
      about the checksum.
    - [Slots], [MembershipIndex], [Progress], [NodeState], [Log],
      [View]: [node/state/], [node/log/] and [node/membership/view.rs].
      [index_has_quorum_correct] and [acknowledgement_history_quorum] show that
      the slot bit sets count the quorums of the memberships they index.
    - [Commit], [CommitQuorum], [Send], [ReadIndex], [Transfer], [Election],
      [SnapshotTransfer], [Receive], [MembershipChange], [LocalSnapshot],
      [Dispatch], [Bootstrap], [Validate], [Observe]: every handler and public
      operation of [node/], whole, with its guards and early returns.
    - [Spec], [SpecProps], [Abstraction], [Refine*], [Refinement]: an abstract
      Raft node as a labelled transition system over exact integers, and the
      proof that every public operation is a run of it with exactly the
      kernel's outputs ([operations_refine_spec]). The admissibility hypotheses
      are the numeric bounds (no index reaches 2^64) and the well-formedness of
      configuration payloads a caller supplies.
    - [KernelAudit], [Safety], [Drain], [Window], [Batch]: what holds of a node over its
      whole life: the audit accepts it ([audit_accepts_reachable]), committed
      entries never change ([committed_prefix_immutable]), each position is
      dispatched once and in order ([dispatch_exactly_once_in_order]), one vote
      per term ([one_vote_per_term], [term_and_vote_monotone]), leaders only
      append ([leader_append_only]), the dispatch loop ends at the commit index
      ([drain_dispatches_all]), a follower's window is filled with consecutive
      entries ([window_fills]), and a batch is the sequence of its inputs
      ([step_batch_preserves_order]).

    ** A cluster of kernels

    [Reigns] is the ghost history of a cluster (reigns, votes,
    acknowledgements), [Consensus] the invariant that ties a node to it,
    [Recovery] the restart from a durable image, [Cluster] the nodes with a
    network that drops, delays, reorders and duplicates: [election_safety],
    [logs_match], [leader_completeness], [state_machine_safety] and
    [snapshot_boundary_agrees]. The membership, joint or not, is fixed.
    [Scenario] runs three nodes through elections, commitment, compaction, a
    streamed snapshot and restarts; it witnesses the theorems, and shows that
    two inputs the audit's documentation excludes do occur
    ([inputs_can_fail_audit]).

    ** The peer wire format ([crates/rafter-codec], [crates/rafter-crc32])

    [Wire], [CodecV1] and [Frame] are the writers, readers, grammar and envelope.
    [Grammar] relates decoders to the values they accept, [Emit] encoders to the
    bytes they emit, [CodecSpec] joins the two for every message part, and
    [FrameSpec] concludes: [frame_roundtrip], [frame_canonical],
    [frame_truncation], [frame_damage], [encode_error_leaves_nothing],
    [encode_reservation_exact]. [ReceiveLimit] bounds frames by the configured
    budget ([receive_limit_sufficient], [entry_reservation_bounded]).

    ** Storage and the durable runtime ([crates/rafter-storage],
       [crates/rafter-runtime])

    - [Stores]: the three store traits as type classes over one type of stores,
      their errors, the validation of staged chunks, and [StoreLaws], what an
      implementation promises: an operation that succeeds has its effect on the
      [Image] the accessors report, and one that fails leaves, after a reopen,
      an image with or without the effect. [MemoryStores] is the in-memory
      implementation, [FaultyStores] puts a script of failures in front of it;
      both satisfy the laws, and so do the files below.
    - [Runtime]: [DurableRaftNode] with its fence, atomic fast path, log repair,
      staged installation, poisoning, compaction, hydration and recovery.
    - [SnapshotFlow], [Durability], [Persistence], [Fence], [RuntimeStep],
      [Restart]: the invariant of a medium ([image_ok]) and of a runtime over it
      ([live_ok]); every call keeps them, and whatever a failed call leaves on
      the medium still honours what the node owes the others.
    - [RuntimeCluster]: hosts that run, crash, fail and recover:
      [durable_state_machine_safety] and [durable_election_safety].
      [RestartTotal]: [release_is_durable] and [restart_roundtrip].
      [RuntimeErrors]: [failed_call_poisons]. [RuntimeScenario] runs three hosts
      over failing stores and witnesses these theorems; it also exhibits a
      compaction that no restart accepts ([compaction_prevents_restart]).

    ** The file stores ([crates/rafter-storage])

    - [StorageFormat], [StorageSpec]: the envelopes of hard states, journals,
      compaction markers and log frames, and that each decoder accepts exactly
      the encodings of the values it returns; what a log segment cut anywhere
      still tells. [SnapshotFormat]: the same for snapshot envelopes, the current
      manifest and the manifest of a pending transfer.
    - [FileSystem]: names with their durable and their visible contents. A system
      call may fail with or without its effect, a write in part; a crash keeps,
      of what was not synced, any contents that agree with the versions written
      (a prefix of them where they only grew), and for each name the present or
      an earlier entry until its directory is synced. These are the assumptions
      of [DURABILITY_PROTOCOL.md]: a file sync makes data durable, a rename is
      atomic, a directory sync makes names durable, one writer per directory.
    - [HardStateFile]: the replaced hard-state file and the journal with its
      recovery and checkpoints, behind one contract, [HardStateBackendLaws].
      [LogFile]: the segment with its compaction marker, rewriting and repairing
      open. [SnapshotFile], [SnapshotStoreSpec]: the directory of snapshots with
      its manifest, staged transfers, promotion, streaming and verification.
    - [FileStores]: the bundles of [file_node_stores.rs] and
      [journal_node_stores.rs] under the ownership lock, whose answer is a
      parameter. They satisfy [StoreLaws] over either hard-state backend
      ([node_store_laws]); a value outside the machine types, which no program
      can build, is refused. A bundle is opened after a crash of the host, and
      failed openings and further crashes may come before the one that succeeds.
    - [FileCluster]: [file_state_machine_safety] and [file_election_safety] for
      clusters on empty directories; [restart_preserves_image],
      [failed_append_leaves_prefix] and [failed_publication_is_atomic] for one
      bundle; [restart_after_any_call], that a directory opens again whatever
      happened to it. Three replicas run the whole stack down to the bytes, with
      a failed write, a compaction and two restarts. A bundle that is reopened
      without a crash shows what was never synced: [reopened_vote_can_be_lost].

    Loops over files carry the bytes or the chunks of the file as fuel; that it
    is enough is part of [restart_after_any_call] for those of an opening, and
    [snapshot_path_for_write_exhausted] shows that the search for a free file
    name gives up only when no sequence number is left.

    ** Not modelled

    Of [rafter-storage], the coordinator of atomic batches with its write-ahead
    log (the runtime's fast path is modelled against the contract of a batch) and
    the listing and pruning of old snapshot files; strict opening of a torn log
    is modelled, the theorems are about the repairing one. The threads and
    channels of [rafter-runtime] (pipelined driver, application worker, log
    retirement), [rafter-service], [rafter-app] and [rafter-multiraft], the
    socket transports, the simulator and test support, and the human-readable
    rendering of errors. Cluster theorems are for a fixed membership: membership
    changes are modelled and refined on a single node, their cluster-wide safety
    is not proved. *)

From stdpp Require Import base list sorting numbers option sets.
From Stdlib Require Import Strings.Byte.
Open Scope N_scope.

(** ** Fallible results *)

Inductive result (A E : Type) : Type :=
| Ok (a : A)
| Err (e : E).
Arguments Ok {A E} a.
Arguments Err {A E} e.

Declare Scope rafter_scope.
Delimit Scope rafter_scope with rafter.
Open Scope rafter_scope.

(** Rust's [?] operator. *)
Notation "'let?' x ':=' m 'in' k" :=
  (match m with Ok x => k | Err e => Err e end)
  (at level 10, x pattern, k at level 200) : rafter_scope.

Definition is_ok {A E} (r : result A E) : bool :=
  match r with Ok _ => true | Err _ => false end.

Definition map_err {A E F} (f : E -> F) (r : result A E) : result A F :=
  match r with Ok a => Ok a | Err e => Err (f e) end.

Definition is_some_and {A} (p : A -> bool) (o : option A) : bool :=
  match o with Some a => p a | None => false end.

Definition is_none_or {A} (p : A -> bool) (o : option A) : bool :=
  match o with Some a => p a | None => true end.

Definition is_none {A} (o : option A) : bool :=
  match o with Some _ => false | None => true end.

Definition is_some {A} (o : option A) : bool :=
  match o with Some _ => true | None => false end.

(** ** Record updates

    [r <| f := v |>] is [r] with the field [f] set to [v]; [r <| f ; g := v |>]
    updates the field [g] of the record stored in the field [f]. *)

Class Setter {R T : Type} (p : R -> T) := set_field : T -> R -> R.
Arguments set_field {R T} p {_} _ _ /.

Notation "r <| p := v |>" := (set_field p v r)
  (at level 1, left associativity) : rafter_scope.
Notation "r <| p ; q := v |>" := (set_field p%function (set_field q v (p%function r)) r)
  (at level 1, left associativity) : rafter_scope.

(** ** Machine integers

    [u8], [u32], [u64] and [usize] (64 bits) are naturals below their modulus.
    Plain [+] and [-] wrap around, as in a release build; the saturating and
    checked operations are written out. *)

Abbreviation u64 := N (only parsing).
Abbreviation u32 := N (only parsing).
Abbreviation usize := N (only parsing).
Abbreviation u8 := byte (only parsing).

Definition u64_modulus : N := 18446744073709551616.
Definition u64_max : N := 18446744073709551615.

Definition u64_add (a b : u64) : u64 := (a + b) mod u64_modulus.
Definition u64_sub (a b : u64) : u64 := (a + u64_modulus - b) mod u64_modulus.
Definition u64_wrapping_mul (a b : u64) : u64 := (a * b) mod u64_modulus.
Definition u64_saturating_add (a b : u64) : u64 := N.min (a + b) u64_max.
Definition u64_saturating_sub (a b : u64) : u64 := a - b.
Definition u64_saturating_mul (a b : u64) : u64 := N.min (a * b) u64_max.
Definition u64_checked_add (a b : u64) : option u64 :=
  if a + b <=? u64_max then Some (a + b) else None.
Definition u64_checked_sub (a b : u64) : option u64 :=
  if b <=? a then Some (a - b) else None.

Definition length_u64 {A} (l : list A) : u64 := N.of_nat (length l).

Lemma u64_add_small a b : a + b < u64_modulus -> u64_add a b = a + b.
Proof. intros. unfold u64_add. by apply N.mod_small. Qed.

Lemma u64_sub_small a b : b <= a -> a < u64_modulus -> u64_sub a b = a - b.
Proof.
  intros. unfold u64_sub.
  replace (a + u64_modulus - b) with ((a - b) + 1 * u64_modulus) by lia.
  rewrite N.Div0.mod_add. apply N.mod_small. lia.
Qed.

Lemma u64_add_bounded a b : u64_add a b < u64_modulus.
Proof. unfold u64_add. apply N.mod_lt. unfold u64_modulus. lia. Qed.

Lemma u64_saturating_add_bounded a b : u64_saturating_add a b <= u64_max.
Proof. unfold u64_saturating_add. lia. Qed.

Lemma u64_checked_add_Some a b c :
  u64_checked_add a b = Some c <-> a + b <= u64_max /\ c = a + b.
Proof.
  unfold u64_checked_add. destruct (N.leb_spec (a + b) u64_max).
  - split; [by intros [= <-] | by intros [_ ->]].
  - split; [done | intros [? _]; lia].
Qed.

(** ** Boolean comparisons

    [case_cmp] splits on every [N] comparison in the goal and in the
    hypotheses, leaving the order facts; [cmp] adds [lia]. *)

Ltac case_cmp1 :=
  match goal with
  | |- context [?a <=? ?b] => destruct (N.leb_spec a b)
  | |- context [?a <? ?b] => destruct (N.ltb_spec a b)
  | |- context [?a =? ?b] => destruct (N.eqb_spec a b)
  | H : context [?a <=? ?b] |- _ => destruct (N.leb_spec a b)
  | H : context [?a <? ?b] |- _ => destruct (N.ltb_spec a b)
  | H : context [?a =? ?b] |- _ => destruct (N.eqb_spec a b)
  end.

Ltac case_cmp := repeat case_cmp1.
Ltac cmp := case_cmp; simplify_eq/=; try lia; try done.

(** ** Sequences *)

Section sequences.
Context {A : Type}.
Implicit Types (l : list A) (p : A -> bool).

(** [Iterator::position]. *)
Fixpoint position p l : option nat :=
  match l with
  | [] => None
  | x :: l' => if p x then Some 0%nat else S <$> position p l'
  end.

(** [Iterator::find]. *)
Fixpoint find_first p l : option A :=
  match l with
  | [] => None
  | x :: l' => if p x then Some x else find_first p l'
  end.

(** [Iterator::find_map]. *)
Fixpoint find_map {B} (f : A -> option B) l : option B :=
  match l with
  | [] => None
  | x :: l' => match f x with Some y => Some y | None => find_map f l' end
  end.

(** [Iterator::enumerate]. *)
Definition enumerate l : list (nat * A) := imap pair l.

Fixpoint filter_bool p l : list A :=
  match l with
  | [] => []
  | x :: l' => if p x then x :: filter_bool p l' else filter_bool p l'
  end.

(** [slice::partition_point], on a slice that the predicate partitions. *)
Fixpoint partition_point p l : nat :=
  match l with
  | [] => 0%nat
  | x :: l' => if p x then S (partition_point p l') else 0%nat
  end.

Lemma partition_point_app p l k :
  Forall (fun x => p x = true) l -> Forall (fun x => p x = false) k ->
  partition_point p (l ++ k) = length l.
Proof.
  induction 1 as [|x l Hx _ IH]; intros Hk; simpl; [|by rewrite Hx, IH].
  destruct Hk as [|y k Hy _]; simpl; [done|by rewrite Hy].
Qed.

Lemma partition_point_ext p q l : (forall x, p x = q x) -> partition_point p l = partition_point q l.
Proof. intros H. induction l as [|x l IH]; simpl; [done|]. by rewrite H, IH. Qed.

Lemma elem_of_filter_bool p l x : x ∈ filter_bool p l <-> p x = true /\ x ∈ l.
Proof.
  induction l as [|y l IH]; simpl; [set_solver|].
  destruct (p y) eqn:E; rewrite ?elem_of_cons, ?IH.
  - split; [intros [->|[??]]; auto | intros [? [->|?]]; auto].
  - split; [intros [??]; auto | intros [? [->|?]]; [congruence|auto]].
Qed.

Lemma filter_bool_ext p q l :
  (forall x, x ∈ l -> p x = q x) -> filter_bool p l = filter_bool q l.
Proof.
  induction l as [|x l IH]; intros H; simpl; [done|].
  rewrite (H x) by set_solver. rewrite IH by set_solver. done.
Qed.

Lemma filter_bool_app p l k :
  filter_bool p (l ++ k) = filter_bool p l ++ filter_bool p k.
Proof. induction l as [|x l IH]; simpl; [done|]. rewrite IH. by destruct (p x). Qed.

Lemma position_Some p l i :
  position p l = Some i <->
  exists x, l !! i = Some x /\ p x = true /\
            forall j y, (j < i)%nat -> l !! j = Some y -> p y = false.
Proof.
  revert i. induction l as [|x l IH]; intros i; simpl.
  - split; [done|]. intros (? & ? & _). by rewrite lookup_nil in *.
  - destruct (p x) eqn:E.
    + split.
      * intros [= <-]. exists x. split_and!; [done..|lia].
      * intros (y & Hy & Hpy & Hlt). destruct i as [|i]; [done|].
        specialize (Hlt 0%nat x ltac:(lia) eq_refl). congruence.
    + rewrite fmap_Some. split.
      * intros (j & (y & Hy & Hpy & Hlt)%IH & ->). exists y. split_and!; [done..|].
        intros [|k] z Hk Hz; simplify_eq/=; [done|]. eapply Hlt; [|done]. lia.
      * intros (y & Hy & Hpy & Hlt). destruct i as [|i]; simplify_eq/=; [congruence|].
        exists i. split; [|done]. apply IH. exists y. split_and!; [done..|].
        intros k z Hk Hz. apply (Hlt (S k) z); [lia|done].
Qed.

Lemma position_None p l :
  position p l = None <-> forall x, x ∈ l -> p x = false.
Proof.
  induction l as [|x l IH]; simpl; [set_solver|].
  destruct (p x) eqn:E.
  - split; [done|]. intros H. by rewrite (H x (list_elem_of_here _ _)) in E.
  - rewrite fmap_None, IH. setoid_rewrite elem_of_cons.
    split; [intros H y [->|?]; auto | auto].
Qed.

Lemma position_lt p l i : position p l = Some i -> (i < length l)%nat.
Proof. intros (x & Hx & _)%position_Some. by eapply lookup_lt_Some. Qed.
End sequences.

(** ** Sorted sets of identities

    [BTreeSet<u64>] is its ascending sequence of elements; [sort_unstable] on
    identities is a sort by [<=]. *)

Fixpoint btree_insert (x : N) (s : list N) : list N :=
  match s with
  | [] => [x]
  | y :: s' =>
      if x <? y then x :: s
      else if x =? y then s
      else y :: btree_insert x s'
  end.

Definition btree_collect (l : list N) : list N :=
  fold_left (fun s x => btree_insert x s) l [].

Definition elem (x : N) (l : list N) : bool := existsb (N.eqb x) l.

Definition sort_unstable (l : list N) : list N := merge_sort N.le l.

(** [<[N]>::binary_search] on an ascending slice without repetitions. *)
Definition binary_search (l : list N) (x : N) : option nat := position (N.eqb x) l.

Abbreviation ascending := (StronglySorted N.lt).

Lemma elem_spec x l : elem x l = true <-> x ∈ l.
Proof.
  unfold elem. rewrite existsb_exists, list_elem_of_In.
  split; [intros (y & ? & ->%N.eqb_eq)|intros; exists x; rewrite N.eqb_refl]; done.
Qed.

Lemma elem_false x l : elem x l = false <-> x ∉ l.
Proof. rewrite <- elem_spec. by destruct (elem x l). Qed.

Lemma elem_of_btree_insert x y s : y ∈ btree_insert x s <-> y = x \/ y ∈ s.
Proof.
  induction s as [|z s IH]; simpl; [set_solver|].
  case_cmp; rewrite ?elem_of_cons, ?IH; set_solver.
Qed.

Lemma btree_insert_ascending x s : ascending s -> ascending (btree_insert x s).
Proof.
  induction 1 as [|y s Hs IH Hy]; simpl; [by repeat constructor|].
  case_cmp; subst; [| by constructor|].
  - repeat constructor; [done..|].
    eapply Forall_impl; [done|]. intros z ?. simpl in *. lia.
  - constructor; [done|]. apply Forall_forall. intros z.
    rewrite elem_of_btree_insert. intros [->|Hz]; [lia|].
    by eapply Forall_forall in Hy.
Qed.

Lemma elem_of_btree_collect x l : x ∈ btree_collect l <-> x ∈ l.
Proof.
  unfold btree_collect.
  enough (forall s, x ∈ fold_left (fun s y => btree_insert y s) l s <-> x ∈ l \/ x ∈ s) as ->
    by set_solver.
  induction l as [|y l IH]; intros s; simpl; [set_solver|].
  rewrite IH, elem_of_btree_insert. set_solver.
Qed.

Lemma btree_collect_ascending l : ascending (btree_collect l).
Proof.
  unfold btree_collect.
  enough (forall s, ascending s -> ascending (fold_left (fun s y => btree_insert y s) l s)) as H
    by (apply H; constructor).
  induction l as [|y l IH]; intros s Hs; simpl; [done|].
  apply IH. by apply btree_insert_ascending.
Qed.

Lemma ascending_NoDup l : ascending l -> NoDup l.
Proof.
  induction 1 as [|x l _ IH Hx]; constructor; [|done].
  intros Hin. eapply Forall_forall in Hx; [|done]. simpl in Hx. lia.
Qed.

Lemma ascending_le l : ascending l -> StronglySorted N.le l.
Proof.
  induction 1 as [|x l _ IH Hx]; constructor; [done|].
  eapply Forall_impl; [done|]. intros y ?. simpl in *. lia.
Qed.

(** An ascending sequence is determined by its elements. *)
Lemma ascending_ext l k :
  ascending l -> ascending k -> (forall x, x ∈ l <-> x ∈ k) -> l = k.
Proof.
  intros Hl Hk Hext. apply (StronglySorted_unique N.le).
  - by apply ascending_le.
  - by apply ascending_le.
  - apply NoDup_Permutation; auto using ascending_NoDup.
Qed.
