(* ===== verification/Types.v ===== *)
(** * Protocol identities, memberships and log entries

    Models [crates/rafter/src/types/id.rs], [types/membership.rs],
    [types/membership/validate.rs], [types/configuration.rs] and
    [message/entry.rs].  The newtypes over [u64] are the naturals they wrap. *)

From stdpp Require Import base list sorting numbers option.
From Stdlib Require Import Strings.Byte.
From S2P Require Import Prelude.

(** ** Identities *)

Abbreviation NodeId := N (only parsing).
Abbreviation LocalProposalId := N (only parsing).
Abbreviation ReadId := N (only parsing).
Abbreviation Term := N (only parsing).
Abbreviation LogIndex := N (only parsing).
Abbreviation ConfigurationId := N (only parsing).

Definition Term_next (t : Term) : Term := u64_saturating_add t 1.
Definition Term_checked_next (t : Term) : option Term := u64_checked_add t 1.
Definition Term_is_zero (t : Term) : bool := t =? 0.
Definition LogIndex_next (i : LogIndex) : LogIndex := u64_add i 1.
Definition ConfigurationId_next (c : ConfigurationId) : ConfigurationId := u64_add c 1.

#[export] Instance byte_eq_dec : EqDecision byte := Byte.byte_eq_dec.

(** ** Memberships *)

Record MembershipSet := {
  voters : list NodeId;
  learners : list NodeId;
}.

Record JointMembership := {
  old : MembershipSet;
  new_membership : MembershipSet;
}.

Inductive MembershipConfig :=
| Stable (set : MembershipSet)
| Joint (joint : JointMembership).

Inductive MembershipValidationError :=
| EmptyVoters
| DuplicateVoter (node_id : NodeId)
| DuplicateLearner (node_id : NodeId)
| LearnerVoterOverlap (node_id : NodeId).

Inductive DuplicateKind := DuplicateKind_Voter | DuplicateKind_Learner.

#[export] Instance MembershipSet_eq_dec : EqDecision MembershipSet.
Proof. solve_decision. Defined.
#[export] Instance JointMembership_eq_dec : EqDecision JointMembership.
Proof. solve_decision. Defined.
#[export] Instance MembershipConfig_eq_dec : EqDecision MembershipConfig.
Proof. solve_decision. Defined.
#[export] Instance MembershipValidationError_eq_dec : EqDecision MembershipValidationError.
Proof. solve_decision. Defined.

(** The scan of [validate_unique] over the sorted sequence. *)
Fixpoint first_duplicate (previous : option NodeId) (nodes : list NodeId) : option NodeId :=
  match nodes with
  | [] => None
  | node :: rest =>
      if bool_decide (previous = Some node) then Some node
      else first_duplicate (Some node) rest
  end.

Definition validate_unique (nodes : list NodeId) (kind : DuplicateKind)
  : result (list NodeId) MembershipValidationError :=
  let nodes := sort_unstable nodes in
  match first_duplicate None nodes with
  | Some node =>
      Err (match kind with
           | DuplicateKind_Voter => DuplicateVoter node
           | DuplicateKind_Learner => DuplicateLearner node
           end)
  | None => Ok nodes
  end.

Definition union_node_ids (left right : list NodeId) : list NodeId :=
  btree_collect (left ++ right).

Definition majority (voter_count : nat) : nat := (voter_count / 2 + 1)%nat.

Definition MembershipSet_new (voters learners : list NodeId)
  : result MembershipSet MembershipValidationError :=
  let? voters := validate_unique voters DuplicateKind_Voter in
  match voters with
  | [] => Err EmptyVoters
  | _ :: _ =>
      let? learners := validate_unique learners DuplicateKind_Learner in
      match find_first (fun learner => is_some (binary_search voters learner)) learners with
      | Some learner => Err (LearnerVoterOverlap learner)
      | None => Ok {| voters := voters; learners := learners |}
      end
  end.

Definition MembershipSet_replica_ids (m : MembershipSet) : list NodeId :=
  union_node_ids (voters m) (learners m).

Definition MembershipSet_quorum_size (m : MembershipSet) : nat := majority (length (voters m)).

(** [acks] is the ascending sequence of a [BTreeSet]. *)
Definition MembershipSet_has_quorum_set (m : MembershipSet) (acks : list NodeId) : bool :=
  (MembershipSet_quorum_size m <=?
   length (filter_bool (fun voter => elem voter acks) (voters m)))%nat.

Definition MembershipSet_has_quorum (m : MembershipSet) (acknowledgements : list NodeId) : bool :=
  MembershipSet_has_quorum_set m (btree_collect acknowledgements).

Definition JointMembership_has_quorum_set (j : JointMembership) (acks : list NodeId) : bool :=
  MembershipSet_has_quorum_set (old j) acks
  && MembershipSet_has_quorum_set (new_membership j) acks.

Definition JointMembership_has_quorum (j : JointMembership) (acknowledgements : list NodeId)
  : bool :=
  JointMembership_has_quorum_set j (btree_collect acknowledgements).

Definition MembershipConfig_has_quorum (c : MembershipConfig) (acknowledgements : list NodeId)
  : bool :=
  let acks := btree_collect acknowledgements in
  match c with
  | Stable stable => MembershipSet_has_quorum_set stable acks
  | Joint joint => JointMembership_has_quorum_set joint acks
  end.

Definition voter_ids (c : MembershipConfig) : list NodeId :=
  match c with
  | Stable stable => voters stable
  | Joint joint => btree_collect (voters (old joint) ++ voters (new_membership joint))
  end.

Definition replica_ids (c : MembershipConfig) : list NodeId :=
  match c with
  | Stable stable => MembershipSet_replica_ids stable
  | Joint joint =>
      union_node_ids (MembershipSet_replica_ids (old joint))
                     (MembershipSet_replica_ids (new_membership joint))
  end.

Definition contains_voter (c : MembershipConfig) (node_id : NodeId) : bool :=
  match c with
  | Stable stable => elem node_id (voters stable)
  | Joint joint =>
      elem node_id (voters (old joint)) || elem node_id (voters (new_membership joint))
  end.

Definition contains_learner (c : MembershipConfig) (node_id : NodeId) : bool :=
  match c with
  | Stable stable => elem node_id (learners stable)
  | Joint joint =>
      elem node_id (learners (old joint)) || elem node_id (learners (new_membership joint))
  end.

Definition contains_replica (c : MembershipConfig) (node_id : NodeId) : bool :=
  contains_voter c node_id || contains_learner c node_id.

(** ** Configuration entries *)

Inductive ConfigurationPhase := PhaseStable | PhaseJoint.

Inductive ConfigurationEntry :=
| StableEntry (id : ConfigurationId) (membership : MembershipSet)
| JointEntry (id : ConfigurationId) (membership : JointMembership).

Record CommittedConfiguration := {
  cc_index : LogIndex;
  cc_config_id : ConfigurationId;
}.

Record PromotionBarrier := {
  learner_id : NodeId;
  required_match_index : LogIndex;
}.

Definition config_id (e : ConfigurationEntry) : ConfigurationId :=
  match e with StableEntry id _ | JointEntry id _ => id end.

Definition phase (e : ConfigurationEntry) : ConfigurationPhase :=
  match e with StableEntry _ _ => PhaseStable | JointEntry _ _ => PhaseJoint end.

Definition membership_config (e : ConfigurationEntry) : MembershipConfig :=
  match e with
  | StableEntry _ membership => Stable membership
  | JointEntry _ membership => Joint membership
  end.

#[export] Instance ConfigurationPhase_eq_dec : EqDecision ConfigurationPhase.
Proof. solve_decision. Defined.
#[export] Instance ConfigurationEntry_eq_dec : EqDecision ConfigurationEntry.
Proof. solve_decision. Defined.
#[export] Instance CommittedConfiguration_eq_dec : EqDecision CommittedConfiguration.
Proof. solve_decision. Defined.
#[export] Instance PromotionBarrier_eq_dec : EqDecision PromotionBarrier.
Proof. solve_decision. Defined.

(** ** Log entries

    An application payload is the byte slice a [SharedPayload] denotes; its
    equality in the source compares slices. *)

Inductive LogEntryKind :=
| Application (payload : list u8)
| Configuration (entry : ConfigurationEntry)
| Noop.

Record LogEntry := {
  entry_term : Term;
  entry_kind : LogEntryKind;
}.

#[export] Instance LogEntryKind_eq_dec : EqDecision LogEntryKind.
Proof. solve_decision. Defined.
#[export] Instance LogEntry_eq_dec : EqDecision LogEntry.
Proof. solve_decision. Defined.

Definition is_application (k : LogEntryKind) : bool :=
  match k with Application _ => true | _ => false end.

Definition is_configuration (k : LogEntryKind) : bool :=
  match k with Configuration _ => true | _ => false end.

Definition application_payload (e : LogEntry) : option (list u8) :=
  match entry_kind e with
  | Application payload => Some payload
  | Configuration _ | Noop => None
  end.

Definition configuration_entry (e : LogEntry) : option ConfigurationEntry :=
  match entry_kind e with
  | Configuration entry => Some entry
  | Application _ | Noop => None
  end.

Definition LogEntry_application (term : Term) (payload : list u8) : LogEntry :=
  {| entry_term := term; entry_kind := Application payload |}.

Definition LogEntry_configuration (term : Term) (configuration : ConfigurationEntry) : LogEntry :=
  {| entry_term := term; entry_kind := Configuration configuration |}.

Definition LogEntry_noop (term : Term) : LogEntry :=
  {| entry_term := term; entry_kind := Noop |}.

(** ** Replication size accounting *)

Definition APPLICATION_LOG_ENTRY_REPLICATION_OVERHEAD_BYTES : usize := 64.
Definition NOOP_LOG_ENTRY_REPLICATION_BYTES : usize := 16.
Definition CONFIGURATION_LOG_ENTRY_BASE_BYTES : usize := 64.
Definition CONFIGURATION_LOG_ENTRY_PER_MEMBER_BYTES : usize := 12.

Definition application_replication_bytes (payload_len : usize) : usize :=
  u64_saturating_add payload_len APPLICATION_LOG_ENTRY_REPLICATION_OVERHEAD_BYTES.

Definition max_application_payload_len (max_replication_bytes : usize) : usize :=
  u64_saturating_sub max_replication_bytes APPLICATION_LOG_ENTRY_REPLICATION_OVERHEAD_BYTES.

Definition replication_bytes (e : LogEntry) : usize :=
  match entry_kind e with
  | Application payload => application_replication_bytes (length_u64 payload)
  | Configuration entry =>
      let members :=
        match membership_config entry with
        | Stable membership =>
            u64_add (length_u64 (voters membership)) (length_u64 (learners membership))
        | Joint joint =>
            u64_add
              (u64_add
                 (u64_add (length_u64 (voters (old joint))) (length_u64 (learners (old joint))))
                 (length_u64 (voters (new_membership joint))))
              (length_u64 (learners (new_membership joint)))
        end in
      u64_saturating_add CONFIGURATION_LOG_ENTRY_BASE_BYTES
        (u64_saturating_mul CONFIGURATION_LOG_ENTRY_PER_MEMBER_BYTES members)
  | Noop => NOOP_LOG_ENTRY_REPLICATION_BYTES
  end.
