(* ===== verification/Crc32.v ===== *)
(** * CRC-32 by slicing-by-8

    Models [crates/rafter/src/types/snapshot/checksum.rs] (the checksum of
    snapshot payload descriptors) and [crates/rafter-crc32/src/checksum.rs]
    (the running checksum of frames).  Both walk the input eight bytes at a
    time through eight 256-entry tables; the theorems show that they compute
    the bitwise CRC-32 and that the running form may be fed in pieces. *)

From stdpp Require Import base list numbers option.
From Stdlib Require Import Strings.Byte.
From S2P Require Import Prelude.

Definition POLYNOMIAL : u32 := 3988292384. (* 0xEDB8_8320 *)
Definition u32_ones : u32 := 4294967295.   (* 0xFFFF_FFFF *)

(** ** Table construction *)

(** One iteration of the inner loop. *)
Definition crc_bit (crc : u32) : u32 :=
  if N.land crc 1 =? 1 then N.lxor (N.shiftr crc 1) POLYNOMIAL else N.shiftr crc 1.

Definition first_table : list u32 :=
  (fun byte => Nat.iter 8 crc_bit (N.of_nat byte)) <$> seq 0 256.

Definition table_get (table : list u32) (i : u32) : u32 := table !!! N.to_nat i.

Definition next_table (table0 previous : list u32) : list u32 :=
  (fun p => N.lxor (N.shiftr p 8) (table_get table0 (N.land p 255))) <$> previous.

Fixpoint slices (table0 previous : list u32) (n : nat) : list (list u32) :=
  match n with
  | O => []
  | S n' => let t := next_table table0 previous in t :: slices table0 t n'
  end.

Definition build_tables : list (list u32) := first_table :: slices first_table first_table 7.

Definition TABLES : list (list u32) := Eval vm_compute in build_tables.

Definition lookup_table (k : nat) (byte : u32) : u32 := table_get (TABLES !!! k) byte.

(** ** Little-endian words *)

Definition from_le_bytes (a b c d : u8) : u32 :=
  N.lor (to_N a)
    (N.lor (N.shiftl (to_N b) 8) (N.lor (N.shiftl (to_N c) 16) (N.shiftl (to_N d) 24))).

(** The [i]-th byte of [u32::to_le_bytes]. *)
Definition le_byte (w : u32) (i : N) : u32 := N.land (N.shiftr w (8 * i)) 255.

(** ** The checksum *)

Definition crc_block (state : u32) (a b c d e f g h : u8) : u32 :=
  let word := N.lxor state (from_le_bytes a b c d) in
  N.lxor (lookup_table 7 (le_byte word 0))
  (N.lxor (lookup_table 6 (le_byte word 1))
  (N.lxor (lookup_table 5 (le_byte word 2))
  (N.lxor (lookup_table 4 (le_byte word 3))
  (N.lxor (lookup_table 3 (to_N e))
  (N.lxor (lookup_table 2 (to_N f))
  (N.lxor (lookup_table 1 (to_N g))
          (lookup_table 0 (to_N h)))))))).

Definition crc_tail_byte (state : u32) (byte : u8) : u32 :=
  let index := N.land (N.lxor state (to_N byte)) 255 in
  N.lxor (N.shiftr state 8) (lookup_table 0 index).

(** The block loop followed by the tail loop. *)
Fixpoint crc_update (state : u32) (bytes : list u8) : u32 :=
  match bytes with
  | a :: b :: c :: d :: e :: f :: g :: h :: rest =>
      crc_update (crc_block state a b c d e f g h) rest
  | tail => fold_left crc_tail_byte tail state
  end.

Definition u32_not (x : u32) : u32 := N.lxor x u32_ones.

(** [types::snapshot::checksum::crc32]. *)
Definition crc32 (bytes : list u8) : u32 := u32_not (crc_update u32_ones bytes).

(** [rafter_crc32::RunningCrc32]. *)
Record RunningCrc32 := { crc_state : u32 }.
Definition RunningCrc32_new : RunningCrc32 := {| crc_state := u32_ones |}.
Definition RunningCrc32_update (c : RunningCrc32) (bytes : list u8) : RunningCrc32 :=
  {| crc_state := crc_update (crc_state c) bytes |}.
Definition RunningCrc32_value (c : RunningCrc32) : u32 := u32_not (crc_state c).
Definition frame_crc32 (bytes : list u8) : u32 :=
  RunningCrc32_value (RunningCrc32_update RunningCrc32_new bytes).

(** ** Bitwise reference *)

Definition crc_bitwise_byte (crc : u32) (byte : u8) : u32 :=
  Nat.iter 8 crc_bit (N.lxor crc (to_N byte)).

Definition bitwise_crc32 (bytes : list u8) : u32 :=
  u32_not (fold_left crc_bitwise_byte bytes u32_ones).

(** ** Linearity of the bit step *)

Notation bits n := (Nat.iter n crc_bit).

Lemma crc_bit_eq c :
  crc_bit c = N.lxor (N.shiftr c 1) (if N.testbit c 0 then POLYNOMIAL else 0).
Proof.
  unfold crc_bit.
  replace (N.land c 1 =? 1) with (N.testbit c 0) by (by destruct c as [|[]]).
  destruct (N.testbit c 0); [done|]. by rewrite N.lxor_0_r.
Qed.

Lemma crc_bit_lxor a b : crc_bit (N.lxor a b) = N.lxor (crc_bit a) (crc_bit b).
Proof.
  rewrite !crc_bit_eq, N.shiftr_lxor, N.lxor_spec.
  apply N.bits_inj. intros i. rewrite !N.lxor_spec.
  destruct (N.testbit a 0), (N.testbit b 0); cbn [xorb]; rewrite ?N.bits_0;
    by destruct (N.testbit (N.shiftr a 1) i), (N.testbit (N.shiftr b 1) i),
         (N.testbit POLYNOMIAL i).
Qed.

Lemma bits_lxor n a b : bits n (N.lxor a b) = N.lxor (bits n a) (bits n b).
Proof. induction n as [|n IH]; simpl; [done|]. by rewrite IH, crc_bit_lxor. Qed.

Lemma bits_add n m a : bits (n + m) a = bits n (bits m a).
Proof. induction n as [|n IH]; simpl; congruence. Qed.

(** Zero low bits are shifted out. *)
Lemma bits_shiftl n a : bits n (N.shiftl a (N.of_nat n)) = a.
Proof.
  revert a. induction n as [|n IH]; intros a; [apply N.shiftl_0_r|].
  rewrite Nat.iter_succ_r, crc_bit_eq.
  rewrite N.shiftl_spec_low by lia. rewrite N.lxor_0_r.
  rewrite N.shiftr_shiftl_l by lia.
  replace (N.of_nat (S n) - 1) with (N.of_nat n) by lia. apply IH.
Qed.

Lemma split_byte a : a = N.lxor (N.shiftl (N.shiftr a 8) 8) (N.land a 255).
Proof.
  change 255 with (N.ones 8). apply N.bits_inj. intros i.
  rewrite N.lxor_spec, N.land_spec.
  destruct (N.lt_ge_cases i 8) as [Hi|Hi].
  - rewrite N.shiftl_spec_low, N.ones_spec_low by lia. by destruct (N.testbit a i).
  - rewrite N.shiftl_spec_high', N.shiftr_spec', N.ones_spec_high by lia.
    rewrite N.sub_add, andb_false_r, xorb_false_r by lia. done.
Qed.

(** ** Table contents *)

Lemma bits_8_split a :
  bits 8 a = N.lxor (N.shiftr a 8) (bits 8 (N.land a 255)).
Proof.
  rewrite (split_byte a) at 1. rewrite bits_lxor.
  f_equal. exact (bits_shiftl 8 (N.shiftr a 8)).
Qed.

Lemma byte_small (b : u8) : to_N b < 256.
Proof. pose proof (to_N_bounded b). lia. Qed.

Lemma land_255_small a : N.land a 255 < 256.
Proof. change 255 with (N.ones 8). rewrite N.land_ones. by apply N.mod_lt. Qed.

Definition table_entry_ok (k : nat) (i : nat) : bool :=
  lookup_table k (N.of_nat i) =? bits (8 * (k + 1)) (N.of_nat i).

Lemma tables_ok : forallb (fun k => forallb (table_entry_ok k) (seq 0 256)) (seq 0 8) = true.
Proof. by vm_compute. Qed.

(** Entry [i] of table [k] is [i] pushed through [8 * (k + 1)] bit steps. *)
Lemma lookup_table_eq k i :
  (k < 8)%nat -> i < 256 -> lookup_table k i = bits (8 * (k + 1)) i.
Proof.
  intros Hk Hi. pose proof tables_ok as H.
  rewrite forallb_forall in H. specialize (H k). rewrite in_seq in H.
  specialize (H ltac:(lia)). rewrite forallb_forall in H. specialize (H (N.to_nat i)).
  rewrite in_seq in H. specialize (H ltac:(lia)). unfold table_entry_ok in H.
  apply N.eqb_eq in H. by rewrite N2Nat.id in H.
Qed.

(** ** Byte steps *)

Lemma shiftr_byte (b : u8) : N.shiftr (to_N b) 8 = 0.
Proof. rewrite N.shiftr_div_pow2. apply N.div_small, byte_small. Qed.

Lemma crc_tail_byte_bitwise state b : crc_tail_byte state b = crc_bitwise_byte state b.
Proof.
  unfold crc_tail_byte, crc_bitwise_byte.
  rewrite lookup_table_eq by (lia || apply land_255_small).
  rewrite (bits_8_split (N.lxor state (to_N b))), N.shiftr_lxor, shiftr_byte, N.lxor_0_r.
  done.
Qed.

(** ** Blocks *)

(** A 32-bit word is the combination of its little-endian bytes. *)
Lemma word_bytes w :
  w < 2 ^ 32 ->
  w = N.lxor (le_byte w 0)
        (N.lxor (N.shiftl (le_byte w 1) 8)
           (N.lxor (N.shiftl (le_byte w 2) 16) (N.shiftl (le_byte w 3) 24))).
Proof.
  intros Hw. unfold le_byte.
  rewrite (split_byte w) at 1. rewrite N.lxor_comm, N.shiftr_0_r. f_equal.
  rewrite (split_byte (N.shiftr w 8)) at 1.
  rewrite N.shiftl_lxor, N.lxor_comm. f_equal.
  rewrite N.shiftr_shiftr, N.shiftl_shiftl.
  rewrite (split_byte (N.shiftr w (8 + 8))) at 1.
  rewrite N.shiftl_lxor, N.lxor_comm. f_equal.
  rewrite N.shiftr_shiftr, N.shiftl_shiftl.
  replace (N.land (N.shiftr w (8 * 3)) 255) with (N.shiftr w (8 + 8 + 8)); [done|].
  change 255 with (N.ones 8). rewrite N.land_ones, N.mod_small; [done|].
  rewrite N.shiftr_div_pow2. apply N.Div0.div_lt_upper_bound. exact Hw.
Qed.

Lemma lor_disjoint_shift a b n :
  a < 2 ^ n -> N.lor a (N.shiftl b n) = N.lxor a (N.shiftl b n).
Proof.
  intros Ha. apply N.bits_inj. intros i. rewrite N.lor_spec, N.lxor_spec.
  destruct (N.lt_ge_cases i n) as [Hi|Hi].
  - rewrite N.shiftl_spec_low by done. by destruct (N.testbit a i).
  - rewrite N.shiftl_spec_high' by done.
    replace (N.testbit a i) with false; [by destruct (N.testbit b (i - n))|].
    symmetry. rewrite <- (N.mod_small a (2 ^ n)) by done.
    by apply N.mod_pow2_bits_high.
Qed.

Lemma from_le_bytes_lxor a b c d :
  from_le_bytes a b c d =
  N.lxor (to_N a)
    (N.lxor (N.shiftl (to_N b) 8)
       (N.lxor (N.shiftl (to_N c) 16) (N.shiftl (to_N d) 24))).
Proof.
  pose proof (byte_small a). pose proof (byte_small b). pose proof (byte_small c).
  unfold from_le_bytes.
  assert (forall x n m, N.shiftl x (n + m) = N.shiftl (N.shiftl x m) n) as Hs
    by (intros; by rewrite N.shiftl_shiftl, N.add_comm).
  change 24 with (8 + (8 + 8)). change 16 with (8 + 8). rewrite !Hs.
  rewrite <- !N.shiftl_lor, <- !N.shiftl_lxor.
  rewrite !lor_disjoint_shift by done. done.
Qed.

Lemma bits_add_shiftl n k a : bits (n + k) (N.shiftl a (N.of_nat k)) = bits n a.
Proof. by rewrite bits_add, bits_shiftl. Qed.

Lemma lxor_small n a b : a < 2 ^ n -> b < 2 ^ n -> N.lxor a b < 2 ^ n.
Proof.
  intros Ha Hb.
  replace (N.lxor a b) with (N.lxor a b mod 2 ^ n); [by apply N.mod_lt, N.pow_nonzero|].
  apply N.bits_inj. intros i. destruct (N.lt_ge_cases i n).
  - by rewrite N.mod_pow2_bits_low.
  - rewrite N.mod_pow2_bits_high by done. rewrite N.lxor_spec.
    rewrite <- (N.mod_small a (2 ^ n)), <- (N.mod_small b (2 ^ n)) by done.
    by rewrite !N.mod_pow2_bits_high.
Qed.

Lemma shiftl_byte_small (b : u8) n : n <= 24 -> N.shiftl (to_N b) n < 2 ^ 32.
Proof.
  intros Hn. pose proof (byte_small b). rewrite N.shiftl_mul_pow2.
  apply N.lt_le_trans with (256 * 2 ^ n).
  - apply N.mul_lt_mono_pos_r; [|done]. apply N.neq_0_lt_0, N.pow_nonzero. lia.
  - change 256 with (2 ^ 8). rewrite <- N.pow_add_r. apply N.pow_le_mono_r; lia.
Qed.

Lemma from_le_bytes_small a b c d : from_le_bytes a b c d < 2 ^ 32.
Proof.
  rewrite from_le_bytes_lxor.
  repeat apply lxor_small; try (apply shiftl_byte_small; lia).
  pose proof (byte_small a). lia.
Qed.

(** The state after a word and four more bytes. *)
Lemma bits_word w :
  w < 2 ^ 32 ->
  bits 64 w = N.lxor (bits 64 (le_byte w 0))
                (N.lxor (bits 56 (le_byte w 1))
                   (N.lxor (bits 48 (le_byte w 2)) (bits 40 (le_byte w 3)))).
Proof.
  intros Hw. rewrite (word_bytes w Hw) at 1. rewrite !bits_lxor.
  f_equal. f_equal; [exact (bits_add_shiftl 56 8 _)|].
  f_equal; [exact (bits_add_shiftl 48 16 _)|exact (bits_add_shiftl 40 24 _)].
Qed.

Lemma le_byte_small w i : le_byte w i < 256.
Proof. apply land_255_small. Qed.

(** One table-driven block is eight bitwise bytes. *)
Lemma crc_block_bitwise s a b c d e f g h :
  s < 2 ^ 32 ->
  crc_block s a b c d e f g h =
  fold_left crc_bitwise_byte [a; b; c; d; e; f; g; h] s.
Proof.
  intros Hs. unfold crc_block. set (w := N.lxor s (from_le_bytes a b c d)).
  assert (w < 2 ^ 32) as Hw by (apply lxor_small; [done|apply from_le_bytes_small]).
  rewrite !lookup_table_eq by (lia || apply le_byte_small || apply byte_small).
  change (8 * (7 + 1))%nat with 64%nat. change (8 * (6 + 1))%nat with 56%nat.
  change (8 * (5 + 1))%nat with 48%nat. change (8 * (4 + 1))%nat with 40%nat.
  rewrite <- (N.lxor_assoc (bits 48 _)), <- (N.lxor_assoc (bits 56 _)),
          <- (N.lxor_assoc (bits 64 _)), <- (bits_word w Hw).
  cbn [fold_left]. unfold crc_bitwise_byte. rewrite !bits_lxor, <- !bits_add.
  unfold w. rewrite from_le_bytes_lxor, !bits_lxor, !N.lxor_assoc.
  rewrite (bits_add_shiftl 56 8 (to_N b) : bits 64 (N.shiftl (to_N b) 8) = bits 56 (to_N b)),
          (bits_add_shiftl 48 16 (to_N c) : bits 64 (N.shiftl (to_N c) 16) = bits 48 (to_N c)),
          (bits_add_shiftl 40 24 (to_N d) : bits 64 (N.shiftl (to_N d) 24) = bits 40 (to_N d)).
  done.
Qed.

Lemma bits_small n a : a < 2 ^ 32 -> bits n a < 2 ^ 32.
Proof.
  intros Ha. induction n as [|n IH]; simpl; [done|].
  rewrite crc_bit_eq. apply lxor_small.
  - rewrite N.shiftr_div_pow2. apply N.Div0.div_lt_upper_bound. lia.
  - by destruct (N.testbit _ 0).
Qed.

Lemma crc_bitwise_small l s :
  s < 2 ^ 32 -> fold_left crc_bitwise_byte l s < 2 ^ 32.
Proof.
  revert s. induction l as [|b l IH]; intros s Hs; simpl; [done|].
  apply IH, bits_small, lxor_small; [done|]. pose proof (byte_small b). lia.
Qed.

(** The block and tail loops together run the bitwise step on every byte. *)
Lemma crc_update_bitwise : forall bytes state,
  state < 2 ^ 32 -> crc_update state bytes = fold_left crc_bitwise_byte bytes state.
Proof.
  fix IH 1. intros bytes s Hs.
  assert (forall l s, fold_left crc_tail_byte l s = fold_left crc_bitwise_byte l s) as Htail.
  { clear. induction l as [|b l IHl]; intros s; simpl; [done|].
    by rewrite crc_tail_byte_bitwise, IHl. }
  destruct bytes as [|a [|b [|c [|d [|e [|f [|g [|h rest]]]]]]]]; try apply Htail.
  change (crc_update (crc_block s a b c d e f g h) rest =
          fold_left crc_bitwise_byte ([a; b; c; d; e; f; g; h] ++ rest) s).
  rewrite fold_left_app, <- crc_block_bitwise by done.
  apply IH. rewrite crc_block_bitwise by done. by apply crc_bitwise_small.
Qed.

(** The tables the sources evaluate at compile time are the ones used here. *)
Lemma TABLES_eq : TABLES = build_tables.
Proof. by vm_compute. Qed.

(** ** Theorems *)

Definition running (pieces : list (list u8)) : RunningCrc32 :=
  fold_left RunningCrc32_update pieces RunningCrc32_new.

(** C27: the slicing-by-8 checksum of snapshot payload descriptors is the
    bitwise CRC-32 of the payload, for every byte string. *)
Theorem crc32_is_bitwise bytes : crc32 bytes = bitwise_crc32 bytes.
Proof. unfold crc32, bitwise_crc32. by rewrite crc_update_bitwise. Qed.

Lemma running_state pieces :
  crc_state (running pieces) = fold_left crc_bitwise_byte (concat pieces) u32_ones.
Proof.
  unfold running.
  enough (forall c, crc_state c < 2 ^ 32 ->
    crc_state (fold_left RunningCrc32_update pieces c) =
    fold_left crc_bitwise_byte (concat pieces) (crc_state c)) as H by by apply H.
  induction pieces as [|p pieces IH]; intros c Hc; simpl; [done|].
  rewrite fold_left_app, IH; simpl; rewrite crc_update_bitwise by done; [done|].
  by apply crc_bitwise_small.
Qed.

(** Feeding a running checksum any sequence of slices gives the one-shot
    checksum of their concatenation, and it agrees with the kernel's copy of
    the routine. *)
Theorem running_crc32_concat pieces :
  RunningCrc32_value (running pieces) = frame_crc32 (concat pieces) /\
  frame_crc32 (concat pieces) = crc32 (concat pieces).
Proof.
  split; [|done]. unfold RunningCrc32_value. rewrite running_state.
  unfold frame_crc32, RunningCrc32_value. simpl. by rewrite crc_update_bitwise.
Qed.

Example crc32_check_value :
  crc32 [x31; x32; x33; x34; x35; x36; x37; x38; x39] = 3421780262.
Proof. by vm_compute. Qed.

(** ** Damage

    The bit step is a bijection of 32-bit states, so two inputs that differ in
    one window of at most four bytes have different checksums. *)

Lemma crc_bit_zero a : a < 2 ^ 32 -> crc_bit a = 0 -> a = 0.
Proof.
  intros Ha. rewrite crc_bit_eq. intros H. apply N.lxor_eq in H.
  assert (N.shiftr a 1 < 2 ^ 31) as Hs
    by (rewrite N.shiftr_div_pow2; apply N.Div0.div_lt_upper_bound; lia).
  destruct (N.testbit a 0) eqn:E0; [rewrite H in Hs; unfold POLYNOMIAL in Hs; lia|].
  rewrite N.shiftr_div_pow2 in H. rewrite N.bit0_odd in E0.
  rewrite (N.div_mod a 2) by done. change (2 ^ 1) with 2 in H. rewrite H.
  apply (f_equal negb) in E0. rewrite N.negb_odd in E0. apply N.even_spec in E0 as [k Hk].
  by rewrite Hk, (N.mul_comm 2 k), N.Div0.mod_mul.
Qed.

Lemma bits_inj n a b : a < 2 ^ 32 -> b < 2 ^ 32 -> bits n a = bits n b -> a = b.
Proof.
  intros Ha Hb H. apply N.lxor_eq.
  assert (N.lxor a b < 2 ^ 32) as Hs by by apply lxor_small.
  assert (bits n (N.lxor a b) = 0) as Hz by (rewrite bits_lxor, H; apply N.lxor_nilpotent).
  clear H. revert Hz. generalize (N.lxor a b) Hs. clear. intros x Hx.
  induction n as [|n IH]; simpl; [done|]. intros Hz. apply IH, crc_bit_zero; [|done]. by apply bits_small.
Qed.

(** A window of bytes as one word, least significant byte first. *)
Fixpoint le_word (bytes : list u8) : N :=
  match bytes with
  | [] => 0
  | byte :: rest => N.lxor (to_N byte) (N.shiftl (le_word rest) 8)
  end.

Lemma crc_window bytes s :
  fold_left crc_bitwise_byte bytes s = bits (8 * length bytes) (N.lxor s (le_word bytes)).
Proof.
  revert s. induction bytes as [|b bytes IH]; intros s.
  { simpl. by rewrite N.lxor_0_r. }
  cbn [fold_left length le_word]. rewrite IH. unfold crc_bitwise_byte.
  replace (8 * S (length bytes))%nat with (8 * length bytes + 8)%nat by lia. rewrite bits_add. f_equal.
  rewrite <- N.lxor_assoc, (bits_lxor 8 _ (N.shiftl _ 8)). f_equal. symmetry. exact (bits_shiftl 8 _).
Qed.

Lemma le_word_small bytes : le_word bytes < 2 ^ (8 * N.of_nat (length bytes)).
Proof.
  induction bytes as [|b bytes IH]; [done|]. cbn [le_word length]. apply lxor_small.
  - eapply N.lt_le_trans; [apply byte_small|]. change 256 with (2 ^ 8). apply N.pow_le_mono_r; lia.
  - rewrite N.shiftl_mul_pow2. replace (8 * N.of_nat (S (length bytes))) with (8 * N.of_nat (length bytes) + 8) by lia.
    rewrite N.pow_add_r. apply N.mul_lt_mono_pos_r; [lia|done].
Qed.

Lemma le_word_inj bytes bytes' : length bytes = length bytes' -> le_word bytes = le_word bytes' -> bytes = bytes'.
Proof.
  revert bytes'. induction bytes as [|b l IH]; intros [|b' l'] Hlen H; try done. simpl in Hlen, H.
  assert (forall x y, to_N x = N.land (N.lxor (to_N x) (N.shiftl y 8)) 255) as Hlow.
  { intros x y. change 255 with (N.ones 8). apply N.bits_inj. intros i. rewrite N.land_spec, N.lxor_spec.
    destruct (N.lt_ge_cases i 8) as [Hi|Hi].
    - rewrite N.shiftl_spec_low, N.ones_spec_low by lia. by rewrite xorb_false_r, andb_true_r.
    - rewrite N.ones_spec_high, andb_false_r by lia. rewrite <- (N.mod_small (to_N x) (2 ^ 8)) by apply byte_small.
      by apply N.mod_pow2_bits_high. }
  assert (to_N b = to_N b') as Hb by (rewrite (Hlow b (le_word l)), H; symmetry; apply Hlow).
  apply (f_equal Byte.of_N) in Hb as Hbyte. rewrite !of_to_N in Hbyte. injection Hbyte as <-. f_equal.
  apply IH; [lia|]. apply (f_equal (N.lxor (to_N b))) in H.
  rewrite <- !N.lxor_assoc, !N.lxor_nilpotent, !N.lxor_0_l in H.
  rewrite !N.shiftl_mul_pow2 in H. by apply N.mul_cancel_r in H.
Qed.

Lemma crc_fold_inj bytes s t : s < 2 ^ 32 -> t < 2 ^ 32 ->
  fold_left crc_bitwise_byte bytes s = fold_left crc_bitwise_byte bytes t -> s = t.
Proof.
  revert s t. induction bytes as [|b bytes IH]; intros s t Hs Ht; simpl; [done|]. pose proof (byte_small b) as Hb.
  assert (forall u, u < 2 ^ 32 -> N.lxor u (to_N b) < 2 ^ 32) as Hu by (intros; apply lxor_small; [done|lia]).
  intros H. apply IH in H; [|by apply bits_small, Hu..]. apply bits_inj in H; [|by apply Hu..].
  apply (f_equal (fun z => N.lxor z (to_N b))) in H. by rewrite !N.lxor_assoc, N.lxor_nilpotent, !N.lxor_0_r in H.
Qed.

Lemma frame_crc32_fold bytes : frame_crc32 bytes = u32_not (fold_left crc_bitwise_byte bytes u32_ones).
Proof. unfold frame_crc32, RunningCrc32_value. simpl. by rewrite crc_update_bitwise. Qed.

Lemma frame_crc32_window a x y b :
  length x = length y -> (length x <= 4)%nat ->
  frame_crc32 (a ++ x ++ b) = frame_crc32 (a ++ y ++ b) -> x = y.
Proof.
  intros Hlen Hw. rewrite !frame_crc32_fold. unfold u32_not. intros H.
  apply (f_equal (fun z => N.lxor z u32_ones)) in H.
  rewrite !N.lxor_assoc, N.lxor_nilpotent, !N.lxor_0_r, !fold_left_app in H.
  set (s := fold_left crc_bitwise_byte a u32_ones) in H.
  assert (s < 2 ^ 32) as Hs by (by apply crc_bitwise_small).
  assert (forall w, (length w <= 4)%nat -> N.lxor s (le_word w) < 2 ^ 32) as Hword.
  { intros w Hl. apply lxor_small; [done|]. eapply N.lt_le_trans; [apply le_word_small|].
    apply N.pow_le_mono_r; lia. }
  apply crc_fold_inj in H; [|by apply crc_bitwise_small..].
  rewrite !crc_window, <- Hlen in H. apply bits_inj in H; [|apply Hword; lia..].
  apply (f_equal (N.lxor s)) in H. rewrite <- !N.lxor_assoc, !N.lxor_nilpotent, !N.lxor_0_l in H.
  by apply le_word_inj.
Qed.

(** Damage confined to a window of at most four bytes always changes the
    checksum of a frame. *)
Theorem crc32_detects_window a x y b :
  length x = length y -> (length x <= 4)%nat -> x <> y ->
  frame_crc32 (a ++ x ++ b) <> frame_crc32 (a ++ y ++ b).
Proof. intros Hlen Hw Hne H. by apply Hne, (frame_crc32_window a x y b). Qed.

Lemma crc32_detects_window_witness :
  frame_crc32 ([x31; x32] ++ [x00; x01] ++ [x33]) <> frame_crc32 ([x31; x32] ++ [x01; x00] ++ [x33]).
Proof. apply crc32_detects_window; [reflexivity|simpl; lia|discriminate]. Defined.
