(* ===== verification/Snapshot.v ===== *)
(** * Snapshot descriptors, transfer identities and chunk sources

    Models [crates/rafter/src/types/snapshot/]: validated identifiers
    ([identity.rs]), metadata and descriptors ([metadata.rs]), the FNV-1a
    transfer identity ([transfer_id.rs]), transfer records ([transfer.rs],
    [status.rs]) and chunk sources ([source.rs]). *)

From stdpp Require Import base list numbers option gmap.
From Stdlib Require Import Strings.Byte.
From S2P Require Import Prelude.
From S2P Require Import Types.
From S2P Require Import Crc32.

(** ** Strings

    A [str] is its sequence of Unicode scalar values; its length and bytes are
    those of the UTF-8 encoding. *)

Definition char_len_utf8 (c : N) : usize :=
  if c <? 128 then 1 else if c <? 2048 then 2 else if c <? 65536 then 3 else 4.

Definition str_len (s : list N) : usize := foldr (fun c n => char_len_utf8 c + n) 0 s.

Definition char_utf8 (c : N) : list N :=
  if c <? 128 then [c]
  else if c <? 2048 then [192 + c / 64; 128 + c mod 64]
  else if c <? 65536 then [224 + c / 4096; 128 + c / 64 mod 64; 128 + c mod 64]
  else [240 + c / 262144; 128 + c / 4096 mod 64; 128 + c / 64 mod 64; 128 + c mod 64].

Definition str_bytes (s : list N) : list N := s ≫= char_utf8.

(** ** Validated identifiers *)

Inductive SnapshotIdField := FieldGroupId | FieldApplicationKind.

Inductive SnapshotIdError :=
| SnapshotId_Empty (field : SnapshotIdField)
| SnapshotId_TooLong (field : SnapshotIdField) (len : usize)
| SnapshotId_InvalidCharacter (field : SnapshotIdField) (character : N).

(** ['A'..='Z' | 'a'..='z' | '0'..='9' | '-' | '_' | '.' | ':'] *)
Definition snapshot_id_char (c : N) : bool :=
  ((65 <=? c) && (c <=? 90)) || ((97 <=? c) && (c <=? 122)) || ((48 <=? c) && (c <=? 57))
  || (c =? 45) || (c =? 95) || (c =? 46) || (c =? 58).

Definition validate_snapshot_id (field : SnapshotIdField) (value : list N)
  : result unit SnapshotIdError :=
  if str_len value =? 0 then Err (SnapshotId_Empty field)
  else if 128 <? str_len value then Err (SnapshotId_TooLong field (str_len value))
  else
    match find_first (fun c => negb (snapshot_id_char c)) value with
    | Some character => Err (SnapshotId_InvalidCharacter field character)
    | None => Ok tt
    end.

Record SnapshotGroupId := { group_id_str : list N }.
Record ApplicationSnapshotKind := { application_kind_str : list N }.

Definition SnapshotGroupId_new (value : list N) : result SnapshotGroupId SnapshotIdError :=
  let? _ := validate_snapshot_id FieldGroupId value in
  Ok {| group_id_str := value |}.

Definition ApplicationSnapshotKind_new (value : list N)
  : result ApplicationSnapshotKind SnapshotIdError :=
  let? _ := validate_snapshot_id FieldApplicationKind value in
  Ok {| application_kind_str := value |}.

(** ** Metadata *)

Inductive SnapshotMetadataError :=
| ZeroApplicationSnapshotVersion
| ZeroLastIncludedIndex
| LastIncludedIndexAtMaximum
| ZeroLastIncludedTerm (last_included_index : LogIndex)
| SnapshotTermAheadOfHardState (last_included_index : LogIndex)
    (last_included_term hard_state_term : Term).

Record ApplicationSnapshotVersion := { application_version : N }.

Definition ApplicationSnapshotVersion_new (value : N)
  : result ApplicationSnapshotVersion SnapshotMetadataError :=
  if value =? 0 then Err ZeroApplicationSnapshotVersion
  else Ok {| application_version := value |}.

Record ApplicationSnapshotMetadata := {
  app_kind : ApplicationSnapshotKind;
  app_version : ApplicationSnapshotVersion;
}.

Record SnapshotCommittedConfiguration := {
  scc_configuration : option CommittedConfiguration;
  scc_membership : MembershipConfig;
}.

Record RaftSnapshotMetadata := {
  group_id : SnapshotGroupId;
  writer_id : NodeId;
  last_included_index : LogIndex;
  last_included_term : Term;
  hard_state_term : Term;
  application : ApplicationSnapshotMetadata;
  metadata_committed_configuration : option SnapshotCommittedConfiguration;
}.

Record RaftSnapshot := {
  metadata : RaftSnapshotMetadata;
  application_payload_len : u64;
  application_payload_crc32 : u32;
}.

#[export] Instance SnapshotGroupId_eq_dec : EqDecision SnapshotGroupId.
Proof. solve_decision. Defined.
#[export] Instance ApplicationSnapshotKind_eq_dec : EqDecision ApplicationSnapshotKind.
Proof. solve_decision. Defined.
#[export] Instance ApplicationSnapshotVersion_eq_dec : EqDecision ApplicationSnapshotVersion.
Proof. solve_decision. Defined.
#[export] Instance ApplicationSnapshotMetadata_eq_dec : EqDecision ApplicationSnapshotMetadata.
Proof. solve_decision. Defined.
#[export] Instance SnapshotCommittedConfiguration_eq_dec :
  EqDecision SnapshotCommittedConfiguration.
Proof. solve_decision. Defined.
#[export] Instance RaftSnapshotMetadata_eq_dec : EqDecision RaftSnapshotMetadata.
Proof. solve_decision. Defined.
#[export] Instance RaftSnapshot_eq_dec : EqDecision RaftSnapshot.
Proof. solve_decision. Defined.

Definition RaftSnapshotMetadata_new (gid : SnapshotGroupId) (writer : NodeId)
  (index : LogIndex) (term hard_term : Term) (app : ApplicationSnapshotMetadata)
  : result RaftSnapshotMetadata SnapshotMetadataError :=
  if index =? 0 then Err ZeroLastIncludedIndex
  else if index =? u64_max then Err LastIncludedIndexAtMaximum
  else if Term_is_zero term then Err (ZeroLastIncludedTerm index)
  else if hard_term <? term then Err (SnapshotTermAheadOfHardState index term hard_term)
  else
    Ok {| group_id := gid; writer_id := writer; last_included_index := index;
          last_included_term := term; hard_state_term := hard_term; application := app;
          metadata_committed_configuration := None |}.

Definition set_metadata_configuration (m : RaftSnapshotMetadata)
  (c : option SnapshotCommittedConfiguration) : RaftSnapshotMetadata :=
  {| group_id := group_id m; writer_id := writer_id m;
     last_included_index := last_included_index m;
     last_included_term := last_included_term m; hard_state_term := hard_state_term m;
     application := application m; metadata_committed_configuration := c |}.

Definition with_committed_membership (m : RaftSnapshotMetadata) (membership : MembershipConfig)
  : RaftSnapshotMetadata :=
  set_metadata_configuration m
    (Some {| scc_configuration := None; scc_membership := membership |}).

Definition with_committed_configuration (m : RaftSnapshotMetadata)
  (configuration : SnapshotCommittedConfiguration) : RaftSnapshotMetadata :=
  set_metadata_configuration m (Some configuration).

Definition metadata_committed_membership (m : RaftSnapshotMetadata) : option MembershipConfig :=
  scc_membership <$> metadata_committed_configuration m.

Definition metadata_committed_configuration_state (m : RaftSnapshotMetadata)
  : option CommittedConfiguration :=
  metadata_committed_configuration m ≫= scc_configuration.

Definition RaftSnapshot_new (m : RaftSnapshotMetadata) (len : u64) (crc : u32) : RaftSnapshot :=
  {| metadata := m; application_payload_len := len; application_payload_crc32 := crc |}.

Definition from_payload (m : RaftSnapshotMetadata) (payload : list u8) : RaftSnapshot :=
  RaftSnapshot_new m (length_u64 payload) (crc32 payload).

(** ** Transfer identity *)

Abbreviation SnapshotTransferId := N (only parsing).

Definition FNV_OFFSET_BASIS : u64 := 14695981039346656037. (* 0xcbf2_9ce4_8422_2325 *)
Definition FNV_PRIME : u64 := 1099511628211.               (* 0x0100_0000_01b3 *)

Definition feed_byte (hash : u64) (byte : N) : u64 :=
  u64_wrapping_mul (N.lxor hash byte) FNV_PRIME.

(** [u64::to_be_bytes]. *)
Definition to_be_bytes (value : u64) : list N :=
  (fun i => N.land (N.shiftr value (8 * N.of_nat (7 - i))) 255) <$> seq 0 8.

Definition feed_u64 (hash : u64) (value : u64) : u64 :=
  fold_left feed_byte (to_be_bytes value) hash.

Definition feed_str (hash : u64) (value : list N) : u64 :=
  fold_left feed_byte (str_bytes value) (feed_u64 hash (str_len value)).

Definition feed_membership_set (hash : u64) (m : MembershipSet) : u64 :=
  let hash := feed_u64 hash (length_u64 (voters m)) in
  let hash := fold_left feed_u64 (voters m) hash in
  let hash := feed_u64 hash (length_u64 (learners m)) in
  fold_left feed_u64 (learners m) hash.

Definition feed_membership_config (hash : u64) (c : MembershipConfig) : u64 :=
  match c with
  | Stable stable => feed_membership_set (feed_u64 hash 0) stable
  | Joint joint =>
      feed_membership_set (feed_membership_set (feed_u64 hash 1) (old joint))
        (new_membership joint)
  end.

Definition feed_optional_committed_configuration (hash : u64)
  (committed : option SnapshotCommittedConfiguration) : u64 :=
  match committed with
  | Some committed =>
      let hash := feed_u64 hash 1 in
      let hash :=
        match scc_configuration committed with
        | Some configuration =>
            feed_u64 (feed_u64 (feed_u64 hash 1) (cc_index configuration))
              (cc_config_id configuration)
        | None => feed_u64 hash 0
        end in
      feed_membership_config hash (scc_membership committed)
  | None => feed_u64 hash 0
  end.

Definition snapshot_transfer_id_from_parts (m : RaftSnapshotMetadata)
  (total_payload_len : u64) (crc : u32) : SnapshotTransferId :=
  let hash := FNV_OFFSET_BASIS in
  let hash := feed_str hash (group_id_str (group_id m)) in
  let hash := feed_u64 hash (writer_id m) in
  let hash := feed_u64 hash (last_included_index m) in
  let hash := feed_u64 hash (last_included_term m) in
  let hash := feed_u64 hash (hard_state_term m) in
  let hash := feed_str hash (application_kind_str (app_kind (application m))) in
  let hash := feed_u64 hash (application_version (app_version (application m))) in
  let hash := feed_optional_committed_configuration hash (metadata_committed_configuration m) in
  let hash := feed_u64 hash total_payload_len in
  let hash := feed_u64 hash crc in
  if hash =? 0 then 1 else hash.

Definition transfer_id (s : RaftSnapshot) : SnapshotTransferId :=
  snapshot_transfer_id_from_parts (metadata s) (application_payload_len s)
    (application_payload_crc32 s).

(** ** Transfers *)

Record SnapshotChunkSend := {
  scs_term : Term;
  scs_leader_id : NodeId;
  scs_transfer_id : SnapshotTransferId;
  scs_metadata : RaftSnapshotMetadata;
  scs_total_payload_len : u64;
  scs_application_payload_crc32 : u32;
  scs_offset : u64;
  scs_len : u32;
  scs_done : bool;
}.

Record StagedSnapshotChunk := {
  ssc_leader_id : NodeId;
  ssc_transfer_id : SnapshotTransferId;
  ssc_metadata : RaftSnapshotMetadata;
  ssc_total_payload_len : u64;
  ssc_application_payload_crc32 : u32;
  ssc_offset : u64;
  ssc_bytes : list u8;
  ssc_done : bool;
}.

Record PendingSnapshotTransfer := {
  pst_leader_id : NodeId;
  pst_transfer_id : SnapshotTransferId;
  pst_metadata : RaftSnapshotMetadata;
  pst_total_payload_len : u64;
  pst_application_payload_crc32 : u32;
  pst_received_len : u64;
}.

Definition received_bytes (t : PendingSnapshotTransfer) : u64 := pst_received_len t.
Definition is_complete (t : PendingSnapshotTransfer) : bool :=
  received_bytes t =? pst_total_payload_len t.

Record SnapshotChunkRejectionCounters := {
  rej_stale_term : u64;
  rej_wrong_transfer : u64;
  rej_metadata_mismatch : u64;
  rej_out_of_order_offset : u64;
  rej_invalid_bounds : u64;
  rej_corrupt_persisted_pending_transfer : u64;
}.

Definition SnapshotChunkRejectionCounters_default : SnapshotChunkRejectionCounters :=
  {| rej_stale_term := 0; rej_wrong_transfer := 0; rej_metadata_mismatch := 0;
     rej_out_of_order_offset := 0; rej_invalid_bounds := 0;
     rej_corrupt_persisted_pending_transfer := 0 |}.

(** ** Chunk sources *)

Record SnapshotChunkRequest := {
  req_transfer_id : SnapshotTransferId;
  req_metadata : RaftSnapshotMetadata;
  req_total_payload_len : u64;
  req_application_payload_crc32 : u32;
  req_offset : u64;
  req_len : u32;
}.

(** The trait [SnapshotChunkSource]. *)
Class SnapshotChunkSource (S : Type) := {
  snapshot_chunk : S -> SnapshotChunkRequest -> option (list u8);
}.

Record InMemoryPayload := {
  payload_bytes : list u8;
  payload_crc32 : u32;
}.

Record InMemorySnapshotChunkSource := {
  payloads : gmap SnapshotTransferId InMemoryPayload;
}.

Inductive InMemorySnapshotSourceError :=
| PayloadLengthMismatch (declared actual : u64).

Definition InMemorySnapshotChunkSource_new : InMemorySnapshotChunkSource := {| payloads := ∅ |}.

Definition source_insert (src : InMemorySnapshotChunkSource) (snapshot : RaftSnapshot)
  (payload : list u8) : result InMemorySnapshotChunkSource InMemorySnapshotSourceError :=
  if negb (length_u64 payload =? application_payload_len snapshot) then
    Err (PayloadLengthMismatch (application_payload_len snapshot) (length_u64 payload))
  else
    Ok {| payloads :=
            <[transfer_id snapshot :=
                {| payload_bytes := payload; payload_crc32 := crc32 payload |}]> (payloads src) |}.

Definition source_remove (src : InMemorySnapshotChunkSource) (id : SnapshotTransferId)
  : InMemorySnapshotChunkSource * option (list u8) :=
  ({| payloads := delete id (payloads src) |}, payload_bytes <$> payloads src !! id).

Definition source_payload (src : InMemorySnapshotChunkSource) (id : SnapshotTransferId)
  : option (list u8) :=
  payload_bytes <$> payloads src !! id.

(** [bytes.get(start..end)]. *)
Definition slice_get (bytes : list u8) (start stop : usize) : option (list u8) :=
  if (start <=? stop) && (stop <=? length_u64 bytes) then
    Some (take (N.to_nat (stop - start)) (drop (N.to_nat start) bytes))
  else None.

Definition in_memory_snapshot_chunk (src : InMemorySnapshotChunkSource)
  (request : SnapshotChunkRequest) : option (list u8) :=
  match payloads src !! req_transfer_id request with
  | None => None
  | Some payload =>
      if negb (length_u64 (payload_bytes payload) =? req_total_payload_len request) then None
      else if negb (payload_crc32 payload =? req_application_payload_crc32 request) then None
      else
        match u64_checked_add (req_offset request) (req_len request) with
        | None => None
        | Some stop => slice_get (payload_bytes payload) (req_offset request) stop
        end
  end.

#[export] Instance InMemory_SnapshotChunkSource :
  SnapshotChunkSource InMemorySnapshotChunkSource :=
  {| snapshot_chunk := in_memory_snapshot_chunk |}.

(** ** Lemmas *)

Lemma feed_byte_bounded hash b : feed_byte hash b < u64_modulus.
Proof. unfold feed_byte, u64_wrapping_mul. by apply N.mod_lt. Qed.

Lemma feed_u64_bounded hash v : feed_u64 hash v < u64_modulus.
Proof. apply feed_byte_bounded. Qed.

Lemma transfer_id_range m len crc :
  0 < snapshot_transfer_id_from_parts m len crc < u64_modulus.
Proof.
  unfold snapshot_transfer_id_from_parts.
  match goal with |- context [feed_u64 ?h crc] => set (x := feed_u64 h crc);
    pose proof (feed_u64_bounded h crc : x < _) end.
  unfold u64_modulus in *. cmp.
Qed.

Lemma RaftSnapshotMetadata_new_Ok gid w i t ht app m :
  RaftSnapshotMetadata_new gid w i t ht app = Ok m ->
  0 < i /\ i <> u64_max /\ 0 < t /\ t <= ht /\
  last_included_index m = i /\ last_included_term m = t /\ hard_state_term m = ht /\
  writer_id m = w /\ metadata_committed_configuration m = None.
Proof.
  unfold RaftSnapshotMetadata_new, Term_is_zero. intros. cmp. split_and!; done || lia.
Qed.
