(* ===== verification/Message.v ===== *)
(** * Messages, inputs and outputs

    Models [crates/rafter/src/message/] and [node/event/].  A [SharedEntries]
    is the sequence of entries it shares. *)

From stdpp Require Import base list numbers option.
From Stdlib Require Import Strings.Byte.
From S2P Require Import Prelude.
From S2P Require Import Types.
From S2P Require Import Snapshot.

(** ** Peer messages *)

Record AppendEntries := {
  ae_term : Term;
  ae_leader_id : NodeId;
  ae_prev_log_index : LogIndex;
  ae_prev_log_term : Term;
  ae_sequence : u64;
  ae_entries : list LogEntry;
  ae_leader_commit : LogIndex;
}.

Record AppendEntriesResponse := {
  aer_term : Term;
  aer_follower_id : NodeId;
  aer_success : bool;
  aer_match_index : LogIndex;
  aer_sequence : u64;
}.

Record InstallSnapshot := {
  is_term : Term;
  is_leader_id : NodeId;
  is_metadata : RaftSnapshotMetadata;
  is_application_payload : list u8;
}.

Record InstallSnapshotChunk := {
  isc_term : Term;
  isc_leader_id : NodeId;
  isc_transfer_id : SnapshotTransferId;
  isc_metadata : RaftSnapshotMetadata;
  isc_total_payload_len : u64;
  isc_application_payload_crc32 : u32;
  isc_offset : u64;
  isc_chunk : list u8;
  isc_done : bool;
}.

Record InstallSnapshotResponse := {
  isr_term : Term;
  isr_follower_id : NodeId;
  isr_success : bool;
  isr_last_included_index : LogIndex;
  isr_transfer_id : option SnapshotTransferId;
  isr_next_offset : u64;
}.

Record PreVote := {
  pv_term : Term;
  pv_candidate_id : NodeId;
  pv_last_log_index : LogIndex;
  pv_last_log_term : Term;
}.

Record PreVoteResponse := {
  pvr_term : Term;
  pvr_voter_id : NodeId;
  pvr_vote_granted : bool;
}.

Record TimeoutNow := {
  tn_term : Term;
  tn_leader_id : NodeId;
}.

Record RequestVote := {
  rv_term : Term;
  rv_candidate_id : NodeId;
  rv_last_log_index : LogIndex;
  rv_last_log_term : Term;
}.

Record RequestVoteResponse := {
  rvr_term : Term;
  rvr_voter_id : NodeId;
  rvr_vote_granted : bool;
}.

Inductive Message :=
| MAppendEntries (m : AppendEntries)
| MAppendEntriesResponse (m : AppendEntriesResponse)
| MInstallSnapshot (m : InstallSnapshot)
| MInstallSnapshotChunk (m : InstallSnapshotChunk)
| MInstallSnapshotResponse (m : InstallSnapshotResponse)
| MPreVote (m : PreVote)
| MPreVoteResponse (m : PreVoteResponse)
| MTimeoutNow (m : TimeoutNow)
| MRequestVote (m : RequestVote)
| MRequestVoteResponse (m : RequestVoteResponse).

(** [SnapshotChunkSend::resolve]. *)
Definition resolve {S} `{SnapshotChunkSource S} (send : SnapshotChunkSend) (source : S)
  : option InstallSnapshotChunk :=
  match
    snapshot_chunk source
      {| req_transfer_id := scs_transfer_id send;
         req_metadata := scs_metadata send;
         req_total_payload_len := scs_total_payload_len send;
         req_application_payload_crc32 := scs_application_payload_crc32 send;
         req_offset := scs_offset send;
         req_len := scs_len send |}
  with
  | None => None
  | Some chunk =>
      if negb (length_u64 chunk =? scs_len send) then None
      else
        Some {| isc_term := scs_term send;
                isc_leader_id := scs_leader_id send;
                isc_transfer_id := scs_transfer_id send;
                isc_metadata := scs_metadata send;
                isc_total_payload_len := scs_total_payload_len send;
                isc_application_payload_crc32 := scs_application_payload_crc32 send;
                isc_offset := scs_offset send;
                isc_chunk := chunk;
                isc_done := scs_done send |}
  end.

(** ** Roles, inputs and rejections *)

Inductive Role := Follower | PreCandidate | Candidate | Leader.

#[export] Instance Role_eq_dec : EqDecision Role.
Proof. solve_decision. Defined.

Record ClientProposalInput := {
  cpi_proposal_id : option LocalProposalId;
  cpi_payload : list u8;
}.

Inductive Input :=
| Tick
| InputMessage (from : NodeId) (message : Message)
| ClientProposal (payload : list u8)
| TrackedClientProposal (proposal_id : LocalProposalId) (payload : list u8)
| AddLearner (learner_id : NodeId)
| PromoteLearner (learner_id : NodeId) (promotion_barrier : PromotionBarrier)
| RemoveVoter (voter_id : NodeId)
| EnterJoint (target : MembershipSet) (promotion_barriers : list PromotionBarrier)
| LeaveJoint
| ChangeMembership (target : MembershipSet) (promotion_barriers : list PromotionBarrier)
| DangerousRawConfigurationProposal (configuration : ConfigurationEntry)
    (promotion_barriers : list PromotionBarrier)
| TransferLeadership (target : NodeId)
| ReadIndex (read_id : ReadId).

Inductive LocalProposalDropReason := LogOverwritten | LeadershipLost.

Inductive ReadIndexCancelReason :=
| CancelLeadershipLost
| CancelLeaderStateReset
| CancelLeadershipTransfer (target : NodeId).

Inductive ReadIndexRejection :=
| ReadNotLeader (role : Role) (term : Term)
| NoCommitInCurrentTerm
| ReadLeadershipTransferInProgress (target : NodeId)
| TooManyPendingReads.

Inductive LeadershipTransferRejection :=
| TransferNotLeader
| TargetIsSelf
| TargetNotVoter
| TransferAlreadyInProgress.

Inductive ConfigurationProposalRejection :=
| StableConfigurationRequired (phase : ConfigurationPhase)
| JointConfigurationRequired (phase : ConfigurationPhase)
| UncommittedConfiguration (index : LogIndex)
| NodeAlreadyMember (node_id : NodeId)
| VoterNotFound (node_id : NodeId)
| CannotRemoveLastVoter (node_id : NodeId)
| InvalidMembership (error : MembershipValidationError)
| TargetMembershipUnchanged
| TargetMembershipDoesNotMatchJointNewSide
| PromotionTargetNotLearner (node_id : NodeId)
| DuplicatePromotionBarrier (learner_id : NodeId)
| UnusedPromotionBarrier (learner_id : NodeId)
| MissingPromotionBarrier (learner_id : NodeId)
| StalePromotionBarrier (learner_id : NodeId) (required_match_index : LogIndex)
    (supplied_match_index : LogIndex)
| PromotionBarrierNotReached (learner_id : NodeId) (required_match_index : LogIndex)
    (actual_match_index : LogIndex).

Inductive ProposalRejection :=
| ProposalNotLeader (role : Role) (term : Term) (payload_len : usize)
| ProposalLeadershipTransferInProgress (target : NodeId)
| PayloadTooLarge (payload_len max_payload_len : usize)
| ConfigurationRejected (rejection : ConfigurationProposalRejection).

Inductive Output :=
| LocalProposalAppended (proposal_id : LocalProposalId) (index : LogIndex) (term : Term)
| LocalProposalDropped (proposal_id : LocalProposalId) (index : LogIndex) (term : Term)
    (reason : LocalProposalDropReason)
| Apply (index : LogIndex) (term : Term) (payload : list u8)
    (local_proposal_id : option LocalProposalId)
| ConfigurationCommitted (index : LogIndex) (term : Term) (previous : MembershipConfig)
    (configuration : ConfigurationEntry)
| ApplySnapshot (snapshot : RaftSnapshot)
| SendSnapshotChunk (to : NodeId) (chunk : SnapshotChunkSend)
| StageSnapshotChunk (chunk : StagedSnapshotChunk)
| RejectProposal (proposal_id : option LocalProposalId) (reason : ProposalRejection)
| LeadershipTransferRejected (target : NodeId) (reason : LeadershipTransferRejection)
| ReadIndexGranted (read_id : ReadId) (read_index : LogIndex)
| ReadIndexRejected (read_id : ReadId) (reason : ReadIndexRejection)
| ReadIndexCanceled (read_id : ReadId) (reason : ReadIndexCancelReason)
| Send (to : NodeId) (message : Message).

(** [message_sender_matches] of [node/dispatch.rs]. *)
Definition message_sender_matches (from : NodeId) (message : Message) : bool :=
  match message with
  | MAppendEntries m => ae_leader_id m =? from
  | MAppendEntriesResponse m => aer_follower_id m =? from
  | MInstallSnapshot m => is_leader_id m =? from
  | MInstallSnapshotChunk m => isc_leader_id m =? from
  | MInstallSnapshotResponse m => isr_follower_id m =? from
  | MPreVote m => pv_candidate_id m =? from
  | MPreVoteResponse m => pvr_voter_id m =? from
  | MTimeoutNow m => tn_leader_id m =? from
  | MRequestVote m => rv_candidate_id m =? from
  | MRequestVoteResponse m => rvr_voter_id m =? from
  end.
