(* ===== verification/Membership.v ===== *)
(** * Membership construction and quorums

    Correctness of [MembershipSet::new] and of the majority rules of
    [crates/rafter/src/types/membership.rs]: a constructed membership is sorted,
    duplicate free and disjoint, every rejected input really has the reported
    defect, and any two quorums that share a voter set share a voter. *)

From stdpp Require Import base list sorting numbers option sets.
From S2P Require Import Prelude.
From S2P Require Import Types.

(** ** Well-formed memberships *)

Definition MembershipSet_wf (m : MembershipSet) : Prop :=
  voters m <> [] /\ ascending (voters m) /\ ascending (learners m) /\
  (forall x, x ∈ voters m -> x ∉ learners m).

Definition MembershipConfig_wf (c : MembershipConfig) : Prop :=
  match c with
  | Stable m => MembershipSet_wf m
  | Joint j => MembershipSet_wf (old j) /\ MembershipSet_wf (new_membership j)
  end.

(** The memberships whose majorities a configuration requires. *)
Definition halves (c : MembershipConfig) : list MembershipSet :=
  match c with
  | Stable m => [m]
  | Joint j => [old j; new_membership j]
  end.

(** ** Construction *)

Lemma sort_unstable_perm l : sort_unstable l ≡ₚ l.
Proof. apply merge_sort_Permutation. Qed.

Lemma sort_unstable_sorted l : StronglySorted N.le (sort_unstable l).
Proof. unfold sort_unstable. apply StronglySorted_merge_sort; apply _. Qed.

Lemma first_duplicate_None_from x l :
  StronglySorted N.le (x :: l) -> first_duplicate (Some x) l = None -> ascending (x :: l).
Proof.
  revert x. induction l as [|y l IH]; intros x Hs; simpl.
  - intros _. by repeat constructor.
  - apply StronglySorted_inv in Hs as [Hs Hx].
    case_bool_decide as Hxy; [done|]. intros Hn. specialize (IH y Hs Hn).
    constructor; [done|]. apply StronglySorted_inv in IH as [_ Hy].
    apply Forall_cons in Hx as [Hx _]. assert (x < y) by (destruct (decide (x = y)); [congruence|lia]).
    constructor; [done|]. eapply Forall_impl; [done|]. intros z ?. simpl in *. lia.
Qed.

Lemma first_duplicate_None l :
  StronglySorted N.le l -> first_duplicate None l = None -> ascending l.
Proof.
  destruct l as [|x l]; [constructor|]. intros Hs. simpl.
  by apply first_duplicate_None_from.
Qed.

Lemma first_duplicate_Some_from x l y :
  first_duplicate (Some x) l = Some y -> exists k1 k2, x :: l = k1 ++ y :: y :: k2.
Proof.
  revert x. induction l as [|z l IH]; intros x; simpl; [done|].
  case_bool_decide as Hxz.
  - intros [= <-]. simplify_eq. by exists [], l.
  - intros (k1 & k2 & Heq)%IH. exists (x :: k1), k2. by rewrite Heq.
Qed.

Lemma first_duplicate_Some l y :
  first_duplicate None l = Some y -> exists k1 k2, l = k1 ++ y :: y :: k2.
Proof.
  destruct l as [|x l]; [done|]. simpl.
  apply first_duplicate_Some_from.
Qed.

(** [occurs_twice y l]: some two positions of [l] hold [y]. *)
Definition occurs_twice (y : N) (l : list N) : Prop := exists k, l ≡ₚ y :: y :: k.

Lemma occurs_twice_not_NoDup y l : occurs_twice y l -> ~ NoDup l.
Proof.
  intros [k Hk] Hn. rewrite Hk in Hn. apply NoDup_cons in Hn as [Hn _]. set_solver.
Qed.

Lemma validate_unique_Ok nodes kind sorted :
  validate_unique nodes kind = Ok sorted <->
  NoDup nodes /\ sorted = sort_unstable nodes /\ ascending sorted.
Proof.
  unfold validate_unique.
  destruct (first_duplicate None (sort_unstable nodes)) as [y|] eqn:E.
  - split; [done|]. intros (Hn & _). exfalso.
    apply first_duplicate_Some in E as (k1 & k2 & E).
    apply (occurs_twice_not_NoDup y nodes); [|done]. exists (k1 ++ k2).
    rewrite <- (sort_unstable_perm nodes), E. by rewrite !Permutation_middle.
  - pose proof (first_duplicate_None _ (sort_unstable_sorted nodes) E) as Ha.
    split; [|by intros (_ & -> & _)]. intros [= <-]. split_and!; [|done..].
    rewrite <- (sort_unstable_perm nodes). by apply ascending_NoDup.
Qed.

Lemma validate_unique_Err nodes kind e :
  validate_unique nodes kind = Err e ->
  exists y, occurs_twice y nodes /\
    e = match kind with
        | DuplicateKind_Voter => DuplicateVoter y
        | DuplicateKind_Learner => DuplicateLearner y
        end.
Proof.
  unfold validate_unique.
  destruct (first_duplicate None (sort_unstable nodes)) as [y|] eqn:E; [|done].
  intros [= <-]. exists y. split; [|done].
  apply first_duplicate_Some in E as (k1 & k2 & E). exists (k1 ++ k2).
  rewrite <- (sort_unstable_perm nodes), E. by rewrite !Permutation_middle.
Qed.

Lemma find_first_Some {A} (p : A -> bool) l x :
  find_first p l = Some x -> x ∈ l /\ p x = true.
Proof.
  induction l as [|y l IH]; simpl; [done|]. destruct (p y) eqn:E.
  - intros [= <-]. split; [set_solver|done].
  - intros [??]%IH. split; [set_solver|done].
Qed.

Lemma find_first_None {A} (p : A -> bool) l :
  find_first p l = None <-> forall x, x ∈ l -> p x = false.
Proof.
  induction l as [|y l IH]; simpl; [set_solver|]. destruct (p y) eqn:E.
  - split; [done|]. intros H. rewrite (H y) in E; [done|set_solver].
  - rewrite IH. setoid_rewrite elem_of_cons. split; [intros H x [->|?]; auto|auto].
Qed.

Lemma binary_search_is_some l x : is_some (binary_search l x) = elem x l.
Proof.
  unfold binary_search. destruct (position (N.eqb x) l) as [i|] eqn:E; simpl; symmetry.
  - apply position_Some in E as (y & Hy & ->%N.eqb_eq & _).
    apply elem_spec. by eapply list_elem_of_lookup_2.
  - apply elem_false. intros Hin. eapply position_None in E; [|done].
    by rewrite N.eqb_refl in E.
Qed.

(** What the constructor reports about a rejected pair of sequences. *)
Definition membership_defect (vs ls : list NodeId) (e : MembershipValidationError) : Prop :=
  match e with
  | EmptyVoters => vs = []
  | DuplicateVoter x => occurs_twice x vs
  | DuplicateLearner x => occurs_twice x ls
  | LearnerVoterOverlap x => x ∈ vs /\ x ∈ ls
  end.

Lemma MembershipSet_new_sound vs ls :
  match MembershipSet_new vs ls with
  | Ok m => MembershipSet_wf m /\ voters m ≡ₚ vs /\ learners m ≡ₚ ls
  | Err e => membership_defect vs ls e
  end.
Proof.
  unfold MembershipSet_new.
  destruct (validate_unique vs DuplicateKind_Voter) as [v|e] eqn:Ev; cycle 1.
  { apply validate_unique_Err in Ev as (y & ? & ->). done. }
  apply validate_unique_Ok in Ev as (_ & -> & Hv). pose proof (sort_unstable_perm vs) as Hp.
  destruct (sort_unstable vs) as [|v0 v] eqn:Es; [by apply Permutation_nil in Hp|].
  destruct (validate_unique ls DuplicateKind_Learner) as [l|e] eqn:El; cycle 1.
  { apply validate_unique_Err in El as (y & ? & ->). done. }
  apply validate_unique_Ok in El as (_ & -> & Hl).
  destruct (find_first _ (sort_unstable ls)) as [x|] eqn:Ef.
  - apply find_first_Some in Ef as [Hx Hxv]. rewrite binary_search_is_some, elem_spec in Hxv.
    split; [by rewrite <- Hp | by rewrite <- (sort_unstable_perm ls)].
  - split_and!; [|done|apply sort_unstable_perm]. split_and!; [done..|].
    intros x Hx Hxl. rewrite find_first_None in Ef. specialize (Ef x Hxl).
    rewrite binary_search_is_some, elem_false in Ef. done.
Qed.

Lemma MembershipSet_wf_NoDup m :
  MembershipSet_wf m -> NoDup (voters m) /\ NoDup (learners m).
Proof. intros (_ & ? & ? & _). auto using ascending_NoDup. Qed.

Lemma MembershipSet_new_accepts vs ls :
  (exists m, MembershipSet_new vs ls = Ok m) <->
  vs <> [] /\ NoDup vs /\ NoDup ls /\ (forall x, x ∈ vs -> x ∉ ls).
Proof.
  pose proof (MembershipSet_new_sound vs ls) as H. split.
  - intros [m Hm]. rewrite Hm in H. destruct H as (Hwf & Hv & Hl).
    pose proof (MembershipSet_wf_NoDup m Hwf) as [Hnv Hnl].
    destruct Hwf as (Hne & _ & _ & Hd). rewrite Hv in Hnv. rewrite Hl in Hnl.
    split_and!; [|done|done|].
    + intros ->. by apply Permutation_nil_r in Hv.
    + intros x. rewrite <- Hv, <- Hl. apply Hd.
  - intros (Hne & Hv & Hl & Hd).
    destruct (MembershipSet_new vs ls) as [m|[|x|x|x]]; [by exists m|exfalso; simpl in H..].
    + done.
    + by eapply occurs_twice_not_NoDup.
    + by eapply occurs_twice_not_NoDup.
    + destruct H. by eapply Hd.
Qed.

(** ** Quorums *)

(** A majority of the voters of [m] satisfies [p]. *)
Definition majority_of (m : MembershipSet) (p : NodeId -> bool) : bool :=
  (majority (length (voters m)) <=? length (filter_bool p (voters m)))%nat.

(** Both halves of a joint configuration have such a majority. *)
Definition quorum_of (c : MembershipConfig) (p : NodeId -> bool) : bool :=
  forallb (fun m => majority_of m p) (halves c).

Lemma majority_of_ext m p q :
  (forall x, x ∈ voters m -> p x = q x) -> majority_of m p = majority_of m q.
Proof. intros H. unfold majority_of. by rewrite (filter_bool_ext p q). Qed.

Lemma forallb_ext_elem {A} (p q : A -> bool) l :
  (forall x, x ∈ l -> p x = q x) -> forallb p l = forallb q l.
Proof.
  induction l as [|x l IH]; simpl; intros H; [done|].
  rewrite (H x) by set_solver. by rewrite IH by set_solver.
Qed.

Lemma quorum_of_ext c p q :
  (forall x, contains_voter c x = true -> p x = q x) -> quorum_of c p = quorum_of c q.
Proof.
  intros H. unfold quorum_of. apply forallb_ext_elem. intros m Hm. apply majority_of_ext.
  intros x Hx. apply H. destruct c as [m'|j]; simpl in *.
  - apply list_elem_of_singleton in Hm as ->. by apply elem_spec.
  - apply orb_true_iff. rewrite !elem_spec.
    apply elem_of_cons in Hm as [->|[->|Hm]%elem_of_cons]; [by left|by right|].
    by apply not_elem_of_nil in Hm.
Qed.

Lemma elem_btree_collect x l : elem x (btree_collect l) = elem x l.
Proof.
  destruct (elem x l) eqn:E.
  - apply elem_spec. apply elem_of_btree_collect. by apply elem_spec.
  - apply elem_false. rewrite elem_of_btree_collect. by apply elem_false.
Qed.

(** The quorum test of the source counts voters among the collected set. *)
Lemma has_quorum_quorum_of c acks :
  MembershipConfig_has_quorum c acks = quorum_of c (fun x => elem x acks).
Proof.
  assert (forall m, MembershipSet_has_quorum_set m (btree_collect acks) =
                    majority_of m (fun x => elem x acks)) as Hm.
  { intros m. unfold MembershipSet_has_quorum_set, MembershipSet_quorum_size.
    apply majority_of_ext. intros x _. apply elem_btree_collect. }
  destruct c as [m|j]; simpl; unfold JointMembership_has_quorum_set, quorum_of; simpl;
    by rewrite !Hm, ?andb_true_r.
Qed.

Lemma filter_bool_overlap {A} (p q : A -> bool) l :
  (length (filter_bool p l) + length (filter_bool q l) <=
   length l + length (filter_bool (fun x => p x && q x) l))%nat.
Proof. induction l as [|x l IH]; simpl; [lia|]. destruct (p x), (q x); simpl; lia. Qed.

Lemma filter_bool_nonempty {A} (p : A -> bool) l :
  (0 < length (filter_bool p l))%nat -> exists x, x ∈ l /\ p x = true.
Proof.
  destruct (filter_bool p l) as [|x k] eqn:E; simpl; [lia|]. intros _. exists x.
  assert (x ∈ filter_bool p l) as [??]%elem_of_filter_bool by (rewrite E; set_solver). done.
Qed.

Lemma majority_of_intersect m p q :
  majority_of m p = true -> majority_of m q = true ->
  exists x, x ∈ voters m /\ p x = true /\ q x = true.
Proof.
  unfold majority_of, majority. rewrite !Nat.leb_le. intros Hp Hq.
  pose proof (filter_bool_overlap p q (voters m)).
  assert (length (voters m) < 2 * (length (voters m) / 2 + 1))%nat.
  { pose proof (Nat.div_mod_eq (length (voters m)) 2).
    pose proof (Nat.mod_upper_bound (length (voters m)) 2). lia. }
  destruct (filter_bool_nonempty (fun x => p x && q x) (voters m)) as (x & ? & Hx); [lia|].
  apply andb_true_iff in Hx as []. by exists x.
Qed.

Lemma quorum_of_intersect c1 c2 m p q :
  m ∈ halves c1 -> m ∈ halves c2 -> quorum_of c1 p = true -> quorum_of c2 q = true ->
  exists x, x ∈ voters m /\ p x = true /\ q x = true.
Proof.
  unfold quorum_of. rewrite !forallb_forall. intros H1 H2 Hp Hq.
  apply majority_of_intersect; [apply Hp|apply Hq]; by apply list_elem_of_In.
Qed.

(** C24:  Quorum intersection.  Two acknowledgement sequences that are each a
    quorum, of configurations that require a majority of a common voter set
    (the same configuration, or a joint configuration and either of its
    halves), share a voter of that set. *)
Theorem quorums_intersect (c1 c2 : MembershipConfig) (m : MembershipSet)
    (acks1 acks2 : list NodeId)
    (H1 : m ∈ halves c1) (H2 : m ∈ halves c2)
    (Q1 : MembershipConfig_has_quorum c1 acks1 = true)
    (Q2 : MembershipConfig_has_quorum c2 acks2 = true) :
  exists v, v ∈ voters m /\ v ∈ acks1 /\ v ∈ acks2.
Proof.
  rewrite has_quorum_quorum_of in Q1, Q2.
  destruct (quorum_of_intersect c1 c2 m _ _ H1 H2 Q1 Q2) as (x & Hx & ?%elem_spec & ?%elem_spec).
  by exists x.
Qed.

Lemma quorums_intersect_witness :
  let old := {| voters := [1; 2; 3]; learners := [4] |} in
  let new := {| voters := [2; 3; 4]; learners := [] |} in
  exists v, v ∈ voters new /\ v ∈ [2; 3; 1] /\ v ∈ [4; 3].
Proof.
  intros old new.
  apply (quorums_intersect (Joint {| old := old; new_membership := new |}) (Stable new) new);
    [right; left | left | reflexivity | reflexivity].
Defined.

(** [MembershipSet::new] succeeds exactly on a nonempty duplicate-free
    voter sequence and a duplicate-free learner sequence disjoint from it; the
    result holds the same nodes in ascending order, and a failure names a
    defect the input has. *)
Theorem MembershipSet_new_correct (vs ls : list NodeId) :
  match MembershipSet_new vs ls with
  | Ok m =>
      (vs <> [] /\ NoDup vs /\ NoDup ls /\ (forall x, x ∈ vs -> x ∉ ls)) /\
      MembershipSet_wf m /\ voters m ≡ₚ vs /\ learners m ≡ₚ ls
  | Err e =>
      ~ (vs <> [] /\ NoDup vs /\ NoDup ls /\ (forall x, x ∈ vs -> x ∉ ls)) /\
      membership_defect vs ls e
  end.
Proof.
  pose proof (MembershipSet_new_sound vs ls) as H.
  pose proof (MembershipSet_new_accepts vs ls) as Ha.
  destruct (MembershipSet_new vs ls) as [m|e]; split; [apply Ha; eauto|done| |done].
  rewrite <- Ha. by intros [m ?].
Qed.
