(* ===== verification/Slots.v ===== *)
(** * Slot bit sets

    Models [crates/rafter/src/node/state/membership/slots.rs]: a set of replica
    slots as one inline word, or a vector of words beyond 64 slots.  The
    lemmas relate the words to membership and cardinality of the set. *)

From stdpp Require Import base list numbers option sets.
From S2P Require Import Prelude.

(** A [ReplicaSlot] is an index into the replica vector. *)
Abbreviation ReplicaSlot := nat (only parsing).

Inductive SlotSet :=
| Inline (bits : u64)
| Heap (words : list u64).

#[export] Instance SlotSet_eq_dec : EqDecision SlotSet.
Proof. solve_decision. Defined.

Definition SlotSet_default : SlotSet := Inline 0.

Definition word_count (bit_count : nat) : nat := ((bit_count + 63) / 64)%nat.
Definition word_index (slot : ReplicaSlot) : nat := (slot / 64)%nat.
Definition slot_mask (slot : ReplicaSlot) : u64 := N.shiftl 1 (N.of_nat (slot mod 64)).

Definition SlotSet_empty (slot_count : nat) : SlotSet :=
  if (slot_count <=? 64)%nat then SlotSet_default
  else Heap (replicate (word_count slot_count) 0).

(** [words[i] |= mask] *)
Definition or_word (words : list u64) (i : nat) (mask : u64) : list u64 :=
  alter (fun w => N.lor w mask) i words.

Definition SlotSet_insert (s : SlotSet) (slot : ReplicaSlot) : SlotSet :=
  match s with
  | Inline bits =>
      if (slot <? 64)%nat then Inline (N.lor bits (N.shiftl 1 (N.of_nat slot)))
      else
        let words := <[0%nat := bits]> (replicate (word_count (slot + 1)) 0) in
        Heap (or_word words (word_index slot) (slot_mask slot))
  | Heap words =>
      let word_index := word_index slot in
      let words :=
        if (length words <=? word_index)%nat then resize (word_index + 1) 0 words else words in
      Heap (or_word words word_index (slot_mask slot))
  end.

Definition SlotSet_contains (s : SlotSet) (slot : ReplicaSlot) : bool :=
  match s with
  | Inline bits =>
      (slot <? 64)%nat && negb (N.land bits (N.shiftl 1 (N.of_nat slot)) =? 0)
  | Heap words =>
      is_some_and (fun word => negb (N.land word (slot_mask slot) =? 0))
        (words !! word_index slot)
  end.

(** [u64::count_ones]. *)
Fixpoint pos_count_ones (p : positive) : nat :=
  match p with
  | xH => 1
  | xO p => pos_count_ones p
  | xI p => S (pos_count_ones p)
  end.
Definition count_ones (w : u64) : nat :=
  match w with N0 => 0 | Npos p => pos_count_ones p end.

Definition SlotSet_count (s : SlotSet) : nat :=
  match s with
  | Inline bits => count_ones bits
  | Heap words => sum_list_with count_ones words
  end.

(** The slots [SlotSetIter] yields, in order. *)
Definition SlotSet_iter (s : SlotSet) (slot_count : nat) : list ReplicaSlot :=
  filter_bool (SlotSet_contains s) (seq 0 slot_count).

(** ** Bits of one word *)

Lemma land_mask_testbit w k :
  negb (N.land w (N.shiftl 1 k) =? 0) = N.testbit w k.
Proof.
  destruct (N.eqb_spec (N.land w (N.shiftl 1 k)) 0) as [H|H]; simpl.
  - assert (N.testbit (N.land w (N.shiftl 1 k)) k = false) as Hk by by rewrite H, N.bits_0.
    rewrite N.land_spec, N.shiftl_spec_high', N.sub_diag in Hk by lia.
    by rewrite andb_true_r in Hk.
  - destruct (N.testbit w k) eqn:E; [done|]. contradict H.
    apply N.bits_inj. intros i. rewrite N.land_spec, N.bits_0.
    destruct (N.eq_dec i k) as [->|Hne]; [by rewrite E|].
    destruct (N.lt_ge_cases i k) as [Hlt|Hge].
    + by rewrite N.shiftl_spec_low, andb_false_r.
    + rewrite N.shiftl_spec_high' by done.
      replace (i - k) with (N.succ (i - k - 1)) by lia.
      change 1 with (2 * 0 + 1) at 1. by rewrite N.testbit_odd_succ', andb_false_r by lia.
Qed.

Lemma testbit_lor_mask w k i :
  N.testbit (N.lor w (N.shiftl 1 k)) i = (i =? k) || N.testbit w i.
Proof.
  rewrite N.lor_spec, orb_comm. f_equal.
  destruct (N.eqb_spec i k) as [->|Hne].
  - by rewrite N.shiftl_spec_high', N.sub_diag by lia.
  - destruct (N.lt_ge_cases i k) as [Hlt|Hge]; [by apply N.shiftl_spec_low|].
    rewrite N.shiftl_spec_high' by done.
    replace (i - k) with (N.succ (i - k - 1)) by lia.
    by destruct (i - k - 1).
Qed.

Lemma count_ones_div2 w : count_ones w = (Nat.b2n (N.odd w) + count_ones (N.div2 w))%nat.
Proof. by destruct w as [|[p|p|]]. Qed.

Lemma count_ones_set w k :
  count_ones (N.lor w (N.shiftl 1 (N.of_nat k))) =
  if N.testbit w (N.of_nat k) then count_ones w else S (count_ones w).
Proof.
  revert w. induction k as [|k IH]; intros w.
  - change (N.of_nat 0) with 0. rewrite N.shiftl_0_r.
    by destruct w as [|[p|p|]].
  - rewrite (count_ones_div2 (N.lor _ _)), (count_ones_div2 w).
    rewrite N.div2_spec, N.shiftr_lor, N.shiftr_shiftl_l by lia.
    replace (N.of_nat (S k) - 1) with (N.of_nat k) by lia.
    rewrite <- N.div2_spec, IH.
    rewrite <- !N.bit0_odd, N.lor_spec, N.shiftl_spec_low, orb_false_r by lia.
    rewrite N.div2_spec, N.shiftr_spec', N.add_1_r, <- Nat2N.inj_succ.
    destruct (N.testbit w (N.of_nat (S k))); lia.
Qed.

(** ** Membership of the set *)

Lemma word_count_lt slot n : (slot < n)%nat -> (word_index slot < word_count n)%nat.
Proof.
  intros H. unfold word_index, word_count.
  apply Nat.Div0.div_lt_upper_bound.
  pose proof (Nat.div_mod_eq (n + 63) 64).
  pose proof (Nat.mod_upper_bound (n + 63) 64 ltac:(lia)). lia.
Qed.

Lemma contains_empty n slot : SlotSet_contains (SlotSet_empty n) slot = false.
Proof.
  unfold SlotSet_empty. destruct (n <=? 64)%nat; simpl; [by rewrite andb_false_r|].
  destruct (replicate _ _ !! _) eqn:E; simpl; [|done].
  apply lookup_replicate in E as [-> _]. done.
Qed.

Lemma contains_Heap_testbit words slot :
  SlotSet_contains (Heap words) slot =
  is_some_and (fun w => N.testbit w (N.of_nat (slot mod 64))) (words !! word_index slot).
Proof.
  simpl. destruct (words !! word_index slot); simpl; [|done].
  unfold slot_mask. apply land_mask_testbit.
Qed.

Lemma contains_Inline_testbit bits slot :
  SlotSet_contains (Inline bits) slot = (slot <? 64)%nat && N.testbit bits (N.of_nat slot).
Proof. simpl. by rewrite land_mask_testbit. Qed.

Lemma slot_split_eq i j :
  word_index i = word_index j -> (i mod 64 = j mod 64)%nat -> i = j.
Proof.
  unfold word_index. intros H1 H2.
  rewrite (Nat.div_mod_eq i 64), (Nat.div_mod_eq j 64). congruence.
Qed.

Lemma contains_or_word words k slot :
  (word_index k < length words)%nat ->
  SlotSet_contains (Heap (or_word words (word_index k) (slot_mask k))) slot =
  (slot =? k)%nat || SlotSet_contains (Heap words) slot.
Proof.
  intros Hlt. rewrite !contains_Heap_testbit. unfold or_word.
  rewrite list_lookup_alter. case_decide as Hw.
  - rewrite Hw. destruct (lookup_lt_is_Some_2 words (word_index slot)) as [w Hw'];
      [congruence|].
    rewrite Hw'. cbn [is_some_and fmap option_fmap option_map].
    unfold slot_mask. rewrite testbit_lor_mask. f_equal.
    apply eq_true_iff_eq. rewrite N.eqb_eq, Nat.eqb_eq.
    split; [intros ?%Nat2N.inj; by apply slot_split_eq | by intros ->].
  - destruct (Nat.eqb_spec slot k) as [->|]; [done|]. done.
Qed.

Lemma contains_promoted bits n slot :
  (64 <= n)%nat ->
  SlotSet_contains (Heap (<[0%nat := bits]> (replicate (word_count n) 0))) slot =
  SlotSet_contains (Inline bits) slot.
Proof.
  intros Hn. rewrite contains_Heap_testbit, contains_Inline_testbit.
  assert (0 < word_count n)%nat.
  { pose proof (word_count_lt 0 n ltac:(lia)) as H. by apply H. }
  rewrite list_lookup_insert. case_decide as Hw.
  - destruct Hw as [Hw _]. unfold word_index in Hw. cbn [is_some_and].
    assert (slot < 64)%nat as Hs by (apply Nat.div_small_iff; lia).
    rewrite Nat.mod_small by done. apply Nat.ltb_lt in Hs. by rewrite Hs.
  - assert (slot <? 64 = false)%nat as ->.
    { apply Nat.ltb_ge. destruct (le_lt_dec 64 slot) as [|Hs]; [done|].
      exfalso. apply Hw. unfold word_index. rewrite Nat.div_small by done.
      rewrite length_replicate. done. }
    simpl. destruct (replicate _ _ !! _) eqn:E; simpl; [|done].
    apply lookup_replicate in E as [-> _]. by rewrite N.bits_0.
Qed.

Lemma contains_resize words n slot :
  (length words <= n)%nat ->
  SlotSet_contains (Heap (resize n 0 words)) slot = SlotSet_contains (Heap words) slot.
Proof.
  intros Hn. rewrite !contains_Heap_testbit, resize_ge by done.
  rewrite lookup_app. destruct (words !! word_index slot) eqn:E; [done|].
  destruct (replicate _ _ !! _) eqn:E'; simpl; [|done].
  apply lookup_replicate in E' as [-> _]. by rewrite N.bits_0.
Qed.

Lemma contains_insert s k slot :
  SlotSet_contains (SlotSet_insert s k) slot = (slot =? k)%nat || SlotSet_contains s slot.
Proof.
  destruct s as [bits|words]; cbn [SlotSet_insert].
  - destruct (Nat.ltb_spec k 64).
    + rewrite !contains_Inline_testbit, testbit_lor_mask.
      destruct (Nat.eqb_spec slot k) as [->|Hne]; simpl.
      * rewrite N.eqb_refl. apply Nat.ltb_lt in H. by rewrite H.
      * replace (N.of_nat slot =? N.of_nat k) with false; [done|].
        symmetry. apply N.eqb_neq. lia.
    + rewrite contains_or_word.
      * by rewrite contains_promoted by lia.
      * rewrite length_insert, length_replicate. apply word_count_lt. lia.
  - destruct (Nat.leb_spec (length words) (word_index k)).
    + rewrite contains_or_word by (rewrite length_resize; lia).
      by rewrite contains_resize by lia.
    + by rewrite contains_or_word.
Qed.

(** ** Cardinality *)

Lemma count_or_word words k :
  (word_index k < length words)%nat ->
  SlotSet_count (Heap (or_word words (word_index k) (slot_mask k))) =
  if SlotSet_contains (Heap words) k then SlotSet_count (Heap words)
  else S (SlotSet_count (Heap words)).
Proof.
  intros Hlt. destruct (lookup_lt_is_Some_2 _ _ Hlt) as [w Hw].
  rewrite contains_Heap_testbit, Hw. cbn [is_some_and SlotSet_count].
  pose proof (count_ones_set w (k mod 64)) as Hc. unfold slot_mask, or_word.
  apply list_elem_of_split_length in Hw as (l1 & l2 & -> & Hlen).
  rewrite Hlen, alter_app_r_alt, Nat.sub_diag by lia. cbn [alter list_alter].
  rewrite !sum_list_with_app. cbn [sum_list_with]. rewrite Hc.
  destruct (N.testbit w (N.of_nat (k mod 64))); lia.
Qed.

Lemma count_zero_words n : sum_list_with count_ones (replicate n 0) = 0%nat.
Proof. induction n; simpl; auto. Qed.

Lemma count_empty n : SlotSet_count (SlotSet_empty n) = 0%nat.
Proof. unfold SlotSet_empty. destruct (n <=? 64)%nat; [done|apply count_zero_words]. Qed.

Lemma count_insert s k :
  SlotSet_count (SlotSet_insert s k) =
  if SlotSet_contains s k then SlotSet_count s else S (SlotSet_count s).
Proof.
  destruct s as [bits|words]; cbn [SlotSet_insert].
  - destruct (Nat.ltb_spec k 64) as [Hk|Hk].
    + rewrite contains_Inline_testbit. apply Nat.ltb_lt in Hk. rewrite Hk. simpl andb.
      apply count_ones_set.
    + assert (word_index k < word_count (k + 1))%nat by (apply word_count_lt; lia).
      rewrite count_or_word by by rewrite length_insert, length_replicate.
      rewrite contains_promoted by lia.
      assert (SlotSet_count (Heap (<[0%nat:=bits]> (replicate (word_count (k + 1)) 0))) =
              count_ones bits) as ->; [|done].
      destruct (word_count (k + 1)); [lia|]. simpl. rewrite count_zero_words. lia.
  - destruct (Nat.leb_spec (length words) (word_index k)).
    + rewrite count_or_word by (rewrite length_resize; lia).
      rewrite contains_resize by lia.
      assert (SlotSet_count (Heap (resize (word_index k + 1) 0 words)) =
              SlotSet_count (Heap words)) as ->; [|done].
      simpl. rewrite resize_ge, sum_list_with_app, count_zero_words by lia. lia.
    + by apply count_or_word.
Qed.

(** Every member is below [n], and the population count counts the members. *)
Definition SlotSet_within (s : SlotSet) (n : nat) : Prop :=
  (forall slot, SlotSet_contains s slot = true -> (slot < n)%nat) /\
  SlotSet_count s = length (SlotSet_iter s n).

Lemma within_empty m n : SlotSet_within (SlotSet_empty m) n.
Proof.
  split; [intros slot; by rewrite contains_empty|]. rewrite count_empty.
  unfold SlotSet_iter.
  rewrite (filter_bool_ext _ (fun _ => false)) by (intros; apply contains_empty).
  by induction (seq 0 n).
Qed.

Lemma iter_insert_length s k n :
  (k < n)%nat ->
  length (SlotSet_iter (SlotSet_insert s k) n) =
  if SlotSet_contains s k then length (SlotSet_iter s n)
  else S (length (SlotSet_iter s n)).
Proof.
  intros Hk. unfold SlotSet_iter.
  replace (seq 0 n) with (seq 0 k ++ k :: seq (S k) (n - S k)).
  2: { change (k :: seq (S k) (n - S k)) with (seq (0 + k) (S (n - S k))).
       rewrite <- (seq_app k (S (n - S k)) 0). f_equal. lia. }
  rewrite !filter_bool_app, !length_app.
  assert (forall l, k ∉ l -> filter_bool (SlotSet_contains (SlotSet_insert s k)) l =
                           filter_bool (SlotSet_contains s) l) as Hne.
  { intros l Hl. apply filter_bool_ext. intros x Hx. rewrite contains_insert.
    destruct (Nat.eqb_spec x k) as [->|]; [done|done]. }
  rewrite Hne by (rewrite elem_of_seq; lia). cbn [filter_bool].
  rewrite Hne by (rewrite elem_of_seq; lia).
  rewrite contains_insert, Nat.eqb_refl. simpl orb.
  destruct (SlotSet_contains s k); simpl; lia.
Qed.

Lemma within_insert s k n :
  (k < n)%nat -> SlotSet_within s n -> SlotSet_within (SlotSet_insert s k) n.
Proof.
  intros Hk [Hlt Hcount]. split.
  - intros slot. rewrite contains_insert.
    destruct (Nat.eqb_spec slot k) as [->|]; [done|auto].
  - rewrite count_insert, iter_insert_length, Hcount by done. done.
Qed.
