(* ===== verification/MembershipIndex.v ===== *)
(** * The slot index of a membership, and acknowledgement sets

    Models [crates/rafter/src/node/state/membership/index.rs] and
    [acknowledgements.rs]: replicas in ascending order, voter sets as slot bit
    sets, and quorum tests on slots.  The theorems show that the slot tests are
    the quorum tests of [types/membership.rs]. *)

From stdpp Require Import base list sorting numbers option sets.
From S2P Require Import Prelude.
From S2P Require Import Types.
From S2P Require Import Membership.
From S2P Require Import Slots.

(** ** The index *)

Record MembershipIndex := {
  replicas : list NodeId;
  old_voters : SlotSet;
  new_voters : option SlotSet;
  learner_slots : SlotSet;
  self_slot : option ReplicaSlot;
}.

#[export] Instance MembershipIndex_eq_dec : EqDecision MembershipIndex.
Proof. solve_decision. Defined.

Definition MembershipIndex_default : MembershipIndex := {|
  replicas := [];
  old_voters := SlotSet_default;
  new_voters := None;
  learner_slots := SlotSet_default;
  self_slot := None;
|}.

Definition slot_of (replicas : list NodeId) (node_id : NodeId) : option ReplicaSlot :=
  binary_search replicas node_id.

Definition slot_set_for (replicas nodes : list NodeId) : SlotSet :=
  fold_left (fun set node_id =>
               match slot_of replicas node_id with
               | Some slot => SlotSet_insert set slot
               | None => set
               end) nodes (SlotSet_empty (length replicas)).

Definition learners_for_joint (replicas : list NodeId)
    (old_membership new_membership : MembershipSet) : SlotSet :=
  fold_left (fun set learner =>
               match slot_of replicas learner with
               | Some slot => SlotSet_insert set slot
               | None => set
               end) (learners old_membership ++ learners new_membership)
            (SlotSet_empty (length replicas)).

Definition MembershipIndex_stable (membership : MembershipSet) (self_id : NodeId)
  : MembershipIndex :=
  let replicas := MembershipSet_replica_ids membership in
  {|
    replicas := replicas;
    old_voters := slot_set_for replicas (voters membership);
    new_voters := None;
    learner_slots := slot_set_for replicas (learners membership);
    self_slot := slot_of replicas self_id;
  |}.

Definition MembershipIndex_new (membership : MembershipConfig) (self_id : NodeId)
  : MembershipIndex :=
  match membership with
  | Stable stable => MembershipIndex_stable stable self_id
  | Joint joint =>
      let replicas := replica_ids membership in
      {|
        replicas := replicas;
        old_voters := slot_set_for replicas (voters (old joint));
        new_voters := Some (slot_set_for replicas (voters (new_membership joint)));
        learner_slots := learners_for_joint replicas (old joint) (new_membership joint);
        self_slot := slot_of replicas self_id;
      |}
  end.

Definition slot (index : MembershipIndex) (node_id : NodeId) : option ReplicaSlot :=
  slot_of (replicas index) node_id.

Definition quorum_reached (voters acknowledgements : SlotSet) (slot_count : nat) : bool :=
  let quorum_size := majority (SlotSet_count voters) in
  (quorum_size <=?
   length (filter_bool (fun slot => SlotSet_contains acknowledgements slot)
             (SlotSet_iter voters slot_count)))%nat.

Definition quorum_reached_with_self (voters acknowledgements : SlotSet)
    (self_slot : option ReplicaSlot) (slot_count : nat) : bool :=
  let quorum_size := majority (SlotSet_count voters) in
  (quorum_size <=?
   length (filter_bool (fun slot => SlotSet_contains acknowledgements slot
                                    || bool_decide (Some slot = self_slot))
             (SlotSet_iter voters slot_count)))%nat.

Definition has_quorum_slots (index : MembershipIndex) (acknowledgements : SlotSet) : bool :=
  quorum_reached (old_voters index) acknowledgements (length (replicas index))
  && is_none_or (fun voters => quorum_reached voters acknowledgements (length (replicas index)))
       (new_voters index).

Definition has_quorum_slots_with_self (index : MembershipIndex) (acknowledgements : SlotSet)
  : bool :=
  quorum_reached_with_self (old_voters index) acknowledgements (self_slot index)
    (length (replicas index))
  && is_none_or (fun voters => quorum_reached_with_self voters acknowledgements (self_slot index)
                                 (length (replicas index)))
       (new_voters index).

Definition MembershipIndex_has_quorum (index : MembershipIndex) (acknowledgements : list NodeId)
  : bool :=
  has_quorum_slots index
    (fold_left (fun ack_slots node_id =>
                  match slot index node_id with
                  | Some slot => SlotSet_insert ack_slots slot
                  | None => ack_slots
                  end) acknowledgements (SlotSet_empty (length (replicas index)))).

(** The merge loop, on the suffixes at [left_index], [right_index] and
    [target_index]; each round consumes one element of [left] or [right]. *)
Fixpoint sorted_union_loop (fuel : nat) (target l r : list NodeId) : bool :=
  match l, r with
  | [], [] => bool_decide (target = [])
  | _, _ =>
      match fuel with
      | 0%nat => false
      | S fuel =>
          let '(next, l', r') :=
            match l, r with
            | left_id :: l', right_id :: r' =>
                if left_id <=? right_id then (Some left_id, l', r)
                else (Some right_id, l, r')
            | left_id :: l', [] => (Some left_id, l', r)
            | [], right_id :: r' => (Some right_id, l, r')
            | [], [] => (None, l, r)
            end in
          if bool_decide (head target = next) then sorted_union_loop fuel (tail target) l' r'
          else false
      end
  end.

Definition sorted_union_matches (target left right : list NodeId) : bool :=
  sorted_union_loop (length left + length right) target left right.

Definition slot_set_matches_members (set : SlotSet) (replicas members : list NodeId) : bool :=
  forallb (fun '(slot, node_id) =>
             eqb (SlotSet_contains set slot) (is_some (binary_search members node_id)))
    (enumerate replicas).

Definition matches_stable (index : MembershipIndex) (membership : MembershipSet)
    (self_id : NodeId) : bool :=
  is_none (new_voters index)
  && bool_decide (self_slot index = slot_of (replicas index) self_id)
  && sorted_union_matches (replicas index) (voters membership) (learners membership)
  && slot_set_matches_members (old_voters index) (replicas index) (voters membership)
  && slot_set_matches_members (learner_slots index) (replicas index) (learners membership).

Definition matches (index : MembershipIndex) (membership : MembershipConfig) (self_id : NodeId)
  : bool :=
  match membership with
  | Stable stable => matches_stable index stable self_id
  | Joint _ => false
  end.

(** ** Acknowledgement sets *)

Record AcknowledgementSet := {
  ack_index : MembershipIndex;
  acks : SlotSet;
}.

#[export] Instance AcknowledgementSet_eq_dec : EqDecision AcknowledgementSet.
Proof. solve_decision. Defined.

Definition AcknowledgementSet_default : AcknowledgementSet :=
  {| ack_index := MembershipIndex_default; acks := SlotSet_default |}.

Definition AcknowledgementSet_new (membership : MembershipConfig) (self_id : NodeId)
  : AcknowledgementSet :=
  let index := MembershipIndex_new membership self_id in
  {| ack_index := index; acks := SlotSet_empty (length (replicas index)) |}.

Definition refresh (set : AcknowledgementSet) (membership : MembershipConfig) (self_id : NodeId)
  : AcknowledgementSet :=
  if matches (ack_index set) membership self_id then set
  else
    let next_index := MembershipIndex_new membership self_id in
    if bool_decide (ack_index set = next_index) then set
    else
      let next_acks :=
        fold_left (fun next_acks slot_index =>
                     match replicas (ack_index set) !! slot_index with
                     | None => next_acks
                     | Some node_id =>
                         match slot next_index node_id with
                         | Some next_slot => SlotSet_insert next_acks next_slot
                         | None => next_acks
                         end
                     end)
          (SlotSet_iter (acks set) (length (replicas (ack_index set))))
          (SlotSet_empty (length (replicas next_index))) in
      {| ack_index := next_index; acks := next_acks |}.

Definition AcknowledgementSet_insert (set : AcknowledgementSet) (node_id : NodeId)
    (membership : MembershipConfig) (self_id : NodeId) : AcknowledgementSet :=
  let set := refresh set membership self_id in
  match slot (ack_index set) node_id with
  | Some slot => {| ack_index := ack_index set; acks := SlotSet_insert (acks set) slot |}
  | None => set
  end.

(** Takes [&mut self]: the refreshed set is returned with the answer. *)
Definition has_quorum_with_self (set : AcknowledgementSet) (membership : MembershipConfig)
    (self_id : NodeId) : AcknowledgementSet * bool :=
  let set := refresh set membership self_id in
  (set, has_quorum_slots_with_self (ack_index set) (acks set)).

Definition AcknowledgementSet_clear (set : AcknowledgementSet) : AcknowledgementSet :=
  {| ack_index := ack_index set;
     acks := SlotSet_empty (length (replicas (ack_index set))) |}.

(** ** What an index represents *)

Section representation.
Implicit Types (ids nodes : list NodeId).

(** [s] holds exactly the slots of the members of [nodes]. *)
Definition slots_denote ids (s : SlotSet) nodes : Prop :=
  SlotSet_within s (length ids) /\
  forall i x, ids !! i = Some x -> SlotSet_contains s i = elem x nodes.

Lemma slot_of_Some ids x i : slot_of ids x = Some i -> ids !! i = Some x.
Proof. intros (y & Hy & ->%N.eqb_eq & _)%position_Some. done. Qed.

Lemma slot_of_lookup ids i x : NoDup ids -> ids !! i = Some x -> slot_of ids x = Some i.
Proof.
  intros Hn Hi. apply position_Some. exists x. split_and!; [done|apply N.eqb_refl|].
  intros j y Hj Hy. apply N.eqb_neq. intros ->.
  pose proof (NoDup_lookup _ _ _ _ Hn Hi Hy). lia.
Qed.

Lemma slot_of_None ids x : slot_of ids x = None <-> x ∉ ids.
Proof.
  unfold slot_of, binary_search. rewrite position_None. split.
  - intros H Hin. specialize (H x Hin). by rewrite N.eqb_refl in H.
  - intros H y Hy. apply N.eqb_neq. by intros ->.
Qed.

Definition slot_insert ids (s : SlotSet) (x : NodeId) : SlotSet :=
  match slot_of ids x with Some slot => SlotSet_insert s slot | None => s end.

Lemma slot_insert_denote ids s nodes x :
  NoDup ids -> slots_denote ids s nodes -> slots_denote ids (slot_insert ids s x) (x :: nodes).
Proof.
  intros Hn [Hw Hc]. unfold slot_insert. destruct (slot_of ids x) as [k|] eqn:Ek.
  - pose proof (slot_of_Some _ _ _ Ek) as Hk. split.
    + apply within_insert; [by eapply lookup_lt_Some|done].
    + intros i y Hi. rewrite contains_insert, (Hc i y Hi). simpl.
      destruct (Nat.eqb_spec i k) as [->|Hne].
      * simplify_eq. by rewrite N.eqb_refl.
      * destruct (N.eqb_spec y x) as [->|]; [|done].
        rewrite (slot_of_lookup _ _ _ Hn Hi) in Ek. congruence.
  - split; [done|]. intros i y Hi. rewrite (Hc i y Hi). simpl.
    destruct (N.eqb_spec y x) as [->|]; [|done].
    apply slot_of_None in Ek. destruct Ek. by eapply list_elem_of_lookup_2.
Qed.

Lemma slots_denote_ext ids s nodes1 nodes2 :
  (forall x, x ∈ ids -> elem x nodes1 = elem x nodes2) ->
  slots_denote ids s nodes1 -> slots_denote ids s nodes2.
Proof.
  intros He [Hw Hc]. split; [done|]. intros i x Hi. rewrite (Hc i x Hi).
  apply He. by eapply list_elem_of_lookup_2.
Qed.

Lemma elem_app x l k : elem x (l ++ k) = elem x l || elem x k.
Proof. apply existsb_app. Qed.

Lemma fold_slot_insert_denote ids nodes s done_nodes :
  NoDup ids -> slots_denote ids s done_nodes ->
  slots_denote ids (fold_left (slot_insert ids) nodes s) (nodes ++ done_nodes).
Proof.
  intros Hn. revert s done_nodes. induction nodes as [|x nodes IH]; intros s d Hs; [done|].
  simpl fold_left. eapply slots_denote_ext; [|apply IH, slot_insert_denote; done].
  intros y _. simpl. rewrite !elem_app. simpl.
  destruct (N.eqb_spec y x); [by rewrite orb_true_r|done].
Qed.

Lemma empty_denote ids m : slots_denote ids (SlotSet_empty m) [].
Proof. split; [apply within_empty|]. intros. apply contains_empty. Qed.

Lemma slot_set_for_denote ids nodes :
  NoDup ids -> slots_denote ids (slot_set_for ids nodes) nodes.
Proof.
  intros Hn. rewrite <- (app_nil_r nodes) at 2.
  apply (fold_slot_insert_denote ids nodes _ [] Hn (empty_denote ids _)).
Qed.

(** The number of members of a slot set that pass a test on identities. *)
Lemma filter_slots_length ids (p : nat -> bool) (q : NodeId -> bool) :
  (forall i x, ids !! i = Some x -> p i = q x) ->
  length (filter_bool p (seq 0 (length ids))) = length (filter_bool q ids).
Proof.
  intros H.
  enough (forall k, (forall i x, ids !! i = Some x -> p (k + i)%nat = q x) ->
            length (filter_bool p (seq k (length ids))) = length (filter_bool q ids)) as He
    by by apply He.
  clear H. induction ids as [|x ids IH]; intros k H; simpl; [done|].
  pose proof (H 0%nat x eq_refl) as H0. rewrite Nat.add_0_r in H0. rewrite H0.
  assert (forall i y, ids !! i = Some y -> p (S k + i)%nat = q y) as H'.
  { intros i y Hi. rewrite <- (H (S i) y Hi). f_equal. lia. }
  destruct (q x); simpl; by rewrite IH.
Qed.

Lemma filter_bool_NoDup {A} (p : A -> bool) l : NoDup l -> NoDup (filter_bool p l).
Proof.
  induction 1 as [|x l Hx Hl IH]; simpl; [constructor|]. destruct (p x); [|done].
  constructor; [|done]. rewrite elem_of_filter_bool. by intros [_ ?].
Qed.

Lemma filter_subset_length ids nodes (q : NodeId -> bool) :
  NoDup ids -> NoDup nodes -> nodes ⊆ ids ->
  length (filter_bool (fun x => elem x nodes && q x) ids) = length (filter_bool q nodes).
Proof.
  intros Hi Hn Hs. apply Permutation_length, NoDup_Permutation.
  - by apply filter_bool_NoDup.
  - by apply filter_bool_NoDup.
  - intros x. rewrite !elem_of_filter_bool, andb_true_iff, elem_spec. set_solver.
Qed.

Lemma filter_bool_filter_bool {A} (p q : A -> bool) l :
  filter_bool p (filter_bool q l) = filter_bool (fun x => q x && p x) l.
Proof.
  induction l as [|x l IH]; simpl; [done|].
  destruct (q x); simpl; [destruct (p x)|]; by rewrite ?IH.
Qed.

Lemma denote_filter_length ids s nodes (p : nat -> bool) (q : NodeId -> bool) :
  NoDup ids -> NoDup nodes -> nodes ⊆ ids -> slots_denote ids s nodes ->
  (forall i x, ids !! i = Some x -> p i = q x) ->
  length (filter_bool p (SlotSet_iter s (length ids))) = length (filter_bool q nodes).
Proof.
  intros Hi Hn Hs [_ Hc] Hp. unfold SlotSet_iter. rewrite filter_bool_filter_bool.
  rewrite <- (filter_subset_length ids nodes q) by done. apply filter_slots_length.
  intros i x Hx. by rewrite (Hc i x Hx), (Hp i x Hx).
Qed.

Lemma filter_bool_all {A} (l : list A) : filter_bool (fun _ => true) l = l.
Proof. induction l; simpl; congruence. Qed.

Lemma denote_count ids s nodes :
  NoDup ids -> NoDup nodes -> nodes ⊆ ids -> slots_denote ids s nodes ->
  SlotSet_count s = length nodes.
Proof.
  intros Hi Hn Hs Hd. pose proof Hd as [[_ Hw] _]. rewrite Hw.
  rewrite <- (filter_bool_all (SlotSet_iter s (length ids))), <- (filter_bool_all nodes).
  by eapply denote_filter_length.
Qed.
End representation.

(** ** The index of a configuration *)

Definition first_half (c : MembershipConfig) : MembershipSet :=
  match c with Stable m => m | Joint j => old j end.

Definition config_learners (c : MembershipConfig) : list NodeId :=
  match c with Stable m => learners m | Joint j => learners (old j) ++ learners (new_membership j) end.

Record represents (index : MembershipIndex) (c : MembershipConfig) (self_id : NodeId) : Prop := {
  rep_replicas : replicas index = replica_ids c;
  rep_old : slots_denote (replicas index) (old_voters index) (voters (first_half c));
  rep_new : match c, new_voters index with
            | Stable _, None => True
            | Joint j, Some s => slots_denote (replicas index) s (voters (new_membership j))
            | _, _ => False
            end;
  rep_learners : slots_denote (replicas index) (learner_slots index) (config_learners c);
  rep_self : self_slot index = slot_of (replicas index) self_id;
}.

(** The bit sets of an index stay within its slots. *)
Definition index_wf (index : MembershipIndex) : Prop :=
  SlotSet_within (old_voters index) (length (replicas index)) /\
  SlotSet_within (learner_slots index) (length (replicas index)) /\
  NoDup (replicas index).

Lemma replica_ids_ascending c : ascending (replica_ids c).
Proof. destruct c; apply btree_collect_ascending. Qed.

Lemma replica_ids_NoDup c : NoDup (replica_ids c).
Proof. apply ascending_NoDup, replica_ids_ascending. Qed.

Lemma elem_of_replica_ids c x :
  x ∈ replica_ids c <-> exists m, m ∈ halves c /\ (x ∈ voters m \/ x ∈ learners m).
Proof.
  destruct c as [m|j]; simpl; unfold MembershipSet_replica_ids, union_node_ids.
  - rewrite elem_of_btree_collect, elem_of_app. setoid_rewrite list_elem_of_singleton. naive_solver.
  - rewrite elem_of_btree_collect, elem_of_app, !elem_of_btree_collect, !elem_of_app.
    split.
    + intros [?|?]; [exists (old j)|exists (new_membership j)]; set_solver.
    + intros (m & Hm & Hx). apply elem_of_cons in Hm as [->|Hm%list_elem_of_singleton]; [auto|].
      subst. auto.
Qed.

Lemma contains_voter_replica c x : contains_voter c x = true -> x ∈ replica_ids c.
Proof.
  intros Hx. apply elem_of_replica_ids. destruct c as [m|j]; simpl in Hx.
  - apply elem_spec in Hx. exists m. set_solver.
  - apply orb_true_iff in Hx as [Hx|Hx]; apply elem_spec in Hx;
      [exists (old j)|exists (new_membership j)]; set_solver.
Qed.

Lemma halves_voters_replicas c m : m ∈ halves c -> voters m ⊆ replica_ids c.
Proof. intros Hm x Hx. apply elem_of_replica_ids. eauto. Qed.

Lemma wf_halves c m : MembershipConfig_wf c -> m ∈ halves c -> MembershipSet_wf m.
Proof.
  destruct c as [m'|j]; simpl; intros Hwf Hm.
  - by apply list_elem_of_singleton in Hm as ->.
  - by apply elem_of_cons in Hm as [->|Hm%list_elem_of_singleton]; [|subst]; destruct Hwf.
Qed.

Lemma first_half_in c : first_half c ∈ halves c.
Proof. destruct c; simpl; set_solver. Qed.

Lemma MembershipIndex_new_represents c self_id :
  represents (MembershipIndex_new c self_id) c self_id.
Proof.
  pose proof (replica_ids_NoDup c) as Hn.
  destruct c as [m|j]; split; simpl in *; try done; try by apply slot_set_for_denote.
Qed.

Lemma represents_wf index c self_id : represents index c self_id -> index_wf index.
Proof.
  intros [Hr [Ho _] _ [Hl _] _]. split_and!; [done..|].
  rewrite Hr. apply replica_ids_NoDup.
Qed.

Lemma default_wf : index_wf MembershipIndex_default.
Proof.
  pose proof (within_empty 0 0) as H. split_and!; [exact H|exact H|constructor].
Qed.

(** ** The stable fast path *)

Lemma sorted_union_loop_sound fuel target l r :
  sorted_union_loop fuel target l r = true -> ascending l -> ascending r ->
  (forall x, x ∈ l -> x ∉ r) ->
  ascending target /\ (forall x, x ∈ target <-> x ∈ l \/ x ∈ r).
Proof.
  revert target l r. induction fuel as [|fuel IH]; intros target l r Hm Hl Hr Hd.
  { destruct l, r; simpl in Hm; try done. apply bool_decide_eq_true in Hm as ->.
    split; [constructor|set_solver]. }
  assert (forall next l' r', head target = Some next ->
            sorted_union_loop fuel (tail target) l' r' = true -> ascending l' -> ascending r' ->
            (forall x, x ∈ l' -> x ∉ r') ->
            (forall x, x ∈ l' \/ x ∈ r' -> next < x) ->
            (forall x, x = next \/ x ∈ l' \/ x ∈ r' <-> x ∈ l \/ x ∈ r) ->
            ascending target /\ (forall x, x ∈ target <-> x ∈ l \/ x ∈ r)) as Hstep.
  { intros next l' r' Hh Hm' Hl' Hr' Hd' Hlt Hx. destruct target as [|t target]; [done|].
    simplify_eq/=. destruct (IH _ _ _ Hm' Hl' Hr' Hd') as [Ha He]. split.
    - constructor; [done|]. apply Forall_forall. intros x Hin. by apply Hlt, He.
    - intros x. rewrite elem_of_cons, He. apply Hx. }
  destruct l as [|a l], r as [|b r]; cbn [sorted_union_loop] in Hm.
  - apply bool_decide_eq_true in Hm as ->. split; [constructor|set_solver].
  - case_bool_decide as Hh; [|done]. apply StronglySorted_inv in Hr as [Hr Hb].
    rewrite Forall_forall in Hb. eapply Hstep; [done|done|done|done|set_solver|set_solver|set_solver].
  - case_bool_decide as Hh; [|done]. apply StronglySorted_inv in Hl as [Hl Ha].
    rewrite Forall_forall in Ha. eapply Hstep; [done|done|done|done|set_solver|set_solver|set_solver].
  - pose proof (StronglySorted_inv Hl) as [Hl' Ha]. pose proof (StronglySorted_inv Hr) as [Hr' Hb].
    rewrite Forall_forall in Ha. rewrite Forall_forall in Hb. destruct (N.leb_spec a b).
    + case_bool_decide as Hh; [|done].
      assert (a <> b) by (intros ->; apply (Hd b); set_solver).
      eapply Hstep; [done|done|done|done|set_solver| |set_solver].
      intros x [Hx|[->|Hx]%elem_of_cons]; [by apply Ha|lia|]. specialize (Hb x Hx). simpl in Hb. lia.
    + case_bool_decide as Hh; [|done].
      eapply Hstep; [done|done|done|done|set_solver| |set_solver].
      intros x [[->|Hx]%elem_of_cons|Hx]; [lia| |by apply Hb]. specialize (Ha x Hx). simpl in Ha. lia.
Qed.

Lemma slot_set_matches_members_denote ids s members :
  SlotSet_within s (length ids) -> slot_set_matches_members s ids members = true ->
  slots_denote ids s members.
Proof.
  intros Hw Hm. split; [done|]. intros i x Hi. unfold slot_set_matches_members in Hm.
  rewrite forallb_forall in Hm. specialize (Hm (i, x)).
  rewrite <- binary_search_is_some. apply eqb_prop, Hm.
  apply list_elem_of_In. unfold enumerate. apply elem_of_lookup_imap. eauto.
Qed.

Lemma matches_represents index c self_id :
  index_wf index -> MembershipConfig_wf c -> matches index c self_id = true ->
  represents index c self_id.
Proof.
  intros (Ho & Hl & _) Hwf. destruct c as [m|j]; [|done]. simpl in *.
  unfold matches_stable. rewrite !andb_true_iff. intros ((((Hn & Hs) & Hu) & Hov) & Hle).
  destruct Hwf as (_ & Hva & Hla & Hd). split; simpl.
  - destruct (sorted_union_loop_sound _ _ _ _ Hu Hva Hla Hd) as [Ha He].
    apply ascending_ext; [done|apply btree_collect_ascending|]. intros x.
    unfold MembershipSet_replica_ids, union_node_ids.
    by rewrite elem_of_btree_collect, elem_of_app, He.
  - by apply slot_set_matches_members_denote.
  - by destruct (new_voters index).
  - by apply slot_set_matches_members_denote.
  - by apply bool_decide_eq_true in Hs.
Qed.

(** ** Quorums on slots *)

Lemma quorum_reached_majority ids vs s acked ack_nodes :
  NoDup ids -> NoDup vs -> vs ⊆ ids -> slots_denote ids s vs ->
  slots_denote ids acked ack_nodes ->
  quorum_reached s acked (length ids) =
  (majority (length vs) <=? length (filter_bool (fun x => elem x ack_nodes) vs))%nat.
Proof.
  intros Hi Hv Hs Hd [_ Ha]. unfold quorum_reached.
  rewrite (denote_count ids s vs) by done.
  by rewrite (denote_filter_length ids s vs _ (fun x => elem x ack_nodes)).
Qed.

Lemma quorum_reached_with_self_majority ids vs s acked ack_nodes self_id :
  NoDup ids -> NoDup vs -> vs ⊆ ids -> slots_denote ids s vs ->
  slots_denote ids acked ack_nodes ->
  quorum_reached_with_self s acked (slot_of ids self_id) (length ids) =
  (majority (length vs) <=?
   length (filter_bool (fun x => elem x (self_id :: ack_nodes)) vs))%nat.
Proof.
  intros Hi Hv Hs Hd [_ Ha]. unfold quorum_reached_with_self.
  rewrite (denote_count ids s vs) by done.
  rewrite (denote_filter_length ids s vs _ (fun x => elem x (self_id :: ack_nodes))); try done.
  intros i x Hx. simpl. rewrite (Ha i x Hx), orb_comm. f_equal.
  destruct (N.eqb_spec x self_id) as [->|Hne]; case_bool_decide as Hb; try done.
  - by rewrite (slot_of_lookup _ _ _ Hi Hx) in Hb.
  - symmetry in Hb. apply slot_of_Some in Hb. congruence.
Qed.

Section slot_quorums.
Context (index : MembershipIndex) (c : MembershipConfig) (self_id : NodeId).
Context (Hwf : MembershipConfig_wf c) (Hrep : represents index c self_id).

Lemma represented_NoDup : NoDup (replicas index).
Proof. rewrite (rep_replicas _ _ _ Hrep). apply replica_ids_NoDup. Qed.

Lemma represented_voters m :
  m ∈ halves c -> NoDup (voters m) /\ voters m ⊆ replicas index.
Proof.
  intros Hm. split; [by apply MembershipSet_wf_NoDup, (wf_halves c)|].
  rewrite (rep_replicas _ _ _ Hrep). by apply halves_voters_replicas.
Qed.

Lemma has_quorum_slots_quorum_of acked ack_nodes :
  slots_denote (replicas index) acked ack_nodes ->
  has_quorum_slots index acked = quorum_of c (fun x => elem x ack_nodes).
Proof.
  intros Ha. pose proof represented_NoDup as Hn. pose proof represented_voters as Hrv. pose proof Hrep as [_ Ho Hnew _ _].
  unfold has_quorum_slots, quorum_of. destruct c as [m|j]; simpl in *.
  - destruct (Hrv m) as [??]; [set_solver|].
    destruct (new_voters index); [done|]. simpl.
    by rewrite (quorum_reached_majority _ (voters m) _ _ ack_nodes).
  - destruct (Hrv (old j)) as [??]; [set_solver|].
    destruct (Hrv (new_membership j)) as [??]; [set_solver|].
    destruct (new_voters index) as [s|]; [|done]. simpl. rewrite andb_true_r.
    by rewrite (quorum_reached_majority _ (voters (old j)) _ _ ack_nodes),
      (quorum_reached_majority _ (voters (new_membership j)) _ _ ack_nodes).
Qed.

Lemma has_quorum_slots_with_self_quorum_of acked ack_nodes :
  slots_denote (replicas index) acked ack_nodes ->
  has_quorum_slots_with_self index acked = quorum_of c (fun x => elem x (self_id :: ack_nodes)).
Proof.
  intros Ha. pose proof represented_NoDup as Hn. pose proof represented_voters as Hrv. pose proof Hrep as [_ Ho Hnew _ Hself].
  unfold has_quorum_slots_with_self, quorum_of. rewrite Hself. destruct c as [m|j]; simpl in *.
  - destruct (Hrv m) as [??]; [set_solver|].
    destruct (new_voters index); [done|]. simpl is_none_or.
    by rewrite (quorum_reached_with_self_majority _ (voters m) _ _ ack_nodes).
  - destruct (Hrv (old j)) as [??]; [set_solver|].
    destruct (Hrv (new_membership j)) as [??]; [set_solver|].
    destruct (new_voters index) as [s|]; [|done]. simpl is_none_or. rewrite andb_true_r.
    by rewrite (quorum_reached_with_self_majority _ (voters (old j)) _ _ ack_nodes),
      (quorum_reached_with_self_majority _ (voters (new_membership j)) _ _ ack_nodes).
Qed.

Lemma MembershipIndex_has_quorum_quorum_of ack_nodes :
  MembershipIndex_has_quorum index ack_nodes = quorum_of c (fun x => elem x ack_nodes).
Proof.
  unfold MembershipIndex_has_quorum. apply has_quorum_slots_quorum_of.
  pose proof (fold_slot_insert_denote (replicas index) ack_nodes _ [] represented_NoDup
                (empty_denote _ (length (replicas index)))) as H.
  by rewrite app_nil_r in H.
Qed.
End slot_quorums.

(** ** Acknowledgement sets *)

(** The nodes whose acknowledgement a set holds. *)
Definition acked_nodes (set : AcknowledgementSet) : list NodeId :=
  omap (fun i => replicas (ack_index set) !! i)
    (SlotSet_iter (acks set) (length (replicas (ack_index set)))).

Definition ack_wf (set : AcknowledgementSet) : Prop :=
  index_wf (ack_index set) /\ SlotSet_within (acks set) (length (replicas (ack_index set))).

Lemma elem_of_acked_nodes set x :
  x ∈ acked_nodes set <->
  exists i, replicas (ack_index set) !! i = Some x /\ SlotSet_contains (acks set) i = true.
Proof.
  unfold acked_nodes, SlotSet_iter. rewrite list_elem_of_omap.
  setoid_rewrite elem_of_filter_bool. setoid_rewrite elem_of_seq. split.
  - intros (i & [? _] & ?). eauto.
  - intros (i & Hi & ?). exists i. split_and!; try done; [lia|].
    apply lookup_lt_Some in Hi. lia.
Qed.

Lemma acks_denote set :
  ack_wf set -> slots_denote (replicas (ack_index set)) (acks set) (acked_nodes set).
Proof.
  intros [(_ & _ & Hn) Hw]. split; [done|]. intros i x Hi.
  destruct (SlotSet_contains (acks set) i) eqn:E; symmetry.
  - apply elem_spec, elem_of_acked_nodes. eauto.
  - apply elem_false. rewrite elem_of_acked_nodes. intros (k & Hk & Hc).
    pose proof (NoDup_lookup _ _ _ _ Hn Hi Hk) as ->. congruence.
Qed.

Lemma acked_nodes_denote set nodes :
  NoDup (replicas (ack_index set)) ->
  slots_denote (replicas (ack_index set)) (acks set) nodes ->
  forall x, x ∈ acked_nodes set <-> x ∈ replicas (ack_index set) /\ x ∈ nodes.
Proof.
  intros Hn [_ Hc] x. rewrite elem_of_acked_nodes, list_elem_of_lookup. split.
  - intros (i & Hi & Hci). rewrite (Hc i x Hi), elem_spec in Hci. eauto.
  - intros ([i Hi] & Hx). exists i. by rewrite (Hc i x Hi), elem_spec.
Qed.

Lemma refresh_fold index (l : list nat) next s :
  fold_left (fun next_acks slot_index =>
               match replicas index !! slot_index with
               | None => next_acks
               | Some node_id =>
                   match slot next node_id with
                   | Some next_slot => SlotSet_insert next_acks next_slot
                   | None => next_acks
                   end
               end) l s =
  fold_left (slot_insert (replicas next)) (omap (fun i => replicas index !! i) l) s.
Proof.
  revert s. induction l as [|i l IH]; intros s; simpl; [done|].
  destruct (replicas index !! i) as [x|]; simpl; apply IH.
Qed.

Section acknowledgements.
Context (set : AcknowledgementSet) (c : MembershipConfig) (self_id : NodeId).
Context (Hset : ack_wf set) (Hc : MembershipConfig_wf c).

Lemma refresh_represents : represents (ack_index (refresh set c self_id)) c self_id.
Proof.
  unfold refresh. destruct (matches _ _ _) eqn:E.
  - apply matches_represents; [apply Hset|done..].
  - case_bool_decide as Hi; simpl; [rewrite Hi|]; apply MembershipIndex_new_represents.
Qed.

Lemma refresh_wf : ack_wf (refresh set c self_id).
Proof.
  split; [eapply represents_wf, refresh_represents|].
  unfold refresh. destruct (matches _ _ _); [apply Hset|].
  case_bool_decide; [apply Hset|]. simpl. rewrite refresh_fold.
  pose proof (MembershipIndex_new_represents c self_id) as Hr. destruct (represents_wf _ _ _ Hr) as (_ & _ & Hn).
  apply (fold_slot_insert_denote _ _ _ [] Hn (empty_denote _ _)).
Qed.

(** Refreshing keeps the acknowledgements of the nodes that stay replicas. *)
Lemma refresh_acked x :
  x ∈ acked_nodes (refresh set c self_id) <-> x ∈ replica_ids c /\ x ∈ acked_nodes set.
Proof.
  assert (forall s, represents (ack_index s) c self_id ->
            x ∈ acked_nodes s <-> x ∈ replica_ids c /\ x ∈ acked_nodes s) as Hsame.
  { intros s Hr. rewrite <- (rep_replicas _ _ _ Hr).
    rewrite !elem_of_acked_nodes, list_elem_of_lookup. naive_solver. }
  pose proof refresh_represents as Hrep. unfold refresh in *.
  destruct (matches _ _ _); [by apply Hsame|].
  case_bool_decide; [by apply Hsame|]. rewrite refresh_fold in *.
  pose proof (MembershipIndex_new_represents c self_id) as Hr.
  destruct (represents_wf _ _ _ Hr) as (_ & _ & Hn).
  rewrite acked_nodes_denote; [|done|]; cycle 1.
  { simpl. apply (fold_slot_insert_denote _ _ _ [] Hn (empty_denote _ _)). }
  simpl. rewrite (rep_replicas _ _ _ Hr), app_nil_r. done.
Qed.

Lemma insert_represents y :
  represents (ack_index (AcknowledgementSet_insert set y c self_id)) c self_id.
Proof.
  unfold AcknowledgementSet_insert.
  destruct (slot _ _); apply refresh_represents.
Qed.

Lemma AcknowledgementSet_insert_acks y :
  AcknowledgementSet_insert set y c self_id =
  {| ack_index := ack_index (refresh set c self_id);
     acks := slot_insert (replicas (ack_index (refresh set c self_id)))
               (acks (refresh set c self_id)) y |}.
Proof.
  unfold AcknowledgementSet_insert, slot_insert, slot.
  destruct (slot_of _ _); [done|]. by destruct (refresh set c self_id).
Qed.

Lemma insert_denote y :
  slots_denote (replicas (ack_index (AcknowledgementSet_insert set y c self_id)))
    (acks (AcknowledgementSet_insert set y c self_id))
    (y :: acked_nodes (refresh set c self_id)).
Proof.
  rewrite AcknowledgementSet_insert_acks. simpl. apply slot_insert_denote.
  - apply refresh_wf.
  - apply acks_denote, refresh_wf.
Qed.

Lemma insert_wf y : ack_wf (AcknowledgementSet_insert set y c self_id).
Proof. split; [eapply represents_wf, insert_represents|apply insert_denote]. Qed.

Lemma insert_acked y x :
  x ∈ acked_nodes (AcknowledgementSet_insert set y c self_id) <->
  x ∈ replica_ids c /\ (x = y \/ x ∈ acked_nodes set).
Proof.
  rewrite acked_nodes_denote; [|apply insert_wf|apply insert_denote].
  rewrite (rep_replicas _ _ _ (insert_represents y)), elem_of_cons, refresh_acked. naive_solver.
Qed.

Lemma has_quorum_with_self_acked :
  (has_quorum_with_self set c self_id).2 =
  quorum_of c (fun x => elem x (self_id :: acked_nodes set)).
Proof.
  unfold has_quorum_with_self. simpl.
  rewrite (has_quorum_slots_with_self_quorum_of _ c self_id Hc refresh_represents _
             (acked_nodes (refresh set c self_id)));
    [|apply acks_denote, refresh_wf].
  apply quorum_of_ext. intros x Hx. simpl. f_equal.
  apply contains_voter_replica in Hx.
  apply eq_true_iff_eq. rewrite !elem_spec, refresh_acked. naive_solver.
Qed.
End acknowledgements.

Lemma AcknowledgementSet_new_wf c self_id : ack_wf (AcknowledgementSet_new c self_id).
Proof.
  split; [eapply represents_wf, MembershipIndex_new_represents|apply within_empty].
Qed.

Lemma AcknowledgementSet_default_wf : ack_wf AcknowledgementSet_default.
Proof. split; [apply default_wf|apply (within_empty 0 0)]. Qed.

Lemma AcknowledgementSet_clear_wf set : ack_wf set -> ack_wf (AcknowledgementSet_clear set).
Proof. intros [? _]. split; [done|apply within_empty]. Qed.

(** ** Properties *)

(** C26:  The slot index answers every quorum question as the membership
    itself does: for a well-formed configuration, [MembershipIndex::has_quorum]
    on the built bit sets is [MembershipConfig::has_quorum]. *)
Theorem index_has_quorum_correct (c : MembershipConfig) (self_id : NodeId)
    (ack_nodes : list NodeId) (Hwf : MembershipConfig_wf c) :
  MembershipIndex_has_quorum (MembershipIndex_new c self_id) ack_nodes =
  MembershipConfig_has_quorum c ack_nodes.
Proof.
  rewrite has_quorum_quorum_of. eapply MembershipIndex_has_quorum_quorum_of; [done|].
  apply MembershipIndex_new_represents.
Qed.

Definition sample_joint : MembershipConfig :=
  Joint {| old := {| voters := [1; 2; 3]; learners := [4] |};
           new_membership := {| voters := [2; 4; 5]; learners := [] |} |}.

Lemma sample_joint_wf : MembershipConfig_wf sample_joint.
Proof.
  split; (split_and!; [done|repeat constructor..|intros x; simpl; set_solver]).
Defined.

Lemma index_has_quorum_correct_witness :
  MembershipIndex_has_quorum (MembershipIndex_new sample_joint 1) [2; 5; 1] = true /\
  MembershipConfig_has_quorum sample_joint [2; 5; 1] = true.
Proof.
  split; [|reflexivity].
  rewrite (index_has_quorum_correct sample_joint 1 [2; 5; 1] sample_joint_wf). reflexivity.
Defined.

(** The acknowledgements a history of insertions leaves: an insertion under a
    configuration drops every node that is not one of its replicas. *)
Definition survivors (history : list (NodeId * MembershipConfig)) : list NodeId :=
  fold_left (fun kept '(node_id, c) => filter_bool (fun x => elem x (replica_ids c)) (node_id :: kept))
    history [].

Definition acknowledge_all (self_id : NodeId) (history : list (NodeId * MembershipConfig))
    (set : AcknowledgementSet) : AcknowledgementSet :=
  fold_left (fun set '(node_id, c) => AcknowledgementSet_insert set node_id c self_id) history set.

Lemma acknowledge_all_spec self_id history set kept :
  ack_wf set -> (forall x, x ∈ acked_nodes set <-> x ∈ kept) ->
  Forall (fun '(_, c) => MembershipConfig_wf c) history ->
  ack_wf (acknowledge_all self_id history set) /\
  forall x, x ∈ acked_nodes (acknowledge_all self_id history set) <->
            x ∈ fold_left (fun kept '(node_id, c) =>
                   filter_bool (fun x => elem x (replica_ids c)) (node_id :: kept)) history kept.
Proof.
  revert set kept. induction history as [|[y c] history IH]; intros set kept Hset Hkept Hall;
    [done|]. apply Forall_cons in Hall as [Hc Hall]. simpl. apply IH; [by apply insert_wf| |done].
  intros x. rewrite insert_acked by done.
  change (if elem y (replica_ids c) then _ else _)
    with (filter_bool (fun x => elem x (replica_ids c)) (y :: kept)).
  rewrite elem_of_filter_bool, elem_spec, elem_of_cons, Hkept. done.
Qed.

(** C25:  Acknowledgement sets across membership changes.  After any history of
    acknowledgements recorded under well-formed configurations, the quorum the
    set reports for a configuration [c] is the quorum of [c] by the local node
    and the acknowledging nodes that no intervening configuration dropped. *)
Theorem acknowledgement_history_quorum (self_id : NodeId) (c0 c : MembershipConfig)
    (history : list (NodeId * MembershipConfig))
    (Hc : MembershipConfig_wf c) (Hall : Forall (fun '(_, c) => MembershipConfig_wf c) history) :
  (has_quorum_with_self (acknowledge_all self_id history (AcknowledgementSet_new c0 self_id))
     c self_id).2 =
  MembershipConfig_has_quorum c (self_id :: survivors history).
Proof.
  destruct (acknowledge_all_spec self_id history (AcknowledgementSet_new c0 self_id) [])
    as [Hwf Hin]; [apply AcknowledgementSet_new_wf| |done|].
  { intros x. rewrite elem_of_acked_nodes. split; [|by intros ?%not_elem_of_nil].
    intros (i & _ & Hi). unfold AcknowledgementSet_new in Hi. cbn [acks] in Hi.
    by rewrite contains_empty in Hi. }
  rewrite has_quorum_with_self_acked, has_quorum_quorum_of by done.
  apply quorum_of_ext. intros x _. simpl. f_equal.
  apply eq_true_iff_eq. rewrite !elem_spec. apply Hin.
Qed.

Lemma acknowledgement_history_quorum_witness :
  let c1 := Stable {| voters := [1; 4]; learners := [] |} in
  let c2 := Stable {| voters := [1; 4; 5]; learners := [3] |} in
  (has_quorum_with_self (acknowledge_all 1 [(4, c1)] (AcknowledgementSet_new c1 1)) c2 1).2 = true.
Proof.
  intros c1 c2.
  rewrite (acknowledgement_history_quorum 1 c1 c2 [(4, c1)]); [reflexivity| |].
  - split_and!; [done|repeat constructor..|intros x; simpl; set_solver].
  - repeat constructor; [done|]. intros x; simpl; set_solver.
Defined.
