(* ===== verification/Progress.v ===== *)
(** * Replication progress, in-flight windows and local proposals

    Models [crates/rafter/src/node/state/progress.rs],
    [state/membership/progress.rs] and the tracker of [state/proposal.rs]. *)

From stdpp Require Import base list sorting numbers option sets.
From S2P Require Import Prelude.
From S2P Require Import Types.
From S2P Require Import Membership.
From S2P Require Import Slots.
From S2P Require Import MembershipIndex.

(** ** In-flight batches *)

Record InflightBatch := {
  batch_last_index : LogIndex;
  batch_bytes : usize;
}.

Record Inflights := {
  batches : list InflightBatch;
  inflight_bytes : usize;
}.

#[export] Instance set_batches : Setter batches := fun v (r : Inflights) =>
  {| batches := v; inflight_bytes := inflight_bytes r |}.
#[export] Instance set_inflight_bytes : Setter inflight_bytes := fun v (r : Inflights) =>
  {| batches := batches r; inflight_bytes := v |}.

Inductive ProgressMode :=
| Probe (awaiting_response : bool)
| Replicate
| SnapshotMode (next_offset : u64).

Record Progress := {
  match_index : LogIndex;
  next_index : LogIndex;
  mode : ProgressMode;
  inflights : Inflights;
}.

#[export] Instance set_match_index : Setter match_index := fun v (r : Progress) =>
  {| match_index := v; next_index := next_index r; mode := mode r; inflights := inflights r |}.
#[export] Instance set_next_index : Setter next_index := fun v (r : Progress) =>
  {| match_index := match_index r; next_index := v; mode := mode r; inflights := inflights r |}.
#[export] Instance set_mode : Setter mode := fun v (r : Progress) =>
  {| match_index := match_index r; next_index := next_index r; mode := v;
     inflights := inflights r |}.
#[export] Instance set_inflights : Setter inflights := fun v (r : Progress) =>
  {| match_index := match_index r; next_index := next_index r; mode := mode r; inflights := v |}.

#[export] Instance InflightBatch_eq_dec : EqDecision InflightBatch.
Proof. solve_decision. Defined.
#[export] Instance Inflights_eq_dec : EqDecision Inflights.
Proof. solve_decision. Defined.
#[export] Instance ProgressMode_eq_dec : EqDecision ProgressMode.
Proof. solve_decision. Defined.
#[export] Instance Progress_eq_dec : EqDecision Progress.
Proof. solve_decision. Defined.

Definition Inflights_default : Inflights := {| batches := []; inflight_bytes := 0 |}.

Definition Inflights_is_full (i : Inflights) (max_batches max_bytes : usize) : bool :=
  (N.max max_batches 1 <=? length_u64 (batches i))
  || (bool_decide (batches i <> []) && (max_bytes <=? inflight_bytes i)).

Definition Inflights_record (i : Inflights) (last_index : LogIndex) (bytes : usize) : Inflights :=
  {| batches := batches i ++ [{| batch_last_index := last_index; batch_bytes := bytes |}];
     inflight_bytes := u64_saturating_add (inflight_bytes i) bytes |}.

Fixpoint free_batches (batches : list InflightBatch) (bytes : usize) (match_index : LogIndex)
  : Inflights :=
  match batches with
  | [] => {| batches := []; inflight_bytes := bytes |}
  | batch :: rest =>
      if match_index <? batch_last_index batch
      then {| batches := batch :: rest; inflight_bytes := bytes |}
      else free_batches rest (u64_saturating_sub bytes (batch_bytes batch)) match_index
  end.

Definition Inflights_free_through (i : Inflights) (match_index : LogIndex) : Inflights :=
  free_batches (batches i) (inflight_bytes i) match_index.

Definition Inflights_clear (i : Inflights) : Inflights := {| batches := []; inflight_bytes := 0 |}.

Definition Inflights_batch_count (i : Inflights) : usize := length_u64 (batches i).
Definition Inflights_byte_count (i : Inflights) : usize := inflight_bytes i.

(** ** Progress of one replica *)

Definition Progress_probing (next_index : LogIndex) : Progress := {|
  match_index := 0;
  next_index := next_index;
  mode := Probe false;
  inflights := Inflights_default;
|}.

Definition Progress_local (last_log_index : LogIndex) : Progress := {|
  match_index := last_log_index;
  next_index := LogIndex_next last_log_index;
  mode := Replicate;
  inflights := Inflights_default;
|}.

Definition collapse_into_probe (p : Progress) (snapshot_index : LogIndex) : Progress :=
  let floor := N.max (LogIndex_next (match_index p)) snapshot_index in
  p <| next_index := N.max (u64_saturating_sub (next_index p) 1) floor |>
    <| mode := Probe false |>
    <| inflights := Inflights_clear (inflights p) |>.

Definition confirm_replicating (p : Progress) : Progress :=
  match mode p with
  | Replicate => p
  | _ =>
      p <| mode := Replicate |>
        <| inflights := Inflights_clear (inflights p) |>
        <| next_index := N.max (next_index p) (LogIndex_next (match_index p)) |>
  end.

(** ** Progress of every replica *)

Record ProgressSet := {
  progress_index : MembershipIndex;
  progress_slots : list Progress;
}.

#[export] Instance set_progress_index : Setter progress_index := fun v (r : ProgressSet) =>
  {| progress_index := v; progress_slots := progress_slots r |}.
#[export] Instance set_progress_slots : Setter progress_slots := fun v (r : ProgressSet) =>
  {| progress_index := progress_index r; progress_slots := v |}.

#[export] Instance ProgressSet_eq_dec : EqDecision ProgressSet.
Proof. solve_decision. Defined.

Definition ProgressSet_default : ProgressSet :=
  {| progress_index := MembershipIndex_default; progress_slots := [] |}.

Definition ProgressSet_reset (membership : MembershipConfig) (self_id : NodeId)
    (follower_next_index local_match_index : LogIndex) : ProgressSet :=
  let index := MembershipIndex_new membership self_id in
  {| progress_index := index;
     progress_slots :=
       map (fun replica => if replica =? self_id then Progress_local local_match_index
                           else Progress_probing follower_next_index) (replicas index) |}.

Definition apply_local_progress_floor (p : Progress) (local_match_index : LogIndex) : Progress :=
  p <| match_index := N.max (match_index p) local_match_index |>
    <| next_index := N.max (next_index p) (LogIndex_next local_match_index) |>.

Definition refresh_local_progress (s : ProgressSet) (self_id : NodeId)
    (local_match_index : LogIndex) : ProgressSet :=
  match self_slot (progress_index s) with
  | Some slot =>
      if is_some_and (fun node_id => node_id =? self_id) (replicas (progress_index s) !! slot)
      then s <| progress_slots :=
             alter (fun p => apply_local_progress_floor p local_match_index) slot
               (progress_slots s) |>
      else s
  | None => s
  end.

Definition reconcile_membership (s : ProgressSet) (membership : MembershipConfig)
    (self_id : NodeId) (first_sendable_index local_match_index : LogIndex) : ProgressSet :=
  if matches (progress_index s) membership self_id
     && (length (progress_slots s) =? length (replicas (progress_index s)))%nat
  then refresh_local_progress s self_id local_match_index
  else
    let next_index := MembershipIndex_new membership self_id in
    if bool_decide (progress_index s = next_index)
       && (length (progress_slots s) =? length (replicas next_index))%nat
    then refresh_local_progress s self_id local_match_index
    else
      {| progress_index := next_index;
         progress_slots :=
           map (fun replica =>
                  let progress :=
                    match slot (progress_index s) replica ≫= (fun slot => progress_slots s !! slot) with
                    | Some progress => progress
                    | None => if replica =? self_id then Progress_local local_match_index
                              else Progress_probing first_sendable_index
                    end in
                  if replica =? self_id
                  then apply_local_progress_floor progress local_match_index else progress)
             (replicas next_index) |}.

Definition ProgressSet_contains (s : ProgressSet) (node_id : NodeId) : bool :=
  is_some (slot (progress_index s) node_id).

Definition ProgressSet_get (s : ProgressSet) (node_id : NodeId) : option Progress :=
  slot (progress_index s) node_id ≫= (fun slot => progress_slots s !! slot).

(** [get_mut] followed by a write through the reference. *)
Definition ProgressSet_update (s : ProgressSet) (node_id : NodeId) (f : Progress -> Progress)
  : ProgressSet :=
  match slot (progress_index s) node_id with
  | Some slot => s <| progress_slots := alter f slot (progress_slots s) |>
  | None => s
  end.

Definition iter_followers (s : ProgressSet) : list (NodeId * Progress) :=
  omap (fun '(slot, node_id) =>
          if bool_decide (Some slot <> self_slot (progress_index s))
          then (fun progress => (node_id, progress)) <$> progress_slots s !! slot
          else None)
    (enumerate (replicas (progress_index s))).

Definition replica_count (s : ProgressSet) : nat := length (replicas (progress_index s)).

Definition replica_id_at (s : ProgressSet) (slot : nat) : option NodeId :=
  replicas (progress_index s) !! slot.

Definition match_indexes_for (s : ProgressSet) (voters : SlotSet) : list LogIndex :=
  match_index <$> omap (fun slot => progress_slots s !! slot)
                    (SlotSet_iter voters (length (progress_slots s))).

(** ** Local proposals *)

Record LocalProposal := {
  lp_term : Term;
  lp_id : LocalProposalId;
}.

#[export] Instance LocalProposal_eq_dec : EqDecision LocalProposal.
Proof. solve_decision. Defined.

(** [LocalProposalTracker]: pairs in ascending index order. *)
Abbreviation LocalProposalTracker := (list (LogIndex * LocalProposal)) (only parsing).

Definition tracker_insert_out_of_order (proposals : LocalProposalTracker) (index : LogIndex)
    (proposal : LocalProposal) : LocalProposalTracker :=
  match position (fun '(existing_index, _) => index <=? existing_index) proposals with
  | Some position =>
      if is_some_and (fun '(existing_index, _) => existing_index =? index) (proposals !! position)
      then <[position := (index, proposal)]> proposals
      else take position proposals ++ (index, proposal) :: drop position proposals
  | None => proposals ++ [(index, proposal)]
  end.

Definition tracker_insert (proposals : LocalProposalTracker) (index : LogIndex)
    (proposal : LocalProposal) : LocalProposalTracker :=
  match last proposals with
  | None => proposals ++ [(index, proposal)]
  | Some (last_index, _) =>
      if last_index =? index
      then <[pred (length proposals) := (last_index, proposal)]> proposals
      else if last_index <? index then proposals ++ [(index, proposal)]
      else tracker_insert_out_of_order proposals index proposal
  end.

Definition tracker_remove (proposals : LocalProposalTracker) (index : LogIndex)
  : LocalProposalTracker * option LocalProposal :=
  match proposals with
  | (current, proposal) :: rest =>
      if current =? index then (rest, Some proposal)
      else
        match position (fun '(current, _) => current =? index) proposals with
        | Some position => (delete position proposals, snd <$> proposals !! position)
        | None => (proposals, None)
        end
  | [] => (proposals, None)
  end.

Definition tracker_split_off (proposals : LocalProposalTracker) (index : LogIndex)
  : LocalProposalTracker * LocalProposalTracker :=
  let position :=
    default (length proposals)
      (position (fun '(proposal_index, _) => index <=? proposal_index) proposals) in
  (take position proposals, drop position proposals).
