(* ===== verification/Config.v ===== *)
(** * Node configuration

    Models [crates/rafter/src/node/config/]: the validated constructors, the
    builder options and the clamping of requested features to the effective
    ones. *)

From stdpp Require Import base list sorting numbers option sets.
From S2P Require Import Prelude.
From S2P Require Import Types.
From S2P Require Import Membership.

Inductive NodeConfigError :=
| ConfigEmptyVoters
| SelfPeer (id : NodeId)
| DuplicatePeer (peer : NodeId)
| ZeroElectionTimeout.

Record RequestedFeatures := {
  req_pre_vote : bool;
  req_check_quorum : bool;
  req_lease_reads : bool;
}.

#[export] Instance set_req_pre_vote : Setter req_pre_vote := fun v (r : RequestedFeatures) =>
  {| req_pre_vote := v; req_check_quorum := req_check_quorum r;
     req_lease_reads := req_lease_reads r |}.
#[export] Instance set_req_check_quorum : Setter req_check_quorum := fun v (r : RequestedFeatures) =>
  {| req_pre_vote := req_pre_vote r; req_check_quorum := v;
     req_lease_reads := req_lease_reads r |}.
#[export] Instance set_req_lease_reads : Setter req_lease_reads := fun v (r : RequestedFeatures) =>
  {| req_pre_vote := req_pre_vote r; req_check_quorum := req_check_quorum r;
     req_lease_reads := v |}.

Record EffectiveFeatures := {
  eff_pre_vote : bool;
  eff_check_quorum : bool;
  eff_lease_reads : bool;
}.

Definition RequestedFeatures_default : RequestedFeatures :=
  {| req_pre_vote := true; req_check_quorum := true; req_lease_reads := false |}.

Definition DEFAULT_MAX_APPEND_ENTRIES_BYTES : usize := 512 * 1024.
Definition DEFAULT_MAX_INFLIGHT_APPENDS : usize := 8.
Definition DEFAULT_MAX_INFLIGHT_BYTES : usize :=
  DEFAULT_MAX_INFLIGHT_APPENDS * DEFAULT_MAX_APPEND_ENTRIES_BYTES.
Definition DEFAULT_HEARTBEAT_INTERVAL_TICKS : u64 := 1.
Definition MIN_CHECK_QUORUM_ELECTION_TIMEOUT_TICKS : u64 := 2.

Definition effective (f : RequestedFeatures) (election_timeout_ticks : u64) : EffectiveFeatures :=
  let pre_vote := req_pre_vote f in
  let check_quorum :=
    req_check_quorum f && (MIN_CHECK_QUORUM_ELECTION_TIMEOUT_TICKS <=? election_timeout_ticks) in
  let lease_reads := req_lease_reads f && pre_vote && check_quorum in
  {| eff_pre_vote := pre_vote; eff_check_quorum := check_quorum; eff_lease_reads := lease_reads |}.

Record NodeConfig := {
  nc_id : NodeId;
  nc_peers : list NodeId;
  static_voters : list NodeId;
  static_membership : MembershipConfig;
  election_timeout_ticks : u64;
  election_jitter_ticks : u64;
  requested_heartbeat_interval_ticks : u64;
  max_append_entries_bytes : usize;
  max_inflight_appends : usize;
  max_inflight_bytes : usize;
  requested_features : RequestedFeatures;
}.

#[export] Instance set_nc_id : Setter nc_id := fun v (r : NodeConfig) =>
  {| nc_id := v; nc_peers := nc_peers r; static_voters := static_voters r;
     static_membership := static_membership r;
     election_timeout_ticks := election_timeout_ticks r;
     election_jitter_ticks := election_jitter_ticks r;
     requested_heartbeat_interval_ticks := requested_heartbeat_interval_ticks r;
     max_append_entries_bytes := max_append_entries_bytes r;
     max_inflight_appends := max_inflight_appends r;
     max_inflight_bytes := max_inflight_bytes r; requested_features := requested_features r |}.
#[export] Instance set_nc_peers : Setter nc_peers := fun v (r : NodeConfig) =>
  {| nc_id := nc_id r; nc_peers := v; static_voters := static_voters r;
     static_membership := static_membership r;
     election_timeout_ticks := election_timeout_ticks r;
     election_jitter_ticks := election_jitter_ticks r;
     requested_heartbeat_interval_ticks := requested_heartbeat_interval_ticks r;
     max_append_entries_bytes := max_append_entries_bytes r;
     max_inflight_appends := max_inflight_appends r;
     max_inflight_bytes := max_inflight_bytes r; requested_features := requested_features r |}.
#[export] Instance set_static_voters : Setter static_voters := fun v (r : NodeConfig) =>
  {| nc_id := nc_id r; nc_peers := nc_peers r; static_voters := v;
     static_membership := static_membership r;
     election_timeout_ticks := election_timeout_ticks r;
     election_jitter_ticks := election_jitter_ticks r;
     requested_heartbeat_interval_ticks := requested_heartbeat_interval_ticks r;
     max_append_entries_bytes := max_append_entries_bytes r;
     max_inflight_appends := max_inflight_appends r;
     max_inflight_bytes := max_inflight_bytes r; requested_features := requested_features r |}.
#[export] Instance set_static_membership : Setter static_membership := fun v (r : NodeConfig) =>
  {| nc_id := nc_id r; nc_peers := nc_peers r; static_voters := static_voters r;
     static_membership := v; election_timeout_ticks := election_timeout_ticks r;
     election_jitter_ticks := election_jitter_ticks r;
     requested_heartbeat_interval_ticks := requested_heartbeat_interval_ticks r;
     max_append_entries_bytes := max_append_entries_bytes r;
     max_inflight_appends := max_inflight_appends r;
     max_inflight_bytes := max_inflight_bytes r; requested_features := requested_features r |}.
#[export] Instance set_election_timeout_ticks : Setter election_timeout_ticks := fun v (r : NodeConfig) =>
  {| nc_id := nc_id r; nc_peers := nc_peers r; static_voters := static_voters r;
     static_membership := static_membership r; election_timeout_ticks := v;
     election_jitter_ticks := election_jitter_ticks r;
     requested_heartbeat_interval_ticks := requested_heartbeat_interval_ticks r;
     max_append_entries_bytes := max_append_entries_bytes r;
     max_inflight_appends := max_inflight_appends r;
     max_inflight_bytes := max_inflight_bytes r; requested_features := requested_features r |}.
#[export] Instance set_election_jitter_ticks : Setter election_jitter_ticks := fun v (r : NodeConfig) =>
  {| nc_id := nc_id r; nc_peers := nc_peers r; static_voters := static_voters r;
     static_membership := static_membership r;
     election_timeout_ticks := election_timeout_ticks r; election_jitter_ticks := v;
     requested_heartbeat_interval_ticks := requested_heartbeat_interval_ticks r;
     max_append_entries_bytes := max_append_entries_bytes r;
     max_inflight_appends := max_inflight_appends r;
     max_inflight_bytes := max_inflight_bytes r; requested_features := requested_features r |}.
#[export] Instance set_requested_heartbeat_interval_ticks : Setter requested_heartbeat_interval_ticks := fun v (r : NodeConfig) =>
  {| nc_id := nc_id r; nc_peers := nc_peers r; static_voters := static_voters r;
     static_membership := static_membership r;
     election_timeout_ticks := election_timeout_ticks r;
     election_jitter_ticks := election_jitter_ticks r; requested_heartbeat_interval_ticks := v;
     max_append_entries_bytes := max_append_entries_bytes r;
     max_inflight_appends := max_inflight_appends r;
     max_inflight_bytes := max_inflight_bytes r; requested_features := requested_features r |}.
#[export] Instance set_max_append_entries_bytes : Setter max_append_entries_bytes := fun v (r : NodeConfig) =>
  {| nc_id := nc_id r; nc_peers := nc_peers r; static_voters := static_voters r;
     static_membership := static_membership r;
     election_timeout_ticks := election_timeout_ticks r;
     election_jitter_ticks := election_jitter_ticks r;
     requested_heartbeat_interval_ticks := requested_heartbeat_interval_ticks r;
     max_append_entries_bytes := v; max_inflight_appends := max_inflight_appends r;
     max_inflight_bytes := max_inflight_bytes r; requested_features := requested_features r |}.
#[export] Instance set_max_inflight_appends : Setter max_inflight_appends := fun v (r : NodeConfig) =>
  {| nc_id := nc_id r; nc_peers := nc_peers r; static_voters := static_voters r;
     static_membership := static_membership r;
     election_timeout_ticks := election_timeout_ticks r;
     election_jitter_ticks := election_jitter_ticks r;
     requested_heartbeat_interval_ticks := requested_heartbeat_interval_ticks r;
     max_append_entries_bytes := max_append_entries_bytes r; max_inflight_appends := v;
     max_inflight_bytes := max_inflight_bytes r; requested_features := requested_features r |}.
#[export] Instance set_max_inflight_bytes : Setter max_inflight_bytes := fun v (r : NodeConfig) =>
  {| nc_id := nc_id r; nc_peers := nc_peers r; static_voters := static_voters r;
     static_membership := static_membership r;
     election_timeout_ticks := election_timeout_ticks r;
     election_jitter_ticks := election_jitter_ticks r;
     requested_heartbeat_interval_ticks := requested_heartbeat_interval_ticks r;
     max_append_entries_bytes := max_append_entries_bytes r;
     max_inflight_appends := max_inflight_appends r; max_inflight_bytes := v;
     requested_features := requested_features r |}.
#[export] Instance set_requested_features : Setter requested_features := fun v (r : NodeConfig) =>
  {| nc_id := nc_id r; nc_peers := nc_peers r; static_voters := static_voters r;
     static_membership := static_membership r;
     election_timeout_ticks := election_timeout_ticks r;
     election_jitter_ticks := election_jitter_ticks r;
     requested_heartbeat_interval_ticks := requested_heartbeat_interval_ticks r;
     max_append_entries_bytes := max_append_entries_bytes r;
     max_inflight_appends := max_inflight_appends r;
     max_inflight_bytes := max_inflight_bytes r; requested_features := v |}.

#[export] Instance RequestedFeatures_eq_dec : EqDecision RequestedFeatures.
Proof. solve_decision. Defined.
#[export] Instance NodeConfig_eq_dec : EqDecision NodeConfig.
Proof. solve_decision. Defined.

(** ** Construction *)

Definition validate_election_timeout (ticks : u64) : result unit NodeConfigError :=
  if ticks =? 0 then Err ZeroElectionTimeout else Ok tt.

(** The loop of [validate_peers] with the set of peers [seen] so far. *)
Fixpoint validate_peers_from (id : NodeId) (seen peers : list NodeId)
  : result unit NodeConfigError :=
  match peers with
  | [] => Ok tt
  | peer :: rest =>
      if peer =? id then Err (SelfPeer id)
      else if elem peer seen then Err (DuplicatePeer peer)
      else validate_peers_from id (btree_insert peer seen) rest
  end.

Definition validate_peers (id : NodeId) (peers : list NodeId) : result unit NodeConfigError :=
  validate_peers_from id [] peers.

Definition static_membership_of (voters : list NodeId) : result MembershipConfig NodeConfigError :=
  match MembershipSet_new voters [] with
  | Ok membership => Ok (Stable membership)
  | Err _ => Err ConfigEmptyVoters
  end.

Definition from_validated_membership (id : NodeId) (peers voters : list NodeId)
    (membership : MembershipConfig) (timeout : u64) : NodeConfig := {|
  nc_id := id;
  nc_peers := peers;
  static_voters := voters;
  static_membership := membership;
  election_timeout_ticks := timeout;
  election_jitter_ticks := 0;
  requested_heartbeat_interval_ticks := DEFAULT_HEARTBEAT_INTERVAL_TICKS;
  max_append_entries_bytes := DEFAULT_MAX_APPEND_ENTRIES_BYTES;
  max_inflight_appends := DEFAULT_MAX_INFLIGHT_APPENDS;
  max_inflight_bytes := DEFAULT_MAX_INFLIGHT_BYTES;
  requested_features := RequestedFeatures_default;
|}.

Definition NodeConfig_new (id : NodeId) (peers : list NodeId) (timeout : u64)
  : result NodeConfig NodeConfigError :=
  let? _ := validate_election_timeout timeout in
  let? _ := validate_peers id peers in
  let voters := id :: peers in
  let? membership := static_membership_of voters in
  Ok (from_validated_membership id peers voters membership timeout).

Definition NodeConfig_new_non_voter (id : NodeId) (voters : list NodeId) (timeout : u64)
  : result NodeConfig NodeConfigError :=
  match voters with
  | [] => Err ConfigEmptyVoters
  | _ :: _ =>
      let? _ := validate_election_timeout timeout in
      let? _ := validate_peers id voters in
      let? membership := static_membership_of voters in
      Ok (from_validated_membership id voters voters membership timeout)
  end.

(** ** Options *)

Definition with_max_append_entries_bytes (c : NodeConfig) (v : usize) : NodeConfig :=
  c <| max_append_entries_bytes := v |>.
Definition with_max_inflight_appends (c : NodeConfig) (v : usize) : NodeConfig :=
  c <| max_inflight_appends := v |>.
Definition with_max_inflight_bytes (c : NodeConfig) (v : usize) : NodeConfig :=
  c <| max_inflight_bytes := v |>.
Definition with_heartbeat_interval_ticks (c : NodeConfig) (v : u64) : NodeConfig :=
  c <| requested_heartbeat_interval_ticks := v |>.
Definition with_pre_vote (c : NodeConfig) (v : bool) : NodeConfig :=
  c <| requested_features ; req_pre_vote := v |>.
Definition with_check_quorum (c : NodeConfig) (v : bool) : NodeConfig :=
  c <| requested_features ; req_check_quorum := v |>.
Definition with_lease_reads (c : NodeConfig) (v : bool) : NodeConfig :=
  c <| requested_features ; req_lease_reads := v |>.
Definition with_election_jitter_ticks (c : NodeConfig) (v : u64) : NodeConfig :=
  c <| election_jitter_ticks := v |>.

Definition effective_features (c : NodeConfig) : EffectiveFeatures :=
  effective (requested_features c) (election_timeout_ticks c).

Definition pre_vote (c : NodeConfig) : bool := eff_pre_vote (effective_features c).
Definition check_quorum (c : NodeConfig) : bool := eff_check_quorum (effective_features c).
Definition lease_reads (c : NodeConfig) : bool := eff_lease_reads (effective_features c).

Definition heartbeat_interval_ticks (c : NodeConfig) : u64 :=
  let requested := N.max (requested_heartbeat_interval_ticks c) 1 in
  if check_quorum c
  then N.min requested (N.max (u64_saturating_sub (election_timeout_ticks c) 1) 1)
  else requested.

Definition read_lease_ticks (c : NodeConfig) : u64 := election_timeout_ticks c / 2.

Definition NodeConfig_quorum_size (c : NodeConfig) : nat :=
  (length (static_voters c) / 2 + 1)%nat.

(** ** Properties *)

(** A configuration a constructor and the options can build. *)
Record NodeConfig_wf (c : NodeConfig) : Prop := {
  config_membership_wf : MembershipConfig_wf (static_membership c);
  config_voters : forall x, contains_voter (static_membership c) x = true <-> x ∈ static_voters c;
  config_timeout : 0 < election_timeout_ticks c;
}.

Lemma static_membership_of_Ok vs m :
  static_membership_of vs = Ok m ->
  MembershipConfig_wf m /\ forall x, contains_voter m x = true <-> x ∈ vs.
Proof.
  unfold static_membership_of. pose proof (MembershipSet_new_sound vs []) as H.
  destruct (MembershipSet_new vs []) as [s|]; [|done]. intros [= <-].
  destruct H as (Hwf & Hv & _). split; [done|]. intros x. simpl.
  by rewrite elem_spec, Hv.
Qed.

Lemma validate_peers_from_Ok id seen peers :
  validate_peers_from id seen peers = Ok tt <->
  id ∉ peers /\ NoDup peers /\ (forall x, x ∈ peers -> x ∉ seen).
Proof.
  revert seen. induction peers as [|p peers IH]; intros seen; simpl.
  { split; [|done]. intros _. split_and!; [set_solver|constructor|set_solver]. }
  destruct (N.eqb_spec p id) as [->|Hne]; [split; [done|set_solver]|].
  destruct (elem p seen) eqn:E; [split; [done|]; apply elem_spec in E; set_solver|].
  apply elem_false in E. rewrite IH, NoDup_cons. setoid_rewrite elem_of_btree_insert.
  setoid_rewrite elem_of_cons. split.
  - intros (Hi & Hn & Hs). split_and!; [naive_solver|naive_solver|done|naive_solver].
  - intros (Hi & (Hp & Hn) & Hs). split_and!; [naive_solver|done|].
    intros x Hx [->|?]; [done|]. naive_solver.
Qed.

Lemma validate_peers_Ok id peers :
  validate_peers id peers = Ok tt <-> id ∉ peers /\ NoDup peers.
Proof. unfold validate_peers. rewrite validate_peers_from_Ok. set_solver. Qed.

Lemma static_membership_of_accepts vs :
  vs <> [] -> NoDup vs -> exists m, static_membership_of vs = Ok m.
Proof.
  intros Hne Hn. unfold static_membership_of.
  destruct (proj2 (MembershipSet_new_accepts vs [])) as [m ->]; [|eauto].
  split_and!; [done|done|constructor|set_solver].
Qed.

Lemma from_validated_membership_wf id peers vs m timeout :
  static_membership_of vs = Ok m -> 0 < timeout ->
  NodeConfig_wf (from_validated_membership id peers vs m timeout).
Proof. intros [??]%static_membership_of_Ok ?. by split. Qed.

(** [NodeConfig::new] and [NodeConfig::new_non_voter] accept exactly a
    positive election timeout and duplicate-free peers other than the node
    itself (and, for a non-voter, a nonempty voter list); what they build is
    well formed, with the local node a voter exactly in the first case. *)
Theorem NodeConfig_constructors_correct (id : NodeId) (peers : list NodeId) (timeout : u64) :
  match NodeConfig_new id peers timeout with
  | Ok c => NodeConfig_wf c /\ nc_id c = id /\ contains_voter (static_membership c) id = true /\
            0 < timeout /\ id ∉ peers /\ NoDup peers
  | Err _ => ~ (0 < timeout /\ id ∉ peers /\ NoDup peers)
  end /\
  match NodeConfig_new_non_voter id peers timeout with
  | Ok c => NodeConfig_wf c /\ nc_id c = id /\ contains_voter (static_membership c) id = false /\
            peers <> [] /\ 0 < timeout /\ id ∉ peers /\ NoDup peers
  | Err _ => ~ (peers <> [] /\ 0 < timeout /\ id ∉ peers /\ NoDup peers)
  end.
Proof.
  unfold NodeConfig_new, NodeConfig_new_non_voter, validate_election_timeout.
  pose proof (validate_peers_Ok id peers) as Hp. destruct (N.eqb_spec timeout 0) as [->|Ht].
  { split; [|destruct peers]; intros Hx; naive_solver lia. }
  destruct (validate_peers id peers) as [[]|e]; cycle 1.
  { split; [|destruct peers]; intros Hx; naive_solver. }
  destruct (proj1 Hp eq_refl) as [Hi Hn]. split.
  - destruct (static_membership_of_accepts (id :: peers)) as [m Hm]; [done|by constructor|].
    rewrite Hm. split_and!; [by apply from_validated_membership_wf; [|lia]|done| |lia|done|done].
    apply static_membership_of_Ok in Hm as [_ Hm]. apply Hm. set_solver.
  - destruct peers as [|p peers]; [naive_solver|].
    destruct (static_membership_of_accepts (p :: peers)) as [m Hm]; [done|done|].
    rewrite Hm. split_and!; [by apply from_validated_membership_wf; [|lia]|done| |done|lia|done|done].
    apply static_membership_of_Ok in Hm as [_ Hm]. apply not_true_iff_false.
    intros Hc. by apply Hm in Hc.
Qed.

(** Effective features.  Check-quorum needs an election timeout of two
    ticks, lease reads need pre-vote and check-quorum, the heartbeat interval
    is positive and, under check-quorum, shorter than the election timeout, and
    under lease reads the lease is positive and shorter than the election
    timeout. *)
Theorem effective_feature_clamps (c : NodeConfig) :
  (check_quorum c = true -> 2 <= election_timeout_ticks c) /\
  (lease_reads c = true -> pre_vote c = true /\ check_quorum c = true) /\
  1 <= heartbeat_interval_ticks c /\
  (check_quorum c = true -> heartbeat_interval_ticks c < election_timeout_ticks c) /\
  (lease_reads c = true ->
   0 < read_lease_ticks c /\ read_lease_ticks c < election_timeout_ticks c).
Proof.
  assert (check_quorum c = true -> 2 <= election_timeout_ticks c) as Hq.
  { unfold check_quorum, effective_features, effective. simpl.
    rewrite andb_true_iff, N.leb_le. by intros [_ ?]. }
  assert (lease_reads c = true -> pre_vote c = true /\ check_quorum c = true) as Hl.
  { unfold lease_reads, pre_vote, check_quorum, effective_features, effective. simpl.
    rewrite !andb_true_iff. naive_solver. }
  split_and!; [done|done| | |].
  - unfold heartbeat_interval_ticks. destruct (check_quorum c); lia.
  - intros H. specialize (Hq H). unfold heartbeat_interval_ticks, u64_saturating_sub.
    rewrite H. lia.
  - intros [_ H]%Hl. specialize (Hq H). unfold read_lease_ticks.
    pose proof (N.div_le_lower_bound (election_timeout_ticks c) 2 1).
    pose proof (N.div_lt (election_timeout_ticks c) 2). lia.
Qed.
