(* ===== verification/NodeState.v ===== *)
(** * The state of a node

    Models [crates/rafter/src/node/state/] ([core.rs], [election.rs],
    [leader.rs], [snapshot.rs]) and the [Node] record of [node/mod.rs], with
    the small operations those files define. *)

From stdpp Require Import base list sorting numbers option sets.
From S2P Require Import Prelude.
From S2P Require Import Types.
From S2P Require Import Snapshot.
From S2P Require Import Message.
From S2P Require Import Membership.
From S2P Require Import MembershipIndex.
From S2P Require Import Progress.
From S2P Require Import Config.

(** ** Election state *)

Record ElectionState := {
  elapsed : u64;
  votes : list NodeId;
  pre_votes : list NodeId;
}.

#[export] Instance set_elapsed : Setter elapsed := fun v (r : ElectionState) =>
  {| elapsed := v; votes := votes r; pre_votes := pre_votes r |}.
#[export] Instance set_votes : Setter votes := fun v (r : ElectionState) =>
  {| elapsed := elapsed r; votes := v; pre_votes := pre_votes r |}.
#[export] Instance set_pre_votes : Setter pre_votes := fun v (r : ElectionState) =>
  {| elapsed := elapsed r; votes := votes r; pre_votes := v |}.

Definition ElectionState_default : ElectionState :=
  {| elapsed := 0; votes := []; pre_votes := [] |}.

Definition advance_timeout (e : ElectionState) : ElectionState * u64 :=
  let e := e <| elapsed := u64_saturating_add (elapsed e) 1 |> in (e, elapsed e).

Definition reset_timeout (e : ElectionState) : ElectionState := e <| elapsed := 0 |>.

Definition begin_pre_vote (e : ElectionState) (self_id : NodeId) : ElectionState :=
  (reset_timeout e) <| pre_votes := btree_insert self_id [] |>.

Definition begin_election (e : ElectionState) (self_id : NodeId) : ElectionState :=
  (reset_timeout e) <| votes := btree_insert self_id [] |> <| pre_votes := [] |>.

Definition record_vote (e : ElectionState) (voter_id : NodeId) : ElectionState :=
  e <| votes := btree_insert voter_id (votes e) |>.

Definition record_pre_vote (e : ElectionState) (voter_id : NodeId) : ElectionState :=
  e <| pre_votes := btree_insert voter_id (pre_votes e) |>.

Definition reset_for_follower (e : ElectionState) : ElectionState :=
  (reset_timeout e) <| votes := [] |> <| pre_votes := [] |>.

Definition enter_leadership (e : ElectionState) : ElectionState :=
  (reset_timeout e) <| pre_votes := [] |>.

(** ** Leader state *)

Record LeaderLease := {
  pending_basis_tick : u64;
  pending_sequence : u64;
  lease_acks : AcknowledgementSet;
  confirmed_basis_tick : option u64;
}.

#[export] Instance set_pending_basis_tick : Setter pending_basis_tick := fun v (r : LeaderLease) =>
  {| pending_basis_tick := v; pending_sequence := pending_sequence r;
     lease_acks := lease_acks r; confirmed_basis_tick := confirmed_basis_tick r |}.
#[export] Instance set_pending_sequence : Setter pending_sequence := fun v (r : LeaderLease) =>
  {| pending_basis_tick := pending_basis_tick r; pending_sequence := v;
     lease_acks := lease_acks r; confirmed_basis_tick := confirmed_basis_tick r |}.
#[export] Instance set_lease_acks : Setter lease_acks := fun v (r : LeaderLease) =>
  {| pending_basis_tick := pending_basis_tick r; pending_sequence := pending_sequence r;
     lease_acks := v; confirmed_basis_tick := confirmed_basis_tick r |}.
#[export] Instance set_confirmed_basis_tick : Setter confirmed_basis_tick := fun v (r : LeaderLease) =>
  {| pending_basis_tick := pending_basis_tick r; pending_sequence := pending_sequence r;
     lease_acks := lease_acks r; confirmed_basis_tick := v |}.

Definition LeaderLease_default : LeaderLease := {|
  pending_basis_tick := 0;
  pending_sequence := 0;
  lease_acks := AcknowledgementSet_default;
  confirmed_basis_tick := None;
|}.

Definition record_ack (l : LeaderLease) (follower : NodeId) (sequence : u64)
    (membership : MembershipConfig) (self_id : NodeId) : LeaderLease * bool :=
  if sequence <? pending_sequence l then (l, false)
  else (l <| lease_acks := AcknowledgementSet_insert (lease_acks l) follower membership self_id |>,
        true).

Definition rearm (l : LeaderLease) (now_tick next_sequence : u64) : LeaderLease :=
  l <| pending_basis_tick := now_tick |>
    <| pending_sequence := next_sequence |>
    <| lease_acks := AcknowledgementSet_clear (lease_acks l) |>.

Definition confirm_and_rearm (l : LeaderLease) (now_tick next_sequence : u64) : LeaderLease :=
  rearm (l <| confirmed_basis_tick := Some (pending_basis_tick l) |>) now_tick next_sequence.

Definition holds (l : LeaderLease) (now_tick window_ticks : u64) : bool :=
  is_some_and (fun basis => u64_saturating_sub now_tick basis <? window_ticks)
    (confirmed_basis_tick l).

Record PendingReadRound := {
  read_ids : list ReadId;
  read_index : LogIndex;
  registered_sequence : u64;
  round_acks : AcknowledgementSet;
}.

#[export] Instance set_read_ids : Setter read_ids := fun v (r : PendingReadRound) =>
  {| read_ids := v; read_index := read_index r; registered_sequence := registered_sequence r;
     round_acks := round_acks r |}.
#[export] Instance set_read_index : Setter read_index := fun v (r : PendingReadRound) =>
  {| read_ids := read_ids r; read_index := v; registered_sequence := registered_sequence r;
     round_acks := round_acks r |}.
#[export] Instance set_registered_sequence : Setter registered_sequence := fun v (r : PendingReadRound) =>
  {| read_ids := read_ids r; read_index := read_index r; registered_sequence := v;
     round_acks := round_acks r |}.
#[export] Instance set_round_acks : Setter round_acks := fun v (r : PendingReadRound) =>
  {| read_ids := read_ids r; read_index := read_index r;
     registered_sequence := registered_sequence r; round_acks := v |}.

Record PendingLeadershipTransfer := {
  target : NodeId;
  ticks_remaining : u64;
  timeout_now_sent : bool;
}.

#[export] Instance set_target : Setter target := fun v (r : PendingLeadershipTransfer) =>
  {| target := v; ticks_remaining := ticks_remaining r; timeout_now_sent := timeout_now_sent r |}.
#[export] Instance set_ticks_remaining : Setter ticks_remaining := fun v (r : PendingLeadershipTransfer) =>
  {| target := target r; ticks_remaining := v; timeout_now_sent := timeout_now_sent r |}.
#[export] Instance set_timeout_now_sent : Setter timeout_now_sent := fun v (r : PendingLeadershipTransfer) =>
  {| target := target r; ticks_remaining := ticks_remaining r; timeout_now_sent := v |}.

Record LeaderState := {
  progress : ProgressSet;
  ticks : u64;
  lease : LeaderLease;
  pending_transfer : option PendingLeadershipTransfer;
  deposition_authorized : bool;
  heartbeat_sequence : u64;
  heartbeat_elapsed : u64;
  quorum_acks : AcknowledgementSet;
  quorum_check_elapsed : u64;
  pending_reads : list PendingReadRound;
}.

#[export] Instance set_progress : Setter progress := fun v (r : LeaderState) =>
  {| progress := v; ticks := ticks r; lease := lease r; pending_transfer := pending_transfer r;
     deposition_authorized := deposition_authorized r;
     heartbeat_sequence := heartbeat_sequence r; heartbeat_elapsed := heartbeat_elapsed r;
     quorum_acks := quorum_acks r; quorum_check_elapsed := quorum_check_elapsed r;
     pending_reads := pending_reads r |}.
#[export] Instance set_ticks : Setter ticks := fun v (r : LeaderState) =>
  {| progress := progress r; ticks := v; lease := lease r;
     pending_transfer := pending_transfer r; deposition_authorized := deposition_authorized r;
     heartbeat_sequence := heartbeat_sequence r; heartbeat_elapsed := heartbeat_elapsed r;
     quorum_acks := quorum_acks r; quorum_check_elapsed := quorum_check_elapsed r;
     pending_reads := pending_reads r |}.
#[export] Instance set_lease : Setter lease := fun v (r : LeaderState) =>
  {| progress := progress r; ticks := ticks r; lease := v;
     pending_transfer := pending_transfer r; deposition_authorized := deposition_authorized r;
     heartbeat_sequence := heartbeat_sequence r; heartbeat_elapsed := heartbeat_elapsed r;
     quorum_acks := quorum_acks r; quorum_check_elapsed := quorum_check_elapsed r;
     pending_reads := pending_reads r |}.
#[export] Instance set_pending_transfer : Setter pending_transfer := fun v (r : LeaderState) =>
  {| progress := progress r; ticks := ticks r; lease := lease r; pending_transfer := v;
     deposition_authorized := deposition_authorized r;
     heartbeat_sequence := heartbeat_sequence r; heartbeat_elapsed := heartbeat_elapsed r;
     quorum_acks := quorum_acks r; quorum_check_elapsed := quorum_check_elapsed r;
     pending_reads := pending_reads r |}.
#[export] Instance set_deposition_authorized : Setter deposition_authorized := fun v (r : LeaderState) =>
  {| progress := progress r; ticks := ticks r; lease := lease r;
     pending_transfer := pending_transfer r; deposition_authorized := v;
     heartbeat_sequence := heartbeat_sequence r; heartbeat_elapsed := heartbeat_elapsed r;
     quorum_acks := quorum_acks r; quorum_check_elapsed := quorum_check_elapsed r;
     pending_reads := pending_reads r |}.
#[export] Instance set_heartbeat_sequence : Setter heartbeat_sequence := fun v (r : LeaderState) =>
  {| progress := progress r; ticks := ticks r; lease := lease r;
     pending_transfer := pending_transfer r; deposition_authorized := deposition_authorized r;
     heartbeat_sequence := v; heartbeat_elapsed := heartbeat_elapsed r;
     quorum_acks := quorum_acks r; quorum_check_elapsed := quorum_check_elapsed r;
     pending_reads := pending_reads r |}.
#[export] Instance set_heartbeat_elapsed : Setter heartbeat_elapsed := fun v (r : LeaderState) =>
  {| progress := progress r; ticks := ticks r; lease := lease r;
     pending_transfer := pending_transfer r; deposition_authorized := deposition_authorized r;
     heartbeat_sequence := heartbeat_sequence r; heartbeat_elapsed := v;
     quorum_acks := quorum_acks r; quorum_check_elapsed := quorum_check_elapsed r;
     pending_reads := pending_reads r |}.
#[export] Instance set_quorum_acks : Setter quorum_acks := fun v (r : LeaderState) =>
  {| progress := progress r; ticks := ticks r; lease := lease r;
     pending_transfer := pending_transfer r; deposition_authorized := deposition_authorized r;
     heartbeat_sequence := heartbeat_sequence r; heartbeat_elapsed := heartbeat_elapsed r;
     quorum_acks := v; quorum_check_elapsed := quorum_check_elapsed r;
     pending_reads := pending_reads r |}.
#[export] Instance set_quorum_check_elapsed : Setter quorum_check_elapsed := fun v (r : LeaderState) =>
  {| progress := progress r; ticks := ticks r; lease := lease r;
     pending_transfer := pending_transfer r; deposition_authorized := deposition_authorized r;
     heartbeat_sequence := heartbeat_sequence r; heartbeat_elapsed := heartbeat_elapsed r;
     quorum_acks := quorum_acks r; quorum_check_elapsed := v;
     pending_reads := pending_reads r |}.
#[export] Instance set_pending_reads : Setter pending_reads := fun v (r : LeaderState) =>
  {| progress := progress r; ticks := ticks r; lease := lease r;
     pending_transfer := pending_transfer r; deposition_authorized := deposition_authorized r;
     heartbeat_sequence := heartbeat_sequence r; heartbeat_elapsed := heartbeat_elapsed r;
     quorum_acks := quorum_acks r; quorum_check_elapsed := quorum_check_elapsed r;
     pending_reads := v |}.

Definition LeaderState_default : LeaderState := {|
  progress := ProgressSet_default;
  ticks := 0;
  lease := LeaderLease_default;
  pending_transfer := None;
  deposition_authorized := false;
  heartbeat_sequence := 0;
  heartbeat_elapsed := 0;
  quorum_acks := AcknowledgementSet_default;
  quorum_check_elapsed := 0;
  pending_reads := [];
|}.

(** ** Incoming snapshot transfers *)

Record IncomingSnapshotTransfer := {
  inc_leader_id : NodeId;
  inc_transfer_id : SnapshotTransferId;
  inc_metadata : RaftSnapshotMetadata;
  inc_total_payload_len : u64;
  inc_application_payload_crc32 : u32;
  inc_received_len : u64;
}.

#[export] Instance set_inc_leader_id : Setter inc_leader_id := fun v (r : IncomingSnapshotTransfer) =>
  {| inc_leader_id := v; inc_transfer_id := inc_transfer_id r; inc_metadata := inc_metadata r;
     inc_total_payload_len := inc_total_payload_len r;
     inc_application_payload_crc32 := inc_application_payload_crc32 r;
     inc_received_len := inc_received_len r |}.
#[export] Instance set_inc_transfer_id : Setter inc_transfer_id := fun v (r : IncomingSnapshotTransfer) =>
  {| inc_leader_id := inc_leader_id r; inc_transfer_id := v; inc_metadata := inc_metadata r;
     inc_total_payload_len := inc_total_payload_len r;
     inc_application_payload_crc32 := inc_application_payload_crc32 r;
     inc_received_len := inc_received_len r |}.
#[export] Instance set_inc_metadata : Setter inc_metadata := fun v (r : IncomingSnapshotTransfer) =>
  {| inc_leader_id := inc_leader_id r; inc_transfer_id := inc_transfer_id r; inc_metadata := v;
     inc_total_payload_len := inc_total_payload_len r;
     inc_application_payload_crc32 := inc_application_payload_crc32 r;
     inc_received_len := inc_received_len r |}.
#[export] Instance set_inc_total_payload_len : Setter inc_total_payload_len := fun v (r : IncomingSnapshotTransfer) =>
  {| inc_leader_id := inc_leader_id r; inc_transfer_id := inc_transfer_id r;
     inc_metadata := inc_metadata r; inc_total_payload_len := v;
     inc_application_payload_crc32 := inc_application_payload_crc32 r;
     inc_received_len := inc_received_len r |}.
#[export] Instance set_inc_application_payload_crc32 : Setter inc_application_payload_crc32 := fun v (r : IncomingSnapshotTransfer) =>
  {| inc_leader_id := inc_leader_id r; inc_transfer_id := inc_transfer_id r;
     inc_metadata := inc_metadata r; inc_total_payload_len := inc_total_payload_len r;
     inc_application_payload_crc32 := v; inc_received_len := inc_received_len r |}.
#[export] Instance set_inc_received_len : Setter inc_received_len := fun v (r : IncomingSnapshotTransfer) =>
  {| inc_leader_id := inc_leader_id r; inc_transfer_id := inc_transfer_id r;
     inc_metadata := inc_metadata r; inc_total_payload_len := inc_total_payload_len r;
     inc_application_payload_crc32 := inc_application_payload_crc32 r; inc_received_len := v |}.

Definition IncomingSnapshotTransfer_new (leader_id : NodeId) (transfer_id : SnapshotTransferId)
    (metadata : RaftSnapshotMetadata) (total_payload_len : u64) (crc : u32)
  : IncomingSnapshotTransfer := {|
  inc_leader_id := leader_id;
  inc_transfer_id := transfer_id;
  inc_metadata := metadata;
  inc_total_payload_len := total_payload_len;
  inc_application_payload_crc32 := crc;
  inc_received_len := 0;
|}.

Definition from_pending (p : PendingSnapshotTransfer) : IncomingSnapshotTransfer := {|
  inc_leader_id := pst_leader_id p;
  inc_transfer_id := pst_transfer_id p;
  inc_metadata := pst_metadata p;
  inc_total_payload_len := pst_total_payload_len p;
  inc_application_payload_crc32 := pst_application_payload_crc32 p;
  inc_received_len := pst_received_len p;
|}.

Definition to_pending (t : IncomingSnapshotTransfer) : PendingSnapshotTransfer := {|
  pst_leader_id := inc_leader_id t;
  pst_transfer_id := inc_transfer_id t;
  pst_metadata := inc_metadata t;
  pst_total_payload_len := inc_total_payload_len t;
  pst_application_payload_crc32 := inc_application_payload_crc32 t;
  pst_received_len := inc_received_len t;
|}.

Definition incoming_next_offset (t : IncomingSnapshotTransfer) : u64 := inc_received_len t.

(** ** Persistent, volatile and derived state *)

Record PersistentState := {
  current_term : Term;
  voted_for : option NodeId;
  committed_configuration : option CommittedConfiguration;
  snapshot : option RaftSnapshot;
  log : list LogEntry;
}.

#[export] Instance set_current_term : Setter current_term := fun v (r : PersistentState) =>
  {| current_term := v; voted_for := voted_for r;
     committed_configuration := committed_configuration r; snapshot := snapshot r;
     log := log r |}.
#[export] Instance set_voted_for : Setter voted_for := fun v (r : PersistentState) =>
  {| current_term := current_term r; voted_for := v;
     committed_configuration := committed_configuration r; snapshot := snapshot r;
     log := log r |}.
#[export] Instance set_committed_configuration : Setter committed_configuration := fun v (r : PersistentState) =>
  {| current_term := current_term r; voted_for := voted_for r; committed_configuration := v;
     snapshot := snapshot r; log := log r |}.
#[export] Instance set_snapshot : Setter snapshot := fun v (r : PersistentState) =>
  {| current_term := current_term r; voted_for := voted_for r;
     committed_configuration := committed_configuration r; snapshot := v; log := log r |}.
#[export] Instance set_log : Setter log := fun v (r : PersistentState) =>
  {| current_term := current_term r; voted_for := voted_for r;
     committed_configuration := committed_configuration r; snapshot := snapshot r; log := v |}.

Definition PersistentState_default : PersistentState := {|
  current_term := 0;
  voted_for := None;
  committed_configuration := None;
  snapshot := None;
  log := [];
|}.

Record VolatileState := {
  role : Role;
  commit_index : LogIndex;
  dispatched_index : LogIndex;
  local_proposals : LocalProposalTracker;
  incoming_snapshot : option IncomingSnapshotTransfer;
  leader_hint : option NodeId;
  snapshot_chunk_rejections : SnapshotChunkRejectionCounters;
}.

#[export] Instance set_role : Setter role := fun v (r : VolatileState) =>
  {| role := v; commit_index := commit_index r; dispatched_index := dispatched_index r;
     local_proposals := local_proposals r; incoming_snapshot := incoming_snapshot r;
     leader_hint := leader_hint r; snapshot_chunk_rejections := snapshot_chunk_rejections r |}.
#[export] Instance set_commit_index : Setter commit_index := fun v (r : VolatileState) =>
  {| role := role r; commit_index := v; dispatched_index := dispatched_index r;
     local_proposals := local_proposals r; incoming_snapshot := incoming_snapshot r;
     leader_hint := leader_hint r; snapshot_chunk_rejections := snapshot_chunk_rejections r |}.
#[export] Instance set_dispatched_index : Setter dispatched_index := fun v (r : VolatileState) =>
  {| role := role r; commit_index := commit_index r; dispatched_index := v;
     local_proposals := local_proposals r; incoming_snapshot := incoming_snapshot r;
     leader_hint := leader_hint r; snapshot_chunk_rejections := snapshot_chunk_rejections r |}.
#[export] Instance set_local_proposals : Setter local_proposals := fun v (r : VolatileState) =>
  {| role := role r; commit_index := commit_index r; dispatched_index := dispatched_index r;
     local_proposals := v; incoming_snapshot := incoming_snapshot r;
     leader_hint := leader_hint r; snapshot_chunk_rejections := snapshot_chunk_rejections r |}.
#[export] Instance set_incoming_snapshot : Setter incoming_snapshot := fun v (r : VolatileState) =>
  {| role := role r; commit_index := commit_index r; dispatched_index := dispatched_index r;
     local_proposals := local_proposals r; incoming_snapshot := v;
     leader_hint := leader_hint r; snapshot_chunk_rejections := snapshot_chunk_rejections r |}.
#[export] Instance set_leader_hint : Setter leader_hint := fun v (r : VolatileState) =>
  {| role := role r; commit_index := commit_index r; dispatched_index := dispatched_index r;
     local_proposals := local_proposals r; incoming_snapshot := incoming_snapshot r;
     leader_hint := v; snapshot_chunk_rejections := snapshot_chunk_rejections r |}.
#[export] Instance set_snapshot_chunk_rejections : Setter snapshot_chunk_rejections := fun v (r : VolatileState) =>
  {| role := role r; commit_index := commit_index r; dispatched_index := dispatched_index r;
     local_proposals := local_proposals r; incoming_snapshot := incoming_snapshot r;
     leader_hint := leader_hint r; snapshot_chunk_rejections := v |}.

Definition at_dispatched_index (index : LogIndex) : VolatileState := {|
  role := Follower;
  commit_index := index;
  dispatched_index := index;
  local_proposals := [];
  incoming_snapshot := None;
  leader_hint := None;
  snapshot_chunk_rejections := SnapshotChunkRejectionCounters_default;
|}.

Definition VolatileState_default : VolatileState := {|
  role := Follower;
  commit_index := 0;
  dispatched_index := 0;
  local_proposals := [];
  incoming_snapshot := None;
  leader_hint := None;
  snapshot_chunk_rejections := SnapshotChunkRejectionCounters_default;
|}.

(** [ConfigurationIndex]: offsets of the configuration entries of the log. *)
Record DerivedState := {
  configuration : list nat;
}.

#[export] Instance set_configuration : Setter configuration := fun v (r : DerivedState) =>
  {| configuration := v |}.

Record Node := {
  config : NodeConfig;
  persistent : PersistentState;
  volatile : VolatileState;
  election : ElectionState;
  leader : LeaderState;
  derived : DerivedState;
}.

#[export] Instance set_config : Setter config := fun v (r : Node) =>
  {| config := v; persistent := persistent r; volatile := volatile r; election := election r;
     leader := leader r; derived := derived r |}.
#[export] Instance set_persistent : Setter persistent := fun v (r : Node) =>
  {| config := config r; persistent := v; volatile := volatile r; election := election r;
     leader := leader r; derived := derived r |}.
#[export] Instance set_volatile : Setter volatile := fun v (r : Node) =>
  {| config := config r; persistent := persistent r; volatile := v; election := election r;
     leader := leader r; derived := derived r |}.
#[export] Instance set_election : Setter election := fun v (r : Node) =>
  {| config := config r; persistent := persistent r; volatile := volatile r; election := v;
     leader := leader r; derived := derived r |}.
#[export] Instance set_leader : Setter leader := fun v (r : Node) =>
  {| config := config r; persistent := persistent r; volatile := volatile r;
     election := election r; leader := v; derived := derived r |}.
#[export] Instance set_derived : Setter derived := fun v (r : Node) =>
  {| config := config r; persistent := persistent r; volatile := volatile r;
     election := election r; leader := leader r; derived := v |}.
