(* ===== verification/Log.v ===== *)
(** * The retained log

    Models [crates/rafter/src/node/state/derived.rs] (the configuration
    index), [node/log/read.rs], [node/log/batch.rs], the log mutations of
    [node/log.rs] and [reconcile_local_proposals] of [state/proposal.rs]. *)

From stdpp Require Import base list sorting numbers option sets.
From S2P Require Import Prelude.
From S2P Require Import Types.
From S2P Require Import Snapshot.
From S2P Require Import Message.
From S2P Require Import Progress.
From S2P Require Import Config.
From S2P Require Import NodeState.

(** ** The configuration index *)

Definition from_log (log : list LogEntry) : list nat :=
  omap (fun '(offset, entry) => if is_configuration (entry_kind entry) then Some offset else None)
    (enumerate log).

Definition DerivedState_from_log (log : list LogEntry) : DerivedState :=
  {| configuration := from_log log |}.

Definition DerivedState_default : DerivedState := {| configuration := [] |}.

Definition record_append (offsets : list nat) (offset : nat) (entry : LogEntry) : list nat :=
  if is_configuration (entry_kind entry) then offsets ++ [offset] else offsets.

Definition configuration_truncate (offsets : list nat) (retained_log_len : nat) : list nat :=
  filter_bool (fun offset => (offset <? retained_log_len)%nat) offsets.

Definition compact_prefix (offsets : list nat) (retired_log_len : nat) : list nat :=
  let first_retained := partition_point (fun offset => (offset <? retired_log_len)%nat) offsets in
  map (fun offset => (offset - retired_log_len)%nat) (drop first_retained offsets).

Definition configuration_entry_at (log : list LogEntry) (offset : nat)
  : option ConfigurationEntry :=
  log !! offset ≫= configuration_entry.

Definition logical_index (first_log_index : LogIndex) (offset : nat) : LogIndex :=
  u64_add first_log_index (N.of_nat offset).

Definition effective_entry (offsets : list nat) (log : list LogEntry)
  : option ConfigurationEntry :=
  last offsets ≫= configuration_entry_at log.

Definition entry_at_or_before (offsets : list nat) (first_log_index : LogIndex)
    (log : list LogEntry) (index : LogIndex) : option ConfigurationEntry :=
  find_map (fun offset =>
              if logical_index first_log_index offset <=? index
              then configuration_entry_at log offset else None) (reverse offsets).

Definition committed_entry (offsets : list nat) (first_log_index : LogIndex)
    (log : list LogEntry) (commit_index : LogIndex) : option ConfigurationEntry :=
  find_first (fun offset => logical_index first_log_index offset <=? commit_index)
    (reverse offsets) ≫= configuration_entry_at log.

Definition committed_state_at (offsets : list nat) (first_log_index : LogIndex)
    (log : list LogEntry) (commit_index : LogIndex) : option CommittedConfiguration :=
  find_map (fun offset =>
              let index := logical_index first_log_index offset in
              if commit_index <? index then None
              else (fun entry => {| cc_index := index; cc_config_id := config_id entry |}) <$>
                     configuration_entry_at log offset) (reverse offsets).

Definition indexes_after (offsets : list nat) (first_log_index floor : LogIndex)
  : list LogIndex :=
  filter_bool (fun index => floor <? index) (map (logical_index first_log_index) offsets).

Definition count_between (offsets : list nat)
    (first_log_index lower_exclusive upper_exclusive : LogIndex) : nat :=
  length (filter_bool (fun index => (lower_exclusive <? index) && (index <? upper_exclusive))
            (map (logical_index first_log_index) offsets)).

Definition derived_validate (d : DerivedState) (log : list LogEntry) : bool :=
  bool_decide (configuration d = from_log log).

(** ** Reads *)

Definition Node_id (n : Node) : NodeId := nc_id (config n).

Definition snapshot_index (n : Node) : LogIndex :=
  match snapshot (persistent n) with
  | Some snapshot => last_included_index (metadata snapshot)
  | None => 0
  end.

Definition first_retained_log_index (n : Node) : LogIndex := LogIndex_next (snapshot_index n).

Definition last_log_index (n : Node) : LogIndex :=
  u64_add (snapshot_index n) (length_u64 (log (persistent n))).

(** [usize] is 64 bits wide, so the conversion never saturates. *)
Definition retained_log_offset (value : u64) : nat := N.to_nat value.

Definition log_entries_slice_from (n : Node) (first_index : LogIndex) : list LogEntry :=
  if (first_index =? 0) || (last_log_index n <? first_index) then []
  else
    let first_retained_index := first_retained_log_index n in
    let first_index := N.max first_index first_retained_index in
    let start := retained_log_offset (u64_sub first_index first_retained_index) in
    drop start (log (persistent n)).

Definition log_entries_from (n : Node) (first_index : LogIndex) : list LogEntry :=
  log_entries_slice_from n first_index.

Definition entry_at (n : Node) (index : LogIndex) : option LogEntry :=
  if index <=? snapshot_index n then None
  else
    let offset := retained_log_offset (u64_sub index (first_retained_log_index n)) in
    log (persistent n) !! offset.

Definition term_at (n : Node) (index : LogIndex) : option Term :=
  let snapshot_index := snapshot_index n in
  if (index =? 0) && (snapshot_index =? 0) then Some 0
  else if index =? snapshot_index then
    (fun snapshot => last_included_term (metadata snapshot)) <$> snapshot (persistent n)
  else if index <? snapshot_index then None
  else entry_term <$> entry_at n index.

Definition last_log_term (n : Node) : Term := default 0 (term_at n (last_log_index n)).

(** ** Bounded batches *)

Record LogBatch := {
  lb_first_index : LogIndex;
  lb_last_index : LogIndex;
  lb_entries : list LogEntry;
  lb_replication_bytes : usize;
}.

(** The loop of [log_batch_from_bounded] with the entries and bytes taken so
    far. *)
Fixpoint take_batch (max_replication_bytes : usize) (entries : list LogEntry) (bytes : usize)
    (rest : list LogEntry) : list LogEntry * usize :=
  match rest with
  | [] => (entries, bytes)
  | entry :: rest =>
      let next_bytes := u64_saturating_add bytes (replication_bytes entry) in
      if bool_decide (entries <> []) && (max_replication_bytes <? next_bytes)
      then (entries, bytes)
      else take_batch max_replication_bytes (entries ++ [entry]) next_bytes rest
  end.

Definition log_batch_from_bounded (n : Node) (first_index : LogIndex)
    (max_replication_bytes : usize) : option LogBatch :=
  if (first_index =? 0) || (last_log_index n <? first_index) then None
  else
    let first_retained_index := first_retained_log_index n in
    let first_index := N.max first_index first_retained_index in
    let start := retained_log_offset (u64_sub first_index first_retained_index) in
    let '(entries, bytes) :=
      take_batch max_replication_bytes [] 0 (drop start (log (persistent n))) in
    match u64_checked_sub (length_u64 entries) 1 with
    | None => None
    | Some delta =>
        Some {| lb_first_index := first_index;
                lb_last_index := u64_add first_index delta;
                lb_entries := entries;
                lb_replication_bytes := bytes |}
    end.

(** ** Mutations *)

Definition dropped_output (reason : LocalProposalDropReason)
    (dropped : LogIndex * LocalProposal) : Output :=
  let '(proposal_index, proposal) := dropped in
  LocalProposalDropped (lp_id proposal) proposal_index (lp_term proposal) reason.

Definition truncate_from (n : Node) (index : LogIndex) (reason : LocalProposalDropReason)
  : Node * list Output :=
  let '(kept, dropped_proposals) := tracker_split_off (local_proposals (volatile n)) index in
  let outputs := map (dropped_output reason) dropped_proposals in
  let n := n <| volatile ; local_proposals := kept |> in
  let first_retained_index := first_retained_log_index n in
  if index <=? first_retained_index then
    (n <| persistent ; log := [] |> <| derived ; configuration := [] |>, outputs)
  else
    let retained_len := retained_log_offset (u64_sub index first_retained_index) in
    (n <| persistent ; log := take retained_len (log (persistent n)) |>
       <| derived ; configuration :=
            configuration_truncate (configuration (derived n)) retained_len |>,
     outputs).

Definition append_log_entry (n : Node) (entry : LogEntry) : Node :=
  let offset := length (log (persistent n)) in
  n <| derived ; configuration := record_append (configuration (derived n)) offset entry |>
    <| persistent ; log := log (persistent n) ++ [entry] |>.

Definition reconcile_local_proposals (n : Node) : Node * list Output :=
  let '(retained, outputs) :=
    fold_left (fun '(retained, outputs) '(index, proposal) =>
                 if bool_decide (term_at n index = Some (lp_term proposal))
                 then (tracker_insert retained index proposal, outputs)
                 else (retained, outputs ++ [dropped_output LogOverwritten (index, proposal)]))
      (local_proposals (volatile n)) ([], []) in
  (n <| volatile ; local_proposals := retained |>, outputs).

Definition replace_log (n : Node) (log' : list LogEntry) : Node * list Output :=
  reconcile_local_proposals
    (n <| derived := DerivedState_from_log log' |> <| persistent ; log := log' |>).

Definition install_snapshot_state_with_committed_configuration (n : Node)
    (snapshot' : RaftSnapshot) (committed : option CommittedConfiguration)
  : Node * list Output :=
  let boundary_index := last_included_index (metadata snapshot') in
  let boundary_term := last_included_term (metadata snapshot') in
  let retain_suffix := bool_decide (term_at n boundary_index = Some boundary_term) in
  let retained_suffix :=
    if retain_suffix then log_entries_from n (LogIndex_next boundary_index) else [] in
  let n := n <| persistent ; snapshot := Some snapshot' |>
             <| persistent ; committed_configuration := committed |> in
  let '(n, outputs) := replace_log n retained_suffix in
  let n := if commit_index (volatile n) <? boundary_index
           then n <| volatile ; commit_index := boundary_index |> else n in
  let n := if dispatched_index (volatile n) <? boundary_index
           then n <| volatile ; dispatched_index := boundary_index |> else n in
  (n, outputs).

Definition install_snapshot_state (n : Node) (snapshot' : RaftSnapshot) : Node * list Output :=
  install_snapshot_state_with_committed_configuration n snapshot'
    (metadata_committed_configuration_state (metadata snapshot')).

(** ** The configuration index follows the log

    Every mutation keeps the offsets those a rebuild from the log would give. *)

Lemma from_log_app l k :
  from_log (l ++ k) = from_log l ++ map (fun offset => (length l + offset)%nat) (from_log k).
Proof.
  unfold from_log, enumerate. rewrite imap_app, omap_app. f_equal.
  generalize (length l). intros m. generalize 0%nat.
  assert (forall (f g : nat -> nat) l,
    (forall i, f i = (m + g i)%nat) ->
    omap (fun '(offset, entry) => if is_configuration (entry_kind entry) then Some offset else None)
      (imap (fun i x => (f i, x)) l) =
    map (fun offset => (m + offset)%nat)
      (omap (fun '(offset, entry) => if is_configuration (entry_kind entry) then Some offset else None)
        (imap (fun i x => (g i, x)) l))) as Hgen.
  { intros f g l'. revert f g. induction l' as [|e l' IH]; intros f g Hfg; [done|].
    rewrite !imap_cons. simpl.
    specialize (IH (f ∘ S) (g ∘ S) (fun i => Hfg (S i))).
    destruct (is_configuration (entry_kind e)); simpl; rewrite ?Hfg; [f_equal|]; apply IH. }
  intros _. apply (Hgen (fun i => (m + i)%nat) (fun i => i)). done.
Qed.

Lemma from_log_lt l : Forall (fun offset => (offset < length l)%nat) (from_log l).
Proof.
  apply Forall_forall. intros offset. unfold from_log, enumerate.
  rewrite list_elem_of_omap. intros ((i & e) & Hin & He).
  apply elem_of_lookup_imap in Hin as (j & x & Heq & Hx). simplify_eq.
  destruct (is_configuration (entry_kind x)); simplify_eq. by eapply lookup_lt_Some.
Qed.

Lemma record_append_from_log l e :
  record_append (from_log l) (length l) e = from_log (l ++ [e]).
Proof.
  rewrite from_log_app. unfold record_append.
  assert (from_log [e] = if is_configuration (entry_kind e) then [0%nat] else []) as ->.
  { unfold from_log, enumerate. simpl. by destruct (is_configuration (entry_kind e)). }
  destruct (is_configuration (entry_kind e)); cbn [map]; [by rewrite Nat.add_0_r|by rewrite app_nil_r].
Qed.

Lemma filter_bool_id {A} (p : A -> bool) l : Forall (fun x => p x = true) l -> filter_bool p l = l.
Proof. induction 1 as [|x l Hx _ IH]; simpl; [done|]. by rewrite Hx, IH. Qed.

Lemma filter_bool_none {A} (p : A -> bool) l : Forall (fun x => p x = false) l -> filter_bool p l = [].
Proof. induction 1 as [|x l Hx _ IH]; simpl; [done|]. by rewrite Hx. Qed.

Lemma configuration_truncate_from_log l k :
  configuration_truncate (from_log l) k = from_log (take k l).
Proof.
  rewrite <- (take_drop k l) at 1. rewrite from_log_app. unfold configuration_truncate.
  rewrite filter_bool_app, (filter_bool_id _ (from_log (take k l))); cycle 1.
  { eapply Forall_impl; [apply from_log_lt|]. intros x Hx. simpl in Hx.
    rewrite length_take in Hx. apply Nat.ltb_lt. lia. }
  rewrite filter_bool_none; [by rewrite app_nil_r|].
  destruct (Nat.le_gt_cases k (length l)).
  - apply Forall_forall. intros x (y & -> & _)%list_elem_of_fmap.
    rewrite length_take. apply Nat.ltb_ge. lia.
  - rewrite drop_ge by lia. constructor.
Qed.

Lemma compact_prefix_from_log l k :
  (k <= length l)%nat -> compact_prefix (from_log l) k = from_log (drop k l).
Proof.
  intros Hk. rewrite <- (take_drop k l) at 1. rewrite from_log_app, length_take, Nat.min_l by done.
  unfold compact_prefix. rewrite partition_point_app.
  - rewrite drop_app_length, map_map. erewrite map_ext; [apply map_id|]. intros x. simpl. lia.
  - eapply Forall_impl; [apply from_log_lt|]. intros x Hx. simpl in Hx.
    rewrite length_take in Hx. apply Nat.ltb_lt. lia.
  - apply Forall_forall. intros x (y & -> & _)%list_elem_of_fmap. apply Nat.ltb_ge. lia.
Qed.

(** The configuration entries at the recorded offsets, in order. *)
Lemma is_configuration_entry e :
  is_configuration (entry_kind e) = is_some (configuration_entry e).
Proof. unfold configuration_entry. by destruct (entry_kind e). Qed.

Lemma from_log_entries l :
  omap (configuration_entry_at l) (from_log l) = omap configuration_entry l.
Proof.
  induction l as [|e l IH] using rev_ind; [done|].
  rewrite <- record_append_from_log, omap_app. unfold record_append.
  assert (forall offsets, Forall (fun o => (o < length l)%nat) offsets ->
    omap (configuration_entry_at (l ++ [e])) offsets = omap (configuration_entry_at l) offsets) as Hold.
  { induction 1 as [|o offsets Ho _ IHo]; [done|]. simpl.
    assert (configuration_entry_at (l ++ [e]) o = configuration_entry_at l o) as ->.
    { unfold configuration_entry_at. by rewrite lookup_app_l. }
    destruct (configuration_entry_at l o); [f_equal|]; apply IHo. }
  pose proof (is_configuration_entry e) as Hc.
  assert (configuration_entry_at (l ++ [e]) (length l) = configuration_entry e) as He.
  { unfold configuration_entry_at. by rewrite lookup_app_r, Nat.sub_diag by lia. }
  destruct (is_configuration (entry_kind e)); simpl.
  - rewrite omap_app, Hold, IH by apply from_log_lt. f_equal. simpl. by rewrite He.
  - rewrite Hold, IH by apply from_log_lt. destruct (configuration_entry e); [done|].
    by rewrite app_nil_r.
Qed.

(** ** Bounded replication batches

    What [log_batch_from_bounded] takes from the log: the longest piece that
    starts at the requested position and stays within the byte budget beyond its
    first entry. *)

(** The bytes of a batch, summed as the loop sums them. *)
Definition batch_bytes (bytes : usize) (entries : list LogEntry) : usize :=
  fold_left (fun bytes entry => u64_saturating_add bytes (replication_bytes entry)) entries bytes.

Lemma take_batch_spec max rest entries bytes :
  exists k, (k <= length rest)%nat /\
    take_batch max entries bytes rest = (entries ++ take k rest, batch_bytes bytes (take k rest)) /\
    (entries = [] -> rest <> [] -> (1 <= k)%nat) /\
    (k = 0%nat \/ (entries = [] /\ k = 1%nat) \/ batch_bytes bytes (take k rest) <= max) /\
    (forall e, rest !! k = Some e ->
       max < u64_saturating_add (batch_bytes bytes (take k rest)) (replication_bytes e)).
Proof.
  revert entries bytes. induction rest as [|e rest IH]; intros entries bytes; simpl.
  { exists 0%nat. rewrite app_nil_r. by split_and!; [lia|done|done|left|]. }
  destruct (bool_decide (entries <> []) && _) eqn:Eb.
  - apply andb_true_iff in Eb as [Hne%bool_decide_eq_true Hmax%N.ltb_lt].
    exists 0%nat. rewrite app_nil_r. split_and!; [lia|done|done|by left|]. by intros ? [= <-].
  - destruct (IH (entries ++ [e]) (u64_saturating_add bytes (replication_bytes e)))
      as (k & Hk & -> & _ & Hb & Hm).
    exists (S k). rewrite <- app_assoc. split_and!; [lia|done|lia| |done]. right.
    destruct Hb as [->|[[? _]|Hb]]; [|by destruct entries|by right].
    destruct entries as [|x entries]; [by left|right]. simpl.
    apply andb_false_iff in Eb as [Eb%bool_decide_eq_false|Eb%N.ltb_ge]; [|done].
    by destruct Eb.
Qed.

(** The entries of the log from the absolute index [first] on. *)
Definition log_from (n : Node) (first : LogIndex) : list LogEntry :=
  drop (N.to_nat (first - snapshot_index n - 1)) (log (persistent n)).

Section batch.
Context (n : Node).
Context (Hcapacity : snapshot_index n + length_u64 (log (persistent n)) + 1 < u64_modulus).

Lemma last_log_index_exact :
  last_log_index n = snapshot_index n + length_u64 (log (persistent n)).
Proof. unfold last_log_index. apply u64_add_small. lia. Qed.

Lemma first_retained_exact : first_retained_log_index n = snapshot_index n + 1.
Proof. unfold first_retained_log_index, LogIndex_next. apply u64_add_small. lia. Qed.

Lemma log_batch_spec first max :
  match log_batch_from_bounded n first max with
  | None => first = 0 \/ last_log_index n < first \/ log (persistent n) = []
  | Some b =>
      0 < first <= last_log_index n /\ lb_first_index b = N.max first (snapshot_index n + 1) /\
      lb_entries b <> [] /\ lb_entries b `prefix_of` log_from n (lb_first_index b) /\
      lb_last_index b + 1 = lb_first_index b + length_u64 (lb_entries b) /\
      lb_last_index b <= last_log_index n /\
      lb_replication_bytes b = batch_bytes 0 (lb_entries b) /\
      (length (lb_entries b) = 1%nat \/ lb_replication_bytes b <= max) /\
      (forall e, log_from n (lb_first_index b) !! length (lb_entries b) = Some e ->
         max < u64_saturating_add (lb_replication_bytes b) (replication_bytes e))
  end.
Proof.
  pose proof last_log_index_exact as Hlast. pose proof first_retained_exact as Hfirst.
  unfold log_batch_from_bounded. destruct (N.eqb_spec first 0); [by left|].
  destruct (N.ltb_spec (last_log_index n) first); [by right; left|]. simpl orb. cbv iota zeta.
  rewrite Hfirst. set (start := N.max first (snapshot_index n + 1)).
  unfold retained_log_offset. rewrite u64_sub_small by lia.
  replace (start - (snapshot_index n + 1)) with (start - snapshot_index n - 1) by lia.
  fold (log_from n start).
  destruct (take_batch_spec max (log_from n start) [] 0) as (k & Hk & -> & Hpos & Hbytes & Hmore).
  simpl app. assert (length (take k (log_from n start)) = k) as Hlen by (rewrite length_take; lia).
  unfold u64_checked_sub, length_u64. rewrite Hlen.
  assert (length (log_from n start) = N.to_nat (last_log_index n + 1 - start)) as Hrest.
  { unfold log_from. rewrite length_drop, Hlast. unfold length_u64. lia. }
  destruct (N.leb_spec 1 (N.of_nat k)) as [Hnz|Hz]; cycle 1.
  - right; right. destruct (log_from n start) as [|e l] eqn:El; [|specialize (Hpos eq_refl ltac:(done)); lia].
    simpl in Hrest. rewrite Hlast in *. apply nil_length_inv. unfold length_u64 in *. lia.
  - simpl. rewrite u64_add_small by (rewrite Hlast in *; lia).
    split_and!; [lia|lia|done|by destruct (take k _); simpl in *; [lia|]|apply prefix_take
      |lia|lia|done| |].
    + destruct Hbytes as [->|[[_ ->]|?]]; [lia|by left|by right].
    + intros e. rewrite Hlen. apply Hmore.
Qed.
End batch.
