(* ===== verification/View.v ===== *)
(** * Membership views and observers

    Models [crates/rafter/src/node/membership/view.rs]: the configuration the
    log, the snapshot and the static membership make effective, or committed,
    at an index. *)

From stdpp Require Import base list sorting numbers option sets.
From S2P Require Import Prelude.
From S2P Require Import Types.
From S2P Require Import Snapshot.
From S2P Require Import Message.
From S2P Require Import Membership.
From S2P Require Import MembershipIndex.
From S2P Require Import Config.
From S2P Require Import NodeState.
From S2P Require Import Log.

Definition effective_configuration_entry (n : Node) : option ConfigurationEntry :=
  effective_entry (configuration (derived n)) (log (persistent n)).

Definition snapshot_committed_membership (n : Node) : option MembershipConfig :=
  snapshot (persistent n) ≫= (fun snapshot => metadata_committed_membership (metadata snapshot)).

Definition effective_base_membership_ref (n : Node) : MembershipConfig :=
  default (static_membership (config n))
    (snapshot (persistent n) ≫= (fun snapshot => metadata_committed_membership (metadata snapshot))).

Definition effective_membership (n : Node) : MembershipConfig :=
  match effective_configuration_entry n with
  | Some entry => membership_config entry
  | None => effective_base_membership_ref n
  end.

Definition membership_at_index (n : Node) (index : LogIndex) : MembershipConfig :=
  let first_log_index := LogIndex_next (snapshot_index n) in
  match entry_at_or_before (configuration (derived n)) first_log_index (log (persistent n)) index with
  | Some entry => membership_config entry
  | None =>
      match (if snapshot_index n <=? index then snapshot_committed_membership n else None) with
      | Some membership => membership
      | None => static_membership (config n)
      end
  end.

Definition committed_configuration_entry (n : Node) : option ConfigurationEntry :=
  committed_entry (configuration (derived n)) (LogIndex_next (snapshot_index n))
    (log (persistent n)) (commit_index (volatile n)).

Definition committed_membership (n : Node) : MembershipConfig :=
  match committed_configuration_entry n with
  | Some entry => membership_config entry
  | None => default (static_membership (config n)) (snapshot_committed_membership n)
  end.

Definition snapshot_committed_configuration_state (n : Node) : option CommittedConfiguration :=
  snapshot (persistent n) ≫=
    (fun snapshot => metadata_committed_configuration_state (metadata snapshot)).

(** [Iterator::max_by_key] on the index: the last of the maxima. *)
Definition max_by_index (states : list CommittedConfiguration) : option CommittedConfiguration :=
  fold_left (fun best state =>
               match best with
               | Some current => if cc_index state <? cc_index current then best else Some state
               | None => Some state
               end) states None.

Definition committed_configuration_state_at (n : Node) (commit_index : LogIndex)
  : option CommittedConfiguration :=
  let retained :=
    committed_state_at (configuration (derived n)) (LogIndex_next (snapshot_index n))
      (log (persistent n)) commit_index in
  max_by_index
    (filter_bool (fun state => cc_index state <=? commit_index)
       (omap (fun state => state)
          [retained; committed_configuration (persistent n);
           snapshot_committed_configuration_state n])).

Definition committed_configuration_state (n : Node) : option CommittedConfiguration :=
  committed_configuration_state_at n (commit_index (volatile n)).

Definition is_effective_voter (n : Node) (node_id : NodeId) : bool :=
  contains_voter (effective_membership n) node_id.

Definition is_effective_learner (n : Node) (node_id : NodeId) : bool :=
  contains_learner (effective_membership n) node_id.

Definition promotion_barrier (n : Node) (learner_id : NodeId) : option PromotionBarrier :=
  if bool_decide (role (volatile n) = Leader) && is_effective_learner n learner_id
  then Some {| learner_id := learner_id; required_match_index := commit_index (volatile n) |}
  else None.

Definition has_effective_quorum (n : Node) (acknowledgements : list NodeId) : bool :=
  if bool_decide (configuration (derived n) = [])
  then MembershipIndex_has_quorum
         (MembershipIndex_new (effective_base_membership_ref n) (Node_id n)) acknowledgements
  else MembershipIndex_has_quorum
         (MembershipIndex_new (effective_membership n) (Node_id n)) acknowledgements.

Definition uncommitted_configuration_indexes (n : Node) : list LogIndex :=
  indexes_after (configuration (derived n)) (LogIndex_next (snapshot_index n))
    (commit_index (volatile n)).
