(* ===== verification/Commit.v ===== *)
(** * Role changes and commitment

    Models [crates/rafter/src/node/lifecycle.rs], [node/commit/advance.rs],
    [node/commit/emit.rs] and [node/replication/progress.rs]. *)

From stdpp Require Import base list sorting numbers option sets.
From S2P Require Import Prelude.
From S2P Require Import Types.
From S2P Require Import Snapshot.
From S2P Require Import Message.
From S2P Require Import Slots.
From S2P Require Import MembershipIndex.
From S2P Require Import Progress.
From S2P Require Import Config.
From S2P Require Import NodeState.
From S2P Require Import Log.
From S2P Require Import View.

(** ** Role changes *)

Definition drain_local_proposals (n : Node) (reason : LocalProposalDropReason)
  : Node * list Output :=
  (n <| volatile ; local_proposals := [] |>,
   map (dropped_output reason) (local_proposals (volatile n))).

Definition drain_pending_reads (n : Node) (reason : ReadIndexCancelReason)
  : Node * list Output :=
  (n <| leader ; pending_reads := [] |>,
   pending_reads (leader n) ≫=
     (fun pending => map (fun read_id => ReadIndexCanceled read_id reason) (read_ids pending))).

Definition become_follower (n : Node) (term : Term) : Node * list Output :=
  let '(n, dropped) := drain_local_proposals n LeadershipLost in
  let '(n, canceled) := drain_pending_reads n CancelLeadershipLost in
  let n :=
    if current_term (persistent n) <? term
    then n <| persistent ; voted_for := None |> <| volatile ; leader_hint := None |>
    else n in
  let n := n <| volatile ; role := Follower |>
             <| persistent ; current_term := N.max (current_term (persistent n)) term |>
             <| election := reset_for_follower (election n) |>
             <| leader := LeaderState_default |> in
  (n, dropped ++ canceled).

(** ** Replication progress of the leader *)

Definition reconcile_replication_progress (n : Node) : Node :=
  if negb (bool_decide (role (volatile n) = Leader)) then n
  else
    let self_id := Node_id n in
    let first_sendable_index := LogIndex_next (snapshot_index n) in
    let local_match_index := last_log_index n in
    let membership :=
      if bool_decide (configuration (derived n) = [])
      then default (static_membership (config n))
             (snapshot (persistent n) ≫=
                (fun snapshot => metadata_committed_membership (metadata snapshot)))
      else effective_membership n in
    n <| leader ; progress :=
           reconcile_membership (progress (leader n)) membership self_id first_sendable_index
             local_match_index |>.

Definition record_local_progress (n : Node) : Node :=
  let last_log_index := last_log_index n in
  let n := reconcile_replication_progress n in
  n <| leader ; progress :=
         ProgressSet_update (progress (leader n)) (Node_id n)
           (fun local => local <| match_index := last_log_index |>
                               <| next_index := LogIndex_next last_log_index |>) |>.

(** ** Commitment *)

(** [select_nth_unstable_by] in descending order returns the element at
    [threshold] of the sequence sorted in descending order. *)
Definition quorum_index (progress : ProgressSet) (voters : SlotSet) : option LogIndex :=
  let quorum := (SlotSet_count voters / 2 + 1)%nat in
  let match_indexes := match_indexes_for progress voters in
  if (length match_indexes <? quorum)%nat then None
  else
    let threshold := (quorum - 1)%nat in
    reverse (sort_unstable match_indexes) !! threshold.

Definition quorum_replicated_index (progress : ProgressSet) : option LogIndex :=
  let membership := progress_index progress in
  match quorum_index progress (old_voters membership) with
  | None => None
  | Some old_quorum_index =>
      match new_voters membership with
      | None => Some old_quorum_index
      | Some new_voters =>
          match quorum_index progress new_voters with
          | None => None
          | Some new_quorum_index => Some (N.min old_quorum_index new_quorum_index)
          end
      end
  end.

Definition membership_before (n : Node) (index : LogIndex) : MembershipConfig :=
  membership_at_index n (u64_saturating_sub index 1).

Definition step_down_if_removed (n : Node) (committed_membership : MembershipConfig)
  : Node * list Output :=
  if bool_decide (role (volatile n) = Leader) && negb (contains_voter committed_membership (Node_id n))
  then become_follower n (current_term (persistent n))
  else (n, []).

(** The body of the dispatch loop for the entry at [index]. *)
Definition emit_committed_entry (n : Node) (index : LogIndex) (entry : LogEntry)
  : Node * list Output :=
  let entry_term := entry_term entry in
  let configuration := configuration_entry entry in
  let n := n <| volatile ; dispatched_index := index |> in
  let '(remaining, removed) := tracker_remove (local_proposals (volatile n)) index in
  let n := n <| volatile ; local_proposals := remaining |> in
  let local_proposal_id :=
    removed ≫= (fun proposal => if lp_term proposal =? entry_term then Some (lp_id proposal)
                                else None) in
  match application_payload entry with
  | Some payload => (n, [Apply index entry_term payload local_proposal_id])
  | None =>
      match configuration with
      | Some configuration =>
          let membership := membership_config configuration in
          let committed :=
            ConfigurationCommitted index entry_term (membership_before n index) configuration in
          let '(n, outputs) := step_down_if_removed n membership in
          (n, committed :: outputs)
      | None => (n, [])
      end
  end.

(** The loop runs once per undispatched committed index, so the distance from
    the dispatch cursor to the commit index bounds it. *)
Fixpoint emit_committed_loop (fuel : nat) (n : Node) : Node * list Output :=
  match fuel with
  | 0%nat => (n, [])
  | S fuel =>
      if negb (dispatched_index (volatile n) <? commit_index (volatile n)) then (n, [])
      else
        let index := LogIndex_next (dispatched_index (volatile n)) in
        match entry_at n index with
        | None => (n, [])
        | Some entry =>
            let '(n, outputs) := emit_committed_entry n index entry in
            let '(n, rest) := emit_committed_loop fuel n in
            (n, outputs ++ rest)
        end
  end.

Definition emit_committed_outputs (n : Node) : Node * list Output :=
  emit_committed_loop
    (N.to_nat (commit_index (volatile n) - dispatched_index (volatile n))) n.

Definition drain_committed_outputs (n : Node) : Node * list Output := emit_committed_outputs n.

Definition advance_commit_index_into (n : Node) : Node * list Output :=
  let n := reconcile_replication_progress n in
  match quorum_replicated_index (progress (leader n)) with
  | None => (n, [])
  | Some candidate =>
      if candidate <=? commit_index (volatile n) then (n, [])
      else if negb (bool_decide (term_at n candidate = Some (current_term (persistent n))))
      then (n, [])
      else emit_committed_outputs (n <| volatile ; commit_index := candidate |>)
  end.

Definition advance_commit_index (n : Node) : Node * list Output := advance_commit_index_into n.

Definition become_leader (n : Node) : Node * list Output :=
  let n := n <| volatile ; role := Leader |>
             <| volatile ; leader_hint := Some (Node_id n) |>
             <| election := enter_leadership (election n) |>
             <| leader := LeaderState_default |>
             <| volatile ; incoming_snapshot := None |> in
  let n := append_log_entry n (LogEntry_noop (current_term (persistent n))) in
  let noop_index := last_log_index n in
  let n := n <| leader ; progress :=
               ProgressSet_reset (effective_membership n) (Node_id n) noop_index noop_index |> in
  advance_commit_index n.
