(* ===== verification/CommitQuorum.v ===== *)
(** * The commit index a quorum has replicated

    [quorum_replicated_index] ([node/commit/advance.rs]) selects, by an
    order statistic on slots, the greatest position a quorum of the membership
    has acknowledged, in both halves of a joint membership. *)

From stdpp Require Import base list sorting numbers option sets.
From S2P Require Import Prelude.
From S2P Require Import Types.
From S2P Require Import Snapshot.
From S2P Require Import Message.
From S2P Require Import Membership.
From S2P Require Import Slots.
From S2P Require Import MembershipIndex.
From S2P Require Import Progress.
From S2P Require Import Commit.

(** The replica [v] is known to hold the log up to [i]. *)
Definition reached (p : ProgressSet) (i : LogIndex) (v : NodeId) : bool :=
  is_some_and (fun progress => i <=? match_index progress) (ProgressSet_get p v).

(** ** The order statistic *)

Lemma filter_bool_Permutation {A} (p : A -> bool) l k :
  l ≡ₚ k -> length (filter_bool p l) = length (filter_bool p k).
Proof.
  induction 1 as [|x l k _ IH|x y l|l1 l2 l3 _ IH1 _ IH2]; simpl; try congruence.
  - destruct (p x); simpl; congruence.
  - destruct (p x), (p y); done.
Qed.

Lemma filter_bool_forall {A} (p : A -> bool) l :
  Forall (fun x => p x = true) l -> length (filter_bool p l) = length l.
Proof. induction 1 as [|x l Hx _ IH]; simpl; [done|]. rewrite Hx. simpl. congruence. Qed.

Lemma filter_bool_forall_not {A} (p : A -> bool) l :
  Forall (fun x => p x = false) l -> filter_bool p l = [].
Proof. induction 1 as [|x l Hx _ IH]; simpl; [done|]. by rewrite Hx. Qed.

Lemma filter_bool_length {A} (p : A -> bool) l : (length (filter_bool p l) <= length l)%nat.
Proof. induction l as [|x l IH]; simpl; [done|]. destruct (p x); simpl; lia. Qed.

Lemma filter_bool_monotone {A} (p q : A -> bool) l :
  (forall x, p x = true -> q x = true) ->
  (length (filter_bool p l) <= length (filter_bool q l))%nat.
Proof.
  intros H. induction l as [|x l IH]; simpl; [done|]. specialize (H x).
  destruct (p x), (q x); simpl; try lia; by specialize (H eq_refl).
Qed.

Lemma quorum_of_monotone c p q :
  (forall x, p x = true -> q x = true) -> quorum_of c p = true -> quorum_of c q = true.
Proof.
  intros H. unfold quorum_of. rewrite !forallb_forall. intros Hp m Hm. specialize (Hp m Hm).
  unfold majority_of in *. rewrite Nat.leb_le in *.
  pose proof (filter_bool_monotone p q (voters m) H). lia.
Qed.

(** The [k]-th greatest element of a list. *)
Lemma kth_greatest (l : list N) k x :
  reverse (sort_unstable l) !! k = Some x ->
  (k < length (filter_bool (fun y => (x <=? y)%N) l))%nat /\
  forall j, (k < length (filter_bool (fun y => (j <=? y)%N) l))%nat -> (j <= x)%N.
Proof.
  intros Hk. assert (sort_unstable l ≡ₚ l) as Hp by apply merge_sort_Permutation.
  assert (StronglySorted N.le (sort_unstable l)) as Hs
    by (apply StronglySorted_merge_sort; apply _).
  pose proof (lookup_lt_Some _ _ _ Hk) as Hlt. rewrite length_reverse in Hlt.
  rewrite reverse_lookup in Hk by done. apply list_elem_of_split_length in Hk as (A & B & He & HA).
  rewrite He in Hs. apply StronglySorted_app in Hs as (Hab & _ & Hs).
  apply StronglySorted_inv in Hs as [_ HxB].
  assert (length B = k) as HB by (rewrite He, length_app in *; simpl in *; lia).
  split; [|intros j]; rewrite <- (filter_bool_Permutation _ _ _ Hp), He, filter_bool_app, length_app; simpl.
  - rewrite N.leb_refl. simpl. rewrite (filter_bool_forall _ B); [lia|].
    eapply Forall_impl; [exact HxB|]. intros y Hy. by apply N.leb_le.
  - intros Hj. destruct (N.leb_spec j x) as [|Hlt']; [done|]. exfalso.
    rewrite (filter_bool_forall_not _ A) in Hj.
    + pose proof (filter_bool_length (fun y => (j <=? y)%N) B). simpl in Hj. lia.
    + apply Forall_forall. intros y Hy. apply N.leb_gt.
      pose proof (Hab y x Hy (list_elem_of_here _ _)). lia.
Qed.

Lemma filter_bool_fmap_omap {A B} (f : B -> N) (g : A -> option B) (p : N -> bool) l :
  length (filter_bool p (f <$> omap g l)) =
  length (filter_bool (fun x => is_some_and (fun b => p (f b)) (g x)) l).
Proof.
  induction l as [|x l IH]; simpl; [done|]. destruct (g x) as [b|]; simpl; [|done].
  destruct (p (f b)); simpl; [f_equal|]; exact IH.
Qed.

Section quorum.
Context (p : ProgressSet) (c : MembershipConfig) (self_id : NodeId).
Context (Hwf : MembershipConfig_wf c) (Hrep : represents (progress_index p) c self_id).
Context (Hlen : length (progress_slots p) = length (replicas (progress_index p))).

Let ids := replicas (progress_index p).

(** Acknowledged positions, counted on slots, are positions of voters. *)
Lemma count_match_indexes s m j :
  m ∈ halves c -> slots_denote ids s (voters m) ->
  length (filter_bool (fun i => (j <=? i)%N) (match_indexes_for p s)) =
  length (filter_bool (reached p j) (voters m)).
Proof.
  intros Hm Hd. destruct (represented_voters _ _ _ Hwf Hrep m Hm) as [Hn Hsub].
  pose proof (represented_NoDup _ _ _ Hrep) as Hnd.
  unfold match_indexes_for. rewrite filter_bool_fmap_omap, Hlen.
  apply (denote_filter_length ids s); [done|done|done|done|].
  intros i x Hx. unfold reached, ProgressSet_get, slot.
  by rewrite (slot_of_lookup _ _ _ Hnd Hx).
Qed.

Lemma quorum_index_correct s m :
  m ∈ halves c -> slots_denote ids s (voters m) ->
  exists i, quorum_index p s = Some i /\ majority_of m (reached p i) = true /\
    forall j, majority_of m (reached p j) = true -> j <= i.
Proof.
  intros Hm Hd. destruct (represented_voters _ _ _ Hwf Hrep m Hm) as [Hn Hsub].
  pose proof (represented_NoDup _ _ _ Hrep) as Hnd.
  assert (length (match_indexes_for p s) = length (voters m)) as Hl.
  { rewrite <- (filter_bool_all (match_indexes_for p s)).
    rewrite (filter_bool_ext _ (fun i => (0 <=? i)%N)) by (intros; symmetry; apply N.leb_le; lia).
    rewrite (count_match_indexes s m 0 Hm Hd). apply filter_bool_forall, Forall_forall.
    intros x Hx. unfold reached, ProgressSet_get, slot.
    destruct (list_elem_of_lookup_1 ids x (Hsub x Hx)) as [i Hi].
    rewrite (slot_of_lookup _ _ _ Hnd Hi). simpl.
    destruct (lookup_lt_is_Some_2 (progress_slots p) i) as [q ->];
      [rewrite Hlen; by eapply lookup_lt_Some|]. simpl. apply N.leb_le. lia. }
  assert (voters m <> []) as Hne by by apply (wf_halves c m Hwf Hm).
  unfold quorum_index. rewrite (denote_count ids s (voters m)) by done. rewrite Hl.
  assert (1 <= length (voters m))%nat by (destruct (voters m); simpl; [done|lia]).
  pose proof (Nat.div_lt (length (voters m)) 2) as Hdiv.
  destruct (Nat.ltb_spec (length (voters m)) (length (voters m) / 2 + 1)) as [|_]; [lia|].
  set (k := (length (voters m) / 2 + 1 - 1)%nat).
  destruct (lookup_lt_is_Some_2 (reverse (sort_unstable (match_indexes_for p s))) k) as [i Hi].
  { rewrite length_reverse. unfold sort_unstable. rewrite merge_sort_Permutation. lia. }
  exists i. destruct (kth_greatest _ _ _ Hi) as [Hlo Hhi].
  unfold majority_of, MembershipSet_quorum_size, majority. split_and!; [done| |].
  - rewrite (count_match_indexes s m i Hm Hd) in Hlo. apply Nat.leb_le. lia.
  - intros j Hj%Nat.leb_le. apply Hhi. rewrite (count_match_indexes s m j Hm Hd). lia.
Qed.

Lemma quorum_replicated_correct :
  exists i, quorum_replicated_index p = Some i /\ quorum_of c (reached p i) = true /\
    forall j, quorum_of c (reached p j) = true -> j <= i.
Proof.
  unfold quorum_replicated_index. pose proof Hrep as [_ Hold Hnew _ _].
  pose proof quorum_index_correct as Hqi.
  destruct (Hqi (old_voters (progress_index p)) (first_half c)) as (i & -> & Hi & Hmax);
    [destruct c; simpl; set_solver|done|].
  assert (forall m i j, j <= i -> majority_of m (reached p i) = true ->
    majority_of m (reached p j) = true) as Hdown.
  { intros m a b Hab. unfold majority_of. rewrite !Nat.leb_le. intros H.
    etrans; [exact H|]. apply filter_bool_monotone. intros x. unfold reached.
    destruct (ProgressSet_get p x); simpl; [|done]. rewrite !N.leb_le. lia. }
  destruct c as [m|j]; simpl in *.
  - destruct (new_voters _); [done|]. exists i. unfold quorum_of. simpl. rewrite andb_true_r.
    split_and!; [done|done|]. intros k. rewrite andb_true_r. apply Hmax.
  - destruct (new_voters _) as [s|]; [|done].
    destruct (Hqi s (new_membership j)) as (i' & -> & Hi' & Hmax'); [set_solver|done|].
    exists (N.min i i'). unfold quorum_of. simpl. rewrite !andb_true_r. split_and!; [done| |].
    + apply andb_true_iff. split; [apply (Hdown _ i)|apply (Hdown _ i')]; (done || lia).
    + intros k. rewrite andb_true_r, andb_true_iff. intros [H1%Hmax H2%Hmax']. lia.
Qed.
End quorum.
