(* ===== verification/Send.v ===== *)
(** * Replication sends

    Models [crates/rafter/src/node/replication/send.rs], [send/cache.rs],
    [send/broadcast.rs] and [replication/snapshot/send.rs]: which append or
    snapshot chunk a follower is sent next. *)

From stdpp Require Import base list sorting numbers option sets.
From S2P Require Import Prelude.
From S2P Require Import Types.
From S2P Require Import Snapshot.
From S2P Require Import Message.
From S2P Require Import MembershipIndex.
From S2P Require Import Progress.
From S2P Require Import Config.
From S2P Require Import NodeState.
From S2P Require Import Log.
From S2P Require Import View.
From S2P Require Import Commit.

Inductive ReplicationDemand := ProgressOnly | EnsureContact.

Definition requires_message (demand : ReplicationDemand) : bool :=
  match demand with EnsureContact => true | ProgressOnly => false end.

Record WindowBudget := {
  wb_last_log_index : LogIndex;
  wb_max_batches : usize;
  wb_max_bytes : usize;
}.

(** ** The batch cache of one broadcast *)

Record CachedLogBatch := {
  clb_first_index : LogIndex;
  clb_max_replication_bytes : usize;
  clb_batch : LogBatch;
}.

Abbreviation LogBatchCache := (list CachedLogBatch) (only parsing).

Definition log_batch_from_bounded_cached (n : Node) (first_index : LogIndex)
    (max_replication_bytes : usize) (cache : LogBatchCache)
  : option LogBatch * LogBatchCache :=
  match find_first (fun cached => (clb_first_index cached =? first_index)
                                  && (clb_max_replication_bytes cached =? max_replication_bytes))
          cache with
  | Some cached => (Some (clb_batch cached), cache)
  | None =>
      match log_batch_from_bounded n first_index max_replication_bytes with
      | None => (None, cache)
      | Some batch =>
          (Some batch,
           cache ++ [{| clb_first_index := first_index;
                        clb_max_replication_bytes := max_replication_bytes;
                        clb_batch := batch |}])
      end
  end.

(** ** Messages *)

Definition append_entries_message (n : Node) (follower_id : NodeId) (next_index : LogIndex)
    (entries : list LogEntry) : Output :=
  let prev_log_index := u64_saturating_sub next_index 1 in
  Send follower_id
    (MAppendEntries
       {| ae_term := current_term (persistent n);
          ae_leader_id := Node_id n;
          ae_prev_log_index := prev_log_index;
          ae_prev_log_term := default 0 (term_at n prev_log_index);
          ae_sequence := heartbeat_sequence (leader n);
          ae_entries := entries;
          ae_leader_commit := commit_index (volatile n) |}).

Definition send_empty_append_to_progress_next (n : Node) (follower_id : NodeId) : list Output :=
  match ProgressSet_get (progress (leader n)) follower_id with
  | None => []
  | Some progress => [append_entries_message n follower_id (next_index progress) []]
  end.

Definition INSTALL_SNAPSHOT_CHUNK_BYTES : u32 := 64 * 1024.

Definition snapshot_chunk_len (total_payload_len offset : u64) : u32 :=
  let remaining := u64_saturating_sub total_payload_len offset in
  let bounded := N.min remaining INSTALL_SNAPSHOT_CHUNK_BYTES in
  if bounded <? 4294967296 then bounded else INSTALL_SNAPSHOT_CHUNK_BYTES.

Definition snapshot_send_offset (n : Node) (follower_id : NodeId) (total_payload_len : u64) : u64 :=
  N.min
    (match ProgressSet_get (progress (leader n)) follower_id with
     | Some progress =>
         match mode progress with
         | SnapshotMode next_offset => next_offset
         | Probe _ | Replicate => 0
         end
     | None => 0
     end) total_payload_len.

Definition install_snapshot_chunk_to (n : Node) (follower_id : NodeId) (snapshot : RaftSnapshot)
  : Output :=
  let total_payload_len := application_payload_len snapshot in
  let offset := snapshot_send_offset n follower_id total_payload_len in
  let len := snapshot_chunk_len total_payload_len offset in
  let done := u64_add offset len =? total_payload_len in
  SendSnapshotChunk follower_id
    {| scs_term := current_term (persistent n);
       scs_leader_id := Node_id n;
       scs_transfer_id := transfer_id snapshot;
       scs_metadata := metadata snapshot;
       scs_total_payload_len := total_payload_len;
       scs_application_payload_crc32 := application_payload_crc32 snapshot;
       scs_offset := offset;
       scs_len := len;
       scs_done := done |}.

(** ** One follower *)

Definition update_progress (n : Node) (follower_id : NodeId) (f : Progress -> Progress) : Node :=
  n <| leader ; progress := ProgressSet_update (progress (leader n)) follower_id f |>.

Definition replicate_snapshot_to_follower (n : Node) (follower_id : NodeId) : list Output :=
  match snapshot (persistent n) with
  | Some snapshot => [install_snapshot_chunk_to n follower_id snapshot]
  | None => []
  end.

Definition replicate_probe_to_follower (n : Node) (follower_id : NodeId) (awaiting_response : bool)
    (demand : ReplicationDemand) (snapshot_index : LogIndex) (cache : LogBatchCache)
  : Node * list Output * LogBatchCache :=
  if awaiting_response then
    (n, if requires_message demand then send_empty_append_to_progress_next n follower_id else [],
     cache)
  else
    match ProgressSet_get (progress (leader n)) follower_id with
    | None => (n, [], cache)
    | Some progress =>
        let next_index' := N.max (next_index progress) (LogIndex_next snapshot_index) in
        let '(batch, cache) :=
          log_batch_from_bounded_cached n next_index' (max_append_entries_bytes (config n)) cache in
        let entries := match batch with Some batch => lb_entries batch | None => [] end in
        let message := append_entries_message n follower_id next_index' entries in
        (update_progress n follower_id
           (fun progress => progress <| next_index := next_index' |> <| mode := Probe true |>),
         [message], cache)
    end.

(** One round of the window loop: [None] when the loop stops. *)
Definition window_round (n : Node) (follower_id : NodeId) (window : WindowBudget)
    (cache : LogBatchCache) : option (Node * Output) * LogBatchCache :=
  match ProgressSet_get (progress (leader n)) follower_id with
  | None => (None, cache)
  | Some progress =>
      if Inflights_is_full (inflights progress) (wb_max_batches window) (wb_max_bytes window)
         || (wb_last_log_index window <? next_index progress)
      then (None, cache)
      else
        let '(batch, cache) :=
          log_batch_from_bounded_cached n (next_index progress)
            (max_append_entries_bytes (config n)) cache in
        match batch with
        | None => (None, cache)
        | Some batch =>
            let last_sent := lb_last_index batch in
            let message :=
              append_entries_message n follower_id (lb_first_index batch) (lb_entries batch) in
            (Some (update_progress n follower_id
                     (fun progress =>
                        progress
                          <| inflights :=
                               Inflights_record (inflights progress) last_sent
                                 (lb_replication_bytes batch) |>
                          <| next_index := LogIndex_next last_sent |>),
                   message), cache)
        end
  end.

(** The window loop.  Every round moves [next_index] forward and the loop stops
    once it passes the last log index, which bounds the rounds. *)
Fixpoint window_loop (fuel : nat) (n : Node) (follower_id : NodeId) (window : WindowBudget)
    (cache : LogBatchCache) : Node * list Output * LogBatchCache :=
  match fuel with
  | 0%nat => (n, [], cache)
  | S fuel =>
      match window_round n follower_id window cache with
      | (None, cache) => (n, [], cache)
      | (Some (n, message), cache) =>
          let '(n, rest, cache) := window_loop fuel n follower_id window cache in
          (n, message :: rest, cache)
      end
  end.

Definition window_fuel (n : Node) (follower_id : NodeId) (window : WindowBudget) : nat :=
  match ProgressSet_get (progress (leader n)) follower_id with
  | Some progress => S (N.to_nat (wb_last_log_index window - next_index progress))
  | None => 1%nat
  end.

Definition fill_replication_window (n : Node) (follower_id : NodeId) (demand : ReplicationDemand)
    (window : WindowBudget) (cache : LogBatchCache) : Node * list Output * LogBatchCache :=
  let '(n, sent, cache) := window_loop (window_fuel n follower_id window) n follower_id window cache in
  match sent with
  | [] => (n, if requires_message demand
              then send_empty_append_to_progress_next n follower_id else [], cache)
  | _ :: _ => (n, sent, cache)
  end.

Definition enter_snapshot_mode (snapshot_index : LogIndex) (progress : Progress) : Progress :=
  match mode progress with
  | SnapshotMode _ => progress
  | _ =>
      if next_index progress <=? snapshot_index
      then progress <| mode := SnapshotMode 0 |>
                    <| inflights := Inflights_clear (inflights progress) |>
      else progress
  end.

Definition replicate_to_follower_with_cache_fresh (n : Node) (follower_id : NodeId)
    (demand : ReplicationDemand) (cache : LogBatchCache) : Node * list Output * LogBatchCache :=
  if (follower_id =? Node_id n) || negb (ProgressSet_contains (progress (leader n)) follower_id)
  then (n, [], cache)
  else
    let snapshot_index := snapshot_index n in
    let window := {| wb_last_log_index := last_log_index n;
                     wb_max_batches := max_inflight_appends (config n);
                     wb_max_bytes := max_inflight_bytes (config n) |} in
    let n := update_progress n follower_id (enter_snapshot_mode snapshot_index) in
    match ProgressSet_get (progress (leader n)) follower_id with
    | None => (n, [], cache)
    | Some progress =>
        match mode progress with
        | SnapshotMode _ => (n, replicate_snapshot_to_follower n follower_id, cache)
        | Probe awaiting_response =>
            replicate_probe_to_follower n follower_id awaiting_response demand snapshot_index cache
        | Replicate => fill_replication_window n follower_id demand window cache
        end
    end.

Definition replicate_to_follower (n : Node) (follower_id : NodeId) (demand : ReplicationDemand)
  : Node * list Output :=
  let n := reconcile_replication_progress n in
  let '(n, outputs, _) := replicate_to_follower_with_cache_fresh n follower_id demand [] in
  (n, outputs).

(** ** Broadcast *)

Definition begin_contact_round (n : Node) : Node :=
  n <| leader ; heartbeat_sequence := u64_add (heartbeat_sequence (leader n)) 1 |>
    <| leader ; heartbeat_elapsed := 0 |>.

Fixpoint broadcast_loop (slots : list nat) (n : Node) (demand : ReplicationDemand)
    (cache : LogBatchCache) : Node * list Output :=
  match slots with
  | [] => (n, [])
  | slot :: slots =>
      match replica_id_at (progress (leader n)) slot with
      | None => broadcast_loop slots n demand cache
      | Some follower_id =>
          if follower_id =? Node_id n then broadcast_loop slots n demand cache
          else
            let '(n, outputs, cache) :=
              replicate_to_follower_with_cache_fresh n follower_id demand cache in
            let '(n, rest) := broadcast_loop slots n demand cache in
            (n, outputs ++ rest)
      end
  end.

Definition broadcast_replication_into (n : Node) (demand : ReplicationDemand)
  : Node * list Output :=
  let n := if requires_message demand then begin_contact_round n else n in
  let n := reconcile_replication_progress n in
  broadcast_loop (seq 0 (replica_count (progress (leader n)))) n demand [].

Definition broadcast_append_entries (n : Node) : Node * list Output :=
  broadcast_replication_into n EnsureContact.
