(* ===== verification/ReadIndex.v ===== *)
(** * Leader authority and linearizable reads

    Models [crates/rafter/src/node/replication/authority.rs] (quorum contact
    and the read lease) and [node/read_index.rs] (read barriers). *)

From stdpp Require Import base list sorting numbers option sets.
From S2P Require Import Prelude.
From S2P Require Import Types.
From S2P Require Import Snapshot.
From S2P Require Import Message.
From S2P Require Import MembershipIndex.
From S2P Require Import Progress.
From S2P Require Import Config.
From S2P Require Import NodeState.
From S2P Require Import Log.
From S2P Require Import View.
From S2P Require Import Commit.
From S2P Require Import Send.

(** ** Quorum contact and lease *)

Definition acknowledge_read_lease (n : Node) (follower_id : NodeId) (sequence : u64) : Node :=
  if negb (lease_reads (config n)) then n
  else
    let membership := effective_membership n in
    let self_id := Node_id n in
    let '(lease', recorded) :=
      record_ack (lease (leader n)) follower_id sequence membership self_id in
    let n := n <| leader ; lease := lease' |> in
    if negb recorded then n
    else
      let '(acks, quorum) :=
        has_quorum_with_self (lease_acks (lease (leader n))) membership self_id in
      let n := n <| leader ; lease := (lease (leader n)) <| lease_acks := acks |> |> in
      if negb quorum then n
      else
        let current_tick := ticks (leader n) in
        let next_heartbeat_sequence := u64_add (heartbeat_sequence (leader n)) 1 in
        n <| leader ; lease :=
               confirm_and_rearm (lease (leader n)) current_tick next_heartbeat_sequence |>.

Definition tick_read_lease (n : Node) : Node :=
  if negb (lease_reads (config n)) then n
  else
    let basis_age :=
      u64_saturating_sub (ticks (leader n)) (pending_basis_tick (lease (leader n))) in
    if basis_age <? read_lease_ticks (config n) then n
    else
      let current_tick := ticks (leader n) in
      let next_heartbeat_sequence := u64_add (heartbeat_sequence (leader n)) 1 in
      n <| leader ; lease := rearm (lease (leader n)) current_tick next_heartbeat_sequence |>.

(** [Some outputs] when the leader steps down. *)
Definition tick_check_quorum (n : Node) : Node * option (list Output) :=
  if negb (check_quorum (config n)) then (n, None)
  else
    let n := n <| leader ; quorum_check_elapsed :=
                 u64_add (quorum_check_elapsed (leader n)) 1 |> in
    if quorum_check_elapsed (leader n) <? election_timeout_ticks (config n) then (n, None)
    else
      let membership := effective_membership n in
      let self_id := Node_id n in
      let '(acks, quorum) := has_quorum_with_self (quorum_acks (leader n)) membership self_id in
      let n := n <| leader ; quorum_acks := acks |> in
      if quorum then
        (n <| leader ; quorum_acks := AcknowledgementSet_clear (quorum_acks (leader n)) |>
           <| leader ; quorum_check_elapsed := 0 |>, None)
      else
        let '(n, outputs) := become_follower n (current_term (persistent n)) in
        (n <| volatile ; leader_hint := None |>, Some outputs).

Definition record_quorum_ack (n : Node) (follower_id : NodeId) : Node :=
  let self_id := Node_id n in
  let membership :=
    if bool_decide (configuration (derived n) = [])
    then default (static_membership (config n))
           (snapshot (persistent n) ≫=
              (fun snapshot => metadata_committed_membership (metadata snapshot)))
    else effective_membership n in
  n <| leader ; quorum_acks :=
         AcknowledgementSet_insert (quorum_acks (leader n)) follower_id membership self_id |>.

(** ** Read barriers *)

Definition MAX_PENDING_READS : usize := 1024.

Definition grant_reads (read_ids : list ReadId) (read_index : LogIndex) : list Output :=
  map (fun read_id => ReadIndexGranted read_id read_index) read_ids.

Definition reject_reads (read_ids : list ReadId) (reason : ReadIndexRejection) : list Output :=
  map (fun read_id => ReadIndexRejected read_id reason) read_ids.

Definition has_committed_in_current_term (n : Node) : bool :=
  (0 <? commit_index (volatile n))
  && bool_decide (term_at n (commit_index (volatile n)) = Some (current_term (persistent n))).

Definition lease_grant_available (n : Node) : bool :=
  bool_decide (role (volatile n) = Leader)
  && lease_reads (config n)
  && is_none (pending_transfer (leader n))
  && negb (deposition_authorized (leader n))
  && has_committed_in_current_term n
  && holds (lease (leader n)) (ticks (leader n)) (read_lease_ticks (config n)).

Definition pending_read_count (n : Node) : usize :=
  foldr (fun pending total => length_u64 (read_ids pending) + total) 0 (pending_reads (leader n)).

Definition read_index_batch (n : Node) (ids : list ReadId) : Node * list Output :=
  match ids with
  | [] => (n, [])
  | _ :: _ =>
      if negb (bool_decide (role (volatile n) = Leader)) then
        (n, reject_reads ids (ReadNotLeader (role (volatile n)) (current_term (persistent n))))
      else
        match pending_transfer (leader n) with
        | Some transfer => (n, reject_reads ids (ReadLeadershipTransferInProgress (target transfer)))
        | None =>
            if negb (has_committed_in_current_term n) then
              (n, reject_reads ids NoCommitInCurrentTerm)
            else if lease_grant_available n then
              (n, grant_reads ids (commit_index (volatile n)))
            else
              let membership := effective_membership n in
              let self_id := Node_id n in
              let '(acks, confirmed) :=
                has_quorum_with_self (AcknowledgementSet_new membership self_id) membership self_id in
              let pending := {|
                read_ids := ids;
                read_index := commit_index (volatile n);
                registered_sequence := u64_add (heartbeat_sequence (leader n)) 1;
                round_acks := acks;
              |} in
              if confirmed then (n, grant_reads (read_ids pending) (read_index pending))
              else
                let available := u64_saturating_sub MAX_PENDING_READS (pending_read_count n) in
                if available =? 0 then (n, reject_reads (read_ids pending) TooManyPendingReads)
                else
                  let kept := take (N.to_nat available) (read_ids pending) in
                  let rejected :=
                    if available <? length_u64 (read_ids pending)
                    then drop (N.to_nat available) (read_ids pending) else [] in
                  let pending := pending <| read_ids := kept |> in
                  let n := n <| leader ; pending_reads := pending_reads (leader n) ++ [pending] |> in
                  let '(n, outputs) := broadcast_append_entries n in
                  (n, outputs ++ reject_reads rejected TooManyPendingReads)
        end
  end.

Definition handle_read_index (n : Node) (read_id : ReadId) : Node * list Output :=
  read_index_batch n [read_id].

(** [retain_mut] over the rounds: the granted outputs and the rounds kept, with
    their refreshed acknowledgement sets. *)
Fixpoint retain_unconfirmed (rounds : list PendingReadRound) (membership : MembershipConfig)
    (self_id : NodeId) : list PendingReadRound * list Output :=
  match rounds with
  | [] => ([], [])
  | pending :: rest =>
      let '(acks, confirmed) := has_quorum_with_self (round_acks pending) membership self_id in
      let '(kept, outputs) := retain_unconfirmed rest membership self_id in
      if confirmed then (kept, grant_reads (read_ids pending) (read_index pending) ++ outputs)
      else (pending <| round_acks := acks |> :: kept, outputs)
  end.

Definition acknowledge_round (follower_id : NodeId) (sequence : u64)
    (membership : MembershipConfig) (self_id : NodeId) (pending : PendingReadRound)
  : PendingReadRound :=
  if registered_sequence pending <=? sequence
  then pending <| round_acks :=
                    AcknowledgementSet_insert (round_acks pending) follower_id membership self_id |>
  else pending.

Definition acknowledge_read_barriers (n : Node) (follower_id : NodeId) (sequence : u64)
  : Node * list Output :=
  match pending_reads (leader n) with
  | [] => (n, [])
  | _ :: _ =>
      let membership := effective_membership n in
      let self_id := Node_id n in
      let rounds :=
        map (acknowledge_round follower_id sequence membership self_id) (pending_reads (leader n)) in
      let '(kept, outputs) := retain_unconfirmed rounds membership self_id in
      (n <| leader ; pending_reads := kept |>, outputs)
  end.
