(* ===== verification/Transfer.v ===== *)
(** * Leadership transfer

    Models [crates/rafter/src/node/transfer.rs] up to [handle_timeout_now],
    which the election file holds. *)

From stdpp Require Import base list sorting numbers option sets.
From S2P Require Import Prelude.
From S2P Require Import Types.
From S2P Require Import Snapshot.
From S2P Require Import Message.
From S2P Require Import MembershipIndex.
From S2P Require Import Progress.
From S2P Require Import Config.
From S2P Require Import NodeState.
From S2P Require Import Log.
From S2P Require Import View.
From S2P Require Import Commit.
From S2P Require Import Send.

Definition target_is_caught_up (n : Node) (target : NodeId) : bool :=
  default 0 (match_index <$> ProgressSet_get (progress (leader n)) target) =? last_log_index n.

Definition send_timeout_now (n : Node) (target : NodeId) : Node * list Output :=
  let n := n <| leader ; deposition_authorized := true |> in
  let n := n <| leader ; pending_transfer :=
               (fun transfer => transfer <| timeout_now_sent := true |>) <$>
                 pending_transfer (leader n) |> in
  (n, [Send target (MTimeoutNow {| tn_term := current_term (persistent n);
                                   tn_leader_id := Node_id n |})]).

Definition transfer_leadership (n : Node) (target : NodeId) : Node * list Output :=
  if negb (bool_decide (role (volatile n) = Leader)) then
    (n, [LeadershipTransferRejected target TransferNotLeader])
  else if target =? Node_id n then (n, [LeadershipTransferRejected target TargetIsSelf])
  else if negb (is_effective_voter n target) then
    (n, [LeadershipTransferRejected target TargetNotVoter])
  else if is_some (pending_transfer (leader n)) then
    (n, [LeadershipTransferRejected target TransferAlreadyInProgress])
  else
    let n := n <| leader ; pending_transfer :=
                 Some {| target := target;
                         ticks_remaining := election_timeout_ticks (config n);
                         timeout_now_sent := false |} |> in
    let '(n, canceled) := drain_pending_reads n (CancelLeadershipTransfer target) in
    if target_is_caught_up n target then
      let '(n, outputs) := send_timeout_now n target in (n, canceled ++ outputs)
    else
      let '(n, outputs) := replicate_to_follower n target EnsureContact in
      (n, canceled ++ outputs).

Definition tick_leadership_transfer (n : Node) : Node :=
  match pending_transfer (leader n) with
  | None => n
  | Some transfer =>
      let transfer := transfer <| ticks_remaining :=
                        u64_saturating_sub (ticks_remaining transfer) 1 |> in
      n <| leader ; pending_transfer :=
             if ticks_remaining transfer =? 0 then None else Some transfer |>
  end.

Definition maybe_complete_leadership_transfer (n : Node) (follower_id : NodeId)
  : Node * list Output :=
  match pending_transfer (leader n) with
  | None => (n, [])
  | Some transfer =>
      if timeout_now_sent transfer || negb (target transfer =? follower_id)
         || negb (target_is_caught_up n follower_id)
      then (n, [])
      else send_timeout_now n follower_id
  end.
