(* ===== verification/Election.v ===== *)
(** * Elections

    Models [crates/rafter/src/node/election.rs] (timeouts, pre-votes, votes)
    and [handle_timeout_now] of [node/transfer.rs]. *)

From stdpp Require Import base list sorting numbers option sets.
From S2P Require Import Prelude.
From S2P Require Import Types.
From S2P Require Import Snapshot.
From S2P Require Import Message.
From S2P Require Import Membership.
From S2P Require Import MembershipIndex.
From S2P Require Import Config.
From S2P Require Import NodeState.
From S2P Require Import Log.
From S2P Require Import View.
From S2P Require Import Commit.
From S2P Require Import Send.
From S2P Require Import ReadIndex.
From S2P Require Import Transfer.

(** The tuple comparison [(term1, index1) >= (term2, index2)]. *)
Definition log_pair_ge (term1 : Term) (index1 : LogIndex) (term2 : Term) (index2 : LogIndex)
  : bool :=
  (term2 <? term1) || ((term1 =? term2) && (index2 <=? index1)).

Definition other_voters (n : Node) : list NodeId :=
  filter_bool (fun voter => negb (voter =? Node_id n)) (voter_ids (effective_membership n)).

Definition effective_election_timeout (n : Node) : u64 :=
  let base := election_timeout_ticks (config n) in
  let jitter := election_jitter_ticks (config n) in
  if jitter =? 0 then base
  else
    let hash :=
      fold_left (fun hash value =>
                   fold_left (fun hash byte =>
                                u64_wrapping_mul (N.lxor hash byte) FNV_PRIME)
                     (to_be_bytes value) hash)
        [Node_id n; current_term (persistent n)] FNV_OFFSET_BASIS in
    let offset := if jitter =? u64_max then hash else hash mod (u64_add jitter 1) in
    u64_saturating_add base offset.

Definition lead (n : Node) : Node * list Output :=
  let '(n, outputs) := become_leader n in
  let '(n, sends) := broadcast_append_entries n in
  (n, outputs ++ sends).

Definition start_election (n : Node) : Node * list Output :=
  if negb (is_effective_voter n (Node_id n)) then
    (n <| election := reset_timeout (election n) |>, [])
  else
    match Term_checked_next (current_term (persistent n)) with
    | None => (n <| election := reset_timeout (election n) |>, [])
    | Some campaign_term =>
        let self_id := Node_id n in
        let n := n <| volatile ; role := Candidate |>
                   <| volatile ; leader_hint := None |>
                   <| persistent ; current_term := campaign_term |>
                   <| persistent ; voted_for := Some self_id |>
                   <| election := begin_election (election n) self_id |> in
        let request := {| rv_term := current_term (persistent n);
                          rv_candidate_id := Node_id n;
                          rv_last_log_index := last_log_index n;
                          rv_last_log_term := last_log_term n |} in
        let sends := map (fun to => Send to (MRequestVote request)) (other_voters n) in
        if has_effective_quorum n (votes (election n)) then
          let '(n, outputs) := lead n in (n, sends ++ outputs)
        else (n, sends)
    end.

Definition start_pre_vote_round (n : Node) : Node * list Output :=
  if negb (is_effective_voter n (Node_id n)) then
    (n <| election := reset_timeout (election n) |>, [])
  else
    match Term_checked_next (current_term (persistent n)) with
    | None => (n <| election := reset_timeout (election n) |>, [])
    | Some proposed_term =>
        let self_id := Node_id n in
        let n := n <| volatile ; role := PreCandidate |>
                   <| volatile ; leader_hint := None |>
                   <| election := begin_pre_vote (election n) self_id |> in
        let request := {| pv_term := proposed_term;
                          pv_candidate_id := Node_id n;
                          pv_last_log_index := last_log_index n;
                          pv_last_log_term := last_log_term n |} in
        let sends := map (fun to => Send to (MPreVote request)) (other_voters n) in
        if has_effective_quorum n (pre_votes (election n)) then
          let '(n, outputs) := start_election n in (n, sends ++ outputs)
        else (n, sends)
    end.

Definition tick (n : Node) : Node * list Output :=
  if bool_decide (role (volatile n) = Leader) then
    let n := n <| leader ; ticks := u64_add (ticks (leader n)) 1 |>
               <| leader ; heartbeat_elapsed :=
                    u64_saturating_add (heartbeat_elapsed (leader n)) 1 |> in
    let n := tick_read_lease n in
    let n := tick_leadership_transfer n in
    match tick_check_quorum n with
    | (n, Some outputs) => (n, outputs)
    | (n, None) =>
        if heartbeat_elapsed (leader n) <? heartbeat_interval_ticks (config n) then (n, [])
        else broadcast_append_entries n
    end
  else
    let '(election', elapsed') := advance_timeout (election n) in
    let n := n <| election := election' |> in
    if elapsed' <? effective_election_timeout n then (n, [])
    else if pre_vote (config n) then start_pre_vote_round n
    else start_election n.

Definition handle_request_vote (n : Node) (candidate_id : NodeId) (request : RequestVote)
  : Node * list Output :=
  let '(n, outputs) :=
    if current_term (persistent n) <? rv_term request then become_follower n (rv_term request)
    else (n, []) in
  let vote_granted :=
    (rv_term request =? current_term (persistent n))
    && contains_voter (effective_membership n) candidate_id
    && log_pair_ge (rv_last_log_term request) (rv_last_log_index request)
         (last_log_term n) (last_log_index n)
    && is_none_or (fun voted_for => voted_for =? candidate_id) (voted_for (persistent n)) in
  let n :=
    if vote_granted
    then n <| persistent ; voted_for := Some candidate_id |>
           <| election := reset_timeout (election n) |>
    else n in
  (n, outputs ++
      [Send candidate_id
         (MRequestVoteResponse {| rvr_term := current_term (persistent n);
                                  rvr_voter_id := Node_id n;
                                  rvr_vote_granted := vote_granted |})]).

Definition handle_request_vote_response (n : Node) (voter_id : NodeId)
    (response : RequestVoteResponse) : Node * list Output :=
  if current_term (persistent n) <? rvr_term response then become_follower n (rvr_term response)
  else if negb (bool_decide (role (volatile n) = Candidate))
          || negb (rvr_term response =? current_term (persistent n)) then (n, [])
  else if negb (is_effective_voter n (Node_id n)) then
    become_follower n (current_term (persistent n))
  else
    let n := if rvr_vote_granted response
             then n <| election := record_vote (election n) voter_id |> else n in
    if has_effective_quorum n (votes (election n)) then lead n else (n, []).

Definition handle_pre_vote (n : Node) (candidate_id : NodeId) (request : PreVote) : list Output :=
  let leader_believed_current :=
    is_some (leader_hint (volatile n))
    && (elapsed (election n) <? election_timeout_ticks (config n)) in
  let vote_granted :=
    (current_term (persistent n) <? pv_term request)
    && contains_voter (effective_membership n) candidate_id
    && log_pair_ge (pv_last_log_term request) (pv_last_log_index request)
         (last_log_term n) (last_log_index n)
    && negb leader_believed_current in
  let response_term := if vote_granted then pv_term request else current_term (persistent n) in
  [Send candidate_id
     (MPreVoteResponse {| pvr_term := response_term;
                          pvr_voter_id := Node_id n;
                          pvr_vote_granted := vote_granted |})].

Definition handle_pre_vote_response (n : Node) (voter_id : NodeId) (response : PreVoteResponse)
  : Node * list Output :=
  match Term_checked_next (current_term (persistent n)) with
  | None => (n, [])
  | Some proposed_term =>
      if proposed_term <? pvr_term response then become_follower n (pvr_term response)
      else if negb (pvr_vote_granted response)
              && (current_term (persistent n) <? pvr_term response) then
        become_follower n (pvr_term response)
      else if negb (bool_decide (role (volatile n) = PreCandidate))
              || negb (pvr_term response =? proposed_term) then (n, [])
      else
        let n := if pvr_vote_granted response
                 then n <| election := record_pre_vote (election n) voter_id |> else n in
        if has_effective_quorum n (pre_votes (election n)) then start_election n else (n, [])
  end.

Definition handle_timeout_now (n : Node) (term : Term) : Node * list Output :=
  if (term <? current_term (persistent n)) || negb (is_effective_voter n (Node_id n)) then (n, [])
  else
    let '(n, outputs) := become_follower n term in
    let '(n, campaign) := start_election n in
    (n, outputs ++ campaign).
