(* ===== verification/SnapshotTransfer.v ===== *)
(** * Snapshot transfer

    Models [crates/rafter/src/node/replication/snapshot/]: validation of chunk
    and snapshot requests, the follower's reassembly cursor, installation, the
    leader's handling of responses and the resumption of a staged transfer. *)

From stdpp Require Import base list sorting numbers option sets.
From S2P Require Import Prelude.
From S2P Require Import Types.
From S2P Require Import Snapshot.
From S2P Require Import Message.
From S2P Require Import MembershipIndex.
From S2P Require Import Progress.
From S2P Require Import Config.
From S2P Require Import NodeState.
From S2P Require Import Log.
From S2P Require Import View.
From S2P Require Import Commit.
From S2P Require Import Send.
From S2P Require Import ReadIndex.
From S2P Require Import Transfer.

(** ** Rejections and replies *)

Inductive SnapshotTransferHeaderRejection := HeaderInvalidMetadata | HeaderLeaderNotAuthorized.

Inductive SnapshotChunkRejection :=
| ChunkStaleTerm
| ChunkWrongTransfer
| ChunkMetadataMismatch
| ChunkLeaderNotAuthorized
| ChunkOutOfOrderOffset
| ChunkInvalidBounds.

Record SnapshotProgress := {
  sp_last_included_index : LogIndex;
  sp_transfer_id : option SnapshotTransferId;
  sp_next_offset : u64;
}.

Inductive SnapshotReply :=
| Accepted (progress : SnapshotProgress)
| Rejected (progress : SnapshotProgress).

Definition accepted_transfer (index : LogIndex) (id : SnapshotTransferId) (next_offset : u64)
  : SnapshotReply :=
  Accepted {| sp_last_included_index := index; sp_transfer_id := Some id;
              sp_next_offset := next_offset |}.

Definition rejected_current (index : LogIndex) : SnapshotReply :=
  Rejected {| sp_last_included_index := index; sp_transfer_id := None; sp_next_offset := 0 |}.

Definition rejected_transfer (index : LogIndex) (id : SnapshotTransferId) (next_offset : u64)
  : SnapshotReply :=
  Rejected {| sp_last_included_index := index; sp_transfer_id := Some id;
              sp_next_offset := next_offset |}.

Definition into_response (reply : SnapshotReply) (term : Term) (follower_id : NodeId)
  : InstallSnapshotResponse :=
  let '(success, progress) :=
    match reply with
    | Accepted progress => (true, progress)
    | Rejected progress => (false, progress)
    end in
  {| isr_term := term;
     isr_follower_id := follower_id;
     isr_success := success;
     isr_last_included_index := sp_last_included_index progress;
     isr_transfer_id := sp_transfer_id progress;
     isr_next_offset := sp_next_offset progress |}.

Definition snapshot_reply (n : Node) (leader_id : NodeId) (reply : SnapshotReply) : Output :=
  Send leader_id
    (MInstallSnapshotResponse
       (into_response reply (current_term (persistent n)) (Node_id n))).

#[export] Instance set_rej_stale_term : Setter rej_stale_term := fun v (r : SnapshotChunkRejectionCounters) =>
  {| rej_stale_term := v; rej_wrong_transfer := rej_wrong_transfer r;
     rej_metadata_mismatch := rej_metadata_mismatch r;
     rej_out_of_order_offset := rej_out_of_order_offset r;
     rej_invalid_bounds := rej_invalid_bounds r;
     rej_corrupt_persisted_pending_transfer := rej_corrupt_persisted_pending_transfer r |}.
#[export] Instance set_rej_wrong_transfer : Setter rej_wrong_transfer := fun v (r : SnapshotChunkRejectionCounters) =>
  {| rej_stale_term := rej_stale_term r; rej_wrong_transfer := v;
     rej_metadata_mismatch := rej_metadata_mismatch r;
     rej_out_of_order_offset := rej_out_of_order_offset r;
     rej_invalid_bounds := rej_invalid_bounds r;
     rej_corrupt_persisted_pending_transfer := rej_corrupt_persisted_pending_transfer r |}.
#[export] Instance set_rej_metadata_mismatch : Setter rej_metadata_mismatch := fun v (r : SnapshotChunkRejectionCounters) =>
  {| rej_stale_term := rej_stale_term r; rej_wrong_transfer := rej_wrong_transfer r;
     rej_metadata_mismatch := v; rej_out_of_order_offset := rej_out_of_order_offset r;
     rej_invalid_bounds := rej_invalid_bounds r;
     rej_corrupt_persisted_pending_transfer := rej_corrupt_persisted_pending_transfer r |}.
#[export] Instance set_rej_out_of_order_offset : Setter rej_out_of_order_offset := fun v (r : SnapshotChunkRejectionCounters) =>
  {| rej_stale_term := rej_stale_term r; rej_wrong_transfer := rej_wrong_transfer r;
     rej_metadata_mismatch := rej_metadata_mismatch r; rej_out_of_order_offset := v;
     rej_invalid_bounds := rej_invalid_bounds r;
     rej_corrupt_persisted_pending_transfer := rej_corrupt_persisted_pending_transfer r |}.
#[export] Instance set_rej_invalid_bounds : Setter rej_invalid_bounds := fun v (r : SnapshotChunkRejectionCounters) =>
  {| rej_stale_term := rej_stale_term r; rej_wrong_transfer := rej_wrong_transfer r;
     rej_metadata_mismatch := rej_metadata_mismatch r;
     rej_out_of_order_offset := rej_out_of_order_offset r; rej_invalid_bounds := v;
     rej_corrupt_persisted_pending_transfer := rej_corrupt_persisted_pending_transfer r |}.
#[export] Instance set_rej_corrupt_persisted_pending_transfer : Setter rej_corrupt_persisted_pending_transfer := fun v (r : SnapshotChunkRejectionCounters) =>
  {| rej_stale_term := rej_stale_term r; rej_wrong_transfer := rej_wrong_transfer r;
     rej_metadata_mismatch := rej_metadata_mismatch r;
     rej_out_of_order_offset := rej_out_of_order_offset r;
     rej_invalid_bounds := rej_invalid_bounds r; rej_corrupt_persisted_pending_transfer := v |}.

Definition record_snapshot_chunk_rejection (n : Node) (rejection : SnapshotChunkRejection)
  : Node :=
  let counters := snapshot_chunk_rejections (volatile n) in
  let counters :=
    match rejection with
    | ChunkStaleTerm => counters <| rej_stale_term := u64_add (rej_stale_term counters) 1 |>
    | ChunkWrongTransfer =>
        counters <| rej_wrong_transfer := u64_add (rej_wrong_transfer counters) 1 |>
    | ChunkMetadataMismatch | ChunkLeaderNotAuthorized =>
        counters <| rej_metadata_mismatch := u64_add (rej_metadata_mismatch counters) 1 |>
    | ChunkOutOfOrderOffset =>
        counters <| rej_out_of_order_offset := u64_add (rej_out_of_order_offset counters) 1 |>
    | ChunkInvalidBounds =>
        counters <| rej_invalid_bounds := u64_add (rej_invalid_bounds counters) 1 |>
    end in
  n <| volatile ; snapshot_chunk_rejections := counters |>.

(** ** Validation *)

Definition valid_snapshot_author (n : Node) (metadata : RaftSnapshotMetadata) : bool :=
  match metadata_committed_membership metadata with
  | Some membership => contains_replica membership (writer_id metadata)
  | None => contains_replica (static_membership (config n)) (writer_id metadata)
  end.

Definition valid_snapshot_metadata (n : Node) (metadata : RaftSnapshotMetadata) (term : Term)
  : bool :=
  (hard_state_term metadata <=? term) && valid_snapshot_author n metadata.

Definition valid_snapshot_transfer_leader (n : Node) (leader_id : NodeId)
    (metadata : RaftSnapshotMetadata) : bool :=
  is_some_and (fun membership => contains_replica membership leader_id)
    (metadata_committed_membership metadata)
  || contains_replica (effective_membership n) leader_id.

Definition validate_snapshot_transfer_header (n : Node) (leader_id : NodeId)
    (metadata : RaftSnapshotMetadata) (term : Term)
  : result unit SnapshotTransferHeaderRejection :=
  if negb (valid_snapshot_metadata n metadata term) then Err HeaderInvalidMetadata
  else if negb (valid_snapshot_transfer_leader n leader_id metadata)
  then Err HeaderLeaderNotAuthorized
  else Ok tt.

Definition validate_snapshot_chunk_shape (request : InstallSnapshotChunk)
  : result unit SnapshotChunkRejection :=
  let chunk_len := length_u64 (isc_chunk request) in
  match u64_checked_add (isc_offset request) chunk_len with
  | None => Err ChunkInvalidBounds
  | Some stop =>
      if (isc_total_payload_len request <? isc_offset request)
         || (isc_total_payload_len request <? stop)
      then Err ChunkInvalidBounds
      else if isc_done request then
        if stop =? isc_total_payload_len request then Ok tt else Err ChunkInvalidBounds
      else if (0 <? chunk_len) && (stop <? isc_total_payload_len request) then Ok tt
      else Err ChunkInvalidBounds
  end.

Definition validate_install_snapshot_chunk_header (n : Node) (leader_id : NodeId)
    (request : InstallSnapshotChunk) : result unit SnapshotChunkRejection :=
  let? _ :=
    map_err (fun rejection =>
               match rejection with
               | HeaderInvalidMetadata => ChunkMetadataMismatch
               | HeaderLeaderNotAuthorized => ChunkLeaderNotAuthorized
               end)
      (validate_snapshot_transfer_header n leader_id (isc_metadata request) (isc_term request)) in
  let expected_transfer_id :=
    snapshot_transfer_id_from_parts (isc_metadata request) (isc_total_payload_len request)
      (isc_application_payload_crc32 request) in
  if negb (isc_transfer_id request =? expected_transfer_id) then Err ChunkWrongTransfer
  else validate_snapshot_chunk_shape request.

(** ** The follower *)

Definition adopt_snapshot_term (n : Node) (term : Term) : Node * list Output :=
  if (current_term (persistent n) <? term) || negb (bool_decide (role (volatile n) = Follower))
  then become_follower n term else (n, []).

Definition record_accepted_snapshot_leader (n : Node) (leader_id : NodeId) : Node :=
  n <| election := reset_timeout (election n) |>
    <| volatile ; leader_hint := Some leader_id |>.

Definition snapshot_covered_through (n : Node) : LogIndex :=
  N.max (snapshot_index n) (commit_index (volatile n)).

Inductive ChunkDisposition :=
| AlreadyCovered (covered_through : LogIndex)
| Retransmission (next_offset : u64)
| OutOfOrder (expected_offset : u64)
| Accept (received_len : u64).

Definition replace_or_reject_snapshot_transfer (n : Node) (leader_id : NodeId)
    (request : InstallSnapshotChunk) : result Node SnapshotChunkRejection :=
  if isc_offset request =? 0 then
    Ok (n <| volatile ; incoming_snapshot :=
               Some (IncomingSnapshotTransfer_new leader_id (isc_transfer_id request)
                       (isc_metadata request) (isc_total_payload_len request)
                       (isc_application_payload_crc32 request)) |>)
  else
    match incoming_snapshot (volatile n) with
    | None => Err ChunkOutOfOrderOffset
    | Some transfer =>
        if negb (inc_leader_id transfer =? leader_id)
           || negb (inc_transfer_id transfer =? isc_transfer_id request)
        then Err ChunkWrongTransfer else Err ChunkMetadataMismatch
    end.

Definition transfer_matches (leader_id : NodeId) (request : InstallSnapshotChunk)
    (transfer : IncomingSnapshotTransfer) : bool :=
  (inc_leader_id transfer =? leader_id)
  && (inc_transfer_id transfer =? isc_transfer_id request)
  && bool_decide (inc_metadata transfer = isc_metadata request)
  && (inc_total_payload_len transfer =? isc_total_payload_len request)
  && (inc_application_payload_crc32 transfer =? isc_application_payload_crc32 request).

Definition prepare_incoming_snapshot_transfer (n : Node) (leader_id : NodeId)
    (request : InstallSnapshotChunk) : result (Node * u64) SnapshotChunkRejection :=
  let current_matches :=
    is_some_and (transfer_matches leader_id request) (incoming_snapshot (volatile n)) in
  let? n := if current_matches then Ok n
            else replace_or_reject_snapshot_transfer n leader_id request in
  match incoming_snapshot (volatile n) with
  | Some transfer => Ok (n, incoming_next_offset transfer)
  | None => Err ChunkWrongTransfer
  end.

Definition classify_snapshot_chunk (n : Node) (leader_id : NodeId) (request : InstallSnapshotChunk)
  : result (Node * ChunkDisposition) SnapshotChunkRejection :=
  let covered_through := snapshot_covered_through n in
  if last_included_index (isc_metadata request) <=? covered_through
  then Ok (n, AlreadyCovered covered_through)
  else
    let? (n, expected_offset) := prepare_incoming_snapshot_transfer n leader_id request in
    Ok (n, match isc_offset request ?= expected_offset with
           | Lt => Retransmission expected_offset
           | Gt => OutOfOrder expected_offset
           | Eq => Accept expected_offset
           end).

Definition stage_snapshot_chunk (leader_id : NodeId) (request : InstallSnapshotChunk) : Output :=
  StageSnapshotChunk
    {| ssc_leader_id := leader_id;
       ssc_transfer_id := isc_transfer_id request;
       ssc_metadata := isc_metadata request;
       ssc_total_payload_len := isc_total_payload_len request;
       ssc_application_payload_crc32 := isc_application_payload_crc32 request;
       ssc_offset := isc_offset request;
       ssc_bytes := isc_chunk request;
       ssc_done := isc_done request |}.

Definition acknowledge_covered_snapshot_chunk (n : Node) (leader_id : NodeId)
    (request : InstallSnapshotChunk) (covered_through : LogIndex) : Node * list Output :=
  let n :=
    if is_some_and (fun transfer => inc_transfer_id transfer =? isc_transfer_id request)
         (incoming_snapshot (volatile n))
    then n <| volatile ; incoming_snapshot := None |> else n in
  (n, [snapshot_reply n leader_id
         (accepted_transfer covered_through (isc_transfer_id request)
            (isc_total_payload_len request))]).

Definition reject_missing_snapshot_transfer (n : Node) (leader_id : NodeId)
    (transfer_id : SnapshotTransferId) (next_offset : u64) : Node * list Output :=
  let n := record_snapshot_chunk_rejection n ChunkWrongTransfer in
  (n, [snapshot_reply n leader_id (rejected_transfer (snapshot_index n) transfer_id next_offset)]).

Definition install_final_snapshot_chunk (n : Node) (leader_id : NodeId)
    (request : InstallSnapshotChunk) (received_len next_offset : u64) : Node * list Output :=
  match incoming_snapshot (volatile n) with
  | None => reject_missing_snapshot_transfer n leader_id (isc_transfer_id request) received_len
  | Some transfer =>
      let n := n <| volatile ; incoming_snapshot := None |> in
      let snapshot :=
        RaftSnapshot_new (inc_metadata transfer) (isc_total_payload_len request)
          (isc_application_payload_crc32 request) in
      let snapshot_index := last_included_index (metadata snapshot) in
      let '(n, outputs) := install_snapshot_state n snapshot in
      (n, outputs ++
          [stage_snapshot_chunk leader_id request;
           ApplySnapshot snapshot;
           snapshot_reply n leader_id
             (accepted_transfer snapshot_index (isc_transfer_id request) next_offset)])
  end.

Definition accept_current_snapshot_chunk (n : Node) (leader_id : NodeId)
    (request : InstallSnapshotChunk) (received_len : u64) : Node * list Output :=
  let next_offset := u64_add received_len (length_u64 (isc_chunk request)) in
  if isc_done request && negb (next_offset =? isc_total_payload_len request) then
    let n := record_snapshot_chunk_rejection n ChunkInvalidBounds in
    (n, [snapshot_reply n leader_id
           (rejected_transfer (snapshot_index n) (isc_transfer_id request) received_len)])
  else if isc_done request then
    install_final_snapshot_chunk n leader_id request received_len next_offset
  else
    match incoming_snapshot (volatile n) with
    | None => reject_missing_snapshot_transfer n leader_id (isc_transfer_id request) received_len
    | Some transfer =>
        let n := n <| volatile ; incoming_snapshot :=
                     Some (transfer <| inc_received_len := next_offset |>) |> in
        (n, [stage_snapshot_chunk leader_id request;
             snapshot_reply n leader_id
               (accepted_transfer (snapshot_index n) (inc_transfer_id transfer) next_offset)])
    end.

Definition handle_install_snapshot_chunk (n : Node) (leader_id : NodeId)
    (request : InstallSnapshotChunk) : Node * list Output :=
  if isc_term request <? current_term (persistent n) then
    let n := record_snapshot_chunk_rejection n ChunkStaleTerm in
    (n, [snapshot_reply n leader_id (rejected_current (snapshot_index n))])
  else
    let '(n, adopted) := adopt_snapshot_term n (isc_term request) in
    match validate_install_snapshot_chunk_header n leader_id request with
    | Err rejection =>
        let n := record_snapshot_chunk_rejection n rejection in
        (n, adopted ++ [snapshot_reply n leader_id (rejected_current (snapshot_index n))])
    | Ok _ =>
        let n := record_accepted_snapshot_leader n leader_id in
        match classify_snapshot_chunk n leader_id request with
        | Err rejection =>
            let n := record_snapshot_chunk_rejection n rejection in
            (n, adopted ++
                [snapshot_reply n leader_id
                   (rejected_transfer (snapshot_index n) (isc_transfer_id request) 0)])
        | Ok (n, AlreadyCovered covered_through) =>
            let '(n, outputs) :=
              acknowledge_covered_snapshot_chunk n leader_id request covered_through in
            (n, adopted ++ outputs)
        | Ok (n, Retransmission next_offset) =>
            (n, adopted ++
                [snapshot_reply n leader_id
                   (accepted_transfer (snapshot_index n) (isc_transfer_id request) next_offset)])
        | Ok (n, OutOfOrder expected_offset) =>
            let n := record_snapshot_chunk_rejection n ChunkOutOfOrderOffset in
            (n, adopted ++
                [snapshot_reply n leader_id
                   (rejected_transfer (snapshot_index n) (isc_transfer_id request)
                      expected_offset)])
        | Ok (n, Accept received_len) =>
            let '(n, outputs) := accept_current_snapshot_chunk n leader_id request received_len in
            (n, adopted ++ outputs)
        end
    end.

Definition install_whole_snapshot (n : Node) (leader_id : NodeId) (snapshot : RaftSnapshot)
    (application_payload : list u8) : Node * list Output :=
  let id := transfer_id snapshot in
  let snapshot_index := last_included_index (metadata snapshot) in
  let total_payload_len := application_payload_len snapshot in
  let '(n, outputs) := install_snapshot_state n snapshot in
  (n, outputs ++
      [StageSnapshotChunk
         {| ssc_leader_id := leader_id;
            ssc_transfer_id := id;
            ssc_metadata := metadata snapshot;
            ssc_total_payload_len := total_payload_len;
            ssc_application_payload_crc32 := application_payload_crc32 snapshot;
            ssc_offset := 0;
            ssc_bytes := application_payload;
            ssc_done := true |};
       ApplySnapshot snapshot;
       snapshot_reply n leader_id (accepted_transfer snapshot_index id total_payload_len)]).

Definition handle_install_snapshot (n : Node) (leader_id : NodeId) (request : InstallSnapshot)
  : Node * list Output :=
  if is_term request <? current_term (persistent n) then
    (n, [snapshot_reply n leader_id (rejected_current (snapshot_index n))])
  else
    let '(n, adopted) := adopt_snapshot_term n (is_term request) in
    let snapshot := from_payload (is_metadata request) (is_application_payload request) in
    match validate_snapshot_transfer_header n leader_id (metadata snapshot) (is_term request) with
    | Err _ => (n, adopted ++ [snapshot_reply n leader_id (rejected_current (snapshot_index n))])
    | Ok _ =>
        let n := record_accepted_snapshot_leader n leader_id in
        let n := n <| volatile ; incoming_snapshot := None |> in
        let covered_through := snapshot_covered_through n in
        if last_included_index (metadata snapshot) <=? covered_through then
          (n, adopted ++
              [snapshot_reply n leader_id
                 (accepted_transfer covered_through (transfer_id snapshot)
                    (application_payload_len snapshot))])
        else
          let '(n, outputs) :=
            install_whole_snapshot n leader_id snapshot (is_application_payload request) in
          (n, adopted ++ outputs)
    end.

(** ** The leader *)

(** The write through [reconcile_follower_progress_mut], [None] when the
    follower has no progress slot. *)
Definition update_follower_progress (n : Node) (follower_id : NodeId) (f : Progress -> Progress)
  : Node * bool :=
  let n := reconcile_replication_progress n in
  match ProgressSet_get (progress (leader n)) follower_id with
  | None => (n, false)
  | Some _ => (update_progress n follower_id f, true)
  end.

Definition handle_install_snapshot_response (n : Node) (follower_id : NodeId)
    (response : InstallSnapshotResponse) : Node * list Output :=
  if current_term (persistent n) <? isr_term response then become_follower n (isr_term response)
  else if negb (bool_decide (role (volatile n) = Leader))
          || negb (isr_term response =? current_term (persistent n)) then (n, [])
  else
    let n := record_quorum_ack n follower_id in
    let current_transfer := transfer_id <$> snapshot (persistent n) in
    if is_some_and (fun id => negb (bool_decide (current_transfer = Some id)))
         (isr_transfer_id response)
    then (n, [])
    else if isr_success response then
      match
        snapshot (persistent n) ≫= (fun snapshot =>
          if (isr_last_included_index response <? last_included_index (metadata snapshot))
             || (isr_next_offset response <? application_payload_len snapshot)
          then Some snapshot else None)
      with
      | Some snapshot =>
          let acked_offset :=
            if bool_decide (isr_transfer_id response = Some (transfer_id snapshot))
            then N.min (isr_next_offset response) (application_payload_len snapshot) else 0 in
          let '(n, found) :=
            update_follower_progress n follower_id (fun progress =>
              let current_offset :=
                match mode progress with SnapshotMode next_offset => next_offset | _ => 0 end in
              progress <| mode := SnapshotMode (N.max acked_offset current_offset) |>
                       <| inflights := Inflights_clear (inflights progress) |>
                       <| next_index := last_included_index (metadata snapshot) |>) in
          if found then replicate_to_follower n follower_id EnsureContact else (n, [])
      | None =>
          let reported_snapshot_index := N.min (isr_last_included_index response) (last_log_index n) in
          let '(n, found) :=
            update_follower_progress n follower_id (fun progress =>
              let progress :=
                progress <| match_index := N.max (match_index progress) reported_snapshot_index |> in
              let acknowledged := match_index progress in
              let progress := confirm_replicating progress in
              progress <| next_index := N.max (next_index progress) (LogIndex_next acknowledged) |>) in
          if negb found then (n, [])
          else
            let '(n, transferred) := maybe_complete_leadership_transfer n follower_id in
            let '(n, committed) := advance_commit_index n in
            let '(n, sends) := replicate_to_follower n follower_id ProgressOnly in
            (n, transferred ++ committed ++ sends)
      end
    else
      let rewound_offset :=
        (fun snapshot =>
           if bool_decide (isr_transfer_id response = Some (transfer_id snapshot))
           then N.min (isr_next_offset response) (application_payload_len snapshot) else 0)
          <$> snapshot (persistent n) in
      let snapshot_index := snapshot_index n in
      let '(n, found) :=
        update_follower_progress n follower_id (fun progress =>
          let progress :=
            match rewound_offset with
            | Some next_offset =>
                progress <| mode := SnapshotMode next_offset |>
                         <| inflights := Inflights_clear (inflights progress) |>
            | None => progress
            end in
          progress <| next_index := snapshot_index |>) in
      if found then replicate_to_follower n follower_id EnsureContact else (n, []).

(** ** Staged transfers across restarts *)

Inductive PendingSnapshotTransferResumeError :=
| ResumeLeaderNotAuthorized (leader_id : NodeId)
| ReceivedPayloadTooLong (received_bytes total_payload_len : u64)
| TransferIdMismatch (expected actual : SnapshotTransferId)
| ResumeInvalidMetadata
| StaleSnapshot (snapshot_index transfer_last_included_index : LogIndex)
| CompleteTransferNotInstalled (last_included_index : LogIndex).

Definition pending_snapshot_transfer (n : Node) : option PendingSnapshotTransfer :=
  to_pending <$> incoming_snapshot (volatile n).

Definition resume_pending_snapshot_transfer (n : Node) (transfer : PendingSnapshotTransfer)
  : result Node PendingSnapshotTransferResumeError :=
  if pst_total_payload_len transfer <? received_bytes transfer then
    Err (ReceivedPayloadTooLong (received_bytes transfer) (pst_total_payload_len transfer))
  else
    let expected_transfer_id :=
      snapshot_transfer_id_from_parts (pst_metadata transfer) (pst_total_payload_len transfer)
        (pst_application_payload_crc32 transfer) in
    if negb (pst_transfer_id transfer =? expected_transfer_id) then
      Err (TransferIdMismatch expected_transfer_id (pst_transfer_id transfer))
    else
      match validate_snapshot_transfer_header n (pst_leader_id transfer) (pst_metadata transfer)
              (current_term (persistent n)) with
      | Err HeaderInvalidMetadata => Err ResumeInvalidMetadata
      | Err HeaderLeaderNotAuthorized => Err (ResumeLeaderNotAuthorized (pst_leader_id transfer))
      | Ok _ =>
          if last_included_index (pst_metadata transfer) <=? snapshot_index n then
            Err (StaleSnapshot (snapshot_index n) (last_included_index (pst_metadata transfer)))
          else if is_complete transfer then
            Err (CompleteTransferNotInstalled (last_included_index (pst_metadata transfer)))
          else Ok (n <| volatile ; incoming_snapshot := Some (from_pending transfer) |>)
      end.
