(* ===== verification/Receive.v ===== *)
(** * Log replication: proposals, appends and responses

    Models [crates/rafter/src/node/replication/receive.rs] (the follower),
    [replication/response.rs] (the leader) and [replication/proposal.rs]. *)

From stdpp Require Import base list sorting numbers option sets.
From S2P Require Import Prelude.
From S2P Require Import Types.
From S2P Require Import Snapshot.
From S2P Require Import Message.
From S2P Require Import MembershipIndex.
From S2P Require Import Progress.
From S2P Require Import Config.
From S2P Require Import NodeState.
From S2P Require Import Log.
From S2P Require Import View.
From S2P Require Import Commit.
From S2P Require Import Send.
From S2P Require Import ReadIndex.
From S2P Require Import Transfer.
From S2P Require Import SnapshotTransfer.

(** ** The follower *)

Inductive AppendRejection :=
| CommittedEntryConflict (index : LogIndex)
| OverlappingConfigurationChanges.

Definition append_entries_response (n : Node) (leader_id : NodeId) (success : bool)
    (match_index : LogIndex) (sequence : u64) : Output :=
  Send leader_id
    (MAppendEntriesResponse
       {| aer_term := current_term (persistent n);
          aer_follower_id := Node_id n;
          aer_success := success;
          aer_match_index := match_index;
          aer_sequence := sequence |}).

Definition accept_append_entries (n : Node) (leader_id : NodeId) (match_index : LogIndex)
    (sequence : u64) : Output :=
  append_entries_response n leader_id true match_index sequence.

Definition reject_append_entries (n : Node) (leader_id : NodeId) (sequence : u64) : Output :=
  append_entries_response n leader_id false 0 sequence.

Definition request_match_index (prev_log_index : LogIndex) (entry_count : nat) : LogIndex :=
  u64_add prev_log_index (N.of_nat entry_count).

Definition confirmed_commit_index (n : Node) (request : AppendEntries) (match_index : LogIndex)
  : LogIndex :=
  N.max (commit_index (volatile n)) (N.min (ae_leader_commit request) match_index).

(** The scan for the first entry that the local log does not already hold. *)
Fixpoint find_divergence (n : Node) (prev_log_index : LogIndex) (offset : nat)
    (entries : list LogEntry) : result (option (nat * LogIndex)) AppendRejection :=
  match entries with
  | [] => Ok None
  | entry :: rest =>
      let index := u64_add (u64_add prev_log_index 1) (N.of_nat offset) in
      match term_at n index with
      | Some existing_term =>
          if existing_term =? entry_term entry
          then find_divergence n prev_log_index (S offset) rest
          else if index <=? commit_index (volatile n) then Err (CommittedEntryConflict index)
          else Ok (Some (offset, index))
      | None => Ok (Some (offset, index))
      end
  end.

(** The number of incoming configuration entries above the commit floor, and
    whether one of them belongs to the current term. *)
Definition incoming_configurations (n : Node) (first_index floor : LogIndex)
    (entries : list LogEntry) : nat * bool :=
  fold_left (fun '(count, current) '(offset, entry) =>
               let index := u64_add first_index (N.of_nat offset) in
               if (floor <? index) && is_configuration (entry_kind entry)
               then (S count, current || (entry_term entry =? current_term (persistent n)))
               else (count, current))
    (enumerate entries) (0%nat, false).

Definition splice_entries_after (n : Node) (prev_log_index : LogIndex) (entries : list LogEntry)
    (configuration_commit_floor : LogIndex) : result (Node * list Output) AppendRejection :=
  let? divergence := find_divergence n prev_log_index 0 entries in
  match divergence with
  | None => Ok (n, [])
  | Some (first_offset, first_index) =>
      let first_log_index := LogIndex_next (snapshot_index n) in
      let surviving_configurations :=
        count_between (configuration (derived n)) first_log_index configuration_commit_floor
          first_index in
      let '(incoming, introduces_current_term_configuration) :=
        incoming_configurations n first_index configuration_commit_floor
          (drop first_offset entries) in
      if introduces_current_term_configuration
         && (1 <? surviving_configurations + incoming)%nat
      then Err OverlappingConfigurationChanges
      else
        let '(n, outputs) :=
          if first_index <=? last_log_index n
          then truncate_from n first_index LogOverwritten else (n, []) in
        let n := fold_left append_log_entry (drop first_offset entries) n in
        Ok (n, outputs)
  end.

Definition handle_append_entries (n : Node) (leader_id : NodeId) (request : AppendEntries)
  : Node * list Output :=
  let sequence := ae_sequence request in
  if ae_term request <? current_term (persistent n) then
    (n, [reject_append_entries n leader_id sequence])
  else
    let '(n, adopted) :=
      if (current_term (persistent n) <? ae_term request)
         || negb (bool_decide (role (volatile n) = Follower))
      then become_follower n (ae_term request) else (n, []) in
    let n := n <| election := reset_timeout (election n) |>
               <| volatile ; leader_hint := Some leader_id |> in
    if negb (bool_decide (term_at n (ae_prev_log_index request) = Some (ae_prev_log_term request)))
    then (n, adopted ++ [reject_append_entries n leader_id sequence])
    else
      let match_index :=
        request_match_index (ae_prev_log_index request) (length (ae_entries request)) in
      let confirmed_commit_index := confirmed_commit_index n request match_index in
      match splice_entries_after n (ae_prev_log_index request) (ae_entries request)
              confirmed_commit_index with
      | Err _ => (n, adopted ++ [reject_append_entries n leader_id sequence])
      | Ok (n, spliced) =>
          let '(n, committed) :=
            if commit_index (volatile n) <? ae_leader_commit request
            then emit_committed_outputs (n <| volatile ; commit_index := confirmed_commit_index |>)
            else (n, []) in
          (n, adopted ++ spliced ++ committed ++
              [accept_append_entries n leader_id match_index sequence])
      end.

(** ** The leader *)

Definition successful_ack_can_advance_commit (old_match_index acknowledged commit_index : LogIndex)
  : bool :=
  (old_match_index <? acknowledged) && (commit_index <? acknowledged).

(** The progress of a follower that acknowledged [reported_match_index]. *)
Definition acknowledge_progress (snapshot_index reported_match_index : LogIndex)
    (progress : Progress) : Progress :=
  let progress :=
    progress <| match_index := N.max (match_index progress) reported_match_index |> in
  let acknowledged := match_index progress in
  let progress :=
    progress <| inflights := Inflights_free_through (inflights progress) acknowledged |> in
  let progress :=
    if match mode progress with SnapshotMode _ => snapshot_index <=? acknowledged | _ => true end
    then confirm_replicating progress else progress in
  progress <| next_index := N.max (next_index progress) (LogIndex_next acknowledged) |>.

Definition accept_append_response (n : Node) (follower_id : NodeId)
    (reported_match_index : LogIndex) : Node * list Output :=
  let snapshot_index := snapshot_index n in
  let reported_match_index := N.min reported_match_index (last_log_index n) in
  let commit_index := commit_index (volatile n) in
  let n := reconcile_replication_progress n in
  match ProgressSet_get (progress (leader n)) follower_id with
  | None => (n, [])
  | Some progress =>
      let old_match_index := match_index progress in
      let acknowledged := N.max (match_index progress) reported_match_index in
      let n := update_progress n follower_id
                 (acknowledge_progress snapshot_index reported_match_index) in
      let can_advance_commit :=
        successful_ack_can_advance_commit old_match_index acknowledged commit_index in
      let '(n, transferred) := maybe_complete_leadership_transfer n follower_id in
      let '(n, committed) :=
        if can_advance_commit then advance_commit_index_into n else (n, []) in
      let '(n, sends) := replicate_to_follower n follower_id ProgressOnly in
      (n, transferred ++ committed ++ sends)
  end.

Definition reject_append_response (n : Node) (follower_id : NodeId) : Node * list Output :=
  let snapshot_index := snapshot_index n in
  let '(n, found) :=
    update_follower_progress n follower_id (fun progress =>
      match mode progress with
      | SnapshotMode _ => progress
      | _ => collapse_into_probe progress snapshot_index
      end) in
  if found then replicate_to_follower n follower_id EnsureContact else (n, []).

Definition handle_append_entries_response (n : Node) (follower_id : NodeId)
    (response : AppendEntriesResponse) : Node * list Output :=
  if current_term (persistent n) <? aer_term response then become_follower n (aer_term response)
  else if negb (bool_decide (role (volatile n) = Leader))
          || negb (aer_term response =? current_term (persistent n)) then (n, [])
  else
    let n := record_quorum_ack n follower_id in
    let n := acknowledge_read_lease n follower_id (aer_sequence response) in
    let '(n, granted) := acknowledge_read_barriers n follower_id (aer_sequence response) in
    let '(n, outputs) :=
      if aer_success response then accept_append_response n follower_id (aer_match_index response)
      else reject_append_response n follower_id in
    (n, granted ++ outputs).

(** ** Proposals *)

Definition proposal_preflight_rejection (n : Node) (proposal : ClientProposalInput)
  : option Output :=
  if negb (bool_decide (role (volatile n) = Leader)) then
    Some (RejectProposal (cpi_proposal_id proposal)
            (ProposalNotLeader (role (volatile n)) (current_term (persistent n))
               (length_u64 (cpi_payload proposal))))
  else
    (fun transfer => RejectProposal (cpi_proposal_id proposal)
                       (ProposalLeadershipTransferInProgress (target transfer)))
      <$> pending_transfer (leader n).

Definition payload_too_large (n : Node) (proposal : ClientProposalInput) : bool :=
  max_append_entries_bytes (config n) <?
  application_replication_bytes (length_u64 (cpi_payload proposal)).

Definition reject_too_large (n : Node) (proposal : ClientProposalInput) : Output :=
  RejectProposal (cpi_proposal_id proposal)
    (PayloadTooLarge (length_u64 (cpi_payload proposal))
       (max_application_payload_len (max_append_entries_bytes (config n)))).

(** Appends an accepted proposal at [index] and starts tracking its id. *)
Definition append_proposal (n : Node) (term : Term) (index : LogIndex)
    (proposal : ClientProposalInput) : Node * list Output :=
  let n := append_log_entry n (LogEntry_application term (cpi_payload proposal)) in
  match cpi_proposal_id proposal with
  | Some id =>
      (n <| volatile ; local_proposals :=
              tracker_insert (local_proposals (volatile n)) index
                {| lp_term := term; lp_id := id |} |>,
       [LocalProposalAppended id index term])
  | None => (n, [])
  end.

(** What follows the appends of a proposal or of a batch. *)
Definition replicate_appended (n : Node) : Node * list Output :=
  let n := record_local_progress n in
  let '(n, committed) := advance_commit_index_into n in
  if bool_decide (role (volatile n) = Leader) then
    let '(n, sends) := broadcast_replication_into n ProgressOnly in (n, committed ++ sends)
  else (n, committed).

Definition step_client_proposal (n : Node) (proposal : ClientProposalInput) : Node * list Output :=
  match proposal_preflight_rejection n proposal with
  | Some rejection => (n, [rejection])
  | None =>
      if payload_too_large n proposal then (n, [reject_too_large n proposal])
      else
        let term := current_term (persistent n) in
        let index := LogIndex_next (last_log_index n) in
        let '(n, appended) := append_proposal n term index proposal in
        let '(n, outputs) := replicate_appended n in
        (n, appended ++ outputs)
  end.

Definition proposal_batch_preflight_rejection (n : Node) (proposals : list ClientProposalInput)
  : option (list Output) :=
  if negb (bool_decide (role (volatile n) = Leader)) then
    Some (map (fun proposal =>
                 RejectProposal (cpi_proposal_id proposal)
                   (ProposalNotLeader (role (volatile n)) (current_term (persistent n))
                      (length_u64 (cpi_payload proposal)))) proposals)
  else
    (fun transfer => map (fun proposal =>
                 RejectProposal (cpi_proposal_id proposal)
                   (ProposalLeadershipTransferInProgress (target transfer))) proposals)
      <$> pending_transfer (leader n).

(** The append loop of a batch: the node, the next index, whether a proposal
    was accepted, and the outputs. *)
Fixpoint append_batch (n : Node) (term : Term) (next_index : LogIndex) (accepted : bool)
    (proposals : list ClientProposalInput) : Node * bool * list Output :=
  match proposals with
  | [] => (n, accepted, [])
  | proposal :: rest =>
      if payload_too_large n proposal then
        let '(n', accepted, outputs) := append_batch n term next_index accepted rest in
        (n', accepted, reject_too_large n proposal :: outputs)
      else
        let '(n, appended) := append_proposal n term next_index proposal in
        let '(n, accepted, outputs) := append_batch n term (LogIndex_next next_index) true rest in
        (n, accepted, appended ++ outputs)
  end.

Definition step_proposal_batch (n : Node) (proposals : list ClientProposalInput)
  : Node * list Output :=
  match proposals with
  | [] => (n, [])
  | [proposal] => step_client_proposal n proposal
  | _ =>
      match proposal_batch_preflight_rejection n proposals with
      | Some rejection => (n, rejection)
      | None =>
          let term := current_term (persistent n) in
          let next_index := LogIndex_next (last_log_index n) in
          let '(n, accepted, outputs) := append_batch n term next_index false proposals in
          if negb accepted then (n, outputs)
          else
            let '(n, replicated) := replicate_appended n in
            (n, outputs ++ replicated)
      end
  end.
