(* ===== verification/MembershipChange.v ===== *)
(** * Configuration changes

    Models [crates/rafter/src/node/membership/change.rs] and
    [membership/validate.rs]: one uncommitted configuration at a time, joint
    consensus for voter changes, promotion barriers for new voters. *)

From stdpp Require Import base list sorting numbers option sets gmap.
From S2P Require Import Prelude.
From S2P Require Import Types.
From S2P Require Import Snapshot.
From S2P Require Import Message.
From S2P Require Import MembershipIndex.
From S2P Require Import Progress.
From S2P Require Import Config.
From S2P Require Import NodeState.
From S2P Require Import Log.
From S2P Require Import View.
From S2P Require Import Commit.
From S2P Require Import Send.

(** ** Validation *)

Definition validate_configuration_proposal_preflight (n : Node) : result unit ProposalRejection :=
  if negb (bool_decide (role (volatile n) = Leader)) then
    Err (ProposalNotLeader (role (volatile n)) (current_term (persistent n)) 0)
  else
    match pending_transfer (leader n) with
    | Some transfer => Err (ProposalLeadershipTransferInProgress (target transfer))
    | None =>
        match head (uncommitted_configuration_indexes n) with
        | Some index => Err (ConfigurationRejected (UncommittedConfiguration index))
        | None => Ok tt
        end
    end.

Definition stable_effective_membership (n : Node)
  : result MembershipSet ConfigurationProposalRejection :=
  match effective_membership n with
  | Stable membership => Ok membership
  | Joint _ => Err (StableConfigurationRequired PhaseJoint)
  end.

Definition next_configuration_id (n : Node) : ConfigurationId :=
  ConfigurationId_next
    (match effective_configuration_entry n with
     | Some entry => config_id entry
     | None =>
         match committed_configuration_state_at n (commit_index (volatile n)) with
         | Some state => cc_config_id state
         | None => 0
         end
     end).

Definition reject_proposal (proposal_id : option LocalProposalId) (reason : ProposalRejection)
  : list Output :=
  [RejectProposal proposal_id reason].

Definition reject_configuration (rejection : ConfigurationProposalRejection) : list Output :=
  reject_proposal None (ConfigurationRejected rejection).

(** The barriers by learner, or the duplicate. *)
Fixpoint collect_barriers (promotion_barriers : list PromotionBarrier)
    (barriers : gmap NodeId PromotionBarrier)
  : result (gmap NodeId PromotionBarrier) ConfigurationProposalRejection :=
  match promotion_barriers with
  | [] => Ok barriers
  | barrier :: rest =>
      if is_some (barriers !! learner_id barrier)
      then Err (DuplicatePromotionBarrier (learner_id barrier))
      else collect_barriers rest (<[learner_id barrier := barrier]> barriers)
  end.

(** The check of each new voter; returns the barriers used. *)
Fixpoint check_promotions (n : Node) (current_membership : MembershipConfig)
    (barriers : gmap NodeId PromotionBarrier) (new_voters used_barriers : list NodeId)
  : result (list NodeId) ConfigurationProposalRejection :=
  match new_voters with
  | [] => Ok used_barriers
  | promoted_node :: rest =>
      if contains_voter current_membership promoted_node
      then check_promotions n current_membership barriers rest used_barriers
      else if negb (contains_learner current_membership promoted_node)
      then Err (PromotionTargetNotLearner promoted_node)
      else
        match barriers !! promoted_node with
        | None => Err (MissingPromotionBarrier promoted_node)
        | Some barrier =>
            let used_barriers := btree_insert promoted_node used_barriers in
            if negb (required_match_index barrier =? commit_index (volatile n)) then
              Err (StalePromotionBarrier promoted_node (commit_index (volatile n))
                     (required_match_index barrier))
            else
              let actual_match_index :=
                default 0 (match_index <$> ProgressSet_get (progress (leader n)) promoted_node) in
              if actual_match_index <? required_match_index barrier then
                Err (PromotionBarrierNotReached promoted_node (required_match_index barrier)
                       actual_match_index)
              else check_promotions n current_membership barriers rest used_barriers
        end
  end.

Definition validate_configuration_promotion_barriers (n : Node)
    (configuration : ConfigurationEntry) (promotion_barriers : list PromotionBarrier)
  : result unit ConfigurationProposalRejection :=
  let? barriers := collect_barriers promotion_barriers ∅ in
  match configuration with
  | StableEntry _ _ =>
      match head promotion_barriers with
      | Some barrier => Err (UnusedPromotionBarrier (learner_id barrier))
      | None => Ok tt
      end
  | JointEntry _ membership =>
      let? used_barriers :=
        check_promotions n (effective_membership n) barriers
          (voters (new_membership membership)) [] in
      match find_first (fun barrier => negb (elem (learner_id barrier) used_barriers))
              promotion_barriers with
      | Some barrier => Err (UnusedPromotionBarrier (learner_id barrier))
      | None => Ok tt
      end
  end.

Definition validated_derived_membership (r : result MembershipSet MembershipValidationError)
  : result MembershipSet ConfigurationProposalRejection :=
  map_err InvalidMembership r.

Definition append_valid_configuration_proposal (n : Node) (configuration : ConfigurationEntry)
    (promotion_barriers : list PromotionBarrier) : Node * list Output :=
  match validate_configuration_promotion_barriers n configuration promotion_barriers with
  | Err rejection => (n, reject_configuration rejection)
  | Ok _ =>
      let entry := LogEntry_configuration (current_term (persistent n)) configuration in
      let n := append_log_entry n entry in
      let n := record_local_progress n in
      let '(n, committed) := advance_commit_index_into n in
      if bool_decide (role (volatile n) = Leader) then
        let '(n, sends) := broadcast_append_entries n in (n, committed ++ sends)
      else (n, committed)
  end.

(** ** Changes *)

(** A guarded change: the preflight, then the entry the change derives. *)
Definition propose_configuration (n : Node)
    (derive : result ConfigurationEntry ConfigurationProposalRejection)
    (promotion_barriers : list PromotionBarrier) : Node * list Output :=
  match validate_configuration_proposal_preflight n with
  | Err rejection => (n, reject_proposal None rejection)
  | Ok _ =>
      match derive with
      | Err rejection => (n, reject_configuration rejection)
      | Ok configuration => append_valid_configuration_proposal n configuration promotion_barriers
      end
  end.

Definition add_learner (n : Node) (learner_id : NodeId) : Node * list Output :=
  propose_configuration n
    (let? current_membership := stable_effective_membership n in
     if elem learner_id (voters current_membership) || elem learner_id (learners current_membership)
     then Err (NodeAlreadyMember learner_id)
     else
       let? membership :=
         validated_derived_membership
           (MembershipSet_new (voters current_membership)
              (learners current_membership ++ [learner_id])) in
       Ok (StableEntry (next_configuration_id n) membership)) [].

Definition promote_learner (n : Node) (learner_id : NodeId) (promotion_barrier : PromotionBarrier)
  : Node * list Output :=
  propose_configuration n
    (let? current_membership := stable_effective_membership n in
     if negb (elem learner_id (learners current_membership))
     then Err (PromotionTargetNotLearner learner_id)
     else
       let? target_membership :=
         validated_derived_membership
           (MembershipSet_new (voters current_membership ++ [learner_id])
              (filter_bool (fun node_id => negb (node_id =? learner_id))
                 (learners current_membership))) in
       Ok (JointEntry (next_configuration_id n)
             {| old := current_membership; new_membership := target_membership |}))
    [promotion_barrier].

Definition remove_voter (n : Node) (voter_id : NodeId) : Node * list Output :=
  propose_configuration n
    (let? current_membership := stable_effective_membership n in
     if negb (elem voter_id (voters current_membership)) then Err (VoterNotFound voter_id)
     else if (length (voters current_membership) =? 1)%nat then Err (CannotRemoveLastVoter voter_id)
     else
       let? target_membership :=
         validated_derived_membership
           (MembershipSet_new
              (filter_bool (fun node_id => negb (node_id =? voter_id)) (voters current_membership))
              (learners current_membership)) in
       Ok (JointEntry (next_configuration_id n)
             {| old := current_membership; new_membership := target_membership |})) [].

Definition enter_joint (n : Node) (target_membership : MembershipSet)
    (promotion_barriers : list PromotionBarrier) : Node * list Output :=
  propose_configuration n
    (let? current_membership := stable_effective_membership n in
     if bool_decide (target_membership = current_membership) then Err TargetMembershipUnchanged
     else
       Ok (JointEntry (next_configuration_id n)
             {| old := current_membership; new_membership := target_membership |}))
    promotion_barriers.

Definition leave_joint (n : Node) : Node * list Output :=
  propose_configuration n
    (match effective_membership n with
     | Joint joint => Ok (StableEntry (next_configuration_id n) (new_membership joint))
     | Stable _ => Err (JointConfigurationRequired PhaseStable)
     end) [].

Definition change_membership (n : Node) (target_membership : MembershipSet)
    (promotion_barriers : list PromotionBarrier) : Node * list Output :=
  propose_configuration n
    (match effective_membership n with
     | Stable current_membership =>
         if bool_decide (target_membership = current_membership) then Err TargetMembershipUnchanged
         else if bool_decide (voters target_membership = voters current_membership)
         then Ok (StableEntry (next_configuration_id n) target_membership)
         else Ok (JointEntry (next_configuration_id n)
                    {| old := current_membership; new_membership := target_membership |})
     | Joint joint =>
         if bool_decide (target_membership = new_membership joint)
         then Ok (StableEntry (next_configuration_id n) target_membership)
         else Err TargetMembershipDoesNotMatchJointNewSide
     end) promotion_barriers.

Definition dangerous_raw_configuration_proposal (n : Node) (configuration : ConfigurationEntry)
    (promotion_barriers : list PromotionBarrier) : Node * list Output :=
  propose_configuration n (Ok configuration) promotion_barriers.
