(* ===== verification/LocalSnapshot.v ===== *)
(** * Local snapshots

    Models the locally produced snapshot path of [crates/rafter/src/node/log.rs]
    ([check_local_snapshot], [install_local_snapshot]) and
    [node/local_snapshot.rs]: the boundary checks, the compaction of the log
    and the entries it retires. *)

From stdpp Require Import base list sorting numbers option sets.
From S2P Require Import Prelude.
From S2P Require Import Types.
From S2P Require Import Snapshot.
From S2P Require Import Message.
From S2P Require Import NodeState.
From S2P Require Import Log.
From S2P Require Import View.

Inductive LocalSnapshotInstallError :=
| BoundaryBelowInstalledSnapshot (snapshot_index installed_index : LogIndex)
| BoundaryAheadOfCommit (snapshot_index commit_index : LogIndex)
| BoundaryAheadOfApplied (snapshot_index applied_index : LogIndex)
| BoundaryTermMismatch (snapshot_index : LogIndex) (snapshot_term : Term)
    (local_term : option Term)
| CommittedMembershipMismatch (snapshot_index : LogIndex) (expected actual : MembershipConfig)
| CommittedConfigurationMismatch (snapshot_index : LogIndex)
    (expected actual : option CommittedConfiguration)
| WriterNotBoundaryReplica (snapshot_index : LogIndex) (writer_id : NodeId)
    (membership : MembershipConfig).

Definition check_local_snapshot (n : Node) (snapshot' : RaftSnapshot)
  : result (option CommittedConfiguration) LocalSnapshotInstallError :=
  let boundary := last_included_index (metadata snapshot') in
  let installed_index := snapshot_index n in
  let commit := commit_index (volatile n) in
  let dispatched := dispatched_index (volatile n) in
  let snapshot_term := last_included_term (metadata snapshot') in
  let local_term := term_at n boundary in
  if boundary <? installed_index then
    Err (BoundaryBelowInstalledSnapshot boundary installed_index)
  else if commit <? boundary then Err (BoundaryAheadOfCommit boundary commit)
  else if dispatched <? boundary then Err (BoundaryAheadOfApplied boundary dispatched)
  else if negb (bool_decide (local_term = Some snapshot_term)) then
    Err (BoundaryTermMismatch boundary snapshot_term local_term)
  else
    let committed_configuration := committed_configuration_state_at n boundary in
    let boundary_membership := membership_at_index n boundary in
    let? _ :=
      match metadata_committed_configuration (metadata snapshot') with
      | None => Ok tt
      | Some declared =>
          if negb (bool_decide (scc_membership declared = boundary_membership)) then
            Err (CommittedMembershipMismatch boundary boundary_membership (scc_membership declared))
          else if negb (bool_decide (scc_configuration declared = committed_configuration)) then
            Err (CommittedConfigurationMismatch boundary committed_configuration
                   (scc_configuration declared))
          else Ok tt
      end in
    let writer_id := writer_id (metadata snapshot') in
    if negb (contains_replica boundary_membership writer_id) then
      Err (WriterNotBoundaryReplica boundary writer_id boundary_membership)
    else Ok committed_configuration.

Definition finish_local_snapshot_install (n : Node) (snapshot' : RaftSnapshot)
    (committed : option CommittedConfiguration) (retired_len : nat) : Node * list Output :=
  reconcile_local_proposals
    (n <| volatile ; incoming_snapshot := None |>
       <| derived ; configuration := compact_prefix (configuration (derived n)) retired_len |>
       <| persistent ; snapshot := Some snapshot' |>
       <| persistent ; committed_configuration := committed |>).

Definition install_local_snapshot_state_with_committed_configuration (n : Node)
    (snapshot' : RaftSnapshot) (committed : option CommittedConfiguration) (retired_len : nat)
  : Node * list Output :=
  finish_local_snapshot_install
    (n <| persistent ; log := drop retired_len (log (persistent n)) |>)
    snapshot' committed retired_len.

(** The entries a compaction removed from the log, kept for a later drop. *)
Abbreviation RetiredLogEntries := (list LogEntry) (only parsing).

Definition payload_bytes (retired : RetiredLogEntries) : usize :=
  fold_left (fun total entry =>
               u64_saturating_add total
                 (match application_payload entry with
                  | Some payload => length_u64 payload
                  | None => 0
                  end)) retired 0.

Definition install_local_snapshot_state_deferred_drop (n : Node)
    (snapshot' : RaftSnapshot) (committed : option CommittedConfiguration) (retired_len : nat)
  : Node * list Output * RetiredLogEntries :=
  let '(n, retired) :=
    if (retired_len =? 0)%nat then (n, [])
    else (n <| persistent ; log := drop retired_len (log (persistent n)) |>,
          take retired_len (log (persistent n))) in
  let '(n, outputs) := finish_local_snapshot_install n snapshot' committed retired_len in
  (n, outputs, retired).

(** A prepared installation holds the checked snapshot, the configuration
    derived for its boundary and the number of entries to retire. *)
Record PreparedLocalSnapshotInstall := {
  prepared_snapshot : RaftSnapshot;
  prepared_committed_configuration : option CommittedConfiguration;
  prepared_retired_len : nat;
}.

Definition prepare_local_snapshot_install (n : Node) (snapshot' : RaftSnapshot)
  : result PreparedLocalSnapshotInstall LocalSnapshotInstallError :=
  let? committed := check_local_snapshot n snapshot' in
  let boundary_index := last_included_index (metadata snapshot') in
  let installed_index := snapshot_index n in
  match u64_checked_sub boundary_index installed_index with
  | None => Err (BoundaryBelowInstalledSnapshot boundary_index installed_index)
  | Some retired_delta =>
      Ok {| prepared_snapshot := snapshot';
            prepared_committed_configuration := committed;
            prepared_retired_len := retained_log_offset retired_delta |}
  end.

Definition prepared_commit (n : Node) (prepared : PreparedLocalSnapshotInstall)
  : Node * list Output :=
  install_local_snapshot_state_with_committed_configuration n (prepared_snapshot prepared)
    (prepared_committed_configuration prepared) (prepared_retired_len prepared).

Definition commit_with_retired_entries (n : Node) (prepared : PreparedLocalSnapshotInstall)
  : Node * list Output * RetiredLogEntries :=
  install_local_snapshot_state_deferred_drop n (prepared_snapshot prepared)
    (prepared_committed_configuration prepared) (prepared_retired_len prepared).

Definition install_local_snapshot (n : Node) (snapshot' : RaftSnapshot)
  : result (Node * list Output) LocalSnapshotInstallError :=
  let? prepared := prepare_local_snapshot_install n snapshot' in
  Ok (prepared_commit n prepared).
