(* ===== verification/Dispatch.v ===== *)
(** * Dispatch

    Models [crates/rafter/src/node/dispatch.rs]: the transition function of a
    node, its batching variant and the message demultiplexer. *)

From stdpp Require Import base list sorting numbers option sets.
From S2P Require Import Prelude.
From S2P Require Import Types.
From S2P Require Import Snapshot.
From S2P Require Import Message.
From S2P Require Import NodeState.
From S2P Require Import Log.
From S2P Require Import ReadIndex.
From S2P Require Import Transfer.
From S2P Require Import Election.
From S2P Require Import SnapshotTransfer.
From S2P Require Import Receive.
From S2P Require Import MembershipChange.

Definition receive (n : Node) (from : NodeId) (message : Message) : Node * list Output :=
  if negb (message_sender_matches from message) then (n, [])
  else
    match message with
    | MAppendEntries request => handle_append_entries n from request
    | MAppendEntriesResponse response => handle_append_entries_response n from response
    | MInstallSnapshot request => handle_install_snapshot n from request
    | MInstallSnapshotChunk request => handle_install_snapshot_chunk n from request
    | MInstallSnapshotResponse response => handle_install_snapshot_response n from response
    | MPreVote request => (n, handle_pre_vote n from request)
    | MPreVoteResponse response => handle_pre_vote_response n from response
    | MTimeoutNow request => handle_timeout_now n (tn_term request)
    | MRequestVote request => handle_request_vote n from request
    | MRequestVoteResponse response => handle_request_vote_response n from response
    end.

Definition step (n : Node) (input : Input) : Node * list Output :=
  match input with
  | Tick => tick n
  | InputMessage from message => receive n from message
  | ClientProposal payload =>
      step_client_proposal n {| cpi_proposal_id := None; cpi_payload := payload |}
  | TrackedClientProposal proposal_id payload =>
      step_client_proposal n {| cpi_proposal_id := Some proposal_id; cpi_payload := payload |}
  | AddLearner learner_id => add_learner n learner_id
  | PromoteLearner learner_id promotion_barrier => promote_learner n learner_id promotion_barrier
  | RemoveVoter voter_id => remove_voter n voter_id
  | EnterJoint target promotion_barriers => enter_joint n target promotion_barriers
  | LeaveJoint => leave_joint n
  | ChangeMembership target promotion_barriers => change_membership n target promotion_barriers
  | DangerousRawConfigurationProposal configuration promotion_barriers =>
      dangerous_raw_configuration_proposal n configuration promotion_barriers
  | TransferLeadership target => transfer_leadership n target
  | ReadIndex read_id => handle_read_index n read_id
  end.

(** ** Batches *)

Inductive PendingBatch :=
| Empty
| Proposals (proposals : list ClientProposalInput)
| Reads (reads : list ReadId).

Definition flush (pending : PendingBatch) (n : Node) : Node * list Output :=
  match pending with
  | Empty => (n, [])
  | Proposals proposals => step_proposal_batch n proposals
  | Reads reads => read_index_batch n reads
  end.

Definition push_proposal (pending : PendingBatch) (n : Node) (proposal : ClientProposalInput)
  : PendingBatch * Node * list Output :=
  match pending with
  | Empty => (Proposals [proposal], n, [])
  | Proposals proposals => (Proposals (proposals ++ [proposal]), n, [])
  | Reads reads =>
      let '(n, outputs) := read_index_batch n reads in (Proposals [proposal], n, outputs)
  end.

Definition push_read (pending : PendingBatch) (n : Node) (read_id : ReadId)
  : PendingBatch * Node * list Output :=
  match pending with
  | Empty => (Reads [read_id], n, [])
  | Reads reads => (Reads (reads ++ [read_id]), n, [])
  | Proposals proposals =>
      let '(n, outputs) := step_proposal_batch n proposals in (Reads [read_id], n, outputs)
  end.

Definition batch_accept (pending : PendingBatch) (n : Node) (input : Input)
  : PendingBatch * Node * list Output :=
  match input with
  | ClientProposal payload =>
      push_proposal pending n {| cpi_proposal_id := None; cpi_payload := payload |}
  | TrackedClientProposal proposal_id payload =>
      push_proposal pending n {| cpi_proposal_id := Some proposal_id; cpi_payload := payload |}
  | ReadIndex read_id => push_read pending n read_id
  | input =>
      let '(n, flushed) := flush pending n in
      let '(n, outputs) := step n input in
      (Empty, n, flushed ++ outputs)
  end.

Fixpoint batch_loop (pending : PendingBatch) (n : Node) (inputs : list Input)
  : Node * list Output :=
  match inputs with
  | [] => flush pending n
  | input :: rest =>
      let '(pending, n, outputs) := batch_accept pending n input in
      let '(n, more) := batch_loop pending n rest in
      (n, outputs ++ more)
  end.

Definition step_batch (n : Node) (inputs : list Input) : Node * list Output :=
  match inputs with
  | [] => (n, [])
  | [input] => step n input
  | _ => batch_loop Empty n inputs
  end.
