(* ===== verification/Bootstrap.v ===== *)
(** * Construction and recovery

    Models [crates/rafter/src/node/construction.rs] and [node/bootstrap/]: a
    fresh node, and a node rebuilt from a durable image after validation. *)

From stdpp Require Import base list sorting numbers option sets.
From S2P Require Import Prelude.
From S2P Require Import Types.
From S2P Require Import Snapshot.
From S2P Require Import Message.
From S2P Require Import Config.
From S2P Require Import NodeState.
From S2P Require Import Log.
From S2P Require Import View.

Record BootstrapLogEntry := {
  ble_index : LogIndex;
  ble_term : Term;
  ble_kind : LogEntryKind;
}.

Record BootstrapState := {
  bs_current_term : Term;
  bs_voted_for : option NodeId;
  bs_commit_index : LogIndex;
  bs_committed_configuration : option CommittedConfiguration;
  bs_snapshot : option RaftSnapshot;
  bs_log : list BootstrapLogEntry;
}.

Record BootstrapParts := {
  bp_current_term : Term;
  bp_voted_for : option NodeId;
  bp_commit_index : LogIndex;
  bp_committed_configuration : option CommittedConfiguration;
  bp_snapshot : option RaftSnapshot;
  bp_log : list LogEntry;
}.

Inductive BootstrapValidationError :=
| VoteForNonVoter (voted_for : NodeId)
| VoteInZeroTerm (voted_for : NodeId)
| AppliedFloorBeyondLog (applied_through last_log_index : LogIndex)
| AppliedFloorBeyondCommit (applied_through commit_index : LogIndex)
| NonContiguousLog (expected actual : LogIndex)
| ZeroTermLogEntry (index : LogIndex)
| EntryTermAheadOfCurrentTerm (index : LogIndex) (entry_term current_term : Term)
| SnapshotWriterNotReplica (writer_id : NodeId)
| SnapshotHardStateTermAheadOfCurrentTerm (snapshot_hard_state_term current_term : Term)
| CompactedLogEntry (snapshot_index entry_index : LogIndex)
| SnapshotBoundaryTermMismatch (index : LogIndex) (snapshot_term entry_term : Term)
| MultipleUncommittedConfigurationEntries (first_index second_index : LogIndex)
| CommitIndexBeyondLog (commit_index last_log_index : LogIndex)
| CommittedConfigurationAheadOfCommit (committed_configuration_index commit_index : LogIndex)
| CommittedConfigurationMissing (committed_configuration_index : LogIndex)
| CommittedConfigurationIdMismatch (index : LogIndex) (expected actual : ConfigurationId)
| CommittedConfigurationNotLatest (recorded_index latest_index : LogIndex)
| CompactedCommittedConfigurationWithoutSnapshotMembership
    (committed_configuration_index : LogIndex)
| LogIndexAtMaximum (index : LogIndex).

(** ** Vote and snapshot *)

Definition validate_vote (s : BootstrapState) : result unit BootstrapValidationError :=
  match bs_voted_for s with
  | None => Ok tt
  | Some voted_for =>
      if Term_is_zero (bs_current_term s) then Err (VoteInZeroTerm voted_for) else Ok tt
  end.

Definition snapshot_writer_is_replica (metadata : RaftSnapshotMetadata) (config : NodeConfig)
  : bool :=
  match metadata_committed_membership metadata with
  | Some membership => contains_replica membership (writer_id metadata)
  | None => contains_replica (static_membership config) (writer_id metadata)
  end.

Definition validate_snapshot (s : BootstrapState) (config : NodeConfig)
  : result unit BootstrapValidationError :=
  match bs_snapshot s with
  | None => Ok tt
  | Some snapshot =>
      let metadata := metadata snapshot in
      if bs_current_term s <? hard_state_term metadata then
        Err (SnapshotHardStateTermAheadOfCurrentTerm (hard_state_term metadata) (bs_current_term s))
      else if snapshot_writer_is_replica metadata config then Ok tt
      else Err (SnapshotWriterNotReplica (writer_id metadata))
  end.

(** ** Configuration recovery *)

Definition validate_floor (state : CommittedConfiguration) (floor : LogIndex)
  : result unit BootstrapValidationError :=
  if floor <? cc_index state
  then Err (CommittedConfigurationAheadOfCommit (cc_index state) floor) else Ok tt.

Definition validate_identity (expected actual : CommittedConfiguration)
  : result unit BootstrapValidationError :=
  if (cc_index expected =? cc_index actual)
     && negb (cc_config_id expected =? cc_config_id actual)
  then Err (CommittedConfigurationIdMismatch (cc_index expected) (cc_config_id expected)
              (cc_config_id actual))
  else Ok tt.

Definition missing (state : CommittedConfiguration) : BootstrapValidationError :=
  CommittedConfigurationMissing (cc_index state).

Definition metadata_index (snapshot : option RaftSnapshotMetadata) : LogIndex :=
  match snapshot with Some metadata => last_included_index metadata | None => 0 end.

(** The loop over the recorded identities at the boundary entry. *)
Fixpoint validate_boundary_identities (entry : BootstrapLogEntry)
    (expected : list CommittedConfiguration) : result unit BootstrapValidationError :=
  match expected with
  | [] => Ok tt
  | state :: rest =>
      if negb (cc_index state =? ble_index entry) then validate_boundary_identities entry rest
      else
        match ble_kind entry with
        | Configuration actual =>
            let? _ := validate_identity state {| cc_index := ble_index entry;
                                                 cc_config_id := config_id actual |} in
            validate_boundary_identities entry rest
        | _ => Err (missing state)
        end
  end.

Definition validate_boundary_configuration (entry : BootstrapLogEntry)
    (snapshot : RaftSnapshotMetadata) (stored : option CommittedConfiguration)
  : result unit BootstrapValidationError :=
  validate_boundary_identities entry
    (omap (fun state => state) [stored; metadata_committed_configuration_state snapshot]).

Definition recover_configuration (stored : option CommittedConfiguration)
    (snapshot : option RaftSnapshotMetadata) (log : list LogEntry) (commit_index : LogIndex)
  : result (option CommittedConfiguration) BootstrapValidationError :=
  let snapshot_index := metadata_index snapshot in
  let captured := snapshot ≫= metadata_committed_configuration_state in
  let? _ :=
    match captured with
    | Some captured => validate_floor captured snapshot_index
    | None => Ok tt
    end in
  let? _ :=
    match stored with
    | None => Ok tt
    | Some stored =>
        let? _ := validate_floor stored commit_index in
        if snapshot_index <? cc_index stored then
          match log !! N.to_nat (u64_sub (u64_sub (cc_index stored) snapshot_index) 1)
                  ≫= configuration_entry with
          | None => Err (missing stored)
          | Some entry =>
              validate_identity stored {| cc_index := cc_index stored;
                                          cc_config_id := config_id entry |}
          end
        else if is_none (snapshot ≫= metadata_committed_membership) then
          Err (CompactedCommittedConfigurationWithoutSnapshotMembership (cc_index stored))
        else
          match captured with
          | None => Ok tt
          | Some captured =>
              if cc_index captured <? cc_index stored then Err (missing stored)
              else validate_identity stored captured
          end
    end in
  let retained :=
    find_map (fun '(offset, entry) =>
                let index := u64_add (u64_add snapshot_index (N.of_nat offset)) 1 in
                if index <=? commit_index
                then (fun entry => {| cc_index := index; cc_config_id := config_id entry |}) <$>
                       configuration_entry entry
                else None) (reverse (enumerate log)) in
  Ok (max_by_index (omap (fun state => state) [stored; captured; retained])).

(** ** Log validation *)

Record LogValidation := {
  lv_expected_index : LogIndex;
  lv_last_log_index : LogIndex;
  lv_materialized_log : list LogEntry;
}.

Section log_validation.
Context (snapshot : option RaftSnapshotMetadata) (current_term : Term)
        (stored_commit_index : LogIndex) (stored : option CommittedConfiguration).

Definition LogValidation_new : LogValidation := {|
  lv_expected_index := LogIndex_next (metadata_index snapshot);
  lv_last_log_index := metadata_index snapshot;
  lv_materialized_log := [];
|}.

Definition validate_boundary_entry (entry : BootstrapLogEntry) (metadata : RaftSnapshotMetadata)
  : result unit BootstrapValidationError :=
  if ble_term entry =? last_included_term metadata then Ok tt
  else Err (SnapshotBoundaryTermMismatch (ble_index entry) (last_included_term metadata)
              (ble_term entry)).

Definition validate_retained_entry (v : LogValidation) (entry : BootstrapLogEntry)
  : result unit BootstrapValidationError :=
  if negb (ble_index entry =? lv_expected_index v) then
    Err (NonContiguousLog (lv_expected_index v) (ble_index entry))
  else if Term_is_zero (ble_term entry) then Err (ZeroTermLogEntry (ble_index entry))
  else if current_term <? ble_term entry then
    Err (EntryTermAheadOfCurrentTerm (ble_index entry) (ble_term entry) current_term)
  else
    match u64_checked_add (ble_index entry) 1 with
    | None => Err (LogIndexAtMaximum (ble_index entry))
    | Some _ => Ok tt
    end.

Definition retain_entry (v : LogValidation) (entry : BootstrapLogEntry)
  : result LogValidation BootstrapValidationError :=
  let? _ := validate_retained_entry v entry in
  Ok {| lv_expected_index := LogIndex_next (ble_index entry);
        lv_last_log_index := ble_index entry;
        lv_materialized_log :=
          lv_materialized_log v ++ [{| entry_term := ble_term entry;
                                       entry_kind := ble_kind entry |}] |}.

Definition LogValidation_accept (v : LogValidation) (entry : BootstrapLogEntry)
  : result LogValidation BootstrapValidationError :=
  let snapshot_index := metadata_index snapshot in
  if ble_index entry <? snapshot_index then
    Err (CompactedLogEntry snapshot_index (ble_index entry))
  else
    match snapshot with
    | Some metadata =>
        if ble_index entry =? snapshot_index then
          let? _ := validate_boundary_entry entry metadata in
          let? _ := validate_boundary_configuration entry metadata stored in
          Ok v
        else retain_entry v entry
    | None => retain_entry v entry
    end.

Fixpoint accept_all (v : LogValidation) (entries : list BootstrapLogEntry)
  : result LogValidation BootstrapValidationError :=
  match entries with
  | [] => Ok v
  | entry :: rest => let? v := LogValidation_accept v entry in accept_all v rest
  end.

Definition validate_log (entries : list BootstrapLogEntry)
  : result (list LogEntry) BootstrapValidationError :=
  let? v := accept_all LogValidation_new entries in
  let commit_index := N.max stored_commit_index (metadata_index snapshot) in
  if lv_last_log_index v <? commit_index
  then Err (CommitIndexBeyondLog commit_index (lv_last_log_index v))
  else Ok (lv_materialized_log v).
End log_validation.

(** ** Construction *)

Definition into_parts (s : BootstrapState) (config : NodeConfig)
  : result BootstrapParts BootstrapValidationError :=
  let? _ := validate_vote s in
  let? _ := validate_snapshot s config in
  let metadata := metadata <$> bs_snapshot s in
  let? log := validate_log metadata (bs_current_term s) (bs_commit_index s)
                (bs_committed_configuration s) (bs_log s) in
  let commit_index := N.max (bs_commit_index s) (metadata_index metadata) in
  let? committed := recover_configuration (bs_committed_configuration s) metadata log commit_index in
  Ok {| bp_current_term := bs_current_term s;
        bp_voted_for := bs_voted_for s;
        bp_commit_index := commit_index;
        bp_committed_configuration := committed;
        bp_snapshot := bs_snapshot s;
        bp_log := log |}.

Definition Node_new (config : NodeConfig) : Node := {|
  config := config;
  persistent := PersistentState_default;
  volatile := VolatileState_default;
  election := ElectionState_default;
  leader := LeaderState_default;
  derived := DerivedState_default;
|}.

Definition from_bootstrap (config : NodeConfig) (bootstrap : BootstrapState)
  : result Node BootstrapValidationError :=
  let? parts := into_parts bootstrap config in
  let dispatched := metadata_index (metadata <$> bp_snapshot parts) in
  let persistent := {|
    current_term := bp_current_term parts;
    voted_for := bp_voted_for parts;
    committed_configuration := bp_committed_configuration parts;
    snapshot := bp_snapshot parts;
    log := bp_log parts;
  |} in
  Ok {| config := config;
        persistent := persistent;
        volatile := (at_dispatched_index dispatched) <| commit_index := bp_commit_index parts |>;
        election := ElectionState_default;
        leader := LeaderState_default;
        derived := DerivedState_from_log (log persistent) |}.

Definition from_bootstrap_applied_through (config : NodeConfig) (bootstrap : BootstrapState)
    (applied_through : LogIndex) : result Node BootstrapValidationError :=
  let? node := from_bootstrap config bootstrap in
  if last_log_index node <? applied_through then
    Err (AppliedFloorBeyondLog applied_through (last_log_index node))
  else if commit_index (volatile node) <? applied_through then
    Err (AppliedFloorBeyondCommit applied_through (commit_index (volatile node)))
  else
    Ok (node <| volatile ; dispatched_index :=
                  N.max (dispatched_index (volatile node)) applied_through |>).
