(* ===== verification/Validate.v ===== *)
(** * The structural audit

    Models [crates/rafter/src/node/validate.rs].  The diagnostic strings are the
    constructors of [StateViolation]; the order of the checks is the source's. *)

From stdpp Require Import base list sorting numbers option sets.
From S2P Require Import Prelude.
From S2P Require Import Types.
From S2P Require Import Snapshot.
From S2P Require Import Message.
From S2P Require Import Membership.
From S2P Require Import NodeState.
From S2P Require Import Log.
From S2P Require Import View.
From S2P Require Import ReadIndex.

Inductive StateViolation :=
| LogIndexOverflow
| CommitExceedsLast
| AppliedExceedsCommit
| AppliedBehindSnapshot
| CommittedConfigurationExceedsCommit
| MembershipInvalid (error : MembershipValidationError)
| MembershipNotCanonical
| ConfigurationOffsetsMismatch
| NonLeaderRetainsReads
| TransferRetainsReads
| TooManyReads
| EmptyReadRound
| ReadIndexExceedsCommit
| ReadRoundsNotMonotone
| ReadSequenceOutOfRange
| DuplicateReadId (read_id : ReadId)
| IncomingSnapshotTooLong.

(** [condition.then_some(Err(violation))] chains as a checked guard. *)
Definition ensure (ok : bool) (violation : StateViolation) : result unit StateViolation :=
  if ok then Ok tt else Err violation.

Definition validate_index_geometry (n : Node) : result unit StateViolation :=
  match u64_checked_add (snapshot_index n) (length_u64 (log (persistent n))) with
  | None => Err LogIndexOverflow
  | Some logical_last_index =>
      let? _ := ensure (commit_index (volatile n) <=? logical_last_index) CommitExceedsLast in
      let? _ := ensure (dispatched_index (volatile n) <=? commit_index (volatile n))
                  AppliedExceedsCommit in
      let? _ := ensure (snapshot_index n <=? dispatched_index (volatile n)) AppliedBehindSnapshot in
      match committed_configuration (persistent n) with
      | Some committed => ensure (cc_index committed <=? commit_index (volatile n))
                            CommittedConfigurationExceedsCommit
      | None => Ok tt
      end
  end.

Definition validate_set (set : MembershipSet) : result unit StateViolation :=
  match MembershipSet_new (voters set) (learners set) with
  | Err error => Err (MembershipInvalid error)
  | Ok rebuilt => ensure (bool_decide (rebuilt = set)) MembershipNotCanonical
  end.

Definition validate_membership_shape (membership : MembershipConfig) : result unit StateViolation :=
  match membership with
  | Stable set => validate_set set
  | Joint joint => let? _ := validate_set (old joint) in validate_set (new_membership joint)
  end.

(** The identities of one round, added to the set seen so far. *)
Fixpoint insert_read_ids (seen ids : list ReadId) : result (list ReadId) StateViolation :=
  match ids with
  | [] => Ok seen
  | read_id :: rest =>
      if elem read_id seen then Err (DuplicateReadId read_id)
      else insert_read_ids (btree_insert read_id seen) rest
  end.

Fixpoint validate_read_rounds (n : Node) (seen : list ReadId) (previous_read_index : LogIndex)
    (previous_sequence : u64) (rounds : list PendingReadRound) : result unit StateViolation :=
  match rounds with
  | [] => Ok tt
  | pending :: rest =>
      let? _ := ensure (bool_decide (read_ids pending <> [])) EmptyReadRound in
      let? _ := ensure (read_index pending <=? commit_index (volatile n)) ReadIndexExceedsCommit in
      let? _ := ensure ((previous_read_index <=? read_index pending)
                        && (previous_sequence <=? registered_sequence pending))
                  ReadRoundsNotMonotone in
      let? _ := ensure (negb (registered_sequence pending =? 0)
                        && (registered_sequence pending <=? heartbeat_sequence (leader n)))
                  ReadSequenceOutOfRange in
      let? seen := insert_read_ids seen (read_ids pending) in
      validate_read_rounds n seen (read_index pending) (registered_sequence pending) rest
  end.

Definition validate_pending_reads (n : Node) : result unit StateViolation :=
  let reads := pending_reads (leader n) in
  let? _ := ensure (bool_decide (reads = []) || bool_decide (role (volatile n) = Leader))
              NonLeaderRetainsReads in
  let? _ := ensure (is_none (pending_transfer (leader n)) || bool_decide (reads = []))
              TransferRetainsReads in
  let? _ := ensure (pending_read_count n <=? MAX_PENDING_READS) TooManyReads in
  validate_read_rounds n [] 0 0 reads.

Definition validate_incoming_snapshot (n : Node) : result unit StateViolation :=
  match incoming_snapshot (volatile n) with
  | Some incoming => ensure (inc_received_len incoming <=? inc_total_payload_len incoming)
                       IncomingSnapshotTooLong
  | None => Ok tt
  end.

Definition validate_state_rules (n : Node) : result unit StateViolation :=
  let? _ := validate_index_geometry n in
  let? _ := validate_membership_shape (effective_membership n) in
  let? _ := validate_membership_shape (committed_membership n) in
  let? _ := ensure (derived_validate (derived n) (log (persistent n))) ConfigurationOffsetsMismatch in
  let? _ := validate_pending_reads n in
  validate_incoming_snapshot n.

Definition validate_derived_state (n : Node) : result unit StateViolation := validate_state_rules n.
