(* ===== verification/Observe.v ===== *)
(** * Observers

    Models the read-only views of [crates/rafter/src/node/observe.rs] that
    report replication progress and snapshot transfers, with the status records
    of [types/replication.rs] and [types/snapshot/status.rs]. *)

From stdpp Require Import base list sorting numbers option sets.
From S2P Require Import Prelude.
From S2P Require Import Types.
From S2P Require Import Snapshot.
From S2P Require Import Message.
From S2P Require Import Progress.
From S2P Require Import Config.
From S2P Require Import NodeState.
From S2P Require Import Log.
From S2P Require Import ReadIndex.

Inductive ReplicationState :=
| Probing
| Replicating
| Snapshotting (next_offset : u64).

Record ReplicationProgress := {
  rp_follower_id : NodeId;
  rp_match_index : LogIndex;
  rp_next_index : LogIndex;
  rp_state : ReplicationState;
}.

Record ReplicationWindowProgress := {
  rw_follower_id : NodeId;
  rw_in_flight_batches : usize;
  rw_in_flight_bytes : usize;
  rw_max_in_flight_batches : usize;
  rw_max_in_flight_bytes : usize;
  rw_full : bool;
}.

Record LeaderSnapshotTransferStatus := {
  lst_follower_id : NodeId;
  lst_transfer_id : SnapshotTransferId;
  lst_last_included_index : LogIndex;
  lst_total_bytes : u64;
  lst_next_offset : u64;
}.

Record FollowerSnapshotTransferStatus := {
  fst_leader_id : NodeId;
  fst_transfer_id : SnapshotTransferId;
  fst_last_included_index : LogIndex;
  fst_total_bytes : u64;
  fst_received_bytes : u64;
}.

Record SnapshotTransferStatus := {
  sts_leader : list LeaderSnapshotTransferStatus;
  sts_follower : option FollowerSnapshotTransferStatus;
  sts_rejected_chunks : SnapshotChunkRejectionCounters;
}.

Definition leader_replication_progress (n : Node) : list ReplicationProgress :=
  if negb (bool_decide (role (volatile n) = Leader)) then []
  else
    map (fun '(follower_id, progress) =>
           {| rp_follower_id := follower_id;
              rp_match_index := match_index progress;
              rp_next_index := next_index progress;
              rp_state :=
                match mode progress with
                | Probe _ => Probing
                | Replicate => Replicating
                | SnapshotMode next_offset => Snapshotting next_offset
                end |}) (iter_followers (progress (leader n))).

Definition leader_replication_windows (n : Node) : list ReplicationWindowProgress :=
  if negb (bool_decide (role (volatile n) = Leader)) then []
  else
    let max_batches := max_inflight_appends (config n) in
    let max_bytes := max_inflight_bytes (config n) in
    map (fun '(follower_id, progress) =>
           {| rw_follower_id := follower_id;
              rw_in_flight_batches := Inflights_batch_count (inflights progress);
              rw_in_flight_bytes := Inflights_byte_count (inflights progress);
              rw_max_in_flight_batches := max_batches;
              rw_max_in_flight_bytes := max_bytes;
              rw_full := bool_decide (mode progress = Replicate)
                         && Inflights_is_full (inflights progress) max_batches max_bytes |})
      (iter_followers (progress (leader n))).

Definition read_lease_active (n : Node) : bool := lease_grant_available n.

Definition snapshot_transfer_status (n : Node) : SnapshotTransferStatus := {|
  sts_leader :=
    match snapshot (persistent n) with
    | None => []
    | Some snapshot =>
        let total_bytes := application_payload_len snapshot in
        omap (fun '(follower_id, progress) =>
                (fun next_offset =>
                   {| lst_follower_id := follower_id;
                      lst_transfer_id := transfer_id snapshot;
                      lst_last_included_index := last_included_index (metadata snapshot);
                      lst_total_bytes := total_bytes;
                      lst_next_offset := N.min next_offset total_bytes |}) <$>
                match mode progress with
                | SnapshotMode next_offset => Some next_offset
                | _ => if next_index progress <=? last_included_index (metadata snapshot)
                       then Some 0 else None
                end) (iter_followers (progress (leader n)))
    end;
  sts_follower :=
    (fun transfer =>
       {| fst_leader_id := inc_leader_id transfer;
          fst_transfer_id := inc_transfer_id transfer;
          fst_last_included_index := last_included_index (inc_metadata transfer);
          fst_total_bytes := inc_total_payload_len transfer;
          fst_received_bytes := incoming_next_offset transfer |}) <$> incoming_snapshot (volatile n);
  sts_rejected_chunks := snapshot_chunk_rejections (volatile n);
|}.
