(* ===== verification/Spec.v ===== *)
(** * The abstract node

    The specification the kernel is refined to: a Raft node as a small labelled
    transition system over exact integers.  It keeps what Raft's single-node
    rules speak about (term, vote, role, log above a base, commitment and
    dispatch cursors, read rounds) and forgets how the kernel represents it
    (bit sets, replication windows, the configuration index, wrapping
    arithmetic).  Each rule is one elementary action; a public operation of the
    kernel is a sequence of rules. *)

From stdpp Require Import base list sorting numbers option sets.
From S2P Require Import Prelude.
From S2P Require Import Types.
From S2P Require Import Snapshot.
From S2P Require Import Message.
From S2P Require Import Membership.

(** ** Public operations *)

Inductive Op :=
| OpInput (input : Input)
| OpProposals (proposals : list ClientProposalInput)
| OpReads (ids : list ReadId)
| OpCompact (snapshot : RaftSnapshot)
| OpDrain
| OpResume (transfer : PendingSnapshotTransfer).

(** The read identities an operation may register. *)
Definition op_reads (op : Op) : list ReadId :=
  match op with
  | OpInput (ReadIndex read_id) => [read_id]
  | OpReads ids => ids
  | _ => []
  end.

(** ** State *)

Record ReadRound := {
  rr_ids : list ReadId;
  rr_index : LogIndex;
  rr_sequence : u64;
}.

Record Spec := {
  s_id : NodeId;
  s_static : MembershipConfig;
  s_term : Term;
  s_vote : option NodeId;
  s_role : Role;
  s_votes : list NodeId;
  s_base : LogIndex;
  s_base_term : Term;
  s_base_membership : option MembershipConfig;
  s_snapshot : option RaftSnapshot;
  s_log : list LogEntry;
  s_commit : LogIndex;
  s_applied : LogIndex;
  s_committed_configuration : option CommittedConfiguration;
  s_rounds : list ReadRound;
  s_sequence : u64;
  s_transferring : bool;
  s_incoming : option (u64 * u64);
  s_match : list (NodeId * LogIndex);
}.

#[export] Instance set_s_id : Setter s_id := fun v (r : Spec) =>
  {| s_id := v; s_static := s_static r; s_term := s_term r; s_vote := s_vote r;
     s_role := s_role r; s_votes := s_votes r; s_base := s_base r;
     s_base_term := s_base_term r; s_base_membership := s_base_membership r;
     s_snapshot := s_snapshot r; s_log := s_log r; s_commit := s_commit r;
     s_applied := s_applied r; s_committed_configuration := s_committed_configuration r;
     s_rounds := s_rounds r; s_sequence := s_sequence r; s_transferring := s_transferring r;
     s_incoming := s_incoming r; s_match := s_match r |}.
#[export] Instance set_s_static : Setter s_static := fun v (r : Spec) =>
  {| s_id := s_id r; s_static := v; s_term := s_term r; s_vote := s_vote r;
     s_role := s_role r; s_votes := s_votes r; s_base := s_base r;
     s_base_term := s_base_term r; s_base_membership := s_base_membership r;
     s_snapshot := s_snapshot r; s_log := s_log r; s_commit := s_commit r;
     s_applied := s_applied r; s_committed_configuration := s_committed_configuration r;
     s_rounds := s_rounds r; s_sequence := s_sequence r; s_transferring := s_transferring r;
     s_incoming := s_incoming r; s_match := s_match r |}.
#[export] Instance set_s_term : Setter s_term := fun v (r : Spec) =>
  {| s_id := s_id r; s_static := s_static r; s_term := v; s_vote := s_vote r;
     s_role := s_role r; s_votes := s_votes r; s_base := s_base r;
     s_base_term := s_base_term r; s_base_membership := s_base_membership r;
     s_snapshot := s_snapshot r; s_log := s_log r; s_commit := s_commit r;
     s_applied := s_applied r; s_committed_configuration := s_committed_configuration r;
     s_rounds := s_rounds r; s_sequence := s_sequence r; s_transferring := s_transferring r;
     s_incoming := s_incoming r; s_match := s_match r |}.
#[export] Instance set_s_vote : Setter s_vote := fun v (r : Spec) =>
  {| s_id := s_id r; s_static := s_static r; s_term := s_term r; s_vote := v;
     s_role := s_role r; s_votes := s_votes r; s_base := s_base r;
     s_base_term := s_base_term r; s_base_membership := s_base_membership r;
     s_snapshot := s_snapshot r; s_log := s_log r; s_commit := s_commit r;
     s_applied := s_applied r; s_committed_configuration := s_committed_configuration r;
     s_rounds := s_rounds r; s_sequence := s_sequence r; s_transferring := s_transferring r;
     s_incoming := s_incoming r; s_match := s_match r |}.
#[export] Instance set_s_role : Setter s_role := fun v (r : Spec) =>
  {| s_id := s_id r; s_static := s_static r; s_term := s_term r; s_vote := s_vote r;
     s_role := v; s_votes := s_votes r; s_base := s_base r; s_base_term := s_base_term r;
     s_base_membership := s_base_membership r; s_snapshot := s_snapshot r; s_log := s_log r;
     s_commit := s_commit r; s_applied := s_applied r;
     s_committed_configuration := s_committed_configuration r; s_rounds := s_rounds r;
     s_sequence := s_sequence r; s_transferring := s_transferring r;
     s_incoming := s_incoming r; s_match := s_match r |}.
#[export] Instance set_s_votes : Setter s_votes := fun v (r : Spec) =>
  {| s_id := s_id r; s_static := s_static r; s_term := s_term r; s_vote := s_vote r;
     s_role := s_role r; s_votes := v; s_base := s_base r; s_base_term := s_base_term r;
     s_base_membership := s_base_membership r; s_snapshot := s_snapshot r; s_log := s_log r;
     s_commit := s_commit r; s_applied := s_applied r;
     s_committed_configuration := s_committed_configuration r; s_rounds := s_rounds r;
     s_sequence := s_sequence r; s_transferring := s_transferring r;
     s_incoming := s_incoming r; s_match := s_match r |}.
#[export] Instance set_s_base : Setter s_base := fun v (r : Spec) =>
  {| s_id := s_id r; s_static := s_static r; s_term := s_term r; s_vote := s_vote r;
     s_role := s_role r; s_votes := s_votes r; s_base := v; s_base_term := s_base_term r;
     s_base_membership := s_base_membership r; s_snapshot := s_snapshot r; s_log := s_log r;
     s_commit := s_commit r; s_applied := s_applied r;
     s_committed_configuration := s_committed_configuration r; s_rounds := s_rounds r;
     s_sequence := s_sequence r; s_transferring := s_transferring r;
     s_incoming := s_incoming r; s_match := s_match r |}.
#[export] Instance set_s_base_term : Setter s_base_term := fun v (r : Spec) =>
  {| s_id := s_id r; s_static := s_static r; s_term := s_term r; s_vote := s_vote r;
     s_role := s_role r; s_votes := s_votes r; s_base := s_base r; s_base_term := v;
     s_base_membership := s_base_membership r; s_snapshot := s_snapshot r; s_log := s_log r;
     s_commit := s_commit r; s_applied := s_applied r;
     s_committed_configuration := s_committed_configuration r; s_rounds := s_rounds r;
     s_sequence := s_sequence r; s_transferring := s_transferring r;
     s_incoming := s_incoming r; s_match := s_match r |}.
#[export] Instance set_s_base_membership : Setter s_base_membership := fun v (r : Spec) =>
  {| s_id := s_id r; s_static := s_static r; s_term := s_term r; s_vote := s_vote r;
     s_role := s_role r; s_votes := s_votes r; s_base := s_base r;
     s_base_term := s_base_term r; s_base_membership := v; s_snapshot := s_snapshot r;
     s_log := s_log r; s_commit := s_commit r; s_applied := s_applied r;
     s_committed_configuration := s_committed_configuration r; s_rounds := s_rounds r;
     s_sequence := s_sequence r; s_transferring := s_transferring r;
     s_incoming := s_incoming r; s_match := s_match r |}.
#[export] Instance set_s_snapshot : Setter s_snapshot := fun v (r : Spec) =>
  {| s_id := s_id r; s_static := s_static r; s_term := s_term r; s_vote := s_vote r;
     s_role := s_role r; s_votes := s_votes r; s_base := s_base r;
     s_base_term := s_base_term r; s_base_membership := s_base_membership r;
     s_snapshot := v; s_log := s_log r; s_commit := s_commit r; s_applied := s_applied r;
     s_committed_configuration := s_committed_configuration r; s_rounds := s_rounds r;
     s_sequence := s_sequence r; s_transferring := s_transferring r;
     s_incoming := s_incoming r; s_match := s_match r |}.
#[export] Instance set_s_log : Setter s_log := fun v (r : Spec) =>
  {| s_id := s_id r; s_static := s_static r; s_term := s_term r; s_vote := s_vote r;
     s_role := s_role r; s_votes := s_votes r; s_base := s_base r;
     s_base_term := s_base_term r; s_base_membership := s_base_membership r;
     s_snapshot := s_snapshot r; s_log := v; s_commit := s_commit r;
     s_applied := s_applied r; s_committed_configuration := s_committed_configuration r;
     s_rounds := s_rounds r; s_sequence := s_sequence r; s_transferring := s_transferring r;
     s_incoming := s_incoming r; s_match := s_match r |}.
#[export] Instance set_s_commit : Setter s_commit := fun v (r : Spec) =>
  {| s_id := s_id r; s_static := s_static r; s_term := s_term r; s_vote := s_vote r;
     s_role := s_role r; s_votes := s_votes r; s_base := s_base r;
     s_base_term := s_base_term r; s_base_membership := s_base_membership r;
     s_snapshot := s_snapshot r; s_log := s_log r; s_commit := v; s_applied := s_applied r;
     s_committed_configuration := s_committed_configuration r; s_rounds := s_rounds r;
     s_sequence := s_sequence r; s_transferring := s_transferring r;
     s_incoming := s_incoming r; s_match := s_match r |}.
#[export] Instance set_s_applied : Setter s_applied := fun v (r : Spec) =>
  {| s_id := s_id r; s_static := s_static r; s_term := s_term r; s_vote := s_vote r;
     s_role := s_role r; s_votes := s_votes r; s_base := s_base r;
     s_base_term := s_base_term r; s_base_membership := s_base_membership r;
     s_snapshot := s_snapshot r; s_log := s_log r; s_commit := s_commit r; s_applied := v;
     s_committed_configuration := s_committed_configuration r; s_rounds := s_rounds r;
     s_sequence := s_sequence r; s_transferring := s_transferring r;
     s_incoming := s_incoming r; s_match := s_match r |}.
#[export] Instance set_s_committed_configuration : Setter s_committed_configuration := fun v (r : Spec) =>
  {| s_id := s_id r; s_static := s_static r; s_term := s_term r; s_vote := s_vote r;
     s_role := s_role r; s_votes := s_votes r; s_base := s_base r;
     s_base_term := s_base_term r; s_base_membership := s_base_membership r;
     s_snapshot := s_snapshot r; s_log := s_log r; s_commit := s_commit r;
     s_applied := s_applied r; s_committed_configuration := v; s_rounds := s_rounds r;
     s_sequence := s_sequence r; s_transferring := s_transferring r;
     s_incoming := s_incoming r; s_match := s_match r |}.
#[export] Instance set_s_rounds : Setter s_rounds := fun v (r : Spec) =>
  {| s_id := s_id r; s_static := s_static r; s_term := s_term r; s_vote := s_vote r;
     s_role := s_role r; s_votes := s_votes r; s_base := s_base r;
     s_base_term := s_base_term r; s_base_membership := s_base_membership r;
     s_snapshot := s_snapshot r; s_log := s_log r; s_commit := s_commit r;
     s_applied := s_applied r; s_committed_configuration := s_committed_configuration r;
     s_rounds := v; s_sequence := s_sequence r; s_transferring := s_transferring r;
     s_incoming := s_incoming r; s_match := s_match r |}.
#[export] Instance set_s_sequence : Setter s_sequence := fun v (r : Spec) =>
  {| s_id := s_id r; s_static := s_static r; s_term := s_term r; s_vote := s_vote r;
     s_role := s_role r; s_votes := s_votes r; s_base := s_base r;
     s_base_term := s_base_term r; s_base_membership := s_base_membership r;
     s_snapshot := s_snapshot r; s_log := s_log r; s_commit := s_commit r;
     s_applied := s_applied r; s_committed_configuration := s_committed_configuration r;
     s_rounds := s_rounds r; s_sequence := v; s_transferring := s_transferring r;
     s_incoming := s_incoming r; s_match := s_match r |}.
#[export] Instance set_s_transferring : Setter s_transferring := fun v (r : Spec) =>
  {| s_id := s_id r; s_static := s_static r; s_term := s_term r; s_vote := s_vote r;
     s_role := s_role r; s_votes := s_votes r; s_base := s_base r;
     s_base_term := s_base_term r; s_base_membership := s_base_membership r;
     s_snapshot := s_snapshot r; s_log := s_log r; s_commit := s_commit r;
     s_applied := s_applied r; s_committed_configuration := s_committed_configuration r;
     s_rounds := s_rounds r; s_sequence := s_sequence r; s_transferring := v;
     s_incoming := s_incoming r; s_match := s_match r |}.
#[export] Instance set_s_incoming : Setter s_incoming := fun v (r : Spec) =>
  {| s_id := s_id r; s_static := s_static r; s_term := s_term r; s_vote := s_vote r;
     s_role := s_role r; s_votes := s_votes r; s_base := s_base r;
     s_base_term := s_base_term r; s_base_membership := s_base_membership r;
     s_snapshot := s_snapshot r; s_log := s_log r; s_commit := s_commit r;
     s_applied := s_applied r; s_committed_configuration := s_committed_configuration r;
     s_rounds := s_rounds r; s_sequence := s_sequence r; s_transferring := s_transferring r;
     s_incoming := v; s_match := s_match r |}.
#[export] Instance set_s_match : Setter s_match := fun v (r : Spec) =>
  {| s_id := s_id r; s_static := s_static r; s_term := s_term r; s_vote := s_vote r;
     s_role := s_role r; s_votes := s_votes r; s_base := s_base r;
     s_base_term := s_base_term r; s_base_membership := s_base_membership r;
     s_snapshot := s_snapshot r; s_log := s_log r; s_commit := s_commit r;
     s_applied := s_applied r; s_committed_configuration := s_committed_configuration r;
     s_rounds := s_rounds r; s_sequence := s_sequence r; s_transferring := s_transferring r;
     s_incoming := s_incoming r; s_match := v |}.

Definition s_last (s : Spec) : LogIndex := s_base s + length_u64 (s_log s).

Definition s_entry (s : Spec) (index : LogIndex) : option LogEntry :=
  if index <=? s_base s then None else s_log s !! N.to_nat (index - s_base s - 1).

Definition s_term_at (s : Spec) (index : LogIndex) : option Term :=
  if index =? s_base s then Some (s_base_term s) else entry_term <$> s_entry s index.

(** The configuration entries of a log, oldest first. *)
Definition configurations (log : list LogEntry) : list ConfigurationEntry :=
  omap configuration_entry log.

Definition s_base_config (s : Spec) : MembershipConfig := default (s_static s) (s_base_membership s).

Definition s_membership (s : Spec) : MembershipConfig :=
  match last (configurations (s_log s)) with
  | Some entry => membership_config entry
  | None => s_base_config s
  end.

(** Entries above the commit index. *)
Definition s_uncommitted (s : Spec) : list LogEntry := drop (N.to_nat (s_commit s - s_base s)) (s_log s).

Definition entry_wf (e : LogEntry) : Prop :=
  from_option (fun configuration => MembershipConfig_wf (membership_config configuration)) True
    (configuration_entry e).

(** A message the operation delivers from [from]. *)
Definition delivers (op : Op) (from : NodeId) (message : Message) : Prop :=
  op = OpInput (InputMessage from message).

(** ** Outputs

    A quiet output is one that no safety rule constrains: everything but
    dispatch to the application, granted votes, acknowledgements, the requests
    of candidates and leaders and the chunks a follower stages. *)

Definition quiet (o : Output) : bool :=
  match o with
  | Apply _ _ _ _ | ConfigurationCommitted _ _ _ _ | ApplySnapshot _ => false
  | SendSnapshotChunk _ _ | StageSnapshotChunk _ => false
  | Send _ (MRequestVoteResponse response) => negb (rvr_vote_granted response)
  | Send _ (MAppendEntriesResponse response) => negb (aer_success response)
  | Send _ (MInstallSnapshotResponse response) => negb (isr_success response)
  | Send _ (MRequestVote _) | Send _ (MAppendEntries _) => false
  | Send _ (MInstallSnapshot _) | Send _ (MInstallSnapshotChunk _) => false
  | _ => true
  end.

(** The log holds the entries of an append and the one before them. *)
Definition holds (s : Spec) (request : AppendEntries) : Prop :=
  s_term_at s (ae_prev_log_index request) = Some (ae_prev_log_term request) /\
  forall j e, ae_entries request !! j = Some e ->
    s_term_at s (ae_prev_log_index request + 1 + N.of_nat j) = Some (entry_term e).

(** An append a leader may send: a piece of its log after the entry it names,
    or a probe that carries no entries and no term. *)
Definition authentic_append (s : Spec) (request : AppendEntries) : Prop :=
  s_role s = Leader /\ ae_term request = s_term s /\ ae_leader_id request = s_id s /\
  ae_leader_commit request = s_commit s /\
  ((ae_entries request = [] /\ ae_prev_log_term request = 0) \/
   (s_term_at s (ae_prev_log_index request) = Some (ae_prev_log_term request) /\
    ae_entries request `prefix_of` drop (N.to_nat (ae_prev_log_index request - s_base s)) (s_log s))).

(** An acknowledgement of the append being delivered. *)
Definition authentic_ack (op : Op) (s : Spec) (to : NodeId) (response : AppendEntriesResponse)
  : Prop :=
  exists request, delivers op to (MAppendEntries request) /\
    ae_term request = s_term s /\ aer_term response = s_term s /\ holds s request /\
    aer_match_index response = ae_prev_log_index request + length_u64 (ae_entries request).

(** A campaign that names the end of the candidate's log. *)
Definition authentic_campaign (s : Spec) (request : RequestVote) : Prop :=
  s_role s = Candidate /\ rv_term request = s_term s /\ rv_candidate_id request = s_id s /\
  rv_last_log_index request = s_last s /\
  s_term_at s (s_last s) = Some (rv_last_log_term request).

(** A chunk of the leader's own snapshot. *)
Definition authentic_chunk (s : Spec) (chunk : SnapshotChunkSend) : Prop :=
  s_role s = Leader /\ scs_term chunk = s_term s /\ scs_leader_id chunk = s_id s /\
  last_included_index (scs_metadata chunk) = s_base s /\
  (s_base s <> 0 -> last_included_term (scs_metadata chunk) = s_base_term s).

(** The operation delivers a snapshot of the term [t] with this metadata, whole
    or as a chunk. *)
Definition installs (op : Op) (t : Term) (m : RaftSnapshotMetadata) : Prop :=
  exists from message, delivers op from message /\
    match message with
    | MInstallSnapshot request => is_term request = t /\ is_metadata request = m
    | MInstallSnapshotChunk request => isc_term request = t /\ isc_metadata request = m
    | _ => False
    end.

(** What the node may emit in state [s], dispatch and granted votes apart. *)
Definition permitted (op : Op) (s : Spec) (o : Output) : Prop :=
  match o with
  | Send _ (MRequestVote request) => authentic_campaign s request
  | Send _ (MAppendEntries request) => authentic_append s request
  | Send to (MAppendEntriesResponse response) =>
      aer_success response = true -> authentic_ack op s to response
  | Send _ (MInstallSnapshotResponse response) =>
      isr_success response = true ->
      isr_term response = s_term s /\ isr_last_included_index response <= s_commit s /\
      exists m, installs op (s_term s) m
  | SendSnapshotChunk _ chunk => authentic_chunk s chunk
  | StageSnapshotChunk chunk => installs op (s_term s) (ssc_metadata chunk)
  | _ => quiet o
  end.

Definition grant_message (s : Spec) : Message :=
  MRequestVoteResponse {| rvr_term := s_term s; rvr_voter_id := s_id s; rvr_vote_granted := true |}.

(** What dispatching the entry at [index] emits. *)
Definition dispatches (index : LogIndex) (entry : LogEntry) (o : list Output) : Prop :=
  match entry_kind entry with
  | Application payload =>
      exists proposal, o = [Apply index (entry_term entry) payload proposal]
  | Configuration configuration =>
      exists previous, o = [ConfigurationCommitted index (entry_term entry) previous configuration]
  | Noop => o = []
  end.

(** ** Rules *)

Definition s_reset_leader (s : Spec) : Spec :=
  s <| s_rounds := [] |> <| s_sequence := 0 |> <| s_transferring := false |> <| s_match := [] |>.

Definition s_follow (t : Term) (s : Spec) : Spec :=
  s_reset_leader
    (s <| s_vote := if s_term s <? t then None else s_vote s |>
       <| s_term := N.max (s_term s) t |>
       <| s_role := Follower |>
       <| s_votes := [] |>).

Definition s_campaign (s : Spec) : Spec :=
  s <| s_term := s_term s + 1 |>
    <| s_vote := Some (s_id s) |>
    <| s_role := Candidate |>
    <| s_votes := [s_id s] |>.

Definition s_lead (s : Spec) : Spec :=
  s_reset_leader
    (s <| s_role := Leader |>
       <| s_log := s_log s ++ [LogEntry_noop (s_term s)] |>
       <| s_incoming := None |>).

(** The log after the entries of an append from [first] (the position of the
    first incoming entry) on, when the first [k] already match. *)
Definition splice (log : list LogEntry) (first k : nat) (entries : list LogEntry)
  : list LogEntry :=
  take (first + k) log ++ drop k entries.

Definition s_install (snapshot : RaftSnapshot) (s : Spec) : Spec :=
  let boundary := last_included_index (metadata snapshot) in
  let boundary_term := last_included_term (metadata snapshot) in
  s <| s_log := if bool_decide (s_term_at s boundary = Some boundary_term)
                then drop (N.to_nat (boundary - s_base s)) (s_log s) else [] |>
    <| s_base := boundary |>
    <| s_base_term := boundary_term |>
    <| s_base_membership := metadata_committed_membership (metadata snapshot) |>
    <| s_snapshot := Some snapshot |>
    <| s_committed_configuration := metadata_committed_configuration_state (metadata snapshot) |>
    <| s_commit := boundary |>
    <| s_applied := boundary |>
    <| s_incoming := None |>.

Definition s_compact (snapshot : RaftSnapshot) (committed : option CommittedConfiguration)
    (s : Spec) : Spec :=
  let boundary := last_included_index (metadata snapshot) in
  s <| s_log := drop (N.to_nat (boundary - s_base s)) (s_log s) |>
    <| s_base := boundary |>
    <| s_base_term := if boundary =? 0 then 0 else last_included_term (metadata snapshot) |>
    <| s_base_membership := metadata_committed_membership (metadata snapshot) |>
    <| s_snapshot := Some snapshot |>
    <| s_committed_configuration := committed |>
    <| s_incoming := None |>.

Definition round_ids (rounds : list ReadRound) : list ReadId := rounds ≫= rr_ids.

Definition MAX_ROUND_READS : N := 1024.

(** The configuration identity recorded for a boundary lies at or below it. *)
Definition sane_metadata (m : RaftSnapshotMetadata) : Prop :=
  forall cc, metadata_committed_configuration_state m = Some cc ->
             cc_index cc <= last_included_index m.

(** The incoming transfer is within its payload. *)
Definition within_payload (incoming : option (u64 * u64)) : Prop :=
  match incoming with Some (received, total) => received <= total | None => True end.

(** An acknowledgement by [v] of the position [m] is being delivered. *)
Definition claimed (op : Op) (s : Spec) (v : NodeId) (m : LogIndex) : Prop :=
  (exists response, delivers op v (MAppendEntriesResponse response) /\
     aer_term response = s_term s /\ aer_success response = true /\
     m <= aer_match_index response) \/
  (exists response, delivers op v (MInstallSnapshotResponse response) /\
     isr_term response = s_term s /\ isr_success response = true /\
     m <= isr_last_included_index response).

(** What a leader may believe of the log of [v]: nothing, what it believed
    already, its own log, or an acknowledgement being delivered. *)
Definition evidence (op : Op) (s : Spec) (v : NodeId) (m : LogIndex) : Prop :=
  m = 0 \/ (exists m', (v, m') ∈ s_match s /\ m <= m') \/ (v = s_id s /\ m <= s_last s) \/
  claimed op s v m.

(** The positions in [matched] say that [v] holds the leader's log up to [c]. *)
Definition believed (matched : list (NodeId * LogIndex)) (c : LogIndex) (v : NodeId) : bool :=
  existsb (fun '(node, m) => (node =? v) && (c <=? m)) matched.

(** The operation asks for a membership change. *)
Definition changes_membership (op : Op) : bool :=
  match op with
  | OpInput (AddLearner _ | PromoteLearner _ _ | RemoveVoter _ | EnterJoint _ _ | LeaveJoint
            | ChangeMembership _ _ | DangerousRawConfigurationProposal _ _) => true
  | _ => false
  end.

(** [strict] restricts the rules to callers that never reuse a pending read
    identity and to snapshots whose recorded configuration lies at or below
    their boundary. *)
Inductive rule (strict : bool) (op : Op) : Spec -> list Output -> Spec -> Prop :=
| rule_silent s o :
    Forall (permitted op s) o -> rule strict op s o s
| rule_follow s t :
    rule strict op s [] (s_follow t s)
| rule_precandidate s :
    s_role s <> Leader ->
    rule strict op s [] (s <| s_role := PreCandidate |>)
| rule_campaign s :
    s_role s <> Leader -> s_term s < u64_max ->
    contains_voter (s_membership s) (s_id s) = true ->
    rule strict op s [] (s_campaign s)
| rule_vote s v :
    s_role s = Candidate ->
    delivers op v (MRequestVoteResponse {| rvr_term := s_term s; rvr_voter_id := v;
                                           rvr_vote_granted := true |}) ->
    rule strict op s [] (s <| s_votes := btree_insert v (s_votes s) |>)
| rule_lead s :
    s_role s = Candidate ->
    quorum_of (s_membership s) (fun v => elem v (s_votes s)) = true ->
    rule strict op s [] (s_lead s)
| rule_grant s c request :
    delivers op c (MRequestVote request) ->
    rv_candidate_id request = c -> rv_term request = s_term s ->
    (s_vote s = None \/ s_vote s = Some c) ->
    contains_voter (s_membership s) c = true ->
    (forall last_term, s_term_at s (s_last s) = Some last_term ->
       last_term < rv_last_log_term request \/
       (last_term = rv_last_log_term request /\ s_last s <= rv_last_log_index request)) ->
    rule strict op s [Send c (grant_message s)] (s <| s_vote := Some c |>)
| rule_append s e :
    s_role s = Leader -> entry_term e = s_term s -> entry_wf e ->
    (is_configuration (entry_kind e) = true ->
       changes_membership op = true /\ configurations (s_uncommitted s) = []) ->
    rule strict op s [] (s <| s_log := s_log s ++ [e] |>)
| rule_splice s from request first k :
    s_role s = Follower -> delivers op from (MAppendEntries request) ->
    ae_leader_id request = from -> ae_term request = s_term s ->
    s_base s <= ae_prev_log_index request ->
    s_term_at s (ae_prev_log_index request) = Some (ae_prev_log_term request) ->
    first = N.to_nat (ae_prev_log_index request - s_base s) ->
    (k < length (ae_entries request))%nat ->
    (forall j, (j < k)%nat ->
       entry_term <$> s_log s !! (first + j)%nat = entry_term <$> ae_entries request !! j) ->
    (entry_term <$> s_log s !! (first + k)%nat <> entry_term <$> ae_entries request !! k) ->
    s_commit s <= s_base s + N.of_nat (first + k) ->
    Forall entry_wf (ae_entries request) ->
    rule strict op s [] (s <| s_log := splice (s_log s) first k (ae_entries request) |>)
| rule_progress s matched :
    s_role s = Leader -> Forall (fun '(v, m) => evidence op s v m) matched ->
    rule strict op s [] (s <| s_match := matched |>)
| rule_commit_leader s c :
    s_role s = Leader -> s_commit s < c -> c <= s_last s ->
    s_term_at s c = Some (s_term s) ->
    quorum_of (s_membership s) (believed (s_match s) c) = true ->
    rule strict op s [] (s <| s_commit := c |>)
| rule_commit_follower s from request c :
    s_role s = Follower -> delivers op from (MAppendEntries request) ->
    ae_leader_id request = from -> ae_term request = s_term s ->
    s_commit s <= c -> c <= s_last s ->
    (c <= s_commit s \/
     (holds s request /\ c <= ae_leader_commit request /\
      c <= ae_prev_log_index request + length_u64 (ae_entries request))) ->
    rule strict op s [] (s <| s_commit := c |>)
| rule_apply s entry o :
    s_applied s < s_commit s -> s_entry s (s_applied s + 1) = Some entry ->
    dispatches (s_applied s + 1) entry o ->
    rule strict op s o (s <| s_applied := s_applied s + 1 |>)
| rule_install s snapshot :
    s_role s = Follower -> installs op (s_term s) (metadata snapshot) ->
    N.max (s_base s) (s_commit s) < last_included_index (metadata snapshot) ->
    (strict = true -> sane_metadata (metadata snapshot)) ->
    from_option MembershipConfig_wf True (metadata_committed_membership (metadata snapshot)) ->
    rule strict op s [ApplySnapshot snapshot] (s_install snapshot s)
| rule_compact s snapshot committed :
    op = OpCompact snapshot ->
    s_base s <= last_included_index (metadata snapshot) ->
    last_included_index (metadata snapshot) <= s_applied s ->
    s_term_at s (last_included_index (metadata snapshot)) =
      Some (last_included_term (metadata snapshot)) ->
    from_option (fun cc => cc_index cc <= s_commit s) True committed ->
    from_option MembershipConfig_wf True (metadata_committed_membership (metadata snapshot)) ->
    rule strict op s [] (s_compact snapshot committed s)
| rule_contact s :
    rule strict op s [] (s <| s_sequence := s_sequence s + 1 |>)
| rule_read s k :
    s_role s = Leader -> s_transferring s = false -> take k (op_reads op) <> [] ->
    0 < s_commit s -> s_term_at s (s_commit s) = Some (s_term s) ->
    length_u64 (round_ids (s_rounds s)) + length_u64 (take k (op_reads op)) <= MAX_ROUND_READS ->
    (strict = true -> NoDup (op_reads op) /\
       forall r, r ∈ op_reads op -> r ∉ round_ids (s_rounds s)) ->
    rule strict op s []
      (s <| s_rounds := s_rounds s ++ [{| rr_ids := take k (op_reads op);
                                          rr_index := s_commit s;
                                          rr_sequence := s_sequence s + 1 |}] |>
         <| s_sequence := s_sequence s + 1 |>)
| rule_resolve_reads s rounds :
    sublist rounds (s_rounds s) ->
    rule strict op s [] (s <| s_rounds := rounds |>)
| rule_transfer s :
    s_role s = Leader ->
    rule strict op s [] (s <| s_transferring := true |> <| s_rounds := [] |>)
| rule_transfer_end s :
    rule strict op s [] (s <| s_transferring := false |>)
| rule_incoming s incoming :
    within_payload incoming ->
    rule strict op s [] (s <| s_incoming := incoming |>).

(** Sequences of rules, with their outputs in order. *)
Inductive run (strict : bool) (op : Op) : Spec -> list Output -> Spec -> Prop :=
| run_nil s : run strict op s [] s
| run_cons s1 o1 s2 o2 s3 :
    rule strict op s1 o1 s2 -> run strict op s2 o2 s3 -> run strict op s1 (o1 ++ o2) s3.

Lemma run_single strict op s o s' : rule strict op s o s' -> run strict op s o s'.
Proof. intros H. rewrite <- (app_nil_r o). econstructor; [done|constructor]. Qed.

Lemma run_trans strict op s1 o1 s2 o2 s3 :
  run strict op s1 o1 s2 -> run strict op s2 o2 s3 -> run strict op s1 (o1 ++ o2) s3.
Proof.
  induction 1 as [|s1 o s2 o' s3' Hr H IH]; intros H2; [done|].
  rewrite <- app_assoc. econstructor; [done|auto].
Qed.

Lemma quiet_permitted op s o : quiet o -> permitted op s o.
Proof.
  destruct o as [| | | | | | | | | | | |? []]; simpl; try done;
    by (intros H Ht; rewrite Ht in H).
Qed.

Lemma quiets_permitted op s o : Forall quiet o -> Forall (permitted op s) o.
Proof. intros H. eapply Forall_impl; [done|]. intros. by apply quiet_permitted. Qed.

Lemma run_silent strict op s o : Forall (permitted op s) o -> run strict op s o s.
Proof. intros. by apply run_single, rule_silent. Qed.

(** A property every rule maintains is maintained by a run. *)
Lemma run_preserves strict op (P : Spec -> Prop) :
  (forall s o s', rule strict op s o s' -> P s -> P s') ->
  forall s o s', run strict op s o s' -> P s -> P s'.
Proof. intros Hr s o s'. induction 1; eauto. Qed.

(** A reflexive and transitive relation that contains every rule out of a
    state satisfying a maintained invariant contains every run. *)
Lemma run_relation strict op (P : Spec -> Prop) (R : Spec -> Spec -> Prop) :
  (forall s, R s s) -> (forall a b c, R a b -> R b c -> R a c) ->
  (forall s o s', rule strict op s o s' -> P s -> P s' /\ R s s') ->
  forall s o s', run strict op s o s' -> P s -> R s s'.
Proof.
  intros Hrefl Htrans Hr s o s'. induction 1 as [|s1 o1 s2 o2 s3 H1 H2 IH]; intros Hp; [done|].
  destruct (Hr _ _ _ H1 Hp) as [??]. eauto.
Qed.

(** ** The invariant *)

Record spec_inv (strict : bool) (s : Spec) : Prop := {
  inv_base : s_base s <= s_applied s;
  inv_base_term : s_base s = 0 -> s_base_term s = 0;
  inv_applied : s_applied s <= s_commit s;
  inv_commit : s_commit s <= s_last s;
  inv_configuration :
    strict = true ->
    from_option (fun cc => cc_index cc <= s_commit s) True (s_committed_configuration s);
  inv_static_wf : MembershipConfig_wf (s_static s);
  inv_base_wf : from_option MembershipConfig_wf True (s_base_membership s);
  inv_log_wf : Forall entry_wf (s_log s);
  inv_rounds_leader : s_rounds s <> [] -> s_role s = Leader /\ s_transferring s = false;
  inv_rounds :
    Forall (fun r => rr_ids r <> [] /\ rr_index r <= s_commit s /\
                     0 < rr_sequence r /\ rr_sequence r <= s_sequence s) (s_rounds s);
  inv_rounds_monotone :
    StronglySorted (fun a b => rr_index a <= rr_index b /\ rr_sequence a <= rr_sequence b)
      (s_rounds s);
  inv_rounds_count : length_u64 (round_ids (s_rounds s)) <= MAX_ROUND_READS;
  inv_rounds_unique : strict = true -> NoDup (round_ids (s_rounds s));
  inv_incoming : within_payload (s_incoming s);
  inv_vote : s_role s = Candidate \/ s_role s = Leader -> s_vote s = Some (s_id s);
}.

Lemma membership_wf strict s : spec_inv strict s -> MembershipConfig_wf (s_membership s).
Proof.
  intros Hinv. unfold s_membership. destruct (last _) as [e|] eqn:El.
  - apply last_Some_elem_of in El. unfold configurations in El.
    apply list_elem_of_omap in El as (entry & Hin & He).
    pose proof (proj1 (Forall_forall _ _) (inv_log_wf _ _ Hinv) entry Hin) as Hw.
    unfold entry_wf in Hw. by rewrite He in Hw.
  - unfold s_base_config. pose proof (inv_base_wf _ _ Hinv) as Hb.
    destruct (s_base_membership s); [done|apply Hinv].
Qed.

Lemma sublist_StronglySorted {A} (R : A -> A -> Prop) l k :
  sublist l k -> StronglySorted R k -> StronglySorted R l.
Proof.
  induction 1 as [|x l k H IH|x l k H IH]; intros Hs; [done| |]; apply StronglySorted_inv in Hs as [??].
  - constructor; [auto|]. rewrite Forall_forall in *. intros y Hy.
    eauto using elem_of_sublist.
  - auto.
Qed.

Lemma round_ids_sublist l k : sublist l k -> sublist (round_ids l) (round_ids k).
Proof.
  unfold round_ids. induction 1; simpl; [constructor| |].
  - by apply sublist_app.
  - by apply sublist_inserts_l.
Qed.

Lemma sublist_Forall {A} (P : A -> Prop) l k : sublist l k -> Forall P k -> Forall P l.
Proof. rewrite !Forall_forall. eauto using elem_of_sublist. Qed.

Lemma length_app_u64 {A} (l k : list A) : length_u64 (l ++ k) = length_u64 l + length_u64 k.
Proof. unfold length_u64. rewrite length_app. lia. Qed.

Lemma length_drop_u64 {A} (l : list A) n :
  length_u64 (drop n l) = length_u64 l - N.of_nat n.
Proof. unfold length_u64. rewrite length_drop. lia. Qed.

Lemma last_append s e : s_last (s <| s_log := s_log s ++ [e] |>) = s_last s + 1.
Proof. unfold s_last. simpl. rewrite length_app_u64. unfold length_u64. simpl. lia. Qed.

Lemma splice_length log first k entries :
  (first + k <= length log)%nat ->
  length (splice log first k entries) = (first + k + (length entries - k))%nat.
Proof.
  intros H. unfold splice. rewrite length_app, length_take, length_drop. lia.
Qed.

(** The divergence position of an append never exceeds the local log. *)
Lemma splice_position (log : list LogEntry) first k (entries : list LogEntry) :
  (first <= length log)%nat -> (k <= length entries)%nat ->
  (forall j, (j < k)%nat -> entry_term <$> log !! (first + j)%nat = entry_term <$> entries !! j) ->
  (first + k <= length log)%nat.
Proof.
  intros Hf Hk Hm. destruct k as [|k]; [lia|].
  specialize (Hm k ltac:(lia)).
  destruct (lookup_lt_is_Some_2 entries k) as [e He]; [lia|]. rewrite He in Hm. simpl in Hm.
  destruct (log !! (first + k)%nat) eqn:El; [|done]. apply lookup_lt_Some in El. lia.
Qed.

Lemma s_entry_Some s index e : s_entry s index = Some e -> s_base s < index <= s_last s.
Proof.
  unfold s_entry, s_last, length_u64. case_cmp; [done|]. intros Hlt%lookup_lt_Some. lia.
Qed.

Lemma s_term_at_range s index t :
  s_term_at s index = Some t -> s_base s <= index <= s_last s.
Proof.
  unfold s_term_at. case_cmp; [unfold s_last; lia|].
  destruct (s_entry s index) eqn:E; [|done]. apply s_entry_Some in E. lia.
Qed.

Lemma StronglySorted_snoc {A} (R : A -> A -> Prop) l x :
  StronglySorted R l -> Forall (fun y => R y x) l -> StronglySorted R (l ++ [x]).
Proof.
  induction 1 as [|y l Hs IH Hy]; intros Hf; simpl; [by repeat constructor|].
  apply Forall_cons in Hf as [??]. constructor; [auto|].
  apply Forall_app. by split; [|constructor].
Qed.

Lemma round_ids_app l k : round_ids (l ++ k) = round_ids l ++ round_ids k.
Proof. apply bind_app. Qed.

Section rule_invariant.
Context (strict : bool) (op : Op).

(** Rules that only touch the log suffix above the commit index. *)
Lemma inv_set_log s log :
  spec_inv strict s -> Forall entry_wf log ->
  s_commit s <= s_base s + length_u64 log ->
  spec_inv strict (s <| s_log := log |>).
Proof. intros [] Hw Hl. split; try done. Qed.

Lemma inv_set_commit s c :
  spec_inv strict s -> s_commit s <= c -> c <= s_last s -> spec_inv strict (s <| s_commit := c |>).
Proof.
  intros [] Hc Hl. split; simpl; try done; [lia| |].
  - intros H. specialize (inv_configuration0 H). destruct (s_committed_configuration s); simpl in *; [lia|done].
  - eapply Forall_impl; [done|]. intros r ?. simpl in *. naive_solver lia.
Qed.

Lemma inv_reset_leader s :
  spec_inv strict s -> spec_inv strict (s_reset_leader s).
Proof.
  intros []. split; simpl; try done; try by constructor.
Qed.

Lemma inv_set_role s r :
  spec_inv strict s -> s_role s <> Leader -> (r = Candidate \/ r = Leader -> s_vote s = Some (s_id s)) ->
  spec_inv strict (s <| s_role := r |>).
Proof. intros [] Hr Hv. split; simpl; try done. intros Hne. by destruct (inv_rounds_leader0 Hne). Qed.

Lemma inv_install s snapshot :
  spec_inv strict s -> s_role s = Follower ->
  N.max (s_base s) (s_commit s) < last_included_index (metadata snapshot) ->
  (strict = true -> sane_metadata (metadata snapshot)) ->
  from_option MembershipConfig_wf True (metadata_committed_membership (metadata snapshot)) ->
  spec_inv strict (s_install snapshot s).
Proof.
  intros Hinv Hrole Hlt Hsane Hwf.
  assert (s_rounds s = []) as Hrounds.
  { destruct (s_rounds s) eqn:E; [done|]. destruct (inv_rounds_leader _ _ Hinv) as [? _]; [|congruence].
    by rewrite E. }
  destruct Hinv. split; simpl; try done; try lia.
  - unfold s_last. simpl. lia.
  - intros H. specialize (Hsane H). unfold sane_metadata in Hsane.
    destruct (metadata_committed_configuration_state _); simpl; auto.
  - case_bool_decide; [by apply Forall_drop|constructor].
  - rewrite Hrounds. constructor.
Qed.

Lemma inv_compact s snapshot committed :
  spec_inv strict s ->
  s_base s <= last_included_index (metadata snapshot) ->
  last_included_index (metadata snapshot) <= s_applied s ->
  from_option (fun cc => cc_index cc <= s_commit s) True committed ->
  from_option MembershipConfig_wf True (metadata_committed_membership (metadata snapshot)) ->
  spec_inv strict (s_compact snapshot committed s).
Proof.
  intros [] Hlo Hhi Hcc Hwf. split; simpl; try done; try lia.
  - by intros ->.
  - unfold s_last in *. simpl. rewrite length_drop_u64. lia.
  - by apply Forall_drop.
Qed.

Lemma inv_read s k :
  spec_inv strict s -> s_role s = Leader -> s_transferring s = false ->
  take k (op_reads op) <> [] ->
  length_u64 (round_ids (s_rounds s)) + length_u64 (take k (op_reads op)) <= MAX_ROUND_READS ->
  (strict = true -> NoDup (op_reads op) /\
     forall r, r ∈ op_reads op -> r ∉ round_ids (s_rounds s)) ->
  spec_inv strict
    (s <| s_rounds := s_rounds s ++ [{| rr_ids := take k (op_reads op);
                                        rr_index := s_commit s;
                                        rr_sequence := s_sequence s + 1 |}] |>
       <| s_sequence := s_sequence s + 1 |>).
Proof.
  intros [] Hr Ht Hne Hcount Hfresh. split; simpl; try done.
  - apply Forall_app. split.
    + eapply Forall_impl; [done|]. intros r ?. simpl in *. naive_solver lia.
    + constructor; [|done]. simpl. split_and!; [done|lia|lia|lia].
  - apply StronglySorted_snoc; [done|]. eapply Forall_impl; [done|]. intros r ?. simpl in *.
    naive_solver lia.
  - rewrite round_ids_app, length_app_u64. unfold round_ids at 2. simpl. by rewrite app_nil_r.
  - intros H. destruct (Hfresh H) as [Hn Hf]. rewrite round_ids_app. unfold round_ids at 2. simpl.
    rewrite app_nil_r. apply NoDup_app. split_and!; [auto| |by apply (sublist_NoDup _ (op_reads op)), sublist_take].
    intros r Hr1 Hr2. eapply Hf; [|done]. by eapply elem_of_sublist, sublist_take.
Qed.
End rule_invariant.

Lemma inv_no_rounds strict s : spec_inv strict s -> s_role s <> Leader -> s_rounds s = [].
Proof.
  intros Hinv Hrole. destruct (s_rounds s) eqn:E; [done|].
  destruct (inv_rounds_leader _ _ Hinv); [by rewrite E|congruence].
Qed.

Lemma inv_follow strict s t : spec_inv strict s -> spec_inv strict (s_follow t s).
Proof. intros []. split; simpl; try done; try by constructor. intros [|]; done. Qed.

Lemma inv_lead strict s :
  spec_inv strict s -> s_role s = Candidate -> spec_inv strict (s_lead s).
Proof.
  intros [] Hrole. split; simpl; try done; try by constructor.
  - unfold s_last in *. simpl. rewrite length_app_u64. lia.
  - apply Forall_app. split; [done|]. by constructor.
  - intros _. apply inv_vote0. by left.
Qed.

Lemma inv_campaign strict s :
  spec_inv strict s -> s_role s <> Leader -> spec_inv strict (s_campaign s).
Proof.
  intros Hinv Hrole. pose proof (inv_no_rounds _ _ Hinv Hrole) as Hr.
  destruct Hinv. split; simpl; try done.
Qed.

Lemma rule_inv strict op s o s' :
  rule strict op s o s' -> spec_inv strict s -> spec_inv strict s'.
Proof.
  destruct 1 as [s o Ho|s t|s Hrole|s Hrole Hterm Hvoter|s v Hrole Hd|s Hrole Hq
    |s c request Hd Hc Ht Hv Hm Hlog|s e Hrole Ht Hwf Hcfg
    |s from request first k Hrole Hd Hfrom Ht Hprev Hpt Hfirst Hk Hmatch Hdiff Hcommit Hwf
    |s matched Hrole Hev|s c Hrole Hlt Hle Ht Hq|s from request c Hrole Hd Hfrom Ht Hlo Hle Hlc
    |s entry o Hlt He Ho|s snapshot Hrole Hins Hlt Hsane Hwf
    |s snapshot committed Hop Hlo Hhi Ht Hcc Hwf|s|s k Hrole Htr Hne Hpos Hct Hcount Hfresh
    |s rounds Hsub|s Hrole|s|s incoming Hin]; intros Hinv.
  - done.
  - by apply inv_follow.
  - apply inv_set_role; [done|done|]. by intros [|].
  - by apply inv_campaign.
  - by destruct Hinv; split.
  - by apply inv_lead.
  - destruct Hinv. split; simpl; try done. intros Hr. specialize (inv_vote0 Hr).
    destruct Hv; congruence.
  - apply inv_set_log; [done|apply Forall_app; split; [apply Hinv|by constructor]|].
    pose proof (inv_commit _ _ Hinv). unfold s_last in *. rewrite length_app_u64. lia.
  - apply inv_set_log; [done| |].
    + unfold splice. apply Forall_app. split; [by apply Forall_take, Hinv|by apply Forall_drop].
    + apply s_term_at_range in Hpt. unfold s_last, length_u64 in *.
      pose proof (splice_position (s_log s) first k (ae_entries request)) as Hpos.
      rewrite splice_length by (apply Hpos; [lia|lia|done]). lia.
  - by destruct Hinv; split.
  - apply inv_set_commit; [done|lia|done].
  - by apply inv_set_commit.
  - destruct Hinv. split; simpl; try done; lia.
  - by apply inv_install.
  - by apply inv_compact.
  - destruct Hinv. split; simpl; try done. eapply Forall_impl; [done|].
    intros r ?. simpl in *. naive_solver lia.
  - by apply inv_read.
  - pose proof (round_ids_sublist _ _ Hsub) as Hids. destruct Hinv. split; simpl; try done.
    + intros Hne. apply inv_rounds_leader0. intros E. rewrite E in Hsub.
      by apply sublist_nil_r in Hsub.
    + by eapply sublist_Forall.
    + by eapply sublist_StronglySorted.
    + apply sublist_length in Hids. unfold length_u64 in *. lia.
    + intros H. eapply sublist_NoDup; [|done]. auto.
  - destruct Hinv. split; simpl; try done; try by constructor.
  - destruct Hinv. split; simpl; try done. intros Hne. by destruct (inv_rounds_leader0 Hne).
  - by destruct Hinv; split.
Qed.

Lemma run_inv strict op s o s' :
  run strict op s o s' -> spec_inv strict s -> spec_inv strict s'.
Proof. apply run_preserves. apply rule_inv. Qed.
