(* ===== verification/SpecProps.v ===== *)
(** * Safety of the abstract node

    The single-node guarantees of Raft, proved for every sequence of rules of
    the abstract node: terms and votes, the committed prefix, dispatch order
    and leader append-only. *)

From stdpp Require Import base list sorting numbers option sets.
From S2P Require Import Prelude.
From S2P Require Import Types.
From S2P Require Import Snapshot.
From S2P Require Import Message.
From S2P Require Import Membership.
From S2P Require Import Spec.

(** ** Terms and votes *)

Definition vote_stable (s s' : Spec) : Prop :=
  s_id s' = s_id s /\ s_static s' = s_static s /\ s_term s <= s_term s' /\
  (s_term s' = s_term s -> forall c, s_vote s = Some c -> s_vote s' = Some c).

Lemma vote_stable_refl s : vote_stable s s.
Proof. by split_and!. Qed.

Lemma vote_stable_trans a b c : vote_stable a b -> vote_stable b c -> vote_stable a c.
Proof.
  intros (Hi & Hs & Ht & Hv) (Hi' & Hs' & Ht' & Hv'). split_and!; [congruence|congruence|lia|].
  intros He v Hvote. apply Hv'; [lia|]. apply Hv; [lia|done].
Qed.

Lemma rule_vote_stable strict op s o s' : rule strict op s o s' -> vote_stable s s'.
Proof.
  destruct 1; try (split_and!; simpl; first [done|lia|by intros]).
  - split_and!; simpl; try done; [lia|]. intros He c Hc. case_cmp; [lia|done].
  - split_and!; simpl; try done. intros _ v Hv. destruct H2; congruence.
Qed.

Lemma run_vote_stable strict op s o s' : run strict op s o s' -> vote_stable s s'.
Proof.
  intros H. eapply (run_relation strict op (fun _ => True)); [| | |done|done].
  - apply vote_stable_refl.
  - apply vote_stable_trans.
  - intros. split; [done|by eapply rule_vote_stable].
Qed.

(** Every granted vote a run emits is the vote its final state holds, unless the
    run moved to a later term. *)
Definition grants_recorded (o : list Output) (s s' : Spec) : Prop :=
  forall to response,
    Send to (MRequestVoteResponse response) ∈ o -> rvr_vote_granted response = true ->
    rvr_voter_id response = s_id s /\ s_term s <= rvr_term response <= s_term s' /\
    (rvr_term response = s_term s' -> s_vote s' = Some to) /\
    (rvr_term response = s_term s -> s_vote s = None \/ s_vote s = Some to).

Lemma permitted_no_grant op s o to response :
  Forall (permitted op s) o -> Send to (MRequestVoteResponse response) ∈ o ->
  rvr_vote_granted response = true -> False.
Proof.
  rewrite Forall_forall. intros Hq Hin Hg. specialize (Hq _ Hin). simpl in Hq.
  by rewrite Hg in Hq.
Qed.

Lemma dispatches_no_send index entry o to m : dispatches index entry o -> Send to m ∉ o.
Proof. unfold dispatches. destruct (entry_kind entry); [intros [? ->]|intros [? ->]|intros ->]; set_solver. Qed.

Lemma rule_grants_recorded strict op s o s' : rule strict op s o s' -> grants_recorded o s s'.
Proof.
  destruct 1; intros to response Hin Hg; try by apply not_elem_of_nil in Hin.
  - exfalso. by eapply permitted_no_grant.
  - apply list_elem_of_singleton in Hin. unfold grant_message in Hin. simplify_eq. simpl.
    split_and!; [done|lia|lia|done|done].
  - exfalso. by eapply dispatches_no_send.
  - by apply list_elem_of_singleton in Hin.
Qed.

Lemma run_grants_recorded strict op s o s' : run strict op s o s' -> grants_recorded o s s'.
Proof.
  induction 1 as [|s1 o1 s2 o2 s3 H1 H2 IH]; intros to response Hin Hg.
  { by apply not_elem_of_nil in Hin. }
  pose proof (rule_vote_stable _ _ _ _ _ H1) as (Hi1 & _ & Ht1 & Hv1).
  pose proof (run_vote_stable _ _ _ _ _ H2) as (Hi2 & _ & Ht2 & Hv2).
  apply elem_of_app in Hin as [Hin|Hin].
  - destruct (rule_grants_recorded _ _ _ _ _ H1 _ _ Hin Hg) as (? & ? & Hlast & ?).
    split_and!; [done|lia|lia| |done]. intros He. apply Hv2; [lia|]. apply Hlast. lia.
  - destruct (IH _ _ Hin Hg) as (? & ? & Hlast & Hfirst).
    split_and!; [congruence|lia|lia|done|]. intros He.
    assert (s_term s2 = s_term s1) by lia. destruct (s_vote s1) as [c|] eqn:E; [|by left].
    specialize (Hv1 ltac:(done) c eq_refl). destruct Hfirst; [lia|congruence|right; congruence].
Qed.

(** ** The committed prefix *)

Definition prefix_stable (s s' : Spec) : Prop :=
  s_base s <= s_base s' /\ s_applied s <= s_applied s' /\ s_commit s <= s_commit s' /\
  (forall index, s_base s' < index -> index <= s_commit s -> s_entry s' index = s_entry s index) /\
  (forall index, s_base s' <= index -> index <= s_commit s -> s_term_at s' index = s_term_at s index).

Lemma prefix_stable_refl s : prefix_stable s s.
Proof. by split_and!. Qed.

Lemma prefix_stable_trans a b c : prefix_stable a b -> prefix_stable b c -> prefix_stable a c.
Proof.
  intros (? & ? & ? & He & Ht) (? & ? & ? & He' & Ht'). split_and!; [lia|lia|lia| |].
  - intros index ??. rewrite He', He by lia. done.
  - intros index ??. rewrite Ht', Ht by lia. done.
Qed.

(** A rule that leaves base and base term and the log up to the commit index. *)
Lemma prefix_stable_log s s' :
  s_base s' = s_base s -> s_base_term s' = s_base_term s ->
  s_applied s <= s_applied s' -> s_commit s <= s_commit s' ->
  (forall i, (i < N.to_nat (s_commit s - s_base s))%nat -> s_log s' !! i = s_log s !! i) ->
  prefix_stable s s'.
Proof.
  intros Hb Hbt Ha Hc Hl.
  assert (forall index, index <= s_commit s -> s_entry s' index = s_entry s index) as He.
  { intros index Hi. unfold s_entry. rewrite Hb. case_cmp; [done|]. apply Hl. lia. }
  split_and!; [lia|lia|lia|by intros; apply He|].
  intros index _ Hi. unfold s_term_at. by rewrite Hb, Hbt, He.
Qed.

Lemma prefix_stable_drop s s' index :
  s_base s <= s_base s' -> s_base s' < index ->
  s_log s' = drop (N.to_nat (s_base s' - s_base s)) (s_log s) ->
  s_entry s' index = s_entry s index.
Proof.
  intros Hb Hi Hl. unfold s_entry. rewrite Hl, lookup_drop.
  case_cmp; try lia. f_equal. lia.
Qed.

Lemma rule_prefix_stable strict op s o s' :
  rule strict op s o s' -> spec_inv strict s -> prefix_stable s s'.
Proof.
  intros Hr Hinv. destruct Hr; try (apply prefix_stable_log; simpl; first [done|lia|by intros]).
  - apply prefix_stable_log; simpl; try done. intros i Hi.
    pose proof (inv_commit _ _ Hinv). unfold s_last, length_u64 in *.
    by rewrite lookup_app_l by lia.
  - apply prefix_stable_log; simpl; try done. intros i Hi.
    pose proof (inv_commit _ _ Hinv). unfold s_last, length_u64 in *.
    by rewrite lookup_app_l by lia.
  - apply prefix_stable_log; simpl; try done. intros i Hi. unfold splice.
    pose proof (inv_commit _ _ Hinv). unfold s_last, length_u64 in *.
    rewrite lookup_app_l by (rewrite length_take; lia).
    rewrite lookup_take. case_decide; [done|lia].
  - pose proof (inv_applied _ _ Hinv). split_and!; simpl; [lia|lia|lia|intros; lia|intros; lia].
  - pose proof (inv_applied _ _ Hinv). pose proof (inv_base_term _ _ Hinv) as Hbt.
    split_and!; simpl; [lia|lia|lia| |].
    + intros index Hi _. by apply prefix_stable_drop.
    + intros index Hi _. destruct (N.eq_dec index (last_included_index (metadata snapshot))) as [->|Hne].
      * unfold s_term_at at 1. simpl. rewrite N.eqb_refl, H2. case_cmp; [|done].
        unfold s_term_at in H2. rewrite <- H2, e.
        destruct (N.eqb_spec 0 (s_base s)); [|lia]. by rewrite Hbt.
      * unfold s_term_at at 1. simpl. destruct (N.eqb_spec index (last_included_index (metadata snapshot))); [done|].
        rewrite prefix_stable_drop with (s := s) by (simpl; done || lia).
        unfold s_term_at. destruct (N.eqb_spec index (s_base s)); [lia|done].
Qed.

Lemma run_prefix_stable strict op s o s' :
  run strict op s o s' -> spec_inv strict s -> prefix_stable s s'.
Proof.
  intros H. eapply (run_relation strict op (spec_inv strict)); [| | |done].
  - apply prefix_stable_refl.
  - apply prefix_stable_trans.
  - intros. split; [by eapply rule_inv|by eapply rule_prefix_stable].
Qed.

(** ** Dispatch *)

(** The log position an output hands to the application. *)
Definition output_index (o : Output) : option LogIndex :=
  match o with
  | Apply index _ _ _ => Some index
  | ConfigurationCommitted index _ _ _ => Some index
  | ApplySnapshot snapshot => Some (last_included_index (metadata snapshot))
  | _ => None
  end.

Definition is_snapshot_output (o : Output) : bool :=
  match o with ApplySnapshot _ => true | _ => false end.

Record dispatch_ordered (o : list Output) (s s' : Spec) : Prop := {
  (* positions ascend, and lie between the dispatch cursors *)
  ordered_ascending : ascending (omap output_index o);
  ordered_range :
    Forall (fun index => s_applied s < index /\ index <= s_applied s') (omap output_index o);
  (* what is dispatched is the retained entry at its position *)
  ordered_sound : forall d index,
    d ∈ o -> output_index d = Some index -> is_snapshot_output d = false ->
    s_base s' < index -> exists e, s_entry s' index = Some e /\ dispatches index e [d];
  (* without a snapshot installation every position is dispatched *)
  ordered_complete : forall index e,
    Forall (fun d => is_snapshot_output d = false) o ->
    s_applied s < index -> index <= s_applied s' -> s_entry s' index = Some e ->
    exists d, dispatches index e d /\ d ⊆ o;
}.

Lemma permitted_output_index op s o : Forall (permitted op s) o -> omap output_index o = [].
Proof.
  induction 1 as [|d o Hd _ IH]; [done|]. by destruct d.
Qed.

Lemma permitted_elem op s o d : Forall (permitted op s) o -> d ∈ o -> output_index d = None.
Proof.
  rewrite Forall_forall. intros Hq Hin. specialize (Hq d Hin). by destruct d.
Qed.

Lemma dispatches_index index e o :
  dispatches index e o ->
  omap output_index o = [] /\ entry_kind e = Noop /\ o = [] \/
  exists d, o = [d] /\ output_index d = Some index /\ is_snapshot_output d = false.
Proof.
  unfold dispatches. destruct (entry_kind e); [intros [? ->]|intros [? ->]|intros ->];
    [right; eauto|right; eauto|by left].
Qed.

(** The outputs of one rule. *)
Lemma rule_outputs strict op s o s' :
  rule strict op s o s' ->
  (omap output_index o = [] /\ (forall d, d ∈ o -> output_index d = None) /\
   s_applied s' = s_applied s) \/
  (exists e, s_applied s' = s_applied s + 1 /\ s_applied s < s_commit s /\ s_commit s' = s_commit s /\
             s_entry s' (s_applied s + 1) = Some e /\ dispatches (s_applied s + 1) e o) \/
  (exists snapshot, o = [ApplySnapshot snapshot] /\ s_commit s < s_applied s' /\
             s_applied s' = last_included_index (metadata snapshot)).
Proof.
  destruct 1; try (left; split_and!; [done|intros ? Hin; by apply not_elem_of_nil in Hin|done]).
  - left. split_and!; [by eapply permitted_output_index| |done]. intros d. by eapply permitted_elem.
  - left. split_and!; [done| |done]. intros d ->%list_elem_of_singleton. done.
  - right; left. exists entry. by split_and!.
  - right; right. exists snapshot. split_and!; [done|simpl; lia|done].
Qed.

Lemma dispatch_ordered_cons strict op s1 o1 s2 o2 s3 :
  rule strict op s1 o1 s2 -> spec_inv strict s2 -> spec_inv strict s1 ->
  prefix_stable s2 s3 -> dispatch_ordered o2 s2 s3 -> dispatch_ordered (o1 ++ o2) s1 s3.
Proof.
  intros Hr Hi2 Hi1 (Hb & Ha & Hc & He & _) [Has Hra Hso Hco].
  pose proof (inv_applied _ _ Hi1) as Hac1. pose proof (inv_applied _ _ Hi2) as Hac2.
  destruct (rule_outputs _ _ _ _ _ Hr) as [(Hn & Hno & Happ)|[(e & Happ & Hlt & Hcc & Hen & Hd)|(snap & -> & Hlt & Happ)]].
  - split; rewrite ?omap_app, ?Hn, <- ?Happ; [done|done| |].
    + intros d index [Hin|Hin]%elem_of_app Hd; [|eauto]. by rewrite (Hno d Hin) in Hd.
    + intros index e [_ Hq]%Forall_app Hlo Hhi Hen.
      destruct (Hco index e Hq Hlo Hhi Hen) as (d & ? & ?). exists d. set_solver.
  - destruct (dispatches_index _ _ _ Hd) as [(Hn & _ & ->)|(d0 & -> & Hd0 & Hs0)].
    + split; simpl.
      * done.
      * eapply Forall_impl; [done|]. intros index ?. simpl in *. lia.
      * done.
      * intros index e' Hq Hlo Hhi Hen'. destruct (N.eq_dec index (s_applied s1 + 1)) as [->|Hne].
        -- apply s_entry_Some in Hen' as Hb'.
           rewrite He, Hen in Hen' by lia. simplify_eq. exists []. split; [done|set_solver].
        -- apply Hco; [done|lia|done|done].
    + split; simpl; rewrite ?Hd0.
      * constructor; [done|]. eapply Forall_impl; [done|]. intros index ?. simpl in *. lia.
      * constructor; [lia|]. eapply Forall_impl; [done|]. intros index ?. simpl in *. lia.
      * intros d index [->|Hin]%elem_of_cons Hdi Hsn Hbi; [|eauto].
        simplify_eq. exists e. split; [|done]. rewrite He by lia. done.
      * intros index e' Hq Hlo Hhi Hen'. apply Forall_cons in Hq as [_ Hq].
        destruct (N.eq_dec index (s_applied s1 + 1)) as [->|Hne].
        -- apply s_entry_Some in Hen' as Hb'.
           rewrite He, Hen in Hen' by lia. simplify_eq. exists [d0]. set_solver.
        -- destruct (Hco index e') as (d & ? & ?); [done|lia|done|done|]. exists d. set_solver.
  - split; simpl.
    + constructor; [done|]. eapply Forall_impl; [done|]. intros index ?. simpl in *. lia.
    + constructor; [lia|]. eapply Forall_impl; [done|]. intros index ?. simpl in *. lia.
    + intros d index [->|Hin]%elem_of_cons Hdi Hsn Hbi; [done|eauto].
    + intros index e' Hq. by apply Forall_cons in Hq as [? _].
Qed.

Lemma run_dispatch_ordered strict op s o s' :
  run strict op s o s' -> spec_inv strict s -> dispatch_ordered o s s'.
Proof.
  induction 1 as [s|s1 o1 s2 o2 s3 H1 H2 IH]; intros Hinv.
  - split; simpl; [constructor|constructor| |].
    + intros d index Hin. by apply not_elem_of_nil in Hin.
    + intros. lia.
  - pose proof (rule_inv _ _ _ _ _ H1 Hinv) as Hinv2.
    eapply dispatch_ordered_cons; [done|done|done|by eapply run_prefix_stable|auto].
Qed.

(** ** Leader append-only *)

(** The log of [s'] extends the log of [s] by entries of the term of [s], up to
    compaction from below. *)
Definition extends (s s' : Spec) : Prop :=
  s_base s <= s_base s' /\ s_last s <= s_last s' /\
  (forall index, s_base s' < index -> index <= s_last s -> s_entry s' index = s_entry s index) /\
  (forall index e, s_last s < index -> s_entry s' index = Some e -> entry_term e = s_term s).

(** From a leader, a run extends the leader's log, or the node is no longer the
    leader of that term. *)
Definition append_only (s s' : Spec) : Prop :=
  s_term s < s_term s' \/
  (s_term s' = s_term s /\ s_role s' = Leader /\ extends s s') \/
  (s_term s' = s_term s /\ (s_role s' = Follower \/ s_role s' = PreCandidate)).

Lemma extends_refl s : extends s s.
Proof.
  split_and!; [done|done|done|]. intros index e Hlt He%s_entry_Some. lia.
Qed.

Lemma extends_same s s1 s2 :
  extends s s1 -> s_base s2 = s_base s1 -> s_log s2 = s_log s1 -> extends s s2.
Proof.
  intros (? & ? & He & Hn) Hb Hl. unfold extends, s_last, s_entry in *.
  rewrite Hb, Hl. split_and!; done.
Qed.

Lemma extends_append s s1 e :
  extends s s1 -> entry_term e = s_term s -> extends s (s1 <| s_log := s_log s1 ++ [e] |>).
Proof.
  intros (? & Hl & He & Hn) Ht. split_and!; [done|rewrite last_append; lia| |].
  - intros index Hb Hi. rewrite <- He by done. unfold s_entry. simpl. case_cmp; [done|].
    apply lookup_app_l. unfold s_last, length_u64 in *. simpl in *. lia.
  - intros index e' Hlt. unfold s_entry. simpl. case_cmp; [done|].
    intros [Hold|[_ Hnew]]%lookup_app_Some.
    + apply (Hn index e' Hlt). unfold s_entry. by case_cmp; [lia|].
    + apply list_lookup_singleton_Some in Hnew as [_ <-]. done.
Qed.

Lemma extends_drop s s1 s2 :
  extends s s1 -> s_base s1 <= s_base s2 -> s_base s2 <= s_last s1 ->
  s_log s2 = drop (N.to_nat (s_base s2 - s_base s1)) (s_log s1) -> extends s s2.
Proof.
  intros (? & ? & He & Hn) Hb Hle Hl.
  assert (s_last s2 = s_last s1) as Hlast.
  { unfold s_last in *. rewrite Hl, length_drop_u64. lia. }
  split_and!; [lia|lia| |].
  - intros index ??. rewrite (prefix_stable_drop s1 s2) by done. apply He; [lia|done].
  - intros index e Hlt Hi. apply (Hn index); [done|].
    apply s_entry_Some in Hi as Hr. rewrite <- (prefix_stable_drop s1 s2); [done|done|lia|done].
Qed.

Lemma rule_append_only strict op s0 s o s' :
  rule strict op s o s' -> spec_inv strict s -> append_only s0 s -> append_only s0 s'.
Proof.
  intros Hr Hinv [Hlt|[(Ht & Hrole & Hext)|(Ht & Hrole)]].
  - left. pose proof (rule_vote_stable _ _ _ _ _ Hr) as (_ & _ & ? & _). lia.
  - destruct Hr; try congruence;
      try (right; left; split_and!; [done|done|by eapply extends_same]).
    + destruct (N.lt_ge_cases (s_term s) t); [left|right; right]; simpl; [lia|]. split; [lia|by left].
    + right; left. split_and!; [done|done|]. apply extends_append; [done|congruence].
    + right; left. split_and!; [done|done|]. eapply extends_drop; [done|done| |done].
      pose proof (inv_commit _ _ Hinv). pose proof (inv_applied _ _ Hinv). simpl. lia.
  - destruct Hr; try (destruct Hrole; congruence); try (right; right; by split).
    + destruct (N.lt_ge_cases (s_term s) t); [left|right; right]; simpl; [lia|]. split; [lia|by left].
    + right; right. split; [done|by right].
    + left. simpl. lia.
Qed.

Lemma run_append_only strict op s o s' :
  run strict op s o s' -> spec_inv strict s -> s_role s = Leader -> append_only s s'.
Proof.
  intros H Hinv Hrole.
  enough (forall s0, append_only s0 s -> append_only s0 s') as Hgo.
  { apply Hgo. right; left. split_and!; [done|done|apply extends_refl]. }
  clear Hrole. induction H as [|s1 o1 s2 o2 s3 H1 H2 IH]; intros s0 Hs; [done|].
  apply IH; [by eapply rule_inv|]. by eapply rule_append_only.
Qed.

(** Dispatch over two runs in sequence. *)
Lemma ascending_app l k :
  ascending l -> ascending k -> (forall x y, x ∈ l -> y ∈ k -> x < y) -> ascending (l ++ k).
Proof.
  induction l as [|x l IH]; intros Hl Hk Hlt; [done|]. apply StronglySorted_inv in Hl as [Hl Hx].
  simpl. constructor.
  - apply IH; [done|done|]. intros a b Ha. apply Hlt, elem_of_cons. by right.
  - apply Forall_app. split; [done|]. apply Forall_forall. intros y Hy. apply Hlt; [|done].
    apply elem_of_cons. by left.
Qed.

Lemma dispatch_ordered_trans strict s1 o1 s2 o2 s3 :
  spec_inv strict s2 -> prefix_stable s1 s2 -> prefix_stable s2 s3 ->
  dispatch_ordered o1 s1 s2 -> dispatch_ordered o2 s2 s3 -> dispatch_ordered (o1 ++ o2) s1 s3.
Proof.
  intros Hi (_ & Ha1 & _) (Hb & Ha & _ & He & _) [As1 Ra1 So1 Co1] [As2 Ra2 So2 Co2].
  pose proof (inv_applied _ _ Hi) as Hac. rewrite Forall_forall in Ra1, Ra2.
  split; rewrite ?omap_app.
  - apply ascending_app; [done|done|]. intros x y [_ Hx]%Ra1 [Hy _]%Ra2. lia.
  - apply Forall_app. split; apply Forall_forall.
    + intros x [? ?]%Ra1. lia.
    + intros x [? ?]%Ra2. lia.
  - intros d index [Hin|Hin]%elem_of_app Hd Hs Hlt; [|eauto].
    assert (index ∈ omap output_index o1) as [_ Hle]%Ra1 by (apply list_elem_of_omap; eauto).
    destruct (So1 d index Hin Hd Hs) as (e & Hen & Hdi); [lia|]. exists e.
    split; [|done]. rewrite He; [done|done|lia].
  - intros index e [Hs1 Hs2]%Forall_app Hlo Hhi Hen.
    destruct (N.le_gt_cases index (s_applied s2)) as [Hle|Hgt].
    + destruct (Co1 index e) as (d & Hd & Hsub); [done|done|done| |].
      * rewrite <- He; [done| |lia]. by apply s_entry_Some in Hen as [? _].
      * exists d. split; [done|]. set_solver.
    + destruct (Co2 index e) as (d & Hd & Hsub); [done..|]. exists d. split; [done|]. set_solver.
Qed.

(** A run grants at most one candidate per term. *)
Lemma run_grants_agree strict op s o s' :
  run strict op s o s' -> forall to1 r1 to2 r2,
  Send to1 (MRequestVoteResponse r1) ∈ o -> rvr_vote_granted r1 = true ->
  Send to2 (MRequestVoteResponse r2) ∈ o -> rvr_vote_granted r2 = true ->
  rvr_term r1 = rvr_term r2 -> to1 = to2.
Proof.
  induction 1 as [|s1 o1 s2 o2 s3 H1 H2 IH]; intros to1 r1 to2 r2 Hin1 Hg1 Hin2 Hg2 He.
  { by apply not_elem_of_nil in Hin1. }
  pose proof (run_grants_recorded _ _ _ _ _ H2) as Hlater.
  assert (forall a ra b rb, Send a (MRequestVoteResponse ra) ∈ o1 ->
    rvr_vote_granted ra = true -> Send b (MRequestVoteResponse rb) ∈ o2 ->
    rvr_vote_granted rb = true -> rvr_term ra = rvr_term rb -> a = b) as Hcross.
  { intros a ra c rc Ha1 Ha2 Hc1 Hc2 Heq.
    destruct (rule_grants_recorded _ _ _ _ _ H1 a ra Ha1 Ha2) as (_ & [_ Hle] & Hl & _).
    destruct (Hlater c rc Hc1 Hc2) as (_ & [Hge _] & _ & Hf).
    rewrite (Hl ltac:(lia)) in Hf. destruct (Hf ltac:(lia)) as [|[= <-]]; done. }
  apply elem_of_app in Hin1 as [Hin1|Hin1], Hin2 as [Hin2|Hin2]; [|by eapply Hcross| |by eapply IH].
  - destruct H1; try by apply not_elem_of_nil in Hin1.
    + exfalso. by eapply permitted_no_grant.
    + apply list_elem_of_singleton in Hin1, Hin2. congruence.
    + exfalso. by eapply dispatches_no_send.
    + by apply list_elem_of_singleton in Hin1.
  - symmetry. by eapply Hcross.
Qed.
