(* ===== verification/Abstraction.v ===== *)
(** * From the kernel node to the abstract node

    The abstraction function, the representation invariant, and what the reads
    of the kernel return in terms of the abstract state. *)

From stdpp Require Import base list sorting numbers option sets.
From S2P Require Import Prelude.
From S2P Require Import Types.
From S2P Require Import Snapshot.
From S2P Require Import Message.
From S2P Require Import Membership.
From S2P Require Import MembershipIndex.
From S2P Require Import Progress.
From S2P Require Import Config.
From S2P Require Import NodeState.
From S2P Require Import Log.
From S2P Require Import View.
From S2P Require Import Spec.

Definition abs_round (pending : PendingReadRound) : ReadRound :=
  {| rr_ids := read_ids pending;
     rr_index := read_index pending;
     rr_sequence := registered_sequence pending |}.

Definition snapshot_base_term (s : option RaftSnapshot) : Term :=
  match s with
  | Some snapshot =>
      if last_included_index (metadata snapshot) =? 0 then 0
      else last_included_term (metadata snapshot)
  | None => 0
  end.

(** The acknowledged position of every replica. *)
Definition abs_match (p : ProgressSet) : list (NodeId * LogIndex) :=
  zip (replicas (progress_index p)) (match_index <$> progress_slots p).

Definition abs (n : Node) : Spec := {|
  s_id := Node_id n;
  s_static := static_membership (config n);
  s_term := current_term (persistent n);
  s_vote := voted_for (persistent n);
  s_role := role (volatile n);
  s_votes := votes (election n);
  s_base := snapshot_index n;
  s_base_term := snapshot_base_term (snapshot (persistent n));
  s_base_membership := snapshot_committed_membership n;
  s_snapshot := snapshot (persistent n);
  s_log := log (persistent n);
  s_commit := commit_index (volatile n);
  s_applied := dispatched_index (volatile n);
  s_committed_configuration := committed_configuration (persistent n);
  s_rounds := map abs_round (pending_reads (leader n));
  s_sequence := heartbeat_sequence (leader n);
  s_transferring := is_some (pending_transfer (leader n));
  s_incoming := (fun t => (inc_received_len t, inc_total_payload_len t)) <$>
                  incoming_snapshot (volatile n);
  s_match := abs_match (progress (leader n));
|}.

(** The redundant state agrees with its source, and indexes do not overflow. *)
Record rep (n : Node) : Prop := {
  rep_offsets : configuration (derived n) = from_log (log (persistent n));
  rep_capacity : snapshot_index n + length_u64 (log (persistent n)) + 1 < u64_modulus;
  rep_progress : index_wf (progress_index (progress (leader n)));
  rep_matches :
    Forall (fun p => match_index p < u64_modulus /\ next_index p < u64_modulus)
      (progress_slots (progress (leader n)));
  rep_followers : role (volatile n) <> Leader -> progress (leader n) = ProgressSet_default;
  rep_quorum_acks : ack_wf (quorum_acks (leader n));
  rep_lease_acks : ack_wf (lease_acks (lease (leader n)));
  rep_round_acks : Forall (fun pending => ack_wf (round_acks pending)) (pending_reads (leader n));
}.

(** What the handlers assume of the node they run on. *)
Definition good (strict : bool) (n : Node) : Prop := rep n /\ spec_inv strict (abs n).

Section reads.
Context (strict : bool) (n : Node) (Hrep : rep n).

Lemma next_base : first_retained_log_index n = snapshot_index n + 1.
Proof.
  pose proof (rep_capacity _ Hrep). unfold first_retained_log_index, LogIndex_next.
  apply u64_add_small. lia.
Qed.

Lemma last_log_index_abs : last_log_index n = s_last (abs n).
Proof.
  pose proof (rep_capacity _ Hrep). unfold last_log_index, s_last. simpl.
  apply u64_add_small. lia.
Qed.

Lemma entry_at_abs index : index < u64_modulus -> entry_at n index = s_entry (abs n) index.
Proof.
  intros Hi. unfold entry_at, s_entry. simpl. case_cmp; [done|]. rewrite next_base.
  unfold retained_log_offset. rewrite u64_sub_small by lia. f_equal. lia.
Qed.

Lemma term_at_abs index : index < u64_modulus -> term_at n index = s_term_at (abs n) index.
Proof.
  intros Hi. unfold term_at, s_term_at. rewrite entry_at_abs by done.
  change (s_base (abs n)) with (snapshot_index n).
  destruct (N.eqb_spec index (snapshot_index n)) as [->|He].
  - change (s_base_term (abs n)) with (snapshot_base_term (snapshot (persistent n))).
    unfold snapshot_base_term, snapshot_index.
    destruct (snapshot (persistent n)) as [snap|]; [|done].
    by destruct (last_included_index (metadata snap) =? 0).
  - replace ((index =? 0) && (snapshot_index n =? 0)) with false
      by (symmetry; apply andb_false_iff; rewrite !N.eqb_neq; lia).
    destruct (N.ltb_spec index (snapshot_index n)); [|done].
    unfold s_entry. change (s_base (abs n)) with (snapshot_index n).
    destruct (N.leb_spec index (snapshot_index n)); [done|lia].
Qed.

Lemma last_term_abs : last_log_term n = default 0 (s_term_at (abs n) (s_last (abs n))).
Proof.
  unfold last_log_term. rewrite term_at_abs, last_log_index_abs; [done|].
  rewrite last_log_index_abs. pose proof (rep_capacity _ Hrep). unfold s_last. simpl. lia.
Qed.

Lemma last_from_log (l : list LogEntry) :
  last (from_log l) ≫= configuration_entry_at l = last (configurations l).
Proof.
  unfold configurations. rewrite <- from_log_entries.
  assert (forall offsets, offsets ⊆ from_log l ->
    last offsets ≫= configuration_entry_at l =
    last (omap (configuration_entry_at l) offsets)) as Hgen; [|by apply Hgen].
  induction offsets as [|o offsets IH] using rev_ind; [done|]. intros Hs.
  rewrite omap_app, last_snoc. simpl.
  assert (exists e, configuration_entry_at l o = Some e) as [e He].
  { assert (o ∈ from_log l) as Ho by set_solver. unfold from_log, enumerate in Ho.
    apply list_elem_of_omap in Ho as ((i & x) & Hin & Hx).
    apply elem_of_lookup_imap in Hin as (j & y & Heq & Hy). simplify_eq.
    rewrite is_configuration_entry in Hx. unfold configuration_entry_at.
    destruct (configuration_entry y) as [c|] eqn:Ec; simplify_eq/=.
    exists c. by rewrite Hy. }
  by rewrite He, last_snoc.
Qed.

Lemma effective_membership_abs : effective_membership n = s_membership (abs n).
Proof.
  unfold effective_membership, effective_configuration_entry, effective_entry, s_membership.
  rewrite (rep_offsets _ Hrep), last_from_log. simpl.
  by destruct (last (configurations _)).
Qed.

Lemma membership_without_entries :
  configuration (derived n) = [] -> effective_base_membership_ref n = s_membership (abs n).
Proof.
  intros Hc. rewrite <- effective_membership_abs.
  unfold effective_membership, effective_configuration_entry. by rewrite Hc.
Qed.

Context (Hinv : spec_inv strict (abs n)).

Lemma effective_wf : MembershipConfig_wf (effective_membership n).
Proof. rewrite effective_membership_abs. by eapply membership_wf. Qed.

Lemma has_effective_quorum_abs acks :
  has_effective_quorum n acks = quorum_of (s_membership (abs n)) (fun x => elem x acks).
Proof.
  unfold has_effective_quorum. case_bool_decide as Hc.
  - rewrite (membership_without_entries Hc).
    eapply MembershipIndex_has_quorum_quorum_of; [by eapply membership_wf|].
    apply MembershipIndex_new_represents.
  - rewrite effective_membership_abs.
    eapply MembershipIndex_has_quorum_quorum_of; [by eapply membership_wf|].
    apply MembershipIndex_new_represents.
Qed.

Lemma commit_in_range : commit_index (volatile n) < u64_modulus.
Proof.
  pose proof (inv_commit _ _ Hinv) as H. pose proof (rep_capacity _ Hrep).
  unfold s_last in H. simpl in H. lia.
Qed.
End reads.
