(* ===== verification/RefineCommit.v ===== *)
(** * Refinement: role changes and commitment

    The operations of [Commit.v] are runs of the abstract node. *)

From stdpp Require Import base list sorting numbers option sets.
From S2P Require Import Prelude.
From S2P Require Import Types.
From S2P Require Import Snapshot.
From S2P Require Import Message.
From S2P Require Import Membership.
From S2P Require Import Slots.
From S2P Require Import MembershipIndex.
From S2P Require Import Progress.
From S2P Require Import Config.
From S2P Require Import NodeState.
From S2P Require Import Log.
From S2P Require Import View.
From S2P Require Import Commit.
From S2P Require Import CommitQuorum.
From S2P Require Import Spec.
From S2P Require Import Abstraction.

(** ** Refinement *)

(** The operation result [r] is a run of the abstract node, and the kernel
    representation stays consistent. *)
Definition refines (strict : bool) (op : Op) (n : Node) (r : Node * list Output) : Prop :=
  run strict op (abs n) r.2 (abs r.1) /\ config r.1 = config n /\ rep r.1.

(** A change of kernel state that the abstract node does not see, but for a
    leader's beliefs about other logs, which may only get weaker. *)
Definition weaker (s : Spec) (matched : list (NodeId * LogIndex)) : Prop :=
  Forall (fun '(v, m) => m = 0 \/ (exists m', (v, m') ∈ s_match s /\ m <= m') \/
                         (v = s_id s /\ m <= s_last s)) matched.

Definition unseen (n n' : Node) : Prop :=
  abs n' = (abs n) <| s_match := s_match (abs n') |> /\
  (s_match (abs n') = s_match (abs n) \/
   role (volatile n) = Leader /\ weaker (abs n) (s_match (abs n'))) /\
  config n' = config n /\ rep n'.

(** Outputs that are permitted whatever the operation. *)
Definition allowed (s : Spec) (o : Output) : Prop := forall op, permitted op s o.

Section refines.
Context {strict : bool} {op : Op}.

Lemma refines_good n r : good strict n -> refines strict op n r -> good strict r.1.
Proof. intros [? Hinv] (Hrun & _ & ?). split; [done|]. by eapply run_inv. Qed.

Lemma refines_trans n n1 o1 n2 o2 :
  refines strict op n (n1, o1) -> refines strict op n1 (n2, o2) ->
  refines strict op n (n2, o1 ++ o2).
Proof.
  intros (H1 & Hc1 & _) (H2 & Hc2 & Hr). red; split_and!; simpl in *; [|congruence|done].
  by eapply run_trans.
Qed.

(** Sequencing, with the invariant carried to the second operation. *)
Lemma refines_bind n r1 r2 :
  good strict n -> refines strict op n r1 -> (good strict r1.1 -> refines strict op r1.1 r2) ->
  refines strict op n (r2.1, r1.2 ++ r2.2).
Proof.
  intros Hg H1 H2. specialize (H2 (refines_good _ _ Hg H1)).
  destruct r1, r2. by eapply refines_trans.
Qed.

Lemma refines_bind_quiet n n1 r2 :
  good strict n -> refines strict op n (n1, []) -> (good strict n1 -> refines strict op n1 r2) ->
  refines strict op n r2.
Proof.
  intros Hg H1 H2. pose proof (refines_bind n (n1, []) r2 Hg H1 H2) as H.
  by rewrite (surjective_pairing r2).
Qed.

Lemma unseen_run n n' : unseen n n' -> run strict op (abs n) [] (abs n').
Proof.
  intros (Ha & Hm & _). rewrite Ha. destruct Hm as [-> |[Hl Hw]]; [constructor|].
  apply run_single, rule_progress; [done|]. eapply Forall_impl; [exact Hw|].
  intros [v m] [?|[?|?]]; [by left|by right; left|by right; right; left].
Qed.

Lemma refines_unseen_permitted n n' o :
  unseen n n' -> Forall (permitted op (abs n)) o -> refines strict op n (n', o).
Proof.
  intros Hu Ho. pose proof (unseen_run _ _ Hu) as Hrun. destruct Hu as (_ & _ & Hc & Hr).
  red; split_and!; simpl; [|done|done].
  rewrite <- (app_nil_r o). eapply run_trans; [by apply run_silent|done].
Qed.

Lemma refines_unseen n n' o : unseen n n' -> Forall quiet o -> refines strict op n (n', o).
Proof. intros Hu Ho. apply refines_unseen_permitted; [done|by apply quiets_permitted]. Qed.

Lemma refines_unseen_allowed n n' o :
  unseen n n' -> Forall (allowed (abs n)) o -> refines strict op n (n', o).
Proof.
  intros Hu Ho. apply refines_unseen_permitted; [done|]. eapply Forall_impl; [done|].
  intros x Hx. apply Hx.
Qed.

Lemma refines_rule n s' n' o :
  rule strict op (abs n) [] s' -> abs n' = s' -> config n' = config n -> rep n' ->
  Forall quiet o -> refines strict op n (n', o).
Proof.
  intros Hr Ha Hc Hrep Ho. red; split_and!; simpl; [|done|done].
  rewrite Ha, <- (app_nil_r o). eapply run_trans; [by apply run_silent, quiets_permitted|by apply run_single].
Qed.

Lemma refines_after_unseen n n1 r :
  unseen n n1 -> refines strict op n1 r -> refines strict op n r.
Proof.
  intros Hu (H & Hc' & Hr). pose proof (unseen_run _ _ Hu) as H1. destruct Hu as (_ & _ & Hc & _).
  red; split_and!; [|congruence|done]. by apply (run_trans _ _ _ [] _ _ _ H1).
Qed.

Lemma refines_then_unseen n n1 o1 n2 o2 :
  refines strict op n (n1, o1) -> unseen n1 n2 -> Forall quiet o2 ->
  refines strict op n (n2, o1 ++ o2).
Proof. intros H1 H2 Ho. eapply refines_trans; [done|]. by apply refines_unseen. Qed.

Lemma refines_then_allowed n n1 o1 n2 o2 :
  refines strict op n (n1, o1) -> unseen n1 n2 -> Forall (allowed (abs n1)) o2 ->
  refines strict op n (n2, o1 ++ o2).
Proof. intros H1 H2 Ho. eapply refines_trans; [done|]. by apply refines_unseen_allowed. Qed.
End refines.

Lemma quiets_allowed s o : Forall quiet o -> Forall (allowed s) o.
Proof. intros H. eapply Forall_impl; [done|]. intros x Hx op. by apply quiet_permitted. Qed.

(** Permission does not depend on a leader's beliefs. *)
Lemma allowed_match s m o : allowed (s <| s_match := m |>) o <-> allowed s o.
Proof. done. Qed.

Lemma unseen_same n n' : abs n' = abs n -> config n' = config n -> rep n' -> unseen n n'.
Proof. intros Ha Hc Hr. red; split_and!; [by rewrite Ha|left; by rewrite Ha|done|done]. Qed.

Lemma unseen_refl n : rep n -> unseen n n.
Proof. intros Hr. by apply unseen_same. Qed.

Lemma unseen_rep n n' : unseen n n' -> rep n'.
Proof. by intros (_ & _ & _ & ?). Qed.

Lemma unseen_abs n n' : unseen n n' -> exists matched, abs n' = (abs n) <| s_match := matched |>.
Proof. intros (? & _). by eexists. Qed.

Lemma unseen_role n n' : unseen n n' -> role (volatile n') = role (volatile n).
Proof. intros [m Ha]%unseen_abs. by apply (f_equal s_role) in Ha. Qed.

Lemma unseen_trans a b c : unseen a b -> unseen b c -> unseen a c.
Proof.
  intros Hab Hbc. pose proof (unseen_role _ _ Hab) as Hrole.
  destruct Hab as (Ha & Hma & Hca & _), Hbc as (Hb & Hmb & Hcb & Hr).
  red; split_and!; [rewrite Hb; by rewrite Ha| |congruence|done].
  assert (weaker (abs b) (s_match (abs c)) -> role (volatile a) = Leader ->
    weaker (abs a) (s_match (abs b)) -> weaker (abs a) (s_match (abs c))) as Htrans.
  { intros Hw Hl Hwb. eapply Forall_impl; [exact Hw|]. intros [v m]. rewrite Ha. simpl.
    intros [->|[(m' & Hin & Hle)|Hself]]; [by left| |by right; right].
    pose proof (proj1 (Forall_forall _ _) Hwb _ Hin) as [->|[(m2 & ? & ?)|[? Hlast]]].
    - left. lia.
    - right; left. exists m2. split; [done|lia].
    - right; right. split; [done|]. simpl in *. lia. }
  destruct Hmb as [Hmb|[Hlb Hwb]]; [by rewrite Hmb|].
  rewrite Hrole in Hlb. right. split; [done|]. destruct Hma as [Hma|[_ Hwa]]; [|by apply Htrans].
  eapply Forall_impl; [exact Hwb|]. intros [v m]. rewrite Hma. by rewrite Ha.
Qed.

Lemma inv_set_match strict s m : spec_inv strict s -> spec_inv strict (s <| s_match := m |>).
Proof. by intros []; split. Qed.

Lemma unseen_good strict n n' : good strict n -> unseen n n' -> good strict n'.
Proof. intros [? ?] (Ha & _ & _ & ?). split; [done|]. rewrite Ha. by apply inv_set_match. Qed.

(** ** Becoming a follower *)


(** The representation invariant for fresh leader state. *)
Lemma rep_fresh_leader n :
  configuration (derived n) = from_log (log (persistent n)) ->
  snapshot_index n + length_u64 (log (persistent n)) + 1 < u64_modulus ->
  leader n = LeaderState_default -> rep n.
Proof.
  intros Ho Hc Hl. split; [done|done|rewrite Hl..].
  - apply default_wf.
  - constructor.
  - done.
  - apply AcknowledgementSet_default_wf.
  - apply AcknowledgementSet_default_wf.
  - constructor.
Qed.

Lemma quiet_drops reason l : Forall quiet (map (dropped_output reason) l).
Proof. apply Forall_forall. intros o (x & -> & _)%list_elem_of_fmap. by destruct x. Qed.

Lemma quiet_cancels reason l :
  Forall quiet (l ≫= (fun pending => map (fun read_id => ReadIndexCanceled read_id reason) (read_ids pending))).
Proof.
  apply Forall_forall. intros o (pending & Ho & _)%list_elem_of_bind.
  by apply list_elem_of_fmap in Ho as (id & -> & _).
Qed.

Lemma become_follower_abs n t : abs (become_follower n t).1 = s_follow t (abs n).
Proof.
  unfold become_follower, s_follow, s_reset_leader, abs. simpl.
  by destruct (current_term (persistent n) <? t).
Qed.

Lemma become_follower_rep n t : rep n -> rep (become_follower n t).1.
Proof.
  intros []. unfold become_follower. simpl.
  apply rep_fresh_leader; by destruct (current_term (persistent n) <? t).
Qed.

Lemma become_follower_quiet n t : Forall quiet (become_follower n t).2.
Proof.
  unfold become_follower. simpl. apply Forall_app. split; [apply quiet_drops|apply quiet_cancels].
Qed.

Lemma become_follower_config n t : config (become_follower n t).1 = config n.
Proof. unfold become_follower. simpl. by destruct (current_term (persistent n) <? t). Qed.

Lemma become_follower_refines strict op n t :
  rep n -> refines strict op n (become_follower n t).
Proof.
  intros Hr. rewrite (surjective_pairing (become_follower n t)).
  eapply refines_rule; [apply (rule_follow _ _ _ t)|apply become_follower_abs
    |apply become_follower_config|by apply become_follower_rep|apply become_follower_quiet].
Qed.

Lemma become_follower_role n t : role (volatile (become_follower n t).1) = Follower.
Proof. unfold become_follower. simpl. by destruct (current_term (persistent n) <? t). Qed.

(** ** Replication progress *)

Definition progress_bounded (p : Progress) : Prop :=
  match_index p < u64_modulus /\ next_index p < u64_modulus.

Definition matches_bounded (p : ProgressSet) : Prop := Forall progress_bounded (progress_slots p).

(** A change of progress that only weakens beliefs. *)
Definition weakens (n : Node) (p : ProgressSet) : Prop := weaker (abs n) (abs_match p).

Lemma progress_rep n p :
  rep n -> index_wf (progress_index p) -> matches_bounded p -> role (volatile n) = Leader ->
  rep (n <| leader ; progress := p |>).
Proof. intros [] Hi Hm Hl. by split. Qed.

Lemma unseen_progress n p :
  rep n -> index_wf (progress_index p) -> matches_bounded p ->
  role (volatile n) = Leader -> weakens n p ->
  unseen n (n <| leader ; progress := p |>).
Proof.
  intros Hr Hi Hm Hl Hw. red. split_and!; [done|by right|done|]. by apply progress_rep.
Qed.

(** Keeping every position keeps the beliefs. *)
Lemma weaker_self s : weaker s (s_match s).
Proof. apply Forall_forall. intros [v m] Hin. right; left. by exists m. Qed.

Lemma elem_of_abs_match p v m :
  (v, m) ∈ abs_match p <->
  exists i q, replicas (progress_index p) !! i = Some v /\ progress_slots p !! i = Some q /\
    m = match_index q.
Proof.
  unfold abs_match. rewrite list_elem_of_lookup. split.
  - intros [i Hi]. apply lookup_zip_with_Some in Hi as (x & y & [= <- <-] & Hx & Hy).
    apply list_lookup_fmap_Some in Hy as (q & -> & Hq). eauto.
  - intros (i & q & Hi & Hq & ->). exists i. apply lookup_zip_with_Some.
    exists v, (match_index q). split_and!; [done|done|]. by rewrite list_lookup_fmap, Hq.
Qed.

(** Weakening, read slot by slot. *)
Lemma weakens_slots n p :
  (forall i v q, replicas (progress_index p) !! i = Some v -> progress_slots p !! i = Some q ->
     match_index q = 0 \/
     (exists k q', replicas (progress_index (progress (leader n))) !! k = Some v /\
        progress_slots (progress (leader n)) !! k = Some q' /\ match_index q <= match_index q') \/
     (v = Node_id n /\ match_index q <= s_last (abs n))) ->
  weakens n p.
Proof.
  intros H. apply Forall_forall. intros [v m] (i & q & Hi & Hq & ->)%elem_of_abs_match.
  destruct (H i v q Hi Hq) as [?|[(k & q' & Hk & Hq' & Hle)|?]]; [by left| |by right; right].
  right; left. exists (match_index q'). split; [|done]. apply elem_of_abs_match. eauto.
Qed.

Lemma next_bounded i : LogIndex_next i < u64_modulus.
Proof. apply u64_add_bounded. Qed.

Lemma floor_bounded p m :
  progress_bounded p -> m < u64_modulus -> progress_bounded (apply_local_progress_floor p m).
Proof. intros [??] ?. pose proof (next_bounded m). split; simpl; lia. Qed.

Lemma refresh_local_progress_bounded s self_id m :
  matches_bounded s -> m < u64_modulus -> matches_bounded (refresh_local_progress s self_id m).
Proof.
  intros Hs Hm. unfold refresh_local_progress. destruct (self_slot _); [|done].
  destruct (is_some_and _ _); [|done]. apply Forall_alter; [done|].
  intros p _ Hp. by apply floor_bounded.
Qed.

Lemma refresh_local_progress_index s self_id m :
  progress_index (refresh_local_progress s self_id m) = progress_index s.
Proof.
  unfold refresh_local_progress. destruct (self_slot _); [|done]. by destruct (is_some_and _ _).
Qed.

Lemma refresh_local_progress_length s self_id m :
  length (progress_slots (refresh_local_progress s self_id m)) = length (progress_slots s).
Proof.
  unfold refresh_local_progress. destruct (self_slot _); [|done].
  destruct (is_some_and _ _); [|done]. apply length_alter.
Qed.

(** The progress that reconciliation gives a replica of the new membership. *)
Definition reconciled (s : ProgressSet) (self_id : NodeId) (first m : LogIndex) (replica : NodeId)
  : Progress :=
  match slot (progress_index s) replica ≫= (fun slot => progress_slots s !! slot) with
  | Some progress => progress
  | None => if replica =? self_id then Progress_local m else Progress_probing first
  end.

Lemma reconciled_bounded s self_id first m x :
  matches_bounded s -> m < u64_modulus -> first < u64_modulus ->
  progress_bounded (reconciled s self_id first m x).
Proof.
  intros Hs Hm Hf. unfold reconciled. pose proof (next_bounded m).
  assert (progress_bounded (if x =? self_id then Progress_local m else Progress_probing first)).
  { destruct (x =? self_id); split; simpl; (done || unfold u64_modulus in *; lia). }
  destruct (slot (progress_index s) x) as [k|]; simpl; [|done].
  destruct (progress_slots s !! k) eqn:E; [|done]. by eapply Forall_lookup_1 in Hs.
Qed.

Lemma reconcile_membership_bounded s c self_id first m :
  matches_bounded s -> m < u64_modulus -> first < u64_modulus ->
  matches_bounded (reconcile_membership s c self_id first m).
Proof.
  intros Hs Hm Hf. unfold reconcile_membership.
  destruct (_ && _); [by apply refresh_local_progress_bounded|].
  destruct (_ && _); [by apply refresh_local_progress_bounded|].
  apply Forall_forall. intros p (x & -> & _)%list_elem_of_fmap. cbv zeta.
  pose proof (reconciled_bounded s self_id first m x Hs Hm Hf) as Hb.
  fold (reconciled s self_id first m x). destruct (x =? self_id); [by apply floor_bounded|exact Hb].
Qed.

Lemma refresh_weakens n m :
  m <= s_last (abs n) -> weakens n (refresh_local_progress (progress (leader n)) (Node_id n) m).
Proof.
  intros Hm. unfold refresh_local_progress. destruct (self_slot _) as [k|]; [|apply weaker_self].
  destruct (replicas (progress_index (progress (leader n))) !! k) as [x|] eqn:Ek; simpl;
    [|apply weaker_self].
  destruct (N.eqb_spec x (Node_id n)) as [->|]; [|apply weaker_self].
  apply weakens_slots. simpl. intros i v q Hi Hq.
  destruct (decide (i = k)) as [->|Hne].
  - rewrite list_lookup_alter_eq in Hq. destruct (progress_slots _ !! k) as [q0|] eqn:Eq; simplify_eq/=.
    destruct (N.max_spec (match_index q0) m) as [[_ ->]|[_ ->]]; [by right; right|].
    right; left. exists k, q0. by split_and!.
  - rewrite list_lookup_alter_ne in Hq by done. right; left. by exists i, q.
Qed.

Lemma reconcile_weakens n c first m :
  m <= s_last (abs n) -> weakens n (reconcile_membership (progress (leader n)) c (Node_id n) first m).
Proof.
  intros Hm. unfold reconcile_membership.
  destruct (_ && _); [by apply refresh_weakens|]. destruct (_ && _); [by apply refresh_weakens|].
  apply weakens_slots. simpl. intros i v q Hi Hq.
  apply list_lookup_fmap_Some in Hq as (v' & -> & Hi'). simplify_eq. fold (reconciled (progress (leader n)) (Node_id n) first m v).
  assert (forall b : bool, b = (v =? Node_id n) ->
    match_index (if b then apply_local_progress_floor (reconciled (progress (leader n)) (Node_id n) first m v) m
                 else reconciled (progress (leader n)) (Node_id n) first m v) =
    match_index (reconciled (progress (leader n)) (Node_id n) first m v) \/
    (v = Node_id n /\ match_index (if b then apply_local_progress_floor (reconciled (progress (leader n)) (Node_id n) first m v) m
                 else reconciled (progress (leader n)) (Node_id n) first m v) = m)) as Hfloor.
  { intros [] Hb; [|by left]. symmetry in Hb. apply N.eqb_eq in Hb. simpl.
    destruct (N.max_spec (match_index (reconciled (progress (leader n)) (Node_id n) first m v)) m)
      as [[_ ->]|[_ ->]]; [by right|by left]. }
  destruct (Hfloor _ eq_refl) as [-> |[Hv ->]]; [|by right; right].
  unfold reconciled. unfold slot. destruct (slot_of _ v) as [k|] eqn:Ek; simpl.
  - apply slot_of_Some in Ek. destruct (progress_slots _ !! k) as [q0|] eqn:Eq.
    + right; left. by exists k, q0.
    + destruct (N.eqb_spec v (Node_id n)); [by right; right|by left].
  - destruct (N.eqb_spec v (Node_id n)); [by right; right|by left].
Qed.

Lemma reconcile_membership_length s c self_id first m :
  length (progress_slots (reconcile_membership s c self_id first m)) =
  length (replicas (progress_index (reconcile_membership s c self_id first m))).
Proof.
  unfold reconcile_membership. destruct (_ && _) eqn:E1.
  - apply andb_true_iff in E1 as [_ E1%Nat.eqb_eq].
    by rewrite refresh_local_progress_length, refresh_local_progress_index.
  - destruct (bool_decide _ && _) eqn:E2; [|apply length_map].
    apply andb_true_iff in E2 as [E2%bool_decide_eq_true E3%Nat.eqb_eq].
    by rewrite refresh_local_progress_length, refresh_local_progress_index, E2.
Qed.

(** After reconciliation the slots are those of the given membership. *)
Lemma reconcile_membership_represents s c self_id first m :
  index_wf (progress_index s) -> MembershipConfig_wf c ->
  represents (progress_index (reconcile_membership s c self_id first m)) c self_id.
Proof.
  intros Hi Hc. unfold reconcile_membership. destruct (matches _ _ _ && _) eqn:E1.
  - apply andb_true_iff in E1 as [E1 _]. rewrite refresh_local_progress_index.
    by apply matches_represents.
  - destruct (bool_decide _ && _) eqn:E2.
    + apply andb_true_iff in E2 as [E2 _]. apply bool_decide_eq_true in E2.
      rewrite refresh_local_progress_index, E2. apply MembershipIndex_new_represents.
    + apply MembershipIndex_new_represents.
Qed.

Lemma last_log_index_bounded n : last_log_index n < u64_modulus.
Proof. apply u64_add_bounded. Qed.

Section reconcile.
Context (strict : bool) (n : Node) (Hgood : good strict n).

(** The membership that reconciliation uses is the effective one. *)
Lemma reconcile_membership_effective :
  (if bool_decide (configuration (derived n) = [])
   then default (static_membership (config n))
          (snapshot (persistent n) ≫=
             (fun snapshot => metadata_committed_membership (metadata snapshot)))
   else effective_membership n) = effective_membership n.
Proof.
  case_bool_decide as Hc; [|done]. symmetry.
  unfold effective_membership, effective_configuration_entry. by rewrite Hc.
Qed.

Lemma reconcile_unseen : unseen n (reconcile_replication_progress n).
Proof.
  destruct Hgood as [Hr Hinv]. unfold reconcile_replication_progress.
  case_bool_decide as Hl; simpl negb; [|by apply unseen_refl]. rewrite reconcile_membership_effective.
  apply unseen_progress; [done| | |done|].
  - eapply represents_wf, reconcile_membership_represents; [apply Hr|by eapply effective_wf].
  - apply reconcile_membership_bounded; [apply Hr|apply last_log_index_bounded|apply next_bounded].
  - apply reconcile_weakens. by rewrite last_log_index_abs.
Qed.

Lemma reconcile_represents :
  role (volatile n) = Leader ->
  represents (progress_index (progress (leader (reconcile_replication_progress n))))
    (effective_membership n) (Node_id n).
Proof.
  intros Hl. destruct Hgood as [Hr Hinv]. unfold reconcile_replication_progress.
  rewrite bool_decide_eq_true_2 by done. cbv zeta. simpl negb.
  rewrite reconcile_membership_effective.
  apply reconcile_membership_represents; [apply Hr|by eapply effective_wf].
Qed.

Lemma reconcile_length :
  role (volatile n) = Leader ->
  length (progress_slots (progress (leader (reconcile_replication_progress n)))) =
  length (replicas (progress_index (progress (leader (reconcile_replication_progress n))))).
Proof.
  intros Hl. unfold reconcile_replication_progress. rewrite bool_decide_eq_true_2 by done.
  apply reconcile_membership_length.
Qed.
End reconcile.

Lemma ProgressSet_update_index s node f :
  progress_index (ProgressSet_update s node f) = progress_index s.
Proof. unfold ProgressSet_update. by destruct (slot _ _). Qed.

Lemma ProgressSet_update_bounded s node f :
  matches_bounded s -> (forall p, progress_bounded p -> progress_bounded (f p)) ->
  matches_bounded (ProgressSet_update s node f).
Proof.
  intros Hs Hf. unfold ProgressSet_update. destruct (slot _ _); [|done].
  apply Forall_alter; [done|]. intros p _. apply Hf.
Qed.

(** The slots of an updated progress set. *)
Lemma ProgressSet_update_lookup s node f i v q :
  replicas (progress_index s) !! i = Some v ->
  progress_slots (ProgressSet_update s node f) !! i = Some q ->
  exists q0, progress_slots s !! i = Some q0 /\ (q = q0 \/ (v = node /\ q = f q0)).
Proof.
  intros Hi. unfold ProgressSet_update, slot. destruct (slot_of _ node) as [k|] eqn:Ek; simpl; [|eauto].
  apply slot_of_Some in Ek. destruct (decide (i = k)) as [->|Hne].
  - rewrite list_lookup_alter_eq. destruct (progress_slots s !! k); simpl; [|done].
    intros [= <-]. simplify_eq. eauto 8.
  - rewrite list_lookup_alter_ne by done. eauto.
Qed.

Lemma update_weakens n node f :
  (forall q, match_index (f q) <= match_index q \/
             (node = Node_id n /\ match_index (f q) <= s_last (abs n))) ->
  weakens n (ProgressSet_update (progress (leader n)) node f).
Proof.
  intros Hf. apply weakens_slots. intros i v q. rewrite ProgressSet_update_index. intros Hi Hq.
  destruct (ProgressSet_update_lookup _ _ _ _ _ _ Hi Hq) as (q0 & Hq0 & [->|[-> ->]]).
  - right; left. by exists i, q0.
  - destruct (Hf q0) as [?|[??]]; [right; left; by exists i, q0|by right; right].
Qed.

(** Updates on a node that is not the leader find no progress to change. *)
Lemma update_follower n node f :
  rep n -> role (volatile n) <> Leader ->
  ProgressSet_update (progress (leader n)) node f = progress (leader n).
Proof. intros Hr Hl. by rewrite (rep_followers _ Hr Hl). Qed.

Lemma progress_update_rep n node f :
  rep n -> (forall p, progress_bounded p -> progress_bounded (f p)) ->
  rep (n <| leader ; progress := ProgressSet_update (progress (leader n)) node f |>).
Proof.
  intros Hr Hf. destruct (decide (role (volatile n) = Leader)) as [Hl|Hl].
  - apply progress_rep; [done| | |done].
    + rewrite ProgressSet_update_index. apply Hr.
    + apply ProgressSet_update_bounded; [apply Hr|done].
  - rewrite update_follower by done. by destruct Hr; split.
Qed.

Lemma unseen_progress_update n node f :
  rep n -> (forall p, progress_bounded p -> progress_bounded (f p)) ->
  (forall q, match_index (f q) <= match_index q \/
             (node = Node_id n /\ match_index (f q) <= s_last (abs n))) ->
  unseen n (n <| leader ; progress := ProgressSet_update (progress (leader n)) node f |>).
Proof.
  intros Hr Hf Hm. pose proof (progress_update_rep n node f Hr Hf) as Hr'.
  destruct (decide (role (volatile n) = Leader)) as [Hl|Hl].
  - red; split_and!; [done| |done|done]. right. split; [done|]. by apply update_weakens.
  - rewrite update_follower in Hr' |- * by done. by apply unseen_same.
Qed.

(** An update backed by an acknowledgement being delivered. *)
Lemma progress_update_refines strict op n node f :
  good strict n -> role (volatile n) = Leader ->
  (forall p, progress_bounded p -> progress_bounded (f p)) ->
  (forall q, match_index (f q) <= match_index q \/ claimed op (abs n) node (match_index (f q))) ->
  refines strict op n
    (n <| leader ; progress := ProgressSet_update (progress (leader n)) node f |>, []).
Proof.
  intros [Hr Hinv] Hl Hf Hc.
  eapply refines_rule; [|reflexivity|done|by apply progress_update_rep|constructor].
  apply (rule_progress _ _ (abs n) (abs_match (ProgressSet_update (progress (leader n)) node f)));
    [done|]. apply Forall_forall. intros [v m] (i & q & Hi & Hq & ->)%elem_of_abs_match.
  rewrite ProgressSet_update_index in Hi.
  destruct (ProgressSet_update_lookup _ _ _ _ _ _ Hi Hq) as (q0 & Hq0 & He).
  assert ((v, match_index q0) ∈ s_match (abs n)) as Hold by (apply elem_of_abs_match; eauto).
  destruct He as [->|[-> ->]]; [right; left; by eexists|].
  destruct (Hc q0) as [?|?]; [right; left; by eexists|by right; right; right].
Qed.

Lemma reconcile_last strict n :
  good strict n -> s_last (abs (reconcile_replication_progress n)) = s_last (abs n) /\
  Node_id (reconcile_replication_progress n) = Node_id n.
Proof.
  intros Hg. destruct (unseen_abs _ _ (reconcile_unseen _ _ Hg)) as [m Ha].
  split; [by rewrite Ha|by apply (f_equal s_id) in Ha].
Qed.

Lemma record_local_progress_unseen strict n :
  good strict n -> unseen n (record_local_progress n).
Proof.
  intros Hg. unfold record_local_progress. pose proof (reconcile_unseen _ _ Hg) as Hu.
  eapply unseen_trans; [done|].
  apply (unseen_progress_update (reconcile_replication_progress n)); [apply Hu| |].
  - intros p _. split; [apply last_log_index_bounded|apply next_bounded].
  - intros q. right. split; [done|]. simpl.
    rewrite (proj1 (reconcile_last _ _ Hg)), last_log_index_abs; [done|apply Hg].
Qed.

(** ** Dispatch of committed entries *)

Lemma step_down_if_removed_refines strict op n m :
  rep n -> refines strict op n (step_down_if_removed n m).
Proof.
  intros Hr. unfold step_down_if_removed. destruct (_ && _).
  - by apply become_follower_refines.
  - by apply refines_unseen, Forall_nil; [apply unseen_refl|].
Qed.

Section dispatch.
Context {strict : bool} {op : Op}.

Lemma next_dispatched n :
  good strict n -> dispatched_index (volatile n) < commit_index (volatile n) ->
  LogIndex_next (dispatched_index (volatile n)) = dispatched_index (volatile n) + 1.
Proof.
  intros [Hr Hinv] Hlt. pose proof (commit_in_range strict n Hr Hinv).
  apply u64_add_small. lia.
Qed.

(** The state after the cursor moves over the entry at [index]. *)
Lemma advance_cursor_refines n remaining e o :
  good strict n -> dispatched_index (volatile n) < commit_index (volatile n) ->
  entry_at n (LogIndex_next (dispatched_index (volatile n))) = Some e ->
  dispatches (LogIndex_next (dispatched_index (volatile n))) e o ->
  refines strict op n
    (n <| volatile ; dispatched_index := LogIndex_next (dispatched_index (volatile n)) |>
       <| volatile ; local_proposals := remaining |>, o).
Proof.
  intros Hg Hlt He Ho. pose proof (next_dispatched n Hg Hlt) as Hn. destruct Hg as [Hr Hinv].
  pose proof (commit_in_range strict n Hr Hinv).
  red. split_and!; [|done|by destruct Hr; split].
  apply run_single. rewrite Hn in *. rewrite entry_at_abs in He by (done || lia).
  apply (rule_apply strict op (abs n) e o Hlt He Ho).
Qed.

Lemma application_dispatches index e payload pid :
  application_payload e = Some payload ->
  dispatches index e [Apply index (entry_term e) payload pid].
Proof.
  unfold application_payload, dispatches. destruct (entry_kind e); intros [= ->]. by exists pid.
Qed.

Lemma configuration_dispatches index e c previous :
  configuration_entry e = Some c ->
  dispatches index e [ConfigurationCommitted index (entry_term e) previous c].
Proof.
  unfold configuration_entry, dispatches. destruct (entry_kind e); intros [= ->]. by exists previous.
Qed.

Lemma noop_dispatches index e :
  application_payload e = None -> configuration_entry e = None -> dispatches index e [].
Proof.
  unfold application_payload, configuration_entry, dispatches. by destruct (entry_kind e).
Qed.

Lemma emit_committed_entry_refines n e :
  good strict n -> dispatched_index (volatile n) < commit_index (volatile n) ->
  entry_at n (LogIndex_next (dispatched_index (volatile n))) = Some e ->
  refines strict op n (emit_committed_entry n (LogIndex_next (dispatched_index (volatile n))) e).
Proof.
  intros Hg Hlt He. unfold emit_committed_entry.
  destruct (tracker_remove _ _) as [remaining removed].
  destruct (application_payload e) as [payload|] eqn:Ep.
  { eapply advance_cursor_refines; [done|done|done|by apply application_dispatches]. }
  destruct (configuration_entry e) as [c|] eqn:Ec.
  - set (n1 := n <| volatile ; dispatched_index := _ |> <| volatile ; local_proposals := _ |>).
    set (committed := ConfigurationCommitted _ _ _ _).
    destruct (step_down_if_removed n1 (membership_config c)) as [n2 o2] eqn:E2.
    change (committed :: o2) with ([committed] ++ o2). apply refines_trans with n1.
    + eapply advance_cursor_refines; [done|done|done|by apply configuration_dispatches].
    + rewrite <- E2. apply step_down_if_removed_refines. by destruct Hg as [[] _]; split.
  - eapply advance_cursor_refines; [done|done|done|by apply noop_dispatches].
Qed.

Lemma emit_committed_loop_refines fuel n :
  good strict n -> refines strict op n (emit_committed_loop fuel n).
Proof.
  revert n. induction fuel as [|fuel IH]; intros n Hg; simpl.
  { apply refines_unseen; [apply unseen_refl, Hg|constructor]. }
  destruct (N.ltb_spec (dispatched_index (volatile n)) (commit_index (volatile n))); simpl negb;
    [|by apply refines_unseen; [apply unseen_refl, Hg|constructor]].
  destruct (entry_at n _) as [e|] eqn:He;
    [|by apply refines_unseen; [apply unseen_refl, Hg|constructor]].
  pose proof (emit_committed_entry_refines n e Hg H He) as He1.
  destruct (emit_committed_entry n _ e) as [n1 o1].
  specialize (IH n1 (refines_good n (n1, o1) Hg He1)).
  destruct (emit_committed_loop fuel n1) as [n2 o2]. by eapply refines_trans.
Qed.

Lemma emit_committed_outputs_refines n :
  good strict n -> refines strict op n (emit_committed_outputs n).
Proof. apply emit_committed_loop_refines. Qed.

(** ** Commitment by the leader *)

Lemma quorum_index_bounded p s i :
  matches_bounded p -> quorum_index p s = Some i -> i < u64_modulus.
Proof.
  intros Hp. unfold quorum_index. destruct (_ <? _)%nat; [done|].
  intros Hi%list_elem_of_lookup_2. rewrite elem_of_reverse in Hi.
  unfold sort_unstable in Hi. rewrite merge_sort_Permutation in Hi.
  unfold match_indexes_for in Hi. apply list_elem_of_fmap in Hi as (q & -> & Hq).
  apply list_elem_of_omap in Hq as (k & _ & Hk). eapply Forall_lookup_1 in Hp; [|done]. apply Hp.
Qed.

Lemma quorum_replicated_index_bounded p i :
  matches_bounded p -> quorum_replicated_index p = Some i -> i < u64_modulus.
Proof.
  intros Hp. unfold quorum_replicated_index.
  destruct (quorum_index p (old_voters _)) as [a|] eqn:Ea; [|done].
  apply quorum_index_bounded in Ea as Ha; [|done].
  destruct (new_voters _) as [s|]; [|by intros [= <-]].
  destruct (quorum_index p s); [|done]. intros [= <-]. lia.
Qed.

Lemma reached_believed p i v : reached p i v = true -> believed (abs_match p) i v = true.
Proof.
  unfold reached, ProgressSet_get, slot. destruct (slot_of _ v) as [k|] eqn:Ek; simpl; [|done].
  destruct (progress_slots p !! k) as [q|] eqn:Eq; simpl; [|done]. intros Hi.
  apply slot_of_Some in Ek. apply existsb_exists. exists (v, match_index q).
  split; [|by rewrite N.eqb_refl]. apply list_elem_of_In, elem_of_abs_match. eauto.
Qed.

Lemma advance_commit_index_refines n :
  good strict n -> role (volatile n) = Leader ->
  refines strict op n (advance_commit_index_into n).
Proof.
  intros Hg Hl. unfold advance_commit_index_into.
  pose proof (reconcile_unseen _ _ Hg) as Hu. pose proof (unseen_good _ _ _ Hg Hu) as Hg1.
  assert (role (volatile (reconcile_replication_progress n)) = Leader) as Hl1.
  { by rewrite (unseen_role _ _ Hu). }
  assert (forall c, quorum_replicated_index (progress (leader (reconcile_replication_progress n))) = Some c ->
    quorum_of (s_membership (abs (reconcile_replication_progress n)))
      (believed (s_match (abs (reconcile_replication_progress n))) c) = true) as Hquorum.
  { intros c Hc. rewrite <- effective_membership_abs by apply Hg1.
    assert (effective_membership (reconcile_replication_progress n) = effective_membership n) as ->.
    { rewrite !effective_membership_abs by first [apply Hg1|apply Hg].
      by destruct (unseen_abs _ _ Hu) as [m ->]. }
    destruct (quorum_replicated_correct _ _ _ (effective_wf _ _ (proj1 Hg) (proj2 Hg))
                (reconcile_represents _ _ Hg Hl) (reconcile_length n Hl)) as (i & Hi & Hq & _).
    simplify_eq. eapply quorum_of_monotone, Hq. intros v. apply reached_believed. }
  set (n1 := reconcile_replication_progress n) in *.
  apply (refines_after_unseen n n1); [done|]. clearbody n1. clear Hg Hl Hu n.
  specialize (Hquorum) as Hq. destruct (quorum_replicated_index _) as [c|] eqn:Eq;
    [|by apply refines_unseen; [apply unseen_refl, Hg1|constructor]].
  destruct (N.leb_spec c (commit_index (volatile n1))) as [|Hlt];
    [by apply refines_unseen; [apply unseen_refl, Hg1|constructor]|].
  case_bool_decide as Ht; simpl negb;
    [|by apply refines_unseen; [apply unseen_refl, Hg1|constructor]].
  assert (c < u64_modulus) as Hc by (eapply quorum_replicated_index_bounded; [|done]; apply Hg1).
  destruct Hg1 as [Hr Hinv]. rewrite term_at_abs in Ht by done.
  assert (refines strict op n1 (n1 <| volatile ; commit_index := c |>, [])) as H1.
  { eapply refines_rule; [|done|done|by destruct Hr; split|constructor].
    apply (rule_commit_leader strict op (abs n1) c); [done|done| |done|by apply Hq].
    by apply s_term_at_range in Ht as [_ ?]. }
  eapply refines_bind_quiet; [done|done|]. apply emit_committed_outputs_refines.
Qed.
End dispatch.

(** ** Becoming the leader *)

Lemma append_log_entry_rep n e :
  rep n -> snapshot_index n + length_u64 (log (persistent n)) + 2 < u64_modulus ->
  rep (append_log_entry n e).
Proof.
  intros [] Hc. split; simpl; try done.
  - by rewrite rep_offsets, record_append_from_log.
  - rewrite length_app_u64. unfold snapshot_index in *. simpl. unfold length_u64 in *. simpl in *. lia.
Qed.

Lemma ProgressSet_reset_wf c self_id a b :
  index_wf (progress_index (ProgressSet_reset c self_id a b)).
Proof. eapply represents_wf, MembershipIndex_new_represents. Qed.

Lemma ProgressSet_reset_bounded c self_id a b :
  a < u64_modulus -> b < u64_modulus -> matches_bounded (ProgressSet_reset c self_id a b).
Proof.
  intros Ha Hb. apply Forall_forall. intros p (x & -> & _)%list_elem_of_fmap.
  pose proof (next_bounded b).
  destruct (x =? self_id); split; simpl; (done || unfold u64_modulus in *; lia).
Qed.

Section lead.
Context {strict : bool} {op : Op} (n : Node).

(** The node between its election and the first attempt to commit, before and
    after it sets up its view of the other logs. *)
Definition crowned (n : Node) : Node :=
  let n := n <| volatile ; role := Leader |>
             <| volatile ; leader_hint := Some (Node_id n) |>
             <| election := enter_leadership (election n) |>
             <| leader := LeaderState_default |>
             <| volatile ; incoming_snapshot := None |> in
  append_log_entry n (LogEntry_noop (current_term (persistent n))).

Definition elected (n : Node) : Node :=
  let n := crowned n in
  n <| leader ; progress :=
         ProgressSet_reset (effective_membership n) (Node_id n) (last_log_index n)
           (last_log_index n) |>.

Lemma become_leader_elected : become_leader n = advance_commit_index (elected n).
Proof. done. Qed.

Lemma crowned_abs : abs (crowned n) = s_lead (abs n).
Proof. done. Qed.

Lemma crowned_rep :
  rep n -> snapshot_index n + length_u64 (log (persistent n)) + 2 < u64_modulus ->
  rep (crowned n).
Proof.
  intros Hr Hc. unfold crowned. cbv zeta.
  set (n1 := n <| volatile ; role := Leader |> <| volatile ; leader_hint := Some (Node_id n) |>
               <| election := enter_leadership (election n) |> <| leader := LeaderState_default |>
               <| volatile ; incoming_snapshot := None |>).
  assert (rep n1) as Hr1 by (destruct Hr; by apply rep_fresh_leader).
  by apply append_log_entry_rep.
Qed.

Lemma elected_unseen : rep (crowned n) -> unseen (crowned n) (elected n).
Proof.
  intros Hr. pose proof (last_log_index_bounded (crowned n)) as Hb. unfold elected. cbv zeta.
  apply unseen_progress; [done|apply ProgressSet_reset_wf|by apply ProgressSet_reset_bounded|done|].
  apply weakens_slots. intros i v q Hi Hq. unfold ProgressSet_reset in Hi, Hq.
  cbn [progress_slots progress_index] in Hi, Hq.
  apply list_lookup_fmap_Some in Hq as (v' & -> & Hi'). simplify_eq.
  destruct (N.eqb_spec v (Node_id (crowned n))) as [Hv|]; [|by left]. right; right.
  split; [done|]. cbn [Progress_local match_index]. by rewrite last_log_index_abs.
Qed.

Lemma become_leader_refines :
  good strict n -> role (volatile n) = Candidate ->
  has_effective_quorum n (votes (election n)) = true ->
  snapshot_index n + length_u64 (log (persistent n)) + 2 < u64_modulus ->
  refines strict op n (become_leader n).
Proof.
  intros Hg Hrole Hq Hc. rewrite become_leader_elected. pose proof Hg as [Hr Hinv].
  pose proof (crowned_rep Hr Hc) as Hr1.
  apply (refines_bind_quiet n (crowned n)); [done| |].
  - eapply refines_rule; [|apply crowned_abs|done|done|constructor].
    apply rule_lead; [done|]. by rewrite (has_effective_quorum_abs strict n Hr Hinv) in Hq.
  - intros Hg1. pose proof (elected_unseen Hr1) as Hu. apply (refines_after_unseen _ _ _ Hu).
    apply advance_commit_index_refines; [by eapply unseen_good|by rewrite (unseen_role _ _ Hu)].
Qed.
End lead.
