(* ===== verification/RefineSend.v ===== *)
(** * Refinement: replication sends

    Sending to followers changes only the leader's replication bookkeeping,
    which the abstract node does not see, and the contact sequence. *)

From stdpp Require Import base list sorting numbers option sets.
From S2P Require Import Prelude.
From S2P Require Import Types.
From S2P Require Import Snapshot.
From S2P Require Import Message.
From S2P Require Import Membership.
From S2P Require Import MembershipIndex.
From S2P Require Import Progress.
From S2P Require Import Config.
From S2P Require Import NodeState.
From S2P Require Import Log.
From S2P Require Import View.
From S2P Require Import Commit.
From S2P Require Import Send.
From S2P Require Import ReadIndex.
From S2P Require Import Transfer.
From S2P Require Import Spec.
From S2P Require Import Abstraction.
From S2P Require Import RefineCommit.

(** A change the abstract node does not see, with outputs any operation may emit. *)
Definition unseen_sends (n n' : Node) (o : list Output) : Prop :=
  unseen n n' /\ Forall (allowed (abs n)) o.

Lemma unseen_sends_refl n o : rep n -> Forall (allowed (abs n)) o -> unseen_sends n n o.
Proof. intros. split; [by apply unseen_refl|done]. Qed.

Lemma unseen_allowed n n' o : unseen n n' -> Forall (allowed (abs n')) o -> Forall (allowed (abs n)) o.
Proof.
  intros [m Ha]%unseen_abs. rewrite Ha. intros H. eapply Forall_impl; [exact H|].
  intros x. apply allowed_match.
Qed.

Lemma unseen_sends_trans a b c o1 o2 :
  unseen_sends a b o1 -> unseen_sends b c o2 -> unseen_sends a c (o1 ++ o2).
Proof.
  intros [Hab ?] [? Ho2]. split; [by eapply unseen_trans|]. apply Forall_app. split; [done|].
  by eapply unseen_allowed.
Qed.

(** ** Messages *)

Lemma get_leader n f p :
  rep n -> ProgressSet_get (progress (leader n)) f = Some p ->
  role (volatile n) = Leader /\ progress_bounded p.
Proof.
  intros Hr Hp. split.
  - destruct (decide (role (volatile n) = Leader)) as [|Hne]; [done|].
    by rewrite (rep_followers _ Hr Hne) in Hp.
  - unfold ProgressSet_get in Hp. destruct (slot _ f) as [k|]; [|done]. simpl in Hp.
    by eapply (Forall_lookup_1 progress_bounded) in Hp; [|apply (rep_matches _ Hr)].
Qed.

Section messages.
Context (n : Node) (Hr : rep n) (Hl : role (volatile n) = Leader).

(** A message without entries. *)
Lemma allowed_probe f next :
  next < u64_modulus -> allowed (abs n) (append_entries_message n f next []).
Proof.
  intros Hn op. simpl. red. simpl. split_and!; [done|done|done|done|].
  rewrite term_at_abs by (done || unfold u64_saturating_sub; lia).
  destruct (s_term_at (abs n) _) as [t|] eqn:Et; simpl; [right|by left].
  split; [done|apply prefix_nil].
Qed.

Lemma s_term_at_defined s i : s_base s <= i <= s_last s -> exists t, s_term_at s i = Some t.
Proof.
  intros Hi. unfold s_term_at. destruct (N.eqb_spec i (s_base s)); [eauto|].
  unfold s_entry, s_last, length_u64 in *. destruct (N.leb_spec i (s_base s)); [lia|].
  destruct (lookup_lt_is_Some_2 (s_log s) (N.to_nat (i - s_base s - 1))) as [e He]; [lia|].
  rewrite He. simpl. eauto.
Qed.

(** A piece of the log from [next] on. *)
Lemma allowed_piece f next entries :
  snapshot_index n < next <= last_log_index n -> entries `prefix_of` log_from n next ->
  allowed (abs n) (append_entries_message n f next entries).
Proof.
  intros Hn Hp op. pose proof (rep_capacity _ Hr) as Hc.
  pose proof (last_log_index_exact n Hc) as Hlast.
  simpl. red. simpl. split_and!; [done|done|done|done|]. right.
  assert (u64_saturating_sub next 1 = next - 1) as -> by (unfold u64_saturating_sub; lia).
  rewrite term_at_abs by (done || lia).
  destruct (s_term_at_defined (abs n) (next - 1)) as [t Ht].
  { rewrite <- last_log_index_abs by done. simpl. lia. }
  rewrite Ht. simpl. split; [done|]. unfold log_from in Hp.
  by replace (next - 1 - snapshot_index n) with (next - snapshot_index n - 1) by lia.
Qed.

Lemma allowed_empty_append f : Forall (allowed (abs n)) (send_empty_append_to_progress_next n f).
Proof.
  unfold send_empty_append_to_progress_next. destruct (ProgressSet_get _ f) as [p|] eqn:Ep;
    [|constructor]. constructor; [|constructor]. apply allowed_probe.
  by destruct (get_leader _ _ _ Hr Ep) as [_ [_ ?]].
Qed.

Lemma allowed_chunk f : Forall (allowed (abs n)) (replicate_snapshot_to_follower n f).
Proof.
  unfold replicate_snapshot_to_follower. destruct (snapshot (persistent n)) as [snap|] eqn:Es;
    [|constructor]. constructor; [|constructor]. intros op. simpl. red. simpl.
  unfold snapshot_index, snapshot_base_term. rewrite Es. split_and!; [done|done|done|done|].
  by case_cmp.
Qed.
End messages.

(** ** The batch cache *)

(** Every cached batch is the one the log gives. *)
Definition cache_ok (n : Node) (cache : LogBatchCache) : Prop :=
  Forall (fun cached => log_batch_from_bounded n (clb_first_index cached)
                          (clb_max_replication_bytes cached) = Some (clb_batch cached)) cache.

Lemma log_batch_ext n n' :
  snapshot_index n' = snapshot_index n -> log (persistent n') = log (persistent n) ->
  forall i max, log_batch_from_bounded n' i max = log_batch_from_bounded n i max.
Proof.
  intros Hs Hl i max. unfold log_batch_from_bounded, last_log_index, first_retained_log_index.
  by rewrite Hs, Hl.
Qed.

Lemma cache_ok_ext n n' cache :
  snapshot_index n' = snapshot_index n -> log (persistent n') = log (persistent n) ->
  cache_ok n cache -> cache_ok n' cache.
Proof.
  intros Hs Hl H. eapply Forall_impl; [exact H|]. intros c. by rewrite (log_batch_ext n n').
Qed.

Lemma unseen_log n n' :
  unseen n n' -> snapshot_index n' = snapshot_index n /\ log (persistent n') = log (persistent n).
Proof.
  intros [m Ha]%unseen_abs. split; [by apply (f_equal s_base) in Ha|by apply (f_equal s_log) in Ha].
Qed.

Lemma cache_ok_unseen n n' cache : unseen n n' -> cache_ok n cache -> cache_ok n' cache.
Proof. intros [??]%unseen_log. by apply cache_ok_ext. Qed.

(** The cache is transparent. *)
Lemma cached_batch n i max cache :
  cache_ok n cache ->
  (log_batch_from_bounded_cached n i max cache).1 = log_batch_from_bounded n i max /\
  cache_ok n (log_batch_from_bounded_cached n i max cache).2.
Proof.
  intros Hc. unfold log_batch_from_bounded_cached.
  destruct (find_first _ cache) as [c|] eqn:Ef.
  - apply find_first_Some in Ef as [Hin Hk]. apply andb_true_iff in Hk as [<-%N.eqb_eq <-%N.eqb_eq].
    split; [|done]. symmetry. by eapply (proj1 (Forall_forall _ _) Hc).
  - destruct (log_batch_from_bounded n i max) as [b|] eqn:Eb; [|done]. split; [done|].
    apply Forall_app. split; [done|]. by constructor.
Qed.

(** ** One follower *)

Lemma update_progress_unseen n node f :
  rep n -> (forall p, progress_bounded p -> progress_bounded (f p)) ->
  (forall q, match_index (f q) <= match_index q) ->
  unseen n (update_progress n node f).
Proof. intros Hr Hf Hm. apply unseen_progress_update; [done|done|]. intros q. by left. Qed.

(** Sending to one follower keeps the cache correct. *)
Definition sends_with_cache (n n' : Node) (o : list Output) (cache' : LogBatchCache) : Prop :=
  unseen_sends n n' o /\ cache_ok n cache'.

Lemma replicate_probe_unseen n f a d cache n' o cache' :
  rep n -> cache_ok n cache ->
  replicate_probe_to_follower n f a d (snapshot_index n) cache = (n', o, cache') ->
  sends_with_cache n n' o cache'.
Proof.
  intros Hr Hc. unfold replicate_probe_to_follower. destruct a.
  { intros [= <- <- <-]. split; [|done]. apply unseen_sends_refl; [done|].
    destruct (requires_message d); [|constructor].
    destruct (ProgressSet_get (progress (leader n)) f) as [p|] eqn:Ep.
    - by eapply allowed_empty_append; [|eapply get_leader].
    - unfold send_empty_append_to_progress_next. rewrite Ep. constructor. }
  destruct (ProgressSet_get _ _) as [p|] eqn:Ep;
    [|intros [= <- <- <-]; split; [by apply unseen_sends_refl|done]].
  destruct (get_leader _ _ _ Hr Ep) as [Hl [_ Hb]].
  pose proof (rep_capacity _ Hr) as Hcap. pose proof (first_retained_exact n Hcap) as Hfirst.
  change (LogIndex_next (snapshot_index n)) with (first_retained_log_index n). rewrite Hfirst.
  set (next := N.max (next_index p) (snapshot_index n + 1)).
  destruct (cached_batch n next (max_append_entries_bytes (config n)) cache Hc) as [Hbatch Hc'].
  destruct (log_batch_from_bounded_cached _ _ _ _) as [batch cache1]. simpl in Hbatch, Hc'.
  intros [= <- <- <-]. split; [|done]. split.
  - apply update_progress_unseen; [done| |done]. intros q [? _]. split; simpl; [done|lia].
  - constructor; [|constructor]. pose proof (log_batch_spec n Hcap next (max_append_entries_bytes (config n))) as Hspec.
    rewrite <- Hbatch in Hspec. destruct batch as [b|]; [|by apply allowed_probe; [..|lia]].
    destruct Hspec as (? & Hf & _ & Hp & _). rewrite Hf in Hp.
    apply allowed_piece; [done|done|lia|]. by replace (N.max next (snapshot_index n + 1)) with next in Hp by lia.
Qed.

Lemma window_round_unseen n f w cache r cache' :
  rep n -> cache_ok n cache -> window_round n f w cache = (r, cache') ->
  cache_ok n cache' /\
  match r with Some (n', o) => unseen n n' /\ allowed (abs n) o | None => True end.
Proof.
  intros Hr Hc. unfold window_round. destruct (ProgressSet_get _ _) as [p|] eqn:Ep; [|by intros [= <- <-]].
  destruct (get_leader _ _ _ Hr Ep) as [Hl [_ Hb]].
  destruct (_ || _); [by intros [= <- <-]|].
  destruct (cached_batch n (next_index p) (max_append_entries_bytes (config n)) cache Hc) as [Hbatch Hc'].
  destruct (log_batch_from_bounded_cached _ _ _ _) as [batch cache1]. simpl in Hbatch, Hc'.
  destruct batch as [b|]; intros [= <- <-]; (split; [done|]); [|done].
  pose proof (rep_capacity _ Hr) as Hcap.
  pose proof (log_batch_spec n Hcap (next_index p) (max_append_entries_bytes (config n))) as Hspec.
  rewrite <- Hbatch in Hspec. destruct Hspec as (? & Hf & Hne & Hp & Hlast & Hle & _). split.
  - apply update_progress_unseen; [done| |done]. intros q [? _]. split; [done|apply next_bounded].
  - apply allowed_piece; [done|done| |done].
    destruct (lb_entries b); [done|]. unfold length_u64 in Hlast. simpl in Hlast. lia.
Qed.

Lemma window_loop_unseen fuel n f w cache n' o cache' :
  rep n -> cache_ok n cache -> window_loop fuel n f w cache = (n', o, cache') ->
  sends_with_cache n n' o cache'.
Proof.
  revert n cache n' o cache'. induction fuel as [|fuel IH]; intros n cache n' o cache' Hr Hc; simpl.
  { intros [= <- <- <-]. split; [by apply unseen_sends_refl|done]. }
  destruct (window_round n f w cache) as [r cache1] eqn:E1.
  apply window_round_unseen in E1 as [Hc1 Hround]; [|done|done]. destruct r as [[n1 o1]|];
    [|intros [= <- <- <-]; split; [by apply unseen_sends_refl|done]].
  destruct Hround as [Hu Hq].
  destruct (window_loop fuel n1 f w cache1) as [[n2 o2] cache2] eqn:E2. intros [= <- <- <-].
  destruct (IH _ _ _ _ _ (unseen_rep _ _ Hu) (cache_ok_unseen _ _ _ Hu Hc1) E2) as [Hs Hc2]. split.
  - apply (unseen_sends_trans n n1 n2 [o1] o2); [|done]. split; [done|by constructor].
  - destruct (unseen_log _ _ Hu). by eapply (cache_ok_ext n1 n).
Qed.

Lemma fill_replication_window_unseen n f d w cache n' o cache' :
  rep n -> role (volatile n) = Leader -> cache_ok n cache ->
  fill_replication_window n f d w cache = (n', o, cache') -> sends_with_cache n n' o cache'.
Proof.
  intros Hr Hl Hc. unfold fill_replication_window.
  destruct (window_loop _ n f w cache) as [[n1 o1] cache1] eqn:E1.
  apply window_loop_unseen in E1 as [[Hu Hq] Hc1]; [|done|done].
  destruct o1; intros [= <- <- <-]; (split; [split|done]); try done.
  destruct (requires_message d); [|constructor].
  eapply unseen_allowed; [done|]. apply allowed_empty_append; [by eapply unseen_rep|].
  by rewrite (unseen_role _ _ Hu).
Qed.

Lemma enter_snapshot_mode_fields i p :
  match_index (enter_snapshot_mode i p) = match_index p /\
  next_index (enter_snapshot_mode i p) = next_index p.
Proof. unfold enter_snapshot_mode. destruct (mode p); try done; by destruct (_ <=? _). Qed.

Lemma replicate_fresh_unseen n f d cache n' o cache' :
  rep n -> cache_ok n cache ->
  replicate_to_follower_with_cache_fresh n f d cache = (n', o, cache') ->
  sends_with_cache n n' o cache'.
Proof.
  intros Hr Hc. unfold replicate_to_follower_with_cache_fresh.
  destruct (_ || _); [intros [= <- <- <-]; split; [by apply unseen_sends_refl|done]|].
  set (n1 := update_progress n f _).
  assert (unseen n n1) as Hu.
  { apply update_progress_unseen; [done| |]; intros p;
      destruct (enter_snapshot_mode_fields (snapshot_index n) p) as [Hm Hn].
    - unfold progress_bounded. by rewrite Hm, Hn.
    - by rewrite Hm. }
  pose proof (unseen_rep _ _ Hu) as Hr1. pose proof (cache_ok_unseen _ _ _ Hu Hc) as Hc1. cbv zeta.
  destruct (unseen_log _ _ Hu) as [Hs Hlog].
  intros He. enough (sends_with_cache n1 n' o cache') as [Hsends Hc'].
  { split; [apply (unseen_sends_trans n n1 n' [] o); [by split|done]|by eapply (cache_ok_ext n1 n)]. }
  destruct (ProgressSet_get _ _) as [p|] eqn:Ep;
    [|injection He as <- <- <-; split; [by apply unseen_sends_refl|done]].
  destruct (get_leader _ _ _ Hr1 Ep) as [Hl _]. destruct (mode p).
  - rewrite <- Hs in He. by eapply replicate_probe_unseen.
  - by eapply fill_replication_window_unseen.
  - injection He as <- <- <-. split; [|done]. apply unseen_sends_refl; [done|].
    by apply allowed_chunk.
Qed.

Lemma broadcast_loop_unseen slots n d cache n' o :
  rep n -> cache_ok n cache -> broadcast_loop slots n d cache = (n', o) -> unseen_sends n n' o.
Proof.
  revert n cache n' o. induction slots as [|k slots IH]; intros n cache n' o Hr Hc; simpl.
  { intros [= <- <-]. by apply unseen_sends_refl. }
  destruct (replica_id_at _ _) as [f|]; [|by apply IH].
  destruct (f =? Node_id n); [by apply IH|].
  destruct (replicate_to_follower_with_cache_fresh n f d cache) as [[n1 o1] cache1] eqn:E1.
  apply replicate_fresh_unseen in E1 as [H1 Hc1]; [|done|done].
  destruct (broadcast_loop slots n1 d cache1) as [n2 o2] eqn:E2. intros [= <- <-].
  eapply unseen_sends_trans; [done|]. eapply IH; [by eapply unseen_rep, H1| |done].
  by eapply cache_ok_unseen; [apply H1|].
Qed.

Section sends.
Context {strict : bool} {op : Op} (n : Node) (Hg : good strict n).

Lemma replicate_to_follower_unseen f d n' o :
  replicate_to_follower n f d = (n', o) -> unseen_sends n n' o.
Proof.
  unfold replicate_to_follower. pose proof (reconcile_unseen _ _ Hg) as Hu.
  destruct (replicate_to_follower_with_cache_fresh _ f d []) as [[n1 o1] c1] eqn:E1.
  apply replicate_fresh_unseen in E1 as [Hs _]; [|by eapply unseen_rep|constructor].
  intros [= <- <-]. by apply (unseen_sends_trans n _ n1 [] o1 (conj Hu (Forall_nil_2 _))).
Qed.

Lemma replicate_to_follower_refines f d : refines strict op n (replicate_to_follower n f d).
Proof.
  destruct (replicate_to_follower n f d) as [n' o] eqn:E.
  destruct (replicate_to_follower_unseen f d n' o E). by apply refines_unseen_allowed.
Qed.

Lemma broadcast_progress_refines : refines strict op n (broadcast_replication_into n ProgressOnly).
Proof.
  unfold broadcast_replication_into. simpl. pose proof (reconcile_unseen _ _ Hg) as Hu.
  destruct (broadcast_loop _ _ _ _) as [n' o] eqn:E.
  apply broadcast_loop_unseen in E as Hs; [|by eapply unseen_rep|constructor].
  destruct (unseen_sends_trans n _ n' [] o (conj Hu (Forall_nil_2 _)) Hs).
  by apply refines_unseen_allowed.
Qed.
End sends.

Lemma begin_contact_round_rep n : rep n -> rep (begin_contact_round n).
Proof. intros []. by split. Qed.

Lemma begin_contact_round_abs n :
  heartbeat_sequence (leader n) + 1 < u64_modulus ->
  abs (begin_contact_round n) = (abs n) <| s_sequence := s_sequence (abs n) + 1 |>.
Proof.
  intros H. unfold begin_contact_round, abs. simpl. by rewrite u64_add_small.
Qed.

(** A contact round: the sequence advances, the sends are allowed. *)
Lemma broadcast_append_entries_unseen strict n n' o :
  good strict (begin_contact_round n) -> broadcast_append_entries n = (n', o) ->
  unseen_sends (begin_contact_round n) n' o.
Proof.
  intros Hg. unfold broadcast_append_entries, broadcast_replication_into. cbn [requires_message].
  pose proof (reconcile_unseen _ _ Hg) as Hu.
  destruct (broadcast_loop _ _ _ _) as [n1 o1] eqn:E. intros [= <- <-].
  apply broadcast_loop_unseen in E as Hs; [|by eapply unseen_rep|constructor].
  by apply (unseen_sends_trans _ _ n1 [] o1 (conj Hu (Forall_nil_2 _))).
Qed.

Lemma begin_contact_round_refines strict op n :
  good strict n -> heartbeat_sequence (leader n) + 1 < u64_modulus ->
  refines strict op n (begin_contact_round n, []).
Proof.
  intros Hg Hs. eapply refines_rule; [apply rule_contact|by apply begin_contact_round_abs|done
    |apply begin_contact_round_rep, Hg|constructor].
Qed.

Lemma broadcast_append_entries_refines strict op n :
  good strict n -> heartbeat_sequence (leader n) + 1 < u64_modulus ->
  refines strict op n (broadcast_append_entries n).
Proof.
  intros Hg Hs. eapply refines_bind_quiet; [done|by apply begin_contact_round_refines|].
  intros Hg1. destruct (broadcast_append_entries n) as [n' o] eqn:E.
  destruct (broadcast_append_entries_unseen _ _ _ _ Hg1 E). by apply refines_unseen_allowed.
Qed.
