(* ===== verification/RefineRead.v ===== *)
(** * Refinement: quorum contact, read barriers and leadership transfer

    The operations of [ReadIndex.v] and [Transfer.v] are runs of the abstract
    node. *)

From stdpp Require Import base list sorting numbers option sets.
From S2P Require Import Prelude.
From S2P Require Import Types.
From S2P Require Import Snapshot.
From S2P Require Import Message.
From S2P Require Import Membership.
From S2P Require Import MembershipIndex.
From S2P Require Import Progress.
From S2P Require Import Config.
From S2P Require Import NodeState.
From S2P Require Import Log.
From S2P Require Import View.
From S2P Require Import Commit.
From S2P Require Import Send.
From S2P Require Import ReadIndex.
From S2P Require Import Transfer.
From S2P Require Import Spec.
From S2P Require Import Abstraction.
From S2P Require Import RefineCommit.
From S2P Require Import RefineSend.

(** ** Acknowledgement bookkeeping *)

Lemma unseen_quorum_acks n acks :
  rep n -> ack_wf acks -> unseen n (n <| leader ; quorum_acks := acks |>).
Proof. intros [] Ha. apply unseen_same; [done|done|]. by split. Qed.

Lemma unseen_lease n l :
  rep n -> ack_wf (lease_acks l) -> unseen n (n <| leader ; lease := l |>).
Proof. intros [] Ha. apply unseen_same; [done|done|]. by split. Qed.

Lemma has_quorum_with_self_refresh s c self_id :
  (has_quorum_with_self s c self_id).1 = refresh s c self_id.
Proof. done. Qed.

Lemma record_ack_wf l follower sequence c self_id :
  ack_wf (lease_acks l) -> MembershipConfig_wf c ->
  ack_wf (lease_acks (record_ack l follower sequence c self_id).1).
Proof.
  intros Hl Hc. unfold record_ack. destruct (_ <? _); [done|]. by apply insert_wf.
Qed.

Section contact.
Context {strict : bool} {op : Op} (n : Node) (Hg : good strict n).

Lemma acknowledge_read_lease_unseen follower sequence :
  unseen n (acknowledge_read_lease n follower sequence).
Proof.
  destruct Hg as [Hr Hinv]. pose proof (effective_wf _ _ Hr Hinv) as Hw.
  unfold acknowledge_read_lease. destruct (negb _); [by apply unseen_refl|].
  pose proof (record_ack_wf _ follower sequence _ (Node_id n) (rep_lease_acks _ Hr) Hw) as Ha.
  destruct (record_ack _ _ _ _ _) as [l [|]]; simpl in Ha |- *; [|by apply unseen_lease].
  assert (ack_wf (refresh (lease_acks l) (effective_membership n) (Node_id n))) as Hf
    by by apply refresh_wf.
  destruct (has_quorum_slots_with_self _ _); simpl.
  - apply (unseen_lease n (confirm_and_rearm _ _ _)); [done|]. by apply AcknowledgementSet_clear_wf.
  - by apply (unseen_lease n (l <| lease_acks := _ |>)).
Qed.

Lemma tick_read_lease_unseen : unseen n (tick_read_lease n).
Proof.
  destruct Hg as [Hr Hinv]. unfold tick_read_lease. destruct (negb _); [by apply unseen_refl|].
  destruct (_ <? _); [by apply unseen_refl|]. apply unseen_lease; [done|].
  apply AcknowledgementSet_clear_wf, Hr.
Qed.

Lemma record_quorum_ack_unseen follower : unseen n (record_quorum_ack n follower).
Proof.
  destruct Hg as [Hr Hinv]. unfold record_quorum_ack. rewrite reconcile_membership_effective.
  apply unseen_quorum_acks; [done|]. apply insert_wf; [apply Hr|by eapply effective_wf].
Qed.

(** The leader that lost its quorum steps down; otherwise nothing is seen. *)
Lemma tick_check_quorum_refines :
  match tick_check_quorum n with
  | (n', Some outputs) => refines strict op n (n', outputs)
  | (n', None) => unseen n n'
  end.
Proof.
  destruct Hg as [Hr Hinv]. pose proof (effective_wf _ _ Hr Hinv) as Hw.
  unfold tick_check_quorum. destruct (negb _); [by apply unseen_refl|]. cbv zeta.
  set (n1 := n <| leader ; quorum_check_elapsed := _ |>).
  assert (unseen n n1) as Hu by (destruct Hr; apply unseen_same; [done|done|]; by split).
  pose proof (unseen_rep _ _ Hu) as Hr1.
  destruct (_ <? _); [done|]. unfold has_quorum_with_self.
  set (acks := refresh _ _ _). assert (ack_wf acks) as Ha by (apply refresh_wf; [apply Hr1|done]).
  set (n2 := n1 <| leader ; quorum_acks := acks |>).
  assert (unseen n n2) as Hu2 by (eapply unseen_trans; [done|by apply unseen_quorum_acks]).
  destruct (has_quorum_slots_with_self _ _).
  - eapply unseen_trans; [done|]. destruct (unseen_rep _ _ Hu2). apply unseen_same; [done|done|].
    split; try done. by apply AcknowledgementSet_clear_wf.
  - pose proof (become_follower_refines strict op n2 (current_term (persistent n2))
                  (unseen_rep _ _ Hu2)) as Hf.
    destruct (become_follower n2 _) as [n3 o3]. apply (refines_after_unseen n n2); [done|].
    destruct Hf as (Hrun & Hcfg & []). red; split_and!; [done|done|]. by split.
Qed.
End contact.

(** ** Read barriers *)

Lemma quiet_grants ids i : Forall quiet (grant_reads ids i).
Proof. apply Forall_forall. by intros o (x & -> & _)%list_elem_of_fmap. Qed.

Lemma quiet_rejects ids r : Forall quiet (reject_reads ids r).
Proof. apply Forall_forall. by intros o (x & -> & _)%list_elem_of_fmap. Qed.

Lemma pending_read_count_abs n :
  pending_read_count n = length_u64 (round_ids (s_rounds (abs n))).
Proof.
  unfold pending_read_count, abs. simpl. induction (pending_reads (leader n)) as [|p l IH]; [done|].
  simpl. rewrite IH. unfold round_ids. simpl. by rewrite length_app_u64.
Qed.

(** The identities the operation registers are new and distinct. *)
Definition reads_fresh (op : Op) (n : Node) : Prop :=
  NoDup (op_reads op) /\ forall r, r ∈ op_reads op -> r ∉ round_ids (s_rounds (abs n)).

Section reads.
Context {strict : bool} {op : Op} (n : Node) (Hg : good strict n).

Lemma refines_reply o : Forall quiet o -> refines strict op n (n, o).
Proof. intros Ho. apply refines_unseen; [apply unseen_refl, Hg|done]. Qed.

Lemma has_committed_in_current_term_abs :
  has_committed_in_current_term n = true ->
  0 < s_commit (abs n) /\ s_term_at (abs n) (s_commit (abs n)) = Some (s_term (abs n)).
Proof.
  destruct Hg as [Hr Hinv]. unfold has_committed_in_current_term.
  rewrite andb_true_iff, bool_decide_eq_true, N.ltb_lt. intros [Hc Ht].
  rewrite term_at_abs in Ht by (done || by eapply commit_in_range). done.
Qed.

(** Registering a round and opening its contact round is the read rule. *)
Lemma register_round_refines available acks :
  role (volatile n) = Leader -> pending_transfer (leader n) = None ->
  has_committed_in_current_term n = true -> op_reads op <> [] ->
  available = MAX_PENDING_READS - pending_read_count n -> available <> 0 ->
  ack_wf acks -> heartbeat_sequence (leader n) + 1 < u64_modulus ->
  (strict = true -> reads_fresh op n) ->
  refines strict op n
    (begin_contact_round
       (n <| leader ; pending_reads := pending_reads (leader n) ++
              [{| read_ids := take (N.to_nat available) (op_reads op);
                  read_index := commit_index (volatile n);
                  registered_sequence := u64_add (heartbeat_sequence (leader n)) 1;
                  round_acks := acks |}] |>), []).
Proof.
  intros Hl Ht Hc Hne Hav Hpos Hacks Hseq Hfresh.
  destruct (has_committed_in_current_term_abs Hc) as [Hc0 Hct]. rewrite pending_read_count_abs in Hav.
  pose proof (u64_add_small _ _ Hseq) as Hadd.
  eapply refines_rule; [apply (rule_read _ _ (abs n) (N.to_nat available))| | | |constructor]; try done.
  - simpl. by rewrite Ht.
  - destruct (op_reads op); [done|]. destruct (N.to_nat available) eqn:E; [lia|done].
  - unfold MAX_PENDING_READS, MAX_ROUND_READS, length_u64 in *. rewrite length_take. lia.
  - unfold begin_contact_round, abs. simpl. rewrite map_app, Hadd. simpl. done.
  - destruct Hg as [[] _]. split; simpl; try done. apply Forall_app. split; [done|]. by constructor.
Qed.

Lemma read_index_batch_refines :
  heartbeat_sequence (leader n) + 1 < u64_modulus -> (strict = true -> reads_fresh op n) ->
  refines strict op n (read_index_batch n (op_reads op)).
Proof.
  intros Hseq Hfresh. unfold read_index_batch. destruct (op_reads op) as [|r rs] eqn:Eop;
    [by apply refines_reply|].
  case_bool_decide as Hl; simpl negb; [|apply refines_reply, quiet_rejects].
  destruct (pending_transfer (leader n)) eqn:Ht; [apply refines_reply, quiet_rejects|].
  destruct (has_committed_in_current_term n) eqn:Hc; simpl negb;
    [|apply refines_reply, quiet_rejects].
  destruct (lease_grant_available n); [apply refines_reply, quiet_grants|].
  unfold has_quorum_with_self. set (acks := refresh _ _ _).
  destruct Hg as [Hr Hinv]. pose proof (effective_wf _ _ Hr Hinv) as Hw.
  assert (ack_wf acks) as Ha by (apply refresh_wf; [apply AcknowledgementSet_new_wf|done]).
  destruct (has_quorum_slots_with_self _ _); [apply refines_reply, quiet_grants|].
  cbn [read_ids]. set (available := u64_saturating_sub _ _).
  destruct (N.eqb_spec available 0) as [|Hav]; [apply refines_reply, quiet_rejects|].
  cbv zeta. rewrite <- Eop.
  set (n1 := n <| leader ; pending_reads := _ |>).
  assert (refines strict op n (begin_contact_round n1, [])) as H1.
  { apply register_round_refines; try done. by rewrite Eop. }
  pose proof (refines_good _ _ Hg H1) as Hg1.
  destruct (broadcast_append_entries n1) as [n2 o2] eqn:E2.
  destruct (broadcast_append_entries_unseen _ _ _ _ Hg1 E2) as [Hu Hq].
  apply (refines_then_allowed n (begin_contact_round n1) [] n2); [done|done|].
  apply Forall_app. split; [done|apply quiets_allowed, quiet_rejects].
Qed.
End reads.

Lemma abs_acknowledge_round follower sequence c self_id p :
  abs_round (acknowledge_round follower sequence c self_id p) = abs_round p.
Proof. unfold acknowledge_round. by destruct (_ <=? _). Qed.

Lemma acknowledge_round_wf follower sequence c self_id p :
  MembershipConfig_wf c -> ack_wf (round_acks p) ->
  ack_wf (round_acks (acknowledge_round follower sequence c self_id p)).
Proof.
  intros Hc Hp. unfold acknowledge_round. destruct (_ <=? _); [|done]. by apply insert_wf.
Qed.

(** The rounds kept are some of the rounds, in order; the grants are quiet. *)
Lemma retain_unconfirmed_sublist rounds c self_id :
  MembershipConfig_wf c -> Forall (fun p => ack_wf (round_acks p)) rounds ->
  sublist (map abs_round (retain_unconfirmed rounds c self_id).1) (map abs_round rounds) /\
  Forall (fun p => ack_wf (round_acks p)) (retain_unconfirmed rounds c self_id).1 /\
  Forall quiet (retain_unconfirmed rounds c self_id).2.
Proof.
  intros Hc. induction rounds as [|p rounds IH]; intros Hw; [by repeat constructor|].
  apply Forall_cons in Hw as [Hp Hw]. specialize (IH Hw). simpl.
  destruct (retain_unconfirmed rounds c self_id) as [kept o]. simpl in IH.
  destruct IH as (Hs & Hk & Ho). destruct (has_quorum_slots_with_self _ _); simpl.
  - split_and!; [by constructor|done|]. apply Forall_app. split; [apply quiet_grants|done].
  - split_and!; [by apply (sublist_skip (abs_round p))| |done]. constructor; [|done].
    by apply refresh_wf.
Qed.

Section barriers.
Context {strict : bool} {op : Op} (n : Node) (Hg : good strict n).

Lemma acknowledge_read_barriers_refines follower sequence :
  refines strict op n (acknowledge_read_barriers n follower sequence).
Proof.
  destruct Hg as [Hr Hinv]. unfold acknowledge_read_barriers.
  destruct (pending_reads (leader n)) as [|p0 ps] eqn:Ep; [by apply refines_reply|].
  rewrite <- Ep. clear p0 ps Ep. set (rounds := map _ (pending_reads (leader n))).
  pose proof (effective_wf _ _ Hr Hinv) as Hw.
  assert (map abs_round rounds = s_rounds (abs n)) as Hrounds.
  { unfold rounds, abs. simpl. rewrite map_map. apply map_ext. intros p. apply abs_acknowledge_round. }
  assert (Forall (fun p => ack_wf (round_acks p)) rounds) as Hack.
  { apply Forall_forall. intros q (p & -> & Hp)%list_elem_of_fmap. apply acknowledge_round_wf; [done|].
    exact (proj1 (Forall_forall _ _) (rep_round_acks _ Hr) p Hp). }
  destruct (retain_unconfirmed_sublist _ _ (Node_id n) Hw Hack) as (Hs & Hk & Ho).
  destruct (retain_unconfirmed rounds _ _) as [kept o]. simpl in *. rewrite Hrounds in Hs.
  eapply refines_rule; [apply (rule_resolve_reads _ _ (abs n) _ Hs)|done|done| |done].
  destruct Hr. by split.
Qed.

(** ** Leadership transfer *)

Lemma send_timeout_now_unseen target n' o :
  send_timeout_now n target = (n', o) -> unseen_sends n n' o.
Proof.
  destruct Hg as [[] _]. unfold send_timeout_now. intros [= <- <-]. split; [|by apply quiets_allowed; repeat constructor].
  apply unseen_same; [|done|by split]. unfold abs. simpl. by destruct (pending_transfer (leader n)).
Qed.

Lemma maybe_complete_leadership_transfer_unseen follower n' o :
  maybe_complete_leadership_transfer n follower = (n', o) -> unseen_sends n n' o.
Proof.
  unfold maybe_complete_leadership_transfer.
  destruct (pending_transfer _); [destruct (_ || _)|];
    [intros [= <- <-]; apply unseen_sends_refl; [apply Hg|constructor]
    |apply send_timeout_now_unseen
    |intros [= <- <-]; apply unseen_sends_refl; [apply Hg|constructor]].
Qed.

Lemma tick_leadership_transfer_refines : refines strict op n (tick_leadership_transfer n, []).
Proof.
  destruct Hg as [[] _]. unfold tick_leadership_transfer.
  destruct (pending_transfer (leader n)) as [t|] eqn:Et; [|by apply refines_reply].
  cbv zeta. destruct (_ =? 0).
  - eapply refines_rule; [apply rule_transfer_end|done|done|by split|constructor].
  - apply refines_unseen; [|constructor]. apply unseen_same; [|done|by split].
    unfold abs. simpl. by rewrite Et.
Qed.
End barriers.

Lemma transfer_leadership_refines strict op n target :
  good strict n -> refines strict op n (transfer_leadership n target).
Proof.
  intros Hg. unfold transfer_leadership. case_bool_decide as Hl; simpl negb;
    [|by apply refines_reply; [|repeat constructor]].
  destruct (_ =? _); [by apply refines_reply; [|repeat constructor]|].
  destruct (negb _); [by apply refines_reply; [|repeat constructor]|].
  destruct (is_some _); [by apply refines_reply; [|repeat constructor]|]. cbv zeta.
  unfold drain_pending_reads. set (n1 := _ <| leader ; pending_reads := [] |>).
  set (canceled := _ ≫= _).
  assert (Forall quiet canceled) as Hq by apply quiet_cancels.
  assert (refines strict op n (n1, canceled)) as H1.
  { eapply refines_rule; [by apply rule_transfer|done|done| |done]. destruct Hg as [[] _].
    by split. }
  pose proof (refines_good _ _ Hg H1) as Hg1. destruct (target_is_caught_up n1 target).
  - destruct (send_timeout_now n1 target) as [n2 o2] eqn:E2.
    destruct (send_timeout_now_unseen (strict := strict) n1 Hg1 target n2 o2 E2). by eapply refines_then_allowed.
  - destruct (replicate_to_follower n1 target EnsureContact) as [n2 o2] eqn:E2.
    destruct (replicate_to_follower_unseen (strict := strict) n1 Hg1 target _ n2 o2 E2).
    by eapply refines_then_allowed.
Qed.
