(* ===== verification/RefineElection.v ===== *)
(** * Refinement: elections

    The operations of [Election.v] are runs of the abstract node. *)

From stdpp Require Import base list sorting numbers option sets.
From S2P Require Import Prelude.
From S2P Require Import Types.
From S2P Require Import Snapshot.
From S2P Require Import Message.
From S2P Require Import Membership.
From S2P Require Import MembershipIndex.
From S2P Require Import Progress.
From S2P Require Import Config.
From S2P Require Import NodeState.
From S2P Require Import Log.
From S2P Require Import View.
From S2P Require Import Commit.
From S2P Require Import Send.
From S2P Require Import ReadIndex.
From S2P Require Import Transfer.
From S2P Require Import Election.
From S2P Require Import Spec.
From S2P Require Import Abstraction.
From S2P Require Import RefineCommit.
From S2P Require Import RefineSend.
From S2P Require Import RefineRead.

(** The retained log has room for [k] more entries below the index limit. *)
Definition room (k : N) (n : Node) : Prop :=
  snapshot_index n + length_u64 (log (persistent n)) + k + 1 < u64_modulus.

(** ** Leader contact sequence *)

Lemma become_follower_sequence n t : heartbeat_sequence (leader (become_follower n t).1) = 0.
Proof. done. Qed.

Lemma emit_committed_entry_sequence n i e :
  heartbeat_sequence (leader (emit_committed_entry n i e).1) <= heartbeat_sequence (leader n).
Proof.
  unfold emit_committed_entry. destruct (tracker_remove _ _). destruct (application_payload e); [done|].
  destruct (configuration_entry e); [|done]. unfold step_down_if_removed.
  destruct (_ && _); simpl; lia.
Qed.

Lemma emit_committed_loop_sequence fuel n :
  heartbeat_sequence (leader (emit_committed_loop fuel n).1) <= heartbeat_sequence (leader n).
Proof.
  revert n. induction fuel as [|fuel IH]; intros n; simpl; [done|]. destruct (negb _); [done|].
  destruct (entry_at _ _) as [e|]; [|done].
  pose proof (emit_committed_entry_sequence n (LogIndex_next (dispatched_index (volatile n))) e).
  destruct (emit_committed_entry _ _ _) as [n1 o1]. specialize (IH n1).
  destruct (emit_committed_loop fuel n1). simpl in *. lia.
Qed.

Lemma unseen_sequence n n' :
  unseen n n' -> heartbeat_sequence (leader n') = heartbeat_sequence (leader n).
Proof. intros (Ha & _). by apply (f_equal s_sequence) in Ha. Qed.

Lemma advance_commit_index_sequence strict n :
  good strict n ->
  heartbeat_sequence (leader (advance_commit_index_into n).1) <= heartbeat_sequence (leader n).
Proof.
  intros Hg. unfold advance_commit_index_into.
  pose proof (unseen_sequence _ _ (reconcile_unseen _ _ Hg)) as Hs.
  destruct (quorum_replicated_index _); [|simpl; lia]. destruct (_ <=? _); [simpl; lia|].
  destruct (negb _); [simpl; lia|]. rewrite <- Hs.
  etransitivity; [apply emit_committed_loop_sequence|done].
Qed.

Section elections.
Context {strict : bool} {op : Op}.

Lemma lead_refines n :
  good strict n -> role (volatile n) = Candidate ->
  has_effective_quorum n (votes (election n)) = true -> room 1 n ->
  refines strict op n (lead n).
Proof.
  intros Hg Hr Hq Hroom. unfold lead.
  assert (refines strict op n (become_leader n)) as H1.
  { apply become_leader_refines; try done. unfold room in Hroom. lia. }
  pose proof (refines_good _ _ Hg H1) as Hg1.
  assert (heartbeat_sequence (leader (become_leader n).1) <= 0) as Hs.
  { assert (rep (crowned n)) as Hr1
      by (apply crowned_rep; [apply Hg|unfold room in Hroom; lia]).
    rewrite become_leader_elected. apply (advance_commit_index_sequence strict (elected n)).
    eapply unseen_good, elected_unseen, Hr1. split; [done|].
    rewrite crowned_abs. apply inv_lead; [apply Hg|done]. }
  destruct (become_leader n) as [n1 o1]. simpl in *.
  pose proof (broadcast_append_entries_refines strict op n1 Hg1) as H2.
  destruct (broadcast_append_entries n1) as [n2 o2]. eapply refines_trans; [done|].
  apply H2. unfold u64_modulus. lia.
Qed.

Lemma unseen_election n e :
  rep n -> votes e = votes (election n) -> unseen n (n <| election := e |>).
Proof.
  intros [] Hv. apply unseen_same; [|done|by split]. unfold abs. simpl. by rewrite Hv.
Qed.

(** The requests of a candidate name the end of its log. *)
Lemma requests_permitted n (l : list NodeId) request :
  rep n -> role (volatile n) = Candidate ->
  request = {| rv_term := current_term (persistent n); rv_candidate_id := Node_id n;
               rv_last_log_index := last_log_index n; rv_last_log_term := last_log_term n |} ->
  Forall (allowed (abs n)) (map (fun to => Send to (MRequestVote request)) l).
Proof.
  intros Hr Hc ->. apply Forall_forall. intros o (x & -> & _)%list_elem_of_fmap op'. simpl. red. simpl.
  split_and!; [done|done|done|by apply last_log_index_abs|].
  destruct (s_term_at_defined (abs n) (s_last (abs n))) as [t Ht]; [unfold s_last; lia|].
  rewrite last_term_abs by done. by rewrite Ht.
Qed.

Lemma quiet_pre_votes (l : list NodeId) request :
  Forall quiet (map (fun to => Send to (MPreVote request)) l).
Proof. apply Forall_forall. by intros o (x & -> & _)%list_elem_of_fmap. Qed.

(** A change of role among followers and candidates. *)
Lemma set_role_rep n n' :
  rep n -> role (volatile n) <> Leader -> role (volatile n') <> Leader ->
  leader n' = leader n -> derived n' = derived n -> log (persistent n') = log (persistent n) ->
  snapshot (persistent n') = snapshot (persistent n) -> rep n'.
Proof.
  intros [] Hl Hl' Hld Hd Hlog Hs. split; rewrite ?Hld, ?Hd, ?Hlog; unfold snapshot_index in *; rewrite ?Hs; auto.
Qed.

(** The candidate that [start_election] makes of the node. *)
Definition campaigning (n : Node) (t : Term) : Node :=
  n <| volatile ; role := Candidate |>
    <| volatile ; leader_hint := None |>
    <| persistent ; current_term := t |>
    <| persistent ; voted_for := Some (Node_id n) |>
    <| election := begin_election (election n) (Node_id n) |>.

Lemma campaigning_refines n t :
  good strict n -> role (volatile n) <> Leader -> is_effective_voter n (Node_id n) = true ->
  Term_checked_next (current_term (persistent n)) = Some t ->
  refines strict op n (campaigning n t, []).
Proof.
  intros [Hr Hinv] Hrole Hv [Ht ->]%u64_checked_add_Some. unfold is_effective_voter in Hv.
  rewrite (effective_membership_abs _ Hr) in Hv.
  eapply refines_rule; [apply rule_campaign; [done| |done]|done|done| |constructor].
  - simpl. lia.
  - by apply (set_role_rep n).
Qed.

Lemma start_election_refines n :
  good strict n -> role (volatile n) <> Leader -> room 1 n ->
  refines strict op n (start_election n).
Proof.
  intros Hg Hrole Hroom. unfold start_election.
  destruct (is_effective_voter n (Node_id n)) eqn:Hv; simpl negb;
    [|apply refines_unseen; [by apply unseen_election; [apply Hg|]|constructor]].
  destruct (Term_checked_next _) as [t|] eqn:Ht;
    [|apply refines_unseen; [by apply unseen_election; [apply Hg|]|constructor]].
  cbv zeta. fold (campaigning n t).
  pose proof (campaigning_refines n t Hg Hrole Hv Ht) as H1.
  eapply refines_bind_quiet; [done|done|]. intros Hg1.
  destruct (has_effective_quorum _ _) eqn:Hq.
  - assert (refines strict op (campaigning n t) (lead (campaigning n t))) as H2 by by apply lead_refines.
    destruct (lead _) as [n2 o2]. eapply refines_trans; [|done].
    apply refines_unseen_allowed; [apply unseen_refl, Hg1|]. by apply requests_permitted; [apply Hg1|..].
  - apply refines_unseen_allowed; [apply unseen_refl, Hg1|]. by apply requests_permitted; [apply Hg1|..].
Qed.

Lemma start_pre_vote_round_refines n :
  good strict n -> role (volatile n) <> Leader -> room 1 n ->
  refines strict op n (start_pre_vote_round n).
Proof.
  intros Hg Hrole Hroom. unfold start_pre_vote_round. destruct (negb _);
    [apply refines_unseen; [by apply unseen_election; [apply Hg|]|constructor]|].
  destruct (Term_checked_next _) as [t|];
    [|apply refines_unseen; [by apply unseen_election; [apply Hg|]|constructor]].
  cbv zeta. set (n1 := n <| volatile ; role := PreCandidate |> <| volatile ; leader_hint := None |>
                         <| election := begin_pre_vote (election n) (Node_id n) |>).
  assert (refines strict op n (n1, [])) as H1.
  { eapply refines_rule; [by apply rule_precandidate|done|done| |constructor].
    by apply (set_role_rep n); [apply Hg|..]. }
  eapply refines_bind_quiet; [done|done|]. intros Hg1. destruct (has_effective_quorum _ _).
  - pose proof (start_election_refines n1 Hg1 ltac:(done) Hroom) as H2.
    destruct (start_election n1) as [n2 o2]. eapply refines_trans; [|done].
    by apply refines_reply, quiet_pre_votes.
  - by apply refines_reply, quiet_pre_votes.
Qed.
End elections.

(** The contact sequence can still advance. *)
Definition contact (n : Node) : Prop := heartbeat_sequence (leader n) + 1 < u64_modulus.

Section ticks.
Context {strict : bool} {op : Op}.

Lemma leader_tick_refines n :
  good strict n -> role (volatile n) = Leader -> contact n -> refines strict op n (tick n).
Proof.
  intros Hg Hl Hs. unfold tick. rewrite bool_decide_eq_true_2 by done. cbv zeta.
  set (n1 := n <| leader ; ticks := _ |> <| leader ; heartbeat_elapsed := _ |>).
  assert (unseen n n1) as Hu1 by (destruct Hg as [[] _]; apply unseen_same; [done|done|by split]).
  pose proof (tick_read_lease_unseen n1 (unseen_good _ _ _ Hg Hu1)) as Hu2.
  pose proof (unseen_trans _ _ _ Hu1 Hu2) as Hu. set (n2 := tick_read_lease n1) in *.
  apply (refines_after_unseen n n2); [done|]. pose proof (unseen_good _ _ _ Hg Hu) as Hg2.
  pose proof (tick_leadership_transfer_refines (op := op) n2 Hg2) as H3.
  assert (heartbeat_sequence (leader (tick_leadership_transfer n2)) =
          heartbeat_sequence (leader n)) as Hs3.
  { rewrite <- (unseen_sequence _ _ Hu). unfold tick_leadership_transfer.
    by destruct (pending_transfer _). }
  set (n3 := tick_leadership_transfer n2) in *. eapply refines_bind_quiet; [done|done|]. intros Hg3.
  pose proof (tick_check_quorum_refines (op := op) n3 Hg3) as H4.
  destruct (tick_check_quorum n3) as [n4 [o|]]; [done|]. apply (refines_after_unseen n3 n4); [done|].
  pose proof (unseen_good _ _ _ Hg3 H4) as Hg4. destruct (_ <? _); [by apply refines_reply|].
  apply broadcast_append_entries_refines; [done|]. rewrite (unseen_sequence _ _ H4), Hs3. apply Hs.
Qed.

Lemma tick_refines n :
  good strict n -> contact n -> room 1 n -> refines strict op n (tick n).
Proof.
  intros Hg Hs Hroom. destruct (decide (role (volatile n) = Leader)) as [Hl|Hl];
    [by apply leader_tick_refines|].
  unfold tick. rewrite bool_decide_eq_false_2 by done. unfold advance_timeout.
  set (n1 := n <| election := _ |>).
  assert (unseen n n1) as Hu by (apply unseen_election; [apply Hg|done]).
  pose proof (unseen_good _ _ _ Hg Hu) as Hg1. apply (refines_after_unseen n n1); [done|].
  destruct (_ <? _); [by apply refines_reply|].
  destruct (pre_vote _); [by apply start_pre_vote_round_refines|by apply start_election_refines].
Qed.

(** ** Votes *)

(** The part of [handle_request_vote] after the term check. *)
Definition answer_request_vote (n : Node) (candidate_id : NodeId) (request : RequestVote)
  : Node * list Output :=
  let vote_granted :=
    (rv_term request =? current_term (persistent n))
    && contains_voter (effective_membership n) candidate_id
    && log_pair_ge (rv_last_log_term request) (rv_last_log_index request)
         (last_log_term n) (last_log_index n)
    && is_none_or (fun voted_for => voted_for =? candidate_id) (voted_for (persistent n)) in
  (if vote_granted
   then n <| persistent ; voted_for := Some candidate_id |>
          <| election := reset_timeout (election n) |>
   else n,
   [Send candidate_id
      (MRequestVoteResponse {| rvr_term := current_term (persistent n);
                               rvr_voter_id := Node_id n;
                               rvr_vote_granted := vote_granted |})]).

Lemma handle_request_vote_answer n candidate_id request :
  handle_request_vote n candidate_id request =
  let '(n, outputs) :=
    if current_term (persistent n) <? rv_term request then become_follower n (rv_term request)
    else (n, []) in
  let '(n, answer) := answer_request_vote n candidate_id request in (n, outputs ++ answer).
Proof.
  unfold handle_request_vote, answer_request_vote. destruct (if _ <? _ then _ else _) as [n1 o1].
  cbv zeta. by destruct (_ && _).
Qed.

Lemma log_pair_ge_spec t1 i1 t2 i2 :
  log_pair_ge t1 i1 t2 i2 = true <-> t2 < t1 \/ (t2 = t1 /\ i2 <= i1).
Proof.
  unfold log_pair_ge. rewrite orb_true_iff, andb_true_iff, N.ltb_lt, N.eqb_eq, N.leb_le.
  naive_solver lia.
Qed.

Lemma answer_request_vote_refines n c request :
  good strict n -> op = OpInput (InputMessage c (MRequestVote request)) ->
  rv_candidate_id request = c ->
  refines strict op n (answer_request_vote n c request).
Proof.
  intros Hg Hop Hc. unfold answer_request_vote. cbv zeta.
  match goal with |- context [if ?x then _ else _] => destruct x eqn:Hv end;
    [|by apply refines_reply; [|repeat constructor]].
  rewrite !andb_true_iff in Hv. destruct Hv as (((Ht & Hm) & Hlog) & Hvote).
  destruct Hg as [Hr Hinv]. apply N.eqb_eq in Ht. rewrite (effective_membership_abs _ Hr) in Hm.
  apply log_pair_ge_spec in Hlog. rewrite (last_term_abs _ Hr), (last_log_index_abs _ Hr) in Hlog.
  red; split_and!; [|done|destruct Hr; by split]. apply run_single.
  apply (rule_grant _ _ (abs n) c request); try done.
  - simpl. destruct (voted_for (persistent n)) as [v|]; [|by left]. right.
    by apply N.eqb_eq in Hvote as ->.
  - intros t Hlt. by rewrite Hlt in Hlog.
Qed.

Lemma handle_request_vote_refines n c request :
  good strict n -> op = OpInput (InputMessage c (MRequestVote request)) ->
  rv_candidate_id request = c ->
  refines strict op n (handle_request_vote n c request).
Proof.
  intros Hg Hop Hc. rewrite handle_request_vote_answer.
  assert (refines strict op n (if current_term (persistent n) <? rv_term request
            then become_follower n (rv_term request) else (n, []))) as H1.
  { destruct (_ <? _); [apply become_follower_refines, Hg|by apply refines_reply]. }
  destruct (if _ <? _ then _ else _) as [n1 o1]. pose proof (refines_good _ _ Hg H1) as Hg1.
  pose proof (answer_request_vote_refines n1 c request Hg1 Hop Hc) as H2.
  destruct (answer_request_vote n1 c request) as [n2 o2]. by eapply refines_trans.
Qed.

Lemma record_vote_refines n v response :
  good strict n -> op = OpInput (InputMessage v (MRequestVoteResponse response)) ->
  rvr_voter_id response = v -> role (volatile n) = Candidate ->
  rvr_term response = current_term (persistent n) ->
  refines strict op n
    (if rvr_vote_granted response then n <| election := record_vote (election n) v |> else n, []).
Proof.
  intros Hg Hop Hv Hrole Ht. destruct (rvr_vote_granted response) eqn:Eg; [|by apply refines_reply].
  eapply refines_rule; [apply (rule_vote _ _ (abs n) v)|done|done| |constructor]; [done| |].
  - unfold delivers. rewrite Hop. destruct response. simpl in *. congruence.
  - destruct Hg as [[] _]. by split.
Qed.

Lemma handle_request_vote_response_refines n v response :
  good strict n -> op = OpInput (InputMessage v (MRequestVoteResponse response)) ->
  rvr_voter_id response = v -> room 1 n ->
  refines strict op n (handle_request_vote_response n v response).
Proof.
  intros Hg Hop Hv Hroom. unfold handle_request_vote_response.
  destruct (_ <? _); [apply become_follower_refines, Hg|].
  case_bool_decide as Hrole; [|by apply refines_reply]. cbn [negb orb].
  destruct (N.eqb_spec (rvr_term response) (current_term (persistent n))) as [Ht|];
    cbn [negb orb]; [|by apply refines_reply].
  destruct (negb _); [apply become_follower_refines, Hg|]. cbv zeta.
  pose proof (record_vote_refines n v response Hg Hop Hv Hrole Ht) as H1.
  assert (room 1 (if rvr_vote_granted response then n <| election := record_vote (election n) v |>
                  else n)) as Hroom1 by by destruct (rvr_vote_granted response).
  assert (role (volatile (if rvr_vote_granted response
            then n <| election := record_vote (election n) v |> else n)) = Candidate) as Hrole1
    by by destruct (rvr_vote_granted response).
  set (n1 := if rvr_vote_granted response then _ else n) in *.
  eapply refines_bind_quiet; [done|done|]. intros Hg1.
  destruct (has_effective_quorum n1 _) eqn:Hq; [by apply lead_refines|by apply refines_reply].
Qed.

Lemma handle_pre_vote_refines n c request :
  good strict n -> refines strict op n (n, handle_pre_vote n c request).
Proof. intros Hg. by apply refines_reply; [|repeat constructor]. Qed.

Lemma handle_pre_vote_response_refines n v response :
  good strict n -> room 1 n -> refines strict op n (handle_pre_vote_response n v response).
Proof.
  intros Hg Hroom. unfold handle_pre_vote_response. destruct (Term_checked_next _);
    [|by apply refines_reply].
  destruct (_ <? _); [apply become_follower_refines, Hg|].
  destruct (_ && _); [apply become_follower_refines, Hg|].
  case_bool_decide as Hrole; [|by apply refines_reply]. cbn [negb orb].
  destruct (negb _); [by apply refines_reply|]. cbv zeta.
  assert (unseen n (if pvr_vote_granted response
                    then n <| election := record_pre_vote (election n) v |> else n)) as Hu.
  { destruct (pvr_vote_granted _); [by apply unseen_election; [apply Hg|]|apply unseen_refl, Hg]. }
  assert (room 1 (if pvr_vote_granted response
                  then n <| election := record_pre_vote (election n) v |> else n)) as Hroom1
    by by destruct (pvr_vote_granted response).
  assert (role (volatile (if pvr_vote_granted response
            then n <| election := record_pre_vote (election n) v |> else n)) <> Leader) as Hrole1
    by (destruct (pvr_vote_granted response); simpl; congruence).
  set (n1 := if pvr_vote_granted response then _ else n) in *.
  apply (refines_after_unseen n n1); [done|]. pose proof (unseen_good _ _ _ Hg Hu) as Hg1.
  destruct (has_effective_quorum _ _); [by apply start_election_refines|by apply refines_reply].
Qed.

Lemma room_follow k n t : room k n -> room k (become_follower n t).1.
Proof. unfold become_follower. simpl. by destruct (current_term (persistent n) <? t). Qed.

Lemma handle_timeout_now_refines n t :
  good strict n -> room 1 n -> refines strict op n (handle_timeout_now n t).
Proof.
  intros Hg Hroom. unfold handle_timeout_now. destruct (_ || _); [by apply refines_reply|].
  pose proof (become_follower_refines strict op n t (proj1 Hg)) as H1.
  pose proof (refines_good _ _ Hg H1) as Hg1. pose proof (room_follow 1 n t Hroom) as Hroom1.
  pose proof (become_follower_role n t) as Hrole.
  destruct (become_follower n t) as [n1 o1]. simpl in *.
  pose proof (start_election_refines (op := op) n1 Hg1 ltac:(congruence) Hroom1) as H2.
  destruct (start_election n1) as [n2 o2]. by eapply refines_trans.
Qed.
End ticks.
