(* ===== verification/RefineReceive.v ===== *)
(** * Refinement: receiving entries and proposing them

    The operations of [Receive.v] are runs of the abstract node. *)

From stdpp Require Import base list sorting numbers option sets.
From S2P Require Import Prelude.
From S2P Require Import Types.
From S2P Require Import Snapshot.
From S2P Require Import Message.
From S2P Require Import Membership.
From S2P Require Import MembershipIndex.
From S2P Require Import Progress.
From S2P Require Import Config.
From S2P Require Import NodeState.
From S2P Require Import Log.
From S2P Require Import View.
From S2P Require Import Commit.
From S2P Require Import Send.
From S2P Require Import ReadIndex.
From S2P Require Import Transfer.
From S2P Require Import Election.
From S2P Require Import SnapshotTransfer.
From S2P Require Import Receive.
From S2P Require Import Spec.
From S2P Require Import Abstraction.
From S2P Require Import RefineCommit.
From S2P Require Import RefineSend.
From S2P Require Import RefineRead.
From S2P Require Import RefineElection.

Lemma refines_then strict op n n1 o1 r :
  refines strict op n (n1, o1) -> refines strict op n1 r ->
  refines strict op n (r.1, o1 ++ r.2).
Proof. destruct r. apply refines_trans. Qed.

Lemma unseen_room k n n' : unseen n n' -> room k n -> room k n'.
Proof.
  intros (Ha & _). pose proof (f_equal s_base Ha) as Hb. apply (f_equal s_log) in Ha.
  simpl in *. unfold room. by rewrite Ha, Hb.
Qed.

(** ** Appending a run of entries *)

Lemma fold_append_spec es n :
  rep n -> room (length_u64 es) n ->
  abs (fold_left append_log_entry es n) = (abs n) <| s_log := s_log (abs n) ++ es |> /\
  config (fold_left append_log_entry es n) = config n /\
  rep (fold_left append_log_entry es n).
Proof.
  revert n. induction es as [|e es IH]; intros n Hr Hroom; simpl.
  { split_and!; [|done|done]. unfold abs. simpl. by rewrite app_nil_r. }
  assert (rep (append_log_entry n e)) as Hr1.
  { apply append_log_entry_rep; [done|]. unfold room, length_u64 in *. simpl in *. lia. }
  destruct (IH (append_log_entry n e) Hr1) as (Ha & Hc & Hr2).
  { unfold room, snapshot_index in *. simpl. rewrite length_app_u64.
    unfold length_u64 in *. simpl in *. lia. }
  split_and!; [|by rewrite Hc|done]. rewrite Ha. unfold abs, append_log_entry. simpl.
  by rewrite <- app_assoc.
Qed.

Lemma truncate_from_spec n index reason :
  rep n -> index < u64_modulus ->
  abs (truncate_from n index reason).1 =
    (abs n) <| s_log := take (N.to_nat (index - snapshot_index n - 1)) (log (persistent n)) |> /\
  config (truncate_from n index reason).1 = config n /\
  rep (truncate_from n index reason).1 /\
  leader (truncate_from n index reason).1 = leader n /\
  Forall quiet (truncate_from n index reason).2.
Proof.
  intros Hr Hi. unfold truncate_from. destruct (tracker_split_off _ _) as [kept dropped].
  pose proof (next_base _ Hr) as Hb. cbv zeta.
  change (first_retained_log_index (n <| volatile ; local_proposals := kept |>))
    with (first_retained_log_index n). rewrite Hb.
  pose proof (quiet_drops reason dropped) as Hq. destruct Hr.
  destruct (N.leb_spec index (snapshot_index n + 1)) as [Hle|Hgt]; simpl.
  - replace (N.to_nat (index - snapshot_index n - 1)) with 0%nat by lia.
    split_and!; [done|done| |done|done]. split; simpl; try done.
    unfold snapshot_index, length_u64 in *. simpl in *. lia.
  - unfold retained_log_offset. rewrite u64_sub_small by lia.
    replace (N.to_nat (index - snapshot_index n - 1))
      with (N.to_nat (index - (snapshot_index n + 1))) by lia.
    split_and!; [done|done| |done|done]. split; simpl; try done.
    + by rewrite rep_offsets, configuration_truncate_from_log.
    + unfold snapshot_index, length_u64 in *. simpl in *. rewrite length_take. lia.
Qed.

(** ** The divergence scan *)

Section divergence.
Context (n : Node) (prev : LogIndex) (Hr : rep n) (Hprev : snapshot_index n <= prev).

Lemma term_above j :
  prev + 1 + N.of_nat j < u64_modulus ->
  term_at n (u64_add (u64_add prev 1) (N.of_nat j)) =
  entry_term <$> log (persistent n) !! (N.to_nat (prev - snapshot_index n) + j)%nat.
Proof.
  intros Hj. rewrite (u64_add_small prev), u64_add_small by lia. rewrite term_at_abs by done.
  unfold s_term_at, s_entry. change (s_base (abs n)) with (snapshot_index n).
  destruct (N.eqb_spec (prev + 1 + N.of_nat j) (snapshot_index n)); [lia|].
  destruct (N.leb_spec (prev + 1 + N.of_nat j) (snapshot_index n)); [lia|].
  do 2 f_equal. simpl. lia.
Qed.

Lemma find_divergence_spec entries offset :
  prev + N.of_nat offset + length_u64 entries + 1 < u64_modulus ->
  match find_divergence n prev offset entries with
  | Ok None =>
      forall j e, entries !! j = Some e ->
        entry_term <$> log (persistent n) !! (N.to_nat (prev - snapshot_index n) + (offset + j))%nat
        = Some (entry_term e)
  | Ok (Some (k, index)) =>
      (offset <= k < offset + length entries)%nat /\ index = prev + 1 + N.of_nat k /\
      (forall j, (j < k - offset)%nat ->
         entry_term <$> log (persistent n) !! (N.to_nat (prev - snapshot_index n) + (offset + j))%nat
         = entry_term <$> entries !! j) /\
      entry_term <$> log (persistent n) !! (N.to_nat (prev - snapshot_index n) + k)%nat <>
        entry_term <$> entries !! (k - offset)%nat /\
      (commit_index (volatile n) < index \/
       log (persistent n) !! (N.to_nat (prev - snapshot_index n) + k)%nat = None)
  | Err _ => True
  end.
Proof.
  revert offset. induction entries as [|e entries IH]; intros offset Hb; simpl.
  { by intros j e Hj. }
  assert (prev + 1 + N.of_nat offset < u64_modulus) as Hb0 by (unfold length_u64 in Hb; simpl in Hb; lia).
  pose proof (term_above offset Hb0) as Hterm. rewrite Hterm.
  assert (u64_add (u64_add prev 1) (N.of_nat offset) = prev + 1 + N.of_nat offset) as Hidx
    by (rewrite (u64_add_small prev), u64_add_small by lia; done).
  set (first := N.to_nat (prev - snapshot_index n)) in *.
  destruct (log (persistent n) !! (first + offset)%nat) as [x|] eqn:Ex; simpl; cycle 1.
  { split_and!; [lia|lia|done|intros j; lia| |by right]. rewrite Nat.sub_diag, Ex. done. }
  destruct (N.eqb_spec (entry_term x) (entry_term e)) as [Heq|Hne]; cycle 1.
  { destruct (N.leb_spec (u64_add (u64_add prev 1) (N.of_nat offset)) (commit_index (volatile n)));
      [done|]. split_and!; [lia|lia|done|intros j; lia| |by left].
    rewrite Nat.sub_diag, Ex. simpl. congruence. }
  specialize (IH (S offset)). destruct (find_divergence n prev (S offset) entries) as [[[k index]|]|];
    [| |done].
  - destruct IH as (Hk & Hi & Hm & Hd & Hc); [unfold length_u64 in *; simpl in *; lia|].
    split_and!; [lia|lia|done| |by replace (k - offset)%nat with (S (k - S offset)) by lia|done].
    intros [|j] Hj; simpl.
    + rewrite Nat.add_0_r, Ex. simpl. by rewrite Heq.
    + rewrite <- Hm by lia. do 2 f_equal. lia.
  - intros [|j] y Hj; simpl in Hj.
    + simplify_eq. rewrite Nat.add_0_r, Ex. simpl. by rewrite Heq.
    + rewrite <- (IH ltac:(unfold length_u64 in *; simpl in *; lia) j y Hj). do 2 f_equal. lia.
Qed.
End divergence.

(** Bounds of an append request: its last index has a successor, and the
    configurations it carries are valid. *)
Definition append_wf (request : AppendEntries) : Prop :=
  ae_prev_log_index request + length_u64 (ae_entries request) + 1 < u64_modulus /\
  Forall entry_wf (ae_entries request).

(** Terms above the entry before an append, read in the log. *)
Lemma s_term_above s prev j :
  s_base s <= prev ->
  s_term_at s (prev + 1 + N.of_nat j) =
  entry_term <$> s_log s !! (N.to_nat (prev - s_base s) + j)%nat.
Proof.
  intros Hp. unfold s_term_at, s_entry.
  destruct (N.eqb_spec (prev + 1 + N.of_nat j) (s_base s)); [lia|].
  destruct (N.leb_spec (prev + 1 + N.of_nat j) (s_base s)); [lia|]. do 2 f_equal. lia.
Qed.

(** A spliced log holds the append. *)
Lemma splice_holds s request k :
  s_term_at s (ae_prev_log_index request) = Some (ae_prev_log_term request) ->
  (k <= length (ae_entries request))%nat ->
  (forall j, (j < k)%nat ->
     entry_term <$> s_log s !! (N.to_nat (ae_prev_log_index request - s_base s) + j)%nat =
     entry_term <$> ae_entries request !! j) ->
  holds (s <| s_log := splice (s_log s) (N.to_nat (ae_prev_log_index request - s_base s)) k
                         (ae_entries request) |>) request.
Proof.
  intros Hp Hk Hm. pose proof (s_term_at_range _ _ _ Hp) as [Hlo Hhi].
  unfold s_last, length_u64 in Hhi.
  set (first := N.to_nat (ae_prev_log_index request - s_base s)) in *.
  pose proof (splice_position (s_log s) first k (ae_entries request) ltac:(lia) Hk Hm) as Hpos.
  split.
  - unfold s_term_at, s_entry in Hp |- *. simpl.
    destruct (N.eqb_spec (ae_prev_log_index request) (s_base s)); [done|].
    destruct (N.leb_spec (ae_prev_log_index request) (s_base s)); [done|].
    etrans; [|exact Hp]. f_equal. unfold splice.
    rewrite lookup_app_l, lookup_take_lt; [done|lia|rewrite length_take; lia].
  - intros j e He. rewrite s_term_above by done. simpl. fold first. unfold splice.
    destruct (decide (j < k)%nat) as [Hlt|Hge].
    + rewrite lookup_app_l, lookup_take_lt by (rewrite ?length_take; lia). by rewrite Hm, He.
    + rewrite lookup_app_r by (rewrite length_take; lia). rewrite length_take, lookup_drop.
      replace (k + (first + j - (first + k) `min` length (s_log s)))%nat with j by lia. by rewrite He.
Qed.

(** Dispatch does not touch the persistent state. *)
Lemma become_follower_persistent n :
  persistent (become_follower n (current_term (persistent n))).1 = persistent n.
Proof.
  unfold become_follower. simpl. rewrite N.ltb_irrefl. simpl. rewrite N.max_id. by destruct (persistent n).
Qed.

Lemma emit_committed_persistent fuel n :
  persistent (emit_committed_loop fuel n).1 = persistent n.
Proof.
  revert n. induction fuel as [|fuel IH]; intros n; simpl; [done|]. destruct (negb _); [done|].
  destruct (entry_at _ _) as [e|]; [|done].
  assert (persistent (emit_committed_entry n (LogIndex_next (dispatched_index (volatile n))) e).1 =
          persistent n) as He.
  { unfold emit_committed_entry. destruct (tracker_remove _ _). destruct (application_payload e); [done|].
    destruct (configuration_entry e); [|done]. unfold step_down_if_removed. destruct (_ && _); [|done].
    match goal with |- context [become_follower ?m _] =>
      pose proof (become_follower_persistent m) as Hp; destruct (become_follower m _) end. done. }
  destruct (emit_committed_entry _ _ _) as [n1 o1]. specialize (IH n1).
  destruct (emit_committed_loop fuel n1). simpl in *. congruence.
Qed.

Lemma holds_persistent n n' request :
  persistent n' = persistent n -> holds (abs n) request -> holds (abs n') request.
Proof.
  intros Hp. unfold holds, s_term_at, s_entry. simpl. unfold snapshot_index. by rewrite Hp.
Qed.

Section append.
Context {strict : bool} {op : Op} (from : NodeId) (request : AppendEntries).
Context (Hop : op = OpInput (InputMessage from (MAppendEntries request))).
Context (Hfrom : ae_leader_id request = from) (Hwf : append_wf request).
Local Notation prev := (ae_prev_log_index request).
Local Notation entries := (ae_entries request).

(** Truncating at the divergence and appending the rest is a splice. *)
Lemma splice_log_abs n k n1 o1 :
  rep n -> snapshot_index n <= prev -> (k < length entries)%nat ->
  (if prev + 1 + N.of_nat k <=? last_log_index n
   then truncate_from n (prev + 1 + N.of_nat k) LogOverwritten else (n, [])) = (n1, o1) ->
  let n2 := fold_left append_log_entry (drop k entries) n1 in
  abs n2 = (abs n) <| s_log := splice (log (persistent n)) (N.to_nat (prev - snapshot_index n)) k
                                 entries |> /\
  config n2 = config n /\ rep n2 /\ Forall quiet o1.
Proof.
  intros Hr Hp Hk He. destruct Hwf as [Hb _]. unfold length_u64 in Hb.
  set (first := N.to_nat (prev - snapshot_index n)).
  assert (abs n1 = (abs n) <| s_log := take (first + k) (log (persistent n)) |> /\
          config n1 = config n /\ rep n1 /\ Forall quiet o1) as (Ha & Hc & Hr1 & Hq).
  { destruct (N.leb_spec (prev + 1 + N.of_nat k) (last_log_index n)) as [Hle|Hgt].
    - destruct (truncate_from_spec n (prev + 1 + N.of_nat k) LogOverwritten Hr) as (Ha & Hc & Hr1 & _ & Hq);
        [lia|]. rewrite He in *. cbn [fst snd] in *. split_and!; [|done..]. rewrite Ha. do 2 f_equal. lia.
    - injection He as <- <-. split_and!; [|done..].
      rewrite (last_log_index_abs _ Hr) in Hgt. unfold s_last, length_u64 in Hgt. simpl in Hgt.
      rewrite take_ge by lia. by destruct n. }
  destruct (fold_append_spec (drop k entries) n1 Hr1) as (Ha2 & Hc2 & Hr2).
  { pose proof (f_equal s_log Ha) as Hl. pose proof (f_equal s_base Ha) as Hba. simpl in Hl, Hba.
    unfold room. rewrite Hl, Hba. unfold length_u64. rewrite length_take, length_drop. lia. }
  cbv zeta. split_and!; [|congruence|done|done]. rewrite Ha2, Ha. done.
Qed.

Lemma splice_entries_after_refines n floor n' o :
  good strict n -> role (volatile n) = Follower -> ae_term request = current_term (persistent n) ->
  term_at n prev = Some (ae_prev_log_term request) ->
  splice_entries_after n prev entries floor = Ok (n', o) ->
  refines strict op n (n', o) /\
  exists log', abs n' = (abs n) <| s_log := log' |> /\
    prev + length_u64 entries <= snapshot_index n + length_u64 log' /\ holds (abs n') request.
Proof.
  intros Hg Hrole Ht Hpt. pose proof Hg as [Hr Hinv]. pose proof Hwf as [Hb Hew].
  rewrite term_at_abs in Hpt by (done || lia). pose proof (s_term_at_range _ _ _ Hpt) as [Hp Hl].
  unfold s_last in Hl. simpl in Hp, Hl.
  unfold splice_entries_after.
  pose proof (find_divergence_spec n prev Hr Hp entries 0) as Hdiv.
  assert (prev + N.of_nat 0 + length_u64 entries + 1 < u64_modulus) as Hb0 by lia.
  specialize (Hdiv Hb0). destruct (find_divergence n prev 0 entries) as [[[k index]|]|]; [| |done].
  - destruct Hdiv as (Hk & -> & Hm & Hd & Hcommit). rewrite Nat.sub_0_r in *. simpl.
    destruct (incoming_configurations _ _ _ _) as [incoming current].
    destruct (current && _); [done|].
    destruct (if _ <=? _ then _ else _) as [n1 o1] eqn:E1. intros [= <- <-].
    destruct (splice_log_abs n k n1 o1 Hr Hp ltac:(lia) E1) as (Ha & Hc & Hr2 & Hq).
    pose proof (splice_position (log (persistent n)) (N.to_nat (prev - snapshot_index n)) k entries
                  ltac:(unfold length_u64 in *; lia) ltac:(lia) Hm) as Hpos.
    split.
    + eapply refines_rule; [|exact Ha|done|done|done].
      apply (rule_splice _ _ (abs n) from request); try done; [lia|].
      simpl. pose proof (inv_commit _ _ Hinv) as Hic. unfold s_last, length_u64 in Hic. simpl in Hic.
      destruct Hcommit as [|Hnone%lookup_ge_None]; lia.
    + eexists. split_and!; [exact Ha|unfold length_u64; rewrite splice_length by done; lia|].
      rewrite Ha. apply splice_holds; [done|lia|done].
  - intros [= <- <-]. split; [by apply refines_reply|]. exists (log (persistent n)).
    split_and!; [by destruct n| |split; [done|]; intros j e He; rewrite s_term_above by done; by apply Hdiv].
    destruct (decide (length entries = 0%nat)) as [Hz|Hz]; [unfold length_u64 in *; lia|].
    destruct (lookup_lt_is_Some_2 entries (length entries - 1)) as [e He]; [lia|].
    specialize (Hdiv _ _ He). destruct (log (persistent n) !! _) eqn:El; [|done].
    apply lookup_lt_Some in El. unfold length_u64. lia.
Qed.

(** The entries accepted, the commit index follows the leader's. *)
Definition follow_commit (n : Node) (confirmed : LogIndex) : Node * list Output :=
  if commit_index (volatile n) <? ae_leader_commit request
  then emit_committed_outputs (n <| volatile ; commit_index := confirmed |>)
  else (n, []).

Lemma follow_commit_refines n confirmed :
  good strict n -> role (volatile n) = Follower -> ae_term request = current_term (persistent n) ->
  commit_index (volatile n) <= confirmed -> confirmed <= s_last (abs n) ->
  (confirmed <= commit_index (volatile n) \/
   (holds (abs n) request /\ confirmed <= ae_leader_commit request /\
    confirmed <= prev + length_u64 entries)) ->
  refines strict op n (follow_commit n confirmed).
Proof.
  intros Hg Hrole Ht Hlo Hhi Hmax. unfold follow_commit. destruct (_ <? _); [|by apply refines_reply].
  eapply refines_bind_quiet; [done| |apply emit_committed_outputs_refines].
  eapply refines_rule; [|done|done|by destruct Hg as [[] _]; split|constructor].
  by apply (rule_commit_follower _ _ (abs n) from request).
Qed.

(** The part of [handle_append_entries] after the role and term check. *)
Definition accept_entries (n : Node) : Node * list Output :=
  if negb (bool_decide (term_at n prev = Some (ae_prev_log_term request)))
  then (n, [reject_append_entries n from (ae_sequence request)])
  else
    let match_index := request_match_index prev (length entries) in
    let confirmed := confirmed_commit_index n request match_index in
    match splice_entries_after n prev entries confirmed with
    | Err _ => (n, [reject_append_entries n from (ae_sequence request)])
    | Ok (n, spliced) =>
        let '(n, committed) := follow_commit n confirmed in
        (n, spliced ++ committed ++ [accept_append_entries n from match_index (ae_sequence request)])
    end.

Lemma accept_entries_refines n :
  good strict n -> role (volatile n) = Follower -> ae_term request = current_term (persistent n) ->
  refines strict op n (accept_entries n).
Proof.
  intros Hg Hrole Ht. unfold accept_entries. case_bool_decide as Hpt; simpl negb;
    [|by apply refines_reply; [|repeat constructor]].
  set (confirmed := confirmed_commit_index _ _ _).
  destruct (splice_entries_after _ _ _ _) as [[n1 o1]|] eqn:Es;
    [|by apply refines_reply; [|repeat constructor]].
  destruct (splice_entries_after_refines n confirmed n1 o1 Hg Hrole Ht Hpt Es)
    as (H1 & log' & Ha & Hlast & Hholds).
  pose proof (refines_good _ _ Hg H1) as Hg1. simpl in Hg1.
  pose proof (f_equal s_commit Ha) as Hcm. pose proof (f_equal s_role Ha) as Hro.
  pose proof (f_equal s_term Ha) as Hte. simpl in Hcm, Hro, Hte.
  pose proof Hwf as [Hb _].
  assert (request_match_index prev (length entries) = prev + length_u64 entries) as Hm
    by (apply u64_add_small; unfold length_u64 in *; lia).
  assert (refines strict op n1 (follow_commit n1 confirmed)) as H2.
  { apply follow_commit_refines; try done; [congruence|congruence|..];
      unfold confirmed, confirmed_commit_index; rewrite Hm, ?Hcm; [lia| |];
      [|destruct (N.max_spec (commit_index (volatile n)) (N.min (ae_leader_commit request) (prev + length_u64 entries)))
          as [[_ ->]|[_ ->]]; [right; split_and!; [done|lia|lia]|by left]].
    destruct Hg1 as [_ Hinv1]. pose proof (inv_commit _ _ Hinv1) as Hic. rewrite Ha in *.
    unfold s_last in *. simpl in *. lia. }
  assert (persistent (follow_commit n1 confirmed).1 = persistent n1) as Hp.
  { unfold follow_commit. destruct (_ <? _); [|done].
    unfold emit_committed_outputs. by rewrite emit_committed_persistent. }
  destruct (follow_commit n1 confirmed) as [n2 o2]. simpl in Hp. eapply refines_trans; [done|].
  eapply refines_trans; [done|]. apply refines_unseen_permitted; [apply unseen_refl, H2|].
  constructor; [|constructor]. intros _. exists request. simpl. rewrite Hp, Hte, Hm.
  split_and!; [done|done|done|by eapply holds_persistent|done].
Qed.

Lemma handle_append_entries_accept n :
  handle_append_entries n from request =
  if ae_term request <? current_term (persistent n) then
    (n, [reject_append_entries n from (ae_sequence request)])
  else
    let '(n, adopted) :=
      if (current_term (persistent n) <? ae_term request)
         || negb (bool_decide (role (volatile n) = Follower))
      then become_follower n (ae_term request) else (n, []) in
    let '(n, outputs) :=
      accept_entries (n <| election := reset_timeout (election n) |>
                        <| volatile ; leader_hint := Some from |>) in
    (n, adopted ++ outputs).
Proof.
  unfold handle_append_entries. destruct (_ <? _); [done|].
  destruct (if _ || _ then _ else _) as [n1 o1]. cbv zeta. unfold accept_entries.
  destruct (negb _); [done|]. cbv zeta. destruct (splice_entries_after _ _ _ _) as [[n2 o2]|]; [|done].
  unfold follow_commit. by destruct (if _ <? _ then _ else _) as [n3 o3].
Qed.

Lemma handle_append_entries_refines n :
  good strict n -> refines strict op n (handle_append_entries n from request).
Proof.
  intros Hg. rewrite handle_append_entries_accept.
  destruct (N.ltb_spec (ae_term request) (current_term (persistent n))) as [|Hge];
    [by apply refines_reply; [|repeat constructor]|].
  assert (exists n1 o1, (if (current_term (persistent n) <? ae_term request)
            || negb (bool_decide (role (volatile n) = Follower))
          then become_follower n (ae_term request) else (n, [])) = (n1, o1) /\
          refines strict op n (n1, o1) /\ role (volatile n1) = Follower /\
          ae_term request = current_term (persistent n1)) as (n1 & o1 & -> & H1 & Hrole & Ht).
  { destruct (_ || _) eqn:Ec.
    - pose proof (become_follower_role n (ae_term request)) as Hro.
      pose proof (become_follower_abs n (ae_term request)) as Ha. apply (f_equal s_term) in Ha.
      pose proof (become_follower_refines strict op n (ae_term request) (proj1 Hg)) as H1.
      destruct (become_follower n _) as [n1 o1]. simpl in *. exists n1, o1. split_and!; [done..|].
      rewrite Ha. lia.
    - apply orb_false_iff in Ec as [Ec1%N.ltb_ge Ec2%negb_false_iff%bool_decide_eq_true].
      exists n, []. split_and!; [done|by apply refines_reply|done|lia]. }
  set (n2 := n1 <| election := _ |> <| volatile ; leader_hint := _ |>).
  assert (unseen n1 n2) as Hu.
  { destruct H1 as (_ & _ & []). apply unseen_same; [done|done|]. by split. }
  pose proof (refines_good _ _ Hg H1) as Hg1.
  pose proof (accept_entries_refines n2 (unseen_good _ _ _ Hg1 Hu) Hrole Ht) as H2.
  destruct (accept_entries n2) as [n3 o3]. eapply refines_trans; [done|].
  by eapply refines_after_unseen.
Qed.
End append.

(** ** Responses *)

Lemma confirm_replicating_match p : match_index (confirm_replicating p) = match_index p.
Proof. unfold confirm_replicating. by destruct (mode p). Qed.

Lemma confirm_replicating_next p :
  progress_bounded p -> next_index (confirm_replicating p) < u64_modulus.
Proof.
  intros [_ Hn]. unfold confirm_replicating. pose proof (next_bounded (match_index p)).
  destruct (mode p); simpl; lia.
Qed.

Lemma acknowledge_progress_match base reported p :
  match_index (acknowledge_progress base reported p) = N.max (match_index p) reported.
Proof.
  unfold acknowledge_progress. cbv zeta.
  match goal with |- context [if ?c then _ else _] => destruct c end;
    cbn; by rewrite ?confirm_replicating_match.
Qed.

Lemma acknowledge_progress_bounded base reported p :
  reported < u64_modulus -> progress_bounded p ->
  progress_bounded (acknowledge_progress base reported p).
Proof.
  intros Hb Hp. split; [rewrite acknowledge_progress_match; destruct Hp; lia|].
  unfold acknowledge_progress. cbv zeta. pose proof (next_bounded (N.max (match_index p) reported)).
  match goal with |- context [if ?c then ?a else ?b] =>
    assert (next_index (if c then a else b) < u64_modulus) as Hn;
    [destruct c; [apply confirm_replicating_next; destruct Hp; split; simpl; lia|apply Hp]|];
    set (q := if c then a else b) in * end.
  cbn [match_index next_index set_field set_match_index set_next_index set_inflights] in *. lia.
Qed.

Section responses.
Context {strict : bool} {op : Op}.

(** Following an acknowledgement: the progress it updates, the entries it
    commits, what it lets the leader send next. *)
Lemma after_ack_refines n n1 follower (advance : bool) :
  good strict n -> refines strict op n (n1, []) -> role (volatile n1) = Leader ->
  refines strict op n
    (let '(n2, transferred) := maybe_complete_leadership_transfer n1 follower in
     let '(n3, committed) := if advance then advance_commit_index_into n2 else (n2, []) in
     let '(n4, sends) := replicate_to_follower n3 follower ProgressOnly in
     (n4, transferred ++ committed ++ sends)).
Proof.
  intros Hg H1 Hl1. pose proof (refines_good _ _ Hg H1) as Hg1. simpl in Hg1.
  eapply refines_bind_quiet; [done|done|]. intros _.
  destruct (maybe_complete_leadership_transfer n1 follower) as [n2 o2] eqn:E2.
  destruct (maybe_complete_leadership_transfer_unseen (strict := strict) n1 Hg1 follower n2 o2 E2) as [Hu2 Hq2].
  pose proof (unseen_good _ _ _ Hg1 Hu2) as Hg2.
  assert (refines strict op n2 (if advance then advance_commit_index_into n2 else (n2, []))) as H3.
  { destruct advance; [|by apply refines_reply].
    apply advance_commit_index_refines; [done|]. by rewrite (unseen_role _ _ Hu2). }
  destruct (if advance then _ else _) as [n3 o3].
  pose proof (refines_good _ _ Hg2 H3) as Hg3.
  pose proof (replicate_to_follower_refines (op := op) n3 Hg3 follower ProgressOnly) as H4.
  destruct (replicate_to_follower _ _ _) as [n4 o4].
  eapply refines_trans; [by apply refines_unseen_allowed|]. by eapply refines_trans.
Qed.

Lemma accept_append_response_refines n follower reported :
  good strict n -> role (volatile n) = Leader ->
  (forall m, m <= reported -> claimed op (abs n) follower m) ->
  refines strict op n (accept_append_response n follower reported).
Proof.
  intros Hg Hl Hclaim. unfold accept_append_response. pose proof (reconcile_unseen _ _ Hg) as Hu0.
  pose proof (last_log_index_bounded n) as Hb. set (n0 := reconcile_replication_progress n) in *.
  destruct (ProgressSet_get _ _) as [p|]; [|by apply refines_unseen]. cbv zeta.
  pose proof (unseen_good _ _ _ Hg Hu0) as Hg0. pose proof (unseen_role _ _ Hu0) as Hl0.
  apply after_ack_refines; [done| |by rewrite <- Hl, <- Hl0].
  apply (refines_after_unseen n n0); [done|].
  apply progress_update_refines; [done|congruence| |].
  - intros q. apply acknowledge_progress_bounded. lia.
  - intros q. rewrite acknowledge_progress_match.
    destruct (N.max_spec (match_index q) (N.min reported (last_log_index n))) as [[_ ->]|[_ ->]];
      [right|by left]. destruct (unseen_abs _ _ Hu0) as [m ->]. apply Hclaim. lia.
Qed.

Lemma update_follower_progress_unseen n follower f :
  good strict n -> (forall p, progress_bounded p -> progress_bounded (f p)) ->
  (forall q, match_index (f q) <= match_index q) ->
  unseen n (update_follower_progress n follower f).1.
Proof.
  intros Hg Hf Hm. pose proof (reconcile_unseen _ _ Hg) as Hu. unfold update_follower_progress. cbv zeta.
  destruct (ProgressSet_get _ _); [|done]. eapply unseen_trans; [done|].
  by apply update_progress_unseen; [eapply unseen_rep|..].
Qed.

Lemma collapse_bounded p i :
  i < u64_modulus -> progress_bounded p -> progress_bounded (collapse_into_probe p i).
Proof.
  intros Hi [Hm Hn]. pose proof (next_bounded (match_index p)). split; [done|].
  unfold collapse_into_probe, u64_saturating_sub. simpl. lia.
Qed.

Lemma snapshot_index_bounded n : rep n -> snapshot_index n < u64_modulus.
Proof. intros Hr. pose proof (rep_capacity _ Hr). lia. Qed.

Lemma reject_append_response_refines n follower :
  good strict n -> refines strict op n (reject_append_response n follower).
Proof.
  intros Hg. unfold reject_append_response. cbv zeta.
  match goal with |- context [update_follower_progress n follower ?g] => set (f := g) end.
  pose proof (update_follower_progress_unseen n follower f Hg) as Hu.
  destruct (update_follower_progress n follower f) as [n1 found]. simpl in Hu.
  assert (unseen n n1) as Hu1.
  { pose proof (snapshot_index_bounded n (proj1 Hg)).
    apply Hu; intros p; unfold f; destruct (mode p); try done; intros; by apply collapse_bounded. }
  apply (refines_after_unseen n n1); [done|]. pose proof (unseen_good _ _ _ Hg Hu1).
  destruct found; [by apply replicate_to_follower_refines|by apply refines_reply].
Qed.

Lemma acknowledge_read_barriers_role n f q :
  role (volatile (acknowledge_read_barriers n f q).1) = role (volatile n).
Proof.
  unfold acknowledge_read_barriers. destruct (pending_reads _); [done|].
  by destruct (retain_unconfirmed _ _ _).
Qed.

Lemma acknowledge_read_barriers_term n f q :
  current_term (persistent (acknowledge_read_barriers n f q).1) = current_term (persistent n).
Proof.
  unfold acknowledge_read_barriers. destruct (pending_reads _); [done|].
  by destruct (retain_unconfirmed _ _ _).
Qed.

Lemma handle_append_entries_response_refines n follower response :
  delivers op follower (MAppendEntriesResponse response) ->
  good strict n -> refines strict op n (handle_append_entries_response n follower response).
Proof.
  intros Hop Hg. unfold handle_append_entries_response.
  destruct (_ <? _); [apply become_follower_refines, Hg|].
  case_bool_decide as Hl; [|by apply refines_reply]. cbn [negb orb].
  destruct (N.eqb_spec (aer_term response) (current_term (persistent n))) as [Ht|]; simpl negb;
    [|by apply refines_reply]. cbv zeta.
  pose proof (record_quorum_ack_unseen n Hg follower) as Hu1.
  set (n1 := record_quorum_ack n follower) in *. pose proof (unseen_good _ _ _ Hg Hu1) as Hg1.
  pose proof (acknowledge_read_lease_unseen n1 Hg1 follower (aer_sequence response)) as Hu2.
  set (n2 := acknowledge_read_lease n1 _ _) in *. pose proof (unseen_trans _ _ _ Hu1 Hu2) as Hu.
  apply (refines_after_unseen n n2); [done|]. pose proof (unseen_good _ _ _ Hg Hu) as Hg2.
  pose proof (acknowledge_read_barriers_refines (op := op) n2 Hg2 follower (aer_sequence response)) as H3.
  pose proof (acknowledge_read_barriers_role n2 follower (aer_sequence response)) as Hl3.
  rewrite (unseen_role _ _ Hu), Hl in Hl3.
  pose proof (acknowledge_read_barriers_term n2 follower (aer_sequence response)) as Ht3.
  assert (current_term (persistent n2) = current_term (persistent n)) as Ht2
    by (destruct (unseen_abs _ _ Hu) as [m Ha]; by apply (f_equal s_term) in Ha).
  destruct (acknowledge_read_barriers n2 _ _) as [n3 o3]. simpl in Hl3, Ht3.
  pose proof (refines_good _ _ Hg2 H3) as Hg3.
  assert (refines strict op n3 (if aer_success response
            then accept_append_response n3 follower (aer_match_index response)
            else reject_append_response n3 follower)) as H4.
  { destruct (aer_success response) eqn:Es; [|by apply reject_append_response_refines].
    apply accept_append_response_refines; [done|done|]. intros m Hm. left. exists response.
    split_and!; [done|simpl; congruence|done|done]. }
  destruct (if aer_success response then _ else _) as [n4 o4]. by eapply refines_trans.
Qed.

(** ** Proposals *)

Lemma append_proposal_refines n index proposal :
  good strict n -> role (volatile n) = Leader -> room 1 n ->
  refines strict op n (append_proposal n (current_term (persistent n)) index proposal) /\
  role (volatile (append_proposal n (current_term (persistent n)) index proposal).1) = Leader /\
  current_term (persistent (append_proposal n (current_term (persistent n)) index proposal).1) =
    current_term (persistent n) /\
  (forall k, room (k + 1) n ->
     room k (append_proposal n (current_term (persistent n)) index proposal).1).
Proof.
  intros Hg Hl Hroom. unfold append_proposal. cbv zeta.
  set (e := LogEntry_application _ _). set (n1 := append_log_entry n e).
  assert (refines strict op n (n1, [])) as H1.
  { eapply refines_rule; [by apply (rule_append _ _ (abs n) e)|done|done| |constructor].
    apply append_log_entry_rep; [apply Hg|unfold room in *; lia]. }
  assert (forall k, room (k + 1) n -> room k n1) as Hk.
  { intros k. unfold room, snapshot_index. simpl. rewrite length_app_u64.
    unfold length_u64. simpl. lia. }
  destruct (cpi_proposal_id proposal); [|by split_and!]. split_and!; [|done..].
  apply (refines_then_unseen n n1 []); [done| |by repeat constructor].
  destruct H1 as (_ & _ & []). apply unseen_same; [done|done|]. by split.
Qed.

Lemma broadcast_progress_after n :
  good strict n -> refines strict op n (broadcast_replication_into n ProgressOnly).
Proof. apply broadcast_progress_refines. Qed.

Lemma replicate_appended_refines n :
  good strict n -> role (volatile n) = Leader -> refines strict op n (replicate_appended n).
Proof.
  intros Hg Hl. unfold replicate_appended. cbv zeta.
  pose proof (record_local_progress_unseen _ _ Hg) as Hu. set (n1 := record_local_progress n) in *.
  apply (refines_after_unseen n n1); [done|]. pose proof (unseen_good _ _ _ Hg Hu) as Hg1.
  assert (refines strict op n1 (advance_commit_index_into n1)) as H2.
  { apply advance_commit_index_refines; [done|]. by rewrite (unseen_role _ _ Hu). }
  destruct (advance_commit_index_into n1) as [n2 o2]. pose proof (refines_good _ _ Hg1 H2) as Hg2.
  case_bool_decide; [|done].
  pose proof (broadcast_progress_refines (op := op) n2 Hg2) as H3.
  destruct (broadcast_replication_into _ _) as [n3 o3]. by eapply refines_trans.
Qed.

Lemma proposal_preflight_leader n proposal :
  proposal_preflight_rejection n proposal = None -> role (volatile n) = Leader.
Proof. unfold proposal_preflight_rejection. by case_bool_decide. Qed.

Lemma step_client_proposal_refines n proposal :
  good strict n -> room 1 n -> refines strict op n (step_client_proposal n proposal).
Proof.
  intros Hg Hroom. unfold step_client_proposal.
  destruct (proposal_preflight_rejection n proposal) as [r|] eqn:Ep.
  { apply refines_reply; [done|]. constructor; [|constructor]. revert Ep.
    unfold proposal_preflight_rejection. destruct (negb _); [by intros [= <-]|].
    destruct (pending_transfer _); [by intros [= <-]|done]. }
  apply proposal_preflight_leader in Ep.
  destruct (payload_too_large n proposal); [by apply refines_reply; [|repeat constructor]|]. cbv zeta.
  destruct (append_proposal_refines n (LogIndex_next (last_log_index n)) proposal Hg Ep Hroom)
    as (H1 & Hl1 & _).
  destruct (append_proposal _ _ _ _) as [n1 o1]. simpl in Hl1.
  pose proof (replicate_appended_refines n1 (refines_good _ _ Hg H1) Hl1) as H2.
  destruct (replicate_appended n1) as [n2 o2]. by eapply refines_trans.
Qed.

Lemma append_batch_refines proposals n index accepted :
  good strict n -> role (volatile n) = Leader -> room (length_u64 proposals) n ->
  forall n' accepted' o,
  append_batch n (current_term (persistent n)) index accepted proposals = (n', accepted', o) ->
  refines strict op n (n', o) /\ role (volatile n') = Leader.
Proof.
  revert n index accepted. induction proposals as [|p proposals IH]; intros n index accepted Hg Hl Hroom n' accepted' o; simpl.
  { intros [= <- <- <-]. split; [by apply refines_reply|done]. }
  assert (room (length_u64 proposals + 1) n) as Hroom1
    by (unfold length_u64 in *; simpl in *; unfold room in *; lia).
  destruct (payload_too_large n p).
  - destruct (append_batch n _ index accepted proposals) as [[n1 a1] o1] eqn:E1. intros [= <- <- <-].
    apply IH in E1 as [H1 Hl1]; [|done|done|unfold room in *; lia]. split; [|done].
    apply (refines_trans n n [reject_too_large n p]); [by apply refines_reply; [|repeat constructor]|done].
  - destruct (append_proposal_refines n index p Hg Hl) as (H1 & Hl1 & Ht1 & Hk); [unfold room in *; lia|].
    destruct (append_proposal _ _ _ _) as [n1 o1]. cbn [fst] in *. rewrite <- Ht1.
    destruct (append_batch n1 _ _ true proposals) as [[n2 a2] o2] eqn:E2. intros [= <- <- <-].
    apply IH in E2 as [H2 Hl2]; [|by apply (refines_good _ _ Hg H1)|done|by apply Hk].
    split; [by eapply refines_trans|done].
Qed.

Lemma quiet_batch_rejection n proposals r :
  proposal_batch_preflight_rejection n proposals = Some r -> Forall quiet r.
Proof.
  unfold proposal_batch_preflight_rejection. destruct (negb _).
  - intros [= <-]. apply Forall_forall. by intros o (x & -> & _)%list_elem_of_fmap.
  - destruct (pending_transfer _); [|done]. intros [= <-]. apply Forall_forall.
    by intros o (x & -> & _)%list_elem_of_fmap.
Qed.

Lemma step_proposal_batch_refines n proposals :
  good strict n -> room (length_u64 proposals) n ->
  refines strict op n (step_proposal_batch n proposals).
Proof.
  intros Hg Hroom. unfold step_proposal_batch.
  destruct proposals as [|p1 [|p2 rest]]; [by apply refines_reply|by apply step_client_proposal_refines|].
  set (proposals := p1 :: p2 :: rest) in *.
  destruct (proposal_batch_preflight_rejection n proposals) as [r|] eqn:Ep.
  { apply refines_reply; [done|]. by eapply quiet_batch_rejection. }
  assert (role (volatile n) = Leader) as Hl
    by (revert Ep; unfold proposal_batch_preflight_rejection; by case_bool_decide).
  cbv zeta. destruct (append_batch _ _ _ _ _) as [[n1 accepted] o1] eqn:E1.
  destruct (append_batch_refines _ _ _ _ Hg Hl Hroom _ _ _ E1) as [H1 Hl1].
  destruct accepted; [|done]. simpl negb. cbv iota.
  pose proof (replicate_appended_refines n1 (refines_good _ _ Hg H1) Hl1) as H2.
  destruct (replicate_appended n1) as [n2 o2]. by eapply refines_trans.
Qed.
End responses.
