(* ===== verification/RefineSnapshot.v ===== *)
(** * Refinement: snapshot transfer

    The operations of [SnapshotTransfer.v] are runs of the abstract node. *)

From stdpp Require Import base list sorting numbers option sets.
From S2P Require Import Prelude.
From S2P Require Import Types.
From S2P Require Import Snapshot.
From S2P Require Import Message.
From S2P Require Import Membership.
From S2P Require Import MembershipIndex.
From S2P Require Import Progress.
From S2P Require Import Config.
From S2P Require Import NodeState.
From S2P Require Import Log.
From S2P Require Import View.
From S2P Require Import Commit.
From S2P Require Import Send.
From S2P Require Import ReadIndex.
From S2P Require Import Transfer.
From S2P Require Import Election.
From S2P Require Import SnapshotTransfer.
From S2P Require Import Receive.
From S2P Require Import Spec.
From S2P Require Import Abstraction.
From S2P Require Import RefineCommit.
From S2P Require Import RefineSend.
From S2P Require Import RefineRead.
From S2P Require Import RefineElection.
From S2P Require Import RefineReceive.

(** Bounds of snapshot metadata: the boundary has a successor, and the
    recorded membership is valid. *)
Definition metadata_wf (m : RaftSnapshotMetadata) : Prop :=
  last_included_index m + 1 < u64_modulus /\
  from_option MembershipConfig_wf True (metadata_committed_membership m).

(** ** Local proposal reconciliation is not seen *)

Lemma reconcile_local_proposals_shape n :
  exists kept, (reconcile_local_proposals n).1 = n <| volatile ; local_proposals := kept |>.
Proof.
  unfold reconcile_local_proposals. destruct (fold_left _ _ _) as [kept o]. by exists kept.
Qed.

Lemma reconcile_local_proposals_quiet n : Forall quiet (reconcile_local_proposals n).2.
Proof.
  unfold reconcile_local_proposals.
  enough (forall l kept o, Forall quiet o ->
    Forall quiet (fold_left (fun '(retained, outputs) '(index, proposal) =>
      if bool_decide (term_at n index = Some (lp_term proposal))
      then (tracker_insert retained index proposal, outputs)
      else (retained, outputs ++ [dropped_output LogOverwritten (index, proposal)])) l (kept, o)).2) as H.
  { specialize (H (local_proposals (volatile n)) [] [] (Forall_nil_2 _)).
    by destruct (fold_left _ _ _). }
  induction l as [|[i p] l IH]; intros kept o Ho; [done|]. simpl. case_bool_decide; apply IH; [done|].
  apply Forall_app. by split; [|repeat constructor].
Qed.

(** ** Installation *)

(** The suffix kept above a boundary inside the log. *)
Lemma log_entries_from_drop n boundary :
  rep n -> snapshot_index n <= boundary -> boundary + 1 < u64_modulus ->
  log_entries_from n (LogIndex_next boundary) =
  drop (N.to_nat (boundary - snapshot_index n)) (log (persistent n)).
Proof.
  intros Hr Hlo Hb. pose proof (rep_capacity _ Hr).
  unfold log_entries_from, log_entries_slice_from, LogIndex_next. rewrite u64_add_small by done.
  rewrite (next_base _ Hr), (last_log_index_abs _ Hr). unfold s_last. simpl.
  destruct (N.eqb_spec (boundary + 1) 0); [lia|]. simpl.
  destruct (N.ltb_spec (snapshot_index n + length_u64 (log (persistent n))) (boundary + 1)).
  - rewrite drop_ge; [done|]. unfold length_u64 in *. lia.
  - unfold retained_log_offset. rewrite N.max_l, u64_sub_small by lia. f_equal. lia.
Qed.

Section install.
Context {strict : bool} {op : Op} (n : Node) (snapshot' : RaftSnapshot).
Context (Hg : good strict n) (Hwf : metadata_wf (metadata snapshot')).
Local Notation boundary := (last_included_index (metadata snapshot')).
Context (Hnew : N.max (snapshot_index n) (commit_index (volatile n)) < boundary).
Context (Hinc : incoming_snapshot (volatile n) = None).

Lemma install_snapshot_state_spec :
  abs (install_snapshot_state n snapshot').1 = s_install snapshot' (abs n) /\
  config (install_snapshot_state n snapshot').1 = config n /\
  rep (install_snapshot_state n snapshot').1 /\
  Forall quiet (install_snapshot_state n snapshot').2.
Proof.
  destruct Hg as [Hr Hinv]. destruct Hwf as [Hb _]. clear Hwf. pose proof (inv_applied _ _ Hinv) as Happ. simpl in Happ.
  unfold install_snapshot_state, install_snapshot_state_with_committed_configuration, replace_log.
  cbv zeta. rewrite log_entries_from_drop by (done || lia). rewrite term_at_abs by (done || lia).
  set (retained := if _ : bool then _ else _).
  set (n1 := n <| persistent ; snapshot := Some snapshot' |> <| persistent ; committed_configuration := _ |>
               <| derived := _ |> <| persistent ; log := retained |>).
  destruct (reconcile_local_proposals_shape n1) as [kept Hk].
  pose proof (reconcile_local_proposals_quiet n1) as Hq.
  destruct (reconcile_local_proposals n1) as [n2 o2]. cbn [fst snd] in Hk, Hq. subst n2.
  change (commit_index (volatile (n1 <| volatile ; local_proposals := kept |>)))
    with (commit_index (volatile n)).
  destruct (N.ltb_spec (commit_index (volatile n)) boundary); [|lia].
  match goal with |- context [dispatched_index ?v <? _] =>
    change (dispatched_index v) with (dispatched_index (volatile n)) end.
  destruct (N.ltb_spec (dispatched_index (volatile n)) boundary); [|lia].
  split_and!; [| |  |done]; simpl; [|done|].
  - unfold s_install, abs, snapshot_index, snapshot_committed_membership. simpl.
    destruct (N.eqb_spec boundary 0) as [Hz|_]; [lia|]. by rewrite Hinc.
  - pose proof (rep_capacity _ Hr). destruct Hr. split; simpl; try done. unfold retained, snapshot_index in *. simpl.
    case_bool_decide; unfold length_u64 in *; simpl; [rewrite length_drop|]; lia.
Qed.

(** Installing, with the chunk staged before it and the reply after it. *)
Lemma install_refines before after :
  role (volatile n) = Follower -> installs op (current_term (persistent n)) (metadata snapshot') ->
  (strict = true -> sane_metadata (metadata snapshot')) ->
  Forall (permitted op (abs n)) before ->
  Forall (permitted op (s_install snapshot' (abs n))) after ->
  refines strict op n
    ((install_snapshot_state n snapshot').1,
     (install_snapshot_state n snapshot').2 ++ before ++ [ApplySnapshot snapshot'] ++ after).
Proof.
  intros Hrole Hins Hsane Hqb Hqa. destruct install_snapshot_state_spec as (Ha & Hc & Hr & Hq).
  red; split_and!; [|done|done]. cbn [fst snd]. rewrite Ha, app_assoc.
  eapply run_trans.
  { apply run_silent, Forall_app. split; [by apply quiets_permitted|done]. }
  eapply run_trans; [|by apply run_silent]. apply run_single, rule_install; try done. apply Hwf.
Qed.
End install.

(** ** Receiving a snapshot *)

Lemma record_rejection_unseen n rejection :
  rep n -> unseen n (record_snapshot_chunk_rejection n rejection).
Proof. intros []. apply unseen_same; [done|done|]. by split. Qed.

Lemma record_accepted_leader_unseen n leader_id :
  rep n -> unseen n (record_accepted_snapshot_leader n leader_id).
Proof. intros []. apply unseen_same; [done|done|]. by split. Qed.

(** A snapshot reply that reports at most the commit index. *)
Lemma accepted_reply_permitted op n leader_id i id offset m :
  installs op (current_term (persistent n)) m -> i <= commit_index (volatile n) ->
  permitted op (abs n) (snapshot_reply n leader_id (accepted_transfer i id offset)).
Proof. intros Hm Hi _. split_and!; [done|done|by exists m]. Qed.

Lemma base_committed strict n : good strict n -> snapshot_index n <= commit_index (volatile n).
Proof.
  intros [_ Hinv]. pose proof (inv_base _ _ Hinv). pose proof (inv_applied _ _ Hinv). simpl in *. lia.
Qed.

Lemma covered_committed strict n :
  good strict n -> snapshot_covered_through n = commit_index (volatile n).
Proof.
  intros [_ Hinv]. pose proof (inv_base _ _ Hinv). pose proof (inv_applied _ _ Hinv). simpl in *.
  unfold snapshot_covered_through. lia.
Qed.

Section snapshots.
Context {strict : bool} {op : Op}.

Lemma refines_reject n rejection o :
  good strict n -> Forall quiet o ->
  refines strict op n (record_snapshot_chunk_rejection n rejection, o).
Proof. intros [Hr _] Ho. by apply refines_unseen, Ho; apply record_rejection_unseen. Qed.

Lemma set_incoming_refines n incoming o :
  good strict n ->
  within_payload ((fun t => (inc_received_len t, inc_total_payload_len t)) <$> incoming) ->
  Forall (permitted op (abs n)) o ->
  refines strict op n (n <| volatile ; incoming_snapshot := incoming |>, o).
Proof.
  intros Hg Hin Ho. rewrite <- (app_nil_r o). apply (refines_trans n n).
  - apply refines_unseen_permitted; [apply unseen_refl, Hg|done].
  - eapply refines_rule; [by apply (rule_incoming _ _ (abs n) _ Hin)|done|done| |constructor].
    by destruct Hg as [[] _]; split.
Qed.

Lemma adopt_snapshot_term_refines n t :
  good strict n -> current_term (persistent n) <= t ->
  refines strict op n (adopt_snapshot_term n t) /\
  role (volatile (adopt_snapshot_term n t).1) = Follower /\
  current_term (persistent (adopt_snapshot_term n t).1) = t.
Proof.
  intros Hg Ht. unfold adopt_snapshot_term. destruct (_ || _) eqn:E.
  - split_and!; [apply become_follower_refines, Hg|apply become_follower_role|].
    pose proof (f_equal s_term (become_follower_abs n t)) as Ha. simpl in Ha |- *. lia.
  - apply orb_false_iff in E as [Hlt%N.ltb_ge E%negb_false_iff%bool_decide_eq_true].
    split_and!; [by apply refines_reply|done|simpl; lia].
Qed.

(** The transfer a chunk continues is the one the node stages. *)
Definition staging (n : Node) (request : InstallSnapshotChunk) (received : u64) : Prop :=
  exists transfer, incoming_snapshot (volatile n) = Some transfer /\
    inc_received_len transfer = received /\ inc_metadata transfer = isc_metadata request /\
    inc_total_payload_len transfer = isc_total_payload_len request.

Lemma classify_snapshot_chunk_refines n leader_id request n' disposition :
  good strict n -> classify_snapshot_chunk n leader_id request = Ok (n', disposition) ->
  refines strict op n (n', []) /\ role (volatile n') = role (volatile n) /\
  current_term (persistent n') = current_term (persistent n) /\
  (forall covered, disposition = AlreadyCovered covered -> covered = commit_index (volatile n')) /\
  forall received, disposition = Accept received ->
    staging n' request received /\ isc_offset request = received /\
    N.max (snapshot_index n') (commit_index (volatile n')) <
      last_included_index (isc_metadata request).
Proof.
  intros Hg. unfold classify_snapshot_chunk. pose proof (covered_committed _ _ Hg) as Hcov.
  unfold snapshot_covered_through in *.
  destruct (N.leb_spec (last_included_index (isc_metadata request))
    (N.max (snapshot_index n) (commit_index (volatile n)))) as [|Hlt].
  { intros [= <- <-]. split_and!; [by apply refines_reply|done|done|by intros ? [= <-]|done]. }
  unfold prepare_incoming_snapshot_transfer.
  destruct (is_some_and _ _) eqn:Em.
  - destruct (incoming_snapshot (volatile n)) as [t|] eqn:Et; [|done]. simpl in Em |- *.
    intros [= <- <-]. split_and!; [by apply refines_reply|done|done|by destruct (_ ?= _)|].
    intros received. destruct (N.compare_spec (isc_offset request) (incoming_next_offset t)) as [He| |];
      [|done|done]. intros [= <-]. unfold transfer_matches in Em. rewrite !andb_true_iff in Em.
    destruct Em as ((((_ & _) & Hm%bool_decide_eq_true) & Ht%N.eqb_eq) & _).
    split_and!; [|done|done]. by exists t.
  - unfold replace_or_reject_snapshot_transfer.
    destruct (N.eqb_spec (isc_offset request) 0) as [Hz|];
      [|destruct (incoming_snapshot _); [destruct (_ || _)|]; done].
    simpl. intros [= <- <-]. split_and!; [apply set_incoming_refines; [done|simpl; lia|constructor]
      |done|done|by destruct (_ ?= _)|].
    intros received. destruct (N.compare_spec (isc_offset request) 0) as [He| |];
      [|done|done]. intros [= <-]. split_and!; [|done|done]. eexists. by split_and!.
Qed.

Lemma validate_shape_end request :
  validate_snapshot_chunk_shape request = Ok tt ->
  u64_add (isc_offset request) (length_u64 (isc_chunk request)) <= isc_total_payload_len request.
Proof.
  unfold validate_snapshot_chunk_shape. destruct (u64_checked_add _ _) as [stop|] eqn:E; [|done].
  apply u64_checked_add_Some in E as [Hmax ->]. rewrite u64_add_small by (unfold u64_max, u64_modulus in *; lia).
  destruct (_ || _) eqn:Eb; [done|]. apply orb_false_iff in Eb as [_ Hle%N.ltb_ge]. lia.
Qed.

Lemma accept_current_snapshot_chunk_refines n leader_id request received :
  good strict n -> role (volatile n) = Follower -> staging n request received ->
  isc_offset request = received -> validate_snapshot_chunk_shape request = Ok tt ->
  N.max (snapshot_index n) (commit_index (volatile n)) < last_included_index (isc_metadata request) ->
  installs op (current_term (persistent n)) (isc_metadata request) ->
  metadata_wf (isc_metadata request) ->
  (strict = true -> sane_metadata (isc_metadata request)) ->
  refines strict op n (accept_current_snapshot_chunk n leader_id request received).
Proof.
  intros Hg Hrole (t & Ht & Hrec & Hmeta & Htotal) Hoff Hshape Hnew Hins Hwf Hsane.
  apply validate_shape_end in Hshape. rewrite Hoff in Hshape.
  unfold accept_current_snapshot_chunk. cbv zeta.
  destruct (_ && _); [by apply refines_reject; [|repeat constructor]|].
  destruct (isc_done request).
  - unfold install_final_snapshot_chunk. rewrite Ht. cbv zeta.
    set (n1 := n <| volatile ; incoming_snapshot := None |>).
    assert (refines strict op n (n1, [])) as H1 by by apply set_incoming_refines.
    eapply refines_bind_quiet; [done|done|]. intros Hg1. rewrite Hmeta.
    set (snap := RaftSnapshot_new _ _ _).
    pose proof (install_refines (op := op) n1 snap Hg1 Hwf Hnew eq_refl) as H2.
    destruct (install_snapshot_state_spec n1 snap Hg1 Hwf Hnew eq_refl) as (Hi & _).
    destruct (install_snapshot_state n1 snap) as [n2 o2].
    apply (H2 [_] [_]); [done|done|done|by repeat constructor|].
    constructor; [|constructor]. rewrite <- Hi. cbn [fst] in Hi |- *.
    pose proof (f_equal s_commit Hi) as Hcm. apply (f_equal s_term) in Hi. simpl in Hi, Hcm.
    apply (accepted_reply_permitted _ _ _ _ _ _ (isc_metadata request)); [by rewrite Hi|by rewrite Hcm].
  - rewrite Ht. cbv zeta. apply set_incoming_refines; [done|simpl; lia|].
    constructor; [done|constructor; [|constructor]].
    exact (accepted_reply_permitted op n leader_id _ _ _ _ Hins (base_committed strict n Hg)).
Qed.

Lemma validate_header_shape n leader_id request u :
  validate_install_snapshot_chunk_header n leader_id request = Ok u ->
  validate_snapshot_chunk_shape request = Ok tt.
Proof.
  unfold validate_install_snapshot_chunk_header.
  destruct (map_err _ _); [|done]. simpl. destruct (negb _); [done|]. by destruct u.
Qed.

(** The part of [handle_install_snapshot_chunk] after the term check. *)
Definition stage_chunk (n : Node) (leader_id : NodeId) (request : InstallSnapshotChunk)
  : Node * list Output :=
  match validate_install_snapshot_chunk_header n leader_id request with
  | Err rejection =>
      let n := record_snapshot_chunk_rejection n rejection in
      (n, [snapshot_reply n leader_id (rejected_current (snapshot_index n))])
  | Ok _ =>
      let n := record_accepted_snapshot_leader n leader_id in
      match classify_snapshot_chunk n leader_id request with
      | Err rejection =>
          let n := record_snapshot_chunk_rejection n rejection in
          (n, [snapshot_reply n leader_id
                 (rejected_transfer (snapshot_index n) (isc_transfer_id request) 0)])
      | Ok (n, AlreadyCovered covered_through) =>
          acknowledge_covered_snapshot_chunk n leader_id request covered_through
      | Ok (n, Retransmission next_offset) =>
          (n, [snapshot_reply n leader_id
                 (accepted_transfer (snapshot_index n) (isc_transfer_id request) next_offset)])
      | Ok (n, OutOfOrder expected_offset) =>
          let n := record_snapshot_chunk_rejection n ChunkOutOfOrderOffset in
          (n, [snapshot_reply n leader_id
                 (rejected_transfer (snapshot_index n) (isc_transfer_id request) expected_offset)])
      | Ok (n, Accept received_len) => accept_current_snapshot_chunk n leader_id request received_len
      end
  end.

Lemma handle_install_snapshot_chunk_stage n leader_id request :
  handle_install_snapshot_chunk n leader_id request =
  if isc_term request <? current_term (persistent n) then
    let n := record_snapshot_chunk_rejection n ChunkStaleTerm in
    (n, [snapshot_reply n leader_id (rejected_current (snapshot_index n))])
  else
    let '(n, adopted) := adopt_snapshot_term n (isc_term request) in
    let '(n, outputs) := stage_chunk n leader_id request in (n, adopted ++ outputs).
Proof.
  unfold handle_install_snapshot_chunk. destruct (_ <? _); [done|].
  destruct (adopt_snapshot_term _ _) as [n1 o1]. unfold stage_chunk.
  destruct (validate_install_snapshot_chunk_header _ _ _); [|done]. cbv zeta.
  destruct (classify_snapshot_chunk _ _ _) as [[n2 []]|]; try done.
Qed.

Lemma stage_chunk_refines n leader_id request :
  good strict n -> role (volatile n) = Follower ->
  installs op (current_term (persistent n)) (isc_metadata request) -> metadata_wf (isc_metadata request) ->
  (strict = true -> sane_metadata (isc_metadata request)) ->
  refines strict op n (stage_chunk n leader_id request).
Proof.
  intros Hg Hrole Hins Hwf Hsane. unfold stage_chunk.
  destruct (validate_install_snapshot_chunk_header n leader_id request) as [u|] eqn:Ev;
    [|by apply refines_reject; [|repeat constructor]].
  apply validate_header_shape in Ev. cbv zeta.
  pose proof (record_accepted_leader_unseen n leader_id (proj1 Hg)) as Hu.
  set (n1 := record_accepted_snapshot_leader n leader_id) in *.
  apply (refines_after_unseen n n1); [done|]. pose proof (unseen_good _ _ _ Hg Hu) as Hg1.
  destruct (classify_snapshot_chunk n1 leader_id request) as [[n2 d]|] eqn:Ec;
    [|by apply refines_reject; [|repeat constructor]].
  destruct (classify_snapshot_chunk_refines _ _ _ _ _ Hg1 Ec) as (H2 & Hrole2 & Hterm2 & Hcov & Hacc).
  eapply refines_bind_quiet; [done|done|]. intros Hg2.
  assert (installs op (current_term (persistent n2)) (isc_metadata request)) as Hins2 by by rewrite Hterm2.
  destruct d.
  - unfold acknowledge_covered_snapshot_chunk.
    pose proof (accepted_reply_permitted op n2 leader_id covered_through (isc_transfer_id request)
      (isc_total_payload_len request) _ Hins2 ltac:(rewrite (Hcov _ eq_refl); done)) as Hreply.
    destruct (is_some_and _ _).
    + apply set_incoming_refines; [done|done|]. constructor; [exact Hreply|constructor].
    + apply refines_unseen_permitted; [apply unseen_refl, Hg2|]. constructor; [exact Hreply|constructor].
  - apply refines_unseen_permitted; [apply unseen_refl, Hg2|]. constructor; [|constructor].
    by eapply accepted_reply_permitted, (base_committed strict).
  - by apply refines_reject; [|repeat constructor].
  - destruct (Hacc _ eq_refl) as (Hst & Hoff & Hnew).
    apply accept_current_snapshot_chunk_refines; try done. by rewrite Hrole2.
Qed.

Lemma handle_install_snapshot_chunk_refines n leader_id request :
  good strict n ->
  installs op (isc_term request) (isc_metadata request) -> metadata_wf (isc_metadata request) ->
  (strict = true -> sane_metadata (isc_metadata request)) ->
  refines strict op n (handle_install_snapshot_chunk n leader_id request).
Proof.
  intros Hg Hins Hwf Hsane. rewrite handle_install_snapshot_chunk_stage.
  destruct (N.ltb_spec (isc_term request) (current_term (persistent n)));
    [by apply refines_reject; [|repeat constructor]|].
  destruct (adopt_snapshot_term_refines n (isc_term request) Hg) as (H1 & Hrole & Ht); [done|].
  destruct (adopt_snapshot_term n _) as [n1 o1]. cbn [fst] in Hrole, Ht. rewrite <- Ht in Hins.
  pose proof (stage_chunk_refines n1 leader_id request (refines_good _ _ Hg H1) Hrole Hins Hwf Hsane) as H2.
  destruct (stage_chunk n1 _ _) as [n2 o2]. by eapply refines_trans.
Qed.
(** The part of [handle_install_snapshot] after the term check. *)
Definition receive_snapshot (n : Node) (leader_id : NodeId) (request : InstallSnapshot)
  : Node * list Output :=
  let snapshot := from_payload (is_metadata request) (is_application_payload request) in
  match validate_snapshot_transfer_header n leader_id (metadata snapshot) (is_term request) with
  | Err _ => (n, [snapshot_reply n leader_id (rejected_current (snapshot_index n))])
  | Ok _ =>
      let n := record_accepted_snapshot_leader n leader_id in
      let n := n <| volatile ; incoming_snapshot := None |> in
      let covered_through := snapshot_covered_through n in
      if last_included_index (metadata snapshot) <=? covered_through then
        (n, [snapshot_reply n leader_id
               (accepted_transfer covered_through (transfer_id snapshot)
                  (application_payload_len snapshot))])
      else install_whole_snapshot n leader_id snapshot (is_application_payload request)
  end.

Lemma handle_install_snapshot_receive n leader_id request :
  handle_install_snapshot n leader_id request =
  if is_term request <? current_term (persistent n) then
    (n, [snapshot_reply n leader_id (rejected_current (snapshot_index n))])
  else
    let '(n, adopted) := adopt_snapshot_term n (is_term request) in
    let '(n, outputs) := receive_snapshot n leader_id request in (n, adopted ++ outputs).
Proof.
  unfold handle_install_snapshot. destruct (_ <? _); [done|].
  destruct (adopt_snapshot_term _ _) as [n1 o1]. unfold receive_snapshot. cbv zeta.
  destruct (validate_snapshot_transfer_header _ _ _ _); [|done]. by destruct (_ <=? _).
Qed.

Lemma receive_snapshot_refines n leader_id request :
  good strict n -> role (volatile n) = Follower ->
  installs op (current_term (persistent n)) (is_metadata request) -> metadata_wf (is_metadata request) ->
  (strict = true -> sane_metadata (is_metadata request)) ->
  refines strict op n (receive_snapshot n leader_id request).
Proof.
  intros Hg Hrole Hins Hwf Hsane. unfold receive_snapshot. cbv zeta.
  destruct (validate_snapshot_transfer_header _ _ _ _);
    [|by apply refines_reply; [|repeat constructor]].
  pose proof (record_accepted_leader_unseen n leader_id (proj1 Hg)) as Hu.
  set (n1 := record_accepted_snapshot_leader n leader_id) in *.
  apply (refines_after_unseen n n1); [done|]. pose proof (unseen_good _ _ _ Hg Hu) as Hg1.
  set (n2 := n1 <| volatile ; incoming_snapshot := None |>).
  assert (refines strict op n1 (n2, [])) as H2 by by apply set_incoming_refines.
  eapply refines_bind_quiet; [done|done|]. intros Hg2.
  set (snap := from_payload _ _).
  destruct (N.leb_spec (last_included_index (metadata snap)) (snapshot_covered_through n2)) as [|Hnew].
  { apply refines_unseen_permitted; [apply unseen_refl, Hg2|]. constructor; [|constructor].
    eapply accepted_reply_permitted; [exact Hins|]. by rewrite (covered_committed _ _ Hg2). }
  unfold install_whole_snapshot. cbv zeta.
  pose proof (install_refines (op := op) n2 snap Hg2 Hwf Hnew eq_refl) as H3.
  destruct (install_snapshot_state_spec n2 snap Hg2 Hwf Hnew eq_refl) as (Hi & _).
  destruct (install_snapshot_state n2 snap) as [n3 o3].
  apply (H3 [_] [_]); [done|done|done|by repeat constructor|].
  constructor; [|constructor]. rewrite <- Hi. cbn [fst] in Hi |- *.
  pose proof (f_equal s_commit Hi) as Hcm. apply (f_equal s_term) in Hi. simpl in Hi, Hcm.
  apply (accepted_reply_permitted _ _ _ _ _ _ (is_metadata request)); [by rewrite Hi|by rewrite Hcm].
Qed.

Lemma handle_install_snapshot_refines n leader_id request :
  good strict n ->
  installs op (is_term request) (is_metadata request) -> metadata_wf (is_metadata request) ->
  (strict = true -> sane_metadata (is_metadata request)) ->
  refines strict op n (handle_install_snapshot n leader_id request).
Proof.
  intros Hg Hins Hwf Hsane. rewrite handle_install_snapshot_receive.
  destruct (N.ltb_spec (is_term request) (current_term (persistent n)));
    [by apply refines_reply; [|repeat constructor]|].
  destruct (adopt_snapshot_term_refines n (is_term request) Hg) as (H1 & Hrole & Ht); [done|].
  destruct (adopt_snapshot_term n _) as [n1 o1]. cbn [fst] in Hrole, Ht. rewrite <- Ht in Hins.
  pose proof (receive_snapshot_refines n1 leader_id request (refines_good _ _ Hg H1) Hrole Hins Hwf Hsane) as H2.
  destruct (receive_snapshot n1 _ _) as [n2 o2]. by eapply refines_trans.
Qed.

(** ** The leader's side *)

(** Rewriting a follower's progress and sending to it. *)
Lemma update_then_replicate_refines n follower f demand :
  good strict n -> (forall p, progress_bounded p -> progress_bounded (f p)) ->
  (forall q, match_index (f q) <= match_index q) ->
  refines strict op n
    (let '(n, found) := update_follower_progress n follower f in
     if found then replicate_to_follower n follower demand else (n, [])).
Proof.
  intros Hg Hf Hm. pose proof (update_follower_progress_unseen n follower f Hg Hf Hm) as Hu.
  destruct (update_follower_progress n follower f) as [n1 found]. cbn [fst] in Hu.
  apply (refines_after_unseen n n1); [done|]. pose proof (unseen_good _ _ _ Hg Hu).
  destruct found; [by apply replicate_to_follower_refines|by apply refines_reply].
Qed.

Lemma next_floor_bounded p i :
  progress_bounded p -> progress_bounded (p <| next_index := N.max (next_index p) (LogIndex_next i) |>).
Proof. intros [Hm Hn]. pose proof (next_bounded i). split; simpl; lia. Qed.

Lemma installed_progress_refines n follower f :
  good strict n -> role (volatile n) = Leader ->
  (forall p, progress_bounded p -> progress_bounded (f p)) ->
  (forall q, match_index (f q) <= match_index q \/ claimed op (abs n) follower (match_index (f q))) ->
  refines strict op n
    (let '(n, found) := update_follower_progress n follower f in
     if negb found then (n, [])
     else
       let '(n, transferred) := maybe_complete_leadership_transfer n follower in
       let '(n, committed) := advance_commit_index n in
       let '(n, sends) := replicate_to_follower n follower ProgressOnly in
       (n, transferred ++ committed ++ sends)).
Proof.
  intros Hg Hl Hf Hc. unfold update_follower_progress. cbv zeta.
  pose proof (reconcile_unseen _ _ Hg) as Hu. set (n0 := reconcile_replication_progress n) in *.
  destruct (ProgressSet_get _ _); [|by apply refines_unseen]. simpl negb. cbv iota.
  pose proof (unseen_role _ _ Hu) as Hl0.
  apply (after_ack_refines n (update_progress n0 follower f) follower true); [done| |].
  - apply (refines_after_unseen n n0); [done|].
    apply progress_update_refines; [by eapply unseen_good|congruence|done|].
    intros q. destruct (unseen_abs _ _ Hu) as [m ->]. apply Hc.
  - simpl. congruence.
Qed.

Lemma handle_install_snapshot_response_refines n follower response :
  delivers op follower (MInstallSnapshotResponse response) ->
  good strict n -> refines strict op n (handle_install_snapshot_response n follower response).
Proof.
  intros Hop Hg. unfold handle_install_snapshot_response.
  destruct (_ <? _); [apply become_follower_refines, Hg|].
  case_bool_decide as Hl; [|by apply refines_reply]. cbn [negb orb].
  destruct (N.eqb_spec (isr_term response) (current_term (persistent n))) as [Ht|]; simpl negb;
    [|by apply refines_reply]. cbv zeta.
  pose proof (record_quorum_ack_unseen n Hg follower) as Hu.
  set (n1 := record_quorum_ack n follower) in *. apply (refines_after_unseen n n1); [done|].
  pose proof (unseen_good _ _ _ Hg Hu) as Hg1. pose proof (last_log_index_bounded n1) as Hb.
  pose proof (snapshot_index_bounded n1 (proj1 Hg1)) as Hsb.
  assert (role (volatile n1) = Leader) as Hl1 by (rewrite (unseen_role _ _ Hu); done).
  destruct (is_some_and _ _); [by apply refines_reply|].
  assert (current_term (persistent n1) = current_term (persistent n)) as Ht1
    by (destruct (unseen_abs _ _ Hu) as [m Ha]; by apply (f_equal s_term) in Ha).
  destruct (isr_success response) eqn:Es.
  - destruct (snapshot (persistent n1) ≫= _) as [s|] eqn:Esn.
    + apply update_then_replicate_refines; [done| |done]. intros p [Hm Hn]. split; [done|].
      simpl. apply bind_Some in Esn as (s' & Hs' & Hif). destruct (_ || _); simplify_eq.
      unfold snapshot_index in Hsb. by rewrite Hs' in Hsb.
    + apply installed_progress_refines; [done|done| |].
      * intros p Hp. set (reported := N.min _ _) in *.
        assert (progress_bounded (p <| match_index := N.max (match_index p) reported |>)) as Hp'
          by (destruct Hp; split; simpl; lia).
        apply next_floor_bounded. split; [|by apply confirm_replicating_next].
        rewrite confirm_replicating_match. apply Hp'.
      * intros q. cbn. rewrite confirm_replicating_match. cbn.
        destruct (N.max_spec (match_index q) (N.min (isr_last_included_index response) (last_log_index n1)))
          as [[_ ->]|[_ ->]]; [right|by left]. right. exists response.
        split_and!; [done|simpl; congruence|done|lia].
  - apply update_then_replicate_refines; [done| |].
    + intros p [Hm Hn]. by destruct (_ <$> _).
    + intros p. by destruct (_ <$> _).
Qed.

Lemma resume_refines n transfer n' :
  good strict n -> resume_pending_snapshot_transfer n transfer = Ok n' ->
  refines strict op n (n', []).
Proof.
  intros Hg. unfold resume_pending_snapshot_transfer.
  destruct (N.ltb_spec (pst_total_payload_len transfer) (received_bytes transfer)); [done|].
  destruct (negb _); [done|]. destruct (validate_snapshot_transfer_header _ _ _ _) as [|[]]; [|done|done].
  destruct (_ <=? _); [done|]. destruct (is_complete transfer); [done|]. intros [= <-].
  apply set_incoming_refines; [done| |constructor]. done.
Qed.
End snapshots.
