(* ===== verification/RefineMembership.v ===== *)
(** * Refinement: membership changes and local compaction

    The operations of [MembershipChange.v] and [LocalSnapshot.v] are runs of the
    abstract node. *)

From stdpp Require Import base list sorting numbers option sets.
From S2P Require Import Prelude.
From S2P Require Import Types.
From S2P Require Import Snapshot.
From S2P Require Import Message.
From S2P Require Import Membership.
From S2P Require Import MembershipIndex.
From S2P Require Import Progress.
From S2P Require Import Config.
From S2P Require Import NodeState.
From S2P Require Import Log.
From S2P Require Import View.
From S2P Require Import Commit.
From S2P Require Import Send.
From S2P Require Import ReadIndex.
From S2P Require Import Transfer.
From S2P Require Import Election.
From S2P Require Import SnapshotTransfer.
From S2P Require Import Receive.
From S2P Require Import MembershipChange.
From S2P Require Import LocalSnapshot.
From S2P Require Import Spec.
From S2P Require Import Abstraction.
From S2P Require Import RefineCommit.
From S2P Require Import RefineSend.
From S2P Require Import RefineRead.
From S2P Require Import RefineElection.
From S2P Require Import RefineReceive.
From S2P Require Import RefineSnapshot.

(** ** The preflight *)

Lemma configurations_without_offsets l k :
  filter_bool (fun offset => (k <=? offset)%nat) (from_log l) = [] -> configurations (drop k l) = [].
Proof.
  intros Hf. unfold configurations. rewrite <- from_log_entries.
  enough (from_log (drop k l) = []) as -> by done.
  rewrite <- (take_drop k l), from_log_app, filter_bool_app in Hf. apply app_eq_nil in Hf as [_ Hf].
  destruct (from_log (drop k l)) as [|o rest] eqn:E; [done|]. simpl in Hf.
  destruct (Nat.leb_spec k (length (take k l) + o)) as [|Hlt]; [done|].
  rewrite length_take in Hlt. rewrite drop_ge in E by lia. done.
Qed.

Section preflight.
Context {strict : bool} {op : Op} (n : Node) (Hg : good strict n).

Lemma logical_index_exact offset :
  (offset < length (log (persistent n)))%nat ->
  logical_index (LogIndex_next (snapshot_index n)) offset = snapshot_index n + 1 + N.of_nat offset.
Proof.
  intros Ho. destruct Hg as [Hr _]. pose proof (rep_capacity _ Hr). unfold length_u64 in *.
  unfold logical_index, LogIndex_next. rewrite (u64_add_small (snapshot_index n)), u64_add_small by lia. done.
Qed.

Lemma preflight_uncommitted :
  validate_configuration_proposal_preflight n = Ok tt ->
  role (volatile n) = Leader /\ configurations (s_uncommitted (abs n)) = [].
Proof.
  unfold validate_configuration_proposal_preflight. case_bool_decide as Hl; [|done]. simpl negb. cbv iota.
  destruct (pending_transfer _); [done|].
  destruct (head (uncommitted_configuration_indexes n)) eqn:Eh; [done|]. intros _. split; [done|].
  apply configurations_without_offsets. simpl.
  assert (uncommitted_configuration_indexes n = []) as Hu
    by (destruct (uncommitted_configuration_indexes n); done).
  destruct (filter_bool _ _) as [|o rest] eqn:Ef; [done|]. exfalso.
  assert (o ∈ filter_bool (fun offset => (N.to_nat (commit_index (volatile n) - snapshot_index n) <=? offset)%nat)
            (from_log (log (persistent n)))) as Ho by (rewrite Ef; apply elem_of_cons; by left).
  apply elem_of_filter_bool in Ho as [Hc%Nat.leb_le Ho].
  pose proof (proj1 (Forall_forall _ _) (from_log_lt (log (persistent n))) o Ho) as Hlt. simpl in Hlt.
  assert (logical_index (LogIndex_next (snapshot_index n)) o ∈ uncommitted_configuration_indexes n) as Hin.
  { unfold uncommitted_configuration_indexes, indexes_after. apply elem_of_filter_bool. split.
    - rewrite logical_index_exact by done. apply N.ltb_lt. lia.
    - apply list_elem_of_fmap. exists o. split; [done|]. destruct Hg as [Hr _]. by rewrite (rep_offsets _ Hr). }
  rewrite Hu in Hin. by apply not_elem_of_nil in Hin.
Qed.
End preflight.

(** ** Proposing a configuration *)

Definition configuration_wf (c : ConfigurationEntry) : Prop :=
  MembershipConfig_wf (membership_config c).

Section changes.
Context {strict : bool} {op : Op} (n : Node) (Hop : changes_membership op = true).
Context (Hg : good strict n) (Hroom : room 1 n) (Hcontact : contact n).

Lemma append_configuration_refines c barriers :
  role (volatile n) = Leader -> configurations (s_uncommitted (abs n)) = [] ->
  configuration_wf c -> refines strict op n (append_valid_configuration_proposal n c barriers).
Proof.
  intros Hl Hu Hc. unfold append_valid_configuration_proposal.
  destruct (validate_configuration_promotion_barriers n c barriers);
    [|by apply refines_reply; [|repeat constructor]]. cbv zeta.
  set (e := LogEntry_configuration _ _). set (n1 := append_log_entry n e).
  assert (refines strict op n (n1, [])) as H1.
  { eapply refines_rule; [by apply (rule_append _ _ (abs n) e)|done|done| |constructor].
    apply append_log_entry_rep; [apply Hg|unfold room in *; lia]. }
  eapply refines_bind_quiet; [done|done|]. intros Hg1.
  pose proof (record_local_progress_unseen _ _ Hg1) as Hu2. set (n2 := record_local_progress n1) in *.
  apply (refines_after_unseen n1 n2); [done|]. pose proof (unseen_good _ _ _ Hg1 Hu2) as Hg2.
  assert (refines strict op n2 (advance_commit_index_into n2)) as H3.
  { apply advance_commit_index_refines; [done|]. by rewrite (unseen_role _ _ Hu2). }
  pose proof (advance_commit_index_sequence _ _ Hg2) as Hseq.
  rewrite (unseen_sequence _ _ Hu2) in Hseq. change (leader n1) with (leader n) in Hseq.
  destruct (advance_commit_index_into n2) as [n3 o3]. cbn [fst] in Hseq.
  pose proof (refines_good _ _ Hg2 H3) as Hg3. case_bool_decide; [|done].
  pose proof (broadcast_append_entries_refines strict op n3 Hg3) as H4.
  destruct (broadcast_append_entries n3) as [n4 o4]. eapply refines_trans; [done|].
  apply H4. unfold contact in Hcontact. lia.
Qed.

Lemma propose_configuration_refines derive barriers :
  (forall c, derive = Ok c -> configuration_wf c) ->
  refines strict op n (propose_configuration n derive barriers).
Proof.
  intros Hd. unfold propose_configuration.
  destruct (validate_configuration_proposal_preflight n) as [[]|] eqn:Ep;
    [|by apply refines_reply; [|repeat constructor]].
  destruct (preflight_uncommitted n Hg Ep) as [Hl Hu].
  destruct derive as [c|]; [|by apply refines_reply; [|repeat constructor]].
  apply append_configuration_refines; [done|done|]. by apply Hd.
Qed.

Lemma stable_effective_membership_wf m :
  stable_effective_membership n = Ok m -> MembershipSet_wf m.
Proof.
  destruct Hg as [Hr Hinv]. pose proof (effective_wf _ _ Hr Hinv) as Hw.
  unfold stable_effective_membership. destruct (effective_membership n); [|done]. by intros [= <-].
Qed.

Lemma derived_membership_wf vs ls m :
  validated_derived_membership (MembershipSet_new vs ls) = Ok m -> MembershipSet_wf m.
Proof.
  unfold validated_derived_membership. pose proof (MembershipSet_new_sound vs ls) as Hs.
  destruct (MembershipSet_new vs ls); [|done]. simpl. intros [= <-]. apply Hs.
Qed.

Lemma add_learner_refines learner : refines strict op n (add_learner n learner).
Proof.
  apply propose_configuration_refines. intros c.
  destruct (stable_effective_membership n) as [m|]; [|done]. simpl. destruct (_ || _); [done|].
  destruct (validated_derived_membership _) as [m'|] eqn:Ed; [|done]. simpl. intros [= <-].
  exact (derived_membership_wf _ _ _ Ed).
Qed.

Lemma promote_learner_refines learner barrier :
  refines strict op n (promote_learner n learner barrier).
Proof.
  apply propose_configuration_refines. intros c.
  destruct (stable_effective_membership n) as [m|] eqn:Es; [|done]. simpl. destruct (negb _); [done|].
  destruct (validated_derived_membership _) as [m'|] eqn:Ed; [|done]. simpl. intros [= <-].
  split; [by apply stable_effective_membership_wf|exact (derived_membership_wf _ _ _ Ed)].
Qed.

Lemma remove_voter_refines voter : refines strict op n (remove_voter n voter).
Proof.
  apply propose_configuration_refines. intros c.
  destruct (stable_effective_membership n) as [m|] eqn:Es; [|done]. simpl. destruct (negb _); [done|].
  destruct (_ =? _)%nat; [done|].
  destruct (validated_derived_membership _) as [m'|] eqn:Ed; [|done]. simpl. intros [= <-].
  split; [by apply stable_effective_membership_wf|exact (derived_membership_wf _ _ _ Ed)].
Qed.

Lemma enter_joint_refines m barriers :
  MembershipSet_wf m -> refines strict op n (enter_joint n m barriers).
Proof.
  intros Hm. apply propose_configuration_refines. intros c.
  destruct (stable_effective_membership n) as [m0|] eqn:Es; [|done]. simpl. case_bool_decide; [done|].
  intros [= <-]. split; [by apply stable_effective_membership_wf|done].
Qed.

Lemma leave_joint_refines : refines strict op n (leave_joint n).
Proof.
  apply propose_configuration_refines. intros c.
  destruct Hg as [Hr Hinv]. pose proof (effective_wf _ _ Hr Hinv) as Hw.
  destruct (effective_membership n); [done|]. intros [= <-]. apply Hw.
Qed.

Lemma change_membership_refines m barriers :
  MembershipSet_wf m -> refines strict op n (change_membership n m barriers).
Proof.
  intros Hm. apply propose_configuration_refines. intros c.
  destruct Hg as [Hr Hinv]. pose proof (effective_wf _ _ Hr Hinv) as Hw.
  destruct (effective_membership n); repeat case_bool_decide; try done; by intros [= <-].
Qed.

Lemma raw_configuration_refines c barriers :
  configuration_wf c -> refines strict op n (dangerous_raw_configuration_proposal n c barriers).
Proof. intros Hc. apply propose_configuration_refines. by intros c' [= <-]. Qed.
End changes.

(** ** Local compaction *)

Lemma find_map_Some {A B} (f : A -> option B) l y :
  find_map f l = Some y -> exists x, x ∈ l /\ f x = Some y.
Proof.
  induction l as [|x l IH]; simpl; [done|]. destruct (f x) eqn:E.
  - intros [= <-]. exists x. split; [apply elem_of_cons; by left|done].
  - intros (z & Hz & Hf)%IH. exists z. split; [apply elem_of_cons; by right|done].
Qed.

Lemma max_by_index_elem states best :
  max_by_index states = Some best -> best ∈ states.
Proof.
  unfold max_by_index.
  enough (forall acc, fold_left (fun best state =>
            match best with
            | Some current => if cc_index state <? cc_index current then best else Some state
            | None => Some state
            end) states acc = Some best -> acc = Some best \/ best ∈ states) as H.
  { by intros [|]%H. }
  induction states as [|s states IH]; intros acc; simpl; [by left|].
  intros [He|Hin]%IH; [|right; apply elem_of_cons; by right].
  destruct acc as [c|]; [destruct (_ <? _)|]; simplify_eq; [by left|right|right]; apply elem_of_cons; by left.
Qed.

Lemma committed_configuration_state_at_bounded n index cc :
  committed_configuration_state_at n index = Some cc -> cc_index cc <= index.
Proof.
  unfold committed_configuration_state_at. intros Hm%max_by_index_elem.
  by apply elem_of_filter_bool in Hm as [Hle%N.leb_le _].
Qed.

Section compaction.
Context {strict : bool} (n : Node) (snapshot' : RaftSnapshot) (Hg : good strict n).
Local Notation boundary := (last_included_index (metadata snapshot')).

Lemma membership_at_index_wf index : MembershipConfig_wf (membership_at_index n index).
Proof.
  destruct Hg as [Hr Hinv]. unfold membership_at_index.
  destruct (entry_at_or_before _ _ _ _) as [c|] eqn:Ee.
  - unfold entry_at_or_before in Ee. apply find_map_Some in Ee as (o & _ & Ho).
    destruct (_ <=? _); [|done]. unfold configuration_entry_at in Ho.
    destruct (log (persistent n) !! o) as [e|] eqn:El; [|done]. simpl in Ho.
    pose proof (Forall_lookup_1 _ _ _ _ (inv_log_wf _ _ Hinv) El) as Hw.
    unfold entry_wf in Hw. by rewrite Ho in Hw.
  - pose proof (inv_base_wf _ _ Hinv) as Hb. pose proof (inv_static_wf _ _ Hinv) as Hs. simpl in Hb, Hs.
    destruct (_ <=? _); [|done]. by destruct (snapshot_committed_membership n).
Qed.

Lemma check_local_snapshot_sound committed :
  check_local_snapshot n snapshot' = Ok committed ->
  snapshot_index n <= boundary /\ boundary <= dispatched_index (volatile n) /\
  term_at n boundary = Some (last_included_term (metadata snapshot')) /\
  from_option (fun cc => cc_index cc <= commit_index (volatile n)) True committed /\
  from_option MembershipConfig_wf True (metadata_committed_membership (metadata snapshot')).
Proof.
  unfold check_local_snapshot. cbv zeta.
  destruct (N.ltb_spec boundary (snapshot_index n)); [done|].
  destruct (N.ltb_spec (commit_index (volatile n)) boundary); [done|].
  destruct (N.ltb_spec (dispatched_index (volatile n)) boundary); [done|].
  case_bool_decide as Ht; [|done]. simpl negb. cbv iota.
  match goal with |- match ?x with Ok _ => _ | Err _ => _ end = _ -> _ =>
    destruct x as [[]|] eqn:Em; [|done] end.
  destruct (negb _); [done|]. intros [= <-]. split_and!; [lia|lia|done| |].
  - destruct (committed_configuration_state_at n boundary) as [cc|] eqn:Ec; [|done]. simpl.
    apply committed_configuration_state_at_bounded in Ec. lia.
  - unfold metadata_committed_membership. revert Em.
    destruct (metadata_committed_configuration _) as [d|]; [|done]. simpl.
    case_bool_decide as Hd; [|done]. intros _. rewrite Hd. apply membership_at_index_wf.
Qed.

Lemma install_local_snapshot_refines r :
  install_local_snapshot n snapshot' = Ok r -> refines strict (OpCompact snapshot') n r.
Proof.
  unfold install_local_snapshot, prepare_local_snapshot_install.
  destruct (check_local_snapshot n snapshot') as [committed|] eqn:Ec; [|done]. simpl.
  apply check_local_snapshot_sound in Ec as (Hlo & Hhi & Ht & Hcc & Hm).
  unfold u64_checked_sub. destruct (N.leb_spec (snapshot_index n) boundary); [|lia]. simpl.
  unfold prepared_commit, install_local_snapshot_state_with_committed_configuration,
    finish_local_snapshot_install, retained_log_offset. simpl prepared_snapshot.
  simpl prepared_committed_configuration. simpl prepared_retired_len.
  set (n1 := _ <| persistent ; committed_configuration := committed |>).
  destruct (reconcile_local_proposals_shape n1) as [kept Hk].
  pose proof (reconcile_local_proposals_quiet n1) as Hq.
  destruct (reconcile_local_proposals n1) as [n2 o2]. cbn [fst snd] in Hk, Hq. subst n2. intros [= <-].
  destruct Hg as [Hr Hinv]. pose proof (inv_applied _ _ Hinv) as Ha. pose proof (inv_commit _ _ Hinv) as Hc.
  unfold s_last, length_u64 in Hc. simpl in Ha, Hc.
  pose proof (rep_capacity _ Hr) as Hcap. unfold length_u64 in Hcap.
  rewrite term_at_abs in Ht by (done || lia).
  eapply refines_rule; [by apply (rule_compact _ _ (abs n) snapshot' committed)|done|done| |done].
  destruct Hr. split; simpl; try done.
  - rewrite rep_offsets. apply compact_prefix_from_log. lia.
  - unfold snapshot_index in *. simpl. unfold length_u64. rewrite length_drop. lia.
Qed.
End compaction.
