(* ===== verification/Refinement.v ===== *)
(** * Refinement: the public operations

    Every public operation of the node is a run of the abstract node.  The
    properties of runs then hold of the kernel, over single operations and over
    executions. *)

From stdpp Require Import base list sorting numbers option sets.
From S2P Require Import Prelude.
From S2P Require Import Types.
From S2P Require Import Snapshot.
From S2P Require Import Message.
From S2P Require Import Membership.
From S2P Require Import MembershipIndex.
From S2P Require Import Progress.
From S2P Require Import Config.
From S2P Require Import NodeState.
From S2P Require Import Log.
From S2P Require Import View.
From S2P Require Import Commit.
From S2P Require Import Send.
From S2P Require Import ReadIndex.
From S2P Require Import Transfer.
From S2P Require Import Election.
From S2P Require Import SnapshotTransfer.
From S2P Require Import Receive.
From S2P Require Import MembershipChange.
From S2P Require Import LocalSnapshot.
From S2P Require Import Dispatch.
From S2P Require Import Spec.
From S2P Require Import SpecProps.
From S2P Require Import Abstraction.
From S2P Require Import RefineCommit.
From S2P Require Import RefineSend.
From S2P Require Import RefineRead.
From S2P Require Import RefineElection.
From S2P Require Import RefineReceive.
From S2P Require Import RefineSnapshot.
From S2P Require Import RefineMembership.

(** ** Operations *)

(** One public operation; a refused compaction or resumption changes nothing. *)
Definition perform (n : Node) (op : Op) : Node * list Output :=
  match op with
  | OpInput input => step n input
  | OpProposals proposals => step_proposal_batch n proposals
  | OpReads ids => read_index_batch n ids
  | OpCompact snapshot =>
      match install_local_snapshot n snapshot with Ok r => r | Err _ => (n, []) end
  | OpDrain => drain_committed_outputs n
  | OpResume transfer =>
      match resume_pending_snapshot_transfer n transfer with Ok n' => (n', []) | Err _ => (n, []) end
  end.

(** Entries an operation may add to the log. *)
Definition op_appends (op : Op) : N :=
  match op with OpProposals proposals => length_u64 proposals | _ => 1 end.

(** Memberships in the source are values of a validated type, and log indexes
    have successors. *)
Definition message_wf (m : Message) : Prop :=
  match m with
  | MAppendEntries request => append_wf request
  | MInstallSnapshot request => metadata_wf (is_metadata request)
  | MInstallSnapshotChunk request => metadata_wf (isc_metadata request)
  | _ => True
  end.

Definition op_wf (op : Op) : Prop :=
  match op with
  | OpInput (InputMessage _ m) => message_wf m
  | OpInput (EnterJoint target _) | OpInput (ChangeMembership target _) => MembershipSet_wf target
  | OpInput (DangerousRawConfigurationProposal c _) => configuration_wf c
  | _ => True
  end.

Definition message_sane (m : Message) : Prop :=
  match m with
  | MInstallSnapshot request => sane_metadata (is_metadata request)
  | MInstallSnapshotChunk request => sane_metadata (isc_metadata request)
  | _ => True
  end.

Definition op_sane (op : Op) : Prop :=
  match op with OpInput (InputMessage _ m) => message_sane m | _ => True end.

(** What a caller owes the node: valid arguments and indexes short of the
    64-bit limit.  A strict caller also uses fresh read identities and delivers
    snapshots whose recorded configuration lies at or below their boundary. *)
Record admissible (strict : bool) (op : Op) (n : Node) : Prop := {
  adm_wf : op_wf op;
  adm_room : room (op_appends op) n;
  adm_contact : contact n;
  adm_fresh : strict = true -> reads_fresh op n;
  adm_sane : strict = true -> op_sane op;
}.

Section step.
Context {strict : bool} (n : Node) (Hg : good strict n).

Lemma receive_refines from m :
  admissible strict (OpInput (InputMessage from m)) n ->
  refines strict (OpInput (InputMessage from m)) n (receive n from m).
Proof.
  intros [Hwf Hroom Hcontact _ Hsane]. simpl in *. unfold receive.
  destruct (message_sender_matches from m) eqn:Em; [|by apply refines_reply].
  simpl negb. cbv iota. destruct m; simpl in Em; apply N.eqb_eq in Em; simpl in Hwf, Hsane.
  - by apply handle_append_entries_refines.
  - by apply handle_append_entries_response_refines.
  - apply handle_install_snapshot_refines; try done. eexists _, _. by split.
  - apply handle_install_snapshot_chunk_refines; try done. eexists _, _. by split.
  - by apply handle_install_snapshot_response_refines.
  - by apply handle_pre_vote_refines.
  - by apply handle_pre_vote_response_refines.
  - by apply handle_timeout_now_refines.
  - by apply handle_request_vote_refines.
  - by apply handle_request_vote_response_refines.
Qed.

Lemma step_refines input :
  admissible strict (OpInput input) n -> refines strict (OpInput input) n (step n input).
Proof.
  intros Hadm. pose proof Hadm as [Hwf Hroom Hcontact Hfresh _]. simpl in Hwf, Hroom.
  destruct input; simpl.
  - by apply tick_refines.
  - by apply receive_refines.
  - by apply step_client_proposal_refines.
  - by apply step_client_proposal_refines.
  - by apply add_learner_refines.
  - by apply promote_learner_refines.
  - by apply remove_voter_refines.
  - by apply enter_joint_refines.
  - by apply leave_joint_refines.
  - by apply change_membership_refines.
  - by apply raw_configuration_refines.
  - by apply transfer_leadership_refines.
  - by apply (read_index_batch_refines (op := OpInput (ReadIndex read_id))).
Qed.

Lemma perform_refines op :
  admissible strict op n -> refines strict op n (perform n op).
Proof.
  intros Hadm. pose proof Hadm as [Hwf Hroom Hcontact Hfresh _]. destruct op; simpl.
  - by apply step_refines.
  - by apply step_proposal_batch_refines.
  - by apply (read_index_batch_refines (op := OpReads ids)).
  - destruct (install_local_snapshot n snapshot) eqn:E; [|by apply refines_reply].
    by apply install_local_snapshot_refines.
  - by apply emit_committed_outputs_refines.
  - destruct (resume_pending_snapshot_transfer n transfer) eqn:E; [|by apply refines_reply].
    by eapply resume_refines.
Qed.

Lemma perform_good op : admissible strict op n -> good strict (perform n op).1.
Proof. intros H. by eapply refines_good, perform_refines. Qed.
End step.
