(* ===== verification/KernelAudit.v ===== *)
(** * The kernel's own audit

    [validate_derived_state] recomputes the redundant state of a node.  It
    accepts every node that satisfies the invariant, and bootstrap establishes
    the invariant. *)

From stdpp Require Import base list sorting numbers option sets.
From S2P Require Import Prelude.
From S2P Require Import Types.
From S2P Require Import Snapshot.
From S2P Require Import Message.
From S2P Require Import Membership.
From S2P Require Import MembershipIndex.
From S2P Require Import Progress.
From S2P Require Import Config.
From S2P Require Import NodeState.
From S2P Require Import Log.
From S2P Require Import View.
From S2P Require Import Commit.
From S2P Require Import Send.
From S2P Require Import ReadIndex.
From S2P Require Import Transfer.
From S2P Require Import Election.
From S2P Require Import SnapshotTransfer.
From S2P Require Import Receive.
From S2P Require Import MembershipChange.
From S2P Require Import LocalSnapshot.
From S2P Require Import Dispatch.
From S2P Require Import Bootstrap.
From S2P Require Import Validate.
From S2P Require Import Spec.
From S2P Require Import SpecProps.
From S2P Require Import Abstraction.
From S2P Require Import RefineCommit.
From S2P Require Import RefineSend.
From S2P Require Import RefineRead.
From S2P Require Import RefineElection.
From S2P Require Import RefineReceive.
From S2P Require Import RefineSnapshot.
From S2P Require Import RefineMembership.
From S2P Require Import Refinement.

(** ** The audit accepts the invariant *)

Lemma ensure_true b v : b = true -> ensure b v = Ok tt.
Proof. by intros ->. Qed.

Lemma MembershipSet_new_canonical m :
  MembershipSet_wf m -> MembershipSet_new (voters m) (learners m) = Ok m.
Proof.
  intros (Hne & Hv & Hl & Hd).
  pose proof (MembershipSet_new_sound (voters m) (learners m)) as Hs.
  destruct (proj2 (MembershipSet_new_accepts (voters m) (learners m))) as [m' Hm'].
  { split_and!; [done|by apply ascending_NoDup|by apply ascending_NoDup|done]. }
  rewrite Hm' in Hs |- *. destruct Hs as ((_ & Hv' & Hl' & _) & Hpv & Hpl). f_equal.
  destruct m as [v l], m' as [v' l']; simpl in *. f_equal; apply ascending_ext; try done; intros x.
  - by rewrite Hpv.
  - by rewrite Hpl.
Qed.

Lemma validate_membership_shape_wf c :
  MembershipConfig_wf c -> validate_membership_shape c = Ok tt.
Proof.
  assert (forall m, MembershipSet_wf m -> validate_set m = Ok tt) as Hset.
  { intros m Hm. unfold validate_set. rewrite MembershipSet_new_canonical by done.
    by apply ensure_true, bool_decide_eq_true_2. }
  destruct c as [m|j]; simpl; [apply Hset|]. intros [Ho Hn]. by rewrite Hset, Hset.
Qed.

Section audit.
Context (n : Node) (Hg : good true n).

Lemma audit_geometry : validate_index_geometry n = Ok tt.
Proof.
  destruct Hg as [Hr Hinv]. pose proof (rep_capacity _ Hr) as Hcap.
  pose proof (inv_base _ _ Hinv) as Hb. pose proof (inv_applied _ _ Hinv) as Ha.
  pose proof (inv_commit _ _ Hinv) as Hc. pose proof (inv_configuration _ _ Hinv eq_refl) as Hcc.
  unfold s_last in Hc. simpl in Hb, Ha, Hc, Hcc. unfold validate_index_geometry.
  destruct (u64_checked_add _ _) as [x|] eqn:E; [|exfalso].
  - apply u64_checked_add_Some in E as [_ ->].
    rewrite !ensure_true by (apply N.leb_le; lia).
    destruct (committed_configuration (persistent n)); [|done]. by apply ensure_true, N.leb_le.
  - unfold u64_checked_add in E. destruct (N.leb_spec (snapshot_index n + length_u64 (log (persistent n))) u64_max);
      [done|]. unfold u64_max, u64_modulus in *. lia.
Qed.

Lemma committed_membership_wf : MembershipConfig_wf (committed_membership n).
Proof.
  destruct Hg as [Hr Hinv]. unfold committed_membership.
  destruct (committed_configuration_entry n) as [c|] eqn:Ec.
  - unfold committed_configuration_entry, committed_entry in Ec.
    destruct (find_first _ _) as [o|]; [|done]. simpl in Ec. unfold configuration_entry_at in Ec.
    destruct (log (persistent n) !! o) as [e|] eqn:El; [|done]. simpl in Ec.
    pose proof (Forall_lookup_1 _ _ _ _ (inv_log_wf _ _ Hinv) El) as Hw.
    unfold entry_wf in Hw. by rewrite Ec in Hw.
  - pose proof (inv_base_wf _ _ Hinv) as Hb. pose proof (inv_static_wf _ _ Hinv) as Hs.
    simpl in Hb, Hs. by destruct (snapshot_committed_membership n).
Qed.

Lemma insert_read_ids_fresh ids seen :
  NoDup ids -> (forall r, r ∈ ids -> r ∉ seen) ->
  exists seen', insert_read_ids seen ids = Ok seen' /\
    forall r, r ∈ seen' <-> r ∈ seen \/ r ∈ ids.
Proof.
  revert seen. induction ids as [|r ids IH]; intros seen Hn Hf; simpl.
  { exists seen. split; [done|]. set_solver. }
  apply NoDup_cons in Hn as [Hr Hn].
  destruct (elem r seen) eqn:E; [apply elem_spec in E; exfalso; eapply Hf; [|done]; set_solver|].
  destruct (IH (btree_insert r seen) Hn) as (seen' & He & Hin).
  - intros x Hx. rewrite elem_of_btree_insert. intros [->|Hs]; [done|]. eapply Hf; [|done]. set_solver.
  - exists seen'. split; [done|]. intros x. rewrite Hin, elem_of_btree_insert. set_solver.
Qed.

Lemma audit_rounds rounds seen previous_index previous_sequence :
  Forall (fun r => rr_ids r <> [] /\ rr_index r <= commit_index (volatile n) /\
                   0 < rr_sequence r /\ rr_sequence r <= heartbeat_sequence (leader n))
    (map abs_round rounds) ->
  StronglySorted (fun a b => rr_index a <= rr_index b /\ rr_sequence a <= rr_sequence b)
    (map abs_round rounds) ->
  Forall (fun r => previous_index <= rr_index r /\ previous_sequence <= rr_sequence r)
    (map abs_round rounds) ->
  NoDup (round_ids (map abs_round rounds)) ->
  (forall r, r ∈ round_ids (map abs_round rounds) -> r ∉ seen) ->
  validate_read_rounds n seen previous_index previous_sequence rounds = Ok tt.
Proof.
  revert seen previous_index previous_sequence.
  induction rounds as [|p rounds IH]; intros seen pi ps Hok Hs Hprev Hn Hf; [done|]. simpl in *.
  apply Forall_cons in Hok as [(Hne & Hi & Hq & Hq') Hok]. apply StronglySorted_inv in Hs as [Hs Hp].
  apply Forall_cons in Hprev as [[Hp1 Hp2] _]. unfold round_ids in Hn, Hf. simpl in *.
  apply NoDup_app in Hn as (Hn1 & Hdisj & Hn2).
  rewrite !ensure_true; [| | | |by apply bool_decide_eq_true_2]; cycle 1.
  - rewrite andb_true_iff, negb_true_iff, N.eqb_neq, N.leb_le. lia.
  - rewrite andb_true_iff, !N.leb_le. lia.
  - by apply N.leb_le.
  - destruct (insert_read_ids_fresh (read_ids p) seen Hn1) as (seen' & -> & Hin).
    { intros r Hr. apply Hf, elem_of_app. by left. }
    apply IH; [done|done|done|done|]. intros r Hr. rewrite Hin. intros [Hs'|Hs'].
    + eapply Hf; [|done]. apply elem_of_app. by right.
    + by eapply Hdisj.
Qed.

Lemma audit_reads : validate_pending_reads n = Ok tt.
Proof.
  destruct Hg as [Hr Hinv]. unfold validate_pending_reads.
  assert (pending_reads (leader n) <> [] ->
          role (volatile n) = Leader /\ pending_transfer (leader n) = None) as Hl.
  { intros Hne. destruct (inv_rounds_leader _ _ Hinv) as [Hrole Ht].
    - simpl. by destruct (pending_reads (leader n)).
    - split; [done|]. simpl in Ht. by destruct (pending_transfer (leader n)). }
  pose proof (inv_rounds_count _ _ Hinv) as Hcount. rewrite <- pending_read_count_abs in Hcount.
  rewrite !ensure_true.
  - eapply audit_rounds; [apply Hinv|apply Hinv| |by apply Hinv|].
    + apply Forall_forall. intros r _. lia.
    + intros r _. by apply not_elem_of_nil.
  - by apply N.leb_le.
  - destruct (pending_reads (leader n)) as [|p l]; [by rewrite orb_true_r|].
    destruct Hl as [_ ->]; done.
  - destruct (pending_reads (leader n)) as [|p l]; [done|]. destruct Hl as [-> _]; done.
Qed.

Lemma audit_accepts : validate_derived_state n = Ok tt.
Proof.
  unfold validate_derived_state, validate_state_rules. rewrite audit_geometry.
  rewrite (validate_membership_shape_wf (effective_membership n)) by (eapply effective_wf; apply Hg).
  rewrite (validate_membership_shape_wf (committed_membership n)) by apply committed_membership_wf.
  destruct Hg as [Hr Hinv]. rewrite ensure_true by (apply bool_decide_eq_true_2; apply Hr).
  rewrite audit_reads. unfold validate_incoming_snapshot. pose proof (inv_incoming _ _ Hinv) as Hin.
  simpl in Hin. destruct (incoming_snapshot (volatile n)); [|done]. by apply ensure_true, N.leb_le.
Qed.
End audit.

(** ** Bootstrap establishes the invariant *)

Definition bootstrap_wf (c : NodeConfig) (b : BootstrapState) : Prop :=
  MembershipConfig_wf (static_membership c) /\
  from_option (fun s => metadata_wf (metadata s)) True (bs_snapshot b) /\
  Forall (fun e => entry_wf {| entry_term := ble_term e; entry_kind := ble_kind e |}) (bs_log b).

(** What the log scan has established after some entries. *)
Record scanned (base : LogIndex) (current : Term) (v : LogValidation) : Prop := {
  scanned_last : lv_last_log_index v = base + length_u64 (lv_materialized_log v);
  scanned_next : lv_expected_index v = lv_last_log_index v + 1;
  scanned_bound : lv_last_log_index v + 1 < u64_modulus;
  scanned_wf : Forall entry_wf (lv_materialized_log v);
  scanned_terms : Forall (fun e => 0 < entry_term e <= current) (lv_materialized_log v);
}.

Section scan.
Context (snapshot : option RaftSnapshotMetadata) (current : Term) (commit : LogIndex)
        (stored : option CommittedConfiguration).
Local Notation base := (metadata_index snapshot).

Lemma retain_entry_scanned v e v' :
  scanned base current v ->
  entry_wf {| entry_term := ble_term e; entry_kind := ble_kind e |} ->
  retain_entry current v e = Ok v' -> scanned base current v'.
Proof.
  intros [Hl Hn Hb Hw Ht] He. unfold retain_entry, validate_retained_entry.
  destruct (N.eqb_spec (ble_index e) (lv_expected_index v)) as [Hi|]; [|done]. simpl.
  unfold Term_is_zero. destruct (N.eqb_spec (ble_term e) 0); [done|].
  destruct (N.ltb_spec current (ble_term e)); [done|].
  destruct (u64_checked_add (ble_index e) 1) as [x|] eqn:Ec; [|done].
  apply u64_checked_add_Some in Ec as [Hmax _]. simpl. intros [= <-].
  assert (ble_index e + 1 < u64_modulus) by (unfold u64_max, u64_modulus in *; lia).
  split; simpl; [|by apply u64_add_small|done| |].
  - rewrite length_app_u64. unfold length_u64 in *. simpl. lia.
  - apply Forall_app. by split; [|constructor].
  - apply Forall_app. split; [done|]. constructor; [|done]. simpl. lia.
Qed.

Lemma accept_all_scanned entries v v' :
  scanned base current v ->
  Forall (fun e => entry_wf {| entry_term := ble_term e; entry_kind := ble_kind e |}) entries ->
  accept_all snapshot current stored v entries = Ok v' -> scanned base current v'.
Proof.
  revert v. induction entries as [|e entries IH]; intros v Hv Hw; simpl; [by intros [= <-]|].
  apply Forall_cons in Hw as [He Hw].
  destruct (LogValidation_accept snapshot current stored v e) as [v1|] eqn:Ea; [|done]. simpl.
  apply IH; [|done]. revert Ea. unfold LogValidation_accept.
  pose proof (retain_entry_scanned v e v1 Hv He) as Hretain.
  destruct (_ <? _); [done|]. clear IH. destruct snapshot as [m|]; [|done].
  destruct (_ =? _); [|done].
  destruct (validate_boundary_entry e m); [|done]. simpl.
  destruct (validate_boundary_configuration e m stored); [|done]. simpl. by intros [= <-].
Qed.

Lemma validate_log_scanned entries log :
  base + 1 < u64_modulus ->
  Forall (fun e => entry_wf {| entry_term := ble_term e; entry_kind := ble_kind e |}) entries ->
  validate_log snapshot current commit stored entries = Ok log ->
  base + length_u64 log + 1 < u64_modulus /\ N.max commit base <= base + length_u64 log /\
  Forall entry_wf log /\ Forall (fun e => 0 < entry_term e <= current) log.
Proof.
  intros Hb Hw. unfold validate_log.
  destruct (accept_all _ _ _ _ _) as [v|] eqn:Ea; [|done]. simpl.
  apply accept_all_scanned in Ea as [Hl Hn Hbo Hwf Ht]; [|split; simpl|done].
  - destruct (N.ltb_spec (lv_last_log_index v) (N.max commit base)); [done|]. intros [= <-].
    split_and!; [lia|lia|done|done].
  - unfold length_u64. simpl. lia.
  - by apply u64_add_small.
  - done.
  - constructor.
  - constructor.
Qed.
End scan.

Lemma validate_floor_Ok s floor : validate_floor s floor = Ok tt -> cc_index s <= floor.
Proof. unfold validate_floor. destruct (N.ltb_spec floor (cc_index s)); [done|lia]. Qed.

(** Whatever recovery returns lies at or below the commit index. *)
Lemma recover_configuration_bounded stored snapshot log commit r :
  metadata_index snapshot <= commit ->
  recover_configuration stored snapshot log commit = Ok r ->
  from_option (fun cc => cc_index cc <= commit) True r.
Proof.
  intros Hle. unfold recover_configuration.
  set (captured := snapshot ≫= _).
  destruct (match captured with Some c => _ | None => _ end) as [[]|] eqn:Ec; [|done].
  match goal with |- match ?x with Ok _ => _ | Err _ => _ end = _ -> _ =>
    destruct x as [[]|] eqn:Es; [|done] end.
  set (states := omap _ _). intros [= <-].
  destruct (max_by_index states) as [cc|] eqn:Em; [|done]. simpl.
  apply max_by_index_elem, list_elem_of_omap in Em as (o & Ho & ->).
  rewrite !elem_of_cons in Ho. destruct Ho as [<-|[Hc|[Hr|Ho]]]; [| | |by apply not_elem_of_nil in Ho].
  - destruct (validate_floor cc commit) as [[]|] eqn:Ef; [|done]. by apply validate_floor_Ok.
  - rewrite <- Hc in Ec. apply validate_floor_Ok in Ec. lia.
  - symmetry in Hr. apply find_map_Some in Hr as ([offset e] & _ & Hf). simpl in Hf.
    destruct (N.leb_spec (u64_add (u64_add (metadata_index snapshot) (N.of_nat offset)) 1) commit); [|done].
    destruct (configuration_entry e); [|done]. by injection Hf as <-.
Qed.

Lemma from_bootstrap_good c b n :
  bootstrap_wf c b -> from_bootstrap c b = Ok n -> good true n.
Proof.
  intros (Hstatic & Hsnap & Hlog). unfold from_bootstrap, into_parts.
  destruct (validate_vote b); [|done]. destruct (validate_snapshot b c); [|done]. simpl.
  set (m := metadata <$> bs_snapshot b).
  assert (metadata_index m + 1 < u64_modulus) as Hb
    by (unfold m; destruct (bs_snapshot b); simpl in *; [apply Hsnap|done]).
  assert (from_option MembershipConfig_wf True (m ≫= metadata_committed_membership)) as Hm
    by (unfold m; destruct (bs_snapshot b); simpl in *; [apply Hsnap|done]).
  destruct (validate_log _ _ _ _ _) as [l|] eqn:El; [|done]. simpl.
  apply validate_log_scanned in El as (Hcap & Hcommit & Hwf & _); [|done|done].
  destruct (recover_configuration _ _ _ _) as [r|] eqn:Er; [|done]. simpl.
  apply recover_configuration_bounded in Er; [|lia]. intros [= <-].
  assert (match bs_snapshot b with Some s => last_included_index (metadata s) | None => 0 end
          = metadata_index m) as Hbase by (unfold m; by destruct (bs_snapshot b)).
  split; [apply rep_fresh_leader; unfold snapshot_index; simpl; rewrite ?Hbase; done|].
  split; unfold s_last; simpl; unfold snapshot_index, snapshot_committed_membership; simpl;
    rewrite ?Hbase; try done; try lia.
  - destruct (bs_snapshot b) as [s|]; [|done]. simpl. intros Hz.
    by rewrite Hz.
  - fold m. lia.
  - unfold m in Hm. by destruct (bs_snapshot b).
  - constructor.
  - constructor.
  - by intros [|].
Qed.

Lemma from_bootstrap_applied_through_good c b applied n :
  bootstrap_wf c b -> from_bootstrap_applied_through c b applied = Ok n -> good true n.
Proof.
  intros Hwf. unfold from_bootstrap_applied_through.
  destruct (from_bootstrap c b) as [n0|] eqn:E; [|done].
  pose proof (from_bootstrap_good c b n0 Hwf E) as [Hr Hinv].
  destruct (_ <? _); [done|].
  destruct (N.ltb_spec (commit_index (volatile n0)) applied); [done|]. intros [= <-].
  split; [by destruct Hr; split|]. destruct Hinv. simpl in *. unfold snapshot_index in *. split; simpl; try done;
    unfold snapshot_index; simpl; lia.
Qed.

(** A node made by the infallible constructor. *)
Lemma Node_new_good c : MembershipConfig_wf (static_membership c) -> good true (Node_new c).
Proof.
  intros Hc. split; [by apply rep_fresh_leader|].
  split; simpl; try done; try constructor. by intros [|].
Qed.
