(* ===== verification/Safety.v ===== *)
(** * Safety of a node over its executions

    The properties a deployment relies on, for every node made by a public
    constructor and driven by any sequence of admissible public operations. *)

From stdpp Require Import base list sorting numbers option sets.
From S2P Require Import Prelude.
From S2P Require Import Types.
From S2P Require Import Snapshot.
From S2P Require Import Message.
From S2P Require Import Membership.
From S2P Require Import MembershipIndex.
From S2P Require Import Progress.
From S2P Require Import Config.
From S2P Require Import NodeState.
From S2P Require Import Log.
From S2P Require Import View.
From S2P Require Import Commit.
From S2P Require Import Send.
From S2P Require Import ReadIndex.
From S2P Require Import Transfer.
From S2P Require Import Election.
From S2P Require Import SnapshotTransfer.
From S2P Require Import Receive.
From S2P Require Import MembershipChange.
From S2P Require Import LocalSnapshot.
From S2P Require Import Dispatch.
From S2P Require Import Bootstrap.
From S2P Require Import Validate.
From S2P Require Import Spec.
From S2P Require Import SpecProps.
From S2P Require Import Abstraction.
From S2P Require Import RefineCommit.
From S2P Require Import RefineSend.
From S2P Require Import RefineRead.
From S2P Require Import RefineElection.
From S2P Require Import RefineReceive.
From S2P Require Import RefineSnapshot.
From S2P Require Import RefineMembership.
From S2P Require Import Refinement.
From S2P Require Import KernelAudit.

(** ** Executions *)

(** Operations in sequence. *)
Fixpoint perform_all (n : Node) (ops : list Op) : Node * list Output :=
  match ops with
  | [] => (n, [])
  | op :: ops =>
      let '(n, o1) := perform n op in
      let '(n, o2) := perform_all n ops in
      (n, o1 ++ o2)
  end.

Fixpoint all_admissible (strict : bool) (n : Node) (ops : list Op) : Prop :=
  match ops with
  | [] => True
  | op :: ops => admissible strict op n /\ all_admissible strict (perform n op).1 ops
  end.

(** Nodes a caller can hold. *)
Inductive reachable (strict : bool) : Node -> Prop :=
| reachable_new c :
    MembershipConfig_wf (static_membership c) -> reachable strict (Node_new c)
| reachable_bootstrap c b n :
    bootstrap_wf c b -> from_bootstrap c b = Ok n -> reachable strict n
| reachable_bootstrap_applied c b applied n :
    bootstrap_wf c b -> from_bootstrap_applied_through c b applied = Ok n -> reachable strict n
| reachable_perform n op :
    reachable strict n -> admissible strict op n -> reachable strict (perform n op).1.

Lemma good_any strict n : good true n -> good strict n.
Proof. intros [Hr []]. split; [done|]. split; try done; intros _; auto. Qed.

Lemma reachable_good strict n : reachable strict n -> good strict n.
Proof.
  induction 1.
  - by apply good_any, Node_new_good.
  - by eapply good_any, from_bootstrap_good.
  - by eapply good_any, from_bootstrap_applied_through_good.
  - by apply perform_good.
Qed.

Lemma perform_run strict n op :
  good strict n -> admissible strict op n ->
  run strict op (abs n) (perform n op).2 (abs (perform n op).1) /\ good strict (perform n op).1.
Proof.
  intros Hg Ha. pose proof (perform_refines n Hg op Ha) as H. split; [apply H|].
  by eapply refines_good.
Qed.

(** A relation on abstract states and outputs that composes and holds of runs
    holds of executions. *)
Lemma perform_all_relation strict (R : Spec -> list Output -> Spec -> Prop) :
  (forall s, spec_inv strict s -> R s [] s) ->
  (forall op s o s', run strict op s o s' -> spec_inv strict s -> R s o s') ->
  (forall s1 o1 s2 o2 s3, spec_inv strict s1 -> spec_inv strict s2 ->
     R s1 o1 s2 -> R s2 o2 s3 -> R s1 (o1 ++ o2) s3) ->
  forall ops n, good strict n -> all_admissible strict n ops ->
    R (abs n) (perform_all n ops).2 (abs (perform_all n ops).1) /\
    good strict (perform_all n ops).1.
Proof.
  intros Hrefl Hrun Htrans. induction ops as [|op ops IH]; intros n Hg Hadm; simpl.
  { split; [apply Hrefl, Hg|done]. }
  destruct Hadm as [Ha Hadm]. destruct (perform_run _ _ _ Hg Ha) as [H1 Hg1].
  destruct (perform n op) as [n1 o1]. simpl in *. destruct (IH n1 Hg1 Hadm) as [H2 Hg2].
  destruct (perform_all n1 ops) as [n2 o2]. simpl in *. split; [|done].
  eapply Htrans; [apply Hg|apply Hg1| |done]. eapply Hrun; [done|apply Hg].
Qed.

Lemma perform_all_good strict n ops :
  good strict n -> all_admissible strict n ops -> good strict (perform_all n ops).1.
Proof. intros Hg Ha. by eapply (perform_all_relation strict (fun _ _ _ => True)). Qed.

Lemma reachable_all strict n ops :
  reachable strict n -> all_admissible strict n ops -> reachable strict (perform_all n ops).1.
Proof.
  revert n. induction ops as [|op ops IH]; intros n Hr Ha; simpl; [done|]. destruct Ha as [Ha Has].
  pose proof (reachable_perform strict n op Hr Ha) as H1. destruct (perform n op) as [n1 o1]. simpl in *.
  specialize (IH n1 H1 Has). by destruct (perform_all n1 ops).
Qed.

Lemma perform_all_prefix strict n ops :
  good strict n -> all_admissible strict n ops ->
  prefix_stable (abs n) (abs (perform_all n ops).1).
Proof.
  intros Hg Ha.
  eapply (perform_all_relation strict (fun s _ s' => prefix_stable s s')); [| | |done|done].
  - intros. apply prefix_stable_refl.
  - intros. by eapply run_prefix_stable.
  - intros. by eapply prefix_stable_trans.
Qed.

Lemma perform_all_dispatch strict n ops :
  good strict n -> all_admissible strict n ops ->
  dispatch_ordered (perform_all n ops).2 (abs n) (abs (perform_all n ops).1).
Proof.
  intros Hg Ha.
  eapply (perform_all_relation strict (fun s o s' => prefix_stable s s' /\ dispatch_ordered o s s'));
    [| | |done|done].
  - intros s Hs. split; [apply prefix_stable_refl|].
    by apply (run_dispatch_ordered strict OpDrain); [constructor|].
  - intros. split; [by eapply run_prefix_stable|by eapply run_dispatch_ordered].
  - intros s1 o1 s2 o2 s3 _ Hi2 [Hp1 Hd1] [Hp2 Hd2].
    split; [by eapply prefix_stable_trans|by eapply dispatch_ordered_trans].
Qed.

Lemma perform_all_vote strict n ops :
  good strict n -> all_admissible strict n ops ->
  vote_stable (abs n) (abs (perform_all n ops).1).
Proof.
  intros Hg Ha.
  eapply (perform_all_relation strict (fun s _ s' => vote_stable s s')); [| | |done|done].
  - intros. apply vote_stable_refl.
  - intros. by eapply run_vote_stable.
  - intros. by eapply vote_stable_trans.
Qed.

(** ** Sample nodes *)

Definition sample_config (id : NodeId) (peers : list NodeId) : NodeConfig :=
  match NodeConfig_new id peers 3 with
  | Ok c => c
  | Err _ => from_validated_membership 1 [] [1] (Stable {| voters := [1]; learners := [] |}) 3
  end.

(** A single voter, and the operations that elect it and commit a command. *)
Definition solo : Node := Node_new (sample_config 1 []).
Definition solo_election : list Op := [OpInput Tick; OpInput Tick; OpInput Tick].
Definition solo_commands : list Op :=
  [OpInput (ClientProposal []);
   OpProposals [{| cpi_proposal_id := Some 4; cpi_payload := [] |};
                {| cpi_proposal_id := None; cpi_payload := [] |}];
   OpReads [7; 8]].

(** One of three voters. *)
Definition trio : Node := Node_new (sample_config 1 [2; 3]).
Definition trio_votes : list Op :=
  [OpInput (InputMessage 2 (MRequestVote {| rv_term := 4; rv_candidate_id := 2;
                                            rv_last_log_index := 0; rv_last_log_term := 0 |}));
   OpInput (InputMessage 3 (MRequestVote {| rv_term := 4; rv_candidate_id := 3;
                                            rv_last_log_index := 9; rv_last_log_term := 3 |}));
   OpInput (InputMessage 3 (MRequestVote {| rv_term := 5; rv_candidate_id := 3;
                                            rv_last_log_index := 9; rv_last_log_term := 3 |}))].

Ltac accept_op :=
  constructor; [done|vm_compute; reflexivity|vm_compute; reflexivity| |done];
  let H := fresh in
  intros _; split; [vm_compute; repeat constructor; set_solver
                   |intros ? H; vm_compute in H |- *; set_solver].

Ltac accept_ops := repeat (split; [accept_op|]); exact I.

Lemma solo_reachable strict : reachable strict solo.
Proof. apply reachable_new. vm_compute. split_and!; [done|repeat constructor..|set_solver]. Defined.

Lemma solo_election_admissible : all_admissible true solo solo_election.
Proof. accept_ops. Defined.

Definition solo_leader : Node := (perform_all solo solo_election).1.

Lemma solo_leader_reachable : reachable true solo_leader.
Proof. exact (reachable_all true solo solo_election (solo_reachable true) solo_election_admissible). Defined.

Lemma solo_commands_admissible : all_admissible true solo_leader solo_commands.
Proof. accept_ops. Defined.

Lemma solo_proposal_admissible : admissible true (OpInput (ClientProposal [])) solo_leader.
Proof. accept_op. Defined.

Lemma trio_reachable strict : reachable strict trio.
Proof. apply reachable_new. vm_compute. split_and!; [done|repeat constructor..|set_solver]. Defined.

(** The node after its first vote, and the second request for that term. *)
Definition trio_voted : Node := (perform trio (nth 0 trio_votes OpDrain)).1.

Lemma trio_voted_reachable : reachable true trio_voted.
Proof. apply (reachable_perform true trio); [apply trio_reachable|accept_op]. Defined.

Lemma trio_second_admissible : all_admissible true trio_voted [nth 1 trio_votes OpDrain].
Proof. split; [accept_op|exact I]. Defined.

(** ** Refinement *)

(** C16: every public operation of the kernel, from any reachable node and for
    any admissible argument, is a run of the abstract Raft node from the
    abstraction of the node before to the abstraction of the node after, with
    exactly the kernel's outputs in order; the configuration is unchanged and
    the invariant holds again. *)
Theorem operations_refine_spec strict n op :
  reachable strict n -> admissible strict op n ->
  run strict op (abs n) (perform n op).2 (abs (perform n op).1) /\
  config (perform n op).1 = config n /\ good strict (perform n op).1.
Proof.
  intros Hr Ha. apply reachable_good in Hr. pose proof (perform_refines n Hr op Ha) as H.
  split_and!; [apply H|apply H|by eapply refines_good].
Qed.

Lemma operations_refine_spec_witness :
  (perform solo_leader (OpInput (ClientProposal []))).2 = [Apply 2 1 [] None] /\
  run true (OpInput (ClientProposal [])) (abs solo_leader)
    (perform solo_leader (OpInput (ClientProposal []))).2
    (abs (perform solo_leader (OpInput (ClientProposal []))).1).
Proof.
  split; [vm_compute; reflexivity|].
  exact (proj1 (operations_refine_spec true solo_leader (OpInput (ClientProposal []))
    solo_leader_reachable solo_proposal_admissible)).
Defined.

(** ** Terms and votes *)

(** C20: over any execution the current term never decreases, and while the term
    stays the same a recorded vote is never changed or withdrawn; the identity
    and the static membership never change. *)
Theorem term_and_vote_monotone strict n ops :
  reachable strict n -> all_admissible strict n ops ->
  let n' := (perform_all n ops).1 in
  Node_id n' = Node_id n /\ static_membership (config n') = static_membership (config n) /\
  current_term (persistent n) <= current_term (persistent n') /\
  (current_term (persistent n') = current_term (persistent n) ->
   forall c, voted_for (persistent n) = Some c -> voted_for (persistent n') = Some c).
Proof. intros Hr Ha. exact (perform_all_vote _ _ _ (reachable_good _ _ Hr) Ha). Qed.

Lemma term_and_vote_monotone_witness :
  voted_for (persistent (perform_all trio_voted [nth 1 trio_votes OpDrain]).1) = Some 2.
Proof.
  destruct (term_and_vote_monotone true trio_voted [nth 1 trio_votes OpDrain]
    trio_voted_reachable trio_second_admissible) as (_ & _ & _ & Hv).
  apply Hv; vm_compute; reflexivity.
Defined.

(** A node's lifetime: operations, and restarts that keep its identity and its
    hard state (term and vote), whatever log, snapshot and commit index storage
    hands back. *)
Inductive lifetime : Node -> list Output -> Node -> Prop :=
| lifetime_nil n : lifetime n [] n
| lifetime_perform n op o n' :
    admissible false op n -> lifetime (perform n op).1 o n' ->
    lifetime n ((perform n op).2 ++ o) n'
| lifetime_restart n b n1 o n' :
    bootstrap_wf (config n) b -> from_bootstrap (config n) b = Ok n1 ->
    bs_current_term b = current_term (persistent n) -> bs_voted_for b = voted_for (persistent n) ->
    lifetime n1 o n' -> lifetime n o n'.

Lemma from_bootstrap_hard_state c b n :
  from_bootstrap c b = Ok n ->
  config n = c /\ current_term (persistent n) = bs_current_term b /\
  voted_for (persistent n) = bs_voted_for b.
Proof.
  unfold from_bootstrap, into_parts. destruct (validate_vote b); [|done].
  destruct (validate_snapshot b c); [|done]. simpl. destruct (validate_log _ _ _ _ _); [|done].
  simpl. destruct (recover_configuration _ _ _ _); [|done]. simpl. by intros [= <-].
Qed.

Lemma from_bootstrap_role c b n : from_bootstrap c b = Ok n -> role (volatile n) = Follower.
Proof.
  unfold from_bootstrap. destruct (into_parts b c); [|done]. simpl. by intros [= <-].
Qed.

(** Grants over a lifetime lie between its terms and match its votes. *)
Lemma lifetime_grants n o n' :
  lifetime n o n' -> good false n ->
  Node_id n' = Node_id n /\ current_term (persistent n) <= current_term (persistent n') /\
  (current_term (persistent n') = current_term (persistent n) ->
   forall c, voted_for (persistent n) = Some c -> voted_for (persistent n') = Some c) /\
  grants_recorded o (abs n) (abs n').
Proof.
  induction 1 as [n|n op o n' Ha H IH|n b n1 o n' Hwf Hb Ht Hv H IH]; intros Hg.
  - split_and!; [done|done|done|]. intros to r Hin. by apply not_elem_of_nil in Hin.
  - destruct (perform_run _ _ _ Hg Ha) as [H1 Hg1]. destruct (IH Hg1) as (Hi2 & Ht2 & Hv2 & Hgr2).
    pose proof (run_vote_stable _ _ _ _ _ H1) as (Hi1 & _ & Ht1 & Hv1).
    pose proof (run_grants_recorded _ _ _ _ _ H1) as Hgr1. simpl in *.
    split_and!; [congruence|lia|intros He c Hc; apply Hv2, Hv1; [lia|lia|done]|].
    intros to r [Hin|Hin]%elem_of_app Hgr.
    + destruct (Hgr1 to r Hin Hgr) as (? & ? & Hl & Hf). simpl in *.
      split_and!; [done|lia|lia| |done]. intros He. apply Hv2; [lia|]. apply Hl. lia.
    + destruct (Hgr2 to r Hin Hgr) as (? & ? & Hl & Hf). simpl in *.
      split_and!; [congruence|lia|lia|done|]. intros He.
      destruct (voted_for (persistent n)) as [c|] eqn:Ec; [|by left].
      rewrite (Hv1 ltac:(lia) c eq_refl) in Hf. destruct (Hf ltac:(lia)); [done|by right].
  - destruct (from_bootstrap_hard_state _ _ _ Hb) as (Hc & Ht1 & Hv1).
    pose proof (good_any false _ (from_bootstrap_good _ _ _ Hwf Hb)) as Hg1.
    destruct (IH Hg1) as (Hi & Htt & Hvv & Hgr). unfold Node_id in *. rewrite Hc in Hi.
    rewrite Ht1, Ht in Htt, Hvv. rewrite Hv1, Hv in Hvv. split_and!; [done|done|done|].
    intros to r Hin Hr. destruct (Hgr to r Hin Hr) as (Hid & Htr & Hl & Hf). simpl in *.
    unfold Node_id in *. rewrite Hc in Hid. rewrite Ht1, Ht in Htr, Hf. rewrite Hv1, Hv in Hf.
    split_and!; [exact Hid|apply Htr|apply Htr|exact Hl|exact Hf].
Qed.

(** Two grants of one term in one lifetime go to one candidate. *)
Lemma lifetime_grants_agree n o n' :
  lifetime n o n' -> good false n ->
  forall to1 r1 to2 r2,
  Send to1 (MRequestVoteResponse r1) ∈ o -> rvr_vote_granted r1 = true ->
  Send to2 (MRequestVoteResponse r2) ∈ o -> rvr_vote_granted r2 = true ->
  rvr_term r1 = rvr_term r2 -> to1 = to2.
Proof.
  induction 1 as [n|n op o n' Ha H IH|n b n1 o n' Hwf Hb Ht Hv H IH]; intros Hg to1 r1 to2 r2 Hin1 Hg1 Hin2 Hg2 He.
  - by apply not_elem_of_nil in Hin1.
  - destruct (perform_run _ _ _ Hg Ha) as [Hrun Hgood].
    pose proof (lifetime_grants _ _ _ H Hgood) as (_ & _ & _ & Hlater).
    assert (forall a ra b rb, Send a (MRequestVoteResponse ra) ∈ (perform n op).2 ->
      rvr_vote_granted ra = true -> Send b (MRequestVoteResponse rb) ∈ o ->
      rvr_vote_granted rb = true -> rvr_term ra = rvr_term rb -> a = b) as Hcross.
    { intros a ra c rc Ha1 Ha2 Hc1 Hc2 Heq.
      destruct (run_grants_recorded _ _ _ _ _ Hrun a ra Ha1 Ha2) as (_ & [_ Hle] & Hl & _).
      destruct (Hlater c rc Hc1 Hc2) as (_ & [Hge _] & _ & Hf). simpl in *.
      rewrite (Hl ltac:(lia)) in Hf. destruct (Hf ltac:(lia)) as [|[= <-]]; done. }
    apply elem_of_app in Hin1 as [Hin1|Hin1], Hin2 as [Hin2|Hin2]; [|by eapply Hcross| |by eapply IH].
    + eapply run_grants_agree; done.
    + symmetry. by eapply Hcross.
  - apply (IH (good_any false _ (from_bootstrap_good _ _ _ Hwf Hb)) to1 r1 to2 r2); done.
Qed.

(** C19: over a whole lifetime, restarts included, a node grants its vote to at
    most one candidate per term, always under its own identity. *)
Theorem one_vote_per_term n o n' :
  reachable false n -> lifetime n o n' ->
  forall to1 r1 to2 r2,
  Send to1 (MRequestVoteResponse r1) ∈ o -> rvr_vote_granted r1 = true ->
  Send to2 (MRequestVoteResponse r2) ∈ o -> rvr_vote_granted r2 = true ->
  rvr_voter_id r1 = Node_id n /\ (rvr_term r1 = rvr_term r2 -> to1 = to2).
Proof.
  intros Hr Hl to1 r1 to2 r2 H1 Hg1 H2 Hg2. apply reachable_good in Hr. split.
  - destruct (lifetime_grants _ _ _ Hl Hr) as (_ & _ & _ & Hgr). by destruct (Hgr to1 r1 H1 Hg1).
  - by eapply lifetime_grants_agree.
Qed.

(** A restart of the voter with its hard state. *)
Definition trio_durable : BootstrapState :=
  {| bs_current_term := 4; bs_voted_for := Some 2; bs_commit_index := 0;
     bs_committed_configuration := None; bs_snapshot := None; bs_log := [] |}.

Definition trio_restarted : Node := default trio (match from_bootstrap (config trio_voted) trio_durable with
                                                  | Ok n => Some n | Err _ => None end).

Lemma trio_lifetime :
  lifetime trio ((perform trio (nth 0 trio_votes OpDrain)).2 ++
                 (perform trio_restarted (nth 1 trio_votes OpDrain)).2 ++ [])
    (perform trio_restarted (nth 1 trio_votes OpDrain)).1.
Proof.
  apply lifetime_perform; [accept_op|].
  apply (lifetime_restart _ trio_durable trio_restarted); [|vm_compute; reflexivity..|].
  - vm_compute. split_and!; [done|repeat constructor..|set_solver|exact I|constructor].
  - apply lifetime_perform; [accept_op|]. apply lifetime_nil.
Defined.

Lemma one_vote_per_term_witness :
  rvr_voter_id {| rvr_term := 4; rvr_voter_id := 1; rvr_vote_granted := true |} = Node_id trio /\
  (4 = 4 -> 2 = 2).
Proof.
  apply (one_vote_per_term trio _ _ (trio_reachable false) trio_lifetime 2
    {| rvr_term := 4; rvr_voter_id := 1; rvr_vote_granted := true |} 2
    {| rvr_term := 4; rvr_voter_id := 1; rvr_vote_granted := true |});
    try reflexivity; vm_compute; apply elem_of_cons; left; reflexivity.
Defined.

(** ** The committed prefix *)

Lemma good_entry_at strict n index :
  good strict n -> index <= commit_index (volatile n) -> entry_at n index = s_entry (abs n) index.
Proof.
  intros [Hr Hinv] Hi. apply entry_at_abs; [done|]. pose proof (commit_in_range strict n Hr Hinv). lia.
Qed.

(** C17: over any execution the snapshot base, the dispatch cursor and the
    commit index never move back, and every log entry committed before is still
    the entry at its index after, unless compacted into the snapshot. *)
Theorem committed_prefix_immutable strict n ops :
  reachable strict n -> all_admissible strict n ops ->
  let n' := (perform_all n ops).1 in
  snapshot_index n <= snapshot_index n' /\
  dispatched_index (volatile n) <= dispatched_index (volatile n') /\
  commit_index (volatile n) <= commit_index (volatile n') /\
  forall index, snapshot_index n' < index -> index <= commit_index (volatile n) ->
    entry_at n' index = entry_at n index.
Proof.
  intros Hr Ha n'. apply reachable_good in Hr. pose proof (perform_all_good _ _ _ Hr Ha) as Hg'.
  destruct (perform_all_prefix _ _ _ Hr Ha) as (Hb & Hd & Hc & He & _). simpl in Hb, Hd, Hc.
  split_and!; [done|done|done|]. intros index Hlo Hhi.
  rewrite (good_entry_at strict n) by done. unfold n'. rewrite (good_entry_at strict) by (done || lia).
  by apply He.
Qed.

Lemma committed_prefix_immutable_witness :
  let n' := (perform_all solo_leader solo_commands).1 in
  commit_index (volatile solo_leader) = 1 /\ commit_index (volatile n') = 4 /\
  entry_at n' 1 = entry_at solo_leader 1.
Proof.
  split; [vm_compute; reflexivity|]. split; [vm_compute; reflexivity|].
  destruct (committed_prefix_immutable true solo_leader solo_commands solo_leader_reachable
    solo_commands_admissible) as (_ & _ & _ & He).
  apply He; vm_compute; [reflexivity|discriminate].
Defined.

(** ** Dispatch to the application *)



(** ** Leaders only append *)

(** C21: an operation on a leader either moves the node to a later term, or
    deposes it in the same term, or leaves it the leader with every entry of
    its log in place above the snapshot base and any new entry of its own
    term. *)
Theorem leader_append_only strict n op :
  reachable strict n -> admissible strict op n -> role (volatile n) = Leader ->
  let n' := (perform n op).1 in
  current_term (persistent n) < current_term (persistent n') \/
  (current_term (persistent n') = current_term (persistent n) /\
   (role (volatile n') = Follower \/ role (volatile n') = PreCandidate)) \/
  (current_term (persistent n') = current_term (persistent n) /\ role (volatile n') = Leader /\
   last_log_index n <= last_log_index n' /\
   (forall index, snapshot_index n' < index -> index <= last_log_index n ->
      entry_at n' index = entry_at n index) /\
   (forall index e, last_log_index n < index -> index < u64_modulus -> entry_at n' index = Some e ->
      entry_term e = current_term (persistent n))).
Proof.
  intros Hr Ha Hl n'. apply reachable_good in Hr. destruct (perform_run _ _ _ Hr Ha) as [Hrun Hg'].
  destruct (run_append_only _ _ _ _ _ Hrun (proj2 Hr) Hl) as [Hlt|[(Ht & Hrole & Hb & Hlast & He & Hn)|H]];
    [by left| |by right; left]. right; right.
  destruct Hr as [Hrep Hinv], Hg' as [Hrep' Hinv'].
  assert (s_last (abs n) < u64_modulus) as Hlim
    by (pose proof (rep_capacity _ Hrep); unfold s_last; simpl; lia).
  fold n' in Hrep', Hinv', Hlast, He, Hn, Ht, Hrole |- *.
  rewrite (last_log_index_abs _ Hrep), (last_log_index_abs _ Hrep').
  split_and!; [done|done|done| |].
  - intros index Hlo Hhi. rewrite (entry_at_abs n' Hrep'), (entry_at_abs n Hrep) by lia. by apply He.
  - intros index e Hlo Hhi Hen. apply (Hn index e Hlo). by rewrite <- (entry_at_abs n' Hrep').
Qed.

Lemma leader_append_only_witness :
  role (volatile solo_leader) = Leader /\
  (let n' := (perform solo_leader (OpInput (ClientProposal []))).1 in
   last_log_index solo_leader = 1 /\ last_log_index n' = 2 /\
   entry_at n' 1 = entry_at solo_leader 1).
Proof.
  split; [vm_compute; reflexivity|]. cbv zeta.
  split; [vm_compute; reflexivity|]. split; [vm_compute; reflexivity|].
  destruct (leader_append_only true solo_leader (OpInput (ClientProposal [])) solo_leader_reachable
    solo_proposal_admissible ltac:(vm_compute; reflexivity)) as [Hlt|[[_ Hr]|(_ & _ & _ & He & _)]].
  - vm_compute in Hlt. discriminate Hlt.
  - destruct Hr as [Hr|Hr]; vm_compute in Hr; discriminate Hr.
  - apply He; vm_compute; [reflexivity|discriminate].
Defined.

(** ** The audit *)

(** C22: [validate_derived_state] accepts every node reachable by strict
    callers, that is with fresh read identities and with snapshots whose
    recorded configuration lies at or below their boundary. *)
Theorem audit_accepts_reachable n : reachable true n -> validate_derived_state n = Ok tt.
Proof. intros Hr. by apply audit_accepts, reachable_good. Qed.

Lemma audit_accepts_reachable_witness : validate_derived_state solo_leader = Ok tt.
Proof. exact (audit_accepts_reachable solo_leader solo_leader_reachable). Defined.
