(* ===== verification/Drain.v ===== *)
(** * The dispatch loop ends at the commit index

    [emit_committed_outputs] of [node/commit/emit.rs] runs until the dispatch
    cursor meets the commit index; the bound of the modelled loop is never what
    stops it. *)

From stdpp Require Import base list sorting numbers option sets.
From S2P Require Import Prelude.
From S2P Require Import Types.
From S2P Require Import Snapshot.
From S2P Require Import Message.
From S2P Require Import Membership.
From S2P Require Import Progress.
From S2P Require Import NodeState.
From S2P Require Import Log.
From S2P Require Import View.
From S2P Require Import Commit.
From S2P Require Import Bootstrap.
From S2P Require Import Spec.
From S2P Require Import Abstraction.
From S2P Require Import RefineCommit.
From S2P Require Import Refinement.
From S2P Require Import KernelAudit.
From S2P Require Import Safety.

Lemma emit_committed_entry_cursor n index e :
  let n' := (emit_committed_entry n index e).1 in
  dispatched_index (volatile n') = index /\ commit_index (volatile n') = commit_index (volatile n).
Proof.
  unfold emit_committed_entry. destruct (tracker_remove _ _) as [remaining removed].
  destruct (application_payload e); [done|]. destruct (configuration_entry e) as [c|]; [|done].
  unfold step_down_if_removed. destruct (_ && _); [|done].
  unfold become_follower. simpl. by destruct (_ <? _).
Qed.

Section loop.
Context {strict : bool}.

(** A follower stays one. *)
Lemma emit_follower fuel : forall n,
  role (volatile n) = Follower -> role (volatile (emit_committed_loop fuel n).1) = Follower.
Proof.
  induction fuel as [|fuel IH]; intros n Hr; simpl; [done|]. destruct (negb _); [done|].
  destruct (entry_at _ _) as [e|]; [|done].
  assert (role (volatile (emit_committed_entry n (LogIndex_next (dispatched_index (volatile n))) e).1)
          = Follower) as He.
  { unfold emit_committed_entry. destruct (tracker_remove _ _). destruct (application_payload e); [done|].
    destruct (configuration_entry e); [|done]. unfold step_down_if_removed. simpl. rewrite Hr. done. }
  destruct (emit_committed_entry _ _ _) as [n1 o1]. cbn [fst] in He. specialize (IH n1 He).
  by destruct (emit_committed_loop fuel n1).
Qed.

(** One turn of the loop on a node with undispatched committed entries. *)
Lemma emit_turn n :
  good strict n -> dispatched_index (volatile n) < commit_index (volatile n) ->
  exists n' o,
    good strict n' /\ dispatched_index (volatile n') = dispatched_index (volatile n) + 1 /\
    commit_index (volatile n') = commit_index (volatile n) /\
    forall fuel, emit_committed_loop (S fuel) n =
      let '(n2, rest) := emit_committed_loop fuel n' in (n2, o ++ rest).
Proof.
  intros Hg Hlt. pose proof (next_dispatched n Hg Hlt) as Hnext.
  assert (exists e, entry_at n (LogIndex_next (dispatched_index (volatile n))) = Some e) as [e He].
  { rewrite Hnext, (good_entry_at strict) by (done || lia). destruct Hg as [_ Hinv].
    pose proof (inv_base _ _ Hinv) as Hb. pose proof (inv_commit _ _ Hinv) as Hc.
    unfold s_last, length_u64 in Hc. simpl in Hb, Hc. unfold s_entry. simpl.
    destruct (N.leb_spec (dispatched_index (volatile n) + 1) (snapshot_index n)); [lia|].
    apply lookup_lt_is_Some_2. lia. }
  pose proof (emit_committed_entry_refines (op := OpDrain) n e Hg Hlt He) as Href.
  apply refines_good in Href; [|done].
  destruct (emit_committed_entry_cursor n (LogIndex_next (dispatched_index (volatile n))) e) as [Hd Hc].
  destruct (emit_committed_entry n _ e) as [n' o] eqn:Hn. cbn [fst] in *. exists n', o.
  split_and!; [done|congruence|done|]. intros fuel. simpl.
  destruct (N.ltb_spec (dispatched_index (volatile n)) (commit_index (volatile n))); [|lia]. simpl.
  by rewrite He, Hn.
Qed.

Lemma emit_idle fuel n :
  commit_index (volatile n) <= dispatched_index (volatile n) -> emit_committed_loop fuel n = (n, []).
Proof.
  intros Hle. destruct fuel; [done|]. simpl.
  by destruct (N.ltb_spec (dispatched_index (volatile n)) (commit_index (volatile n))); [lia|].
Qed.

Lemma emit_loop_complete k : forall n,
  good strict n -> dispatched_index (volatile n) + N.of_nat k = commit_index (volatile n) ->
  dispatched_index (volatile (emit_committed_loop k n).1) = commit_index (volatile n) /\
  commit_index (volatile (emit_committed_loop k n).1) = commit_index (volatile n) /\
  forall fuel, (k <= fuel)%nat -> emit_committed_loop fuel n = emit_committed_loop k n.
Proof.
  induction k as [|k IH]; intros n Hg Hk.
  { split_and!; [simpl; lia|done|]. intros fuel _. rewrite !emit_idle by lia. done. }
  destruct (emit_turn n Hg) as (n' & o & Hg' & Hd & Hc & Hturn); [lia|].
  destruct (IH n' Hg') as (Hd' & Hc' & Hfuel); [lia|].
  rewrite Hturn. split_and!.
  - destruct (emit_committed_loop k n'). cbn [fst] in *. congruence.
  - destruct (emit_committed_loop k n'). cbn [fst] in *. congruence.
  - intros [|fuel] Hle; [lia|]. rewrite Hturn, Hfuel by lia. done.
Qed.

Lemma drain_complete n :
  good strict n ->
  dispatched_index (volatile (drain_committed_outputs n).1) = commit_index (volatile n) /\
  commit_index (volatile (drain_committed_outputs n).1) = commit_index (volatile n) /\
  forall fuel, (N.to_nat (commit_index (volatile n) - dispatched_index (volatile n)) <= fuel)%nat ->
    emit_committed_loop fuel n = drain_committed_outputs n.
Proof.
  intros Hg. apply emit_loop_complete; [done|].
  pose proof (inv_applied _ _ (proj2 Hg)) as Ha. simpl in Ha. lia.
Qed.
End loop.


(** A node restored with two committed entries it has not dispatched. *)
Definition restored_state : BootstrapState :=
  {| bs_current_term := 1; bs_voted_for := None; bs_commit_index := 2;
     bs_committed_configuration := None; bs_snapshot := None;
     bs_log := [{| ble_index := 1; ble_term := 1; ble_kind := Noop |};
                {| ble_index := 2; ble_term := 1; ble_kind := Application [Byte.x07] |}] |}.

Definition restored : Node :=
  match from_bootstrap (sample_config 1 [2; 3]) restored_state with Ok n => n | Err _ => trio end.

Lemma restored_reachable : reachable true restored.
Proof.
  apply (reachable_bootstrap true (sample_config 1 [2; 3]) restored_state restored).
  - split_and!; [vm_compute; split_and!; [done|repeat constructor..|set_solver]|done|by repeat constructor].
  - vm_compute. reflexivity.
Defined.

