(* ===== verification/Window.v ===== *)
(** * The replication window

    [fill_replication_window] of [node/replication/send.rs] sends batches until
    the window of the follower is full or the log is exhausted; the batches it
    sends, one after the other, are the piece of the log it moves the follower's
    [next_index] over. *)

From stdpp Require Import base list sorting numbers option sets.
From S2P Require Import Prelude.
From S2P Require Import Types.
From S2P Require Import Snapshot.
From S2P Require Import Message.
From S2P Require Import MembershipIndex.
From S2P Require Import Progress.
From S2P Require Import Config.
From S2P Require Import NodeState.
From S2P Require Import Log.
From S2P Require Import Send.
From S2P Require Import Dispatch.
From S2P Require Import Spec.
From S2P Require Import Abstraction.
From S2P Require Import RefineCommit.
From S2P Require Import RefineSend.
From S2P Require Import Refinement.
From S2P Require Import Safety.

Definition sent_entries (o : Output) : list LogEntry :=
  match o with Send _ (MAppendEntries request) => ae_entries request | _ => [] end.

(** The window of a follower admits nothing more. *)
Definition window_stopped (w : WindowBudget) (p : Progress) : Prop :=
  Inflights_is_full (inflights p) (wb_max_batches w) (wb_max_bytes w) = true \/
  wb_last_log_index w < next_index p.

Lemma updated_progress n f p g :
  ProgressSet_get (progress (leader n)) f = Some p ->
  ProgressSet_get (progress (leader (update_progress n f g))) f = Some (g p).
Proof.
  unfold ProgressSet_get. cbn [update_progress leader progress]. unfold update_progress, ProgressSet_update. simpl.
  destruct (slot _ f) as [k|] eqn:Hk; simpl; [|done]. rewrite Hk. simpl. intros Hp.
  by rewrite list_lookup_alter_eq, Hp.
Qed.

Lemma log_from_split n first k e :
  snapshot_index n < first -> e `prefix_of` log_from n first -> length e = k ->
  log_from n first = e ++ log_from n (first + N.of_nat k).
Proof.
  intros Hs [r Hr] Hl. rewrite Hr. f_equal. unfold log_from in *.
  replace (N.to_nat (first + N.of_nat k - snapshot_index n - 1))
    with (N.to_nat (first - snapshot_index n - 1) + k)%nat by lia.
  rewrite <- drop_drop, Hr, <- Hl, drop_app_length. done.
Qed.

Section window.
Context (f : NodeId) (w : WindowBudget).

(** One round sends the next batch, or the window has stopped. *)
Lemma window_turn n cache p :
  rep n -> cache_ok n cache -> ProgressSet_get (progress (leader n)) f = Some p ->
  snapshot_index n < next_index p -> wb_last_log_index w = last_log_index n ->
  (window_round n f w cache = (None, cache) /\ window_stopped w p) \/
  (exists n' o cache' p',
     window_round n f w cache = (Some (n', o), cache') /\ unseen n n' /\ cache_ok n cache' /\
     ProgressSet_get (progress (leader n')) f = Some p' /\
     next_index p' = next_index p + length_u64 (sent_entries o) /\ sent_entries o <> [] /\
     next_index p <= last_log_index n /\ next_index p' <= last_log_index n + 1 /\
     sent_entries o `prefix_of` log_from n (next_index p)).
Proof.
  intros Hr Hc Hp Hs Hw. pose proof (rep_capacity _ Hr) as Hcap.
  pose proof (last_log_index_exact n Hcap) as Hlast.
  unfold window_round. rewrite Hp. unfold window_stopped.
  destruct (Inflights_is_full _ _ _); simpl; [left; by split; [|left]|].
  destruct (N.ltb_spec (wb_last_log_index w) (next_index p)) as [Hlt|Hge];
    [left; by split; [|right]|].
  destruct (cached_batch n (next_index p) (max_append_entries_bytes (config n)) cache Hc) as [Hbatch Hc'].
  destruct (log_batch_from_bounded_cached _ _ _ _) as [batch cache1]. simpl in Hbatch, Hc'.
  pose proof (log_batch_spec n Hcap (next_index p) (max_append_entries_bytes (config n))) as Hspec.
  rewrite <- Hbatch in Hspec. destruct batch as [b|]; cycle 1.
  { exfalso. destruct Hspec as [?|[?|Hnil]]; [lia|lia|]. rewrite Hnil in Hlast. simpl in Hlast.
    unfold length_u64 in Hlast. simpl in Hlast. lia. }
  destruct Hspec as (_ & Hf & Hne & Hpre & Hl & Hle & _).
  replace (N.max (next_index p) (snapshot_index n + 1)) with (next_index p) in Hf by lia.
  rewrite Hf in Hl, Hpre.
  assert (lb_last_index b + 1 < u64_modulus) as Hroom by lia.
  right. do 4 eexists. split_and!; [reflexivity|..].
  - apply update_progress_unseen; [done| |done]. intros q [? _]. split; [done|apply next_bounded].
  - done.
  - by apply updated_progress.
  - simpl. unfold LogIndex_next. rewrite u64_add_small by done. lia.
  - done.
  - lia.
  - simpl. unfold LogIndex_next. rewrite u64_add_small by done. lia.
  - done.
Qed.

(** What the loop leaves behind, for every sufficient bound on its rounds. *)
Lemma window_loop_complete k : forall n cache p,
  rep n -> cache_ok n cache -> ProgressSet_get (progress (leader n)) f = Some p ->
  snapshot_index n < next_index p -> wb_last_log_index w = last_log_index n ->
  (N.to_nat (last_log_index n + 1 - next_index p) <= k)%nat ->
  exists n' o cache' p',
    (forall fuel, (k <= fuel)%nat -> window_loop fuel n f w cache = (n', o, cache')) /\
    ProgressSet_get (progress (leader n')) f = Some p' /\ window_stopped w p' /\
    next_index p <= next_index p' /\
    log_from n (next_index p) = concat (map sent_entries o) ++ log_from n (next_index p').
Proof.
  induction k as [|k IH]; intros n cache p Hr Hc Hp Hs Hw Hk;
    destruct (window_turn n cache p Hr Hc Hp Hs Hw) as [[Hround Hstop]|Hsend];
    try (exists n, [], cache, p; split_and!; try done; intros [|fuel] Hle; simpl; by rewrite ?Hround);
    destruct Hsend as (n1 & o & c1 & p1 & Hround & Hu & Hc1 & Hp1 & Hn1 & Hne & Hle & Hle1 & Hpre); [lia|].
  - assert (0 < length_u64 (sent_entries o)) as Hpos.
    { destruct (sent_entries o); [done|]. unfold length_u64. simpl. lia. }
    destruct (unseen_log _ _ Hu) as [Hsn Hlog].
    assert (last_log_index n1 = last_log_index n) as Hlast by (unfold last_log_index; by rewrite Hsn, Hlog).
    assert (forall i, log_from n1 i = log_from n i) as Hfrom by (intros i; unfold log_from; by rewrite Hsn, Hlog).
    destruct (IH n1 c1 p1 (unseen_rep _ _ Hu) (cache_ok_unseen _ _ _ Hu Hc1) Hp1) as
      (n' & rest & c2 & p2 & Hloop & Hp2 & Hstop & Hmono & Hl); [rewrite Hsn; lia|congruence|rewrite Hlast; lia|].
    exists n', (o :: rest), c2, p2. split_and!; [|done|done|lia|].
    + intros [|fuel] Hf; [lia|]. simpl. rewrite Hround, Hloop by lia. done.
    + rewrite !Hfrom in Hl. simpl. rewrite <- app_assoc, <- Hl, Hn1.
      by apply log_from_split; [| |unfold length_u64; lia].
Qed.
End window.

(** C38: filling the window of a follower ends because the window is full or the
    log is exhausted, never because of the bound the modelled loop has; the
    batches it sends are, in order and without a gap, the entries between the
    follower's old and new [next_index]. *)
Theorem window_fills strict n f w cache p :
  reachable strict n -> cache_ok n cache -> ProgressSet_get (progress (leader n)) f = Some p ->
  snapshot_index n < next_index p -> wb_last_log_index w = last_log_index n ->
  exists n' o cache' p',
    (forall fuel, (window_fuel n f w <= fuel)%nat -> window_loop fuel n f w cache = (n', o, cache')) /\
    ProgressSet_get (progress (leader n')) f = Some p' /\ window_stopped w p' /\
    next_index p <= next_index p' /\
    log_from n (next_index p) = concat (map sent_entries o) ++ log_from n (next_index p').
Proof.
  intros [Hr _]%reachable_good Hc Hp Hs Hw. apply window_loop_complete; try done.
  unfold window_fuel. rewrite Hp, Hw. lia.
Qed.

(** A leader with three entries none of which a follower has acknowledged. *)
Definition trio_campaign : list Op :=
  [OpInput Tick; OpInput Tick; OpInput Tick;
   OpInput (InputMessage 2 (MPreVoteResponse
     {| pvr_term := 1; pvr_voter_id := 2; pvr_vote_granted := true |}));
   OpInput (InputMessage 2 (MRequestVoteResponse
     {| rvr_term := 1; rvr_voter_id := 2; rvr_vote_granted := true |}));
   OpInput (ClientProposal [Byte.x01]); OpInput (ClientProposal [Byte.x02])].

Definition trio_leader : Node := (perform_all trio trio_campaign).1.
Definition trio_window : WindowBudget :=
  {| wb_last_log_index := 3; wb_max_batches := 1; wb_max_bytes := 4194304 |}.

Lemma trio_leader_reachable : reachable true trio_leader.
Proof. apply (reachable_all true trio trio_campaign (trio_reachable true)). accept_ops. Defined.

Definition trio_behind : Progress :=
  default (Progress_probing 1) (ProgressSet_get (progress (leader trio_leader)) 2).

Lemma window_fills_witness :
  exists n' o cache' p',
    (forall fuel, (3 <= fuel)%nat -> window_loop fuel trio_leader 2 trio_window [] = (n', o, cache')) /\
    ProgressSet_get (progress (leader n')) 2 = Some p' /\ window_stopped trio_window p' /\
    next_index trio_behind <= next_index p' /\
    log_from trio_leader (next_index trio_behind) =
      concat (map sent_entries o) ++ log_from trio_leader (next_index p').
Proof.
  apply (window_fills true trio_leader 2 trio_window [] trio_behind trio_leader_reachable);
    [constructor|vm_compute; reflexivity..].
Defined.
