(* ===== verification/Batch.v ===== *)
(** * Batches of inputs

    [step_batch] coalesces runs of proposals and of reads.  A batch is the
    sequence of operations it coalesces to, nothing reordered, lost or
    repeated. *)

From stdpp Require Import base list sorting numbers option sets.
From S2P Require Import Prelude.
From S2P Require Import Types.
From S2P Require Import Snapshot.
From S2P Require Import Message.
From S2P Require Import Membership.
From S2P Require Import MembershipIndex.
From S2P Require Import Progress.
From S2P Require Import Config.
From S2P Require Import NodeState.
From S2P Require Import Log.
From S2P Require Import View.
From S2P Require Import Commit.
From S2P Require Import Send.
From S2P Require Import ReadIndex.
From S2P Require Import Transfer.
From S2P Require Import Election.
From S2P Require Import SnapshotTransfer.
From S2P Require Import Receive.
From S2P Require Import MembershipChange.
From S2P Require Import LocalSnapshot.
From S2P Require Import Dispatch.
From S2P Require Import Bootstrap.
From S2P Require Import Validate.
From S2P Require Import Spec.
From S2P Require Import SpecProps.
From S2P Require Import Abstraction.
From S2P Require Import RefineCommit.
From S2P Require Import RefineSend.
From S2P Require Import RefineRead.
From S2P Require Import RefineElection.
From S2P Require Import RefineReceive.
From S2P Require Import RefineSnapshot.
From S2P Require Import RefineMembership.
From S2P Require Import Refinement.
From S2P Require Import KernelAudit.
From S2P Require Import Safety.

Definition proposal_input (p : ClientProposalInput) : Input :=
  match cpi_proposal_id p with
  | Some id => TrackedClientProposal id (cpi_payload p)
  | None => ClientProposal (cpi_payload p)
  end.

(** The inputs an operation stands for. *)
Definition op_inputs (op : Op) : list Input :=
  match op with
  | OpInput input => [input]
  | OpProposals proposals => map proposal_input proposals
  | OpReads ids => map ReadIndex ids
  | _ => []
  end.

Definition pending_op (p : PendingBatch) : list Op :=
  match p with
  | Empty => []
  | Proposals proposals => [OpProposals proposals]
  | Reads ids => [OpReads ids]
  end.

Definition inputs_of (ops : list Op) : list Input := ops ≫= op_inputs.

Lemma inputs_of_app a b : inputs_of (a ++ b) = inputs_of a ++ inputs_of b.
Proof. apply bind_app. Qed.

Lemma inputs_of_cons op ops : inputs_of (op :: ops) = op_inputs op ++ inputs_of ops.
Proof. done. Qed.

Lemma perform_all_app n a b :
  perform_all n (a ++ b) =
  let '(n, o1) := perform_all n a in let '(n, o2) := perform_all n b in (n, o1 ++ o2).
Proof.
  revert n. induction a as [|op a IH]; intros n; simpl; [by destruct (perform_all n b)|].
  destruct (perform n op) as [n1 o1]. rewrite IH. destruct (perform_all n1 a) as [n2 o2].
  destruct (perform_all n2 b) as [n3 o3]. by rewrite app_assoc.
Qed.

Lemma perform_all_single n op : perform_all n [op] = perform n op.
Proof. simpl. destruct (perform n op). by rewrite app_nil_r. Qed.

Lemma flush_perform p n : flush p n = perform_all n (pending_op p).
Proof. destruct p; simpl pending_op; rewrite ?perform_all_single; done. Qed.

(** The operations one input moves out of the pending batch, and what stays. *)
Definition accept_proposal (p : PendingBatch) (x : ClientProposalInput) : list Op * PendingBatch :=
  match p with
  | Empty => ([], Proposals [x])
  | Proposals xs => ([], Proposals (xs ++ [x]))
  | Reads ids => ([OpReads ids], Proposals [x])
  end.

Definition accept_read (p : PendingBatch) (id : ReadId) : list Op * PendingBatch :=
  match p with
  | Empty => ([], Reads [id])
  | Reads ids => ([], Reads (ids ++ [id]))
  | Proposals xs => ([OpProposals xs], Reads [id])
  end.

Definition accept_ops (p : PendingBatch) (input : Input) : list Op * PendingBatch :=
  match input with
  | ClientProposal payload =>
      accept_proposal p {| cpi_proposal_id := None; cpi_payload := payload |}
  | TrackedClientProposal proposal_id payload =>
      accept_proposal p {| cpi_proposal_id := Some proposal_id; cpi_payload := payload |}
  | ReadIndex read_id => accept_read p read_id
  | input => (pending_op p ++ [OpInput input], Empty)
  end.

Fixpoint batch_ops (p : PendingBatch) (inputs : list Input) : list Op :=
  match inputs with
  | [] => pending_op p
  | input :: rest => let '(ops, p) := accept_ops p input in ops ++ batch_ops p rest
  end.

(** The operations a batch of inputs amounts to. *)
Definition inputs_ops (inputs : list Input) : list Op :=
  match inputs with
  | [] => []
  | [input] => [OpInput input]
  | _ => batch_ops Empty inputs
  end.

Lemma batch_accept_perform p n input :
  batch_accept p n input =
  ((accept_ops p input).2, (perform_all n (accept_ops p input).1).1,
   (perform_all n (accept_ops p input).1).2).
Proof.
  assert (forall i, (let '(n, flushed) := flush p n in let '(n, outputs) := step n i in
      (Empty, n, flushed ++ outputs)) =
    (Empty, (perform_all n (pending_op p ++ [OpInput i])).1,
     (perform_all n (pending_op p ++ [OpInput i])).2)) as Hother.
  { intros i. rewrite perform_all_app, flush_perform. destruct (perform_all n (pending_op p)) as [n1 o1].
    rewrite perform_all_single. simpl. by destruct (step n1 i). }
  destruct input; try apply Hother; destruct p as [|xs|ids]; cbn [batch_accept push_proposal push_read
    accept_ops accept_proposal accept_read fst snd]; rewrite ?perform_all_single; try done.
  - simpl. by destruct (read_index_batch n ids).
  - simpl. by destruct (read_index_batch n ids).
  - simpl. by destruct (step_proposal_batch n xs).
Qed.

Lemma accept_ops_inputs p input :
  inputs_of (accept_ops p input).1 ++ inputs_of (pending_op (accept_ops p input).2) =
  inputs_of (pending_op p) ++ [input].
Proof.
  assert (forall i, inputs_of (pending_op p ++ [OpInput i]) ++ inputs_of [] =
    inputs_of (pending_op p) ++ [i]) as Hother by (intros; by rewrite inputs_of_app, app_nil_r).
  destruct input; try apply Hother; destruct p as [|xs|ids]; try done;
    unfold inputs_of; simpl; by rewrite ?app_nil_r, ?map_app.
Qed.

Lemma batch_loop_perform inputs p n : batch_loop p n inputs = perform_all n (batch_ops p inputs).
Proof.
  revert p n. induction inputs as [|input inputs IH]; intros p n; simpl; [by rewrite flush_perform|].
  rewrite batch_accept_perform. destruct (accept_ops p input) as [ops p']. simpl. rewrite perform_all_app, IH.
  by destruct (perform_all n ops).
Qed.

Lemma batch_ops_inputs inputs p : inputs_of (batch_ops p inputs) = inputs_of (pending_op p) ++ inputs.
Proof.
  revert p. induction inputs as [|input inputs IH]; intros p; simpl; [by rewrite app_nil_r|].
  pose proof (accept_ops_inputs p input) as H. destruct (accept_ops p input) as [ops p']. simpl in H.
  rewrite inputs_of_app, IH, app_assoc, H, <- app_assoc. done.
Qed.

Lemma step_batch_perform n inputs : step_batch n inputs = perform_all n (inputs_ops inputs).
Proof.
  destruct inputs as [|i [|j rest]]; [done| |apply batch_loop_perform].
  symmetry. apply perform_all_single.
Qed.

Lemma inputs_ops_inputs inputs : inputs_of (inputs_ops inputs) = inputs.
Proof. destruct inputs as [|i [|j rest]]; [done|done|]. apply (batch_ops_inputs _ Empty). Qed.

(** C23: a batch of inputs behaves as a sequence of public operations whose
    inputs, concatenated, are exactly the batch in its order. *)
Theorem step_batch_preserves_order n inputs :
  exists ops, inputs_of ops = inputs /\ step_batch n inputs = perform_all n ops.
Proof.
  exists (inputs_ops inputs). split; [apply inputs_ops_inputs|apply step_batch_perform].
Qed.
