(* ===== verification/Reigns.v ===== *)
(** * Reigns

    The history a cluster of Raft nodes leaves behind, as ghost state: who led
    each term, on which votes, from which log and with which entries; every
    vote with the log it was cast on; and every acknowledgement.  Logs here are
    complete, from the first entry on, whatever has been compacted. *)

From stdpp Require Import base list sorting numbers option sets gmap.
From S2P Require Import Prelude.
From S2P Require Import Types.
From S2P Require Import Membership.

(** ** History *)

Record Reign := {
  r_leader : NodeId;
  r_voters : list NodeId;
  r_start : list LogEntry;
  r_log : list LogEntry;
}.

Record Vote := {
  v_voter : NodeId;
  v_term : Term;
  v_candidate : NodeId;
  v_log : list LogEntry;
}.

(** A node, a term and a number of entries of that term's leader. *)
Abbreviation Ack := (NodeId * Term * nat)%type (only parsing).

Record History := {
  reigns : gmap Term Reign;
  cast : list Vote;
  acked : list Ack;
}.

Implicit Types (G : History) (L P : list LogEntry).

(** The term of the [k]-th entry; position 0 is before the log. *)
Definition term_of L (k : nat) : option Term :=
  match k with 0%nat => Some 0 | S k => entry_term <$> L !! k end.

Definition last_term L : Term := default 0 (term_of L (length L)).

(** [A] is no more up to date than [B]. *)
Definition behind (A B : list LogEntry) : Prop :=
  last_term A < last_term B \/ (last_term A = last_term B /\ (length A <= length B)%nat).

(** Every entry, with what precedes it, comes from the leader of its term. *)
Definition sourced G L : Prop :=
  forall k e, L !! k = Some e ->
    exists r, reigns G !! entry_term e = Some r /\ take (S k) L `prefix_of` r_log r.

(** [P] starts with the first [j] entries of the leader of [t]. *)
Definition held G (t : Term) (j : nat) P : Prop :=
  exists r, reigns G !! t = Some r /\ (j <= length (r_log r))%nat /\
    take j (r_log r) `prefix_of` P.

(** A leader after [t], at most of term [T], started without those entries. *)
Definition missed G (t : Term) (j : nat) (T : Term) : Prop :=
  exists r t' r', reigns G !! t = Some r /\ (j <= length (r_log r))%nat /\ t < t' <= T /\
    reigns G !! t' = Some r' /\ ~ take j (r_log r) `prefix_of` r_start r'.

(** What an acknowledgement of [k] entries of [t] leaves in a log of a node
    that has seen terms up to [T]. *)
Definition retained G L (t : Term) (k : nat) (T : Term) : Prop :=
  forall j, (j <= k)%nat -> held G t j L \/ missed G t j T.

(** The first entries of the leader of [t], up to and including one of its own
    term, are acknowledged by a quorum. *)
Record decided (c : MembershipConfig) G (t : Term) (k : nat) : Prop := {
  decided_reign : exists r, reigns G !! t = Some r /\
    (length (r_start r) < k)%nat /\ (k <= length (r_log r))%nat;
  decided_quorum : exists p, quorum_of c p = true /\
    forall v, p v = true -> exists k', (k <= k')%nat /\ (v, t, k') ∈ acked G;
}.

(** [P] is committed by a leader of term at most [T]. *)
Definition committed c G P (T : Term) : Prop :=
  P = [] \/ exists t k r, t <= T /\ decided c G t k /\ reigns G !! t = Some r /\
    P `prefix_of` take k (r_log r).

(** ** Invariant of the history *)

Record reign_ok (c : MembershipConfig) G (t : Term) (r : Reign) : Prop := {
  reign_term : 1 <= t;
  reign_start : r_start r `prefix_of` r_log r;
  reign_before : Forall (fun e => entry_term e < t) (r_start r);
  reign_after : Forall (fun e => entry_term e = t) (drop (length (r_start r)) (r_log r));
  reign_sourced : sourced G (r_log r);
  reign_quorum : quorum_of c (fun v => elem v (r_voters r)) = true;
  reign_votes : forall v, v ∈ r_voters r -> exists L,
    {| v_voter := v; v_term := t; v_candidate := r_leader r; v_log := L |} ∈ cast G;
  reign_self :
    {| v_voter := r_leader r; v_term := t; v_candidate := r_leader r; v_log := r_start r |} ∈ cast G;
  reign_acks : forall v t0 k r0 j, v ∈ r_voters r -> (v, t0, k) ∈ acked G -> t0 < t ->
    reigns G !! t0 = Some r0 -> (length (r_start r0) < j <= k)%nat ->
    held G t0 j (r_start r) \/ missed G t0 j (t - 1);
}.

Record vote_ok G (v : Vote) : Prop := {
  vote_sourced : sourced G (v_log v);
  vote_candidate : exists L,
    {| v_voter := v_candidate v; v_term := v_term v; v_candidate := v_candidate v; v_log := L |}
      ∈ cast G /\ behind (v_log v) L;
  vote_acks : forall t k, (v_voter v, t, k) ∈ acked G -> t < v_term v ->
    retained G (v_log v) t k (v_term v);
}.

Record history_ok (c : MembershipConfig) G : Prop := {
  history_reigns : forall t r, reigns G !! t = Some r -> reign_ok c G t r;
  history_votes : forall v, v ∈ cast G -> vote_ok G v;
  history_unique : forall v w, v ∈ cast G -> w ∈ cast G ->
    v_voter v = v_voter w -> v_term v = v_term w -> v = w;
  history_acks : forall v t k, (v, t, k) ∈ acked G ->
    exists r, reigns G !! t = Some r /\ (k <= length (r_log r))%nat;
}.

(** ** Growth *)

(** History grows by what the node [i] does: its votes and acknowledgements,
    the term it wins and the entries it adds to it. *)
Record grows (i : NodeId) G G' : Prop := {
  grows_reigns : forall t r, reigns G !! t = Some r -> exists r', reigns G' !! t = Some r' /\
    r_leader r' = r_leader r /\ r_voters r' = r_voters r /\ r_start r' = r_start r /\
    r_log r `prefix_of` r_log r' /\ (r_leader r <> i -> r_log r' = r_log r);
  grows_reigns_new : forall t r', reigns G' !! t = Some r' ->
    (exists r, reigns G !! t = Some r) \/ r_leader r' = i;
  grows_votes : forall v, v ∈ cast G -> v ∈ cast G';
  grows_votes_new : forall v, v ∈ cast G' -> v ∈ cast G \/ v_voter v = i;
  grows_acks : forall a, a ∈ acked G -> a ∈ acked G';
  grows_acks_new : forall v t k, (v, t, k) ∈ acked G' -> (v, t, k) ∈ acked G \/ v = i;
}.

Lemma grows_refl i G : grows i G G.
Proof.
  split; [|intros t r Hr; left; by exists r|done|by left|done|by left].
  intros t r Hr. exists r. by split_and!.
Qed.

Lemma grows_trans i G1 G2 G3 : grows i G1 G2 -> grows i G2 G3 -> grows i G1 G3.
Proof.
  intros H12 H23. split.
  - intros t r Hr. destruct (grows_reigns _ _ _ H12 t r Hr) as (r2 & Hr2 & Hl2 & Hv2 & Hs2 & Hp2 & He2).
    destruct (grows_reigns _ _ _ H23 t r2 Hr2) as (r3 & Hr3 & Hl3 & Hv3 & Hs3 & Hp3 & He3).
    exists r3. split_and!; [done|congruence|congruence|congruence|by etrans|].
    intros Hne. rewrite He3 by congruence. by apply He2.
  - intros t r3 Hr3. destruct (grows_reigns_new _ _ _ H23 t r3 Hr3) as [[r2 Hr2]|]; [|by right].
    destruct (grows_reigns_new _ _ _ H12 t r2 Hr2) as [|Hi]; [by left|]. right.
    destruct (grows_reigns _ _ _ H23 t r2 Hr2) as (? & ? & ? & _). simplify_eq. congruence.
  - intros v Hv. by eapply grows_votes, grows_votes.
  - intros v Hv. destruct (grows_votes_new _ _ _ H23 v Hv) as [Hv2|]; [|by right].
    by apply (grows_votes_new _ _ _ H12).
  - intros a Ha. by eapply grows_acks, grows_acks.
  - intros v t k Hv. destruct (grows_acks_new _ _ _ H23 _ _ _ Hv) as [Hv2|]; [|by right].
    by apply (grows_acks_new _ _ _ H12).
Qed.

Lemma prefix_take_le {A} (l k : list A) j :
  l `prefix_of` k -> (j <= length l)%nat -> take j l = take j k.
Proof. intros [m ->] Hj. by rewrite take_app_le. Qed.

Lemma take_le_prefix {A} (l : list A) j k : (j <= k)%nat -> take j l `prefix_of` take k l.
Proof. intros H. rewrite <- (Nat.min_l j k), <- take_take by done. apply prefix_take. Qed.

Section growth.
Context (i : NodeId) (G G' : History) (Hgrow : grows i G G').

Lemma sourced_grows L : sourced G L -> sourced G' L.
Proof.
  intros Hs k e He. destruct (Hs k e He) as (r & Hr & Hp).
  destruct (grows_reigns _ _ _ Hgrow _ _ Hr) as (r' & Hr' & _ & _ & _ & Hpre & _).
  exists r'. split; [done|by etrans].
Qed.

Lemma held_grows t j P : held G t j P -> held G' t j P.
Proof.
  intros (r & Hr & Hj & Hp).
  destruct (grows_reigns _ _ _ Hgrow _ _ Hr) as (r' & Hr' & _ & _ & _ & Hpre & _).
  exists r'. split_and!; [done|apply prefix_length in Hpre; lia|].
  by rewrite <- (prefix_take_le _ _ _ Hpre Hj).
Qed.

Lemma missed_grows t j T : missed G t j T -> missed G' t j T.
Proof.
  intros (r & t' & r1 & Hr & Hj & Ht & Hr1 & Hn).
  destruct (grows_reigns _ _ _ Hgrow _ _ Hr) as (r' & Hr' & _ & _ & _ & Hpre & _).
  destruct (grows_reigns _ _ _ Hgrow _ _ Hr1) as (r1' & Hr1' & _ & _ & Hs1 & _).
  exists r', t', r1'. split_and!; [done|apply prefix_length in Hpre; lia|lia|lia|done|].
  by rewrite Hs1, <- (prefix_take_le _ _ _ Hpre Hj).
Qed.

Lemma retained_grows L t k T : retained G L t k T -> retained G' L t k T.
Proof.
  intros H j Hj. destruct (H j Hj); [left; by apply held_grows|right; by apply missed_grows].
Qed.

Lemma decided_grows c t k : decided c G t k -> decided c G' t k.
Proof.
  intros [(r & Hr & Hlo & Hhi) (p & Hq & Hp)].
  destruct (grows_reigns _ _ _ Hgrow _ _ Hr) as (r' & Hr' & _ & _ & Hs & Hpre & _). split.
  - exists r'. rewrite Hs. apply prefix_length in Hpre. split_and!; [done|lia|lia].
  - exists p. split; [done|]. intros v (k' & Hk & Hin)%Hp. exists k'. split; [done|].
    by apply (grows_acks _ _ _ Hgrow).
Qed.

Lemma committed_grows c P T : committed c G P T -> committed c G' P T.
Proof.
  intros [->|(t & k & r & Ht & Hd & Hr & Hp)]; [by left|]. right.
  pose proof (decided_grows _ _ _ Hd) as Hd'. destruct Hd as [(r0 & Hr0 & _ & Hk) _].
  rewrite Hr in Hr0. injection Hr0 as <-.
  destruct (grows_reigns _ _ _ Hgrow _ _ Hr) as (r' & Hr' & _ & _ & _ & Hpre & _).
  exists t, k, r'. split_and!; [done|done|done|]. by rewrite <- (prefix_take_le _ _ _ Hpre Hk).
Qed.
End growth.

Lemma missed_weaken G t j T T' : T <= T' -> missed G t j T -> missed G t j T'.
Proof.
  intros HT (r & t' & r' & ? & ? & ? & ? & ?). exists r, t', r'. split_and!; try done; lia.
Qed.

Lemma retained_weaken G L t k T T' : T <= T' -> retained G L t k T -> retained G L t k T'.
Proof. intros HT H j Hj. destruct (H j Hj); [by left|right; by eapply missed_weaken]. Qed.

Lemma committed_weaken c G P T T' : T <= T' -> committed c G P T -> committed c G P T'.
Proof.
  intros HT [->|(t & k & r & Ht & ?)]; [by left|]. right. exists t, k, r. split; [lia|done].
Qed.

Lemma committed_prefix c G P P' T : P `prefix_of` P' -> committed c G P' T -> committed c G P T.
Proof.
  intros Hp [->|(t & k & r & Ht & Hd & Hr & Hp')]; [left; by apply prefix_nil_inv|].
  right. exists t, k, r. split_and!; [done|done|done|by etrans].
Qed.

(** ** Log matching *)

Lemma term_of_lookup L k t :
  term_of L (S k) = Some t <-> exists e, L !! k = Some e /\ entry_term e = t.
Proof.
  simpl. rewrite fmap_Some. split; intros (e & ? & ?); exists e; by split.
Qed.

Lemma term_of_length L k t : term_of L k = Some t -> (k <= length L)%nat.
Proof. destruct k; [lia|]. intros (e & He & _)%term_of_lookup. by apply lookup_lt_Some in He. Qed.

Lemma term_of_prefix P L k : P `prefix_of` L -> (k <= length P)%nat -> term_of P k = term_of L k.
Proof.
  intros Hp Hk. destruct k as [|k]; [done|]. simpl. f_equal.
  destruct (lookup_lt_is_Some_2 P k) as [e He]; [lia|]. rewrite He. symmetry. by eapply prefix_lookup_Some.
Qed.

Lemma term_of_last L : term_of L (length L) = Some (last_term L).
Proof.
  unfold last_term. destruct L as [|e L]; [done|]. simpl length. simpl term_of.
  destruct (lookup_lt_is_Some_2 (e :: L) (length L)) as [x Hx]; [simpl; lia|]. by rewrite Hx.
Qed.

(** Logs that agree on the term of a position agree up to it. *)
Lemma log_matching G A B k t :
  sourced G A -> sourced G B -> term_of A k = Some t -> term_of B k = Some t -> take k A = take k B.
Proof.
  intros HA HB. destruct k as [|k]; [done|].
  intros (a & Ha & Hta)%term_of_lookup (b & Hb & Htb)%term_of_lookup.
  destruct (HA k a Ha) as (ra & Hra & Hpa), (HB k b Hb) as (rb & Hrb & Hpb).
  rewrite Hta in Hra. rewrite Htb in Hrb. simplify_eq.
  assert (length (take (S k) A) = S k) as HlA by (apply lookup_lt_Some in Ha; rewrite length_take; lia).
  assert (length (take (S k) B) = S k) as HlB by (apply lookup_lt_Some in Hb; rewrite length_take; lia).
  destruct (prefix_weak_total _ _ _ Hpa Hpb) as [H|H].
  - apply prefix_length_eq in H; [done|lia].
  - symmetry. apply prefix_length_eq in H; [done|lia].
Qed.

Lemma sourced_prefix G P L : P `prefix_of` L -> sourced G L -> sourced G P.
Proof.
  intros Hp Hs k e He. pose proof (lookup_lt_Some _ _ _ He) as Hlt.
  destruct (Hs k e) as (r & Hr & Hpr); [by eapply prefix_lookup_Some|].
  exists r. split; [done|]. by rewrite (prefix_take_le _ _ _ Hp) by lia.
Qed.

Lemma sourced_take G L k : sourced G L -> sourced G (take k L).
Proof. apply sourced_prefix, prefix_take. Qed.

(** ** Quorums *)

Lemma config_half c : exists m, m ∈ halves c.
Proof. destruct c as [m|j]; [exists m|exists (old j)]; simpl; set_solver. Qed.

Lemma quorums_meet c p q : quorum_of c p = true -> quorum_of c q = true ->
  exists v, p v = true /\ q v = true.
Proof.
  intros Hp Hq. destruct (config_half c) as [m Hm].
  destruct (quorum_of_intersect c c m _ _ Hm Hm Hp Hq) as (v & _ & ? & ?). by exists v.
Qed.

Section history.
Context (c : MembershipConfig) (G : History) (HG : history_ok c G).

(** The entries of a reign: its own after its start, older before. *)
Lemma reign_entry t r k e :
  reigns G !! t = Some r -> r_log r !! k = Some e ->
  entry_term e <= t /\ (entry_term e = t <-> (length (r_start r) <= k)%nat).
Proof.
  intros Hr He. destruct (history_reigns _ _ HG t r Hr) as [_ [rest Hs] Hb Ha _ _ _ _ _].
  rewrite Hs in He, Ha. rewrite drop_app_length in Ha.
  destruct (decide (k < length (r_start r))%nat) as [Hlt|Hge].
  - rewrite lookup_app_l in He by done. eapply Forall_lookup_1 in Hb; [|done]. simpl in Hb.
    split; [lia|]. split; intros; lia.
  - rewrite lookup_app_r in He by lia. eapply Forall_lookup_1 in Ha; [|done]. simpl in Ha.
    split; [lia|]. split; intros; [lia|done].
Qed.

Lemma sourced_term L k t :
  sourced G L -> term_of L (S k) = Some t ->
  1 <= t /\ exists r, reigns G !! t = Some r /\ take (S k) L `prefix_of` r_log r.
Proof.
  intros Hs (e & He & <-)%term_of_lookup. destruct (Hs k e He) as (r & Hr & Hp).
  split; [|by exists r]. apply (history_reigns _ _ HG _ _ Hr).
Qed.

(** Terms do not decrease along a log. *)
Lemma sourced_monotone L j k a b :
  sourced G L -> (j <= k)%nat -> term_of L j = Some a -> term_of L k = Some b -> a <= b.
Proof.
  intros Hs Hjk Ha Hb. destruct j as [|j]; [simplify_eq/=; lia|]. destruct k as [|k]; [lia|].
  destruct (sourced_term L k b Hs Hb) as (_ & r & Hr & Hp).
  apply term_of_lookup in Ha as (e & He & <-).
  assert (r_log r !! j = Some e) as Hj.
  { eapply prefix_lookup_Some; [|exact Hp]. by rewrite lookup_take_lt by lia. }
  by destruct (reign_entry _ _ _ _ Hr Hj).
Qed.

(** A log ends in the reign of its last entry, beyond that reign's start. *)
Lemma sourced_last L :
  sourced G L -> L <> [] ->
  exists r, reigns G !! last_term L = Some r /\ L `prefix_of` r_log r /\
    (length (r_start r) < length L)%nat.
Proof.
  intros Hs Hne. destruct (length L) as [|k] eqn:Hl; [by destruct L|].
  pose proof (term_of_last L) as Ht. rewrite Hl in Ht.
  destruct (sourced_term L k _ Hs Ht) as (_ & r & Hr & Hp). rewrite take_ge in Hp by lia.
  exists r. split_and!; [done|done|]. apply term_of_lookup in Ht as (e & He & Hte).
  destruct (reign_entry _ _ k e Hr) as [_ [H _]]; [by eapply prefix_lookup_Some|]. specialize (H Hte). lia.
Qed.

(** ** Leader completeness *)

(** A later leader starts with every decided entry. *)
Lemma decided_complete t k r t' r' :
  decided c G t k -> reigns G !! t = Some r -> t < t' -> reigns G !! t' = Some r' ->
  take k (r_log r) `prefix_of` r_start r'.
Proof.
  intros [(r0 & Hr0 & Hlo & Hhi) (p & Hq & Hp)] Hr. rewrite Hr in Hr0. injection Hr0 as <-.
  revert r'. induction (N.lt_wf_0 t') as [t' _ IH]. intros r' Ht Hr'.
  pose proof (history_reigns _ _ HG _ _ Hr') as Hok.
  destruct (quorums_meet _ _ _ Hq (reign_quorum _ _ _ _ Hok)) as (v & Hpv & Hv%elem_spec).
  destruct (Hp v Hpv) as (k' & Hk & Hack).
  destruct (reign_acks _ _ _ _ Hok v t k' r k Hv Hack Ht Hr ltac:(lia)) as [(r1 & Hr1 & _ & H)|Hm].
  - rewrite Hr in Hr1. by injection Hr1 as <-.
  - destruct Hm as (r1 & t2 & r2 & Hr1 & _ & Ht2 & Hr2 & Hn). rewrite Hr in Hr1. injection Hr1 as <-.
    destruct Hn. apply (IH t2); [lia|lia|done].
Qed.

(** What is committed by a term is in the log of any leader from then on. *)
Lemma committed_in_reign P T t r :
  committed c G P T -> T <= t -> reigns G !! t = Some r -> P `prefix_of` r_log r.
Proof.
  intros [->|(t0 & k & r0 & Ht0 & Hd & Hr0 & Hp)] HT Hr; [apply prefix_nil|].
  destruct (decide (t0 = t)) as [->|Hne].
  - simplify_eq. etrans; [done|apply prefix_take].
  - etrans; [exact Hp|]. etrans; [eapply (decided_complete t0 k r0 t r); (done || lia)|].
    apply (history_reigns _ _ HG _ _ Hr).
Qed.

(** Committed logs are prefixes of one another. *)
Lemma committed_comparable P1 P2 T1 T2 :
  committed c G P1 T1 -> committed c G P2 T2 -> P1 `prefix_of` P2 \/ P2 `prefix_of` P1.
Proof.
  intros H1 H2. destruct H1 as [->|(t1 & k1 & r1 & Ht1 & Hd1 & Hr1 & Hp1)]; [left; apply prefix_nil|].
  destruct H2 as [->|(t2 & k2 & r2 & Ht2 & Hd2 & Hr2 & Hp2)]; [right; apply prefix_nil|].
  destruct (N.le_ge_cases t1 t2) as [Hle|Hle].
  - apply (prefix_weak_total P1 P2 (r_log r2)).
    + apply (committed_in_reign P1 t1 t2); [|done|done]. right. exists t1, k1, r1. by split_and!.
    + etrans; [exact Hp2|apply prefix_take].
  - apply (prefix_weak_total P1 P2 (r_log r1)).
    + etrans; [exact Hp1|apply prefix_take].
    + apply (committed_in_reign P2 t2 t1); [|done|done]. right. exists t2, k2, r2. by split_and!.
Qed.

Lemma committed_agree P1 P2 T1 T2 j e1 e2 :
  committed c G P1 T1 -> committed c G P2 T2 ->
  P1 !! j = Some e1 -> P2 !! j = Some e2 -> e1 = e2.
Proof.
  intros H1 H2 He1 He2. destruct (committed_comparable _ _ _ _ H1 H2) as [Hp|Hp].
  - eapply prefix_lookup_Some in Hp; [|exact He1]. congruence.
  - eapply prefix_lookup_Some in Hp; [|exact He2]. congruence.
Qed.
End history.

(** ** Elections *)

Lemma prefix_shorter {A} (l1 l2 l : list A) :
  l1 `prefix_of` l -> l2 `prefix_of` l -> (length l1 <= length l2)%nat -> l1 `prefix_of` l2.
Proof.
  intros H1 H2 Hl. destruct (prefix_weak_total _ _ _ H1 H2) as [|H]; [done|].
  by rewrite (prefix_length_eq _ _ H).
Qed.

Definition self_vote (i : NodeId) (t : Term) L : Vote :=
  {| v_voter := i; v_term := t; v_candidate := i; v_log := L |}.

Section election.
Context (c : MembershipConfig) (G : History) (HG : history_ok c G).
Context (i : NodeId) (t : Term) (L : list LogEntry) (Q : list NodeId).
Context (Hfree : reigns G !! t = None) (Hself : self_vote i t L ∈ cast G).
Context (Hbefore : Forall (fun e => entry_term e < t) L).
Context (HQ : forall v, v ∈ Q -> exists P,
  {| v_voter := v; v_term := t; v_candidate := i; v_log := P |} ∈ cast G).

(** The winner of an election holds what its voters acknowledged, unless an
    earlier winner already missed it. *)
Lemma election_acks v t0 k r0 j :
  v ∈ Q -> (v, t0, k) ∈ acked G -> t0 < t -> reigns G !! t0 = Some r0 ->
  (length (r_start r0) < j <= k)%nat -> held G t0 j L \/ missed G t0 j (t - 1).
Proof.
  intros Hv Hack Ht0 Hr0 Hj. destruct (HQ v Hv) as (P & HP).
  destruct (history_votes _ _ HG _ HP) as [Hsrc (L' & HL' & Hbehind) Hret]. simpl in *.
  assert (L' = L) as ->.
  { pose proof (history_unique _ _ HG _ _ HL' Hself eq_refl eq_refl) as He. by injection He. }
  destruct (Hret t0 k Hack Ht0 j ltac:(lia)) as [(r & Hr & Hjr & Hp)|Hm]; cycle 1.
  { right. destruct Hm as (r & t' & r' & Hr & Hjr & Ht' & Hr' & Hn). exists r, t', r'.
    split_and!; try done; [lia|]. assert (t' <> t) by congruence. lia. }
  rewrite Hr in Hr0. injection Hr0 as <-. destruct j as [|j]; [lia|].
  destruct (lookup_lt_is_Some_2 (r_log r) j) as [e He]; [lia|].
  destruct (reign_entry c G HG _ _ _ _ Hr He) as [_ [_ Hte]]. specialize (Hte ltac:(lia)).
  assert (S j <= length P)%nat as HjP.
  { apply prefix_length in Hp. rewrite length_take in Hp. lia. }
  assert (term_of P (S j) = Some t0) as HtP.
  { apply term_of_lookup. exists e. split; [|done]. eapply prefix_lookup_Some; [|exact Hp].
    by rewrite lookup_take_lt by lia. }
  pose proof (sourced_monotone c G HG P (S j) (length P) _ _ Hsrc HjP HtP (term_of_last P)) as Hlast.
  pose proof (reign_term _ _ _ _ (history_reigns _ _ HG _ _ Hr)) as Ht0pos.
  assert (t0 <= last_term L) as HlastL by (destruct Hbehind as [|[? _]]; lia).
  pose proof (history_votes _ _ HG _ Hself) as [HsrcL _ _]. simpl in HsrcL.
  assert (L <> []) as Hne by (intros ->; unfold last_term in HlastL; simpl in HlastL; lia).
  destruct (sourced_last c G HG L HsrcL Hne) as (rl & Hrl & HpL & HlenL).
  destruct (decide (last_term L = t0)) as [Heq|Hneq].
  - left. rewrite Heq, Hr in Hrl. injection Hrl as <-. exists r. split_and!; [done|done|].
    destruct Hbehind as [|[_ Hlen]]; [lia|].
    rewrite <- (prefix_take_le _ _ _ HpL) by lia. apply prefix_take.
  - destruct (decide (take (S j) (r_log r) `prefix_of` r_start rl)) as [Hyes|Hno].
    + left. exists r. split_and!; [done|done|]. etrans; [exact Hyes|].
      eapply prefix_shorter; [apply (history_reigns _ _ HG _ _ Hrl)|done|lia].
    + right. exists r, (last_term L), rl. split_and!; try done; [lia|].
      pose proof (term_of_last L) as Htl. destruct (length L) as [|n] eqn:El; [by destruct L|].
      apply term_of_lookup in Htl as (x & Hx & Htx).
      eapply Forall_lookup_1 in Hbefore; [|exact Hx]. simpl in Hbefore. lia.
Qed.
End election.

(** ** Steps of the history *)

Definition add_vote G (v : Vote) : History :=
  {| reigns := reigns G; cast := v :: cast G; acked := acked G |}.

Definition add_ack G (a : Ack) : History :=
  {| reigns := reigns G; cast := cast G; acked := a :: acked G |}.

Definition set_reign G (t : Term) (r : Reign) : History :=
  {| reigns := <[t := r]> (reigns G); cast := cast G; acked := acked G |}.

Section steps.
Context (c : MembershipConfig) (G : History) (HG : history_ok c G) (i : NodeId).

Lemma reign_ok_grows G' t r :
  grows i G G' -> acked G' = acked G -> reign_ok c G t r -> reign_ok c G' t r.
Proof.
  intros Hgrow Hacks []. split; try done.
  - by eapply sourced_grows.
  - intros v Hv. destruct (reign_votes0 v Hv) as (P & HP). exists P. by apply (grows_votes _ _ _ Hgrow).
  - by apply (grows_votes _ _ _ Hgrow).
  - intros v t0 k r0 j Hv Hack Ht0 Hr0 Hj. rewrite Hacks in Hack.
    destruct (history_acks _ _ HG _ _ _ Hack) as (r1 & Hr1 & _).
    destruct (grows_reigns _ _ _ Hgrow _ _ Hr1) as (r2 & Hr2 & _ & _ & Hs & _). simplify_eq.
    rewrite Hs in Hj.
    destruct (reign_acks0 v t0 k r1 j Hv Hack Ht0 Hr1 Hj);
      [left; by eapply held_grows|right; by eapply missed_grows].
Qed.

Lemma vote_ok_grows G' v : grows i G G' -> acked G' = acked G -> vote_ok G v -> vote_ok G' v.
Proof.
  intros Hgrow Hacks []. split.
  - by eapply sourced_grows.
  - destruct vote_candidate0 as (P & HP & Hb). exists P. split; [by apply (grows_votes _ _ _ Hgrow)|done].
  - intros t k Hack Ht. rewrite Hacks in Hack. eapply retained_grows; [done|]. by apply vote_acks0.
Qed.

(** An acknowledgement by a node in its current term. *)
Lemma add_ack_grows t k : grows i G (add_ack G (i, t, k)).
Proof.
  split; simpl; [| |done|by left| |].
  - intros t' r Hr. exists r. by split_and!.
  - intros t' r Hr. left. by exists r.
  - intros a Ha. apply elem_of_cons. by right.
  - intros v t' k' [[= -> -> ->]|H]%elem_of_cons; [by right|by left].
Qed.

Lemma add_ack_ok t k r :
  reigns G !! t = Some r -> (k <= length (r_log r))%nat ->
  (forall v, v ∈ cast G -> v_voter v = i -> v_term v <= t) ->
  history_ok c (add_ack G (i, t, k)).
Proof.
  intros Hr Hk Hpast. split; simpl.
  - intros t' r' Hr'. destruct (history_reigns _ _ HG _ _ Hr') as []. split; try done.
    intros v t0 k0 r0 j Hv [[= -> -> ->]|Hin]%elem_of_cons Ht0 Hr0 Hj; [exfalso|by eapply reign_acks0].
    destruct (reign_votes0 _ Hv) as (P & HP). specialize (Hpast _ HP eq_refl). simpl in Hpast. lia.
  - intros v Hv. destruct (history_votes _ _ HG _ Hv) as []. split; try done.
    intros t0 k0 [[= Hvi -> ->]|Hin]%elem_of_cons Ht0; [|by apply vote_acks0].
    specialize (Hpast _ Hv Hvi). lia.
  - apply HG.
  - intros v t0 k0 [[= -> -> ->]|Hin]%elem_of_cons; [by exists r|by eapply history_acks].
Qed.

(** A vote, the first of its voter in its term. *)
Lemma add_vote_grows v : v_voter v = i -> grows i G (add_vote G v).
Proof.
  intros Hv. split; simpl; [| | | |done|by left].
  - intros t' r Hr. exists r. by split_and!.
  - intros t' r Hr. left. by exists r.
  - intros w Hw. apply elem_of_cons. by right.
  - intros w [->|H]%elem_of_cons; [by right|by left].
Qed.

Lemma add_vote_ok v :
  v_voter v = i ->
  (forall w, w ∈ cast G -> v_voter w = i -> v_term w <> v_term v) ->
  sourced G (v_log v) ->
  (exists P, {| v_voter := v_candidate v; v_term := v_term v; v_candidate := v_candidate v;
                v_log := P |} ∈ v :: cast G /\ behind (v_log v) P) ->
  (forall t k, (i, t, k) ∈ acked G -> t < v_term v -> retained G (v_log v) t k (v_term v)) ->
  history_ok c (add_vote G v).
Proof.
  intros Hv Hfirst Hs Hc Ha. pose proof (add_vote_grows v Hv) as Hgrow. split.
  - intros t r Hr. by apply reign_ok_grows, HG.
  - intros w [->|Hw]%elem_of_cons; [|by apply vote_ok_grows, HG].
    split; [by eapply sourced_grows|done|]. intros t k Hin Ht. rewrite Hv in Hin.
    eapply retained_grows; [done|by apply Ha].
  - intros a b [->|Hina]%elem_of_cons [->|Hinb]%elem_of_cons Hvo Ht; [done| | |by apply HG].
    + destruct (Hfirst b Hinb); congruence.
    + destruct (Hfirst a Hina); congruence.
  - apply HG.
Qed.

(** A new reign. *)
Lemma set_reign_grows t r :
  reigns G !! t = None -> r_leader r = i -> grows i G (set_reign G t r).
Proof.
  intros Hfree Hl. split; simpl; [| |done|by left|done|by left].
  - intros t' r' Hr'. exists r'. rewrite lookup_insert_ne by congruence. by split_and!.
  - intros t' r'. rewrite lookup_insert_Some. intros [[<- <-]|[_ H]]; [by right|left; by exists r'].
Qed.

Lemma set_reign_ok t r :
  reigns G !! t = None -> r_leader r = i -> reign_ok c (set_reign G t r) t r ->
  history_ok c (set_reign G t r).
Proof.
  intros Hfree Hl Hok. pose proof (set_reign_grows t r Hfree Hl) as Hgrow. split.
  - intros t' r'. simpl. rewrite lookup_insert_Some. intros [[<- <-]|[_ H]]; [done|].
    by apply reign_ok_grows, HG.
  - intros v Hv. by apply vote_ok_grows, HG.
  - apply HG.
  - intros v t' k Hin. destruct (history_acks _ _ HG _ _ _ Hin) as (r' & Hr' & Hk).
    exists r'. simpl. rewrite lookup_insert_ne by congruence. by split.
Qed.

(** An entry of a leader. *)
Definition extend (r : Reign) (e : LogEntry) : Reign :=
  {| r_leader := r_leader r; r_voters := r_voters r; r_start := r_start r; r_log := r_log r ++ [e] |}.

Lemma extend_grows t r e :
  reigns G !! t = Some r -> r_leader r = i -> grows i G (set_reign G t (extend r e)).
Proof.
  intros Hr Hl. split; simpl; [| |done|by left|done|by left].
  - intros t' r' Hr'. destruct (decide (t' = t)) as [->|Hne].
    + rewrite Hr in Hr'. injection Hr' as <-. exists (extend r e). rewrite lookup_insert_eq. split_and!; try done.
      by apply prefix_app_r.
    + exists r'. rewrite lookup_insert_ne by congruence. by split_and!.
  - intros t' r'. rewrite lookup_insert_Some. intros [[<- <-]|[_ H]]; [by right|left; by exists r'].
Qed.

Lemma extend_ok t r e :
  reigns G !! t = Some r -> r_leader r = i -> entry_term e = t ->
  history_ok c (set_reign G t (extend r e)).
Proof.
  intros Hr Hl He. pose proof (extend_grows t r e Hr Hl) as Hgrow. split.
  - intros t' r'. simpl. rewrite lookup_insert_Some. intros [[<- <-]|[_ H]];
      [|by apply reign_ok_grows, HG].
    destruct (reign_ok_grows _ _ _ Hgrow eq_refl (history_reigns _ _ HG _ _ Hr)) as [].
    split; try done; simpl.
    + by apply prefix_app_r.
    + rewrite drop_app_le by by apply prefix_length. apply Forall_app. split; [done|]. by constructor.
    + intros k x Hx. destruct (decide (k < length (r_log r))%nat) as [Hlt|Hge].
      * rewrite lookup_app_l in Hx by done. destruct (reign_sourced0 k x Hx) as (r1 & Hr1 & Hp).
        exists r1. split; [done|]. by rewrite take_app_le by lia.
      * rewrite lookup_app_r in Hx by lia. apply list_lookup_singleton_Some in Hx as [Hk <-].
        exists (extend r e). simpl. rewrite He, lookup_insert_eq. split; [done|]. apply prefix_take.
  - intros v Hv. by apply vote_ok_grows, HG.
  - apply HG.
  - intros v t' k Hin. destruct (history_acks _ _ HG _ _ _ Hin) as (r' & Hr' & Hk).
    destruct (grows_reigns _ _ _ Hgrow _ _ Hr') as (r2 & Hr2 & _ & _ & _ & Hp & _).
    exists r2. apply prefix_length in Hp. split; [done|lia].
Qed.
End steps.
