(* ===== verification/Consensus.v ===== *)
(** * Consensus over fixed membership

    What a node of the specification contributes to the history of the cluster,
    and what it may rely on.  The invariant of a node relates its state to the
    complete log it stands for; every rule extends the history and keeps the
    invariant, given that the messages it delivers were sent by nodes that keep
    it. *)

From stdpp Require Import base list sorting numbers option sets gmap.
From S2P Require Import Prelude.
From S2P Require Import Types.
From S2P Require Import Snapshot.
From S2P Require Import Message.
From S2P Require Import Membership.
From S2P Require Import Spec.
From S2P Require Import SpecProps.
From S2P Require Import Reigns.

(** ** Fixed membership *)

(** The membership is the given one and no configuration entry is held. *)
Definition fixed (c : MembershipConfig) (s : Spec) : Prop :=
  s_static s = c /\ (s_base_membership s = None \/ s_base_membership s = Some c) /\
  configurations (s_log s) = [].

(** No configuration reaches the node through the operation. *)
Record quiet_membership (c : MembershipConfig) (op : Op) : Prop := {
  quiet_changes : changes_membership op = false;
  quiet_entries : forall from request, delivers op from (MAppendEntries request) ->
    configurations (ae_entries request) = [];
  quiet_installs : forall t m, installs op t m ->
    metadata_committed_membership m = None \/ metadata_committed_membership m = Some c;
  quiet_compacts : forall snapshot, op = OpCompact snapshot ->
    metadata_committed_membership (metadata snapshot) = None \/
    metadata_committed_membership (metadata snapshot) = Some c;
}.

Lemma fixed_membership c s : fixed c s -> s_membership s = c.
Proof.
  intros (Hs & Hb & Hl). unfold s_membership, s_base_config. rewrite Hl. simpl.
  destruct Hb as [->| ->]; done.
Qed.

Lemma configurations_app l k : configurations (l ++ k) = configurations l ++ configurations k.
Proof. apply omap_app. Qed.

Lemma configurations_take k l : configurations l = [] -> configurations (take k l) = [].
Proof.
  intros H. rewrite <- (take_drop k l), configurations_app in H. by apply app_eq_nil in H as [? _].
Qed.

Lemma configurations_drop k l : configurations l = [] -> configurations (drop k l) = [].
Proof.
  intros H. rewrite <- (take_drop k l), configurations_app in H. by apply app_eq_nil in H as [_ ?].
Qed.

Lemma configurations_single e :
  is_configuration (entry_kind e) = false -> configurations [e] = [].
Proof.
  unfold configurations, configuration_entry. simpl. by destruct (entry_kind e).
Qed.

Lemma rule_fixed strict c op s o s' :
  quiet_membership c op -> rule strict op s o s' -> fixed c s -> fixed c s'.
Proof.
  intros [Hch Hen Hins Hcom] Hr (Hs & Hb & Hl). destruct Hr; try done.
  - split_and!; [done|done|]. simpl. by rewrite configurations_app, Hl.
  - split_and!; [done|done|]. simpl. rewrite configurations_app, Hl. apply configurations_single.
    destruct (is_configuration (entry_kind e)); [|done]. destruct H2 as [H2 _]; congruence.
  - split_and!; [done|done|]. simpl. unfold splice. rewrite configurations_app.
    rewrite configurations_take, configurations_drop; [done| |done]. by eapply Hen.
  - split_and!; [done|by eapply Hins|]. simpl. case_bool_decide; [by apply configurations_drop|done].
  - split_and!; [done|by apply Hcom|]. simpl. by apply configurations_drop.
Qed.

(** ** The complete log *)

(** The retained log is the end of [L], after an entry of the recorded term. *)
Record layout (s : Spec) (L : list LogEntry) : Prop := {
  layout_base : (N.to_nat (s_base s) <= length L)%nat;
  layout_log : s_log s = drop (N.to_nat (s_base s)) L;
  layout_term : term_of L (N.to_nat (s_base s)) = Some (s_base_term s);
}.

Lemma layout_last s L : layout s L -> s_last s = N.of_nat (length L).
Proof. intros [Hb Hl _]. unfold s_last, length_u64. rewrite Hl, length_drop. lia. Qed.

Lemma layout_same s s' L :
  layout s L -> s_base s' = s_base s -> s_base_term s' = s_base_term s -> s_log s' = s_log s ->
  layout s' L.
Proof. intros [] Hb Ht Hl. split; rewrite ?Hb, ?Ht, ?Hl; done. Qed.

Lemma layout_entry s L index e :
  layout s L -> s_entry s index = Some e ->
  0 < index /\ L !! (N.to_nat index - 1)%nat = Some e.
Proof.
  intros [_ Hl _]. unfold s_entry. case_cmp; [done|]. rewrite Hl, lookup_drop. intros He.
  split; [lia|]. rewrite <- He. f_equal. lia.
Qed.

Lemma layout_term_at s L index :
  layout s L -> s_base s <= index -> s_term_at s index = term_of L (N.to_nat index).
Proof.
  intros [_ Hl Ht] Hb. unfold s_term_at. case_cmp; [by subst|]. unfold s_entry. case_cmp; [lia|].
  rewrite Hl, lookup_drop. destruct (N.to_nat index) as [|k] eqn:E; [lia|]. simpl. do 2 f_equal. lia.
Qed.

Lemma layout_term_Some s L index t :
  layout s L -> s_term_at s index = Some t -> term_of L (N.to_nat index) = Some t.
Proof.
  intros Hl Ht. pose proof (s_term_at_range _ _ _ Ht) as [Hb _].
  by rewrite <- (layout_term_at s L index Hl Hb).
Qed.

Lemma term_of_take L n k : (k <= n)%nat -> term_of (take n L) k = term_of L k.
Proof. destruct k as [|k]; [done|]. intros Hk. simpl. by rewrite lookup_take_lt by lia. Qed.

(** ** Node invariant *)

Record node_ok (c : MembershipConfig) (G : History) (i : NodeId) (s : Spec) (L : list LogEntry)
  : Prop := {
  node_id : s_id s = i;
  node_inv : spec_inv false s;
  node_fixed : fixed c s;
  node_layout : layout s L;
  node_sourced : sourced G L;
  node_terms : Forall (fun e => entry_term e <= s_term s) L;
  node_votes : forall v, v ∈ cast G -> v_voter v = i ->
    v_term v <= s_term s /\ (v_term v = s_term s -> s_vote s = Some (v_candidate v));
  node_voted : forall candidate, s_vote s = Some candidate -> exists P,
    {| v_voter := i; v_term := s_term s; v_candidate := candidate; v_log := P |} ∈ cast G;
  node_acks : forall t k, (i, t, k) ∈ acked G -> t <= s_term s /\ retained G L t k (s_term s);
  node_committed : committed c G (take (N.to_nat (s_commit s)) L) (s_term s);
  node_candidate : s_role s = Candidate ->
    1 <= s_term s /\ Forall (fun e => entry_term e < s_term s) L /\
    self_vote i (s_term s) L ∈ cast G /\
    (forall v, v ∈ s_votes s -> exists P,
       {| v_voter := v; v_term := s_term s; v_candidate := i; v_log := P |} ∈ cast G) /\
    (forall r, reigns G !! s_term s = Some r -> r_leader r <> i);
  node_leader : s_role s = Leader ->
    (exists r, reigns G !! s_term s = Some r /\ r_leader r = i /\ r_log r = L) /\
    (i, s_term s, length L) ∈ acked G;
  node_match : s_role s = Leader -> forall v m, (v, m) ∈ s_match s ->
    m = 0 \/ exists k, (N.to_nat m <= k)%nat /\ (v, s_term s, k) ∈ acked G;
}.

(** ** Outputs and deliveries *)

Definition append_ok (c : MembershipConfig) (G : History) (request : AppendEntries) : Prop :=
  exists r, reigns G !! ae_term request = Some r /\
    (N.to_nat (ae_leader_commit request) <= length (r_log r))%nat /\
    committed c G (take (N.to_nat (ae_leader_commit request)) (r_log r)) (ae_term request) /\
    ((ae_entries request = [] /\ ae_prev_log_term request = 0) \/
     (term_of (r_log r) (N.to_nat (ae_prev_log_index request)) = Some (ae_prev_log_term request) /\
      ae_entries request `prefix_of` drop (N.to_nat (ae_prev_log_index request)) (r_log r))).

(** A snapshot of the leader of [t] is committed up to its boundary. *)
Definition snapshot_ok (c : MembershipConfig) (G : History) (t : Term) (m : RaftSnapshotMetadata)
  : Prop :=
  exists r, reigns G !! t = Some r /\
    (N.to_nat (last_included_index m) <= length (r_log r))%nat /\
    (last_included_index m <> 0 ->
       term_of (r_log r) (N.to_nat (last_included_index m)) = Some (last_included_term m)) /\
    committed c G (take (N.to_nat (last_included_index m)) (r_log r)) t.

(** The entry at [index] of a committed log. *)
Definition dispatched_ok (c : MembershipConfig) (G : History) (index : LogIndex) (e : LogEntry)
  : Prop :=
  exists P T, committed c G P T /\ 0 < index /\ P !! (N.to_nat index - 1)%nat = Some e.

Definition output_ok (c : MembershipConfig) (G : History) (i : NodeId) (o : Output) : Prop :=
  match o with
  | Send _ (MRequestVote request) =>
      exists P, self_vote i (rv_term request) P ∈ cast G /\
        rv_last_log_index request = N.of_nat (length P) /\ rv_last_log_term request = last_term P
  | Send to (MRequestVoteResponse response) =>
      rvr_vote_granted response = true -> exists P,
        {| v_voter := i; v_term := rvr_term response; v_candidate := to; v_log := P |} ∈ cast G
  | Send _ (MAppendEntries request) => append_ok c G request
  | Send _ (MAppendEntriesResponse response) =>
      aer_success response = true ->
      (i, aer_term response, N.to_nat (aer_match_index response)) ∈ acked G
  | Send _ (MInstallSnapshotResponse response) =>
      isr_success response = true ->
      (i, isr_term response, N.to_nat (isr_last_included_index response)) ∈ acked G
  | SendSnapshotChunk _ chunk => snapshot_ok c G (scs_term chunk) (scs_metadata chunk)
  | Send _ (MInstallSnapshot request) => snapshot_ok c G (is_term request) (is_metadata request)
  | Send _ (MInstallSnapshotChunk request) =>
      snapshot_ok c G (isc_term request) (isc_metadata request)
  | Apply index term payload _ => dispatched_ok c G index (LogEntry_application term payload)
  | ConfigurationCommitted index term _ configuration =>
      dispatched_ok c G index (LogEntry_configuration term configuration)
  | ApplySnapshot snapshot =>
      exists P T, committed c G P T /\
        N.to_nat (last_included_index (metadata snapshot)) = length P /\
        last_included_term (metadata snapshot) = last_term P
  | _ => True
  end.

(** What a node may rely on when a message reaches it. *)
Definition delivery_ok (c : MembershipConfig) (G : History) (i : NodeId) (op : Op) : Prop :=
  forall from message, delivers op from message -> output_ok c G from (Send i message).

(** ** Growth of the history *)

Section growth.
Context (c : MembershipConfig) (i : NodeId) (G G' : History) (Hgrow : grows i G G').

Lemma append_ok_grows request : append_ok c G request -> append_ok c G' request.
Proof.
  intros (r & Hr & Hlen & Hc & Hor).
  destruct (grows_reigns _ _ _ Hgrow _ _ Hr) as (r' & Hr' & _ & _ & _ & Hp & _).
  pose proof (prefix_length _ _ Hp). exists r'. split_and!; [done|lia| |].
  - rewrite <- (prefix_take_le _ _ _ Hp) by done. by eapply committed_grows.
  - destruct Hor as [|[Ht He]]; [by left|]. right. split.
    + rewrite <- Ht. symmetry. apply term_of_prefix; [done|]. by eapply term_of_length.
    + etrans; [exact He|]. destruct Hp as [k ->]. rewrite drop_app_le; [apply prefix_app_r; done|].
      by eapply term_of_length.
Qed.

Lemma snapshot_ok_grows t m : snapshot_ok c G t m -> snapshot_ok c G' t m.
Proof.
  intros (r & Hr & Hlen & Ht & Hc).
  destruct (grows_reigns _ _ _ Hgrow _ _ Hr) as (r' & Hr' & _ & _ & _ & Hp & _).
  pose proof (prefix_length _ _ Hp). exists r'. split_and!; [done|lia| |].
  - intros Hne. rewrite <- (Ht Hne). symmetry. by apply term_of_prefix.
  - rewrite <- (prefix_take_le _ _ _ Hp) by done. by eapply committed_grows.
Qed.

Lemma dispatched_ok_grows index e : dispatched_ok c G index e -> dispatched_ok c G' index e.
Proof.
  intros (P & T & Hc & ?). exists P, T. split; [by eapply committed_grows|done].
Qed.

Lemma output_ok_grows j o : output_ok c G j o -> output_ok c G' j o.
Proof.
  pose proof (grows_votes _ _ _ Hgrow). pose proof (grows_acks _ _ _ Hgrow).
  destruct o as [| | | | | | | | | | | |? []]; simpl; try done;
    eauto using append_ok_grows, snapshot_ok_grows, dispatched_ok_grows.
  - intros (P & T & Hc & ?). exists P, T. split; [by eapply committed_grows|done].
  - intros (P & ? & ?). exists P. eauto.
  - intros Hg Hr. destruct (Hg Hr) as (P & ?). eauto.
Qed.

Lemma outputs_ok_grows j o : Forall (output_ok c G j) o -> Forall (output_ok c G' j) o.
Proof. intros H. eapply Forall_impl; [exact H|]. intros x. apply output_ok_grows. Qed.

Lemma delivery_ok_grows j op : delivery_ok c G j op -> delivery_ok c G' j op.
Proof.
  intros H from message Hd. by apply output_ok_grows, H.
Qed.

(** What other nodes do does not concern a node. *)
Lemma node_ok_others j s L : j <> i -> node_ok c G j s L -> node_ok c G' j s L.
Proof.
  intros Hne []. split; try done.
  - by eapply sourced_grows.
  - intros v Hv Hvj. apply node_votes0; [|done].
    destruct (grows_votes_new _ _ _ Hgrow v Hv); [done|congruence].
  - intros candidate Hc. destruct (node_voted0 candidate Hc) as (P & HP). exists P.
    by apply (grows_votes _ _ _ Hgrow).
  - intros t k Hin. destruct (grows_acks_new _ _ _ Hgrow _ _ _ Hin) as [Hold|]; [|congruence].
    destruct (node_acks0 t k Hold). split; [done|by eapply retained_grows].
  - by eapply committed_grows.
  - intros Hr. destruct (node_candidate0 Hr) as (? & ? & ? & Hvs & Hrn). split_and!; [done|done| | |].
    + by apply (grows_votes _ _ _ Hgrow).
    + intros v (P & HP)%Hvs. exists P. by apply (grows_votes _ _ _ Hgrow).
    + intros r' Hr'. destruct (grows_reigns_new _ _ _ Hgrow _ _ Hr') as [[r0 Hr0]|]; [|congruence].
      destruct (grows_reigns _ _ _ Hgrow _ _ Hr0) as (r1 & Hr1 & Hl & _). simplify_eq. rewrite Hl. by apply Hrn.
  - intros Hr. destruct (node_leader0 Hr) as ((r & Hrr & Hl & Hlog) & Hack).
    split; [|by apply (grows_acks _ _ _ Hgrow)].
    destruct (grows_reigns _ _ _ Hgrow _ _ Hrr) as (r' & Hr' & Hl' & _ & _ & _ & Hsame).
    exists r'. split_and!; [done|congruence|]. rewrite Hsame; congruence.
  - intros Hr v m Hin. destruct (node_match0 Hr v m Hin) as [|(k & ? & ?)]; [by left|].
    right. exists k. split; [done|by apply (grows_acks _ _ _ Hgrow)].
Qed.
End growth.

(** ** Log facts *)

Lemma retained_extend G L L' t k T : L `prefix_of` L' -> retained G L t k T -> retained G L' t k T.
Proof.
  intros Hp H j Hj. destruct (H j Hj) as [(r & ? & ? & ?)|]; [|by right].
  left. exists r. split_and!; [done|done|by etrans].
Qed.

Section facts.
Context (c : MembershipConfig) (G : History) (HG : history_ok c G).

(** Replacing a log by the leader's, where the two part at [n] or the leader's
    ends there. *)
Lemma retained_cut R n L L' t k T :
  reigns G !! T = Some R -> t <= T -> take n (r_log R) `prefix_of` L' ->
  (forall j, (n < j)%nat -> (j <= length (r_log R))%nat -> take j (r_log R) `prefix_of` L -> False) ->
  retained G L t k T -> retained G L' t k T.
Proof.
  intros HR Ht Hp Hno H j Hj. destruct (H j Hj) as [(r & Hr & Hjr & Hpr)|]; [|by right].
  assert (missed G t j T \/ (take j (r_log r) `prefix_of` r_log R)) as [|Hin]; [| by right|].
  { destruct (decide (t = T)) as [->|Hne].
    - rewrite HR in Hr. injection Hr as <-. right. apply prefix_take.
    - destruct (decide (take j (r_log r) `prefix_of` r_start R)) as [Hyes|Hn].
      + right. etrans; [exact Hyes|]. apply (history_reigns _ _ HG _ _ HR).
      + left. exists r, T, R. split_and!; [done|done|lia|lia|done|done]. }
  left. exists r. split_and!; [done|done|].
  pose proof (prefix_length _ _ Hin) as Hlen. rewrite length_take in Hlen.
  assert (take j (r_log r) = take j (r_log R)) as Heq.
  { rewrite <- (prefix_take_le _ _ j Hin), take_take by (rewrite length_take; lia). f_equal. lia. }
  rewrite Heq in *. destruct (decide (j <= n)%nat) as [Hle|Hgt].
  - etrans; [|exact Hp]. apply take_le_prefix. lia.
  - destruct (Hno j); [lia|lia|done].
Qed.

(** A log that holds an append agrees with its sender's up to its end. *)
Lemma holds_agrees s L request r :
  layout s L -> sourced G L -> holds s request ->
  reigns G !! ae_term request = Some r ->
  ((ae_entries request = [] /\ ae_prev_log_term request = 0) \/
   (term_of (r_log r) (N.to_nat (ae_prev_log_index request)) = Some (ae_prev_log_term request) /\
    ae_entries request `prefix_of` drop (N.to_nat (ae_prev_log_index request)) (r_log r))) ->
  let m := N.to_nat (ae_prev_log_index request + length_u64 (ae_entries request)) in
  take m L = take m (r_log r) /\ (m <= length (r_log r))%nat.
Proof.
  intros Hl Hs [Hprev Hents] Hr Hor m. apply (layout_term_Some _ _ _ _ Hl) in Hprev.
  pose proof (reign_sourced _ _ _ _ (history_reigns _ _ HG _ _ Hr)) as Hsr.
  destruct Hor as [[He Ht0]|[Ht He]].
  - assert (m = N.to_nat (ae_prev_log_index request)) as -> by (unfold m; rewrite He; unfold length_u64; simpl; lia).
    rewrite Ht0 in Hprev. destruct (N.to_nat (ae_prev_log_index request)) as [|k] eqn:E; [split; [done|lia]|].
    destruct (sourced_term c G HG L k 0 Hs Hprev) as [Hbad _]. lia.
  - pose proof (prefix_length _ _ He) as Hlen. rewrite length_drop in Hlen.
    pose proof (term_of_length _ _ _ Ht) as Hlp.
    assert (m = N.to_nat (ae_prev_log_index request) + length (ae_entries request))%nat as Hm
      by (unfold m, length_u64; lia).
    split; [|lia]. destruct (length (ae_entries request)) as [|k] eqn:E.
    + rewrite Hm, Nat.add_0_r. by eapply log_matching.
    + destruct (lookup_lt_is_Some_2 (ae_entries request) k) as [e Hek]; [lia|].
      apply (log_matching G _ _ m (entry_term e)); [done|done| |].
      * rewrite <- (layout_term_Some _ _ _ _ Hl (Hents k e Hek)). f_equal. lia.
      * replace m with (S (N.to_nat (ae_prev_log_index request) + k)) by lia. apply term_of_lookup.
        exists e. split; [|done]. rewrite <- lookup_drop. by eapply prefix_lookup_Some.
Qed.
End facts.

(** ** Rules *)

(** A transition of the node [i] from a history and a log to a later history
    and another log. *)
Definition advances (c : MembershipConfig) (G : History) (i : NodeId) (s' : Spec)
    (o : list Output) : Prop :=
  exists G' L', grows i G G' /\ history_ok c G' /\ node_ok c G' i s' L' /\
    Forall (output_ok c G' i) o.

(** Changes that keep term, vote and log, and at most lose a role. *)
Definition node_kept (s s' : Spec) : Prop :=
  s_id s' = s_id s /\ s_term s' = s_term s /\ s_vote s' = s_vote s /\
  s_base s' = s_base s /\ s_base_term s' = s_base_term s /\ s_log s' = s_log s /\
  s_commit s' <= s_commit s /\
  (s_role s' = Candidate -> s_role s = Candidate /\ s_votes s' = s_votes s) /\
  (s_role s' = Leader -> s_role s = Leader /\ s_match s' = s_match s).

Lemma node_ok_keep c G i s s' L :
  node_ok c G i s L -> spec_inv false s' -> fixed c s' -> node_kept s s' -> node_ok c G i s' L.
Proof.
  intros [] Hinv Hf (Hid & Ht & Hv & Hb & Hbt & Hl & Hc & Hcand & Hlead).
  split; rewrite ?Hid, ?Ht, ?Hv; try done.
  - by apply (layout_same s).
  - eapply committed_prefix; [|exact node_committed0]. apply take_le_prefix. lia.
  - intros Hr. destruct (Hcand Hr) as [Hr0 ->]. by apply node_candidate0.
  - intros Hr. destruct (Hlead Hr) as [Hr0 _]. by apply node_leader0.
  - intros Hr. destruct (Hlead Hr) as [Hr0 ->]. by apply node_match0.
Qed.

Section rules.
Context (c : MembershipConfig) (G : History) (i : NodeId) (op : Op) (s : Spec) (L : list LogEntry).
Context (HG : history_ok c G) (Hok : node_ok c G i s L) (Hdel : delivery_ok c G i op).

(** An acknowledgement of the current leader's entries. *)
Lemma node_ok_ack r k :
  reigns G !! s_term s = Some r -> (k <= length (r_log r))%nat -> take k (r_log r) `prefix_of` L ->
  let G' := add_ack G (i, s_term s, k) in
  grows i G G' /\ history_ok c G' /\ node_ok c G' i s L.
Proof using HG Hok.
  intros Hr Hk Hp G'. pose proof (add_ack_grows G i (s_term s) k) as Hgrow. split_and!; [done| |].
  - eapply add_ack_ok; [done|done|done|]. intros v Hv Hvi. by apply (node_votes _ _ _ _ _ Hok).
  - destruct Hok. split; try done.
    + intros t k0 [[= -> ->]|Hin]%elem_of_cons; [|by apply node_acks0]. split; [done|].
      intros j Hj. left. exists r. split_and!; [done|lia|]. etrans; [|exact Hp].
      apply take_le_prefix. lia.
    + by eapply committed_grows.
    + intros Hl. destruct (node_leader0 Hl) as [? ?]. split; [done|]. apply elem_of_cons. by right.
    + intros Hl v m Hin. destruct (node_match0 Hl v m Hin) as [|(k0 & ? & ?)]; [by left|].
      right. exists k0. split; [done|]. apply elem_of_cons. by right.
Qed.

Lemma commit_length : (N.to_nat (s_commit s) <= length L)%nat.
Proof using Hok.
  pose proof (inv_commit _ _ (node_inv _ _ _ _ _ Hok)) as H.
  rewrite (layout_last _ _ (node_layout _ _ _ _ _ Hok)) in H. lia.
Qed.

Lemma installs_ok t m : installs op t m -> snapshot_ok c G t m.
Proof using Hdel.
  intros (from & message & Hd & Hm). specialize (Hdel _ _ Hd).
  destruct message; try done; destruct Hm as [<- <-]; done.
Qed.

(** A commit index within the log of the current leader. *)
Lemma committed_reign r :
  reigns G !! s_term s = Some r -> take (N.to_nat (s_commit s)) L `prefix_of` r_log r.
Proof using HG Hok.
  intros Hr. eapply committed_in_reign; [done|apply (node_committed _ _ _ _ _ Hok)|done|done].
Qed.

Lemma permitted_append to request :
  authentic_append s request -> output_ok c G i (Send to (MAppendEntries request)).
Proof using Hok.
  intros (Hrole & Ht & Hid & Hlc & Hor). pose proof commit_length as Hcl. destruct Hok.
  destruct (node_leader0 Hrole) as ((r & Hr & Hl & Hlog) & _).
  exists r. rewrite Ht, Hlc, Hlog. split_and!; [done|done|done|].
  destruct Hor as [|[Hpt He]]; [by left|]. right.
  pose proof (s_term_at_range _ _ _ Hpt) as [Hb _]. split; [by eapply layout_term_Some|].
  rewrite (layout_log _ _ node_layout0), drop_drop in He.
  replace (N.to_nat (ae_prev_log_index request)) with
    (N.to_nat (s_base s) + N.to_nat (ae_prev_log_index request - s_base s))%nat by lia. done.
Qed.

Lemma permitted_chunk to chunk :
  authentic_chunk s chunk -> output_ok c G i (SendSnapshotChunk to chunk).
Proof using Hok.
  intros (Hrole & Ht & Hid & Hb & Hbt). destruct Hok.
  destruct (node_leader0 Hrole) as ((r & Hr & Hl & Hlog) & _).
  exists r. rewrite Ht, Hb, Hlog. destruct node_layout0 as [Hbl _ Hbterm]. split_and!; [done|done| |].
  - intros Hne. by rewrite (Hbt Hne).
  - eapply committed_prefix; [|exact node_committed0].
    pose proof (inv_base _ _ node_inv0). pose proof (inv_applied _ _ node_inv0).
    apply take_le_prefix. lia.
Qed.

Lemma permitted_campaign to request :
  authentic_campaign s request -> output_ok c G i (Send to (MRequestVote request)).
Proof using Hok.
  intros (Hrole & Ht & Hid & Hli & Hlt). destruct Hok.
  destruct (node_candidate0 Hrole) as (_ & _ & Hself & _).
  exists L. rewrite Ht, Hli. split_and!; [done|by apply layout_last|].
  apply (layout_term_Some _ _ _ _ node_layout0) in Hlt.
  rewrite (layout_last _ _ node_layout0), Nat2N.id, term_of_last in Hlt. by injection Hlt.
Qed.

(** Every output the node may emit on its own is backed by a later history. *)
Lemma permitted_ok o :
  permitted op s o ->
  exists G', grows i G G' /\ history_ok c G' /\ node_ok c G' i s L /\ output_ok c G' i o.
Proof using HG Hok Hdel.
  intros Hp.
  assert (output_ok c G i o -> exists G', grows i G G' /\ history_ok c G' /\ node_ok c G' i s L /\
    output_ok c G' i o) as Hstay by (intros; exists G; split_and!; [apply grows_refl|done|done|done]).
  destruct o as [| | | | | | | | | | |to chunk|to [m|response|m|m|response|m|m|m|m|m]]; simpl in Hp; try done; try by apply Hstay.
  - by apply Hstay, permitted_chunk.
  - by apply Hstay, permitted_append.
  - destruct (aer_success response) eqn:Es; [|apply Hstay; simpl; congruence].
    destruct (Hp eq_refl) as (request & Hd & Ht & Hrt & Hh & Hm).
    specialize (Hdel _ _ Hd) as (r & Hr & _ & _ & Hor).
    destruct (holds_agrees c G HG s L request r) as [Heq Hlen]; try done; [apply Hok..|].
    rewrite Ht in Hr. rewrite <- Hm in Heq, Hlen.
    destruct (node_ok_ack r _ Hr Hlen) as (? & ? & ?); [rewrite <- Heq; apply prefix_take|].
    eexists. split_and!; [done|done|done|]. intros _. simpl. rewrite Hrt. apply elem_of_cons. by left.
  - destruct (isr_success response) eqn:Es; [|apply Hstay; simpl; congruence].
    destruct (Hp eq_refl) as (Hrt & Hle & m & Hins). apply installs_ok in Hins as (r & Hr & _).
    pose proof (committed_reign r Hr) as Hpre. pose proof commit_length as Hcl.
    pose proof (prefix_length _ _ Hpre) as Hlen. rewrite length_take in Hlen.
    destruct (node_ok_ack r (N.to_nat (isr_last_included_index response)) Hr) as (? & ? & ?); [lia| |].
    { rewrite <- (prefix_take_le _ _ _ Hpre), take_take by (rewrite length_take; lia). apply prefix_take. }
    eexists. split_and!; [done|done|done|]. intros _. simpl. rewrite Hrt. apply elem_of_cons. by left.
  - by apply Hstay, permitted_campaign.
  - apply Hstay. simpl. intros Hg. by rewrite Hg in Hp.
Qed.
End rules.

Lemma permitteds_ok c i op s L o : forall G,
  history_ok c G -> node_ok c G i s L -> delivery_ok c G i op -> Forall (permitted op s) o ->
  advances c G i s o.
Proof.
  induction o as [|x o IH]; intros G HG Hok Hdel Hp.
  { exists G, L. split_and!; [apply grows_refl|done|done|constructor]. }
  apply Forall_cons in Hp as [Hx Hp].
  destruct (permitted_ok c G i op s L HG Hok Hdel x Hx) as (G1 & Hg1 & HG1 & Hok1 & Hx1).
  destruct (IH G1 HG1 Hok1) as (G2 & L2 & Hg2 & HG2 & Hok2 & Ho2); [by eapply delivery_ok_grows|done|].
  exists G2, L2. split_and!; [by eapply grows_trans|done|done|]. constructor; [|done].
  by eapply output_ok_grows.
Qed.

(** ** Elections *)

Section elections.
Context (c : MembershipConfig) (G : History) (i : NodeId) (op : Op) (s : Spec) (L : list LogEntry).
Context (HG : history_ok c G) (Hok : node_ok c G i s L) (Hdel : delivery_ok c G i op).

Lemma advances_stay s' L' : node_ok c G i s' L' -> advances c G i s' [].
Proof using HG. intros H. exists G, L'. split_and!; [apply grows_refl|done|done|constructor]. Qed.

Lemma follow_ok t : advances c G i (s_follow t s) [].
Proof using HG Hok.
  apply (advances_stay _ L). pose proof (inv_follow false s t (node_inv _ _ _ _ _ Hok)) as Hinv.
  destruct Hok. split; try done; try (by apply (layout_same s)); simpl.
  - eapply Forall_impl; [exact node_terms0|]. simpl. lia.
  - intros v Hv Hvi. destruct (node_votes0 v Hv Hvi) as [Hle Heq]. split; [lia|].
    intros Ht. case_cmp; [lia|]. apply Heq. lia.
  - intros candidate. case_cmp; [done|]. intros Hc. destruct (node_voted0 _ Hc) as (P & HP). exists P.
    by replace (N.max (s_term s) t) with (s_term s) by lia.
  - intros t0 k Hin. destruct (node_acks0 t0 k Hin). split; [lia|].
    eapply retained_weaken; [|done]. lia.
  - eapply committed_weaken; [|done]. lia.
Qed.

Lemma campaign_ok : s_role s <> Leader -> advances c G i (s_campaign s) [].
Proof using HG Hok.
  intros Hrole. pose proof (inv_campaign false s (node_inv _ _ _ _ _ Hok) Hrole) as Hinv.
  destruct Hok. set (v := self_vote i (s_term s + 1) L).
  pose proof (add_vote_grows G i v eq_refl) as Hgrow.
  exists (add_vote G v), L. split_and!; [done| | |constructor].
  - apply (add_vote_ok c G HG i); [done| |done| |].
    + intros w Hw Hwi. destruct (node_votes0 w Hw Hwi). simpl. lia.
    + exists L. split; [apply elem_of_cons; by left|]. right. split; [done|reflexivity].
    + intros t k Hin _. destruct (node_acks0 t k Hin). eapply retained_weaken; [|done]. unfold v. simpl. lia.
  - split; simpl; try done; try (by apply (layout_same s)).
    + eapply Forall_impl; [exact node_terms0|]. simpl. lia.
    + intros w [->|Hw]%elem_of_cons Hwi; [simpl; split; [lia|congruence]|].
      destruct (node_votes0 w Hw Hwi). split; lia.
    + intros candidate [= <-]. exists L. rewrite node_id0. apply elem_of_cons. by left.
    + intros t k Hin. destruct (node_acks0 t k Hin). split; [lia|].
      eapply retained_weaken; [|done]. lia.
    + eapply committed_weaken; [|by eapply committed_grows]. lia.
    + intros _. split_and!; [lia| |apply elem_of_cons; by left| |].
      * eapply Forall_impl; [exact node_terms0|]. simpl. lia.
      * intros w Hw%list_elem_of_singleton. subst w. exists L. rewrite node_id0. apply elem_of_cons. by left.
      * intros r Hr Hl. pose proof (reign_self _ _ _ _ (history_reigns _ _ HG _ _ Hr)) as Hself.
        rewrite Hl in Hself. destruct (node_votes0 _ Hself eq_refl). simpl in *. lia.
Qed.

Lemma vote_counted v :
  s_role s = Candidate ->
  delivers op v (MRequestVoteResponse {| rvr_term := s_term s; rvr_voter_id := v;
                                         rvr_vote_granted := true |}) ->
  advances c G i (s <| s_votes := btree_insert v (s_votes s) |>) [].
Proof using HG Hok Hdel.
  intros Hrole Hd. apply (advances_stay _ L). specialize (Hdel _ _ Hd eq_refl). destruct Hok.
  split; simpl; try done; [by destruct node_inv0; split|by apply (layout_same s)|].
  intros Hr. destruct (node_candidate0 Hr) as (? & ? & ? & Hvs & ?). split_and!; try done.
  intros w [->|Hw]%elem_of_btree_insert; [|by apply Hvs]. exact Hdel.
Qed.

(** No other node leads the term of a candidate with a quorum. *)
Lemma term_free :
  s_role s = Candidate -> quorum_of (s_membership s) (fun v => elem v (s_votes s)) = true ->
  reigns G !! s_term s = None.
Proof using HG Hok.
  intros Hrole Hq. rewrite (fixed_membership c) in Hq by apply Hok.
  destruct (node_candidate _ _ _ _ _ Hok Hrole) as (_ & _ & _ & Hvs & Hrn).
  destruct (reigns G !! s_term s) as [r|] eqn:Hr; [exfalso|done].
  pose proof (history_reigns _ _ HG _ _ Hr) as Hrok.
  destruct (quorums_meet c _ _ Hq (reign_quorum _ _ _ _ Hrok)) as (v & Hv1%elem_spec & Hv2%elem_spec).
  destruct (Hvs v Hv1) as (P1 & H1), (reign_votes _ _ _ _ Hrok v Hv2) as (P2 & H2).
  pose proof (history_unique _ _ HG _ _ H1 H2 eq_refl eq_refl) as He. injection He as He _.
  by destruct (Hrn r eq_refl).
Qed.

(** The reign a candidate starts. *)
Definition new_reign : Reign :=
  {| r_leader := i; r_voters := s_votes s; r_start := L;
     r_log := L ++ [LogEntry_noop (s_term s)] |}.

Lemma new_reign_ok :
  s_role s = Candidate -> quorum_of (s_membership s) (fun v => elem v (s_votes s)) = true ->
  history_ok c (set_reign G (s_term s) new_reign).
Proof using HG Hok.
  intros Hrole Hq. pose proof (term_free Hrole Hq) as Hfree.
  pose proof (set_reign_grows G i (s_term s) new_reign Hfree eq_refl) as Hgrow.
  eapply set_reign_ok; [done|done|reflexivity|].
  rewrite (fixed_membership c) in Hq by apply Hok. destruct Hok.
  destruct (node_candidate0 Hrole) as (Ht1 & Hbefore & Hself & Hvs & Hrn).
  split; simpl; try done.
  - by apply prefix_app_r.
  - rewrite drop_app_length. by constructor.
  - intros k x Hx. simpl. destruct (decide (k < length L)%nat) as [Hlt|Hge].
    + rewrite lookup_app_l in Hx by done.
      destruct (sourced_grows _ _ _ Hgrow _ node_sourced0 k x Hx) as (r1 & Hr1 & Hp).
      exists r1. split; [done|]. by rewrite take_app_le by lia.
    + rewrite lookup_app_r in Hx by lia. apply list_lookup_singleton_Some in Hx as [Hk <-].
      exists new_reign. simpl. rewrite lookup_insert_eq. split; [done|]. apply prefix_take.
  - intros v t0 k r0 j Hv Hack Ht0 Hr0 Hj. rewrite lookup_insert_ne in Hr0 by lia.
    destruct (election_acks c G HG i (s_term s) L (s_votes s) Hfree Hself Hbefore Hvs v t0 k r0 j);
      try done; [left; by eapply held_grows|right; by eapply missed_grows].
Qed.

(** Appending a noop to a log keeps what the node knew of it. *)
Lemma take_commit_app e :
  take (N.to_nat (s_commit s)) (L ++ [e]) = take (N.to_nat (s_commit s)) L.
Proof using Hok. apply take_app_le. eapply commit_length, Hok. Qed.

Lemma layout_app e : layout (s <| s_log := s_log s ++ [e] |>) (L ++ [e]).
Proof using Hok.
  destruct (node_layout _ _ _ _ _ Hok) as [Hb Hl Ht]. split; simpl.
  - rewrite length_app. lia.
  - by rewrite Hl, drop_app_le.
  - rewrite <- Ht. symmetry. by apply term_of_prefix; [apply prefix_app_r|].
Qed.

(** A leader's log with one more entry of its own, in the history that has the
    entry and the leader's acknowledgement of it. *)
Lemma led_ok s' r e :
  let G1 := set_reign G (s_term s) r in
  let G2 := add_ack G1 (i, s_term s, length (L ++ [e])) in
  grows i G G1 -> history_ok c G1 -> r_leader r = i -> r_log r = L ++ [e] ->
  entry_term e = s_term s -> spec_inv false s' -> fixed c s' ->
  s_id s' = s_id s -> s_term s' = s_term s -> s_vote s' = s_vote s -> s_role s' = Leader ->
  s_base s' = s_base s -> s_base_term s' = s_base_term s -> s_log s' = s_log s ++ [e] ->
  s_commit s' = s_commit s ->
  (forall v m, (v, m) ∈ s_match s' -> m = 0 \/ exists k, (N.to_nat m <= k)%nat /\ (v, s_term s, k) ∈ acked G) ->
  advances c G i s' [].
Proof using Hok.
  intros G1 G2 Hgrow1 HG1 Hl Hlog He Hinv Hf Hid Ht Hv Hrole Hb Hbt Hsl Hcm Hm.
  pose proof (add_ack_grows G1 i (s_term s) (length (L ++ [e]))) as Hgrow2.
  pose proof (grows_trans _ _ _ _ Hgrow1 Hgrow2) as Hgrow.
  assert (reigns G1 !! s_term s = Some r) as Hr by apply lookup_insert_eq.
  pose proof (layout_app e) as Hlay. pose proof (take_commit_app e) as Htake. destruct Hok.
  exists G2, (L ++ [e]). split_and!; [done| | |constructor].
  - eapply (add_ack_ok c G1 HG1 i _ _ r); [done|by rewrite Hlog|]. intros v Hin Hvi. by apply node_votes0.
  - split; rewrite ?Hid, ?Ht, ?Hv, ?Hcm; try done.
    + destruct Hlay. split; rewrite ?Hb, ?Hbt, ?Hsl; done.
    + pose proof (reign_sourced _ _ _ _ (history_reigns _ _ HG1 _ _ Hr)) as Hs. by rewrite Hlog in Hs.
    + apply Forall_app. split; [done|]. constructor; [lia|constructor].
    + intros t k [[= -> ->]|Hin]%elem_of_cons.
      * split; [done|]. intros j Hj. left. exists r. rewrite Hlog. split_and!; [done|done|apply prefix_take].
      * destruct (node_acks0 t k Hin). split; [done|].
        eapply retained_extend; [by apply prefix_app_r|by eapply retained_grows].
    + rewrite Htake. by eapply committed_grows.
    + rewrite Hrole. done.
    + intros _. split; [by exists r|]. apply elem_of_cons. by left.
    + intros _ v m Hin. destruct (Hm v m Hin) as [|(k & ? & ?)]; [by left|]. right. exists k.
      split; [done|]. apply elem_of_cons. by right.
Qed.

Lemma lead_ok :
  s_role s = Candidate -> quorum_of (s_membership s) (fun v => elem v (s_votes s)) = true ->
  fixed c (s_lead s) -> advances c G i (s_lead s) [].
Proof using HG Hok.
  intros Hrole Hq Hf. eapply (led_ok (s_lead s) new_reign); try done.
  - apply set_reign_grows; [by apply term_free|done].
  - by apply new_reign_ok.
  - apply inv_lead; [apply Hok|done].
  - intros v m Hin. by apply not_elem_of_nil in Hin.
Qed.

Lemma append_entry_ok e :
  s_role s = Leader -> entry_term e = s_term s -> spec_inv false (s <| s_log := s_log s ++ [e] |>) ->
  fixed c (s <| s_log := s_log s ++ [e] |>) ->
  advances c G i (s <| s_log := s_log s ++ [e] |>) [].
Proof using HG Hok.
  intros Hrole He Hinv Hf. destruct (node_leader _ _ _ _ _ Hok Hrole) as ((r & Hr & Hl & Hlog) & _).
  eapply (led_ok _ (extend r e)); try done.
  - by apply extend_grows.
  - by eapply (extend_ok c G HG i).
  - simpl. by rewrite Hlog.
  - apply (node_match _ _ _ _ _ Hok Hrole).
Qed.

Lemma grant_ok candidate request :
  delivers op candidate (MRequestVote request) -> rv_term request = s_term s ->
  (s_vote s = None \/ s_vote s = Some candidate) ->
  (forall last_term, s_term_at s (s_last s) = Some last_term ->
     last_term < rv_last_log_term request \/
     (last_term = rv_last_log_term request /\ s_last s <= rv_last_log_index request)) ->
  spec_inv false (s <| s_vote := Some candidate |>) ->
  advances c G i (s <| s_vote := Some candidate |>) [Send candidate (grant_message s)].
Proof using HG Hok Hdel.
  intros Hd Ht [Hnone|Hsome] Hup Hinv.
  2:{ exists G, L. destruct Hok.
      split_and!; [apply grows_refl|done| |].
      - split; simpl; try done; [by apply (layout_same s)|intros v Hv Hvi; rewrite <- Hsome; by apply node_votes0|].
        intros x [= <-]. by apply node_voted0.
      - constructor; [|constructor]. intros _. by apply node_voted0. }
  specialize (Hdel _ _ Hd) as (P & HP & Hli & Hlt). rewrite Ht in HP.
  set (v := {| v_voter := i; v_term := s_term s; v_candidate := candidate; v_log := L |}).
  pose proof (add_vote_grows G i v eq_refl) as Hgrow. destruct Hok.
  assert (behind L P) as Hbehind.
  { destruct (Hup (last_term L)) as [|[? Hle]]; [|left; congruence|].
    - pose proof (layout_last _ _ node_layout0) as Hla. rewrite (layout_term_at _ L) by (done || (unfold s_last; lia)).
      by rewrite Hla, Nat2N.id, term_of_last.
    - right. rewrite (layout_last _ _ node_layout0), Hli in Hle. split; [congruence|lia]. }
  exists (add_vote G v), L. split_and!; [done| | |].
  - apply (add_vote_ok c G HG i); [done| |done| |].
    + intros w Hw Hwi Heq. destruct (node_votes0 w Hw Hwi) as [_ Hsv]. specialize (Hsv Heq). congruence.
    + exists P. split; [|done]. apply elem_of_cons. by right.
    + intros t k Hin _. by apply node_acks0.
  - split; simpl; try done; try (by apply (layout_same s)).
    + intros w [->|Hw]%elem_of_cons Hwi; [done|]. destruct (node_votes0 w Hw Hwi) as [? Hsv].
      split; [done|]. intros Heq. specialize (Hsv Heq). congruence.
    + intros x [= <-]. exists L. apply elem_of_cons. by left.
    + by eapply committed_grows.
    + intros Hr. pose proof (inv_vote _ _ node_inv0 (or_introl Hr)). congruence.
  - constructor; [|constructor]. intros _. exists L. apply elem_of_cons. by left.
Qed.
End elections.

(** ** Replication *)

Section replication.
Context (c : MembershipConfig) (G : History) (i : NodeId) (op : Op) (s : Spec) (L : list LogEntry).
Context (HG : history_ok c G) (Hok : node_ok c G i s L) (Hdel : delivery_ok c G i op).

Lemma delivered_append from request :
  delivers op from (MAppendEntries request) -> append_ok c G request.
Proof using Hdel. intros Hd. exact (Hdel _ _ Hd). Qed.

(** A follower's log replaced by one taken from the current leader's. *)
Lemma replaced_ok s' L' r n :
  reigns G !! s_term s = Some r -> L' `prefix_of` r_log r -> take n (r_log r) `prefix_of` L' ->
  (forall j, (n < j)%nat -> (j <= length (r_log r))%nat -> take j (r_log r) `prefix_of` L -> False) ->
  spec_inv false s' -> fixed c s' -> layout s' L' ->
  committed c G (take (N.to_nat (s_commit s')) L') (s_term s) ->
  s_id s' = s_id s -> s_term s' = s_term s -> s_vote s' = s_vote s -> s_role s' = Follower ->
  node_ok c G i s' L'.
Proof using HG Hok.
  intros Hr HL' Hn Hno Hinv Hf Hlay Hcom Hid Ht Hv Hrole. destruct Hok.
  split; rewrite ?Hid, ?Ht, ?Hv, ?Hrole; try done.
  - eapply sourced_prefix; [done|]. apply (history_reigns _ _ HG _ _ Hr).
  - apply Forall_lookup. intros k e He. destruct (reign_entry c G HG (s_term s) r k e); try done.
    by eapply prefix_lookup_Some.
  - intros t k Hin. destruct (node_acks0 t k Hin). split; [done|]. by eapply retained_cut.
Qed.

(** Up to the divergence the follower's log is the leader's. *)
Lemma splice_agrees request r first k :
  reigns G !! s_term s = Some r ->
  s_term_at s (ae_prev_log_index request) = Some (ae_prev_log_term request) ->
  term_of (r_log r) (N.to_nat (ae_prev_log_index request)) = Some (ae_prev_log_term request) ->
  ae_entries request `prefix_of` drop (N.to_nat (ae_prev_log_index request)) (r_log r) ->
  first = N.to_nat (ae_prev_log_index request - s_base s) -> (k <= length (ae_entries request))%nat ->
  (forall j, (j < k)%nat ->
     entry_term <$> s_log s !! (first + j)%nat = entry_term <$> ae_entries request !! j) ->
  let p := (N.to_nat (ae_prev_log_index request) + k)%nat in
  take p L = take p (r_log r) /\ (p <= length L)%nat.
Proof using HG Hok.
  intros Hr Hpt Hrt He Hfirst Hk Hmatch p. destruct Hok.
  pose proof (s_term_at_range _ _ _ Hpt) as [Hb _].
  apply (layout_term_Some _ _ _ _ node_layout0) in Hpt.
  pose proof (reign_sourced _ _ _ _ (history_reigns _ _ HG _ _ Hr)) as Hsr.
  assert (exists t, term_of L p = Some t /\ term_of (r_log r) p = Some t) as (t & HL & HR).
  2:{ split; [by eapply log_matching|by eapply term_of_length]. }
  unfold p. destruct k as [|k]; [rewrite Nat.add_0_r; by eexists|].
  specialize (Hmatch k ltac:(lia)). destruct (lookup_lt_is_Some_2 (ae_entries request) k) as [x Hx]; [lia|].
  rewrite (layout_log _ _ node_layout0), lookup_drop, Hx in Hmatch.
  apply fmap_Some in Hmatch as (y & Hy & Hxy). exists (entry_term x).
  rewrite Nat.add_succ_r. split; apply term_of_lookup.
  - exists y. split; [|done]. rewrite <- Hy. f_equal. lia.
  - exists x. split; [|done]. rewrite <- lookup_drop. by eapply prefix_lookup_Some.
Qed.

Lemma splice_ok from request first k :
  s_role s = Follower -> delivers op from (MAppendEntries request) -> ae_term request = s_term s ->
  s_term_at s (ae_prev_log_index request) = Some (ae_prev_log_term request) ->
  first = N.to_nat (ae_prev_log_index request - s_base s) ->
  (k < length (ae_entries request))%nat ->
  (forall j, (j < k)%nat ->
     entry_term <$> s_log s !! (first + j)%nat = entry_term <$> ae_entries request !! j) ->
  entry_term <$> s_log s !! (first + k)%nat <> entry_term <$> ae_entries request !! k ->
  s_commit s <= s_base s + N.of_nat (first + k) ->
  let s' := s <| s_log := splice (s_log s) first k (ae_entries request) |> in
  spec_inv false s' -> fixed c s' -> advances c G i s' [].
Proof using HG Hok Hdel.
  intros Hrole Hd Ht Hpt Hfirst Hk Hmatch Hdiff Hcommit s' Hinv Hf.
  destruct (delivered_append _ _ Hd) as (r & Hr & _ & _ & [[He _]|[Hrt He]]).
  { rewrite He in Hk. simpl in Hk. lia. }
  rewrite Ht in Hr. pose proof (s_term_at_range _ _ _ Hpt) as [Hb _].
  destruct (splice_agrees request r first k) as [Hag Hlen]; try done; [lia|].
  set (prev := N.to_nat (ae_prev_log_index request)) in *.
  pose proof (prefix_length _ _ He) as Hel. rewrite length_drop in Hel.
  pose proof (node_layout _ _ _ _ _ Hok) as Hlay.
  set (L' := take (prev + length (ae_entries request)) (r_log r)).
  assert (L' = take (prev + k) L ++ drop k (ae_entries request)) as HL'.
  { rewrite Hag, <- (take_drop (prev + k) L'). unfold L'. rewrite take_take, Nat.min_l by lia. f_equal.
    replace (prev + length (ae_entries request))%nat
      with ((prev + k) + (length (ae_entries request) - k))%nat by lia.
    destruct He as [rest He]. rewrite <- take_drop_commute, <- drop_drop, He.
    rewrite drop_app_le, take_app_length' by (rewrite ?length_drop; lia). done. }
  apply (advances_stay c G i HG _ L').
  apply (replaced_ok s' L' r (prev + k)); try done.
  - apply prefix_take.
  - apply take_le_prefix. lia.
  - intros j Hj Hjr Hp. apply Hdiff. rewrite (layout_log _ _ Hlay), lookup_drop.
    destruct (lookup_lt_is_Some_2 (ae_entries request) k) as [x Hx]; [lia|]. rewrite Hx.
    assert (r_log r !! (prev + k)%nat = Some x) as Hrx by (rewrite <- lookup_drop; by eapply prefix_lookup_Some).
    replace (N.to_nat (s_base s) + (first + k))%nat with (prev + k)%nat by lia.
    erewrite prefix_lookup_Some; [done| |exact Hp]. by rewrite lookup_take_lt by lia.
  - destruct Hlay as [Hbl Hl Hbt]. split; simpl.
    + unfold L'. rewrite length_take. lia.
    + unfold splice. rewrite Hl, HL', take_drop_commute, drop_app_le by (rewrite length_take; lia).
      do 3 f_equal. lia.
    + rewrite <- Hbt, HL'. rewrite <- (term_of_take L (prev + k)) by lia. symmetry.
      apply term_of_prefix; [by apply prefix_app_r|]. rewrite length_take. lia.
  - simpl. rewrite HL', take_app_le by (rewrite length_take; lia).
    rewrite take_take, Nat.min_l by lia. apply Hok.
Qed.

Lemma progress_ok matched :
  s_role s = Leader -> Forall (fun '(v, m) => evidence op s v m) matched ->
  spec_inv false (s <| s_match := matched |>) ->
  advances c G i (s <| s_match := matched |>) [].
Proof using HG Hok Hdel.
  intros Hrole Hev Hinv. apply (advances_stay c G i HG _ L). destruct Hok.
  split; try done; [by apply (layout_same s)|]. simpl. intros _ v m Hin.
  pose proof (proj1 (Forall_forall _ _) Hev _ Hin) as H. simpl in H.
  destruct H as [|[(m' & Hm & Hle)|[[-> Hle]|Hcl]]]; [by left| | |].
  - destruct (node_match0 Hrole v m' Hm) as [|(k & ? & ?)]; [left; lia|]. right. exists k. split; [lia|done].
  - right. exists (length L). rewrite (layout_last _ _ node_layout0) in Hle. rewrite node_id0.
    split; [lia|]. by apply node_leader0.
  - right. destruct Hcl as [(response & Hd & Ht & Hs & Hle)|(response & Hd & Ht & Hs & Hle)];
      specialize (Hdel _ _ Hd Hs); rewrite Ht in Hdel; eexists; (split; [|exact Hdel]); lia.
Qed.

Lemma commit_leader_ok index :
  s_role s = Leader -> s_commit s < index -> index <= s_last s ->
  s_term_at s index = Some (s_term s) ->
  quorum_of (s_membership s) (believed (s_match s) index) = true ->
  spec_inv false (s <| s_commit := index |>) -> advances c G i (s <| s_commit := index |>) [].
Proof using HG Hok.
  intros Hrole Hlt Hle Ht Hq Hinv. rewrite (fixed_membership c) in Hq by apply Hok.
  apply (advances_stay c G i HG _ L). destruct Hok.
  destruct (node_leader0 Hrole) as ((r & Hr & Hl & Hlog) & _).
  apply (layout_term_Some _ _ _ _ node_layout0) in Ht.
  rewrite (layout_last _ _ node_layout0) in Hle.
  split; try done; [by apply (layout_same s)|]. simpl. right.
  exists (s_term s), (N.to_nat index), r. rewrite Hlog. split_and!; [done| |done|done]. split.
  - exists r. rewrite Hlog. split_and!; [done| |lia].
    destruct (N.to_nat index) as [|k] eqn:E; [lia|]. apply term_of_lookup in Ht as (e & He & Hte).
    rewrite <- Hlog in He. destruct (reign_entry c G HG _ _ _ _ Hr He) as [_ [H _]]. specialize (H Hte). lia.
  - eexists. split; [exact Hq|]. intros v Hb. unfold believed in Hb.
    apply existsb_exists in Hb as ([w m] & Hin%list_elem_of_In & Hm).
    apply andb_true_iff in Hm as [->%N.eqb_eq Hm%N.leb_le].
    destruct (node_match0 Hrole v m Hin) as [|(k & ? & ?)]; [lia|]. exists k. split; [lia|done].
Qed.

Lemma commit_follower_ok from request index :
  s_role s = Follower -> delivers op from (MAppendEntries request) -> ae_term request = s_term s ->
  s_commit s <= index ->
  (index <= s_commit s \/
   (holds s request /\ index <= ae_leader_commit request /\
    index <= ae_prev_log_index request + length_u64 (ae_entries request))) ->
  spec_inv false (s <| s_commit := index |>) -> advances c G i (s <| s_commit := index |>) [].
Proof using HG Hok Hdel.
  intros Hrole Hd Ht Hlo Hor Hinv. apply (advances_stay c G i HG _ L).
  assert (committed c G (take (N.to_nat index) L) (s_term s)) as Hcom.
  { destruct Hor as [Hle|(Hh & Hlc & Hm)]; [replace index with (s_commit s) by lia; apply Hok|].
    destruct (delivered_append _ _ Hd) as (r & Hr & Hlen & Hc & Hpe).
    destruct (holds_agrees c G HG s L request r) as [Heq _]; try done; [apply Hok..|].
    rewrite Ht in Hc. eapply committed_prefix; [|exact Hc].
    set (m := N.to_nat (ae_prev_log_index request + length_u64 (ae_entries request))) in *.
    assert (take (N.to_nat index) L = take (N.to_nat index) (r_log r)) as ->.
    { rewrite <- (Nat.min_l (N.to_nat index) m), <- !take_take, Heq by lia. done. }
    apply take_le_prefix. lia. }
  destruct Hok. split; simpl; rewrite ?Hrole; try done. by apply (layout_same s).
Qed.
End replication.

(** ** Dispatch and snapshots *)

Section snapshots.
Context (c : MembershipConfig) (G : History) (i : NodeId) (op : Op) (s : Spec) (L : list LogEntry).
Context (HG : history_ok c G) (Hok : node_ok c G i s L) (Hdel : delivery_ok c G i op).

Lemma apply_ok entry o :
  s_applied s < s_commit s -> s_entry s (s_applied s + 1) = Some entry ->
  dispatches (s_applied s + 1) entry o -> Forall (output_ok c G i) o.
Proof using Hok.
  intros Hlt He Ho. destruct Hok. destruct (layout_entry _ _ _ _ node_layout0 He) as [Hpos Hl].
  assert (dispatched_ok c G (s_applied s + 1) entry) as Hd.
  { eexists _, _. split_and!; [exact node_committed0|lia|]. by rewrite lookup_take_lt by lia. }
  destruct entry as [t [payload|configuration|]]; unfold dispatches in Ho; simpl in Ho.
  - destruct Ho as (proposal & ->). constructor; [exact Hd|constructor].
  - destruct Ho as (previous & ->). constructor; [exact Hd|constructor].
  - rewrite Ho. constructor.
Qed.

Lemma install_ok snapshot :
  let b := last_included_index (metadata snapshot) in
  s_role s = Follower -> installs op (s_term s) (metadata snapshot) ->
  N.max (s_base s) (s_commit s) < b ->
  spec_inv false (s_install snapshot s) -> fixed c (s_install snapshot s) ->
  advances c G i (s_install snapshot s) [ApplySnapshot snapshot].
Proof using HG Hok Hdel.
  intros b Hrole Hins Hlt Hinv Hf.
  destruct (installs_ok c G i op Hdel _ _ Hins) as (r & Hr & Hlen & Hrt & Hcom).
  fold b in Hlen, Hrt, Hcom. specialize (Hrt ltac:(lia)).
  pose proof (reign_sourced _ _ _ _ (history_reigns _ _ HG _ _ Hr)) as Hsr.
  assert (output_ok c G i (ApplySnapshot snapshot)) as Hout.
  { exists (take (N.to_nat b) (r_log r)), (s_term s). split_and!; [done|rewrite length_take; lia|].
    pose proof (term_of_last (take (N.to_nat b) (r_log r))) as Hlast.
    rewrite length_take, Nat.min_l, term_of_take in Hlast by lia. fold b. congruence. }
  pose proof (node_layout _ _ _ _ _ Hok) as Hlay. unfold s_install in *. fold b in Hinv, Hf |- *.
  destruct (bool_decide_reflect (s_term_at s b = Some (last_included_term (metadata snapshot)))) as [Hhas|Hno].
  - pose proof (layout_term_Some _ _ _ _ Hlay Hhas) as HtL.
    exists G, L. split_and!; [apply grows_refl|done| |by constructor]. destruct Hok.
    split; [exact node_id0|exact Hinv|exact Hf| |exact node_sourced0|exact node_terms0|exact node_votes0
           |exact node_voted0|exact node_acks0| |..].
    + destruct Hlay as [Hbl Hl Hbt]. split; simpl; [by eapply term_of_length| |exact HtL].
      rewrite Hl, drop_drop. f_equal. lia.
    + simpl. rewrite (log_matching G L (r_log r) _ _ node_sourced0 Hsr HtL Hrt). exact Hcom.
    + simpl. by rewrite Hrole.
    + simpl. by rewrite Hrole.
    + simpl. by rewrite Hrole.
  - exists G, (take (N.to_nat b) (r_log r)). split_and!; [apply grows_refl|done| |by constructor].
    eapply (replaced_ok c G i s L HG Hok _ _ r (N.to_nat b)); try done; simpl.
    + apply prefix_take.
    + intros j Hj Hjr Hp. apply Hno. rewrite (layout_term_at _ L) by (done || lia).
      rewrite <- Hrt, <- (term_of_take (r_log r) j) by lia. symmetry. apply term_of_prefix; [done|].
      rewrite length_take. lia.
    + split; simpl.
      * rewrite length_take. lia.
      * by rewrite drop_ge by (rewrite length_take; lia).
      * by rewrite term_of_take by lia.
    + by rewrite take_take, Nat.min_id.
Qed.

Lemma compact_ok snapshot committed :
  let b := last_included_index (metadata snapshot) in
  s_base s <= b -> s_term_at s b = Some (last_included_term (metadata snapshot)) ->
  spec_inv false (s_compact snapshot committed s) -> fixed c (s_compact snapshot committed s) ->
  node_ok c G i (s_compact snapshot committed s) L.
Proof using HG Hok.
  intros b Hlo Ht Hinv Hf. destruct Hok. split; try done.
  pose proof (layout_term_Some _ _ _ _ node_layout0 Ht) as HtL. split; simpl; fold b.
  - by eapply term_of_length.
  - rewrite (layout_log _ _ node_layout0), drop_drop. f_equal. lia.
  - destruct (N.eqb_spec b 0) as [Hz|]; [by rewrite Hz|exact HtL].
Qed.
End snapshots.

(** ** Transitions *)

(** Every rule out of a state that keeps the invariant extends the history. *)
Lemma rule_ok c G i op s L o s' :
  quiet_membership c op -> history_ok c G -> node_ok c G i s L -> delivery_ok c G i op ->
  rule false op s o s' -> advances c G i s' o.
Proof.
  intros Hqm HG Hok Hdel Hr.
  pose proof (rule_inv _ _ _ _ _ Hr (node_inv _ _ _ _ _ Hok)) as Hinv.
  pose proof (rule_fixed _ _ _ _ _ _ Hqm Hr (node_fixed _ _ _ _ _ Hok)) as Hf.
  assert (forall s1 o1, node_ok c G i s1 L -> Forall (output_ok c G i) o1 -> advances c G i s1 o1) as Hstay.
  { intros s1 o1 H1 H2. exists G, L. split_and!; [apply grows_refl|done|done|done]. }
  assert (forall s1 o1, node_kept s s1 -> spec_inv false s1 -> fixed c s1 ->
    Forall (output_ok c G i) o1 -> advances c G i s1 o1) as Hkeep.
  { intros s1 o1 ????. apply Hstay; [by eapply node_ok_keep|done]. }
  destruct Hr; try (apply Hkeep; [split_and!; (done || by intros)|done|done|constructor]).
  - by eapply permitteds_ok.
  - by apply (follow_ok c G i s L).
  - by apply (campaign_ok c G i s L).
  - by eapply (vote_counted c G i op s L).
  - by apply (lead_ok c G i s L).
  - by eapply (grant_ok c G i op s L).
  - by apply (append_entry_ok c G i s L).
  - by eapply (splice_ok c G i op s L).
  - by eapply (progress_ok c G i op s L).
  - by eapply (commit_leader_ok c G i s L).
  - by eapply (commit_follower_ok c G i op s L).
  - apply Hkeep; [by split_and!|done|done|by eapply apply_ok].
  - by eapply (install_ok c G i op s L).
  - apply Hstay; [by apply compact_ok|constructor].
Qed.

Lemma run_ok c i op s o s' :
  quiet_membership c op -> run false op s o s' -> forall G L, history_ok c G -> node_ok c G i s L ->
  delivery_ok c G i op -> advances c G i s' o.
Proof.
  intros Hqm. induction 1 as [s|s1 o1 s2 o2 s3 H1 H2 IH]; intros G L HG Hok Hdel.
  { by apply (advances_stay c G i HG _ L). }
  destruct (rule_ok _ _ _ _ _ _ _ _ Hqm HG Hok Hdel H1) as (G1 & L1 & Hg1 & HG1 & Hok1 & Ho1).
  destruct (IH G1 L1 HG1 Hok1) as (G2 & L2 & Hg2 & HG2 & Hok2 & Ho2); [by eapply delivery_ok_grows|].
  exists G2, L2. split_and!; [by eapply grows_trans|done|done|]. apply Forall_app. split; [|done].
  by eapply outputs_ok_grows.
Qed.
