(* ===== verification/Recovery.v ===== *)
(** * Restart from a durable image

    What a node keeps in storage, and that the node
    [crates/rafter/src/node/construction.rs] rebuilds from it has the same term,
    vote, snapshot and log. *)

From stdpp Require Import base list sorting numbers option sets.
From S2P Require Import Prelude.
From S2P Require Import Types.
From S2P Require Import Snapshot.
From S2P Require Import Message.
From S2P Require Import Membership.
From S2P Require Import Config.
From S2P Require Import NodeState.
From S2P Require Import Log.
From S2P Require Import View.
From S2P Require Import Bootstrap.
From S2P Require Import Spec.
From S2P Require Import Abstraction.
From S2P Require Import RefineSnapshot.
From S2P Require Import KernelAudit.

(** The entries of a log whose first index is [first]. *)
Definition indexed (first : LogIndex) (log : list LogEntry) : list BootstrapLogEntry :=
  imap (fun k e => {| ble_index := first + N.of_nat k; ble_term := entry_term e;
                      ble_kind := entry_kind e |}) log.

(** The image of a node whose storage last recorded [commit] and
    [configuration]; both may lag behind the node. *)
Definition durable (n : Node) (commit : LogIndex) (configuration : option CommittedConfiguration)
  : BootstrapState := {|
  bs_current_term := current_term (persistent n);
  bs_voted_for := voted_for (persistent n);
  bs_commit_index := commit;
  bs_committed_configuration := configuration;
  bs_snapshot := snapshot (persistent n);
  bs_log := indexed (snapshot_index n + 1) (log (persistent n));
|}.

Lemma indexed_cons first e log : indexed first (e :: log) =
  {| ble_index := first; ble_term := entry_term e; ble_kind := entry_kind e |}
    :: indexed (first + 1) log.
Proof.
  unfold indexed. simpl. f_equal; [by rewrite N.add_0_r|]. apply imap_ext. intros k x _. simpl. f_equal. lia.
Qed.

(** The scan of an indexed log that succeeds collects it. *)
Lemma accept_all_indexed meta current stored log first v v' :
  metadata_index meta < first -> lv_expected_index v = first ->
  accept_all meta current stored v (indexed first log) = Ok v' ->
  lv_materialized_log v' = lv_materialized_log v ++ log.
Proof.
  revert first v. induction log as [|e log IH]; intros first v Hlo Hfirst.
  { intros [= <-]. by rewrite app_nil_r. }
  rewrite indexed_cons. set (x := {| ble_index := _ |}).
  assert (forall v1, retain_entry current v x = Ok v1 ->
    lv_expected_index v1 = first + 1 /\ lv_materialized_log v1 = lv_materialized_log v ++ [e]) as Hretain.
  { intros v1. unfold retain_entry, validate_retained_entry, x. simpl. rewrite Hfirst, N.eqb_refl. simpl.
    destruct (Term_is_zero _); [done|]. destruct (_ <? _); [done|].
    destruct (u64_checked_add _ _) as [y|] eqn:Ec; [|done]. intros [= <-].
    apply u64_checked_add_Some in Ec as [Hmax _]. simpl. split; [|by destruct e].
    apply u64_add_small. unfold u64_max, u64_modulus in *. lia. }
  assert (LogValidation_accept meta current stored v x = retain_entry current v x) as Haccept.
  { unfold LogValidation_accept. simpl. destruct (N.ltb_spec first (metadata_index meta)); [lia|].
    destruct (N.eqb_spec first (metadata_index meta)); [lia|]. by destruct meta. }
  simpl. rewrite Haccept. destruct (retain_entry current v x) as [v1|]; [|done].
  destruct (Hretain v1 eq_refl) as [Hnext Hlog]. intros Hrest.
  apply IH in Hrest; [|lia|done]. by rewrite Hrest, Hlog, <- app_assoc.
Qed.

(** Construction from an indexed log gives a follower with the stored state. *)
Lemma from_bootstrap_indexed cfg b l n' :
  metadata_index (metadata <$> bs_snapshot b) + 1 < u64_modulus ->
  bs_log b = indexed (metadata_index (metadata <$> bs_snapshot b) + 1) l ->
  from_bootstrap cfg b = Ok n' ->
  config n' = cfg /\
  current_term (persistent n') = bs_current_term b /\
  voted_for (persistent n') = bs_voted_for b /\
  snapshot (persistent n') = bs_snapshot b /\
  log (persistent n') = l /\
  commit_index (volatile n') =
    N.max (bs_commit_index b) (metadata_index (metadata <$> bs_snapshot b)) /\
  role (volatile n') = Follower.
Proof.
  set (m := metadata <$> bs_snapshot b). intros Hcap Hlog.
  unfold from_bootstrap, into_parts. destruct (validate_vote _); [|done].
  destruct (validate_snapshot _ _); [|done]. simpl. fold m. rewrite Hlog.
  unfold validate_log. destruct (accept_all _ _ _ _ _) as [v|] eqn:Ea; [|done]. simpl.
  destruct (_ <? _); [done|]. simpl. destruct (recover_configuration _ _ _ _); [|done]. simpl.
  intros [= <-]. simpl.
  assert (lv_materialized_log v = l) as Hl.
  { assert (lv_expected_index (LogValidation_new m) = metadata_index m + 1) as He
      by (simpl; apply u64_add_small; lia).
    apply accept_all_indexed in Ea; [done|lia|done]. }
  by split_and!.
Qed.

Section durable.
Context (n : Node) (Hg : good false n) (commit : LogIndex) (stored : option CommittedConfiguration).

Lemma durable_wf : bootstrap_wf (config n) (durable n commit stored).
Proof using Hg.
  destruct Hg as [Hr Hinv]. split_and!; [apply (inv_static_wf _ _ Hinv)| |].
  - pose proof (inv_base_wf _ _ Hinv) as Hb. pose proof (rep_capacity _ Hr) as Hc. simpl in *.
    unfold snapshot_index, snapshot_committed_membership in *.
    destruct (snapshot (persistent n)); [|done]. simpl in *. split; [lia|done].
  - pose proof (inv_log_wf _ _ Hinv) as Hl. simpl in *. unfold indexed.
    apply Forall_lookup. intros k x Hx. rewrite list_lookup_imap in Hx.
    apply fmap_Some in Hx as (e & He & ->). simpl. eapply Forall_lookup_1 in Hl; [|done]. by destruct e.
Qed.

Lemma from_bootstrap_durable n' :
  from_bootstrap (config n) (durable n commit stored) = Ok n' ->
  config n' = config n /\
  current_term (persistent n') = current_term (persistent n) /\
  voted_for (persistent n') = voted_for (persistent n) /\
  snapshot (persistent n') = snapshot (persistent n) /\
  log (persistent n') = log (persistent n) /\
  commit_index (volatile n') = N.max commit (snapshot_index n) /\
  role (volatile n') = Follower.
Proof using Hg.
  pose proof (rep_capacity _ (proj1 Hg)) as Hcap.
  assert (metadata_index (metadata <$> snapshot (persistent n)) = snapshot_index n) as Hm
    by (unfold snapshot_index; by destruct (snapshot (persistent n))).
  intros Hn'. eapply (from_bootstrap_indexed _ _ (log (persistent n))) in Hn'; simpl in *; rewrite ?Hm in *;
    [done|lia|done].
Qed.
End durable.
