(* ===== verification/Cluster.v ===== *)
(** * Safety of a cluster

    Nodes that run the kernel over a network that may drop, delay, reorder and
    duplicate messages, and that may crash and restart from their durable image.
    The membership, joint or not, is fixed: no operation changes it. *)

From stdpp Require Import base list sorting numbers option sets gmap relations.
From S2P Require Import Prelude.
From S2P Require Import Types.
From S2P Require Import Snapshot.
From S2P Require Import Message.
From S2P Require Import Membership.
From S2P Require Import MembershipIndex.
From S2P Require Import Progress.
From S2P Require Import Config.
From S2P Require Import NodeState.
From S2P Require Import Log.
From S2P Require Import View.
From S2P Require Import Commit.
From S2P Require Import Send.
From S2P Require Import ReadIndex.
From S2P Require Import Transfer.
From S2P Require Import Election.
From S2P Require Import SnapshotTransfer.
From S2P Require Import Receive.
From S2P Require Import MembershipChange.
From S2P Require Import LocalSnapshot.
From S2P Require Import Dispatch.
From S2P Require Import Bootstrap.
From S2P Require Import Validate.
From S2P Require Import Spec.
From S2P Require Import SpecProps.
From S2P Require Import Abstraction.
From S2P Require Import RefineCommit.
From S2P Require Import RefineSend.
From S2P Require Import RefineRead.
From S2P Require Import RefineElection.
From S2P Require Import RefineReceive.
From S2P Require Import RefineSnapshot.
From S2P Require Import RefineMembership.
From S2P Require Import Refinement.
From S2P Require Import KernelAudit.
From S2P Require Import Safety.
From S2P Require Import Reigns.
From S2P Require Import Consensus.
From S2P Require Import Recovery.

(** ** The cluster *)

(** The nodes, and everything they have emitted, oldest first. *)
Record Cluster := {
  nodes : gmap NodeId Node;
  trace : list (NodeId * Output);
}.

Definition cluster_perform (σ : Cluster) (i : NodeId) (op : Op) : Cluster :=
  match nodes σ !! i with
  | Some n => {| nodes := <[i := (perform n op).1]> (nodes σ);
                 trace := trace σ ++ (pair i <$> (perform n op).2) |}
  | None => σ
  end.

(** A snapshot chunk with this term and metadata was sent to [i]; the bytes are
    read from storage by the sender's driver and are not constrained. *)
Definition chunk_sent (σ : Cluster) (from i : NodeId) (t : Term) (m : RaftSnapshotMetadata) : Prop :=
  exists chunk, (from, SendSnapshotChunk i chunk) ∈ trace σ /\
    scs_term chunk = t /\ scs_metadata chunk = m.

(** A message is delivered only if it was sent. *)
Definition delivered (σ : Cluster) (i : NodeId) (op : Op) : Prop :=
  forall from m, delivers op from m ->
    match m with
    | MInstallSnapshot request => chunk_sent σ from i (is_term request) (is_metadata request)
    | MInstallSnapshotChunk request => chunk_sent σ from i (isc_term request) (isc_metadata request)
    | _ => (from, Send i m) ∈ trace σ
    end.

Definition restarts (n n' : Node) (b : BootstrapState) : Prop :=
  from_bootstrap (config n) b = Ok n' \/
  exists applied, from_bootstrap_applied_through (config n) b applied = Ok n'.

Inductive cluster_step (c : MembershipConfig) (σ : Cluster) : Cluster -> Prop :=
| step_perform i n op :
    nodes σ !! i = Some n -> admissible false op n -> quiet_membership c op -> delivered σ i op ->
    cluster_step c σ (cluster_perform σ i op)
| step_restart i n commit configuration n' :
    nodes σ !! i = Some n -> commit <= commit_index (volatile n) ->
    restarts n n' (durable n commit configuration) ->
    cluster_step c σ {| nodes := <[i := n']> (nodes σ); trace := trace σ |}.

Definition initial (c : MembershipConfig) (σ : Cluster) : Prop :=
  MembershipConfig_wf c /\ trace σ = [] /\
  forall i n, nodes σ !! i = Some n ->
    exists config, n = Node_new config /\ nc_id config = i /\ static_membership config = c.

(** ** The invariant *)

Record cluster_inv (c : MembershipConfig) (G : History) (σ : Cluster) : Prop := {
  cluster_history : history_ok c G;
  cluster_nodes : forall i n, nodes σ !! i = Some n ->
    good false n /\ exists L, node_ok c G i (abs n) L;
  cluster_trace : forall i o, (i, o) ∈ trace σ -> output_ok c G i o;
}.

Definition no_history : History := {| reigns := ∅; cast := []; acked := [] |}.

Lemma no_history_ok c : history_ok c no_history.
Proof.
  split; simpl.
  - intros t r Hr. by rewrite lookup_empty in Hr.
  - intros v Hv. by apply not_elem_of_nil in Hv.
  - intros v w Hv. by apply not_elem_of_nil in Hv.
  - intros v t k Hv. by apply not_elem_of_nil in Hv.
Qed.

Lemma fresh_ok c cfg :
  MembershipConfig_wf c -> static_membership cfg = c ->
  node_ok c no_history (nc_id cfg) (abs (Node_new cfg)) [].
Proof.
  intros Hc Hs. split; try done.
  - apply (good_any false), Node_new_good. by rewrite Hs.
  - split_and!; [done|by left|done].
  - intros v Hv. by apply not_elem_of_nil in Hv.
  - intros t k Hk. by apply not_elem_of_nil in Hk.
  - by left.
Qed.

Lemma initial_inv c σ : initial c σ -> cluster_inv c no_history σ.
Proof.
  intros (Hc & Htrace & Hn). split; [apply no_history_ok| |].
  - intros i n (cfg & -> & <- & Hs)%Hn. split; [|exists []; by apply fresh_ok].
    apply good_any, Node_new_good. by rewrite Hs.
  - rewrite Htrace. intros i o Hin. by apply not_elem_of_nil in Hin.
Qed.

(** Histories in the order they grow. *)
Definition later : History -> History -> Prop := rtc (fun G G' => exists i, grows i G G').

Lemma later_preserves (P : History -> Prop) G G' :
  (forall i G1 G2, grows i G1 G2 -> P G1 -> P G2) -> later G G' -> P G -> P G'.
Proof. intros HP. induction 1 as [|G1 G2 G3 [i H1] H2 IH]; [done|]. intros HG. eapply IH, HP; done. Qed.

Lemma delivery_from_trace c G σ i op :
  cluster_inv c G σ -> delivered σ i op -> delivery_ok c G i op.
Proof.
  intros [_ _ Htrace] Hd from m Hm. specialize (Hd from m Hm).
  destruct m; try (by apply Htrace in Hd); destruct Hd as (chunk & Hin & Ht & Hm');
    simpl; rewrite <- Ht, <- Hm'; exact (Htrace _ _ Hin).
Qed.

Lemma perform_inv c G σ i n op :
  cluster_inv c G σ -> nodes σ !! i = Some n -> admissible false op n ->
  quiet_membership c op -> delivered σ i op ->
  exists G', grows i G G' /\ cluster_inv c G' (cluster_perform σ i op).
Proof.
  intros Hinv Hi Ha Hq Hd. pose proof (delivery_from_trace _ _ _ _ _ Hinv Hd) as Hdel.
  destruct Hinv as [HG Hn Ht]. destruct (Hn i n Hi) as (Hgood & L & Hok).
  destruct (perform_run _ _ _ Hgood Ha) as [Hrun Hgood'].
  destruct (run_ok _ _ _ _ _ _ Hq Hrun G L HG Hok Hdel) as (G' & L' & Hgrow & HG' & Hok' & Ho).
  exists G'. split; [done|]. unfold cluster_perform. rewrite Hi. split; simpl; [done| |].
  - intros j m. destruct (decide (i = j)) as [<-|Hne].
    + rewrite lookup_insert_eq. intros [= <-]. split; [done|by exists L'].
    + rewrite lookup_insert_ne by done. intros Hj. destruct (Hn j m Hj) as (? & Lj & Hokj).
      split; [done|]. exists Lj. by eapply node_ok_others.
  - intros j o [Hin|Hin]%elem_of_app; [by eapply output_ok_grows, Ht|].
    apply list_elem_of_fmap in Hin as (x & [= -> ->] & Hin). by eapply Forall_forall in Ho.
Qed.

(** A restart keeps what the node owes the others. *)
Lemma restarts_durable n n' commit configuration :
  good false n -> commit <= commit_index (volatile n) ->
  restarts n n' (durable n commit configuration) ->
  good false n' /\ config n' = config n /\
  current_term (persistent n') = current_term (persistent n) /\
  voted_for (persistent n') = voted_for (persistent n) /\
  snapshot (persistent n') = snapshot (persistent n) /\ log (persistent n') = log (persistent n) /\
  commit_index (volatile n') <= commit_index (volatile n) /\ role (volatile n') = Follower.
Proof.
  intros Hg Hc Hr. pose proof (durable_wf n Hg commit configuration) as Hwf.
  assert (snapshot_index n <= commit_index (volatile n)) as Hb
    by (destruct Hg as [_ Hinv]; pose proof (inv_base _ _ Hinv); pose proof (inv_applied _ _ Hinv); simpl in *; lia).
  destruct Hr as [Hr|[applied Hr]].
  - split; [by eapply good_any, from_bootstrap_good|].
    destruct (from_bootstrap_durable n Hg commit configuration n' Hr) as (? & ? & ? & ? & ? & -> & ?).
    split_and!; try done. lia.
  - split; [by eapply good_any, from_bootstrap_applied_through_good|].
    unfold from_bootstrap_applied_through in Hr.
    destruct (from_bootstrap _ _) as [n1|] eqn:E; [|done]. simpl in Hr.
    destruct (_ <? _); [done|]. destruct (_ <? _); [done|]. injection Hr as <-. simpl.
    destruct (from_bootstrap_durable n Hg commit configuration n1 E) as (? & ? & ? & ? & ? & -> & ?).
    split_and!; try done. lia.
Qed.

Lemma restart_inv c G σ i n n' commit configuration :
  cluster_inv c G σ -> nodes σ !! i = Some n -> commit <= commit_index (volatile n) ->
  restarts n n' (durable n commit configuration) ->
  cluster_inv c G {| nodes := <[i := n']> (nodes σ); trace := trace σ |}.
Proof.
  intros [HG Hn Ht] Hi Hc Hr. destruct (Hn i n Hi) as (Hgood & L & Hok).
  destruct (restarts_durable _ _ _ _ Hgood Hc Hr) as (Hg' & Hcf & Htm & Hv & Hs & Hl & Hci & Hrole).
  split; [done| |done]. simpl. intros j m. destruct (decide (i = j)) as [<-|Hne].
  2:{ rewrite lookup_insert_ne by done. apply Hn. }
  rewrite lookup_insert_eq. intros [= <-]. split; [done|]. exists L.
  eapply node_ok_keep; [exact Hok|apply Hg'| |].
  - destruct (node_fixed _ _ _ _ _ Hok) as (Hst & Hbm & Hcfg).
    unfold fixed, snapshot_committed_membership in *. simpl in *.
    unfold snapshot_committed_membership in *. rewrite Hcf, Hl, Hs. by split_and!.
  - unfold node_kept. simpl. unfold Node_id, snapshot_index. rewrite Hcf, Hs, Hrole. by split_and!.
Qed.

Lemma step_inv c G σ σ' :
  cluster_inv c G σ -> cluster_step c σ σ' -> exists G', later G G' /\ cluster_inv c G' σ'.
Proof.
  intros Hinv [i n op Hi Ha Hq Hd|i n commit configuration n' Hi Hc Hr].
  - destruct (perform_inv _ _ _ _ _ _ Hinv Hi Ha Hq Hd) as (G' & Hgrow & Hinv').
    exists G'. split; [|done]. apply rtc_once. by exists i.
  - exists G. split; [apply rtc_refl|]. by eapply restart_inv.
Qed.

Lemma steps_inv c σ σ' :
  rtc (cluster_step c) σ σ' -> forall G, cluster_inv c G σ ->
  exists G', later G G' /\ cluster_inv c G' σ'.
Proof.
  induction 1 as [|σ1 σ2 σ3 H1 H2 IH]; intros G Hinv; [exists G; split; [apply rtc_refl|done]|].
  destruct (step_inv _ _ _ _ Hinv H1) as (G1 & Hl1 & Hinv1).
  destruct (IH _ Hinv1) as (G2 & Hl2 & Hinv2). exists G2. split; [by etrans|done].
Qed.

(** An execution and two of its moments. *)
Lemma moments_inv c σ0 σ1 σ2 :
  initial c σ0 -> rtc (cluster_step c) σ0 σ1 -> rtc (cluster_step c) σ1 σ2 ->
  exists G1 G2, later G1 G2 /\ cluster_inv c G1 σ1 /\ cluster_inv c G2 σ2.
Proof.
  intros H0 H1 H2. destruct (steps_inv _ _ _ H1 _ (initial_inv _ _ H0)) as (G1 & _ & Hinv1).
  destruct (steps_inv _ _ _ H2 _ Hinv1) as (G2 & Hl & Hinv2). by exists G1, G2.
Qed.

(** ** Leaders *)

(** The reign of a leader, whose log is the leader's. *)
Lemma leader_reign c G σ i n :
  cluster_inv c G σ -> nodes σ !! i = Some n -> role (volatile n) = Leader ->
  exists r, reigns G !! current_term (persistent n) = Some r /\ r_leader r = i.
Proof.
  intros [_ Hn _] Hi Hl. destruct (Hn i n Hi) as (_ & L & Hok).
  destruct (node_leader _ _ _ _ _ Hok Hl) as ((r & Hr & Hlr & _) & _). by exists r.
Qed.

Lemma leads_later G G' t i :
  later G G' -> (exists r, reigns G !! t = Some r /\ r_leader r = i) ->
  exists r, reigns G' !! t = Some r /\ r_leader r = i.
Proof.
  apply (later_preserves (fun G => exists r, reigns G !! t = Some r /\ r_leader r = i)).
  intros k G1 G2 Hgrow (r & Hr & <-).
  destruct (grows_reigns _ _ _ Hgrow _ _ Hr) as (r' & Hr' & Hl & _). by exists r'.
Qed.

(** C14: in a cluster of fixed membership (joint or not), over a network that
    drops, delays, reorders and duplicates messages, and with nodes that restart
    from their durable image, at most one node is ever leader in any given term,
    whether the two leaders are compared at one time or at two. *)
Theorem election_safety c σ0 σ1 σ2 i j n m :
  initial c σ0 -> rtc (cluster_step c) σ0 σ1 -> rtc (cluster_step c) σ1 σ2 ->
  nodes σ1 !! i = Some n -> role (volatile n) = Leader ->
  nodes σ2 !! j = Some m -> role (volatile m) = Leader ->
  current_term (persistent n) = current_term (persistent m) -> i = j.
Proof.
  intros H0 H1 H2 Hi Hli Hj Hlj Ht. destruct (moments_inv _ _ _ _ H0 H1 H2) as (G1 & G2 & Hl & Hinv1 & Hinv2).
  destruct (leads_later _ _ _ _ Hl (leader_reign _ _ _ _ _ Hinv1 Hi Hli)) as (r & Hr & <-).
  destruct (leader_reign _ _ _ _ _ Hinv2 Hj Hlj) as (r' & Hr' & <-). rewrite <- Ht in Hr'. congruence.
Qed.

(** ** Logs *)

(** The retained entries of a node are those of its complete log. *)
Lemma node_entry c G i n L k :
  good false n -> node_ok c G i (abs n) L -> k < u64_modulus -> snapshot_index n < k ->
  entry_at n k = L !! (N.to_nat k - 1)%nat.
Proof.
  intros [Hr _] Hok Hk Hb. rewrite (entry_at_abs n Hr) by done. unfold s_entry. simpl. case_cmp; [lia|].
  destruct (node_layout _ _ _ _ _ Hok) as [_ Hl _]. simpl in Hl. rewrite Hl, lookup_drop. f_equal. lia.
Qed.

Lemma sourced_later G G' L : later G G' -> sourced G L -> sourced G' L.
Proof. apply (later_preserves (fun G => sourced G L)). intros i G1 G2 Hg. by apply (sourced_grows i). Qed.

Lemma committed_later c G G' P T : later G G' -> committed c G P T -> committed c G' P T.
Proof. apply (later_preserves (fun G => committed c G P T)). intros i G1 G2 Hg. by apply (committed_grows i). Qed.

(** C13: when the logs of two nodes, at one time or at two, have entries of the
    same term at the same index, the entries are equal and so are all earlier
    ones that both logs still retain. *)
Theorem logs_match c σ0 σ1 σ2 i j n m k e1 e2 :
  initial c σ0 -> rtc (cluster_step c) σ0 σ1 -> rtc (cluster_step c) σ1 σ2 ->
  nodes σ1 !! i = Some n -> nodes σ2 !! j = Some m -> k < u64_modulus ->
  snapshot_index n < k -> snapshot_index m < k ->
  entry_at n k = Some e1 -> entry_at m k = Some e2 -> entry_term e1 = entry_term e2 ->
  forall k', k' <= k -> snapshot_index n < k' -> snapshot_index m < k' -> entry_at n k' = entry_at m k'.
Proof.
  intros H0 H1 H2 Hi Hj Hk Hbn Hbm He1 He2 Ht k' Hk' Hn' Hm'.
  destruct (moments_inv _ _ _ _ H0 H1 H2) as (G1 & G2 & Hl & [_ Hn1 _] & [_ Hn2 _]).
  destruct (Hn1 i n Hi) as (Hg1 & L1 & Hok1), (Hn2 j m Hj) as (Hg2 & L2 & Hok2).
  pose proof (sourced_later _ _ _ Hl (node_sourced _ _ _ _ _ Hok1)) as Hs1.
  rewrite (node_entry _ _ _ _ _ k Hg1 Hok1) in He1 by lia.
  rewrite (node_entry _ _ _ _ _ k' Hg1 Hok1) by lia.
  rewrite (node_entry _ _ _ _ _ k Hg2 Hok2) in He2 by lia.
  rewrite (node_entry _ _ _ _ _ k' Hg2 Hok2) by lia.
  assert (take (N.to_nat k) L1 = take (N.to_nat k) L2) as Htake.
  { destruct (N.to_nat k) as [|p] eqn:E; [done|]. replace (S p - 1)%nat with p in * by lia.
    apply (log_matching G2 _ _ _ (entry_term e1)); [done|apply Hok2| |]; apply term_of_lookup; by eexists. }
  rewrite <- (lookup_take_lt L1 (N.to_nat k)), <- (lookup_take_lt L2 (N.to_nat k)) by lia. by rewrite Htake.
Qed.

(** C12: an entry some node has committed is in the log of every leader of the
    same or a later term from then on, unless compacted into its snapshot. *)
Theorem leader_completeness c σ0 σ1 σ2 i j n m k e :
  initial c σ0 -> rtc (cluster_step c) σ0 σ1 -> rtc (cluster_step c) σ1 σ2 ->
  nodes σ1 !! i = Some n -> entry_at n k = Some e ->
  snapshot_index n < k -> k <= commit_index (volatile n) ->
  nodes σ2 !! j = Some m -> role (volatile m) = Leader ->
  current_term (persistent n) <= current_term (persistent m) ->
  snapshot_index m < k -> entry_at m k = Some e.
Proof.
  intros H0 H1 H2 Hi He Hb Hc Hj Hlead Ht Hbm.
  destruct (moments_inv _ _ _ _ H0 H1 H2) as (G1 & G2 & Hl & [_ Hn1 _] & [HG2 Hn2 _]).
  destruct (Hn1 i n Hi) as (Hg1 & L1 & Hok1), (Hn2 j m Hj) as (Hg2 & L2 & Hok2).
  assert (k < u64_modulus) as Hk by (pose proof (commit_in_range false n (proj1 Hg1) (proj2 Hg1)); lia).
  rewrite (node_entry _ _ _ _ _ _ Hg1 Hok1) in He by lia.
  rewrite (node_entry _ _ _ _ _ _ Hg2 Hok2) by lia.
  destruct (node_leader _ _ _ _ _ Hok2 Hlead) as ((r & Hr & _ & Hlog) & _).
  pose proof (committed_later _ _ _ _ _ Hl (node_committed _ _ _ _ _ Hok1)) as Hcom.
  pose proof (committed_in_reign c G2 HG2 _ _ _ _ Hcom Ht Hr) as Hp. rewrite Hlog in Hp.
  eapply prefix_lookup_Some; [|exact Hp]. by rewrite lookup_take_lt by (simpl; lia).
Qed.

(** ** Applied commands *)

(** The log entry an output hands to the application, with its index. *)
Definition dispatched_entry (o : Output) : option (LogIndex * LogEntry) :=
  match o with
  | Apply index term payload _ => Some (index, LogEntry_application term payload)
  | ConfigurationCommitted index term _ configuration =>
      Some (index, LogEntry_configuration term configuration)
  | _ => None
  end.

Lemma trace_dispatched c G σ i o k e :
  cluster_inv c G σ -> (i, o) ∈ trace σ -> dispatched_entry o = Some (k, e) -> dispatched_ok c G k e.
Proof.
  intros [_ _ Ht] Hin Hd. specialize (Ht i o Hin). destruct o; try done; simpl in *; by injection Hd as <- <-.
Qed.

(** C11: whatever nodes of the cluster hand to their applications at a given log
    index, before or after restarts, is the same command of the same term. *)
Theorem state_machine_safety c σ0 σ i j o1 o2 k e1 e2 :
  initial c σ0 -> rtc (cluster_step c) σ0 σ ->
  (i, o1) ∈ trace σ -> dispatched_entry o1 = Some (k, e1) ->
  (j, o2) ∈ trace σ -> dispatched_entry o2 = Some (k, e2) -> e1 = e2.
Proof.
  intros H0 H1 Ho1 Hd1 Ho2 Hd2.
  destruct (steps_inv _ _ _ H1 _ (initial_inv _ _ H0)) as (G & _ & Hinv).
  destruct (trace_dispatched _ _ _ _ _ _ _ Hinv Ho1 Hd1) as (P1 & T1 & Hc1 & _ & He1).
  destruct (trace_dispatched _ _ _ _ _ _ _ Hinv Ho2 Hd2) as (P2 & T2 & Hc2 & _ & He2).
  exact (committed_agree c G (cluster_history _ _ _ Hinv) _ _ _ _ _ _ _ Hc1 Hc2 He1 He2).
Qed.

(** C15: a snapshot a node installs ends at an entry of the term its metadata
    records: any node that applies an entry at that index applies one of that
    term. *)
Theorem snapshot_boundary_agrees c σ0 σ i j s o e :
  initial c σ0 -> rtc (cluster_step c) σ0 σ ->
  (i, ApplySnapshot s) ∈ trace σ ->
  (j, o) ∈ trace σ -> dispatched_entry o = Some (last_included_index (metadata s), e) ->
  last_included_term (metadata s) = entry_term e.
Proof.
  intros H0 H1 Hs Ho Hd.
  destruct (steps_inv _ _ _ H1 _ (initial_inv _ _ H0)) as (G & _ & Hinv).
  destruct (cluster_trace _ _ _ Hinv _ _ Hs) as (P1 & T1 & Hc1 & Hlen & ->).
  destruct (trace_dispatched _ _ _ _ _ _ _ Hinv Ho Hd) as (P2 & T2 & Hc2 & Hpos & He2).
  destruct (N.to_nat (last_included_index (metadata s))) as [|p] eqn:E; [lia|].
  replace (S p - 1)%nat with p in He2 by lia.
  destruct (lookup_lt_is_Some_2 P1 p) as [x Hx]; [lia|].
  pose proof (committed_agree c G (cluster_history _ _ _ Hinv) _ _ _ _ _ _ _ Hc1 Hc2 Hx He2) as ->.
  pose proof (term_of_last P1) as Hlast. rewrite <- Hlen in Hlast.
  apply term_of_lookup in Hlast as (y & Hy & <-). congruence.
Qed.
