(* ===== verification/Scenario.v ===== *)
(** * A cluster execution

    Schedules of local operations, deliveries and restarts, a check that a
    schedule is an execution of the cluster, and a schedule of three nodes that
    elects a leader, commits a command, compacts it into a snapshot, installs
    that on a node that missed it, elects another leader and restarts a node. *)

From stdpp Require Import base list sorting numbers option sets gmap relations.
From S2P Require Import Prelude.
From S2P Require Import Types.
From S2P Require Import Snapshot.
From S2P Require Import Message.
From S2P Require Import Membership.
From S2P Require Import MembershipIndex.
From S2P Require Import Progress.
From S2P Require Import Config.
From S2P Require Import NodeState.
From S2P Require Import Log.
From S2P Require Import View.
From S2P Require Import Commit.
From S2P Require Import Send.
From S2P Require Import ReadIndex.
From S2P Require Import Transfer.
From S2P Require Import Election.
From S2P Require Import SnapshotTransfer.
From S2P Require Import Receive.
From S2P Require Import MembershipChange.
From S2P Require Import LocalSnapshot.
From S2P Require Import Dispatch.
From S2P Require Import Bootstrap.
From S2P Require Import Validate.
From S2P Require Import Spec.
From S2P Require Import SpecProps.
From S2P Require Import Abstraction.
From S2P Require Import RefineCommit.
From S2P Require Import RefineSend.
From S2P Require Import RefineRead.
From S2P Require Import RefineElection.
From S2P Require Import RefineReceive.
From S2P Require Import RefineSnapshot.
From S2P Require Import RefineMembership.
From S2P Require Import Refinement.
From S2P Require Import KernelAudit.
From S2P Require Import Safety.
From S2P Require Import Reigns.
From S2P Require Import Consensus.
From S2P Require Import Recovery.

From S2P Require Import Cluster.

(** ** Schedules *)

Inductive Event :=
| Local (i : NodeId) (op : Op)
| Deliver (position : nat)
| Restart (i : NodeId).

(** The message a chunk send becomes once its driver has read the payload. *)
Definition chunk_message (chunk : SnapshotChunkSend) : Message :=
  MInstallSnapshotChunk
    {| isc_term := scs_term chunk; isc_leader_id := scs_leader_id chunk;
       isc_transfer_id := scs_transfer_id chunk; isc_metadata := scs_metadata chunk;
       isc_total_payload_len := scs_total_payload_len chunk;
       isc_application_payload_crc32 := scs_application_payload_crc32 chunk;
       isc_offset := scs_offset chunk;
       isc_chunk := replicate (N.to_nat (scs_len chunk)) Byte.x00;
       isc_done := scs_done chunk |}.

(** The delivery of an emitted output. *)
Definition delivery (emitted : NodeId * Output) : option (NodeId * Op) :=
  match emitted with
  | (_, Send _ (MInstallSnapshot _ | MInstallSnapshotChunk _)) => None
  | (from, Send to m) => Some (to, OpInput (InputMessage from m))
  | (from, SendSnapshotChunk to chunk) => Some (to, OpInput (InputMessage from (chunk_message chunk)))
  | _ => None
  end.

Definition restarted (σ : Cluster) (i : NodeId) : option Node :=
  n ← nodes σ !! i;
  match from_bootstrap (config n) (durable n 0 None) with Ok n' => Some n' | Err _ => None end.

Definition event_step (σ : Cluster) (e : Event) : Cluster :=
  match e with
  | Local i op => cluster_perform σ i op
  | Deliver position =>
      match trace σ !! position ≫= delivery with
      | Some (i, op) => cluster_perform σ i op
      | None => σ
      end
  | Restart i =>
      match restarted σ i with
      | Some n' => {| nodes := <[i := n']> (nodes σ); trace := trace σ |}
      | None => σ
      end
  end.

Definition play (σ : Cluster) (events : list Event) : Cluster := fold_left event_step events σ.

(** ** Checking a schedule *)

Definition roomy (σ : Cluster) (i : NodeId) : bool :=
  match nodes σ !! i with
  | Some n => (snapshot_index n + length_u64 (log (persistent n)) + 2 <? u64_modulus)
              && (heartbeat_sequence (leader n) + 1 <? u64_modulus)
  | None => false
  end.

Definition plain_message (m : Message) : bool :=
  match m with
  | MAppendEntries request =>
      (ae_prev_log_index request + length_u64 (ae_entries request) + 1 <? u64_modulus)
      && forallb (fun e => negb (is_configuration (entry_kind e))) (ae_entries request)
  | MInstallSnapshot _ => false
  | MInstallSnapshotChunk request =>
      (last_included_index (isc_metadata request) + 1 <? u64_modulus)
      && is_none (metadata_committed_membership (isc_metadata request))
  | _ => true
  end.

Definition plain_op (op : Op) : bool :=
  match op with
  | OpInput Tick | OpInput (ClientProposal _) => true
  | OpInput (InputMessage _ m) => plain_message m
  | OpCompact s => is_none (metadata_committed_membership (metadata s))
  | _ => false
  end.

Definition is_message (op : Op) : bool :=
  match op with OpInput (InputMessage _ _) => true | _ => false end.

Definition event_ok (σ : Cluster) (e : Event) : bool :=
  match e with
  | Local i op => roomy σ i && plain_op op && negb (is_message op)
  | Deliver position =>
      match trace σ !! position ≫= delivery with
      | Some (i, op) => roomy σ i && plain_op op
      | None => false
      end
  | Restart i => is_some (restarted σ i)
  end.

Fixpoint schedule_ok (σ : Cluster) (events : list Event) : bool :=
  match events with
  | [] => true
  | e :: rest => event_ok σ e && schedule_ok (event_step σ e) rest
  end.

Lemma no_configuration entries :
  forallb (fun e => negb (is_configuration (entry_kind e))) entries = true ->
  configurations entries = [] /\ Forall entry_wf entries.
Proof.
  induction entries as [|[t k] entries IH]; [split; [done|constructor]|]. simpl.
  rewrite andb_true_iff. intros [Hk Hrest]. destruct (IH Hrest) as [Hc Hw].
  destruct k; try done; (split; [exact Hc|by constructor]).
Qed.

Lemma plain_op_quiet c op : plain_op op = true -> quiet_membership c op /\ op_wf op /\ op_appends op = 1.
Proof.
  destruct op as [[|from m| | | | | | | | | | |]| | |s| |]; simpl; try done; intros H.
  - split_and!; [|done|done]. by split; [|intros ?? [=]|intros ?? (? & ? & [=] & ?)|].
  - assert (forall x, metadata_committed_membership x = None ->
      metadata_committed_membership x = None \/ metadata_committed_membership x = Some c) by by left.
    destruct m; simpl in H; try done; (split_and!; [|try done|done]);
      try (by split; [|intros ?? [=]|intros ?? (? & ? & [= <- <-] & [])|]).
    + apply andb_true_iff in H as [_ Hc]. apply no_configuration in Hc as [Hc _].
      by split; [|intros ?? [= <- <-]|intros ?? (? & ? & [= <- <-] & [])|].
    + apply andb_true_iff in H as [Hl%N.ltb_lt [_ Hw]%no_configuration]. by split.
    + apply andb_true_iff in H as [_ Hn]. split; [done|by intros ?? [=]| |done].
      intros t x (? & ? & [= <- <-] & _ & <-). left. by destruct (metadata_committed_membership _).
    + apply andb_true_iff in H as [Hl%N.ltb_lt Hn]. split; [done|].
      by destruct (metadata_committed_membership _).
  - split_and!; [|done|done]. by split; [|intros ?? [=]|intros ?? (? & ? & [=] & ?)|].
  - split_and!; [|done|done]. split; [done|by intros ?? [=]|by intros ?? (? & ? & [=] & ?)|].
    intros ? [= <-]. left. by destruct (metadata_committed_membership _).
Qed.

(** A checked local operation or delivery is a step. *)
Lemma checked_perform c σ i op :
  roomy σ i = true -> plain_op op = true -> delivered σ i op ->
  cluster_step c σ (cluster_perform σ i op).
Proof.
  unfold roomy. destruct (nodes σ !! i) as [n|] eqn:Hi; [|done].
  rewrite andb_true_iff, !N.ltb_lt. intros [Hroom Hcontact] Hop Hd.
  destruct (plain_op_quiet c op Hop) as (Hq & Hwf & Ha). eapply step_perform; [done| |done|done].
  split; [done| |done|done|done]. unfold room. rewrite Ha. lia.
Qed.

Lemma event_ok_step c σ e : event_ok σ e = true -> cluster_step c σ (event_step σ e).
Proof.
  destruct e as [i op|position|i]; simpl.
  - rewrite !andb_true_iff, negb_true_iff. intros [[Hr Hp] Hm]. apply checked_perform; [done|done|].
    intros from m ->. done.
  - destruct (trace σ !! position) as [[from o]|] eqn:Ht; [|done]. simpl.
    apply list_elem_of_lookup_2 in Ht.
    destruct o as [| | | | | | | | | | |to chunk|to []]; try done;
      simpl; rewrite andb_true_iff; intros [Hr Hp]; apply checked_perform; try done;
      intros from' message [= <- <-]; [by eexists|exact Ht..].
  - unfold restarted. destruct (nodes σ !! i) as [n|] eqn:Hi; [|done]. simpl.
    destruct (from_bootstrap _ _) as [n'|] eqn:Hb; [|done]. intros _.
    eapply step_restart; [done|apply N.le_0_l|]. left. exact Hb.
Qed.

Lemma schedule_steps c events σ :
  schedule_ok σ events = true -> rtc (cluster_step c) σ (play σ events).
Proof.
  revert σ. induction events as [|e events IH]; intros σ; [done|]. simpl.
  rewrite andb_true_iff. intros [He Hs]. eapply rtc_l; [by apply event_ok_step|by apply IH].
Qed.

(** ** Three nodes *)

Definition trio_membership : MembershipConfig := Stable {| voters := [1; 2; 3]; learners := [] |}.

Definition trio_cluster : Cluster :=
  {| nodes := <[1 := Node_new (sample_config 1 [2; 3])]>
                (<[2 := Node_new (sample_config 2 [1; 3])]>
                   (<[3 := Node_new (sample_config 3 [1; 2])]> ∅));
     trace := [] |}.

Lemma trio_initial : initial trio_membership trio_cluster.
Proof.
  split_and!; [vm_compute; split_and!; [done|repeat constructor..|set_solver]|done|].
  intros i n. unfold trio_cluster. simpl. rewrite !lookup_insert_Some, lookup_empty.
  intros [[<- <-]|[_ [[<- <-]|[_ [[<- <-]|[_ [=]]]]]]]; by eexists.
Defined.

Definition ticks (i : NodeId) (k : nat) : list Event := replicate k (Local i (OpInput Tick)).

(** Node 1 is elected by node 2 and commits a command; node 2 applies it. *)
Definition trio_commits : list Event :=
  ticks 1 3 ++ [Deliver 0; Deliver 2; Deliver 3; Deliver 5; Deliver 6; Deliver 8;
                Local 1 (OpInput (ClientProposal [Byte.x07])); Deliver 9; Deliver 10]
  ++ ticks 1 1 ++ [Deliver 12].

(** The command as a snapshot. *)
Definition trio_snapshot : RaftSnapshot :=
  {| metadata :=
       {| group_id := {| group_id_str := [97] |}; writer_id := 1; last_included_index := 2;
          last_included_term := 1; hard_state_term := 1;
          application := {| app_kind := {| application_kind_str := [97] |};
                            app_version := {| application_version := 1 |} |};
          metadata_committed_configuration := None |};
     application_payload_len := 0; application_payload_crc32 := 0 |}.

(** Node 1 compacts and sends node 3 the snapshot; node 3 elects node 2; node 1
    restarts. *)
Definition trio_continues : list Event :=
  [Local 1 (OpCompact trio_snapshot)] ++ ticks 1 1 ++ [Deliver 17]
  ++ ticks 3 3 ++ ticks 2 5 ++ [Deliver 24; Deliver 25; Deliver 27; Deliver 28; Restart 1].

Definition trio_committed : Cluster := play trio_cluster trio_commits.
Definition trio_final : Cluster := play trio_committed trio_continues.

Lemma trio_commits_steps c : rtc (cluster_step c) trio_cluster trio_committed.
Proof. apply schedule_steps. vm_compute. reflexivity. Defined.

Lemma trio_continues_steps c : rtc (cluster_step c) trio_committed trio_final.
Proof. apply schedule_steps. vm_compute. reflexivity. Defined.

(** The first leader when it has committed, and the second one at the end. *)
Definition trio_first : Node := default trio (nodes trio_committed !! 1).
Definition trio_second : Node := default trio (nodes trio_final !! 2).
Definition trio_command : LogEntry := LogEntry_application 1 [Byte.x07].

Lemma trio_first_at : nodes trio_committed !! 1 = Some trio_first.
Proof. vm_compute. reflexivity. Defined.
Lemma trio_second_at : nodes trio_final !! 2 = Some trio_second.
Proof. vm_compute. reflexivity. Defined.

Lemma election_safety_witness :
  role (volatile trio_first) = Leader /\ current_term (persistent trio_first) = 1 /\
  forall j m, nodes trio_final !! j = Some m -> role (volatile m) = Leader ->
    1 = current_term (persistent m) -> 1 = j.
Proof.
  split_and!; [vm_compute; reflexivity|vm_compute; reflexivity|]. intros j m Hj Hl Ht.
  apply (election_safety trio_membership trio_cluster trio_committed trio_final 1 j trio_first m
           trio_initial (trio_commits_steps _) (trio_continues_steps _) trio_first_at);
    [vm_compute; reflexivity|exact Hj|exact Hl|exact Ht].
Defined.

Lemma logs_match_witness : entry_at trio_first 1 = entry_at trio_second 1.
Proof.
  apply (logs_match trio_membership trio_cluster trio_committed trio_final 1 2 trio_first trio_second
           2 trio_command trio_command trio_initial (trio_commits_steps _) (trio_continues_steps _)
           trio_first_at trio_second_at); vm_compute; (reflexivity || done).
Defined.

Lemma leader_completeness_witness : entry_at trio_second 2 = Some trio_command.
Proof.
  apply (leader_completeness trio_membership trio_cluster trio_committed trio_final 1 2 trio_first
           trio_second 2 trio_command trio_initial (trio_commits_steps _) (trio_continues_steps _)
           trio_first_at); try exact trio_second_at; vm_compute; (reflexivity || done).
Defined.

Lemma trio_all_steps c : rtc (cluster_step c) trio_cluster trio_final.
Proof. etrans; [apply trio_commits_steps|apply trio_continues_steps]. Defined.

Lemma trio_emitted position x : trace trio_final !! position = Some x -> x ∈ trace trio_final.
Proof. apply list_elem_of_lookup_2. Defined.

(** Node 1 has applied the command: whatever any node applies at its index is
    that command. *)
Lemma state_machine_safety_witness :
  (1, Apply 2 1 [Byte.x07] None) ∈ trace trio_final /\
  forall j o e, (j, o) ∈ trace trio_final -> dispatched_entry o = Some (2, e) -> trio_command = e.
Proof.
  assert ((1, Apply 2 1 [Byte.x07] None) ∈ trace trio_final) as Hin
    by (apply (trio_emitted 11); vm_compute; reflexivity).
  split; [exact Hin|]. intros j o e Ho He.
  exact (state_machine_safety trio_membership trio_cluster trio_final 1 j _ o 2 _ e trio_initial
           (trio_all_steps _) Hin eq_refl Ho He).
Defined.

Lemma snapshot_boundary_agrees_witness :
  last_included_term (metadata trio_snapshot) = entry_term trio_command.
Proof.
  apply (snapshot_boundary_agrees trio_membership trio_cluster trio_final 3 1 trio_snapshot
           (Apply 2 1 [Byte.x07] None) trio_command trio_initial (trio_all_steps _));
    [apply (trio_emitted 19)|apply (trio_emitted 11)|]; vm_compute; reflexivity.
Defined.

(** ** Inputs the structural audit rejects *)

(** An elected leader with a committed entry that is asked for two linearizable
    reads under one identity. *)
Definition repeated_read : list Input :=
  [Tick; Tick; Tick;
   InputMessage 2 (MPreVoteResponse
     {| pvr_term := 1; pvr_voter_id := 2; pvr_vote_granted := true |});
   InputMessage 2 (MRequestVoteResponse
     {| rvr_term := 1; rvr_voter_id := 2; rvr_vote_granted := true |});
   InputMessage 2 (MAppendEntriesResponse
     {| aer_term := 1; aer_follower_id := 2; aer_success := true; aer_match_index := 1;
        aer_sequence := 0 |});
   ReadIndex 5; ReadIndex 5].

(** A follower that receives a snapshot whose recorded configuration lies above
    its boundary. *)
Definition late_configuration : list Input :=
  [InputMessage 2 (MInstallSnapshot
     {| is_term := 1; is_leader_id := 2;
        is_metadata :=
          {| group_id := {| group_id_str := [97] |}; writer_id := 2; last_included_index := 2;
             last_included_term := 1; hard_state_term := 1;
             application := {| app_kind := {| application_kind_str := [97] |};
                               app_version := {| application_version := 1 |} |};
             metadata_committed_configuration :=
               Some {| scc_configuration := Some {| cc_index := 9; cc_config_id := 1 |};
                       scc_membership := trio_membership |} |};
        is_application_payload := [] |})].

