(* ===== verification/Wire.v ===== *)
(** * Wire primitives

    Models [crates/rafter-codec/src/wire.rs] and the error types of
    [error.rs]: big-endian writers over a counting or a vector sink, and a
    reader over a frame.  An encoder threads its sink and may stop with an
    error; a decoder threads its reader. *)

From stdpp Require Import base list numbers option.
From Stdlib Require Import Strings.Byte Strings.String.
From S2P Require Import Prelude.
From S2P Require Import Types.
From S2P Require Import Snapshot.

(** ** Errors *)

Inductive EncodePeerMessageError :=
| FieldTooLarge (field : string) (len max : usize)
| UnsupportedMessage (message reason : string).

Inductive DecodePeerMessageError :=
| UnexpectedEof (needed remaining : usize)
| InvalidMagic (magic : list u8)
| UnsupportedVersion (version : u8)
| UnknownMessageType (message_type : u8)
| InvalidBoolean (value : u8)
| InvalidUtf8 (field : string)
| InvalidSnapshotGroupId (error : SnapshotIdError)
| InvalidApplicationSnapshotKind (error : SnapshotIdError)
| InvalidApplicationSnapshotVersion (error : SnapshotMetadataError)
| InvalidSnapshotMetadata (error : SnapshotMetadataError)
| InvalidMembership (error : MembershipValidationError)
| NonCanonicalMembershipOrder (field : string)
| UnknownLogEntryKind (kind : u8)
| UnknownMembershipKind (kind : u8)
| FrameChecksumMismatch (expected actual : u32)
| TrailingBytes (remaining : usize).

(** ** Big-endian integers *)

(** [n as u8]. *)
Definition as_u8 (n : N) : u8 := default x00 (Byte.of_N (n mod 256)).

(** [to_be_bytes] of an integer of [width] bytes. *)
Fixpoint be_bytes (width : nat) (value : N) : list u8 :=
  match width with
  | 0%nat => []
  | S width => as_u8 (value / 256 ^ N.of_nat width) :: be_bytes width value
  end.

(** [from_be_bytes]. *)
Definition from_be (bytes : list u8) : N :=
  fold_left (fun value byte => value * 256 + Byte.to_N byte) bytes 0.

(** ** Sinks *)

Class Sink (S : Type) := {
  sink_position : S -> usize;
  sink_write : S -> list u8 -> S;
}.

Record CountingSink := { counted : usize }.

#[export] Instance CountingSink_sink : Sink CountingSink := {|
  sink_position := counted;
  sink_write := fun s bytes => {| counted := u64_saturating_add (counted s) (length_u64 bytes) |};
|}.

Record VecSink := { sink_bytes : list u8 }.

#[export] Instance VecSink_sink : Sink VecSink := {|
  sink_position := fun s => length_u64 (sink_bytes s);
  sink_write := fun s bytes => {| sink_bytes := sink_bytes s ++ bytes |};
|}.

(** ** Writers *)

Definition enc (S : Type) : Type := S -> S * result unit EncodePeerMessageError.

Definition enc_done {S} : enc S := fun w => (w, Ok tt).
Definition enc_fail {S} (error : EncodePeerMessageError) : enc S := fun w => (w, Err error).

(** A statement and the ones after it; [?] stops at an error. *)
Definition enc_seq {S} (first rest : enc S) : enc S := fun w =>
  match first w with
  | (w, Ok _) => rest w
  | (w, Err error) => (w, Err error)
  end.

Notation "e1 ';;w' e2" := (enc_seq e1 e2) (at level 100, right associativity) : rafter_scope.

(** A [for] loop over a slice. *)
Fixpoint enc_each {A S} (encode : A -> enc S) (items : list A) : enc S :=
  match items with
  | [] => enc_done
  | item :: rest => encode item ;;w enc_each encode rest
  end.

Section writer.
Context {S : Type} `{Sink S}.

Definition write_bytes (bytes : list u8) : enc S := fun w => (sink_write w bytes, Ok tt).
Definition write_u8 (value : u8) : enc S := write_bytes [value].
Definition write_bool (value : bool) : enc S := write_u8 (if value then x01 else x00).
Definition write_u16 (value : N) : enc S := write_bytes (be_bytes 2 value).
Definition write_u32 (value : u32) : enc S := write_bytes (be_bytes 4 value).
Definition write_u64 (value : u64) : enc S := write_bytes (be_bytes 8 value).

Definition length_u16 (field : string) (len : usize) : enc S :=
  if len <=? 65535 then write_u16 len else enc_fail (FieldTooLarge field len 65535).

Definition length_u32 (field : string) (len : usize) : enc S :=
  if len <=? 4294967295 then write_u32 len else enc_fail (FieldTooLarge field len 4294967295).

Definition write_string (field : string) (value : list N) : enc S :=
  length_u16 field (str_len value) ;;w write_bytes (as_u8 <$> str_bytes value).

Definition write_blob (field : string) (value : list u8) : enc S :=
  length_u32 field (length_u64 value) ;;w write_bytes value.
End writer.

(** ** Readers *)

Record Reader := {
  rd_payload : list u8;
  rd_position : usize;
}.

Definition Reader_new (payload : list u8) : Reader := {| rd_payload := payload; rd_position := 0 |}.

Definition remaining (r : Reader) : usize := length_u64 (rd_payload r) - rd_position r.

(** The errors a reader itself raises. *)
Class ReaderError (E : Type) := {
  eof : usize -> usize -> E;
  trailing : usize -> E;
}.

#[export] Instance peer_reader_error : ReaderError DecodePeerMessageError := {|
  eof := UnexpectedEof;
  trailing := TrailingBytes;
|}.

Definition rdec (E A : Type) : Type := Reader -> result (A * Reader) E.

(** The decoders of the peer wire format. *)
Abbreviation dec := (rdec DecodePeerMessageError).

Definition dec_ret {E A} (a : A) : rdec E A := fun r => Ok (a, r).
Definition dec_fail {E A} (error : E) : rdec E A := fun _ => Err error.
Definition dec_bind {E A B} (d : rdec E A) (k : A -> rdec E B) : rdec E B := fun r =>
  match d r with Ok (a, r) => k a r | Err error => Err error end.

(** A value computed without the reader, with [?] or [map_err]. *)
Definition dec_lift {E A} (a : result A E) : rdec E A := fun r =>
  match a with Ok a => Ok (a, r) | Err error => Err error end.

Notation "'let!' x ':=' d 'in' k" := (dec_bind d (fun x => k))
  (at level 10, x pattern, k at level 200) : rafter_scope.

(** [&bytes[range]], within bounds. *)
Definition slice (bytes : list u8) (range : usize * usize) : list u8 :=
  take (N.to_nat (range.2 - range.1)) (drop (N.to_nat range.1) bytes).

Section reader.
Context {E : Type} `{!ReaderError E}.

Definition finish (r : Reader) : result unit E :=
  if remaining r =? 0 then Ok tt else Err (trailing (remaining r)).

Definition take_range (len : usize) : rdec E (usize * usize) := fun r =>
  if remaining r <? len then Err (eof len (remaining r))
  else
    let start := rd_position r in
    let r := {| rd_payload := rd_payload r; rd_position := rd_position r + len |} in
    Ok ((start, rd_position r), r).

Definition read_take (len : usize) : rdec E (list u8) := fun r =>
  match take_range len r with
  | Ok (range, r') => Ok (slice (rd_payload r) range, r')
  | Err error => Err error
  end.

Definition array_4 : rdec E (list u8) := read_take 4.

Definition read_u8 : rdec E u8 :=
  let! bytes := read_take 1 in dec_ret (default x00 (bytes !! 0%nat)).
Definition read_u16 : rdec E N := let! bytes := read_take 2 in dec_ret (from_be bytes).
Definition read_u32 : rdec E u32 := let! bytes := read_take 4 in dec_ret (from_be bytes).
Definition read_u64 : rdec E u64 := let! bytes := read_take 8 in dec_ret (from_be bytes).
End reader.

Definition read_bool : dec bool :=
  let! value := read_u8 in
  match value with
  | x00 => dec_ret false
  | x01 => dec_ret true
  | other => dec_fail (InvalidBoolean other)
  end.

(** [str::from_utf8], as the scalar values of the string. *)
Definition continuation (b : N) : bool := (128 <=? b) && (b <=? 191).

Fixpoint from_utf8 (bytes : list u8) : option (list N) :=
  match bytes with
  | [] => Some []
  | first :: rest =>
      let a := Byte.to_N first in
      if a <? 128 then cons a <$> from_utf8 rest
      else
        match rest with
        | second :: rest =>
            let b := Byte.to_N second in
            if (194 <=? a) && (a <=? 223) then
              if continuation b then cons ((a - 192) * 64 + (b - 128)) <$> from_utf8 rest else None
            else
              match rest with
              | third :: rest =>
                  let c := Byte.to_N third in
                  if (224 <=? a) && (a <=? 239) then
                    if (if a =? 224 then (160 <=? b) && (b <=? 191)
                        else if a =? 237 then (128 <=? b) && (b <=? 159)
                        else continuation b) && continuation c
                    then cons ((a - 224) * 4096 + (b - 128) * 64 + (c - 128)) <$> from_utf8 rest
                    else None
                  else
                    match rest with
                    | fourth :: rest =>
                        let d := Byte.to_N fourth in
                        if (240 <=? a) && (a <=? 244)
                           && (if a =? 240 then (144 <=? b) && (b <=? 191)
                               else if a =? 244 then (128 <=? b) && (b <=? 143)
                               else continuation b)
                           && continuation c && continuation d
                        then cons ((a - 240) * 262144 + (b - 128) * 4096 + (c - 128) * 64 + (d - 128))
                               <$> from_utf8 rest
                        else None
                    | [] => None
                    end
              | [] => None
              end
        | [] => None
        end
  end.

(** A length-prefixed string of UTF-8. *)
Definition read_str {E} `{!ReaderError E} (invalid_utf8 : E) : rdec E (list N) :=
  let! len := read_u16 in
  let! bytes := read_take len in
  match from_utf8 bytes with
  | Some value => dec_ret value
  | None => dec_fail invalid_utf8
  end.

Definition read_string (field : string) : dec (list N) := read_str (InvalidUtf8 field).

Definition blob_bytes : dec (list u8) := let! len := read_u32 in read_take len.
Definition read_blob : dec (list u8) := blob_bytes.

(** The frame and the range of a length-prefixed field of it. *)
Definition shared_blob_range : dec (list u8 * (usize * usize)) :=
  let! len := read_u32 in
  let! range := take_range len in
  fun r => Ok ((rd_payload r, range), r).
