(* ===== verification/CodecV1.v ===== *)
(** * Version 1 message grammar

    Models [crates/rafter-codec/src/v1/]: the discriminants ([tags.rs]),
    memberships ([membership.rs]), log entries and appends ([append.rs]),
    snapshot chunks and metadata ([snapshot.rs]) and the message dispatch
    ([message.rs]). *)

From stdpp Require Import base list numbers option.
From Stdlib Require Import Strings.Byte Strings.String.
From S2P Require Import Prelude.
From S2P Require Import Types.
From S2P Require Import Snapshot.
From S2P Require Import Message.
From S2P Require Import Wire.

(** ** Tags *)

Inductive MessageTag :=
| Tag_RequestVote | Tag_RequestVoteResponse | Tag_AppendEntries | Tag_AppendEntriesResponse
| Tag_InstallSnapshotResponse | Tag_InstallSnapshotChunk | Tag_PreVote | Tag_PreVoteResponse
| Tag_TimeoutNow.

Definition MessageTag_into (tag : MessageTag) : u8 :=
  match tag with
  | Tag_RequestVote => x01
  | Tag_RequestVoteResponse => x02
  | Tag_AppendEntries => x03
  | Tag_AppendEntriesResponse => x04
  | Tag_InstallSnapshotResponse => x06
  | Tag_InstallSnapshotChunk => x07
  | Tag_PreVote => x08
  | Tag_PreVoteResponse => x09
  | Tag_TimeoutNow => x0a
  end.

Definition MessageTag_try_from (value : u8) : result MessageTag DecodePeerMessageError :=
  match value with
  | x01 => Ok Tag_RequestVote
  | x02 => Ok Tag_RequestVoteResponse
  | x03 => Ok Tag_AppendEntries
  | x04 => Ok Tag_AppendEntriesResponse
  | x06 => Ok Tag_InstallSnapshotResponse
  | x07 => Ok Tag_InstallSnapshotChunk
  | x08 => Ok Tag_PreVote
  | x09 => Ok Tag_PreVoteResponse
  | x0a => Ok Tag_TimeoutNow
  | other => Err (UnknownMessageType other)
  end.

Inductive LogEntryTag :=
| Tag_Application | Tag_ConfigurationStable | Tag_ConfigurationJoint | Tag_Noop.

Definition LogEntryTag_into (tag : LogEntryTag) : u8 :=
  match tag with
  | Tag_Application => x00
  | Tag_ConfigurationStable => x01
  | Tag_ConfigurationJoint => x02
  | Tag_Noop => x03
  end.

Definition LogEntryTag_try_from (value : u8) : result LogEntryTag DecodePeerMessageError :=
  match value with
  | x00 => Ok Tag_Application
  | x01 => Ok Tag_ConfigurationStable
  | x02 => Ok Tag_ConfigurationJoint
  | x03 => Ok Tag_Noop
  | other => Err (UnknownLogEntryKind other)
  end.

Inductive MembershipTag := Tag_Stable | Tag_Joint.

Definition MembershipTag_into (tag : MembershipTag) : u8 :=
  match tag with Tag_Stable => x00 | Tag_Joint => x01 end.

Definition MembershipTag_try_from (value : u8) : result MembershipTag DecodePeerMessageError :=
  match value with
  | x00 => Ok Tag_Stable
  | x01 => Ok Tag_Joint
  | other => Err (UnknownMembershipKind other)
  end.

(** ** Encoding *)

Section encode.
Context {S : Type} `{Sink S}.

Definition encode_set (membership : MembershipSet) : enc S :=
  length_u16 "membership_voter_count" (length_u64 (voters membership)) ;;w
  enc_each write_u64 (voters membership) ;;w
  length_u16 "membership_learner_count" (length_u64 (learners membership)) ;;w
  enc_each write_u64 (learners membership).

Definition encode_config (membership : MembershipConfig) : enc S :=
  match membership with
  | Stable stable =>
      write_u8 (MembershipTag_into Tag_Stable) ;;w
      encode_set stable
  | Joint joint =>
      write_u8 (MembershipTag_into Tag_Joint) ;;w
      encode_set (old joint) ;;w
      encode_set (new_membership joint)
  end.

Definition encode_log_entry (entry : LogEntry) : enc S :=
  write_u64 (entry_term entry) ;;w
  match entry_kind entry with
  | Application payload =>
      write_u8 (LogEntryTag_into Tag_Application) ;;w
      write_blob "entry_payload" payload
  | Configuration (StableEntry config_id membership) =>
      write_u8 (LogEntryTag_into Tag_ConfigurationStable) ;;w
      write_u64 config_id ;;w
      encode_set membership
  | Configuration (JointEntry config_id membership) =>
      write_u8 (LogEntryTag_into Tag_ConfigurationJoint) ;;w
      write_u64 config_id ;;w
      encode_set (old membership) ;;w
      encode_set (new_membership membership)
  | Noop => write_u8 (LogEntryTag_into Tag_Noop)
  end.

Definition encode_append_request (request : AppendEntries) : enc S :=
  write_u64 (ae_term request) ;;w
  write_u64 (ae_leader_id request) ;;w
  write_u64 (ae_prev_log_index request) ;;w
  write_u64 (ae_prev_log_term request) ;;w
  length_u32 "entry_count" (length_u64 (ae_entries request)) ;;w
  enc_each encode_log_entry (ae_entries request) ;;w
  write_u64 (ae_leader_commit request) ;;w
  write_u64 (ae_sequence request).

Definition encode_append_response (response : AppendEntriesResponse) : enc S :=
  write_u64 (aer_term response) ;;w
  write_u64 (aer_follower_id response) ;;w
  write_bool (aer_success response) ;;w
  write_u64 (aer_match_index response) ;;w
  write_u64 (aer_sequence response).

Definition encode_committed_configuration (committed : option SnapshotCommittedConfiguration)
  : enc S :=
  write_bool (is_some committed) ;;w
  match committed with
  | Some committed =>
      write_bool (is_some (scc_configuration committed)) ;;w
      match scc_configuration committed with
      | Some configuration =>
          write_u64 (cc_index configuration) ;;w
          write_u64 (cc_config_id configuration)
      | None => enc_done
      end ;;w
      encode_config (scc_membership committed)
  | None => enc_done
  end.

Definition encode_metadata (metadata : RaftSnapshotMetadata) : enc S :=
  write_string "snapshot_group_id" (group_id_str (group_id metadata)) ;;w
  write_u64 (writer_id metadata) ;;w
  write_u64 (last_included_index metadata) ;;w
  write_u64 (last_included_term metadata) ;;w
  write_u64 (hard_state_term metadata) ;;w
  write_string "application_snapshot_kind"
    (application_kind_str (app_kind (application metadata))) ;;w
  write_u16 (application_version (app_version (application metadata))) ;;w
  encode_committed_configuration (metadata_committed_configuration metadata).

Definition encode_chunk (request : InstallSnapshotChunk) : enc S :=
  write_u64 (isc_term request) ;;w
  write_u64 (isc_leader_id request) ;;w
  write_u64 (isc_transfer_id request) ;;w
  encode_metadata (isc_metadata request) ;;w
  write_u64 (isc_total_payload_len request) ;;w
  write_u32 (isc_application_payload_crc32 request) ;;w
  write_u64 (isc_offset request) ;;w
  write_blob "install_snapshot_chunk" (isc_chunk request) ;;w
  write_bool (isc_done request).

Definition encode_snapshot_response (response : InstallSnapshotResponse) : enc S :=
  write_u64 (isr_term response) ;;w
  write_u64 (isr_follower_id response) ;;w
  write_bool (isr_success response) ;;w
  write_u64 (isr_last_included_index response) ;;w
  write_bool (is_some (isr_transfer_id response)) ;;w
  match isr_transfer_id response with
  | Some transfer_id => write_u64 transfer_id
  | None => enc_done
  end ;;w
  write_u64 (isr_next_offset response).

(** The tag of a message, or the error of the one that has none. *)
Definition message_tag (message : Message) : result MessageTag EncodePeerMessageError :=
  match message with
  | MRequestVote _ => Ok Tag_RequestVote
  | MRequestVoteResponse _ => Ok Tag_RequestVoteResponse
  | MAppendEntries _ => Ok Tag_AppendEntries
  | MAppendEntriesResponse _ => Ok Tag_AppendEntriesResponse
  | MInstallSnapshot _ =>
      Err (UnsupportedMessage "InstallSnapshot" "use InstallSnapshotChunk for peer transport")
  | MInstallSnapshotResponse _ => Ok Tag_InstallSnapshotResponse
  | MInstallSnapshotChunk _ => Ok Tag_InstallSnapshotChunk
  | MPreVote _ => Ok Tag_PreVote
  | MPreVoteResponse _ => Ok Tag_PreVoteResponse
  | MTimeoutNow _ => Ok Tag_TimeoutNow
  end.

(** The fields after the tag; the whole-snapshot form never gets here. *)
Definition encode_fields (message : Message) : enc S :=
  match message with
  | MRequestVote request =>
      write_u64 (rv_term request) ;;w
      write_u64 (rv_candidate_id request) ;;w
      write_u64 (rv_last_log_index request) ;;w
      write_u64 (rv_last_log_term request)
  | MRequestVoteResponse response =>
      write_u64 (rvr_term response) ;;w
      write_u64 (rvr_voter_id response) ;;w
      write_bool (rvr_vote_granted response)
  | MAppendEntries request => encode_append_request request
  | MAppendEntriesResponse response => encode_append_response response
  | MInstallSnapshot _ => enc_done
  | MInstallSnapshotResponse response => encode_snapshot_response response
  | MInstallSnapshotChunk request => encode_chunk request
  | MPreVote request =>
      write_u64 (pv_term request) ;;w
      write_u64 (pv_candidate_id request) ;;w
      write_u64 (pv_last_log_index request) ;;w
      write_u64 (pv_last_log_term request)
  | MPreVoteResponse response =>
      write_u64 (pvr_term response) ;;w
      write_u64 (pvr_voter_id response) ;;w
      write_bool (pvr_vote_granted response)
  | MTimeoutNow request =>
      write_u64 (tn_term request) ;;w
      write_u64 (tn_leader_id request)
  end.

Definition encode_payload (message : Message) : enc S :=
  match message_tag message with
  | Ok tag => write_u8 (MessageTag_into tag) ;;w encode_fields message
  | Err error => enc_fail error
  end.
End encode.

(** ** Decoding *)

Definition NODE_ID_BYTES : usize := 8.
Definition MIN_ENCODED_LOG_ENTRY_BYTES : usize := 8 + 1.

(** A loop that pushes [count] decoded items. *)
Fixpoint dec_times {A} (count : nat) (decode : dec A) : dec (list A) :=
  match count with
  | 0%nat => dec_ret []
  | S count =>
      let! item := decode in
      let! items := dec_times count decode in
      dec_ret (item :: items)
  end.

(** The nodes reserved before the loop of [decode_node_set]. *)
Definition membership_node_capacity (count remaining : usize) : usize :=
  N.min count (remaining / NODE_ID_BYTES).

Definition decode_node_set : dec (list NodeId) :=
  let! count := read_u16 in
  dec_times (N.to_nat count) read_u64.

(** [nodes.windows(2).any(|pair| pair[0] > pair[1])] *)
Fixpoint any_descent (nodes : list NodeId) : bool :=
  match nodes with
  | first :: rest =>
      match rest with
      | second :: _ => (second <? first) || any_descent rest
      | [] => false
      end
  | [] => false
  end.

Definition require_canonical_order (nodes : list NodeId) (field : string)
  : result unit DecodePeerMessageError :=
  if any_descent nodes then Err (NonCanonicalMembershipOrder field) else Ok tt.

Definition decode_set : dec MembershipSet :=
  let! voters := decode_node_set in
  let! learners := decode_node_set in
  let! _ := dec_lift (require_canonical_order voters "membership_voters") in
  let! _ := dec_lift (require_canonical_order learners "membership_learners") in
  dec_lift (map_err InvalidMembership (MembershipSet_new voters learners)).

Definition codec_joint (old new : MembershipSet) : JointMembership :=
  {| old := old; new_membership := new |}.

Definition decode_config : dec MembershipConfig :=
  let! value := read_u8 in
  let! tag := dec_lift (MembershipTag_try_from value) in
  match tag with
  | Tag_Stable => let! set := decode_set in dec_ret (Stable set)
  | Tag_Joint =>
      let! old := decode_set in
      let! new := decode_set in
      dec_ret (Joint (codec_joint old new))
  end.

(** [SharedPayload::from_shared_range], as the slice it denotes. *)
Definition from_shared_range (bytes : list u8) (range : usize * usize) : option (list u8) :=
  if (range.1 <=? range.2) && (range.2 <=? length_u64 bytes) then Some (slice bytes range) else None.

Definition decode_log_entry : dec LogEntry :=
  let! term := read_u64 in
  let! value := read_u8 in
  let! tag := dec_lift (LogEntryTag_try_from value) in
  match tag with
  | Tag_Application =>
      let! blob := shared_blob_range in
      let '(bytes, range) := blob in
      let needed := range.2 in
      let remaining := length_u64 bytes in
      match from_shared_range bytes range with
      | Some payload => dec_ret (LogEntry_application term payload)
      | None => dec_fail (UnexpectedEof needed remaining)
      end
  | Tag_ConfigurationStable =>
      let! config_id := read_u64 in
      let! membership := decode_set in
      dec_ret (LogEntry_configuration term (StableEntry config_id membership))
  | Tag_ConfigurationJoint =>
      let! config_id := read_u64 in
      let! old := decode_set in
      let! new := decode_set in
      dec_ret (LogEntry_configuration term (JointEntry config_id (codec_joint old new)))
  | Tag_Noop => dec_ret (LogEntry_noop term)
  end.

(** [entry_size] is [size_of::<LogEntry>()], a property of the build. *)
Definition append_entries_entry_capacity (entry_size entry_count remaining : usize) : usize :=
  let by_wire := remaining / MIN_ENCODED_LOG_ENTRY_BYTES in
  let by_heap := remaining / entry_size in
  N.min (N.min entry_count by_wire) by_heap.

(** The scan of [entry_reservation]: entries decoded before the first error. *)
Fixpoint probe_entries (entry_count : nat) (probe : Reader) : usize :=
  match entry_count with
  | 0%nat => 0
  | S entry_count =>
      match decode_log_entry probe with
      | Ok (_, probe) => 1 + probe_entries entry_count probe
      | Err _ => 0
      end
  end.

(** The entries reserved before the loop of [decode_append_request]. *)
Definition entry_reservation (entry_size entry_count : usize) (reader : Reader) : usize :=
  if append_entries_entry_capacity entry_size entry_count (remaining reader) =? entry_count
  then entry_count
  else probe_entries (N.to_nat entry_count) reader.

Definition decode_append_request : dec AppendEntries :=
  let! term := read_u64 in
  let! leader_id := read_u64 in
  let! prev_log_index := read_u64 in
  let! prev_log_term := read_u64 in
  let! entry_count := read_u32 in
  let! entries := dec_times (N.to_nat entry_count) decode_log_entry in
  let! leader_commit := read_u64 in
  let! sequence := read_u64 in
  dec_ret {| ae_term := term; ae_leader_id := leader_id; ae_prev_log_index := prev_log_index;
             ae_prev_log_term := prev_log_term; ae_sequence := sequence; ae_entries := entries;
             ae_leader_commit := leader_commit |}.

Definition decode_append_response : dec AppendEntriesResponse :=
  let! term := read_u64 in
  let! follower_id := read_u64 in
  let! success := read_bool in
  let! match_index := read_u64 in
  let! sequence := read_u64 in
  dec_ret {| aer_term := term; aer_follower_id := follower_id; aer_success := success;
             aer_match_index := match_index; aer_sequence := sequence |}.

Definition decode_optional {A} (decode : dec A) : dec (option A) :=
  let! present := read_bool in
  if present then let! value := decode in dec_ret (Some value) else dec_ret None.

Definition decode_configuration_identity : dec CommittedConfiguration :=
  let! index := read_u64 in
  let! config_id := read_u64 in
  dec_ret {| cc_index := index; cc_config_id := config_id |}.

Definition decode_committed_configuration : dec (option SnapshotCommittedConfiguration) :=
  let! present := read_bool in
  if negb present then dec_ret None
  else
    let! configuration := decode_optional decode_configuration_identity in
    let! membership := decode_config in
    dec_ret (Some {| scc_configuration := configuration; scc_membership := membership |}).

Definition decode_metadata : dec RaftSnapshotMetadata :=
  let! group := read_string "snapshot_group_id" in
  let! group_id := dec_lift (map_err InvalidSnapshotGroupId (SnapshotGroupId_new group)) in
  let! writer_id := read_u64 in
  let! last_included_index := read_u64 in
  let! last_included_term := read_u64 in
  let! hard_state_term := read_u64 in
  let! kind := read_string "application_snapshot_kind" in
  let! application_kind :=
    dec_lift (map_err InvalidApplicationSnapshotKind (ApplicationSnapshotKind_new kind)) in
  let! version := read_u16 in
  let! application_version :=
    dec_lift (map_err InvalidApplicationSnapshotVersion (ApplicationSnapshotVersion_new version)) in
  let! committed_configuration := decode_committed_configuration in
  let! metadata :=
    dec_lift (map_err InvalidSnapshotMetadata
      (RaftSnapshotMetadata_new group_id writer_id last_included_index last_included_term
         hard_state_term {| app_kind := application_kind; app_version := application_version |})) in
  dec_ret (match committed_configuration with
           | Some committed_configuration =>
               with_committed_configuration metadata committed_configuration
           | None => metadata
           end).

Definition decode_chunk : dec InstallSnapshotChunk :=
  let! term := read_u64 in
  let! leader_id := read_u64 in
  let! transfer_id := read_u64 in
  let! metadata := decode_metadata in
  let! total_payload_len := read_u64 in
  let! application_payload_crc32 := read_u32 in
  let! offset := read_u64 in
  let! chunk := read_blob in
  let! done := read_bool in
  dec_ret {| isc_term := term; isc_leader_id := leader_id; isc_transfer_id := transfer_id;
             isc_metadata := metadata; isc_total_payload_len := total_payload_len;
             isc_application_payload_crc32 := application_payload_crc32; isc_offset := offset;
             isc_chunk := chunk; isc_done := done |}.

Definition decode_snapshot_response : dec InstallSnapshotResponse :=
  let! term := read_u64 in
  let! follower_id := read_u64 in
  let! success := read_bool in
  let! last_included_index := read_u64 in
  let! transfer_id := decode_optional read_u64 in
  let! next_offset := read_u64 in
  dec_ret {| isr_term := term; isr_follower_id := follower_id; isr_success := success;
             isr_last_included_index := last_included_index; isr_transfer_id := transfer_id;
             isr_next_offset := next_offset |}.

(** The fields after the tag. *)
Definition decode_fields (tag : MessageTag) : dec Message :=
  match tag with
  | Tag_RequestVote =>
      let! term := read_u64 in
      let! candidate_id := read_u64 in
      let! last_log_index := read_u64 in
      let! last_log_term := read_u64 in
      dec_ret (MRequestVote {| rv_term := term; rv_candidate_id := candidate_id;
                               rv_last_log_index := last_log_index;
                               rv_last_log_term := last_log_term |})
  | Tag_RequestVoteResponse =>
      let! term := read_u64 in
      let! voter_id := read_u64 in
      let! vote_granted := read_bool in
      dec_ret (MRequestVoteResponse {| rvr_term := term; rvr_voter_id := voter_id;
                                       rvr_vote_granted := vote_granted |})
  | Tag_AppendEntries => let! request := decode_append_request in dec_ret (MAppendEntries request)
  | Tag_AppendEntriesResponse =>
      let! response := decode_append_response in dec_ret (MAppendEntriesResponse response)
  | Tag_InstallSnapshotResponse =>
      let! response := decode_snapshot_response in dec_ret (MInstallSnapshotResponse response)
  | Tag_InstallSnapshotChunk =>
      let! request := decode_chunk in dec_ret (MInstallSnapshotChunk request)
  | Tag_PreVote =>
      let! term := read_u64 in
      let! candidate_id := read_u64 in
      let! last_log_index := read_u64 in
      let! last_log_term := read_u64 in
      dec_ret (MPreVote {| pv_term := term; pv_candidate_id := candidate_id;
                           pv_last_log_index := last_log_index;
                           pv_last_log_term := last_log_term |})
  | Tag_PreVoteResponse =>
      let! term := read_u64 in
      let! voter_id := read_u64 in
      let! vote_granted := read_bool in
      dec_ret (MPreVoteResponse {| pvr_term := term; pvr_voter_id := voter_id;
                                   pvr_vote_granted := vote_granted |})
  | Tag_TimeoutNow =>
      let! term := read_u64 in
      let! leader_id := read_u64 in
      dec_ret (MTimeoutNow {| tn_term := term; tn_leader_id := leader_id |})
  end.

Definition decode_payload : dec Message :=
  let! value := read_u8 in
  let! tag := dec_lift (MessageTag_try_from value) in
  decode_fields tag.
