(* ===== verification/Frame.v ===== *)
(** * Peer message frames

    Models [crates/rafter-codec/src/frame.rs] and [limits.rs]: the envelope
    with magic, version and checksum, and the receive limit of a transport. *)

From stdpp Require Import base list numbers option.
From Stdlib Require Import Strings.Byte Strings.String.
From S2P Require Import Prelude.
From S2P Require Import Types.
From S2P Require Import Crc32.
From S2P Require Import Snapshot.
From S2P Require Import Message.
From S2P Require Import Wire.
From S2P Require Import CodecV1.

(** [*b"RFPM"] *)
Definition MAGIC : list u8 := [x52; x46; x50; x4d].
Definition VERSION : u8 := x01.

Definition encode_frame_body {S} `{Sink S} (message : Message) : enc S :=
  write_bytes MAGIC ;;w
  write_u8 VERSION ;;w
  encode_payload message.

(** The bytes reserved before encoding: the counted body and the checksum. *)
Definition encode_reservation (message : Message) : usize :=
  u64_saturating_add (sink_position (encode_frame_body message {| counted := 0 |}).1) 4.

(** The buffer after the call, and its result. *)
Definition encode_message_into (output : list u8) (message : Message)
  : list u8 * result unit EncodePeerMessageError :=
  let output := [] in
  match encode_frame_body message {| counted := 0 |} with
  | (_, Err error) => (output, Err error)
  | (_, Ok _) =>
      match encode_frame_body message {| sink_bytes := output |} with
      | (_, Err error) => ([], Err error)
      | (writer, Ok _) =>
          let output := sink_bytes writer in
          let checksum := frame_crc32 output in
          (output ++ be_bytes 4 checksum, Ok tt)
      end
  end.

Definition encode_message (message : Message) : result (list u8) EncodePeerMessageError :=
  match encode_message_into [] message with
  | (encoded, Ok _) => Ok encoded
  | (_, Err error) => Err error
  end.

Definition decode_message (payload : list u8) : result Message DecodePeerMessageError :=
  let reader := Reader_new payload in
  let? (magic, reader) := array_4 reader in
  if negb (bool_decide (magic = MAGIC)) then Err (InvalidMagic magic)
  else
    let? (version, reader) := read_u8 reader in
    if negb (bool_decide (version = VERSION)) then Err (UnsupportedVersion version)
    else
      let? (message, reader) := decode_payload reader in
      let checksum_start := rd_position reader in
      let? (expected, reader) := read_u32 reader in
      let actual := frame_crc32 (take (N.to_nat checksum_start) payload) in
      if negb (expected =? actual) then Err (FrameChecksumMismatch expected actual)
      else
        let? _ := finish reader in
        Ok message.

(** ** Receive limits *)

Definition APPLICATION_APPEND_FRAME_OVERHEAD_BYTES : usize := 11.
Definition MAX_CONFIGURATION_APPEND_FRAME_BYTES : usize := 2097207.
Definition MAX_INSTALL_SNAPSHOT_CHUNK_FRAME_BYTES : usize := 2163036.

Definition MAX_MEMBERSHIP_DRIVEN_FRAME_BYTES : usize :=
  if MAX_INSTALL_SNAPSHOT_CHUNK_FRAME_BYTES <? MAX_CONFIGURATION_APPEND_FRAME_BYTES
  then MAX_CONFIGURATION_APPEND_FRAME_BYTES else MAX_INSTALL_SNAPSHOT_CHUNK_FRAME_BYTES.

Definition max_receive_frame_bytes (max_append_entries_bytes : usize) : usize :=
  let application :=
    u64_saturating_add max_append_entries_bytes APPLICATION_APPEND_FRAME_OVERHEAD_BYTES in
  if MAX_MEMBERSHIP_DRIVEN_FRAME_BYTES <? application
  then application else MAX_MEMBERSHIP_DRIVEN_FRAME_BYTES.
