(* ===== verification/Grammar.v ===== *)
(** * Grammars of decoders

    What a decoder accepts, as a relation between values and the bytes they are
    read from.  A decoder with a grammar reads exactly the bytes the grammar
    relates to a value, accepts nothing else, and reports an unexpected end on
    every proper prefix.  Grammars compose along the decoder's own
    composition. *)

From stdpp Require Import base list numbers option.
From Stdlib Require Import Strings.Byte.
From S2P Require Import Prelude.
From S2P Require Import Types.
From S2P Require Import Snapshot.
From S2P Require Import Wire.
From S2P Require Import CodecV1.

(** A reader that has consumed [pre] and has [post] left. *)
Definition reader_at (pre post : list u8) : Reader :=
  {| rd_payload := pre ++ post; rd_position := length_u64 pre |}.

(** A proper prefix. *)
Definition cut_short (p bs : list u8) : Prop := p `prefix_of` bs /\ (length p < length bs)%nat.

Class Grammar {E A} `{!ReaderError E} (d : rdec E A) (G : A -> list u8 -> Prop) : Prop := {
  grammar_reads : forall a bs, G a bs -> forall pre post,
    d (reader_at pre (bs ++ post)) = Ok (a, reader_at (pre ++ bs) post);
  grammar_sound : forall pre rest a r, d (reader_at pre rest) = Ok (a, r) ->
    exists bs post, rest = bs ++ post /\ r = reader_at (pre ++ bs) post /\ G a bs;
  grammar_short : forall a bs, G a bs -> forall pre p, cut_short p bs ->
    exists needed left, d (reader_at pre p) = Err (eof needed left);
}.

Lemma length_u64_app {A} (l k : list A) : length_u64 (l ++ k) = length_u64 l + length_u64 k.
Proof. unfold length_u64. rewrite length_app. lia. Qed.

Lemma remaining_at pre post : remaining (reader_at pre post) = length_u64 post.
Proof. unfold remaining. simpl. rewrite length_u64_app. lia. Qed.

Lemma Grammar_iff {E A} `{!ReaderError E} (d : rdec E A) G G' :
  Grammar d G -> (forall a bs, G a bs <-> G' a bs) -> Grammar d G'.
Proof.
  intros [Hr Hs Hc] Heq. split.
  - intros a bs H%Heq. by apply Hr.
  - intros pre rest a r (bs & post & ? & ? & H%Heq)%Hs. by exists bs, post.
  - intros a bs H%Heq. by eapply Hc.
Qed.

(** ** Composition *)

Definition bind_grammar {A B} (G : A -> list u8 -> Prop) (H : A -> B -> list u8 -> Prop)
    (b : B) (bs : list u8) : Prop :=
  exists a bs1 bs2, bs = bs1 ++ bs2 /\ G a bs1 /\ H a b bs2.

Definition ret_grammar {A} (a x : A) (bs : list u8) : Prop := x = a /\ bs = [].

Definition lift_grammar {E A} (r : result A E) (x : A) (bs : list u8) : Prop :=
  r = Ok x /\ bs = [].

Lemma not_cut_nil p : ~ cut_short p [].
Proof. intros [_ H]. simpl in H. lia. Qed.

#[export] Instance ret_Grammar {E A} `{!ReaderError E} (a : A) : Grammar (E := E) (dec_ret a) (ret_grammar a).
Proof.
  split.
  - intros x bs [-> ->] pre post. by rewrite app_nil_r.
  - intros pre rest x r [= <- <-]. exists [], rest. rewrite app_nil_r. by split_and!.
  - intros x bs [_ ->] pre p []%not_cut_nil.
Qed.

#[export] Instance lift_Grammar {E A} `{!ReaderError E} (a : result A E) :
  Grammar (dec_lift a) (lift_grammar a).
Proof.
  unfold dec_lift. split.
  - intros x bs [-> ->] pre post. by rewrite app_nil_r.
  - intros pre rest x r. destruct a as [y|]; [|done]. intros [= <- <-]. exists [], rest.
    rewrite app_nil_r. by split_and!.
  - intros x bs [_ ->] pre p []%not_cut_nil.
Qed.

#[export] Instance fail_Grammar {E A} `{!ReaderError E} (error : E) : Grammar (A := A) (dec_fail error) (fun _ _ => False).
Proof. split; [done|done|done]. Qed.

(** A proper prefix of two parts is one of the first, or ends in the second. *)
Lemma cut_short_app p bs1 bs2 :
  cut_short p (bs1 ++ bs2) -> cut_short p bs1 \/ exists p2, p = bs1 ++ p2 /\ cut_short p2 bs2.
Proof.
  intros [[k Hk] Hl]. destruct (decide (length p < length bs1)%nat) as [Hlt|Hge].
  - left. split; [|done]. exists (take (length bs1 - length p) k).
    pose proof (f_equal (take (length bs1)) Hk) as Ht. 
    rewrite take_app_length, take_app_ge in Ht by lia. done.
  - right. exists (drop (length bs1) p).
    pose proof (f_equal (take (length bs1)) Hk) as Ht. rewrite take_app_length, take_app_le in Ht by lia.
    pose proof (f_equal (drop (length bs1)) Hk) as Hd. rewrite drop_app_length, drop_app_le in Hd by lia.
    rewrite length_app in Hl. split; [by rewrite Ht at 1; rewrite take_drop|]. split; [by exists k|].
    rewrite length_drop. lia.
Qed.

(** The rest of a decoder only has to have a grammar for what was read. *)
Lemma bind_Grammar_read {E A B} `{!ReaderError E} (d : rdec E A) (k : A -> rdec E B) G H :
  Grammar d G -> (forall a bs, G a bs -> Grammar (k a) (H a)) -> Grammar (dec_bind d k) (bind_grammar G H).
Proof.
  intros Hd Hk. unfold dec_bind. split.
  - intros b bs (a & bs1 & bs2 & -> & Ha & Hb) pre post. specialize (Hk _ _ Ha).
    rewrite <- app_assoc, (grammar_reads _ _ Ha), (grammar_reads _ _ Hb). by rewrite <- app_assoc.
  - intros pre rest b r Hr. destruct (d (reader_at pre rest)) as [[a r1]|] eqn:Ed; [|done].
    apply grammar_sound in Ed as (bs1 & post1 & -> & -> & Ha). specialize (Hk _ _ Ha).
    apply grammar_sound in Hr as (bs2 & post & -> & -> & Hb). exists (bs1 ++ bs2), post.
    rewrite <- !app_assoc. split_and!; [done|done|]. by exists a, bs1, bs2.
  - intros b bs (a & bs1 & bs2 & -> & Ha & Hb) pre p Hp.
    specialize (Hk _ _ Ha). apply cut_short_app in Hp as [Hp|(p2 & -> & Hp)].
    + destruct (grammar_short _ _ Ha pre p Hp) as (needed & left & ->). by exists needed, left.
    + rewrite (grammar_reads _ _ Ha). by apply (grammar_short _ _ Hb).
Qed.

#[export] Instance bind_Grammar {E A B} `{!ReaderError E} (d : rdec E A) (k : A -> rdec E B) G H :
  Grammar d G -> (forall a, Grammar (k a) (H a)) -> Grammar (dec_bind d k) (bind_grammar G H).
Proof. intros Hd Hk. by apply bind_Grammar_read. Qed.

(** ** Bytes *)

Lemma slice_at pre bs post :
  slice (pre ++ bs ++ post) (length_u64 pre, length_u64 pre + length_u64 bs) = bs.
Proof.
  unfold slice, length_u64. simpl. rewrite Nat2N.id.
  replace (N.to_nat (N.of_nat (length pre) + N.of_nat (length bs) - N.of_nat (length pre)))
    with (length bs) by lia.
  by rewrite drop_app_length, take_app_length.
Qed.

Lemma reader_at_app pre bs post :
  {| rd_payload := pre ++ bs ++ post; rd_position := length_u64 pre + length_u64 bs |}
  = reader_at (pre ++ bs) post.
Proof. unfold reader_at. by rewrite length_u64_app, <- app_assoc. Qed.

(** A range of [len] bytes, with the bytes. *)
Lemma take_range_at {E} `{!ReaderError E} len pre rest r :
  take_range (E := E) len (reader_at pre rest) = r ->
  (exists bs post, rest = bs ++ post /\ length_u64 bs = len /\
     r = Ok ((length_u64 pre, length_u64 pre + length_u64 bs), reader_at (pre ++ bs) post)) \/
  (length_u64 rest < len /\ r = Err (eof len (length_u64 rest))).
Proof.
  unfold take_range. rewrite remaining_at. destruct (N.ltb_spec (length_u64 rest) len) as [Hlt|Hge];
    intros <-; [by right|]. left.
  exists (take (N.to_nat len) rest), (drop (N.to_nat len) rest).
  assert (length_u64 (take (N.to_nat len) rest) = len) as Hl
    by (unfold length_u64 in *; rewrite length_take; lia).
  rewrite take_drop, Hl. split_and!; [done|done|]. rewrite <- reader_at_app, Hl, take_drop. done.
Qed.

#[export] Instance take_Grammar {E} `{!ReaderError E} len : Grammar (E := E) (read_take len) (fun a bs => a = bs /\ length_u64 bs = len).
Proof.
  unfold read_take. split.
  - intros a bs [-> Hl] pre post. destruct (take_range_at len pre (bs ++ post) _ eq_refl)
      as [(bs1 & post1 & He & Hl1 & ->)|[Hlt _]]; [|rewrite length_u64_app in Hlt; lia].
    apply app_inj_1 in He as [<- <-]; [|unfold length_u64 in *; lia]. simpl. by rewrite slice_at.
  - intros pre rest a r. destruct (take_range_at len pre rest _ eq_refl)
      as [(bs & post & -> & Hl & ->)|[_ ->]]; [|done].
    simpl. rewrite slice_at. intros [= <- <-]. by exists bs, post.
  - intros a bs [-> Hl] pre p [_ Hp]. destruct (take_range_at len pre p _ eq_refl)
      as [(bs1 & post1 & -> & Hl1 & ->)|[_ ->]]; [|by eexists _, _].
    unfold length_u64 in *. rewrite length_app in Hp. lia.
Qed.

(** ** Integers *)

Lemma as_u8_to_N b : as_u8 (Byte.to_N b) = b.
Proof.
  unfold as_u8. pose proof (Byte.to_N_bounded b). rewrite N.mod_small by lia. by rewrite Byte.of_to_N.
Qed.

Lemma to_N_as_u8 n : Byte.to_N (as_u8 n) = n mod 256.
Proof.
  unfold as_u8. destruct (Byte.of_N (n mod 256)) as [b|] eqn:E; [by apply Byte.to_of_N|].
  apply Byte.of_N_None_iff in E. pose proof (N.mod_lt n 256 ltac:(lia)). lia.
Qed.

Lemma length_be_bytes width value : length (be_bytes width value) = width.
Proof. induction width as [|width IH]; simpl; [done|]. by rewrite IH. Qed.

Lemma length_u64_be_bytes width value : length_u64 (be_bytes width value) = N.of_nat width.
Proof. unfold length_u64. by rewrite length_be_bytes. Qed.

Lemma from_be_fold bytes acc :
  fold_left (fun value byte => value * 256 + Byte.to_N byte) bytes acc
  = acc * 256 ^ length_u64 bytes + from_be bytes.
Proof.
  unfold from_be. revert acc. induction bytes as [|b bytes IH]; intros acc; simpl.
  - unfold length_u64. simpl. lia.
  - rewrite (IH (acc * 256 + _)), (IH (0 * 256 + _)).
    replace (length_u64 (b :: bytes)) with (N.succ (length_u64 bytes)) by (unfold length_u64; simpl; lia).
    rewrite N.pow_succ_r'. lia.
Qed.

Lemma from_be_cons b bytes :
  from_be (b :: bytes) = Byte.to_N b * 256 ^ length_u64 bytes + from_be bytes.
Proof. unfold from_be at 1. simpl. apply from_be_fold. Qed.

Lemma from_be_bounded bytes : from_be bytes < 256 ^ length_u64 bytes.
Proof.
  induction bytes as [|b bytes IH]; [done|]. rewrite from_be_cons.
  replace (length_u64 (b :: bytes)) with (N.succ (length_u64 bytes)) by (unfold length_u64; simpl; lia).
  rewrite N.pow_succ_r'. pose proof (Byte.to_N_bounded b). nia.
Qed.

Lemma from_be_be_bytes width value : from_be (be_bytes width value) = value mod 256 ^ N.of_nat width.
Proof.
  induction width as [|width IH]; simpl be_bytes; [by rewrite N.mod_1_r|].
  rewrite from_be_cons, IH, length_u64_be_bytes, to_N_as_u8.
  replace (N.of_nat (S width)) with (N.of_nat width + 1) by lia.
  rewrite N.pow_add_r, N.pow_1_r, N.Div0.mod_mul_r. lia.
Qed.

Lemma be_bytes_high width j k v :
  (j <= width)%nat -> be_bytes j (k * 256 ^ N.of_nat width + v) = be_bytes j v.
Proof.
  induction j as [|j IH]; intros Hj; simpl; [done|]. rewrite IH by lia. f_equal.
  replace (N.of_nat width) with ((N.of_nat (width - j - 1) + 1) + N.of_nat j) by lia.
  rewrite !N.pow_add_r, N.pow_1_r.
  replace (k * (256 ^ N.of_nat (width - j - 1) * 256 * 256 ^ N.of_nat j) + v)
    with (k * (256 ^ N.of_nat (width - j - 1) * 256) * 256 ^ N.of_nat j + v) by lia.
  rewrite N.div_add_l by (apply N.pow_nonzero; lia). unfold as_u8.
  replace (k * (256 ^ N.of_nat (width - j - 1) * 256) + v / 256 ^ N.of_nat j)
    with (v / 256 ^ N.of_nat j + (k * 256 ^ N.of_nat (width - j - 1)) * 256) by lia.
  by rewrite N.Div0.mod_add.
Qed.

Lemma be_bytes_from_be bytes : be_bytes (length bytes) (from_be bytes) = bytes.
Proof.
  induction bytes as [|b bytes IH]; [done|]. rewrite from_be_cons. simpl be_bytes.
  change (length_u64 bytes) with (N.of_nat (length bytes)).
  rewrite be_bytes_high, IH by done. f_equal.
  pose proof (from_be_bounded bytes) as Hb. unfold length_u64 in Hb.
  rewrite N.div_add_l, N.div_small, N.add_0_r by (done || apply N.pow_nonzero; lia). apply as_u8_to_N.
Qed.

(** An integer of [width] bytes. *)
Definition int_grammar (width : nat) (value : N) (bs : list u8) : Prop :=
  value < 256 ^ N.of_nat width /\ bs = be_bytes width value.

Lemma int_Grammar {E} `{!ReaderError E} width len :
  len = N.of_nat width ->
  Grammar (E := E) (let! bytes := read_take len in dec_ret (from_be bytes)) (int_grammar width).
Proof.
  intros ->. eapply Grammar_iff; [typeclasses eauto|]. intros v bs. split.
  - intros (a & bs1 & bs2 & -> & [-> Hl] & -> & ->). rewrite app_nil_r. split.
    + rewrite <- Hl. apply from_be_bounded.
    + replace width with (length bs1) by (unfold length_u64 in *; lia). by rewrite be_bytes_from_be.
  - intros [Hv ->]. exists (be_bytes width v), (be_bytes width v), []. rewrite app_nil_r, length_u64_be_bytes.
    split; [done|]. split; [done|]. split; [|done]. by rewrite from_be_be_bytes, N.mod_small.
Qed.

#[export] Instance u16_Grammar {E} `{!ReaderError E} : Grammar (E := E) read_u16 (int_grammar 2).
Proof. by apply int_Grammar. Qed.
#[export] Instance u32_Grammar {E} `{!ReaderError E} : Grammar (E := E) read_u32 (int_grammar 4).
Proof. by apply int_Grammar. Qed.
#[export] Instance u64_Grammar {E} `{!ReaderError E} : Grammar (E := E) read_u64 (int_grammar 8).
Proof. by apply int_Grammar. Qed.

#[export] Instance u8_Grammar {E} `{!ReaderError E} : Grammar (E := E) read_u8 (fun value bs => bs = [value]).
Proof.
  eapply Grammar_iff; [unfold read_u8; typeclasses eauto|]. intros v bs. split.
  - intros (a & bs1 & bs2 & -> & [-> Hl] & -> & ->). unfold length_u64 in Hl.
    destruct bs1 as [|x [|]]; simpl in *; try lia. done.
  - intros ->. by exists [v], [v], [].
Qed.

Definition bool_byte (value : bool) : u8 := if value then x01 else x00.

#[export] Instance bool_Grammar : Grammar read_bool (fun value bs => bs = [bool_byte value]).
Proof.
  eapply Grammar_iff.
  { unfold read_bool. eapply (bind_Grammar _ _ _ (fun v b bs => bs = [] /\ v = bool_byte b)); [typeclasses eauto|].
    intros []; (eapply Grammar_iff; [typeclasses eauto|]); intros b bs; unfold ret_grammar;
      destruct b; simpl; naive_solver. }
  intros b bs. split.
  - intros (a & bs1 & bs2 & -> & -> & -> & ->). done.
  - intros ->. by exists (bool_byte b), [bool_byte b], [].
Qed.

(** ** UTF-8 *)

Definition scalar (c : N) : Prop := c < 55296 \/ (57344 <= c /\ c < 1114112).

(** Decide every comparison the arithmetic settles. *)
Ltac settle :=
  repeat match goal with
  | |- context [?a <=? ?b] =>
      first [rewrite (proj2 (N.leb_le a b)) by lia | rewrite (proj2 (N.leb_gt a b)) by lia]
  | |- context [?a <? ?b] =>
      first [rewrite (proj2 (N.ltb_lt a b)) by lia | rewrite (proj2 (N.ltb_ge a b)) by lia]
  end; simpl andb.

(** The base-64 digits of a scalar value. *)
Lemma scalar_digits c : exists a b d e,
  c = ((a * 64 + b) * 64 + d) * 64 + e /\ b < 64 /\ d < 64 /\ e < 64 /\
  c mod 64 = e /\ c / 64 = (a * 64 + b) * 64 + d /\ c / 64 mod 64 = d /\
  c / 4096 = a * 64 + b /\ c / 4096 mod 64 = b /\ c / 262144 = a.
Proof.
  exists (c / 64 / 64 / 64), (c / 64 / 64 mod 64), (c / 64 mod 64), (c mod 64).
  change 262144 with (64 * 64 * 64). change 4096 with (64 * 64). rewrite <- !N.Div0.div_div.
  pose proof (N.div_mod' c 64). pose proof (N.div_mod' (c / 64) 64).
  pose proof (N.div_mod' (c / 64 / 64) 64).
  split_and!; try done; try (apply N.mod_lt; lia); lia.
Qed.

Lemma from_utf8_char c rest :
  scalar c -> from_utf8 ((as_u8 <$> char_utf8 c) ++ rest) = cons c <$> from_utf8 rest.
Proof.
  intros Hc. unfold scalar in Hc. unfold char_utf8, continuation.
  destruct (scalar_digits c) as (a & b & d & e & Hd & Hb & Hdd & He & -> & -> & -> & -> & -> & ->).
  destruct (N.ltb_spec c 128); [|destruct (N.ltb_spec c 2048); [|destruct (N.ltb_spec c 65536)]];
    simpl from_utf8; unfold continuation; rewrite !to_N_as_u8, !N.mod_small by lia.
  - settle. done.
  - settle. do 2 f_equal. lia.
  - settle. destruct (N.eqb_spec (224 + (a * 64 + b)) 224); [|destruct (N.eqb_spec (224 + (a * 64 + b)) 237)];
      settle; do 2 f_equal; lia.
  - settle. destruct (N.eqb_spec (240 + a) 240); [|destruct (N.eqb_spec (240 + a) 244)];
      settle; do 2 f_equal; lia.
Qed.

(** The bytes of a scalar value with these digits. *)
Lemma char_utf8_2 a b :
  2 <= a -> a < 32 -> b < 64 -> char_utf8 (a * 64 + b) = [192 + a; 128 + b].
Proof.
  intros. unfold char_utf8. settle. destruct (scalar_digits (a * 64 + b))
    as (q & x & y & z & ? & ? & ? & ? & -> & -> & _). repeat f_equal; lia.
Qed.

Lemma char_utf8_3 a b d :
  a < 16 -> b < 64 -> d < 64 -> 2048 <= a * 4096 + b * 64 + d ->
  char_utf8 (a * 4096 + b * 64 + d) = [224 + a; 128 + b; 128 + d].
Proof.
  intros. unfold char_utf8. settle. destruct (scalar_digits (a * 4096 + b * 64 + d))
    as (q & x & y & z & ? & ? & ? & ? & -> & _ & -> & -> & _ & _). repeat f_equal; lia.
Qed.

Lemma char_utf8_4 a b d e :
  a < 8 -> b < 64 -> d < 64 -> e < 64 -> 65536 <= a * 262144 + b * 4096 + d * 64 + e ->
  char_utf8 (a * 262144 + b * 4096 + d * 64 + e) = [240 + a; 128 + b; 128 + d; 128 + e].
Proof.
  intros. unfold char_utf8. settle. destruct (scalar_digits (a * 262144 + b * 4096 + d * 64 + e))
    as (q & x & y & z & ? & ? & ? & ? & -> & _ & -> & _ & -> & ->). repeat f_equal; lia.
Qed.

Lemma as_u8_eq b n : n = Byte.to_N b -> as_u8 n = b.
Proof. intros ->. apply as_u8_to_N. Qed.

Lemma fmap_cons_Some {A} (x : A) o s : cons x <$> o = Some s -> exists s', o = Some s' /\ s = x :: s'.
Proof. destruct o; [|done]. intros [= <-]. by eexists. Qed.

Lemma from_utf8_head first bytes s :
  from_utf8 (first :: bytes) = Some s ->
  exists c rest s', s = c :: s' /\ scalar c /\ first :: bytes = (as_u8 <$> char_utf8 c) ++ rest /\
    from_utf8 rest = Some s' /\ (length rest <= length bytes)%nat.
Proof.
  simpl from_utf8. unfold continuation. set (a := Byte.to_N first).
  destruct (N.ltb_spec a 128).
  { intros (s' & Hs' & ->)%fmap_cons_Some. exists a, bytes, s'. unfold char_utf8. settle. simpl.
    split_and!; try done; [left; lia|]. by rewrite (as_u8_eq first) by done. }
  destruct bytes as [|second bytes]; [done|]. set (b := Byte.to_N second).
  destruct ((194 <=? a) && (a <=? 223)) eqn:E2.
  { apply andb_true_iff in E2 as [Ha1%N.leb_le Ha2%N.leb_le].
    destruct ((128 <=? b) && (b <=? 191)) eqn:Eb; [|done].
    apply andb_true_iff in Eb as [Hb1%N.leb_le Hb2%N.leb_le]. intros (s' & Hs' & ->)%fmap_cons_Some.
    eexists _, bytes, s'. split; [reflexivity|]. split; [left; lia|]. rewrite char_utf8_2 by lia.
    simpl. split_and!; [|done|lia]. by rewrite !(as_u8_eq first), !(as_u8_eq second) by lia. }
  destruct bytes as [|third bytes]; [done|]. set (d := Byte.to_N third).
  destruct ((224 <=? a) && (a <=? 239)) eqn:E3.
  { apply andb_true_iff in E3 as [Ha1%N.leb_le Ha2%N.leb_le].
    match goal with |- (if ?x then _ else None) = _ -> _ => destruct x eqn:Eb; [|done] end. apply andb_true_iff in Eb as [Hb Hd].
    apply andb_true_iff in Hd as [Hd1%N.leb_le Hd2%N.leb_le]. intros (s' & Hs' & ->)%fmap_cons_Some.
    assert (128 <= b <= 191 /\ (a = 224 -> 160 <= b) /\ (a = 237 -> b <= 159)) as (Hb1 & Hb2 & Hb3).
    { destruct (N.eqb_spec a 224); [|destruct (N.eqb_spec a 237)];
        apply andb_true_iff in Hb as [?%N.leb_le ?%N.leb_le]; lia. }
    eexists _, bytes, s'. split; [reflexivity|]. split; [unfold scalar; lia|]. rewrite char_utf8_3 by lia.
    simpl. split_and!; [|done|lia].
    by rewrite !(as_u8_eq first), !(as_u8_eq second), !(as_u8_eq third) by lia. }
  destruct bytes as [|fourth bytes]; [done|]. set (e := Byte.to_N fourth).
  match goal with |- (if ?x then _ else None) = _ -> _ => destruct x eqn:Eb; [|done] end. rewrite !andb_true_iff, !N.leb_le in Eb.
  destruct Eb as [[[[Ha1 Ha2] Hb] [Hd1 Hd2]] [He1 He2]]. intros (s' & Hs' & ->)%fmap_cons_Some.
  assert (128 <= b <= 191 /\ (a = 240 -> 144 <= b) /\ (a = 244 -> b <= 143)) as (Hb1 & Hb2 & Hb3).
  { destruct (N.eqb_spec a 240); [|destruct (N.eqb_spec a 244)];
      apply andb_true_iff in Hb as [?%N.leb_le ?%N.leb_le]; lia. }
  eexists _, bytes, s'. split; [reflexivity|]. split; [unfold scalar; lia|]. rewrite char_utf8_4 by lia.
  simpl. split_and!; [|done|lia].
  by rewrite !(as_u8_eq first), !(as_u8_eq second), !(as_u8_eq third), !(as_u8_eq fourth) by lia.
Qed.

Lemma str_bytes_cons c s : as_u8 <$> str_bytes (c :: s) = (as_u8 <$> char_utf8 c) ++ (as_u8 <$> str_bytes s).
Proof. by rewrite <- fmap_app. Qed.

Lemma from_utf8_sound bytes s :
  from_utf8 bytes = Some s -> Forall scalar s /\ bytes = as_u8 <$> str_bytes s.
Proof.
  revert s. induction (Nat.lt_wf_0_projected (@length u8) bytes) as [bytes _ IH]. intros s.
  destruct bytes as [|first bytes]; [by intros [= <-]|].
  intros (c & rest & s' & -> & Hc & Hb & Hs & Hl)%from_utf8_head.
  destruct (IH rest ltac:(simpl; lia) s' Hs) as [Hf Hr]. split; [by constructor|].
  by rewrite str_bytes_cons, <- Hr.
Qed.

Lemma from_utf8_complete s : Forall scalar s -> from_utf8 (as_u8 <$> str_bytes s) = Some s.
Proof.
  induction 1 as [|c s Hc Hs IH]; [done|].
  by rewrite str_bytes_cons, from_utf8_char, IH.
Qed.

Lemma str_len_bytes s : str_len s = length_u64 (as_u8 <$> str_bytes s).
Proof.
  induction s as [|c s IH]; [done|]. rewrite str_bytes_cons, length_u64_app, <- IH. simpl str_len.
  unfold length_u64. rewrite length_fmap. unfold char_len_utf8, char_utf8. repeat case_cmp1; simpl; lia.
Qed.

(** ** Strings, blobs and sequences *)

#[export] Instance str_Grammar {E} `{!ReaderError E} (invalid_utf8 : E) :
  Grammar (read_str invalid_utf8) (fun s bs => Forall scalar s /\ str_len s <= 65535 /\
    bs = be_bytes 2 (str_len s) ++ (as_u8 <$> str_bytes s)).
Proof.
  eapply Grammar_iff.
  { unfold read_str. eapply (bind_Grammar _ _ _ _ _). intros len.
    eapply (bind_Grammar _ _ _ (fun bytes s bs => from_utf8 bytes = Some s /\ bs = [])); [typeclasses eauto|].
    intros bytes. destruct (from_utf8 bytes) as [s|].
    - eapply Grammar_iff; [typeclasses eauto|]. intros. unfold ret_grammar. naive_solver.
    - eapply Grammar_iff; [typeclasses eauto|]. naive_solver. }
  intros s bs. split.
  - intros (len & bs1 & bs2 & -> & [Hl ->] & bytes & bs3 & bs4 & -> & [-> Hb] & Hs & ->).
    apply from_utf8_sound in Hs as [Hs ->]. rewrite str_len_bytes, Hb, app_nil_r. split_and!; [done| |done].
    change (256 ^ N.of_nat 2) with 65536 in Hl. lia.
  - intros (Hs & Hl & ->). exists (str_len s), (be_bytes 2 (str_len s)), (as_u8 <$> str_bytes s).
    split; [done|]. split; [split; [change (256 ^ N.of_nat 2) with 65536; lia|done]|].
    exists (as_u8 <$> str_bytes s), (as_u8 <$> str_bytes s), []. rewrite app_nil_r, <- str_len_bytes.
    split_and!; [done..| |done]. by apply from_utf8_complete.
Qed.

Lemma Grammar_ext {E A} `{!ReaderError E} (d d' : rdec E A) G :
  (forall pre rest, d' (reader_at pre rest) = d (reader_at pre rest)) -> Grammar d G -> Grammar d' G.
Proof.
  intros Heq [Hr Hs Hc]. split.
  - intros a bs H pre post. rewrite Heq. by apply Hr.
  - intros pre rest a r. rewrite Heq. apply Hs.
  - intros a bs H pre p Hp. rewrite Heq. by eapply Hc.
Qed.

(** A byte string with a four-byte length. *)
Definition blob_grammar (value bs : list u8) : Prop :=
  length_u64 value <= 4294967295 /\ bs = be_bytes 4 (length_u64 value) ++ value.

#[export] Instance blob_Grammar : Grammar read_blob blob_grammar.
Proof.
  eapply Grammar_iff; [unfold read_blob, blob_bytes; typeclasses eauto|]. unfold blob_grammar.
  intros v bs. split.
  - intros (len & bs1 & bs2 & -> & [Hl ->] & -> & <-).
    change (256 ^ N.of_nat 4) with 4294967296 in Hl. split; [lia|done].
  - intros [Hl ->]. exists (length_u64 v), (be_bytes 4 (length_u64 v)), v.
    split_and!; [done| |done|done]. split; [|done]. change (256 ^ N.of_nat 4) with 4294967296. lia.
Qed.

Definition optional_grammar {A} (G : A -> list u8 -> Prop) (o : option A) (bs : list u8) : Prop :=
  match o with
  | Some a => exists rest, bs = x01 :: rest /\ G a rest
  | None => bs = [x00]
  end.

(** Items one after the other. *)
Inductive each_grammar {A} (G : A -> list u8 -> Prop) : list A -> list u8 -> Prop :=
| each_nil : each_grammar G [] []
| each_cons a l bs1 bs2 : G a bs1 -> each_grammar G l bs2 -> each_grammar G (a :: l) (bs1 ++ bs2).

#[export] Instance times_Grammar {A} count (d : dec A) G :
  Grammar d G -> Grammar (dec_times count d) (fun l bs => length l = count /\ each_grammar G l bs).
Proof.
  intros Hd. induction count as [|count IH]; simpl dec_times.
  - eapply Grammar_iff; [typeclasses eauto|]. intros l bs. split.
    + intros [-> ->]. split; [done|constructor].
    + intros [Hl He]. destruct He; done.
  - eapply Grammar_iff; [typeclasses eauto|]. intros l bs. split.
    + intros (a & bs1 & ? & -> & Ha & l' & bs2 & ? & -> & [Hl He] & -> & ->).
      rewrite app_nil_r. simpl. split; [congruence|by constructor].
    + intros [Hl He]. destruct He as [|a l bs1 bs2 Ha He]; [done|]. simpl in Hl.
      exists a, bs1, bs2. split_and!; [done|done|]. exists l, bs2, []. rewrite app_nil_r.
      split_and!; try done. congruence.
Qed.

#[export] Instance optional_Grammar {A} (d : dec A) G :
  Grammar d G -> Grammar (decode_optional d) (optional_grammar G).
Proof.
  intros Hd. eapply Grammar_iff.
  { unfold decode_optional. eapply (bind_Grammar _ _ _ (fun (present : bool) o bs =>
      match o with Some a => present = true /\ G a bs | None => present = false /\ bs = [] end));
      [typeclasses eauto|].
    intros []; (eapply Grammar_iff; [typeclasses eauto|]); intros [a|] bs.
    - split; [intros (x & bs1 & bs2 & -> & Hx & [= ->] & ->); rewrite app_nil_r; by split|].
      intros [_ Ha]. exists a, bs, []. by rewrite app_nil_r.
    - split; [intros (x & bs1 & bs2 & -> & Hx & [=] & ->)|by intros []].
    - split; [by intros []|by intros []].
    - split; [by intros [_ ->]|by intros [_ ->]]. }
  intros [a|] bs; simpl.
  - split; [intros (p & bs1 & bs2 & -> & -> & -> & Ha); by exists bs2|].
    intros (rest & -> & Ha). by exists true, [x01], rest.
  - split; [by intros (p & bs1 & bs2 & -> & -> & -> & ->)|]. intros ->. by exists false, [x00], [].
Qed.
