(* ===== verification/Emit.v ===== *)
(** * What encoders emit

    The bytes an encoder of [crates/rafter-codec] adds to a vector, piece by
    piece, and that the counting sink counts exactly those. *)

From stdpp Require Import base list numbers option.
From Stdlib Require Import Strings.Byte.
From S2P Require Import Prelude.
From S2P Require Import Types.
From S2P Require Import Snapshot.
From S2P Require Import Wire.

(** What an encoder adds to a vector, when it succeeds. *)
Definition emit (e : enc VecSink) : option (list u8) :=
  match e {| sink_bytes := [] |} with
  | (w, Ok _) => Some (sink_bytes w)
  | (_, Err _) => None
  end.

(** An encoder only appends, and what it appends does not depend on what is
    there. *)
Class Appends (e : enc VecSink) : Prop := appends : forall w,
  e w = ({| sink_bytes := sink_bytes w ++ sink_bytes (e {| sink_bytes := [] |}).1 |},
         (e {| sink_bytes := [] |}).2).

#[export] Instance write_bytes_appends bytes : Appends (write_bytes bytes).
Proof. by intros [w]. Qed.

#[export] Instance write_u8_appends value : Appends (write_u8 value) := write_bytes_appends _.
#[export] Instance write_bool_appends value : Appends (write_bool value) := write_bytes_appends _.
#[export] Instance write_u16_appends value : Appends (write_u16 value) := write_bytes_appends _.
#[export] Instance write_u32_appends value : Appends (write_u32 value) := write_bytes_appends _.
#[export] Instance write_u64_appends value : Appends (write_u64 value) := write_bytes_appends _.

#[export] Instance enc_done_appends : Appends enc_done.
Proof. intros [w]. unfold enc_done. simpl. by rewrite app_nil_r. Qed.

#[export] Instance enc_fail_appends error : Appends (enc_fail error).
Proof. intros [w]. unfold enc_fail. simpl. by rewrite app_nil_r. Qed.

#[export] Instance enc_seq_appends e1 e2 : Appends e1 -> Appends e2 -> Appends (enc_seq e1 e2).
Proof.
  intros H1 H2 [w]. unfold enc_seq. rewrite (H1 {| sink_bytes := w |}).
  destruct (e1 {| sink_bytes := [] |}) as [[w1] [u|error]]; simpl; [|done].
  rewrite (H2 {| sink_bytes := w ++ w1 |}), (H2 {| sink_bytes := w1 |}). simpl. by rewrite app_assoc.
Qed.

#[export] Instance enc_each_appends {A} (f : A -> enc VecSink) items :
  (forall a, Appends (f a)) -> Appends (enc_each f items).
Proof. intros Hf. induction items; simpl; typeclasses eauto. Qed.

#[export] Instance length_u16_appends field len : Appends (length_u16 field len).
Proof. unfold length_u16, write_u16. destruct (_ <=? _); typeclasses eauto. Qed.

#[export] Instance length_u32_appends field len : Appends (length_u32 field len).
Proof. unfold length_u32, write_u32. destruct (_ <=? _); typeclasses eauto. Qed.

Lemma emit_seq e1 e2 `{!Appends e1, !Appends e2} :
  emit (e1 ;;w e2) = b1 ← emit e1; b2 ← emit e2; Some (b1 ++ b2).
Proof.
  unfold emit, enc_seq. destruct (e1 {| sink_bytes := [] |}) as [[w1] [u|error]]; simpl; [|done].
  rewrite (appends {| sink_bytes := w1 |}). by destruct (e2 _) as [[w2] [|]].
Qed.

Lemma emit_bytes bytes : emit (write_bytes bytes) = Some bytes.
Proof. done. Qed.

Lemma emit_length_u16 field len :
  emit (length_u16 field len) = if len <=? 65535 then Some (be_bytes 2 len) else None.
Proof. unfold length_u16. by destruct (_ <=? _). Qed.

Lemma emit_length_u32 field len :
  emit (length_u32 field len) = if len <=? 4294967295 then Some (be_bytes 4 len) else None.
Proof. unfold length_u32. by destruct (_ <=? _). Qed.

#[export] Instance write_string_appends field value : Appends (write_string field value).
Proof. unfold write_string. typeclasses eauto. Qed.

#[export] Instance write_blob_appends field value : Appends (write_blob field value).
Proof. unfold write_blob. typeclasses eauto. Qed.

#[global] Typeclasses Opaque enc_seq enc_each enc_done enc_fail write_bytes write_u8 write_bool write_u16
  write_u32 write_u64 length_u16 length_u32 write_string write_blob.
