(* ===== verification/CodecSpec.v ===== *)
(** * The grammar of version 1

    Every decoder of [CodecV1] accepts exactly what the encoder of the same
    message part emits for a valid value: the relation [coded].  The proofs
    follow the fields: a record is decoded and encoded field by field in one
    order. *)

From stdpp Require Import base strings list sorting numbers option.
From Stdlib Require Import Strings.Byte.
From S2P Require Import Prelude.
From S2P Require Import Types.
From S2P Require Import Snapshot.
From S2P Require Import Message.
From S2P Require Import Membership.
From S2P Require Import Wire.
From S2P Require Import CodecV1.
From S2P Require Import Grammar.
From S2P Require Import Emit.

(** ** Coded values *)

Definition coded {A} (valid : A -> Prop) (encode : A -> enc VecSink) (a : A) (bs : list u8) : Prop :=
  valid a /\ emit (encode a) = Some bs.

Lemma coded_grammar {A} (d : dec A) G valid encode :
  Grammar d G -> (forall a bs, G a bs <-> valid a /\ emit (encode a) = Some bs) ->
  Grammar d (coded valid encode).
Proof. intros Hd H. eapply Grammar_iff; [exact Hd|exact H]. Qed.

Lemma emit_seq_Some e1 e2 bs `{!Appends e1, !Appends e2} :
  emit (e1 ;;w e2) = Some bs <->
  exists bs1 bs2, bs = bs1 ++ bs2 /\ emit e1 = Some bs1 /\ emit e2 = Some bs2.
Proof.
  rewrite emit_seq by done. destruct (emit e1) as [b1|], (emit e2) as [b2|]; simpl; naive_solver.
Qed.

(** ** Fields

    The rest of a record is decoded under the constraint [C] on its fields so
    far, and encoded by what follows. *)

Section fields.
Context {A B : Type}.

Lemma coded_field (C : B -> Prop) (proj : B -> A) (Q : A -> Prop) (d : dec A) (k : A -> dec B)
    v1 v2 e1 e2 `{!forall a, Appends (e1 a), !forall b, Appends (e2 b)} :
  Grammar d (fun a bs => Q a /\ coded v1 e1 a bs) ->
  (forall b, C b -> Q (proj b)) ->
  (forall a, Q a -> Grammar (k a) (fun b bs => (C b /\ proj b = a) /\ coded v2 e2 b bs)) ->
  Grammar (dec_bind d k) (fun b bs =>
    C b /\ coded (fun b => v1 (proj b) /\ v2 b) (fun b => e1 (proj b) ;;w e2 b) b bs).
Proof.
  intros Hd HQ Hk. eapply Grammar_iff; [eapply (bind_Grammar_read _ _ _ _ Hd); intros a bs [Ha _]; exact (Hk a Ha)|].
  intros b bs. unfold bind_grammar, coded.
  rewrite emit_seq_Some by done. split.
  - intros (a & bs1 & bs2 & -> & (HQa & Hv1 & He1) & (HC & <-) & Hv2 & He2).
    split_and!; [done|done|done|]. by exists bs1, bs2.
  - intros (HC & (Hv1 & Hv2) & bs1 & bs2 & -> & He1 & He2). exists (proj b), bs1, bs2. auto 10.
Qed.

(** The last field. *)
Lemma coded_last (C : B -> Prop) (proj : B -> A) (mk : A -> B) (d : dec A) v1 e1 :
  Grammar d (coded v1 e1) -> (forall a b, C b /\ proj b = a <-> b = mk a) ->
  Grammar (dec_bind d (fun a => dec_ret (mk a))) (fun b bs =>
    C b /\ coded (fun b => v1 (proj b)) (fun b => e1 (proj b)) b bs).
Proof.
  intros Hd HC. eapply Grammar_iff; [typeclasses eauto|]. intros b bs.
  unfold bind_grammar, ret_grammar, coded. split.
  - intros (a & bs1 & bs2 & -> & (Hv1 & He1) & -> & ->). rewrite app_nil_r.
    destruct (proj2 (HC a (mk a)) eq_refl) as [HCb Hp]. by rewrite Hp.
  - intros (HCb & Hv1 & He1). exists (proj b), bs, []. rewrite app_nil_r. split_and!; try done.
    by apply HC.
Qed.
End fields.

Lemma no_constraint {A} (d : dec A) (G : A -> list u8 -> Prop) :
  Grammar d G -> Grammar d (fun a bs => True /\ G a bs).
Proof. intros Hd. eapply Grammar_iff; [exact Hd|]. naive_solver. Qed.

Lemma drop_constraint {A} (d : dec A) (C : A -> Prop) (G : A -> list u8 -> Prop) :
  (forall a, C a) -> Grammar d (fun a bs => C a /\ G a bs) -> Grammar d G.
Proof. intros HC Hd. eapply Grammar_iff; [exact Hd|]. naive_solver. Qed.

Lemma coded_weaken {A} (d : dec A) (C : A -> Prop) v v' e :
  (forall a, C a -> v a <-> v' a) -> Grammar d (fun a bs => C a /\ coded v e a bs) ->
  Grammar d (fun a bs => C a /\ coded v' e a bs).
Proof. intros Hv Hd. eapply Grammar_iff; [exact Hd|]. unfold coded. intros. split; intros (? & ? & ?); naive_solver. Qed.

(** A field, and the last one. *)
Ltac field proj :=
  eapply (coded_field _ proj (fun _ => True));
    [typeclasses eauto|typeclasses eauto|apply no_constraint; typeclasses eauto|done|
     let a := fresh "a" in intros a _].
Ltac field_as proj v e :=
  eapply (coded_field _ proj (fun _ => True) _ _ v _ e);
    [typeclasses eauto|typeclasses eauto|apply no_constraint; typeclasses eauto|done|let a := fresh "a" in intros a _].
Ltac last_field proj :=
  eapply (coded_last _ proj); [typeclasses eauto|
    let a := fresh "a" in let b := fresh "b" in
    intros a b; split; [let H := fresh in intros H; destruct b; simpl in *; naive_solver|
                        intros ->; naive_solver]].

(** ** Integers and booleans *)

Definition fits16 (n : N) : Prop := n < 65536.
Definition fits32 (n : N) : Prop := n < 4294967296.
Definition fits64 (n : N) : Prop := n < 18446744073709551616.

#[export] Instance u64_coded : Grammar read_u64 (coded fits64 write_u64).
Proof. eapply coded_grammar; [apply u64_Grammar|]. intros a bs. unfold int_grammar, fits64, write_u64. rewrite emit_bytes.
  change (256 ^ N.of_nat 8) with 18446744073709551616. naive_solver. Qed.

#[export] Instance u32_coded : Grammar read_u32 (coded fits32 write_u32).
Proof. eapply coded_grammar; [apply u32_Grammar|]. intros a bs. unfold int_grammar, fits32, write_u32. rewrite emit_bytes.
  change (256 ^ N.of_nat 4) with 4294967296. naive_solver. Qed.

#[export] Instance u16_coded : Grammar read_u16 (coded fits16 write_u16).
Proof. eapply coded_grammar; [apply u16_Grammar|]. intros a bs. unfold int_grammar, fits16, write_u16. rewrite emit_bytes.
  change (256 ^ N.of_nat 2) with 65536. naive_solver. Qed.

Definition anything {A} (_ : A) : Prop := True.

Lemma count_u16_coded field : Grammar read_u16 (coded anything (length_u16 field)).
Proof.
  eapply coded_grammar; [apply u16_Grammar|]. intros a bs. unfold int_grammar. rewrite emit_length_u16.
  change (256 ^ N.of_nat 2) with 65536. destruct (N.leb_spec a 65535); split.
  - by intros [_ ->].
  - intros [_ [= <-]]. split; [lia|done].
  - intros [? _]. lia.
  - by intros [_ ?].
Qed.

Lemma count_u32_coded field : Grammar read_u32 (coded anything (length_u32 field)).
Proof.
  eapply coded_grammar; [apply u32_Grammar|]. intros a bs. unfold int_grammar. rewrite emit_length_u32.
  change (256 ^ N.of_nat 4) with 4294967296. destruct (N.leb_spec a 4294967295); split.
  - by intros [_ ->].
  - intros [_ [= <-]]. split; [lia|done].
  - intros [? _]. lia.
  - by intros [_ ?].
Qed.

#[export] Instance bool_coded : Grammar read_bool (coded anything write_bool).
Proof. eapply coded_grammar; [apply bool_Grammar|]. intros [] bs; unfold write_bool, write_u8, anything; rewrite emit_bytes; naive_solver. Qed.

#[export] Instance blob_coded field : Grammar read_blob (coded anything (write_blob field)).
Proof.
  eapply coded_grammar; [apply blob_Grammar|]. intros a bs. unfold blob_grammar, write_blob.
  rewrite emit_seq_Some by typeclasses eauto. rewrite emit_length_u32.
  destruct (N.leb_spec (length_u64 a) 4294967295); split.
  - intros [_ ->]. split; [done|]. by eexists _, _.
  - intros (_ & bs1 & bs2 & -> & [= <-] & [= <-]). done.
  - intros [? _]. lia.
  - by intros (_ & bs1 & bs2 & -> & ? & ?).
Qed.

#[export] Instance string_coded field : Grammar (read_string field) (coded (Forall scalar) (write_string field)).
Proof.
  eapply coded_grammar; [apply str_Grammar|]. intros a bs. unfold write_string.
  rewrite emit_seq_Some by typeclasses eauto. rewrite emit_length_u16.
  destruct (N.leb_spec (str_len a) 65535); split.
  - intros (Ha & _ & ->). split; [done|]. by eexists _, _.
  - intros (? & bs1 & bs2 & -> & [= <-] & [= <-]). done.
  - intros (_ & ? & _). lia.
  - by intros (_ & bs1 & bs2 & -> & ? & ?).
Qed.

(** ** Sequences *)

Lemma emit_each {A} (v : A -> Prop) (e : A -> enc VecSink) `{!forall a, Appends (e a)} l bs :
  each_grammar (coded v e) l bs <-> coded (Forall v) (enc_each e) l bs.
Proof.
  unfold coded. split.
  - induction 1 as [|a l bs1 bs2 [Hv He] Hl [Hvs Hes]]; [by split|]. split; [by constructor|].
    simpl. rewrite emit_seq_Some by typeclasses eauto. by exists bs1, bs2.
  - intros [Hv He]. revert bs He. induction Hv as [|a l Ha Hl IH]; intros bs; simpl.
    + intros [= <-]. constructor.
    + rewrite emit_seq_Some by typeclasses eauto. intros (bs1 & bs2 & -> & H1 & H2).
      constructor; [done|]. by apply IH.
Qed.

Lemma times_coded {A} count (d : dec A) v e `{!forall a, Appends (e a)} :
  Grammar d (coded v e) ->
  Grammar (dec_times count d) (fun l bs => length l = count /\ coded (Forall v) (enc_each e) l bs).
Proof.
  intros Hd. eapply Grammar_iff; [by apply times_Grammar|]. intros l bs. simpl. by rewrite emit_each.
Qed.

(** ** Memberships *)

Definition set_valid (m : MembershipSet) : Prop :=
  MembershipSet_wf m /\ Forall fits64 (voters m) /\ Forall fits64 (learners m).

Definition config_valid (c : MembershipConfig) : Prop :=
  match c with
  | Stable m => set_valid m
  | Joint j => set_valid (old j) /\ set_valid (new_membership j)
  end.

Definition encode_nodes (field : String.string) (nodes : list NodeId) : enc VecSink :=
  length_u16 field (length_u64 nodes) ;;w enc_each write_u64 nodes.

#[export] Instance encode_nodes_appends field nodes : Appends (encode_nodes field nodes).
Proof. unfold encode_nodes. typeclasses eauto. Qed.
#[global] Typeclasses Opaque encode_nodes.

Lemma node_set_coded field : Grammar decode_node_set (coded (Forall fits64) (encode_nodes field)).
Proof.
  unfold decode_node_set. apply (drop_constraint _ (fun _ => True)); [done|].
  eapply coded_weaken; [|eapply (coded_field (fun _ => True) length_u64 (fun _ => True) _ _ anything (Forall fits64)
    (length_u16 field) (enc_each write_u64))].
  - intros a _. unfold anything. naive_solver.
  - apply no_constraint, count_u16_coded.
  - done.
  - intros count _. eapply Grammar_iff; [exact (times_coded _ _ _ _ u64_coded)|]. intros l bs. simpl. unfold length_u64.
    split; [intros (H & Hc); split; [split; [done|lia]|done]|intros ((_ & H) & Hc); split; [lia|done]].
Qed.

Lemma any_descent_sorted nodes : any_descent nodes = false <-> StronglySorted N.le nodes.
Proof.
  induction nodes as [|a nodes IH]; [split; [constructor|done]|]. simpl. destruct nodes as [|b nodes].
  { split; [by repeat constructor|done]. }
  rewrite orb_false_iff, IH, N.ltb_ge. split.
  - intros [Hab Hs]. constructor; [done|]. constructor; [done|].
    apply StronglySorted_inv in Hs as [_ Hb]. eapply Forall_impl; [|exact Hb]. simpl. lia.
  - intros [Hs Hf]%StronglySorted_inv. split; [by apply Forall_inv in Hf|done].
Qed.

Lemma ascending_sorted nodes : ascending nodes -> StronglySorted N.le nodes.
Proof.
  induction 1 as [|a l Hs IH Hf]; constructor; [done|]. eapply Forall_impl; [|exact Hf]. simpl. lia.
Qed.

Lemma sorted_perm_eq (l k : list N) :
  StronglySorted N.le l -> StronglySorted N.le k -> l ≡ₚ k -> l = k.
Proof. intros Hl Hk Hp. by eapply (StronglySorted_unique N.le). Qed.

(** The canonical form of a membership is the one its constructor builds. *)
Lemma canonical_set vs ls m :
  any_descent vs = false /\ any_descent ls = false /\ MembershipSet_new vs ls = Ok m <->
  MembershipSet_wf m /\ vs = voters m /\ ls = learners m.
Proof.
  rewrite !any_descent_sorted. pose proof (MembershipSet_new_sound vs ls) as Hs. split.
  - intros (Hv & Hl & Hm). rewrite Hm in Hs. destruct Hs as (Hwf & Hpv & Hpl). pose proof Hwf as (_ & Hav & Hal & _).
    split_and!; [done|..]; symmetry; by apply sorted_perm_eq; [apply ascending_sorted| |].
  - intros (Hwf & -> & ->). pose proof Hwf as (Hne & Hav & Hal & Hd).
    split_and!; [by apply ascending_sorted..|].
    destruct (proj2 (MembershipSet_new_accepts (voters m) (learners m))) as [m' Hm'].
    { split_and!; [done|by apply ascending_NoDup..|done]. }
    rewrite Hm' in Hs |- *. destruct Hs as ((_ & Hav' & Hal' & _) & Hpv & Hpl). f_equal.
    destruct m as [v l], m' as [v' l']; simpl in *. f_equal; (apply sorted_perm_eq; [by apply ascending_sorted..|done]).
Qed.

#[export] Instance encode_set_appends m : Appends (encode_set m).
Proof. unfold encode_set. typeclasses eauto. Qed.
#[global] Typeclasses Opaque encode_set.

Lemma require_canonical_order_Ok nodes field u :
  require_canonical_order nodes field = Ok u <-> any_descent nodes = false.
Proof. unfold require_canonical_order. destruct u. by destruct (any_descent nodes). Qed.

Lemma map_err_Ok {A E F} (f : E -> F) (r : result A E) a : map_err f r = Ok a <-> r = Ok a.
Proof. destruct r; simpl; split; congruence. Qed.

#[export] Instance set_coded : Grammar decode_set (coded set_valid encode_set).
Proof.
  eapply Grammar_iff.
  { unfold decode_set. eapply (bind_Grammar _ _ _ _ (node_set_coded "membership_voter_count"%string)). intros vs.
    eapply (bind_Grammar _ _ _ _ (node_set_coded "membership_learner_count"%string)). intros ls. typeclasses eauto. }
  intros m bs. unfold bind_grammar, lift_grammar, coded, set_valid, encode_set, encode_nodes.
  repeat setoid_rewrite emit_seq_Some; try typeclasses eauto. split.
  - intros (vs & b1 & ? & -> & (Hv & b11 & b12 & -> & Hb11 & Hb12) & ls & b2 & ? & -> &
            (Hl & b21 & b22 & -> & Hb21 & Hb22) & u1 & ? & ? & -> & (Hu1 & ->) & u2 & ? & ? & -> & (Hu2 & ->) & Hm & ->).
    apply require_canonical_order_Ok in Hu1, Hu2. apply map_err_Ok in Hm.
    destruct (proj1 (canonical_set vs ls m) (conj Hu1 (conj Hu2 Hm))) as (Hwf & -> & ->).
    split; [done|]. rewrite !app_nil_r, <- app_assoc. eauto 15.
  - intros ((Hwf & Hv & Hl) & b11 & ? & -> & Hb11 & b12 & ? & -> & Hb12 & b21 & b22 & -> & Hb21 & Hb22).
    destruct (proj2 (canonical_set (voters m) (learners m) m) (conj Hwf (conj eq_refl eq_refl))) as (Hu1 & Hu2 & Hm).
    exists (voters m), (b11 ++ b12), (b21 ++ b22). split; [by rewrite <- !app_assoc|]. split; [eauto 10|].
    exists (learners m), (b21 ++ b22), []. rewrite app_nil_r. split; [done|]. split; [eauto 10|].
    exists tt, [], []. split; [done|]. split; [by rewrite require_canonical_order_Ok|].
    exists tt, [], []. split; [done|]. split; [by rewrite require_canonical_order_Ok|].
    split; [by apply map_err_Ok|done].
Qed.

(** ** Tags *)

Lemma map_Grammar {A B} (f : A -> B) (d : dec A) G :
  Grammar d G -> Grammar (dec_bind d (fun a => dec_ret (f a))) (fun b bs => exists a, b = f a /\ G a bs).
Proof.
  intros Hd. eapply Grammar_iff; [typeclasses eauto|]. intros b bs. unfold bind_grammar, ret_grammar. split.
  - intros (a & bs1 & bs2 & -> & Ha & -> & ->). rewrite app_nil_r. by exists a.
  - intros (a & -> & Ha). exists a, bs, []. by rewrite app_nil_r.
Qed.

Lemma tag_Grammar {T B} (try_from : u8 -> result T DecodePeerMessageError) (into : T -> u8)
    (k : T -> dec B) (H : T -> B -> list u8 -> Prop) :
  (forall value tag, try_from value = Ok tag <-> value = into tag) ->
  (forall tag, Grammar (k tag) (H tag)) ->
  Grammar (let! value := read_u8 in let! tag := dec_lift (try_from value) in k tag)
    (fun b bs => exists tag rest, bs = into tag :: rest /\ H tag b rest).
Proof.
  intros Htag Hk. eapply Grammar_iff; [typeclasses eauto|]. intros b bs.
  unfold bind_grammar, lift_grammar. split.
  - intros (v & ? & ? & -> & -> & tag & ? & rest & -> & [Ht ->] & Hb). apply Htag in Ht as ->.
    by exists tag, rest.
  - intros (tag & rest & -> & Hb). exists (into tag), [into tag], rest. split_and!; [done|done|].
    exists tag, [], rest. split_and!; [done|by apply Htag|done|done].
Qed.

Lemma emit_tag value e bs `{!Appends e} :
  emit (write_u8 value ;;w e) = Some bs <-> exists rest, bs = value :: rest /\ emit e = Some rest.
Proof.
  rewrite emit_seq_Some by typeclasses eauto. unfold write_u8. rewrite emit_bytes. split.
  - intros (bs1 & bs2 & -> & [= <-] & ?). by eexists.
  - intros (rest & -> & ?). by exists [value], rest.
Qed.

Lemma MembershipTag_spec value tag :
  MembershipTag_try_from value = Ok tag <-> value = MembershipTag_into tag.
Proof. split; [|by intros ->; destruct tag]. by destruct value; try done; intros [= <-]. Qed.

Lemma LogEntryTag_spec value tag :
  LogEntryTag_try_from value = Ok tag <-> value = LogEntryTag_into tag.
Proof. split; [|by intros ->; destruct tag]. by destruct value; try done; intros [= <-]. Qed.

Lemma MessageTag_spec value tag :
  MessageTag_try_from value = Ok tag <-> value = MessageTag_into tag.
Proof. split; [|by intros ->; destruct tag]. by destruct value; try done; intros [= <-]. Qed.

(** ** Membership configurations *)

Lemma coded_ctor {A B} (f : A -> B) (d : dec A) (G : B -> list u8 -> Prop) v e :
  Grammar d (coded v e) -> (forall b bs, G b bs <-> exists a, b = f a /\ coded v e a bs) ->
  Grammar (dec_bind d (fun a => dec_ret (f a))) G.
Proof. intros Hd HG. eapply Grammar_iff; [by apply map_Grammar|]. intros b bs. by rewrite HG. Qed.

(** Reads that end in a constructor applied to a record, regrouped as the
    record's decoder and the constructor. *)
Ltac regroup d f :=
  eapply (Grammar_ext (dec_bind d (fun a => dec_ret (f a))));
    [intros; unfold d, dec_bind, dec_ret; repeat case_match; by simplify_eq|].

Definition decode_joint : dec JointMembership :=
  let! old := decode_set in let! new := decode_set in dec_ret (codec_joint old new).
Definition joint_valid (j : JointMembership) : Prop := set_valid (old j) /\ set_valid (new_membership j).
Definition encode_joint (j : JointMembership) : enc VecSink :=
  encode_set (old j) ;;w encode_set (new_membership j).

#[export] Instance encode_joint_appends j : Appends (encode_joint j).
Proof. unfold encode_joint. typeclasses eauto. Qed.
#[global] Typeclasses Opaque encode_joint.

#[export] Instance joint_coded : Grammar decode_joint (coded joint_valid encode_joint).
Proof.
  apply (drop_constraint _ (fun _ => True)); [done|]. unfold decode_joint, joint_valid, encode_joint.
  field old. last_field new_membership.
Qed.

#[export] Instance encode_config_appends c : Appends (encode_config c).
Proof. destruct c; simpl; typeclasses eauto. Qed.
#[global] Typeclasses Opaque encode_config.

#[export] Instance config_coded : Grammar decode_config (coded config_valid encode_config).
Proof.
  eapply coded_grammar.
  { unfold decode_config. apply (tag_Grammar _ MembershipTag_into _ (fun tag c bs =>
      match tag, c with
      | Tag_Stable, Stable m => coded set_valid encode_set m bs
      | Tag_Joint, Joint j => coded joint_valid encode_joint j bs
      | _, _ => False
      end) MembershipTag_spec).
    intros [].
    - eapply (coded_ctor Stable); [apply set_coded|]. intros [] bs; naive_solver.
    - regroup decode_joint Joint. eapply (coded_ctor Joint); [apply joint_coded|]. intros [] bs; naive_solver. }
  intros c bs. unfold encode_config, config_valid, coded. destruct c; rewrite emit_tag by typeclasses eauto; split.
  - intros ([] & rest & -> & H); [|done]. naive_solver.
  - intros (Hv & rest & -> & He). by exists Tag_Stable, rest.
  - intros ([] & rest & -> & H); [done|]. naive_solver.
  - intros (Hv & rest & -> & He). by exists Tag_Joint, rest.
Qed.

(** ** Log entries *)

Lemma bind_ext {A B} (d : dec A) (k k' : A -> dec B) pre rest :
  (exists G, Grammar d G) ->
  (forall a pre rest, k a (reader_at pre rest) = k' a (reader_at pre rest)) ->
  dec_bind d k (reader_at pre rest) = dec_bind d k' (reader_at pre rest).
Proof.
  intros [G HG] Hk. unfold dec_bind. destruct (d (reader_at pre rest)) as [[a r]|] eqn:E; [|done].
  apply grammar_sound in E as (bs & post & -> & -> & _). apply Hk.
Qed.

Lemma dec_bind_assoc {A B C} (d : dec A) (k : A -> dec B) (k' : B -> dec C) r :
  dec_bind (dec_bind d k) k' r = dec_bind d (fun a => dec_bind (k a) k') r.
Proof. unfold dec_bind. by destruct (d r) as [[a r']|]. Qed.

(** A payload shared with the frame is the blob itself. *)
Lemma shared_payload term pre rest :
  (let! blob := shared_blob_range in
   let '(bytes, range) := blob in
   match from_shared_range bytes range with
   | Some payload => dec_ret (LogEntry_application term payload)
   | None => dec_fail (UnexpectedEof range.2 (length_u64 bytes))
   end) (reader_at pre rest)
  = (let! payload := read_blob in dec_ret (LogEntry_application term payload)) (reader_at pre rest).
Proof.
  unfold shared_blob_range, read_blob, blob_bytes, dec_bind.
  destruct (read_u32 (reader_at pre rest)) as [[len r]|] eqn:Hlen; [|done].
  apply grammar_sound in Hlen as (bs & post & -> & -> & _). unfold read_take.
  destruct (take_range_at len (pre ++ bs) post _ eq_refl) as [(b2 & p2 & -> & Hl & ->)|[_ ->]]; [|done].
  unfold from_shared_range. cbn [fst snd]. simpl rd_payload.
  replace (_ && _) with true; [unfold reader_at; simpl; by rewrite <- !app_assoc|].
  symmetry. unfold reader_at. simpl. rewrite !length_u64_app, andb_true_iff, !N.leb_le. lia.
Qed.

Definition decode_stable_change : dec (ConfigurationId * MembershipSet) :=
  let! config_id := read_u64 in let! membership := decode_set in dec_ret (config_id, membership).
Definition decode_joint_change : dec (ConfigurationId * JointMembership) :=
  let! config_id := read_u64 in let! membership := decode_joint in dec_ret (config_id, membership).

Definition decode_kind : dec LogEntryKind :=
  let! value := read_u8 in
  let! tag := dec_lift (LogEntryTag_try_from value) in
  match tag with
  | Tag_Application => let! payload := read_blob in dec_ret (Application payload)
  | Tag_ConfigurationStable =>
      let! change := decode_stable_change in dec_ret (Configuration (StableEntry change.1 change.2))
  | Tag_ConfigurationJoint =>
      let! change := decode_joint_change in dec_ret (Configuration (JointEntry change.1 change.2))
  | Tag_Noop => dec_ret Noop
  end.

Lemma decode_log_entry_kind pre rest :
  decode_log_entry (reader_at pre rest)
  = (let! term := read_u64 in
     let! kind := decode_kind in
     dec_ret {| entry_term := term; entry_kind := kind |}) (reader_at pre rest).
Proof.
  apply bind_ext; [eexists; typeclasses eauto|]. clear. intros term pre rest. unfold decode_kind. rewrite dec_bind_assoc.
  apply bind_ext; [eexists; typeclasses eauto|]. clear. intros value pre rest. rewrite dec_bind_assoc.
  apply bind_ext; [eexists; typeclasses eauto|]. clear. intros [] pre rest.
  - rewrite shared_payload. unfold dec_bind, dec_ret. repeat case_match; by simplify_eq.
  - unfold decode_stable_change, dec_bind, dec_ret. repeat case_match; by simplify_eq.
  - unfold decode_joint_change, decode_joint, dec_bind, dec_ret. repeat case_match; by simplify_eq.
  - done.
Qed.

Definition kind_valid (kind : LogEntryKind) : Prop :=
  match kind with
  | Application _ | Noop => True
  | Configuration (StableEntry id m) => fits64 id /\ set_valid m
  | Configuration (JointEntry id j) => fits64 id /\ joint_valid j
  end.

Definition encode_kind (kind : LogEntryKind) : enc VecSink :=
  match kind with
  | Application payload =>
      write_u8 (LogEntryTag_into Tag_Application) ;;w write_blob "entry_payload" payload
  | Configuration (StableEntry id m) =>
      write_u8 (LogEntryTag_into Tag_ConfigurationStable) ;;w write_u64 id ;;w encode_set m
  | Configuration (JointEntry id j) =>
      write_u8 (LogEntryTag_into Tag_ConfigurationJoint) ;;w write_u64 id ;;w encode_joint j
  | Noop => write_u8 (LogEntryTag_into Tag_Noop)
  end.

#[export] Instance encode_kind_appends kind : Appends (encode_kind kind).
Proof. destruct kind as [|[]|]; simpl; typeclasses eauto. Qed.
#[global] Typeclasses Opaque encode_kind.

#[export] Instance stable_change_coded : Grammar decode_stable_change
  (coded (fun c => fits64 c.1 /\ set_valid c.2) (fun c => write_u64 c.1 ;;w encode_set c.2)).
Proof. apply (drop_constraint _ (fun _ => True)); [done|]. unfold decode_stable_change.
  field (@fst ConfigurationId MembershipSet). last_field (@snd ConfigurationId MembershipSet).
Qed.

#[export] Instance joint_change_coded : Grammar decode_joint_change
  (coded (fun c => fits64 c.1 /\ joint_valid c.2) (fun c => write_u64 c.1 ;;w encode_joint c.2)).
Proof. apply (drop_constraint _ (fun _ => True)); [done|]. unfold decode_joint_change.
  field (@fst ConfigurationId JointMembership). last_field (@snd ConfigurationId JointMembership).
Qed.

#[export] Instance kind_coded : Grammar decode_kind (coded kind_valid encode_kind).
Proof.
  eapply coded_grammar.
  { unfold decode_kind. apply (tag_Grammar _ LogEntryTag_into _ (fun tag kind bs =>
      match tag, kind with
      | Tag_Application, Application payload => coded anything (write_blob "entry_payload") payload bs
      | Tag_ConfigurationStable, Configuration (StableEntry id m) =>
          coded (fun c => fits64 c.1 /\ set_valid c.2) (fun c => write_u64 c.1 ;;w encode_set c.2) (id, m) bs
      | Tag_ConfigurationJoint, Configuration (JointEntry id j) =>
          coded (fun c => fits64 c.1 /\ joint_valid c.2) (fun c => write_u64 c.1 ;;w encode_joint c.2) (id, j) bs
      | Tag_Noop, Noop => bs = []
      | _, _ => False
      end) LogEntryTag_spec).
    intros [].
    - eapply (coded_ctor Application); [apply blob_coded|]. intros [|[]|] bs; naive_solver.
    - eapply (coded_ctor (fun c => Configuration (StableEntry c.1 c.2))); [apply stable_change_coded|].
      intros [|[]|] bs; split; try naive_solver. intros H. by eexists (_, _).
    - eapply (coded_ctor (fun c => Configuration (JointEntry c.1 c.2))); [apply joint_change_coded|].
      intros [|[]|] bs; split; try naive_solver. intros H. by eexists (_, _).
    - eapply Grammar_iff; [apply ret_Grammar|]. intros [|[]|] bs; unfold ret_grammar; naive_solver. }
  intros kind bs. unfold encode_kind, kind_valid, coded, anything. destruct kind as [payload|[id m|id j]|].
  1-3: rewrite emit_tag by typeclasses eauto.
  4: unfold write_u8; rewrite emit_bytes.
  all: split; [intros ([] & rest & -> & H); try done; naive_solver|].
  - intros (Hv & rest & -> & He). by exists Tag_Application, rest.
  - intros (Hv & rest & -> & He). by exists Tag_ConfigurationStable, rest.
  - intros (Hv & rest & -> & He). by exists Tag_ConfigurationJoint, rest.
  - intros (_ & [= <-]). by exists Tag_Noop, [].
Qed.

Definition entry_valid (entry : LogEntry) : Prop := fits64 (entry_term entry) /\ kind_valid (entry_kind entry).

Lemma encode_log_entry_kind entry :
  encode_log_entry entry = (write_u64 (entry_term entry) ;;w encode_kind (entry_kind entry)).
Proof. destruct entry as [term [|[]|]]; done. Qed.

#[export] Instance encode_log_entry_appends entry : Appends (encode_log_entry entry).
Proof. rewrite encode_log_entry_kind. typeclasses eauto. Qed.
#[global] Typeclasses Opaque encode_log_entry.

#[export] Instance entry_coded : Grammar decode_log_entry (coded entry_valid encode_log_entry).
Proof.
  eapply Grammar_ext; [apply decode_log_entry_kind|].
  eapply (coded_grammar _ (coded entry_valid (fun entry => write_u64 (entry_term entry) ;;w encode_kind (entry_kind entry))));
    [|intros a bs; rewrite encode_log_entry_kind; reflexivity].
  apply (drop_constraint _ (fun _ => True)); [done|]. field entry_term. last_field entry_kind.
Qed.

(** ** Appends *)

Definition append_request_valid (request : AppendEntries) : Prop :=
  fits64 (ae_term request) /\ fits64 (ae_leader_id request) /\ fits64 (ae_prev_log_index request) /\
  fits64 (ae_prev_log_term request) /\ Forall entry_valid (ae_entries request) /\
  fits64 (ae_leader_commit request) /\ fits64 (ae_sequence request).

#[export] Instance encode_append_request_appends request : Appends (encode_append_request request).
Proof. unfold encode_append_request. typeclasses eauto. Qed.
#[global] Typeclasses Opaque encode_append_request.

(** The constraint of a count is met by the sequence that follows it. *)
Lemma count_field {A B} (C : B -> Prop) (items : B -> list A) field (d : dec A) v e (k : list A -> dec B) v2 e2
    `{!forall a, Appends (e a), !forall b, Appends (e2 b)} :
  Grammar d (coded v e) ->
  (forall l, Grammar (k l) (fun b bs => (C b /\ items b = l) /\ coded v2 e2 b bs)) ->
  Grammar (let! count := read_u32 in let! l := dec_times (N.to_nat count) d in k l)
    (fun b bs => C b /\ coded (fun b => Forall v (items b) /\ v2 b)
       (fun b => length_u32 field (length_u64 (items b)) ;;w enc_each e (items b) ;;w e2 b) b bs).
Proof.
  intros Hd Hk. eapply coded_weaken; [|eapply (coded_field C (fun b => length_u64 (items b)) (fun _ => True)
    _ _ anything (fun b => Forall v (items b) /\ v2 b) (length_u32 field) (fun b => enc_each e (items b) ;;w e2 b))].
  - intros a _. unfold anything. naive_solver.
  - apply no_constraint, count_u32_coded.
  - done.
  - intros count _. apply (coded_field _ items (fun l => length l = N.to_nat count) _ _ (Forall v) v2 (enc_each e) e2).
    + exact (times_coded _ _ _ _ Hd).
    + intros b [_ <-]. unfold length_u64. lia.
    + intros l Hl. eapply Grammar_iff; [apply Hk|]. intros b bs. simpl. unfold length_u64.
      split; [intros ((HC & <-) & Hb); split; [split; [split; [done|lia]|done]|done]|intros (((HC & _) & <-) & Hb); done].
Qed.

#[export] Instance append_request_coded :
  Grammar decode_append_request (coded append_request_valid encode_append_request).
Proof.
  apply (drop_constraint _ (fun _ => True)); [done|].
  unfold decode_append_request, encode_append_request, append_request_valid.
  field ae_term. field ae_leader_id. field ae_prev_log_index. field ae_prev_log_term.
  apply count_field; [typeclasses eauto|typeclasses eauto|apply entry_coded|]. intros entries.
  field ae_leader_commit. last_field ae_sequence.
Qed.

Definition append_response_valid (response : AppendEntriesResponse) : Prop :=
  fits64 (aer_term response) /\ fits64 (aer_follower_id response) /\ anything (aer_success response) /\
  fits64 (aer_match_index response) /\ fits64 (aer_sequence response).

#[export] Instance encode_append_response_appends response : Appends (encode_append_response response).
Proof. unfold encode_append_response. typeclasses eauto. Qed.
#[global] Typeclasses Opaque encode_append_response.

#[export] Instance append_response_coded :
  Grammar decode_append_response (coded append_response_valid encode_append_response).
Proof.
  apply (drop_constraint _ (fun _ => True)); [done|].
  unfold decode_append_response, encode_append_response, append_response_valid.
  field aer_term. field aer_follower_id. field aer_success. field aer_match_index. last_field aer_sequence.
Qed.

(** ** Optional parts *)

Definition option_valid {A} (v : A -> Prop) (o : option A) : Prop :=
  match o with Some a => v a | None => True end.

Definition encode_option {A} (e : A -> enc VecSink) (o : option A) : enc VecSink :=
  match o with Some a => e a | None => enc_done end.

Definition encode_optional {A} (e : A -> enc VecSink) (o : option A) : enc VecSink :=
  write_bool (is_some o) ;;w encode_option e o.

#[export] Instance encode_option_appends {A} (e : A -> enc VecSink) o :
  (forall a, Appends (e a)) -> Appends (encode_option e o).
Proof. intros He. destruct o; simpl; typeclasses eauto. Qed.
#[global] Typeclasses Opaque encode_option.

#[export] Instance encode_optional_appends {A} (e : A -> enc VecSink) o :
  (forall a, Appends (e a)) -> Appends (encode_optional e o).
Proof. unfold encode_optional. typeclasses eauto. Qed.
#[global] Typeclasses Opaque encode_optional.

Lemma optional_coded {A} (d : dec A) v e `{!forall a, Appends (e a)} :
  Grammar d (coded v e) -> Grammar (decode_optional d) (coded (option_valid v) (encode_optional e)).
Proof.
  intros Hd. eapply coded_grammar; [by apply optional_Grammar|]. intros o bs.
  unfold optional_grammar, encode_optional, coded. change (write_bool (is_some o)) with (write_u8 (if is_some o then x01 else x00)).
  rewrite emit_tag by typeclasses eauto. destruct o as [a|]; simpl; [naive_solver|].
  split; [intros ->; split; [done|by exists []]|by intros (_ & rest & -> & [= <-])].
Qed.

(** ** Snapshots *)

Definition identity_valid (c : CommittedConfiguration) : Prop := fits64 (cc_index c) /\ fits64 (cc_config_id c).
Definition encode_identity (c : CommittedConfiguration) : enc VecSink :=
  write_u64 (cc_index c) ;;w write_u64 (cc_config_id c).

#[export] Instance encode_identity_appends c : Appends (encode_identity c).
Proof. unfold encode_identity. typeclasses eauto. Qed.
#[global] Typeclasses Opaque encode_identity.

#[export] Instance identity_coded : Grammar decode_configuration_identity (coded identity_valid encode_identity).
Proof.
  apply (drop_constraint _ (fun _ => True)); [done|].
  unfold decode_configuration_identity, encode_identity, identity_valid. field cc_index. last_field cc_config_id.
Qed.

Lemma emit_ext e e' : (forall w, e w = e' w) -> emit e = emit e'.
Proof. unfold emit. by intros ->. Qed.

Lemma seq_ext (e1 e e' : enc VecSink) : (forall w, e w = e' w) -> forall w, (e1 ;;w e) w = (e1 ;;w e') w.
Proof. intros He w. unfold enc_seq. destruct (e1 w) as [? []]; by rewrite ?He. Qed.

Lemma seq_assoc (e1 e2 e3 : enc VecSink) w : ((e1 ;;w e2) ;;w e3) w = (e1 ;;w e2 ;;w e3) w.
Proof. unfold enc_seq. by destruct (e1 w) as [? []]. Qed.

Lemma emit_assoc e1 e2 e3 : emit (e1 ;;w e2 ;;w e3) = emit ((e1 ;;w e2) ;;w e3).
Proof. unfold emit, enc_seq. by destruct (e1 _) as [? []]. Qed.

Definition decode_scc : dec SnapshotCommittedConfiguration :=
  let! configuration := decode_optional decode_configuration_identity in
  let! membership := decode_config in
  dec_ret {| scc_configuration := configuration; scc_membership := membership |}.

Definition scc_valid (c : SnapshotCommittedConfiguration) : Prop :=
  option_valid identity_valid (scc_configuration c) /\ config_valid (scc_membership c).

Definition encode_scc (c : SnapshotCommittedConfiguration) : enc VecSink :=
  encode_optional encode_identity (scc_configuration c) ;;w encode_config (scc_membership c).

#[export] Instance encode_scc_appends c : Appends (encode_scc c).
Proof. unfold encode_scc. typeclasses eauto. Qed.
#[global] Typeclasses Opaque encode_scc.

#[export] Instance scc_coded : Grammar decode_scc (coded scc_valid encode_scc).
Proof.
  apply (drop_constraint _ (fun _ => True)); [done|]. unfold decode_scc, scc_valid, encode_scc.
  pose proof (optional_coded _ _ _ identity_coded). field scc_configuration. last_field scc_membership.
Qed.

#[export] Instance encode_committed_configuration_appends c : Appends (encode_committed_configuration c).
Proof. unfold encode_committed_configuration. destruct c as [[[] ?]|]; typeclasses eauto. Qed.
#[global] Typeclasses Opaque encode_committed_configuration.

#[export] Instance committed_configuration_coded :
  Grammar decode_committed_configuration (coded (option_valid scc_valid) encode_committed_configuration).
Proof.
  apply (Grammar_ext (decode_optional decode_scc)).
  { intros. unfold decode_committed_configuration, decode_optional at 2, decode_scc. apply bind_ext; [eexists; typeclasses eauto|].
    intros [] pre' rest'; [|done]. simpl. by rewrite dec_bind_assoc; apply bind_ext; [eexists; typeclasses eauto|]; intros; rewrite dec_bind_assoc. }
  eapply coded_grammar; [apply (optional_coded _ _ _ scc_coded)|]. intros c bs. unfold coded.
  replace (emit (encode_committed_configuration c)) with (emit (encode_optional encode_scc c)); [done|].
  destruct c as [[conf m]|]; [|done].
  transitivity (emit (write_bool true ;;w encode_scc {| scc_configuration := conf; scc_membership := m |})); [done|].
  transitivity (emit (write_bool true ;;w write_bool (is_some conf) ;;w encode_option encode_identity conf ;;w encode_config m));
    [|done].
  rewrite (emit_seq (write_bool true)), (emit_seq (write_bool true)) by typeclasses eauto. by rewrite emit_assoc.
Qed.

(** *** Metadata *)

(** A value read and then checked by its constructor. *)
Definition read_checked {A B E} (d : dec A) (error : E -> DecodePeerMessageError) (new : A -> result B E) : dec B :=
  let! a := d in dec_lift (map_err error (new a)).

Lemma checked_coded {A B E} (d : dec A) error (new : A -> result B E) (get : B -> A) v e (ok : B -> Prop) :
  Grammar d (coded v e) -> (forall a b, new a = Ok b <-> a = get b /\ ok b) ->
  Grammar (read_checked d error new) (coded (fun b => v (get b) /\ ok b) (fun b => e (get b))).
Proof.
  intros Hd Hnew. eapply coded_grammar; [unfold read_checked; typeclasses eauto|]. intros b bs.
  unfold bind_grammar, lift_grammar, coded. setoid_rewrite map_err_Ok. setoid_rewrite Hnew. split.
  - intros (a & bs1 & ? & -> & [Hv He] & [-> Hok] & ->). by rewrite app_nil_r.
  - intros [[Hv Hok] He]. exists (get b), bs, []. by rewrite app_nil_r.
Qed.

Definition id_valid (field : SnapshotIdField) (value : list N) : Prop := validate_snapshot_id field value = Ok tt.

Lemma snapshot_id_char_scalar c : snapshot_id_char c = true -> scalar c.
Proof.
  unfold snapshot_id_char, scalar. rewrite !orb_true_iff, !andb_true_iff, !N.leb_le, !N.eqb_eq. lia.
Qed.

Lemma id_valid_scalar field value : id_valid field value -> Forall scalar value.
Proof.
  unfold id_valid, validate_snapshot_id. repeat (case_match; [done|]). intros _.
  apply Forall_forall. intros c Hc%list_elem_of_In. apply snapshot_id_char_scalar, negb_false_iff.
  match goal with H : find_first _ _ = None |- _ => apply find_first_None with (x := c) in H; done end.
Qed.

#[export] Instance group_id_coded :
  Grammar (read_checked (read_string "snapshot_group_id") InvalidSnapshotGroupId SnapshotGroupId_new)
    (coded (fun g => id_valid FieldGroupId (group_id_str g)) (fun g => write_string "snapshot_group_id" (group_id_str g))).
Proof.
  eapply coded_grammar; [apply (checked_coded _ _ _ group_id_str _ _ (fun g => id_valid FieldGroupId (group_id_str g)) (string_coded "snapshot_group_id"))|].
  - unfold SnapshotGroupId_new, id_valid. intros a [b]. simpl.
    destruct (validate_snapshot_id FieldGroupId a) as [[]|] eqn:E; simpl; split; [by intros [= ->]|by intros [-> _]|done|].
    intros [-> H]. congruence.
  - intros g bs. unfold coded. pose proof (id_valid_scalar FieldGroupId (group_id_str g)). naive_solver.
Qed.

#[export] Instance application_kind_coded :
  Grammar (read_checked (read_string "application_snapshot_kind") InvalidApplicationSnapshotKind ApplicationSnapshotKind_new)
    (coded (fun k => id_valid FieldApplicationKind (application_kind_str k))
       (fun k => write_string "application_snapshot_kind" (application_kind_str k))).
Proof.
  eapply coded_grammar;
    [apply (checked_coded _ _ _ application_kind_str _ _ (fun k => id_valid FieldApplicationKind (application_kind_str k))
       (string_coded "application_snapshot_kind"))|].
  - unfold ApplicationSnapshotKind_new, id_valid. intros a [b]. simpl.
    destruct (validate_snapshot_id FieldApplicationKind a) as [[]|] eqn:E; simpl; split; [by intros [= ->]|by intros [-> _]|done|].
    intros [-> H]. congruence.
  - intros k bs. unfold coded. pose proof (id_valid_scalar FieldApplicationKind (application_kind_str k)). naive_solver.
Qed.

Definition version_valid (v : ApplicationSnapshotVersion) : Prop :=
  fits16 (application_version v) /\ application_version v <> 0.

#[export] Instance application_version_coded :
  Grammar (read_checked read_u16 InvalidApplicationSnapshotVersion ApplicationSnapshotVersion_new)
    (coded version_valid (fun v => write_u16 (application_version v))).
Proof.
  apply (checked_coded _ _ _ application_version _ _ (fun v => application_version v <> 0) u16_coded).
  unfold ApplicationSnapshotVersion_new. intros a [b]. simpl. destruct (N.eqb_spec a 0); split; try done.
  - by intros [-> ?].
  - intros [= ->]. done.
  - by intros [-> _].
Qed.

(** The conditions of [RaftSnapshotMetadata::new]. *)
Definition boundary_valid (m : RaftSnapshotMetadata) : Prop :=
  last_included_index m <> 0 /\ last_included_index m <> u64_max /\ last_included_term m <> 0 /\
  last_included_term m <= hard_state_term m.

Definition metadata_valid (m : RaftSnapshotMetadata) : Prop :=
  id_valid FieldGroupId (group_id_str (group_id m)) /\ fits64 (writer_id m) /\ fits64 (last_included_index m) /\
  fits64 (last_included_term m) /\ fits64 (hard_state_term m) /\
  id_valid FieldApplicationKind (application_kind_str (app_kind (application m))) /\
  version_valid (app_version (application m)) /\
  option_valid scc_valid (metadata_committed_configuration m) /\ boundary_valid m.

#[export] Instance encode_metadata_appends m : Appends (encode_metadata m).
Proof. unfold encode_metadata. typeclasses eauto. Qed.
#[global] Typeclasses Opaque encode_metadata.

(** The constructor with the committed configuration it is given afterwards. *)
Definition metadata_new gid writer index term hard_term app committed : result RaftSnapshotMetadata SnapshotMetadataError :=
  let? m := RaftSnapshotMetadata_new gid writer index term hard_term app in
  Ok (match committed with Some c => with_committed_configuration m c | None => m end).

Lemma coded_last_checked {A B E} (C : B -> Prop) (proj : B -> A) (d : dec A) error (new : A -> result B E) v1 e1 (ok : B -> Prop) :
  Grammar d (coded v1 e1) -> (forall a b, new a = Ok b <-> (C b /\ a = proj b) /\ ok b) ->
  Grammar (read_checked d error new) (fun b bs =>
    C b /\ coded (fun b => v1 (proj b) /\ ok b) (fun b => e1 (proj b)) b bs).
Proof.
  intros Hd Hnew. eapply Grammar_iff.
  { apply (checked_coded d error new proj v1 e1 (fun b => ok b /\ C b) Hd). intros a b. rewrite Hnew. naive_solver. }
  intros b bs. unfold coded. naive_solver.
Qed.

#[export] Instance metadata_coded : Grammar decode_metadata (coded metadata_valid encode_metadata).
Proof.
  eapply (Grammar_ext (
    let! group_id := read_checked (read_string "snapshot_group_id") InvalidSnapshotGroupId SnapshotGroupId_new in
    let! writer_id := read_u64 in
    let! last_included_index := read_u64 in
    let! last_included_term := read_u64 in
    let! hard_state_term := read_u64 in
    let! kind := read_checked (read_string "application_snapshot_kind") InvalidApplicationSnapshotKind ApplicationSnapshotKind_new in
    let! version := read_checked read_u16 InvalidApplicationSnapshotVersion ApplicationSnapshotVersion_new in
    read_checked decode_committed_configuration InvalidSnapshotMetadata
      (metadata_new group_id writer_id last_included_index last_included_term hard_state_term
         {| app_kind := kind; app_version := version |}))).
  { intros. unfold decode_metadata, read_checked, metadata_new.
    repeat (rewrite ?dec_bind_assoc; apply bind_ext; [eexists; typeclasses eauto|clear; intros]).
    unfold dec_bind, dec_lift, dec_ret. destruct (RaftSnapshotMetadata_new _ _ _ _ _ _); done. }
  apply (drop_constraint _ (fun _ => True)); [done|]. unfold metadata_valid, encode_metadata.
  field_as group_id (fun g => id_valid FieldGroupId (group_id_str g))
    (fun g => write_string "snapshot_group_id" (group_id_str g) : enc VecSink).
  field writer_id. field last_included_index. field last_included_term. field hard_state_term.
  field_as (fun m => app_kind (application m)) (fun k => id_valid FieldApplicationKind (application_kind_str k))
    (fun k => write_string "application_snapshot_kind" (application_kind_str k) : enc VecSink).
  field_as (fun m => app_version (application m)) version_valid
    (fun v => write_u16 (application_version v) : enc VecSink).
  apply coded_last_checked; [typeclasses eauto|]. intros committed m. unfold boundary_valid, metadata_new, RaftSnapshotMetadata_new, Term_is_zero.
  destruct (N.eqb_spec a1 0); [naive_solver|]. destruct (N.eqb_spec a1 u64_max); [naive_solver|].
  destruct (N.eqb_spec a2 0); [naive_solver|]. destruct (N.ltb_spec a3 a2); simpl.
  - split; [done|]. intros H'. destruct_and!. subst. lia.
  - split.
    + intros [= <-]. destruct committed; simpl; by split_and!.
    + intros H'. destruct_and!. subst. destruct m as [g w li lt hs [] [|]]; done.
Qed.

(** *** Chunks and responses *)

Definition chunk_valid (request : InstallSnapshotChunk) : Prop :=
  fits64 (isc_term request) /\ fits64 (isc_leader_id request) /\ fits64 (isc_transfer_id request) /\
  metadata_valid (isc_metadata request) /\ fits64 (isc_total_payload_len request) /\
  fits32 (isc_application_payload_crc32 request) /\ fits64 (isc_offset request) /\
  anything (isc_chunk request) /\ anything (isc_done request).

#[export] Instance encode_chunk_appends request : Appends (encode_chunk request).
Proof. unfold encode_chunk. typeclasses eauto. Qed.
#[global] Typeclasses Opaque encode_chunk.

#[export] Instance chunk_coded : Grammar decode_chunk (coded chunk_valid encode_chunk).
Proof.
  apply (drop_constraint _ (fun _ => True)); [done|]. unfold decode_chunk, chunk_valid, encode_chunk.
  field isc_term. field isc_leader_id. field isc_transfer_id. field isc_metadata. field isc_total_payload_len.
  field isc_application_payload_crc32. field isc_offset. field isc_chunk. last_field isc_done.
Qed.

Definition snapshot_response_valid (response : InstallSnapshotResponse) : Prop :=
  fits64 (isr_term response) /\ fits64 (isr_follower_id response) /\ anything (isr_success response) /\
  fits64 (isr_last_included_index response) /\ option_valid fits64 (isr_transfer_id response) /\
  fits64 (isr_next_offset response).

#[export] Instance encode_snapshot_response_appends response : Appends (encode_snapshot_response response).
Proof. unfold encode_snapshot_response. destruct (isr_transfer_id response); typeclasses eauto. Qed.
#[global] Typeclasses Opaque encode_snapshot_response.

#[export] Instance snapshot_response_coded :
  Grammar decode_snapshot_response (coded snapshot_response_valid encode_snapshot_response).
Proof.
  eapply (coded_grammar _ (coded snapshot_response_valid (fun response =>
    write_u64 (isr_term response) ;;w write_u64 (isr_follower_id response) ;;w write_bool (isr_success response) ;;w
    write_u64 (isr_last_included_index response) ;;w encode_optional write_u64 (isr_transfer_id response) ;;w
    write_u64 (isr_next_offset response)))).
  { apply (drop_constraint _ (fun _ => True)); [done|]. unfold decode_snapshot_response, snapshot_response_valid.
    pose proof (optional_coded _ _ _ u64_coded).
    field isr_term. field isr_follower_id. field isr_success. field isr_last_included_index.
    field isr_transfer_id. last_field isr_next_offset. }
  intros response bs. unfold coded. f_equiv. unfold encode_snapshot_response.
  rewrite (emit_ext _ (write_u64 (isr_term response) ;;w write_u64 (isr_follower_id response) ;;w
    write_bool (isr_success response) ;;w write_u64 (isr_last_included_index response) ;;w
    (write_bool (is_some (isr_transfer_id response)) ;;w
     encode_option write_u64 (isr_transfer_id response) ;;w write_u64 (isr_next_offset response)))); [done|].
  repeat apply seq_ext. apply seq_assoc.
Qed.

(** ** Messages *)

Definition decode_request_vote : dec RequestVote :=
  let! term := read_u64 in let! candidate_id := read_u64 in
  let! last_log_index := read_u64 in let! last_log_term := read_u64 in
  dec_ret {| rv_term := term; rv_candidate_id := candidate_id;
             rv_last_log_index := last_log_index; rv_last_log_term := last_log_term |}.
Definition decode_request_vote_response : dec RequestVoteResponse :=
  let! term := read_u64 in let! voter_id := read_u64 in let! vote_granted := read_bool in
  dec_ret {| rvr_term := term; rvr_voter_id := voter_id; rvr_vote_granted := vote_granted |}.
Definition decode_pre_vote : dec PreVote :=
  let! term := read_u64 in let! candidate_id := read_u64 in
  let! last_log_index := read_u64 in let! last_log_term := read_u64 in
  dec_ret {| pv_term := term; pv_candidate_id := candidate_id;
             pv_last_log_index := last_log_index; pv_last_log_term := last_log_term |}.
Definition decode_pre_vote_response : dec PreVoteResponse :=
  let! term := read_u64 in let! voter_id := read_u64 in let! vote_granted := read_bool in
  dec_ret {| pvr_term := term; pvr_voter_id := voter_id; pvr_vote_granted := vote_granted |}.
Definition decode_timeout_now : dec TimeoutNow :=
  let! term := read_u64 in let! leader_id := read_u64 in
  dec_ret {| tn_term := term; tn_leader_id := leader_id |}.

(** What a message must satisfy to be carried: every number fits its width,
    memberships are canonical, snapshot metadata passes its constructor's
    checks, and the message is not the whole-snapshot form. *)
Definition message_valid (message : Message) : Prop :=
  match message with
  | MRequestVote r =>
      fits64 (rv_term r) /\ fits64 (rv_candidate_id r) /\ fits64 (rv_last_log_index r) /\ fits64 (rv_last_log_term r)
  | MRequestVoteResponse r => fits64 (rvr_term r) /\ fits64 (rvr_voter_id r) /\ anything (rvr_vote_granted r)
  | MAppendEntries r => append_request_valid r
  | MAppendEntriesResponse r => append_response_valid r
  | MInstallSnapshot _ => False
  | MInstallSnapshotResponse r => snapshot_response_valid r
  | MInstallSnapshotChunk r => chunk_valid r
  | MPreVote r =>
      fits64 (pv_term r) /\ fits64 (pv_candidate_id r) /\ fits64 (pv_last_log_index r) /\ fits64 (pv_last_log_term r)
  | MPreVoteResponse r => fits64 (pvr_term r) /\ fits64 (pvr_voter_id r) /\ anything (pvr_vote_granted r)
  | MTimeoutNow r => fits64 (tn_term r) /\ fits64 (tn_leader_id r)
  end.

#[export] Instance encode_fields_appends message : Appends (encode_fields message).
Proof. destruct message; simpl; typeclasses eauto. Qed.
#[global] Typeclasses Opaque encode_fields.

#[export] Instance encode_payload_appends message : Appends (encode_payload message).
Proof. unfold encode_payload. destruct (message_tag message); typeclasses eauto. Qed.
#[global] Typeclasses Opaque encode_payload.

Lemma request_vote_coded : Grammar decode_request_vote
  (coded (fun r => fits64 (rv_term r) /\ fits64 (rv_candidate_id r) /\ fits64 (rv_last_log_index r) /\ fits64 (rv_last_log_term r))
     (fun r => write_u64 (rv_term r) ;;w write_u64 (rv_candidate_id r) ;;w write_u64 (rv_last_log_index r) ;;w write_u64 (rv_last_log_term r))).
Proof.
  apply (drop_constraint _ (fun _ => True)); [done|]. unfold decode_request_vote.
  field rv_term. field rv_candidate_id. field rv_last_log_index. last_field rv_last_log_term.
Qed.

Lemma request_vote_response_coded : Grammar decode_request_vote_response
  (coded (fun r => fits64 (rvr_term r) /\ fits64 (rvr_voter_id r) /\ anything (rvr_vote_granted r))
     (fun r => write_u64 (rvr_term r) ;;w write_u64 (rvr_voter_id r) ;;w write_bool (rvr_vote_granted r))).
Proof.
  apply (drop_constraint _ (fun _ => True)); [done|]. unfold decode_request_vote_response.
  field rvr_term. field rvr_voter_id. last_field rvr_vote_granted.
Qed.

Lemma pre_vote_coded : Grammar decode_pre_vote
  (coded (fun r => fits64 (pv_term r) /\ fits64 (pv_candidate_id r) /\ fits64 (pv_last_log_index r) /\ fits64 (pv_last_log_term r))
     (fun r => write_u64 (pv_term r) ;;w write_u64 (pv_candidate_id r) ;;w write_u64 (pv_last_log_index r) ;;w write_u64 (pv_last_log_term r))).
Proof.
  apply (drop_constraint _ (fun _ => True)); [done|]. unfold decode_pre_vote.
  field pv_term. field pv_candidate_id. field pv_last_log_index. last_field pv_last_log_term.
Qed.

Lemma pre_vote_response_coded : Grammar decode_pre_vote_response
  (coded (fun r => fits64 (pvr_term r) /\ fits64 (pvr_voter_id r) /\ anything (pvr_vote_granted r))
     (fun r => write_u64 (pvr_term r) ;;w write_u64 (pvr_voter_id r) ;;w write_bool (pvr_vote_granted r))).
Proof.
  apply (drop_constraint _ (fun _ => True)); [done|]. unfold decode_pre_vote_response.
  field pvr_term. field pvr_voter_id. last_field pvr_vote_granted.
Qed.

Lemma timeout_now_coded : Grammar decode_timeout_now
  (coded (fun r => fits64 (tn_term r) /\ fits64 (tn_leader_id r))
     (fun r => write_u64 (tn_term r) ;;w write_u64 (tn_leader_id r))).
Proof.
  apply (drop_constraint _ (fun _ => True)); [done|]. unfold decode_timeout_now.
  field tn_term. last_field tn_leader_id.
Qed.

(** The fields of one message, under its tag. *)
Lemma message_ctor {A} tag (f : A -> Message) (d : dec A) v e :
  Grammar d (coded v e) -> (forall a, message_valid (f a) = v a) -> (forall a, encode_fields (f a) = e a) ->
  (forall m, message_tag m = Ok tag <-> exists a, m = f a) ->
  Grammar (dec_bind d (fun a => dec_ret (f a)))
    (fun message bs => message_tag message = Ok tag /\ coded message_valid encode_fields message bs).
Proof.
  intros Hd Hv He Hf. eapply Grammar_iff; [by apply map_Grammar|]. intros m bs. rewrite Hf. unfold coded.
  split; [intros (a & -> & H); split; [by exists a|by rewrite Hv, He]|].
  intros ((a & ->) & H). exists a. by rewrite Hv, He in H.
Qed.

Ltac by_ctor H :=
  eapply message_ctor; [exact H|done|done|]; intros [];
    (split; [intros [=]; by eexists|intros [? [=]]; done]).

Lemma fields_coded tag : Grammar (decode_fields tag)
  (fun message bs => message_tag message = Ok tag /\ coded message_valid encode_fields message bs).
Proof.
  destruct tag; simpl decode_fields.
  - regroup decode_request_vote MRequestVote. by_ctor request_vote_coded.
  - regroup decode_request_vote_response MRequestVoteResponse. by_ctor request_vote_response_coded.
  - by_ctor append_request_coded.
  - by_ctor append_response_coded.
  - by_ctor snapshot_response_coded.
  - by_ctor chunk_coded.
  - regroup decode_pre_vote MPreVote. by_ctor pre_vote_coded.
  - regroup decode_pre_vote_response MPreVoteResponse. by_ctor pre_vote_response_coded.
  - regroup decode_timeout_now MTimeoutNow. by_ctor timeout_now_coded.
Qed.

#[export] Instance payload_coded : Grammar decode_payload (coded message_valid encode_payload).
Proof.
  eapply coded_grammar; [apply (tag_Grammar _ MessageTag_into _ _ MessageTag_spec fields_coded)|].
  intros message bs. unfold encode_payload, coded. destruct (message_tag message) as [tag|error] eqn:Htag.
  - rewrite emit_tag by typeclasses eauto. naive_solver.
  - split; [naive_solver|]. by intros [_ ?].
Qed.
