(* ===== verification/FrameSpec.v ===== *)
(** * Frames: round trip, canonicity, damage and sizing

    The envelope of [crates/rafter-codec/src/frame.rs] over the grammar of
    [CodecSpec]: decoding inverts encoding, only encodings are accepted, cut
    and damaged frames are refused, the counting pass predicts the encoding
    pass, and a claimed entry count never reserves more than the bytes hold. *)

From stdpp Require Import base strings list numbers option.
From Stdlib Require Import Strings.Byte.
From S2P Require Import Prelude.
From S2P Require Import Types.
From S2P Require Import Crc32.
From S2P Require Import Snapshot.
From S2P Require Import Message.
From S2P Require Import Wire.
From S2P Require Import CodecV1.
From S2P Require Import Frame.
From S2P Require Import Grammar.
From S2P Require Import Emit.
From S2P Require Import CodecSpec.

(** ** The counting sink *)

(** A counter that stands where a vector does, up to saturation. *)
Definition counts (c : CountingSink) (w : VecSink) : Prop :=
  counted c = N.min (length_u64 (sink_bytes w)) u64_max.

(** The two runs of one encoder, over a counter and over a vector. *)
Class TwoPass (ec : enc CountingSink) (ev : enc VecSink) : Prop := two_pass : forall c w,
  counts c w -> counts (ec c).1 (ev w).1 /\ (ec c).2 = (ev w).2.

#[export] Instance write_bytes_two_pass bytes : TwoPass (write_bytes bytes) (write_bytes bytes).
Proof.
  intros [c] [w] Hc. split; [|done]. unfold counts in *. simpl in *. subst.
  rewrite length_u64_app. unfold u64_saturating_add. lia.
Qed.

#[export] Instance enc_done_two_pass : TwoPass enc_done enc_done.
Proof. by intros c w Hc. Qed.
#[export] Instance enc_fail_two_pass error : TwoPass (enc_fail error) (enc_fail error).
Proof. by intros c w Hc. Qed.

#[export] Instance enc_seq_two_pass ec1 ev1 ec2 ev2 :
  TwoPass ec1 ev1 -> TwoPass ec2 ev2 -> TwoPass (ec1 ;;w ec2) (ev1 ;;w ev2).
Proof.
  intros H1 H2 c w Hc. destruct (H1 c w Hc) as [Hc1 He1]. unfold enc_seq.
  destruct (ec1 c) as [c1 [|]], (ev1 w) as [w1 [|]]; simpl in *; try done. by apply H2.
Qed.

#[export] Instance enc_each_two_pass {A} (fc : A -> enc CountingSink) fv items :
  (forall a, TwoPass (fc a) (fv a)) -> TwoPass (enc_each fc items) (enc_each fv items).
Proof. intros Hf. induction items; simpl; typeclasses eauto. Qed.

#[export] Instance write_u8_two_pass value : TwoPass (write_u8 value) (write_u8 value) := write_bytes_two_pass _.
#[export] Instance write_bool_two_pass value : TwoPass (write_bool value) (write_bool value) := write_bytes_two_pass _.
#[export] Instance write_u16_two_pass value : TwoPass (write_u16 value) (write_u16 value) := write_bytes_two_pass _.
#[export] Instance write_u32_two_pass value : TwoPass (write_u32 value) (write_u32 value) := write_bytes_two_pass _.
#[export] Instance write_u64_two_pass value : TwoPass (write_u64 value) (write_u64 value) := write_bytes_two_pass _.
#[export] Instance length_u16_two_pass field len : TwoPass (length_u16 field len) (length_u16 field len).
Proof. unfold length_u16. destruct (_ <=? _); typeclasses eauto. Qed.
#[export] Instance length_u32_two_pass field len : TwoPass (length_u32 field len) (length_u32 field len).
Proof. unfold length_u32. destruct (_ <=? _); typeclasses eauto. Qed.
#[export] Instance write_string_two_pass field value : TwoPass (write_string field value) (write_string field value).
Proof. unfold write_string. typeclasses eauto. Qed.
#[export] Instance write_blob_two_pass field value : TwoPass (write_blob field value) (write_blob field value).
Proof. unfold write_blob. typeclasses eauto. Qed.

#[export] Instance encode_set_two_pass m : TwoPass (encode_set m) (encode_set m).
Proof. unfold encode_set. typeclasses eauto. Qed.
#[export] Instance encode_config_two_pass c : TwoPass (encode_config c) (encode_config c).
Proof. destruct c; simpl; typeclasses eauto. Qed.
#[export] Instance encode_log_entry_two_pass e : TwoPass (encode_log_entry e) (encode_log_entry e).
Proof. unfold encode_log_entry. destruct (entry_kind e) as [|[]|]; typeclasses eauto. Qed.
#[export] Instance encode_committed_configuration_two_pass c :
  TwoPass (encode_committed_configuration c) (encode_committed_configuration c).
Proof. unfold encode_committed_configuration. destruct c as [[[] ?]|]; typeclasses eauto. Qed.
#[export] Instance encode_metadata_two_pass m : TwoPass (encode_metadata m) (encode_metadata m).
Proof. unfold encode_metadata. typeclasses eauto. Qed.
#[export] Instance encode_fields_two_pass m : TwoPass (encode_fields m) (encode_fields m).
Proof.
  destruct m; simpl; unfold encode_append_request, encode_append_response, encode_chunk, encode_snapshot_response;
    try typeclasses eauto. destruct (isr_transfer_id _); typeclasses eauto.
Qed.
#[export] Instance encode_payload_two_pass m : TwoPass (encode_payload m) (encode_payload m).
Proof. unfold encode_payload. destruct (message_tag m); typeclasses eauto. Qed.

Lemma body_two_pass m : TwoPass (encode_frame_body m) (encode_frame_body m).
Proof. unfold encode_frame_body. typeclasses eauto. Qed.

(** ** Sealed frames *)

Definition frame_header : list u8 := MAGIC ++ [VERSION].

(** A payload in its envelope. *)
Definition sealed (body : list u8) : list u8 :=
  (frame_header ++ body) ++ be_bytes 4 (frame_crc32 (frame_header ++ body)).

Lemma frame_crc32_small bytes : frame_crc32 bytes < 4294967296.
Proof.
  unfold frame_crc32, RunningCrc32_value, u32_not. simpl. rewrite crc_update_bitwise by done.
  change 4294967296 with (2 ^ 32). apply lxor_small; [|done]. by apply crc_bitwise_small.
Qed.

Lemma encode_frame_body_emit message :
  emit (encode_frame_body message) = (fun body => frame_header ++ body) <$> emit (encode_payload message).
Proof.
  unfold encode_frame_body. rewrite !emit_seq by typeclasses eauto. unfold write_u8. rewrite !emit_bytes.
  by destruct (emit (encode_payload message)).
Qed.

(** What the buffer holds after a call, and what it returns. *)
Lemma encode_message_into_spec output message :
  encode_message_into output message =
  match emit (encode_payload message) with
  | Some body => (sealed body, Ok tt)
  | None => ([], (encode_frame_body message {| sink_bytes := [] |}).2)
  end.
Proof.
  pose proof (encode_frame_body_emit message) as Hb. unfold encode_message_into. unfold emit at 1 in Hb.
  destruct (body_two_pass message {| counted := 0 |} {| sink_bytes := [] |}) as [_ He]; [done|].
  destruct (encode_frame_body message {| counted := 0 |}) as [c [|]],
    (encode_frame_body message {| sink_bytes := [] |}) as [w [|]]; simpl in *; try done;
    destruct (emit (encode_payload message)); simplify_eq/=; [|done]. by rewrite Hb.
Qed.

Lemma encode_message_Ok message bs :
  encode_message message = Ok bs <-> exists body, emit (encode_payload message) = Some body /\ bs = sealed body.
Proof.
  unfold encode_message. rewrite encode_message_into_spec. pose proof (encode_frame_body_emit message) as Hb.
  destruct (emit (encode_payload message)) as [body|]; [naive_solver|]. simpl in Hb. unfold emit in Hb.
  destruct (encode_frame_body message _) as [w [|]]; [done|]. simpl. naive_solver.
Qed.

#[local] Arguments be_bytes : simpl never.

(** Everything before the checksum. *)
Definition decode_unsealed : dec Message :=
  let! magic := array_4 in
  if negb (bool_decide (magic = MAGIC)) then dec_fail (InvalidMagic magic)
  else
    let! version := read_u8 in
    if negb (bool_decide (version = VERSION)) then dec_fail (UnsupportedVersion version)
    else decode_payload.

Lemma unsealed_Grammar : Grammar decode_unsealed (fun message bs =>
  exists body, bs = frame_header ++ body /\ coded message_valid encode_payload message body).
Proof.
  unfold decode_unsealed, array_4. eapply Grammar_iff.
  { apply (bind_Grammar _ _ _ (fun magic m bs => magic = MAGIC /\ exists rest, bs = VERSION :: rest /\
      coded message_valid encode_payload m rest) (take_Grammar 4)).
    intros magic. destruct (bool_decide_reflect (magic = MAGIC)) as [->|Hne]; simpl; [|by apply (Grammar_iff _ _ _ (fail_Grammar _)); naive_solver].
    eapply Grammar_iff.
    { apply (bind_Grammar _ _ _ (fun version m bs => version = VERSION /\ coded message_valid encode_payload m bs) _).
      intros version. destruct (bool_decide_reflect (version = VERSION)) as [->|Hne]; simpl.
      - eapply Grammar_iff; [apply payload_coded|]. naive_solver.
      - apply (Grammar_iff _ _ _ (fail_Grammar _)). naive_solver. }
    intros m bs. unfold bind_grammar. split.
    - intros (version & b1 & rest & -> & -> & -> & Hm). split; [done|]. by exists rest.
    - intros (_ & rest & -> & Hm). by exists VERSION, [VERSION], rest. }
  intros m bs. unfold bind_grammar, frame_header. split.
  - intros (magic & b1 & b2 & -> & (-> & _) & -> & rest & -> & Hm). exists rest. by rewrite <- app_assoc.
  - intros (body & -> & Hm). exists MAGIC, MAGIC, (VERSION :: body). rewrite <- app_assoc. split_and!; try done. by exists body.
Qed.

#[local] Opaque frame_header.

Lemma decode_message_unsealed payload :
  decode_message payload =
  (let? (message, reader) := decode_unsealed (reader_at [] payload) in
   let checksum_start := rd_position reader in
   let? (expected, reader) := read_u32 reader in
   let actual := frame_crc32 (take (N.to_nat checksum_start) payload) in
   if negb (expected =? actual) then Err (FrameChecksumMismatch expected actual)
   else
     let? _ := finish reader in
     Ok message).
Proof.
  unfold decode_message, decode_unsealed, dec_bind. change (Reader_new payload) with (reader_at [] payload).
  destruct (array_4 _) as [[magic r]|]; simpl; [|done]. destruct (bool_decide (magic = MAGIC)); simpl; [|done].
  destruct (read_u8 r) as [[version r']|]; simpl; [|done]. by destruct (bool_decide (version = VERSION)).
Qed.

Lemma finish_at pre post : finish (reader_at pre post) = if length_u64 post =? 0 then Ok tt else Err (TrailingBytes (length_u64 post)).
Proof. unfold finish. by rewrite remaining_at. Qed.

Lemma take_at (pre post : list u8) : take (N.to_nat (length_u64 pre)) (pre ++ post) = pre.
Proof. unfold length_u64. by rewrite Nat2N.id, take_app_length. Qed.

(** A frame is accepted exactly when it is a sealed payload. *)
Lemma decode_message_Ok bs message :
  decode_message bs = Ok message <->
  exists body, coded message_valid encode_payload message body /\ bs = sealed body.
Proof.
  pose proof unsealed_Grammar as HG. rewrite decode_message_unsealed. split.
  - destruct (decode_unsealed (reader_at [] bs)) as [[m r]|] eqn:E1; [|done]. simpl.
    apply grammar_sound in E1 as (b1 & p1 & -> & -> & body & -> & Hm).
    destruct (read_u32 _) as [[expected r]|] eqn:E2; [|done]. simpl.
    apply (@grammar_sound _ _ _ _ _ u32_Grammar) in E2 as (b2 & p2 & -> & -> & Hlt & ->).
    rewrite finish_at, take_at.
    destruct (N.eqb_spec expected (frame_crc32 (frame_header ++ body))) as [->|]; [|done]. cbv beta iota delta [negb].
    destruct (N.eqb_spec (length_u64 p2) 0) as [Hp|]; [|done]. intros [= <-].
    assert (p2 = []) as -> by (apply nil_length_inv; unfold length_u64 in Hp; lia).
    exists body. split; [done|]. unfold sealed. by rewrite app_nil_r.
  - intros (body & Hm & ->). unfold sealed at 1.
    rewrite (@grammar_reads _ _ _ _ _ HG message (frame_header ++ body)) by (by exists body). simpl.
    rewrite <- (app_nil_r (be_bytes 4 _)), (@grammar_reads _ _ _ _ _ u32_Grammar (frame_crc32 (frame_header ++ body)) (be_bytes 4 (frame_crc32 (frame_header ++ body)))).
    + simpl. unfold sealed. by rewrite finish_at, take_at, N.eqb_refl.
    + split; [apply frame_crc32_small|done].
Qed.

(** ** Encoding errors *)

(** The only errors of field encoders are lengths over their prefix. *)
Class Oversize (e : enc VecSink) : Prop := oversize : forall w w' error,
  e w = (w', Err error) -> exists field len max, error = FieldTooLarge field len max /\ max < len.

#[export] Instance write_bytes_oversize bytes : Oversize (write_bytes bytes).
Proof. by intros w w' error. Qed.
#[export] Instance enc_done_oversize : Oversize enc_done.
Proof. by intros w w' error. Qed.
#[export] Instance enc_seq_oversize e1 e2 : Oversize e1 -> Oversize e2 -> Oversize (e1 ;;w e2).
Proof.
  intros H1 H2 w w' error. unfold enc_seq. destruct (e1 w) as [w1 [|error1]] eqn:E; [apply H2|].
  intros [= <- <-]. by eapply H1.
Qed.
#[export] Instance enc_each_oversize {A} (f : A -> enc VecSink) items :
  (forall a, Oversize (f a)) -> Oversize (enc_each f items).
Proof. intros Hf. induction items; simpl; typeclasses eauto. Qed.
#[export] Instance write_u8_oversize value : Oversize (write_u8 value) := write_bytes_oversize _.
#[export] Instance write_bool_oversize value : Oversize (write_bool value) := write_bytes_oversize _.
#[export] Instance write_u16_oversize value : Oversize (write_u16 value) := write_bytes_oversize _.
#[export] Instance write_u32_oversize value : Oversize (write_u32 value) := write_bytes_oversize _.
#[export] Instance write_u64_oversize value : Oversize (write_u64 value) := write_bytes_oversize _.
#[export] Instance length_u16_oversize field len : Oversize (length_u16 field len).
Proof.
  unfold length_u16. destruct (N.leb_spec len 65535); [typeclasses eauto|]. intros w w' error [= _ <-]. eauto 10.
Qed.
#[export] Instance length_u32_oversize field len : Oversize (length_u32 field len).
Proof.
  unfold length_u32. destruct (N.leb_spec len 4294967295); [typeclasses eauto|]. intros w w' error [= _ <-]. eauto 10.
Qed.
#[export] Instance write_string_oversize field value : Oversize (write_string field value).
Proof. unfold write_string. typeclasses eauto. Qed.
#[export] Instance write_blob_oversize field value : Oversize (write_blob field value).
Proof. unfold write_blob. typeclasses eauto. Qed.
#[export] Instance encode_set_oversize m : Oversize (encode_set m).
Proof. unfold encode_set. typeclasses eauto. Qed.
#[export] Instance encode_config_oversize c : Oversize (encode_config c).
Proof. destruct c; simpl; typeclasses eauto. Qed.
#[export] Instance encode_log_entry_oversize e : Oversize (encode_log_entry e).
Proof. unfold encode_log_entry. destruct (entry_kind e) as [|[]|]; typeclasses eauto. Qed.
#[export] Instance encode_committed_configuration_oversize c : Oversize (encode_committed_configuration c).
Proof. unfold encode_committed_configuration. destruct c as [[[] ?]|]; typeclasses eauto. Qed.
#[export] Instance encode_metadata_oversize m : Oversize (encode_metadata m).
Proof. unfold encode_metadata. typeclasses eauto. Qed.
#[export] Instance encode_fields_oversize m : Oversize (encode_fields m).
Proof.
  destruct m; simpl; unfold encode_append_request, encode_append_response, encode_chunk, encode_snapshot_response;
    try typeclasses eauto. destruct (isr_transfer_id _); typeclasses eauto.
Qed.

(** ** Theorems *)

(** C28: decoding inverts encoding: the frame of a message whose numbers fit
    their widths, whose memberships are canonical and whose snapshot metadata is
    valid decodes to that message. *)
Theorem frame_roundtrip message bs :
  message_valid message -> encode_message message = Ok bs -> decode_message bs = Ok message.
Proof.
  intros Hv (body & Hb & ->)%encode_message_Ok. apply decode_message_Ok. by exists body.
Qed.

(** C29: only encodings are accepted: whatever bytes the decoder accepts, the
    message it returns is well formed and encodes to exactly those bytes. *)
Theorem frame_canonical message bs :
  decode_message bs = Ok message -> message_valid message /\ encode_message message = Ok bs.
Proof.
  intros (body & [Hv Hb] & ->)%decode_message_Ok. split; [done|]. apply encode_message_Ok. by exists body.
Qed.

(** C30: every proper prefix of an accepted frame is refused, and the error is
    an unexpected end. *)
Theorem frame_truncation message bs cut :
  decode_message bs = Ok message -> cut_short cut bs ->
  exists needed remaining, decode_message cut = Err (UnexpectedEof needed remaining).
Proof.
  intros (body & Hm & ->)%decode_message_Ok Hcut. rewrite decode_message_unsealed.
  pose proof unsealed_Grammar as HG. set (head := frame_header ++ body).
  assert (exists body', head = frame_header ++ body' /\ coded message_valid encode_payload message body')
    as Hhead by (by exists body).
  apply cut_short_app in Hcut as [Hcut|(tail & -> & Hcut)].
  - destruct (@grammar_short _ _ _ _ _ HG message head Hhead [] cut Hcut) as (needed & left & ->). by exists needed, left.
  - rewrite (@grammar_reads _ _ _ _ _ HG message head Hhead). cbn [fst snd].
    destruct (@grammar_short _ _ _ _ _ u32_Grammar (frame_crc32 head) (be_bytes 4 (frame_crc32 head)))
      with (pre := [] ++ head) (p := tail) as (needed & left & ->); [split; [apply frame_crc32_small|done]|done|].
    by exists needed, left.
Qed.

(** The checksum field determines the checksum. *)
Lemma be_bytes_crc_inj p q : be_bytes 4 (frame_crc32 p) = be_bytes 4 (frame_crc32 q) -> frame_crc32 p = frame_crc32 q.
Proof.
  intros H. apply (f_equal from_be) in H. rewrite !from_be_be_bytes in H.
  by rewrite !N.mod_small in H by apply frame_crc32_small.
Qed.

(** A frame split four bytes before its end. *)
Lemma sealed_split u v body :
  length v = 4%nat -> u ++ v = sealed body -> u = frame_header ++ body /\ v = be_bytes 4 (frame_crc32 u).
Proof.
  intros Hv H. unfold sealed in H. apply app_inj_2 in H as [-> ->]; [done|]. by rewrite length_be_bytes.
Qed.

(** C31: an accepted frame in which up to four adjacent bytes are changed, all
    before the checksum or all inside it, is refused. *)
Theorem frame_damage message a x y b :
  decode_message (a ++ x ++ b) = Ok message ->
  length x = length y -> (length x <= 4)%nat -> x <> y ->
  (4 <= length b \/ length x + length b <= 4)%nat ->
  exists error, decode_message (a ++ y ++ b) = Err error.
Proof.
  intros Hx Hlen Hw Hne Hpos. destruct (decode_message (a ++ y ++ b)) as [message'|error] eqn:Hy; [|by exists error].
  exfalso. apply Hne. apply decode_message_Ok in Hx as (body & _ & Hx). apply decode_message_Ok in Hy as (body' & _ & Hy).
  destruct Hpos as [Hb|Hb].
  - rewrite <- (take_drop (length b - 4) b), !app_assoc in Hx, Hy.
    apply sealed_split in Hx as [_ Hx]; [|rewrite length_drop; lia].
    apply sealed_split in Hy as [_ Hy]; [|rewrite length_drop; lia].
    rewrite Hx, <- !app_assoc in Hy. by apply be_bytes_crc_inj, frame_crc32_window in Hy.
  - assert (4 <= length a + length x + length b)%nat as Hl.
    { apply (f_equal length) in Hx. unfold sealed in Hx. rewrite !length_app, length_be_bytes in Hx. lia. }
    set (k := (length a - (4 - length x - length b))%nat).
    rewrite <- (take_drop k a), <- app_assoc in Hx, Hy.
    apply sealed_split in Hx as [_ Hx]; [|rewrite !length_app, length_drop; lia].
    apply sealed_split in Hy as [_ Hy]; [|rewrite !length_app, length_drop; lia].
    rewrite <- Hx in Hy. apply app_inv_head in Hy. by apply app_inv_tail in Hy.
Qed.

(** C32: a failed encoding leaves the caller's buffer empty whatever it held,
    and it fails only for the whole-snapshot message or for a field longer than
    its length prefix can say. *)
Theorem encode_error_leaves_nothing output message after error :
  encode_message_into output message = (after, Err error) ->
  after = [] /\
  ((exists snapshot, message = MInstallSnapshot snapshot /\
      error = UnsupportedMessage "InstallSnapshot"%string "use InstallSnapshotChunk for peer transport"%string) \/
   (exists field len max, error = FieldTooLarge field len max /\ max < len)).
Proof.
  rewrite encode_message_into_spec. destruct (emit (encode_payload message)); [done|]. intros [= <- H].
  split; [done|]. unfold encode_frame_body, encode_payload in H. destruct (message_tag message) as [tag|error'] eqn:Htag.
  - right. destruct ((write_bytes MAGIC ;;w write_u8 VERSION ;;w write_u8 (MessageTag_into tag) ;;w encode_fields message) {| sink_bytes := [] |})
      as [w r] eqn:E. simpl in H. subst r. by eapply oversize in E.
  - left. destruct message; simplify_eq/=. eauto.
Qed.

(** C33: the counting pass of the encoder reserves exactly the bytes of the
    frame that the writing pass then produces. *)
Theorem encode_reservation_exact message bs :
  encode_message message = Ok bs -> length_u64 bs <= u64_max -> encode_reservation message = length_u64 bs.
Proof.
  intros (body & Hb & ->)%encode_message_Ok Hl. unfold encode_reservation.
  destruct (body_two_pass message {| counted := 0 |} {| sink_bytes := [] |}) as [Hc _]; [done|].
  unfold sink_position, CountingSink_sink. rewrite Hc.
  pose proof (encode_frame_body_emit message) as He. rewrite Hb in He. unfold emit in He. simpl in He.
  destruct (encode_frame_body message {| sink_bytes := [] |}) as [w [|]]; [|done]. injection He as He.
  cbn [fst]. rewrite He. unfold sealed in Hl |- *. rewrite (length_u64_app (_ ++ _)), length_u64_be_bytes in Hl |- *.
  unfold u64_saturating_add. lia.
Qed.

(** ** A frame *)

Definition sample_message : Message :=
  MAppendEntries {|
    ae_term := 7; ae_leader_id := 1; ae_prev_log_index := 3; ae_prev_log_term := 6; ae_sequence := 12;
    ae_entries := [LogEntry_application 7 [x68; x69];
                   LogEntry_configuration 7 (StableEntry 2 {| voters := [1; 2; 3]; learners := [4] |});
                   LogEntry_noop 7];
    ae_leader_commit := 3 |}.

Definition sample_frame : list u8 :=
  match encode_message sample_message with Ok bs => bs | Err _ => [] end.

Lemma sample_encodes : encode_message sample_message = Ok sample_frame.
Proof. by vm_compute. Qed.

Lemma sample_decodes : decode_message sample_frame = Ok sample_message.
Proof. by vm_compute. Qed.

Lemma sample_valid : message_valid sample_message.
Proof. by destruct (proj1 (decode_message_Ok _ _) sample_decodes) as (body & [Hv _] & _). Qed.

Lemma frame_roundtrip_witness : decode_message sample_frame = Ok sample_message.
Proof. apply frame_roundtrip; [exact sample_valid|exact sample_encodes]. Defined.

Lemma frame_canonical_witness : message_valid sample_message /\ encode_message sample_message = Ok sample_frame.
Proof. apply frame_canonical. exact sample_decodes. Defined.

Lemma frame_truncation_witness :
  exists needed remaining, decode_message (take 40 sample_frame) = Err (UnexpectedEof needed remaining).
Proof.
  apply (frame_truncation sample_message sample_frame); [exact sample_decodes|].
  split; [apply prefix_take|by vm_compute; lia].
Defined.

Lemma frame_damage_witness :
  exists error, decode_message (take 21 sample_frame ++ [xff] ++ drop 22 sample_frame) = Err error.
Proof.
  apply (frame_damage sample_message _ [x01]); [by vm_compute|reflexivity|simpl; lia|discriminate|left].
  vm_compute. lia.
Defined.

Definition whole_snapshot : Message :=
  MInstallSnapshot {|
    is_term := 1; is_leader_id := 1;
    is_metadata := {|
      group_id := {| group_id_str := [97] |}; writer_id := 1; last_included_index := 1; last_included_term := 1;
      hard_state_term := 1;
      application := {| app_kind := {| application_kind_str := [98] |}; app_version := {| application_version := 1 |} |};
      metadata_committed_configuration := None |};
    is_application_payload := [] |}.

Lemma encode_error_leaves_nothing_witness :
  @nil u8 = [] /\
  ((exists snapshot, whole_snapshot = MInstallSnapshot snapshot /\
      UnsupportedMessage "InstallSnapshot"%string "use InstallSnapshotChunk for peer transport"%string
      = UnsupportedMessage "InstallSnapshot"%string "use InstallSnapshotChunk for peer transport"%string) \/
   (exists field len max,
      UnsupportedMessage "InstallSnapshot"%string "use InstallSnapshotChunk for peer transport"%string
      = FieldTooLarge field len max /\ max < len)).
Proof. exact (encode_error_leaves_nothing [x01] whole_snapshot _ _ eq_refl). Defined.

Lemma encode_reservation_exact_witness : encode_reservation sample_message = length_u64 sample_frame.
Proof. apply encode_reservation_exact; [exact sample_encodes|by vm_compute]. Defined.
