(* ===== verification/ReceiveLimit.v ===== *)
(** * Frame sizes

    The size of every frame of version 1, and with it what
    [crates/rafter-codec/src/limits.rs] promises a transport: no frame a
    conforming leader sends exceeds [max_receive_frame_bytes] of the append
    budget, where a conforming append carries a batch that
    [log_batch_from_bounded] of the kernel assembles.  Also the bound on what a
    claimed entry count makes the decoder reserve. *)

From stdpp Require Import base strings list numbers option.
From Stdlib Require Import Strings.Byte.
From S2P Require Import Prelude.
From S2P Require Import Types.
From S2P Require Import Crc32.
From S2P Require Import Snapshot.
From S2P Require Import Message.
From S2P Require Import NodeState.
From S2P Require Import Log.
From S2P Require Import Send.
From S2P Require Import Wire.
From S2P Require Import CodecV1.
From S2P Require Import Frame.
From S2P Require Import Grammar.
From S2P Require Import Emit.
From S2P Require Import CodecSpec.
From S2P Require Import FrameSpec.

(** ** Sizes of encodings *)

Class Sized (e : enc VecSink) (size : N) : Prop := sized : forall bs, emit e = Some bs -> length_u64 bs = size.

#[export] Instance write_bytes_sized bytes : Sized (write_bytes bytes) (length_u64 bytes).
Proof. intros bs. rewrite emit_bytes. by intros [= <-]. Qed.
#[export] Instance write_u8_sized value : Sized (write_u8 value) 1 := write_bytes_sized _.
#[export] Instance write_bool_sized value : Sized (write_bool value) 1 := write_bytes_sized _.
#[export] Instance write_u16_sized value : Sized (write_u16 value) 2.
Proof. intros bs. unfold write_u16. rewrite emit_bytes. intros [= <-]. done. Qed.
#[export] Instance write_u32_sized value : Sized (write_u32 value) 4.
Proof. intros bs. unfold write_u32. rewrite emit_bytes. intros [= <-]. done. Qed.
#[export] Instance write_u64_sized value : Sized (write_u64 value) 8.
Proof. intros bs. unfold write_u64. rewrite emit_bytes. intros [= <-]. done. Qed.
#[export] Instance enc_done_sized : Sized enc_done 0.
Proof. by intros bs [= <-]. Qed.
#[export] Instance length_u16_sized field len : Sized (length_u16 field len) 2.
Proof. intros bs. rewrite emit_length_u16. destruct (_ <=? _); [|done]. by intros [= <-]. Qed.
#[export] Instance length_u32_sized field len : Sized (length_u32 field len) 4.
Proof. intros bs. rewrite emit_length_u32. destruct (_ <=? _); [|done]. by intros [= <-]. Qed.

#[export] Instance enc_seq_sized e1 e2 n1 n2 `{!Appends e1, !Appends e2} :
  Sized e1 n1 -> Sized e2 n2 -> Sized (e1 ;;w e2) (n1 + n2).
Proof.
  intros H1 H2 bs. rewrite emit_seq_Some by done. intros (b1 & b2 & -> & Hb1 & Hb2).
  rewrite length_u64_app. by rewrite (H1 b1 Hb1), (H2 b2 Hb2).
Qed.

Definition total {A} (size : A -> N) (items : list A) : N := foldr (fun a n => size a + n) 0 items.

#[export] Instance enc_each_sized {A} (f : A -> enc VecSink) size items `{!forall a, Appends (f a)} :
  (forall a, Sized (f a) (size a)) -> Sized (enc_each f items) (total size items).
Proof. intros Hf. induction items; simpl; typeclasses eauto. Qed.

Lemma total_const {A} k (items : list A) : total (fun _ => k) items = k * length_u64 items.
Proof. unfold length_u64. induction items; simpl; [lia|]. rewrite IHitems. lia. Qed.

#[export] Instance write_string_sized field value : Sized (write_string field value) (2 + str_len value).
Proof.
  unfold write_string. intros bs. rewrite emit_seq_Some by typeclasses eauto.
  intros (b1 & b2 & -> & Hb1 & [= <-]). rewrite length_u64_app, (length_u16_sized _ _ _ Hb1).
  by rewrite str_len_bytes.
Qed.
#[export] Instance write_blob_sized field value : Sized (write_blob field value) (4 + length_u64 value).
Proof. unfold write_blob. typeclasses eauto. Qed.

(** The length of what an encoder emitted, by its parts. *)
Ltac by_size H :=
  match type of H with
  | emit ?e = Some _ => let Hs := fresh in eassert (Sized e _) as Hs by typeclasses eauto; rewrite (Hs _ H)
  end.

(** The pieces of what a sequence emitted. *)
Ltac parts H :=
  repeat (rewrite emit_seq_Some in H by typeclasses eauto;
          let Hp := fresh "Hpart" in destruct H as (? & ? & -> & Hp & H)).

(** ** Memberships and entries *)

Definition members (m : MembershipSet) : N := length_u64 (voters m) + length_u64 (learners m).

Definition config_members (c : MembershipConfig) : N :=
  match c with
  | Stable m => members m
  | Joint j => members (old j) + members (new_membership j)
  end.

#[export] Instance encode_set_sized m : Sized (encode_set m) (4 + 8 * members m).
Proof.
  intros bs Hb. unfold encode_set, members in *.
  assert (Sized (enc_each write_u64 (voters m)) (8 * length_u64 (voters m)))
    by (rewrite <- total_const; typeclasses eauto).
  assert (Sized (enc_each write_u64 (learners m)) (8 * length_u64 (learners m)))
    by (rewrite <- total_const; typeclasses eauto).
  by_size Hb. lia.
Qed.

(** Member counts are 16-bit fields. *)
Lemma encode_set_members m bs : emit (encode_set m) = Some bs -> members m <= 131070.
Proof.
  unfold encode_set. intros H. parts H. rewrite !emit_length_u16 in *. unfold members.
  destruct (N.leb_spec (length_u64 (voters m)) 65535), (N.leb_spec (length_u64 (learners m)) 65535); try done. lia.
Qed.

#[export] Instance encode_config_sized c : Sized (encode_config c)
  (match c with Stable _ => 5 | Joint _ => 9 end + 8 * config_members c).
Proof. intros bs Hb. destruct c; simpl in *; by_size Hb; lia. Qed.

Lemma encode_config_members c bs : emit (encode_config c) = Some bs -> config_members c <= 262140.
Proof.
  destruct c as [m|j]; simpl; intros H; parts H;
    repeat match goal with H' : emit (encode_set _) = _ |- _ => apply encode_set_members in H' end; lia.
Qed.

Definition entry_size (entry : LogEntry) : N :=
  match entry_kind entry with
  | Application payload => 13 + length_u64 payload
  | Configuration change =>
      match change with StableEntry _ _ => 21 | JointEntry _ _ => 25 end
      + 8 * config_members (membership_config change)
  | Noop => 9
  end.

#[export] Instance encode_log_entry_sized entry : Sized (encode_log_entry entry) (entry_size entry).
Proof.
  intros bs Hb. unfold encode_log_entry, entry_size in *.
  destruct (entry_kind entry) as [payload|[id m|id j]|]; by_size Hb; simpl; lia.
Qed.

Lemma entry_size_min entry : 9 <= entry_size entry.
Proof. unfold entry_size. destruct (entry_kind entry) as [|[]|]; lia. Qed.

(** What a log entry that was encoded satisfies. *)
Lemma encoded_entry_members entry change bs :
  emit (encode_log_entry entry) = Some bs -> entry_kind entry = Configuration change ->
  config_members (membership_config change) <= 262140.
Proof.
  unfold encode_log_entry. intros H Hk. rewrite Hk in H. destruct change as [id m|id j]; simpl in *; parts H;
    repeat match goal with H' : emit (encode_set _) = _ |- _ => apply encode_set_members in H' end; lia.
Qed.

(** ** Frames *)

Lemma encode_message_size message bs n :
  encode_message message = Ok bs -> Sized (encode_payload message) n -> length_u64 bs = 9 + n.
Proof.
  intros (body & Hb & ->)%encode_message_Ok Hn. unfold sealed. rewrite !length_u64_app, length_u64_be_bytes, (Hn _ Hb).
  change (length_u64 frame_header) with 5. lia.
Qed.

(** An encoded payload is a tag and its fields. *)
Lemma encode_message_fields message bs :
  encode_message message = Ok bs -> exists fields,
    emit (encode_fields message) = Some fields /\ length_u64 bs = 10 + length_u64 fields.
Proof.
  intros (body & Hb & ->)%encode_message_Ok. unfold encode_payload in Hb.
  destruct (message_tag message) as [tag|]; [|done]. apply emit_tag in Hb as (fields & -> & Hf); [|typeclasses eauto].
  exists fields. split; [done|]. unfold sealed. rewrite !length_u64_app, length_u64_be_bytes.
  change (length_u64 frame_header) with 5. unfold length_u64. simpl length. lia.
Qed.

(** ** What a conforming leader sends *)

(** A leader admits an application payload that fits its budget, sends batches
    that fit it beyond their first entry, and caps snapshot chunks. *)
Definition admitted (budget : usize) (entry : LogEntry) : Prop :=
  is_application (entry_kind entry) = true -> replication_bytes entry <= budget.

Definition conforming (budget : usize) (message : Message) : Prop :=
  match message with
  | MAppendEntries request =>
      Forall (admitted budget) (ae_entries request) /\
      ((length (ae_entries request) <= 1)%nat \/ batch_bytes 0 (ae_entries request) <= budget)
  | MInstallSnapshotChunk request => length_u64 (isc_chunk request) <= INSTALL_SNAPSHOT_CHUNK_BYTES
  | _ => True
  end.

Lemma batch_bytes_total entries bytes :
  bytes <= u64_max -> batch_bytes bytes entries = N.min (bytes + total replication_bytes entries) u64_max.
Proof.
  revert bytes. induction entries as [|e entries IH]; intros bytes Hb; unfold batch_bytes in *; simpl; [lia|].
  rewrite IH; unfold u64_saturating_add; lia.
Qed.

(** The members of an entry's configuration are counted by 16-bit fields. *)
Definition bounded_members (entry : LogEntry) : Prop :=
  forall change, entry_kind entry = Configuration change -> config_members (membership_config change) <= 262140.

(** What an entry is charged against what it costs on the wire. *)
Lemma entry_charge entry :
  bounded_members entry -> entry_size entry < u64_max - 51 ->
  if is_application (entry_kind entry) then entry_size entry + 51 = replication_bytes entry
  else 3 * entry_size entry <= 2 * replication_bytes entry /\ entry_size entry <= 2097145.
Proof.
  intros Hm Hs. unfold entry_size, replication_bytes, bounded_members in *.
  destruct (entry_kind entry) as [payload|change|]; simpl.
  - unfold application_replication_bytes, APPLICATION_LOG_ENTRY_REPLICATION_OVERHEAD_BYTES, u64_saturating_add. lia.
  - specialize (Hm change eq_refl). destruct change as [id m|id j]; simpl in *; unfold members in *;
      rewrite (u64_add_small (length_u64 _) (length_u64 _)) by (unfold u64_modulus; lia);
      repeat (rewrite (u64_add_small (_ + _) (length_u64 _)) by (unfold u64_modulus; lia));
      unfold u64_saturating_add, u64_saturating_mul, CONFIGURATION_LOG_ENTRY_BASE_BYTES,
        CONFIGURATION_LOG_ENTRY_PER_MEMBER_BYTES, u64_max in *; lia.
  - unfold NOOP_LOG_ENTRY_REPLICATION_BYTES. lia.
Qed.

Lemma entries_charge entries :
  Forall bounded_members entries -> total entry_size entries < u64_max - 51 ->
  total entry_size entries <= total replication_bytes entries /\
  (total entry_size entries + 51 <= total replication_bytes entries \/
   3 * total entry_size entries <= 2 * total replication_bytes entries).
Proof.
  induction 1 as [|e entries He Hes IH]; simpl; [lia|]. intros Hs.
  pose proof (entry_charge e He ltac:(lia)) as Hc. specialize (IH ltac:(lia)).
  destruct (is_application (entry_kind e)); lia.
Qed.

(** ** The receive limit *)

Lemma encoded_entries_bounded entries bs :
  emit (enc_each encode_log_entry entries) = Some bs -> Forall bounded_members entries.
Proof.
  revert bs. induction entries as [|e entries IH]; intros bs; [constructor|]. simpl.
  rewrite emit_seq_Some by typeclasses eauto. intros (b1 & b2 & -> & H1 & H2). constructor; [|by eapply IH].
  intros change. by apply (encoded_entry_members e change b1).
Qed.

Lemma append_within_limit budget request fields :
  emit (encode_append_request request) = Some fields -> conforming budget (MAppendEntries request) ->
  10 + length_u64 fields <= u64_max -> 10 + length_u64 fields <= max_receive_frame_bytes budget.
Proof.
  intros Hf [Ha Hb]. unfold encode_append_request in Hf.
  assert (Forall bounded_members (ae_entries request)) as Hm.
  { pose proof Hf as Hf'. parts Hf'. by eapply encoded_entries_bounded. }
  by_size Hf. intros Hmax. unfold max_receive_frame_bytes.
  change MAX_MEMBERSHIP_DRIVEN_FRAME_BYTES with 2163036. change APPLICATION_APPEND_FRAME_OVERHEAD_BYTES with 11.
  set (entries := ae_entries request) in *.
  assert (62 + total entry_size entries <= N.max (u64_saturating_add budget 11) 2163036) as Hgoal;
    [|destruct (N.ltb_spec 2163036 (u64_saturating_add budget 11)); lia].
  destruct Hb as [Hb|Hb].
  - destruct entries as [|e [|]]; simpl in *; [lia| |lia].
    apply Forall_inv in Hm. apply Forall_inv in Ha. pose proof (entry_charge e Hm ltac:(unfold u64_max in *; lia)) as Hc.
    unfold admitted in Ha. unfold u64_saturating_add. destruct (is_application (entry_kind e)); [specialize (Ha eq_refl)|]; lia.
  - destruct (entries_charge entries Hm ltac:(unfold u64_max in *; lia)) as [H1 H2]. rewrite batch_bytes_total in Hb by done.
    unfold u64_saturating_add. lia.
Qed.

(** ** Snapshot chunks *)

Lemma id_valid_length field value : id_valid field value -> str_len value <= 128.
Proof.
  unfold id_valid, validate_snapshot_id. destruct (str_len value =? 0); [done|].
  destruct (N.ltb_spec 128 (str_len value)); [done|]. done.
Qed.

(** The size of what an encoder emits, where it depends on the value. *)
Definition own_size (e : enc VecSink) : N := default 0 (length_u64 <$> emit e).

Lemma own_sized e : Sized e (own_size e).
Proof. intros bs H. unfold own_size. by rewrite H. Qed.

Lemma committed_configuration_size c : own_size (encode_committed_configuration c) <= 18 + 9 + 8 * 262140.
Proof.
  unfold own_size. destruct (emit (encode_committed_configuration c)) as [bs|] eqn:H; [simpl|done].
  unfold encode_committed_configuration in H.
  destruct c as [[conf m]|]; cbn [is_some scc_configuration scc_membership] in H; [|by_size H; lia].
  assert (length_u64 bs <= 18 + 9 + 8 * config_members m) as Hs.
  { destruct conf; cbn [is_some] in H; by_size H; destruct m; lia. }
  destruct conf; parts H; pose proof (encode_config_members m _ H); lia.
Qed.

Lemma chunk_within_limit budget request fields :
  emit (encode_chunk request) = Some fields -> chunk_valid request ->
  conforming budget (MInstallSnapshotChunk request) ->
  10 + length_u64 fields <= max_receive_frame_bytes budget.
Proof.
  intros Hf Hv Hc. simpl in Hc. change INSTALL_SNAPSHOT_CHUNK_BYTES with 65536 in Hc.
  destruct Hv as (_ & _ & _ & Hmeta & _). destruct Hmeta as (Hg & _ & _ & _ & _ & Hk & _).
  apply id_valid_length in Hg, Hk.
  transitivity 2163036; cycle 1.
  { unfold max_receive_frame_bytes. change MAX_MEMBERSHIP_DRIVEN_FRAME_BYTES with 2163036.
    destruct (N.ltb_spec 2163036 (u64_saturating_add budget APPLICATION_APPEND_FRAME_OVERHEAD_BYTES)); lia. }
  pose proof (committed_configuration_size (metadata_committed_configuration (isc_metadata request))) as Hcc.
  pose proof (own_sized (encode_committed_configuration (metadata_committed_configuration (isc_metadata request)))).
  unfold encode_chunk, encode_metadata in Hf. by_size Hf. lia.
Qed.

(** ** Theorems *)

(** C34: no frame of a conforming leader with the given append budget exceeds
    the receive limit computed from that budget, whatever the message kind. *)
Theorem receive_limit_sufficient budget message bs :
  message_valid message -> conforming budget message -> encode_message message = Ok bs ->
  length_u64 bs <= u64_max -> length_u64 bs <= max_receive_frame_bytes budget.
Proof.
  intros Hv Hc Hb Hmax. apply encode_message_fields in Hb as (fields & Hf & Hl). rewrite Hl in Hmax |- *.
  assert (2163036 <= max_receive_frame_bytes budget) as Hlimit.
  { unfold max_receive_frame_bytes. change MAX_MEMBERSHIP_DRIVEN_FRAME_BYTES with 2163036.
    destruct (N.ltb_spec 2163036 (u64_saturating_add budget APPLICATION_APPEND_FRAME_OVERHEAD_BYTES)); lia. }
  destruct message as [request| | |request| | | | | |].
  - by eapply append_within_limit.
  - simpl in Hf. unfold encode_append_response in Hf. by_size Hf. lia.
  - done.
  - by eapply chunk_within_limit.
  - simpl in Hf. unfold encode_snapshot_response in Hf. destruct (isr_transfer_id _); by_size Hf; lia.
  - unfold encode_fields in Hf. by_size Hf. lia.
  - unfold encode_fields in Hf. by_size Hf. lia.
  - unfold encode_fields in Hf. by_size Hf. lia.
  - unfold encode_fields in Hf. by_size Hf. lia.
  - unfold encode_fields in Hf. by_size Hf. lia.
Qed.

(** The batches the kernel assembles are the ones a conforming leader sends. *)
Lemma log_batch_conforming n first budget batch request :
  log_batch_from_bounded n first budget = Some batch ->
  snapshot_index n + length_u64 (log (persistent n)) + 1 < u64_modulus ->
  Forall (admitted budget) (log (persistent n)) -> ae_entries request = lb_entries batch ->
  conforming budget (MAppendEntries request).
Proof.
  intros Hb Hcap Ha He. pose proof (log_batch_spec n Hcap first budget) as Hs. rewrite Hb in Hs.
  destruct Hs as (_ & _ & _ & [k Hpre] & _ & _ & Hbytes & Hsize & _). simpl. rewrite He. split.
  - assert (Forall (admitted budget) (log_from n (lb_first_index batch))) as Hfrom by (by apply Forall_drop).
    rewrite Hpre in Hfrom. by apply Forall_app in Hfrom as [? _].
  - rewrite Hbytes in Hsize. destruct Hsize as [->|Hsize]; [by left|by right].
Qed.

(** ** Reservations *)

(** Scanning stops at the first entry that does not decode. *)
Lemma probe_entries_bounds count pre rest :
  probe_entries count (reader_at pre rest) <= N.of_nat count /\
  9 * probe_entries count (reader_at pre rest) <= length_u64 rest.
Proof.
  revert pre rest. induction count as [|count IH]; intros pre rest; simpl probe_entries; [lia|].
  destruct (decode_log_entry (reader_at pre rest)) as [[e r]|] eqn:E; [|lia].
  apply grammar_sound in E as (bs & post & -> & -> & _ & Hb).
  pose proof (encode_log_entry_sized e bs Hb). pose proof (entry_size_min e).
  rewrite length_u64_app. destruct (IH (pre ++ bs) post). lia.
Qed.

Lemma probe_entries_complete count r entries r' :
  dec_times count decode_log_entry r = Ok (entries, r') -> probe_entries count r = N.of_nat count.
Proof.
  revert r entries r'. induction count as [|count IH]; intros r entries r'; simpl; [done|].
  unfold dec_bind, dec_ret. destruct (decode_log_entry r) as [[e r1]|]; [|done].
  destruct (dec_times count decode_log_entry r1) as [[es r2]|] eqn:E; [|done].
  intros _. rewrite (IH _ _ _ E). lia.
Qed.

(** The entries reserved for a claimed count are at most the count and at
    most what the unread bytes can encode; their heap is at most the unread
    bytes or they are the entries actually present; and they are the count
    whenever that many entries decode. *)
Theorem entry_reservation_bounded size count pre rest :
  let reader := reader_at pre rest in
  let reserved := entry_reservation size count reader in
  reserved <= count /\
  MIN_ENCODED_LOG_ENTRY_BYTES * reserved <= remaining reader /\
  (reserved * size <= remaining reader \/ reserved = probe_entries (N.to_nat count) reader) /\
  (forall entries reader', dec_times (N.to_nat count) decode_log_entry reader = Ok (entries, reader') ->
     reserved = count).
Proof.
  simpl. unfold entry_reservation, append_entries_entry_capacity. rewrite remaining_at.
  change MIN_ENCODED_LOG_ENTRY_BYTES with 9.
  pose proof (probe_entries_bounds (N.to_nat count) pre rest) as [Hp1 Hp2].
  destruct (N.eqb_spec (N.min (N.min count (length_u64 rest / 9)) (length_u64 rest / size)) count) as [Heq|Hne].
  - split_and!; [lia| | |done].
    + pose proof (N.Div0.mul_div_le (length_u64 rest) 9). lia.
    + left. pose proof (N.Div0.mul_div_le (length_u64 rest) size). nia.
  - split_and!; [lia|lia|by right|]. intros entries reader' H. rewrite (probe_entries_complete _ _ _ _ H). lia.
Qed.

Lemma receive_limit_sufficient_witness : length_u64 sample_frame <= max_receive_frame_bytes 524288.
Proof.
  apply (receive_limit_sufficient 524288 sample_message); [exact sample_valid| |exact sample_encodes|by vm_compute].
  split; [|right; by vm_compute]. repeat constructor; by vm_compute.
Defined.
