(* ===== verification/Stores.v ===== *)
(** * Durable stores

    The storage contracts of the crate [rafter-storage]: hard state
    ([raft_hard_state_store/contract.rs]), retained log
    ([raft_log_segment/contract.rs]), snapshots
    ([raft_snapshot_store/contract.rs]) and atomic batches
    ([durable_batch/contract.rs]), each trait a class whose methods are state
    passing.

    The three handles of a node may share one medium (the write-ahead log does),
    so all classes range over one type [D], the durable state of a node. A
    failed mutation may have reached the medium in part: [StoreLaws] relates a
    state to what reopening the medium can find, and says for each operation
    what success and failure leave there. *)

From stdpp Require Import base strings list sorting numbers option sets.
From S2P Require Import Prelude.
From S2P Require Import Types.
From S2P Require Import Crc32.
From S2P Require Import Snapshot.

(** ** Values *)

Record RaftHardState := {
  hs_current_term : Term;
  hs_voted_for : option NodeId;
  hs_commit_index : LogIndex;
  hs_committed_configuration : option CommittedConfiguration;
}.

Definition RaftHardState_default : RaftHardState :=
  {| hs_current_term := 0; hs_voted_for := None; hs_commit_index := 0;
     hs_committed_configuration := None |}.

#[export] Instance RaftHardState_eq_dec : EqDecision RaftHardState.
Proof. solve_decision. Defined.

Record PersistedRaftLogEntry := {
  ple_index : LogIndex;
  ple_term : Term;
  ple_kind : LogEntryKind;
}.

#[export] Instance PersistedRaftLogEntry_eq_dec : EqDecision PersistedRaftLogEntry.
Proof. solve_decision. Defined.

Record PersistedRaftSnapshot := {
  prs_metadata : RaftSnapshotMetadata;
  prs_application_payload : list u8;
}.

(** [advanceable_log_index]: every position but the last has a successor. *)
Definition advanceable_log_index (raw : u64) : option LogIndex :=
  if raw =? u64_max then None else Some raw.

(** ** Errors *)

(** [std::io::Error], compared by kind, code and message. *)
Record StorageIoError := {
  io_kind : N;
  io_raw_os_error : option Z;
  io_message : string;
}.

#[export] Instance StorageIoError_eq_dec : EqDecision StorageIoError.
Proof. solve_decision. Defined.

Inductive EncodeRaftLogEntryError :=
| EntryPayloadTooLarge (len : usize)
| TooManyMembers (len : usize)
| EntryIndexAtMaximum.

Inductive RaftHardStateStoreWriteError :=
| HardStateIo (operation path : string) (source : StorageIoError)
| HardStateRequiresReopen.

Inductive RaftLogSegmentAppendError :=
| AppendNonContiguous (expected actual : LogIndex)
| AppendIndexAtMaximum
| AppendEncode (error : EncodeRaftLogEntryError)
| AppendIo (operation : string) (source : StorageIoError)
| AppendRequiresReopen.

Inductive RaftLogSegmentTruncateError :=
| TruncateOutOfBounds (next_index actual : LogIndex)
| TruncateBeforeCompactedPrefix (compacted_through actual : LogIndex)
| TruncateEncode (error : EncodeRaftLogEntryError)
| TruncateIo (operation : string) (source : StorageIoError)
| TruncateRequiresReopen.

Inductive RaftLogSegmentCompactError :=
| CompactOutOfBounds (compacted_through next_index : LogIndex)
| CompactThroughIndexAtMaximum
| CompactEncode (error : EncodeRaftLogEntryError)
| CompactIo (operation : string) (source : StorageIoError)
| CompactedButReclamationFailed (compacted_through : LogIndex) (operation : string)
    (source : StorageIoError)
| CompactRequiresReopen.

Inductive EncodeRaftSnapshotError :=
| SnapshotStringTooLong (field : string) (len : usize)
| SnapshotTooManyMembers (member_kind : string) (len : usize).

Inductive RaftSnapshotManifestEncodeError := FileNameTooLong (len : usize).

Inductive RaftSnapshotStoreWriteError :=
| EncodeSnapshot (error : EncodeRaftSnapshotError)
| EncodeManifest (error : RaftSnapshotManifestEncodeError)
| SourceChunkUnavailable (transfer_id : SnapshotTransferId) (offset : u64)
| StagedChunkWithoutTransfer (transfer_id : SnapshotTransferId) (offset : u64)
| StagedChunkTransferMismatch (staged_leader_id : NodeId) (staged_transfer_id : SnapshotTransferId)
    (leader_id : NodeId) (transfer_id : SnapshotTransferId)
| StagedChunkRangeOverflow (offset : u64) (len : usize)
| StagedChunkPastEnd (offset len total_payload_len : u64)
| StagedChunkEmptyBeforeEnd (offset total_payload_len : u64)
| StagedChunkDoneMismatch (done : bool) (end_offset total_payload_len : u64)
| StagedChunkTransferIdMismatch (expected actual : SnapshotTransferId)
| StagedChunkOffsetMismatch (expected_offset offset : u64)
| PromoteWithoutStagedTransfer (requested : SnapshotTransferId)
| PromoteTransferIdMismatch (staged requested : SnapshotTransferId)
| PromoteSnapshotDescriptorMismatch (staged requested : RaftSnapshot)
| PromoteIncompleteStagedTransfer (received_len total_payload_len : u64)
| SnapshotPayloadChecksumMismatch (expected actual : u32)
| SnapshotSequenceExhausted
| SnapshotIo (operation path : string) (source : StorageIoError)
| SnapshotRequiresReopen
| SnapshotCommittedButReopenRequired (file_name operation path : string)
    (source : StorageIoError).

Inductive RaftPersistenceBatchError :=
| DomainMismatch
| InvalidBatch (reason : string)
| BatchRequiresReopen
| BatchIo (operation : string) (source : StorageIoError).

(** ** Atomic batches *)

(** The identity of a coordinator, an address compared with [Arc::ptr_eq]. *)
Abbreviation PersistenceDomain := N (only parsing).

Record RaftPersistenceBatch := {
  batch_truncate_from : option LogIndex;
  batch_entries : list PersistedRaftLogEntry;
  batch_hard_state : option RaftHardState;
}.

Record DurableReceipt := {
  receipt_domain : PersistenceDomain;
  receipt_operation : u64;
  receipt_hard_state : RaftHardState;
  receipt_next_index : LogIndex;
  receipt_compacted_through : LogIndex;
}.

(** ** The traits *)

Class RaftHardStateStore (D : Type) := {
  persistence_domain : D -> option PersistenceDomain;
  write_hard_state : D -> RaftHardState -> D * result unit RaftHardStateStoreWriteError;
  hard_state_current : D -> RaftHardState;
}.

Class RaftLogSegment (D : Type) := {
  persist_batch : D -> PersistenceDomain -> RaftPersistenceBatch ->
    D * result (option DurableReceipt) RaftPersistenceBatchError;
  append_entries : D -> list PersistedRaftLogEntry -> D * result unit RaftLogSegmentAppendError;
  truncate_suffix : D -> LogIndex -> D * result unit RaftLogSegmentTruncateError;
  compact_prefix_through : D -> LogIndex -> D * result unit RaftLogSegmentCompactError;
  replay_entries : D -> list PersistedRaftLogEntry;
  segment_next_index : D -> LogIndex;
  compacted_through : D -> LogIndex;
}.

Class RaftSnapshotStore (D : Type) := {
  write_snapshot : D -> PersistedRaftSnapshot -> D * result unit RaftSnapshotStoreWriteError;
  write_snapshot_from_source : D -> RaftSnapshot -> (SnapshotChunkRequest -> option (list u8)) ->
    D * result unit RaftSnapshotStoreWriteError;
  current_snapshot : D -> option RaftSnapshot;
  stage_snapshot_chunk : D -> StagedSnapshotChunk -> D * result unit RaftSnapshotStoreWriteError;
  promote_staged_snapshot : D -> RaftSnapshot -> D * result unit RaftSnapshotStoreWriteError;
  clear_pending_snapshot_transfer : D -> D * result unit RaftSnapshotStoreWriteError;
  current_pending_snapshot_transfer : D -> option PendingSnapshotTransfer;
}.

(** [BorrowedPersistedRaftLogEntry::new] over kernel entries whose predecessor
    has the index [before]. *)
Definition stamp (before : LogIndex) (entries : list LogEntry) : list PersistedRaftLogEntry :=
  imap (fun offset entry =>
          {| ple_index := before + 1 + N.of_nat offset; ple_term := entry_term entry;
             ple_kind := entry_kind entry |}) entries.

Definition unstamp (entry : PersistedRaftLogEntry) : LogEntry :=
  {| entry_term := ple_term entry; entry_kind := ple_kind entry |}.

(** ** Validation of staged snapshots ([raft_snapshot_store/validation.rs]) *)

(** The checked end offset of a chunk. *)
Record ValidatedStagedChunk := { validated_received_len : u64 }.

Definition validate_continuation (chunk : StagedSnapshotChunk)
    (current : option PendingSnapshotTransfer) : result unit RaftSnapshotStoreWriteError :=
  if ssc_offset chunk =? 0 then Ok tt
  else
    match current with
    | None => Err (StagedChunkWithoutTransfer (ssc_transfer_id chunk) (ssc_offset chunk))
    | Some current =>
        if negb (ssc_leader_id chunk =? pst_leader_id current)
           || negb (ssc_transfer_id chunk =? pst_transfer_id current)
           || negb (bool_decide (ssc_metadata chunk = pst_metadata current))
           || negb (ssc_total_payload_len chunk =? pst_total_payload_len current)
           || negb (ssc_application_payload_crc32 chunk =? pst_application_payload_crc32 current)
        then Err (StagedChunkTransferMismatch (pst_leader_id current) (pst_transfer_id current)
                    (ssc_leader_id chunk) (ssc_transfer_id chunk))
        else if negb (ssc_offset chunk =? pst_received_len current)
        then Err (StagedChunkOffsetMismatch (pst_received_len current) (ssc_offset chunk))
        else Ok tt
    end.

Definition validate_staged_chunk (chunk : StagedSnapshotChunk)
    (current : option PendingSnapshotTransfer)
  : result ValidatedStagedChunk RaftSnapshotStoreWriteError :=
  let chunk_len := length_u64 (ssc_bytes chunk) in
  let offset := ssc_offset chunk in
  let total := ssc_total_payload_len chunk in
  match u64_checked_add offset chunk_len with
  | None => Err (StagedChunkRangeOverflow offset chunk_len)
  | Some end_offset =>
      if total <? end_offset then Err (StagedChunkPastEnd offset chunk_len total)
      else if (chunk_len =? 0) && (end_offset <? total) then
        Err (StagedChunkEmptyBeforeEnd offset total)
      else if negb (Bool.eqb (ssc_done chunk) (end_offset =? total)) then
        Err (StagedChunkDoneMismatch (ssc_done chunk) end_offset total)
      else
        let expected :=
          transfer_id (RaftSnapshot_new (ssc_metadata chunk) total
                         (ssc_application_payload_crc32 chunk)) in
        if negb (ssc_transfer_id chunk =? expected) then
          Err (StagedChunkTransferIdMismatch expected (ssc_transfer_id chunk))
        else
          let? _ := validate_continuation chunk current in
          Ok {| validated_received_len := end_offset |}
  end.

Definition staged_descriptor (transfer : PendingSnapshotTransfer) : RaftSnapshot :=
  RaftSnapshot_new (pst_metadata transfer) (pst_total_payload_len transfer)
    (pst_application_payload_crc32 transfer).

Definition validate_staged_promotion (snapshot : RaftSnapshot)
    (current : option PendingSnapshotTransfer) : result unit RaftSnapshotStoreWriteError :=
  let requested := transfer_id snapshot in
  match current with
  | None => Err (PromoteWithoutStagedTransfer requested)
  | Some current =>
      if negb (pst_transfer_id current =? requested) then
        Err (PromoteTransferIdMismatch (pst_transfer_id current) requested)
      else
        let staged := staged_descriptor current in
        if negb (bool_decide (staged = snapshot)) then
          Err (PromoteSnapshotDescriptorMismatch staged snapshot)
        else if negb (is_complete current) then
          Err (PromoteIncompleteStagedTransfer (pst_received_len current)
                 (pst_total_payload_len current))
        else Ok tt
  end.

Definition pending_transfer_after_chunk (chunk : StagedSnapshotChunk)
    (validated : ValidatedStagedChunk) : PendingSnapshotTransfer :=
  {| pst_leader_id := ssc_leader_id chunk;
     pst_transfer_id := ssc_transfer_id chunk;
     pst_metadata := ssc_metadata chunk;
     pst_total_payload_len := ssc_total_payload_len chunk;
     pst_application_payload_crc32 := ssc_application_payload_crc32 chunk;
     pst_received_len := validated_received_len validated |}.

(** ** Stamped logs *)

Lemma stamp_length before entries : length (stamp before entries) = length entries.
Proof. apply length_imap. Qed.

Lemma stamp_cons before e entries :
  stamp before (e :: entries) =
  {| ple_index := before + 1; ple_term := entry_term e; ple_kind := entry_kind e |}
    :: stamp (before + 1) entries.
Proof.
  unfold stamp. simpl. f_equal; [f_equal; lia|]. apply imap_ext. intros k x _. simpl. f_equal. lia.
Qed.

Lemma stamp_app before l k : stamp before (l ++ k) = stamp before l ++ stamp (before + length_u64 l) k.
Proof.
  revert before. induction l as [|e l IH]; intros before.
  - simpl. unfold length_u64. simpl. by rewrite N.add_0_r.
  - rewrite <- app_comm_cons, !stamp_cons, IH, <- app_comm_cons. do 3 f_equal.
    unfold length_u64. simpl. lia.
Qed.

Lemma unstamp_stamp before entries : map unstamp (stamp before entries) = entries.
Proof.
  revert before. induction entries as [|e entries IH]; intros before; [done|].
  rewrite stamp_cons. simpl. rewrite IH. by destruct e.
Qed.

Lemma stamp_lookup before entries k x :
  stamp before entries !! k = Some x -> ple_index x = before + 1 + N.of_nat k.
Proof. unfold stamp. rewrite list_lookup_imap, fmap_Some. by intros (e & _ & ->). Qed.

Lemma stamp_take before entries k : take k (stamp before entries) = stamp before (take k entries).
Proof.
  destruct (Nat.le_gt_cases (length entries) k) as [Hk|Hk].
  - rewrite !take_ge by (rewrite ?stamp_length; lia). done.
  - rewrite <- (take_drop k entries) at 1. rewrite stamp_app, take_app_le, take_ge; [done|..];
      rewrite stamp_length, length_take; lia.
Qed.

Lemma stamp_drop before entries k :
  drop k (stamp before entries) = stamp (before + N.of_nat k) (drop k entries).
Proof.
  destruct (Nat.le_gt_cases (length entries) k) as [Hk|Hk].
  - rewrite !drop_ge by (rewrite ?stamp_length; lia). done.
  - rewrite <- (take_drop k entries) at 1. rewrite stamp_app.
    rewrite drop_app_length' by (rewrite stamp_length, length_take; lia).
    f_equal. unfold length_u64. rewrite length_take. lia.
Qed.

Lemma stamp_last before entries :
  last (stamp before entries) =
  (fun e => {| ple_index := before + length_u64 entries; ple_term := entry_term e;
               ple_kind := entry_kind e |}) <$> last entries.
Proof.
  destruct entries as [|e l _] using rev_ind; [done|].
  rewrite stamp_app, stamp_cons. change (stamp _ []) with (@nil PersistedRaftLogEntry).
  rewrite !last_snoc. simpl. do 2 f_equal. unfold length_u64. rewrite length_app. simpl. lia.
Qed.

(** The position of an index in a stamped log. *)
Lemma partition_point_stamp before entries bound :
  before < bound ->
  partition_point (fun x => ple_index x <? bound) (stamp before entries) =
  Nat.min (N.to_nat (bound - before - 1)) (length entries).
Proof.
  intros Hb. set (k := N.to_nat (bound - before - 1)).
  rewrite <- (take_drop k entries) at 1. rewrite stamp_app, partition_point_app.
  - rewrite stamp_length, length_take. done.
  - apply Forall_lookup. intros j x Hx. pose proof (stamp_lookup _ _ _ _ Hx) as ->.
    apply lookup_lt_Some in Hx. rewrite stamp_length, length_take in Hx. apply N.ltb_lt. lia.
  - apply Forall_lookup. intros j x Hx. pose proof (stamp_lookup _ _ _ _ Hx) as ->.
    apply lookup_lt_Some in Hx. rewrite stamp_length, length_drop in Hx.
    unfold length_u64. rewrite length_take. apply N.ltb_ge. lia.
Qed.

(** ** Images

    What the accessors of the three stores report. *)

Record Image := {
  im_hard : RaftHardState;
  im_compacted : LogIndex;
  im_log : list LogEntry;
  im_snapshot : option RaftSnapshot;
  im_pending : option PendingSnapshotTransfer;
}.

#[export] Instance set_im_hard : Setter im_hard := fun v (r : Image) =>
  {| im_hard := v; im_compacted := im_compacted r; im_log := im_log r;
     im_snapshot := im_snapshot r; im_pending := im_pending r |}.
#[export] Instance set_im_log : Setter im_log := fun v (r : Image) =>
  {| im_hard := im_hard r; im_compacted := im_compacted r; im_log := v;
     im_snapshot := im_snapshot r; im_pending := im_pending r |}.
#[export] Instance set_im_snapshot : Setter im_snapshot := fun v (r : Image) =>
  {| im_hard := im_hard r; im_compacted := im_compacted r; im_log := im_log r;
     im_snapshot := v; im_pending := im_pending r |}.
#[export] Instance set_im_pending : Setter im_pending := fun v (r : Image) =>
  {| im_hard := im_hard r; im_compacted := im_compacted r; im_log := im_log r;
     im_snapshot := im_snapshot r; im_pending := v |}.

(** The last index of the log, retained or compacted. *)
Definition im_last (im : Image) : LogIndex := im_compacted im + length_u64 (im_log im).

Definition im_truncate (from : LogIndex) (im : Image) : Image :=
  im <| im_log := take (N.to_nat (from - im_compacted im - 1)) (im_log im) |>.

Definition im_compact (through : LogIndex) (im : Image) : Image :=
  if through <=? im_compacted im then im
  else {| im_hard := im_hard im; im_compacted := through;
          im_log := drop (N.to_nat (through - im_compacted im)) (im_log im);
          im_snapshot := im_snapshot im; im_pending := im_pending im |}.

(** The effect of a batch without truncation. *)
Definition im_batch (entries : list LogEntry) (hard : option RaftHardState) (im : Image) : Image :=
  im <| im_log := im_log im ++ entries |> <| im_hard := default (im_hard im) hard |>.

Section image.
Context {D : Type} `{RaftHardStateStore D, RaftLogSegment D, RaftSnapshotStore D}.

Definition image (d : D) : Image :=
  {| im_hard := hard_state_current d; im_compacted := compacted_through d;
     im_log := map unstamp (replay_entries d); im_snapshot := current_snapshot d;
     im_pending := current_pending_snapshot_transfer d |}.
End image.

(** ** Laws *)

Class StoreLaws (D : Type)
    `{RaftHardStateStore D, RaftLogSegment D, RaftSnapshotStore D} := {
  (** The handles accept mutations and nothing is in flight. *)
  healthy : D -> Prop;
  (** What reopening the medium behind these handles can give. *)
  reopens : D -> D -> Prop;
  reopen_healthy d d' : healthy d -> reopens d d' -> healthy d';
  reopen_same d d' : healthy d -> reopens d d' -> image d' = image d;
  healthy_replay d : healthy d -> replay_entries d = stamp (im_compacted (image d)) (im_log (image d));
  healthy_next d : healthy d -> segment_next_index d = im_last (image d) + 1;
  healthy_bound d : healthy d -> im_last (image d) < u64_max;

  write_hard_state_law d hs d' r : healthy d -> write_hard_state d hs = (d', r) ->
    match r with
    | Ok _ => healthy d' /\ image d' = (image d) <| im_hard := hs |>
    | Err _ => forall d'', reopens d' d'' -> healthy d'' /\
        (image d'' = image d \/ image d'' = (image d) <| im_hard := hs |>)
    end;

  append_entries_law d entries d' r :
    healthy d -> append_entries d (stamp (im_last (image d)) entries) = (d', r) ->
    match r with
    | Ok _ => healthy d' /\ image d' = (image d) <| im_log := im_log (image d) ++ entries |>
    | Err _ => forall d'', reopens d' d'' -> healthy d'' /\ exists k,
        image d'' = (image d) <| im_log := im_log (image d) ++ take k entries |>
    end;

  truncate_suffix_law d from d' r : healthy d -> truncate_suffix d from = (d', r) ->
    match r with
    | Ok _ => healthy d' /\ im_compacted (image d) < from /\ image d' = im_truncate from (image d)
    | Err _ => forall d'', reopens d' d'' -> healthy d'' /\
        (image d'' = image d \/
         (im_compacted (image d) < from /\ image d'' = im_truncate from (image d)))
    end;

  compact_prefix_through_law d through d' r :
    healthy d -> through < u64_modulus -> compact_prefix_through d through = (d', r) ->
    match r with
    | Ok _ => healthy d' /\ image d' = im_compact through (image d)
    | Err _ => forall d'', reopens d' d'' -> healthy d'' /\
        (image d'' = image d \/ image d'' = im_compact through (image d))
    end;

  persist_batch_law d domain entries hard d' r :
    healthy d ->
    persist_batch d domain {| batch_truncate_from := None;
                              batch_entries := stamp (im_last (image d)) entries;
                              batch_hard_state := hard |} = (d', r) ->
    match r with
    | Ok None => healthy d' /\ image d' = image d
    | Ok (Some _) => healthy d' /\ image d' = im_batch entries hard (image d)
    | Err _ => forall d'', reopens d' d'' -> healthy d'' /\
        (image d'' = image d \/ image d'' = im_batch entries hard (image d))
    end;

  write_snapshot_law d snapshot d' r : healthy d -> write_snapshot d snapshot = (d', r) ->
    let descriptor := from_payload (prs_metadata snapshot) (prs_application_payload snapshot) in
    match r with
    | Ok _ => healthy d' /\
        image d' = (image d) <| im_snapshot := Some descriptor |> <| im_pending := None |>
    | Err _ => forall d'', reopens d' d'' -> healthy d'' /\ exists s p,
        (s = im_snapshot (image d) \/ s = Some descriptor) /\
        (p = im_pending (image d) \/ p = None) /\
        image d'' = (image d) <| im_snapshot := s |> <| im_pending := p |>
    end;

  write_snapshot_from_source_law d descriptor source d' r :
    healthy d -> write_snapshot_from_source d descriptor source = (d', r) ->
    match r with
    | Ok _ => healthy d' /\
        image d' = (image d) <| im_snapshot := Some descriptor |> <| im_pending := None |>
    | Err _ => forall d'', reopens d' d'' -> healthy d'' /\ exists s p,
        (s = im_snapshot (image d) \/ s = Some descriptor) /\
        (p = im_pending (image d) \/ p = None) /\
        image d'' = (image d) <| im_snapshot := s |> <| im_pending := p |>
    end;

  stage_snapshot_chunk_law d chunk d' r : healthy d -> stage_snapshot_chunk d chunk = (d', r) ->
    match r with
    | Ok _ => healthy d' /\ exists v, validate_staged_chunk chunk (im_pending (image d)) = Ok v /\
        image d' = (image d) <| im_pending := Some (pending_transfer_after_chunk chunk v) |>
    | Err _ => forall d'', reopens d' d'' -> healthy d'' /\ exists p,
        (p = im_pending (image d) \/ p = None \/
         exists v, validate_staged_chunk chunk (im_pending (image d)) = Ok v /\
                   p = Some (pending_transfer_after_chunk chunk v)) /\
        image d'' = (image d) <| im_pending := p |>
    end;

  promote_staged_snapshot_law d snapshot d' r :
    healthy d -> promote_staged_snapshot d snapshot = (d', r) ->
    match r with
    | Ok _ => healthy d' /\ validate_staged_promotion snapshot (im_pending (image d)) = Ok tt /\
        image d' = (image d) <| im_snapshot := Some snapshot |> <| im_pending := None |>
    | Err _ => forall d'', reopens d' d'' -> healthy d'' /\ exists s p,
        (s = im_snapshot (image d) \/
         validate_staged_promotion snapshot (im_pending (image d)) = Ok tt /\ s = Some snapshot) /\
        (p = im_pending (image d) \/ p = None) /\
        image d'' = (image d) <| im_snapshot := s |> <| im_pending := p |>
    end;

  clear_pending_law d d' r : healthy d -> clear_pending_snapshot_transfer d = (d', r) ->
    match r with
    | Ok _ => healthy d' /\ image d' = (image d) <| im_pending := None |>
    | Err _ => forall d'', reopens d' d'' -> healthy d'' /\
        (image d'' = image d \/ image d'' = (image d) <| im_pending := None |>)
    end;
}.
