(* ===== verification/MemoryStores.v ===== *)
(** * In-memory stores

    The reference implementations of [rafter-storage]: the contiguous retained
    suffix ([raft_log_segment/continuity.rs]), the in-memory log segment
    ([raft_log_segment/memory.rs]), hard-state store
    ([raft_hard_state_store/memory.rs]) and snapshot store
    ([raft_snapshot_store/in_memory.rs]), and that together they satisfy the
    store laws. *)

From stdpp Require Import base list sorting numbers option sets.
From S2P Require Import Prelude.
From S2P Require Import Types.
From S2P Require Import Crc32.
From S2P Require Import Snapshot.
From S2P Require Import Stores.

(** ** The contiguous suffix *)

Record NonContiguousRaftEntry := {
  nc_expected : LogIndex;
  nc_actual : LogIndex;
}.

Record ContiguousLogEntries := {
  cle_first_index : LogIndex;
  cle_entries : list PersistedRaftLogEntry;
}.

Fixpoint validate_contiguous (entries : list PersistedRaftLogEntry) (expected : LogIndex)
  : result unit NonContiguousRaftEntry :=
  match entries with
  | [] => Ok tt
  | entry :: entries =>
      if negb (ple_index entry =? expected)
      then Err {| nc_expected := expected; nc_actual := ple_index entry |}
      else validate_contiguous entries (LogIndex_next expected)
  end.

Definition empty_after (compacted_through : LogIndex) : ContiguousLogEntries :=
  {| cle_first_index := LogIndex_next compacted_through; cle_entries := [] |}.

Definition ContiguousLogEntries_default : ContiguousLogEntries := empty_after 0.

Definition from_entries (first_index : LogIndex) (entries : list PersistedRaftLogEntry)
  : result ContiguousLogEntries NonContiguousRaftEntry :=
  let? _ := validate_contiguous entries first_index in
  Ok {| cle_first_index := first_index; cle_entries := entries |}.

Definition cle_next_index (c : ContiguousLogEntries) : LogIndex :=
  match last (cle_entries c) with
  | Some entry => LogIndex_next (ple_index entry)
  | None => cle_first_index c
  end.

Definition cle_append (c : ContiguousLogEntries) (entries : list PersistedRaftLogEntry)
  : result ContiguousLogEntries NonContiguousRaftEntry :=
  let? _ := validate_contiguous entries (cle_next_index c) in
  Ok {| cle_first_index := cle_first_index c; cle_entries := cle_entries c ++ entries |}.

Definition cle_truncate_suffix (c : ContiguousLogEntries) (from_index : LogIndex)
  : ContiguousLogEntries :=
  let len := partition_point (fun entry => ple_index entry <? from_index) (cle_entries c) in
  {| cle_first_index := cle_first_index c; cle_entries := take len (cle_entries c) |}.

Definition cle_compact_prefix_through (c : ContiguousLogEntries) (through_index : LogIndex)
  : ContiguousLogEntries :=
  let retained_start := LogIndex_next through_index in
  if retained_start <=? cle_first_index c then c
  else
    let drop_count :=
      partition_point (fun entry => ple_index entry <? retained_start) (cle_entries c) in
    {| cle_first_index := retained_start; cle_entries := drop drop_count (cle_entries c) |}.

Definition entries_before (c : ContiguousLogEntries) (from_index : LogIndex)
  : list PersistedRaftLogEntry :=
  take (partition_point (fun entry => ple_index entry <? from_index) (cle_entries c))
    (cle_entries c).

Definition entries_after (c : ContiguousLogEntries) (through_index : LogIndex)
  : list PersistedRaftLogEntry :=
  drop (partition_point (fun entry => ple_index entry <=? through_index) (cle_entries c))
    (cle_entries c).

(** ** Bounds *)

Definition reject_append_bounds (index : LogIndex) : result unit RaftLogSegmentAppendError :=
  match advanceable_log_index index with Some _ => Ok tt | None => Err AppendIndexAtMaximum end.

Definition reject_compact_bounds (through_index : LogIndex)
  : result unit RaftLogSegmentCompactError :=
  match advanceable_log_index through_index with
  | Some _ => Ok tt
  | None => Err CompactThroughIndexAtMaximum
  end.

Definition reject_truncate_bounds (from_index compacted_through next_index : LogIndex)
  : result unit RaftLogSegmentTruncateError :=
  if from_index <=? compacted_through then
    Err (TruncateBeforeCompactedPrefix compacted_through from_index)
  else if next_index <? from_index then Err (TruncateOutOfBounds next_index from_index)
  else Ok tt.

(** ** The stores *)

Record InMemoryRaftLogSegment := {
  ml_compacted_through : LogIndex;
  ml_entries : ContiguousLogEntries;
}.

Definition InMemoryRaftLogSegment_new : InMemoryRaftLogSegment :=
  {| ml_compacted_through := 0; ml_entries := ContiguousLogEntries_default |}.

Fixpoint reject_all_append_bounds (entries : list PersistedRaftLogEntry)
  : result unit RaftLogSegmentAppendError :=
  match entries with
  | [] => Ok tt
  | entry :: entries =>
      let? _ := reject_append_bounds (ple_index entry) in reject_all_append_bounds entries
  end.

Definition memory_append_entries (s : InMemoryRaftLogSegment)
    (entries : list PersistedRaftLogEntry)
  : InMemoryRaftLogSegment * result unit RaftLogSegmentAppendError :=
  match reject_all_append_bounds entries with
  | Err error => (s, Err error)
  | Ok _ =>
      match cle_append (ml_entries s) entries with
      | Err e => (s, Err (AppendNonContiguous (nc_expected e) (nc_actual e)))
      | Ok c => ({| ml_compacted_through := ml_compacted_through s; ml_entries := c |}, Ok tt)
      end
  end.

Definition memory_truncate_suffix (s : InMemoryRaftLogSegment) (from_index : LogIndex)
  : InMemoryRaftLogSegment * result unit RaftLogSegmentTruncateError :=
  match reject_truncate_bounds from_index (ml_compacted_through s)
          (cle_next_index (ml_entries s)) with
  | Err error => (s, Err error)
  | Ok _ => ({| ml_compacted_through := ml_compacted_through s;
                ml_entries := cle_truncate_suffix (ml_entries s) from_index |}, Ok tt)
  end.

Definition memory_compact_prefix_through (s : InMemoryRaftLogSegment) (through_index : LogIndex)
  : InMemoryRaftLogSegment * result unit RaftLogSegmentCompactError :=
  match reject_compact_bounds through_index with
  | Err error => (s, Err error)
  | Ok _ =>
      if through_index <=? ml_compacted_through s then (s, Ok tt)
      else ({| ml_compacted_through := through_index;
               ml_entries := cle_compact_prefix_through (ml_entries s) through_index |}, Ok tt)
  end.

Record InMemoryStagedTransfer := {
  staged_transfer : PendingSnapshotTransfer;
  staged_bytes : list u8;
}.

Record InMemoryRaftSnapshotStore := {
  ms_current : option PersistedRaftSnapshot;
  ms_pending : option InMemoryStagedTransfer;
}.

Definition InMemoryRaftSnapshotStore_new : InMemoryRaftSnapshotStore :=
  {| ms_current := None; ms_pending := None |}.

Definition with_snapshot (snapshot : PersistedRaftSnapshot) : InMemoryRaftSnapshotStore :=
  {| ms_current := Some snapshot; ms_pending := None |}.

Definition memory_pending (s : InMemoryRaftSnapshotStore) : option PendingSnapshotTransfer :=
  staged_transfer <$> ms_pending s.

Definition memory_write_snapshot (s : InMemoryRaftSnapshotStore) (snapshot : PersistedRaftSnapshot)
  : InMemoryRaftSnapshotStore * result unit RaftSnapshotStoreWriteError :=
  ({| ms_current := Some snapshot; ms_pending := None |}, Ok tt).

Definition SNAPSHOT_STREAM_CHUNK_BYTES : u32 := 262144.

Definition stream_chunk_len (remaining : u64) (max_len : u32) : u32 := N.min remaining max_len.

Definition source_chunk (source : SnapshotChunkRequest -> option (list u8)) (snapshot : RaftSnapshot)
    (transfer_id : SnapshotTransferId) (offset : u64) (len : u32)
  : result (list u8) RaftSnapshotStoreWriteError :=
  match source {| req_transfer_id := transfer_id; req_metadata := metadata snapshot;
                  req_total_payload_len := application_payload_len snapshot;
                  req_application_payload_crc32 := application_payload_crc32 snapshot;
                  req_offset := offset; req_len := len |} with
  | None => Err (SourceChunkUnavailable transfer_id offset)
  | Some bytes =>
      if length_u64 bytes =? len then Ok bytes
      else Err (SourceChunkUnavailable transfer_id offset)
  end.

(** The loop that pulls the payload; [fuel] bounds its rounds. *)
Fixpoint pull_payload (fuel : nat) (source : SnapshotChunkRequest -> option (list u8))
    (snapshot : RaftSnapshot) (id : SnapshotTransferId) (offset : u64) (payload : list u8)
  : result (list u8) RaftSnapshotStoreWriteError :=
  let total := application_payload_len snapshot in
  if negb (offset <? total) then Ok payload
  else
    match fuel with
    | 0%nat => Ok payload
    | S fuel =>
        let len := stream_chunk_len (total - offset) SNAPSHOT_STREAM_CHUNK_BYTES in
        let? bytes := source_chunk source snapshot id offset len in
        pull_payload fuel source snapshot id (offset + len) (payload ++ bytes)
    end.

Definition memory_write_snapshot_from_source (s : InMemoryRaftSnapshotStore)
    (snapshot : RaftSnapshot) (source : SnapshotChunkRequest -> option (list u8))
  : InMemoryRaftSnapshotStore * result unit RaftSnapshotStoreWriteError :=
  let rounds := N.to_nat (application_payload_len snapshot / SNAPSHOT_STREAM_CHUNK_BYTES + 1) in
  match pull_payload rounds source snapshot (transfer_id snapshot) 0 [] with
  | Err error => (s, Err error)
  | Ok application_payload =>
      let actual := crc32 application_payload in
      if negb (actual =? application_payload_crc32 snapshot) then
        (s, Err (SnapshotPayloadChecksumMismatch (application_payload_crc32 snapshot) actual))
      else
        memory_write_snapshot s {| prs_metadata := metadata snapshot;
                                   prs_application_payload := application_payload |}
  end.

Definition memory_current_snapshot (s : InMemoryRaftSnapshotStore) : option RaftSnapshot :=
  (fun current => from_payload (prs_metadata current) (prs_application_payload current))
    <$> ms_current s.

Definition memory_stage_snapshot_chunk (s : InMemoryRaftSnapshotStore) (chunk : StagedSnapshotChunk)
  : InMemoryRaftSnapshotStore * result unit RaftSnapshotStoreWriteError :=
  match validate_staged_chunk chunk (memory_pending s) with
  | Err error => (s, Err error)
  | Ok validated =>
      let transfer := pending_transfer_after_chunk chunk validated in
      if ssc_offset chunk =? 0 then
        ({| ms_current := ms_current s;
            ms_pending := Some {| staged_transfer := transfer; staged_bytes := ssc_bytes chunk |} |},
         Ok tt)
      else
        match ms_pending s with
        | None => (s, Err (StagedChunkWithoutTransfer (ssc_transfer_id chunk) (ssc_offset chunk)))
        | Some staged =>
            ({| ms_current := ms_current s;
                ms_pending := Some {| staged_transfer := transfer;
                                      staged_bytes := staged_bytes staged ++ ssc_bytes chunk |} |},
             Ok tt)
        end
  end.

Definition memory_promote_staged_snapshot (s : InMemoryRaftSnapshotStore) (snapshot : RaftSnapshot)
  : InMemoryRaftSnapshotStore * result unit RaftSnapshotStoreWriteError :=
  match validate_staged_promotion snapshot (memory_pending s) with
  | Err error => (s, Err error)
  | Ok _ =>
      match ms_pending s with
      | None => (s, Err (PromoteWithoutStagedTransfer (transfer_id snapshot)))
      | Some staged =>
          let actual := crc32 (staged_bytes staged) in
          if negb (actual =? application_payload_crc32 snapshot) then
            (s, Err (SnapshotPayloadChecksumMismatch (application_payload_crc32 snapshot) actual))
          else
            memory_write_snapshot {| ms_current := ms_current s; ms_pending := None |}
              {| prs_metadata := pst_metadata (staged_transfer staged);
                 prs_application_payload := staged_bytes staged |}
      end
  end.

Definition memory_clear_pending (s : InMemoryRaftSnapshotStore)
  : InMemoryRaftSnapshotStore * result unit RaftSnapshotStoreWriteError :=
  ({| ms_current := ms_current s; ms_pending := None |}, Ok tt).

Definition memory_snapshot_chunk (s : InMemoryRaftSnapshotStore) (request : SnapshotChunkRequest)
  : option (list u8) :=
  current ← ms_current s;
  let payload := prs_application_payload current in
  if negb (bool_decide (prs_metadata current = req_metadata request)) then None
  else if negb (length_u64 payload =? req_total_payload_len request) then None
  else if negb (crc32 payload =? req_application_payload_crc32 request) then None
  else if negb (transfer_id (from_payload (prs_metadata current) payload) =? req_transfer_id request)
  then None
  else
    stop ← u64_checked_add (req_offset request) (req_len request);
    if stop <=? length_u64 payload
    then Some (take (N.to_nat (req_len request)) (drop (N.to_nat (req_offset request)) payload))
    else None.

(** ** The stores of a node *)

Record MemoryStores := {
  mem_hard : RaftHardState;
  mem_log : InMemoryRaftLogSegment;
  mem_snapshots : InMemoryRaftSnapshotStore;
}.

Definition MemoryStores_new : MemoryStores :=
  {| mem_hard := RaftHardState_default; mem_log := InMemoryRaftLogSegment_new;
     mem_snapshots := InMemoryRaftSnapshotStore_new |}.

Definition with_log {A} (d : MemoryStores) (step : InMemoryRaftLogSegment * A) : MemoryStores * A :=
  let '(log, a) := step in
  ({| mem_hard := mem_hard d; mem_log := log; mem_snapshots := mem_snapshots d |}, a).

Definition with_snapshots {A} (d : MemoryStores) (step : InMemoryRaftSnapshotStore * A)
  : MemoryStores * A :=
  let '(snapshots, a) := step in
  ({| mem_hard := mem_hard d; mem_log := mem_log d; mem_snapshots := snapshots |}, a).

#[export] Instance memory_hard_state_store : RaftHardStateStore MemoryStores := {|
  persistence_domain _ := None;
  write_hard_state d state :=
    ({| mem_hard := state; mem_log := mem_log d; mem_snapshots := mem_snapshots d |}, Ok tt);
  hard_state_current := mem_hard;
|}.

#[export] Instance memory_log_segment : RaftLogSegment MemoryStores := {|
  persist_batch d _ _ := (d, Ok None);
  append_entries d entries := with_log d (memory_append_entries (mem_log d) entries);
  truncate_suffix d from := with_log d (memory_truncate_suffix (mem_log d) from);
  compact_prefix_through d through :=
    with_log d (memory_compact_prefix_through (mem_log d) through);
  replay_entries d := cle_entries (ml_entries (mem_log d));
  segment_next_index d := cle_next_index (ml_entries (mem_log d));
  compacted_through d := ml_compacted_through (mem_log d);
|}.

#[export] Instance memory_snapshot_store : RaftSnapshotStore MemoryStores := {|
  write_snapshot d snapshot :=
    with_snapshots d (memory_write_snapshot (mem_snapshots d) snapshot);
  write_snapshot_from_source d snapshot source :=
    with_snapshots d (memory_write_snapshot_from_source (mem_snapshots d) snapshot source);
  current_snapshot d := memory_current_snapshot (mem_snapshots d);
  stage_snapshot_chunk d chunk :=
    with_snapshots d (memory_stage_snapshot_chunk (mem_snapshots d) chunk);
  promote_staged_snapshot d snapshot :=
    with_snapshots d (memory_promote_staged_snapshot (mem_snapshots d) snapshot);
  clear_pending_snapshot_transfer d :=
    with_snapshots d (memory_clear_pending (mem_snapshots d));
  current_pending_snapshot_transfer d := memory_pending (mem_snapshots d);
|}.

#[export] Instance memory_chunk_source : SnapshotChunkSource MemoryStores := {|
  snapshot_chunk d := memory_snapshot_chunk (mem_snapshots d);
|}.

(** ** Contiguity *)

Lemma validate_contiguous_stamp before entries :
  before + length_u64 entries < u64_max -> validate_contiguous (stamp before entries) (before + 1) = Ok tt.
Proof.
  revert before. induction entries as [|e entries IH]; intros before Hb; [done|].
  rewrite stamp_cons. simpl. rewrite N.eqb_refl. simpl. unfold length_u64, u64_max in *. simpl in Hb.
  unfold LogIndex_next. rewrite u64_add_small by (unfold u64_modulus; lia). apply IH. lia.
Qed.

(** ** The laws *)

(** The suffix starts after the compacted prefix and its indexes have
    successors. *)
Definition segment_wf (s : InMemoryRaftLogSegment) : Prop :=
  exists entries, ml_entries s = {| cle_first_index := ml_compacted_through s + 1;
                                    cle_entries := stamp (ml_compacted_through s) entries |} /\
    ml_compacted_through s + length_u64 entries < u64_max.

(** The bytes of a staged transfer are as many as it counts. *)
Definition staging_wf (s : InMemoryRaftSnapshotStore) : Prop :=
  forall staged, ms_pending s = Some staged ->
    length_u64 (staged_bytes staged) = pst_received_len (staged_transfer staged).

Definition memory_wf (d : MemoryStores) : Prop :=
  segment_wf (mem_log d) /\ staging_wf (mem_snapshots d).

Lemma cle_next_index_wf c entries :
  c + length_u64 entries < u64_max ->
  cle_next_index {| cle_first_index := c + 1; cle_entries := stamp c entries |} =
  c + length_u64 entries + 1.
Proof.
  intros Hb. unfold cle_next_index. simpl. rewrite stamp_last.
  destruct entries as [|e l _] using rev_ind; [unfold length_u64; simpl; lia|].
  rewrite last_snoc. simpl. unfold LogIndex_next. unfold u64_max in Hb.
  rewrite u64_add_small by (unfold u64_modulus; lia). done.
Qed.

Lemma reject_all_append_stamp before entries :
  before < u64_max -> reject_all_append_bounds (stamp before entries) = Ok tt ->
  before + length_u64 entries < u64_max.
Proof.
  revert before. induction entries as [|e entries IH]; intros before Hb.
  { unfold length_u64. simpl. lia. }
  rewrite stamp_cons. simpl. unfold reject_append_bounds, advanceable_log_index. simpl.
  case_cmp; [done|]. intros H. apply IH in H; [|lia]. unfold length_u64 in *. simpl. lia.
Qed.

Lemma memory_append_wf s l entries s' r :
  segment_wf s -> cle_entries (ml_entries s) = stamp (ml_compacted_through s) l ->
  memory_append_entries s (stamp (ml_compacted_through s + length_u64 l) entries) = (s', r) ->
  match r with
  | Ok _ => segment_wf s' /\ ml_compacted_through s' = ml_compacted_through s /\
      cle_entries (ml_entries s') = stamp (ml_compacted_through s) (l ++ entries)
  | Err _ => s' = s
  end.
Proof.
  intros (l' & Hl & Hb) Hs. rewrite Hl in Hs. simpl in Hs.
  apply (f_equal (map unstamp)) in Hs. rewrite !unstamp_stamp in Hs. subst l'.
  unfold memory_append_entries, cle_append. rewrite Hl. simpl. rewrite cle_next_index_wf by done.
  destruct (reject_all_append_bounds _) as [[]|error] eqn:Hr; [|by intros [= <- <-]].
  apply reject_all_append_stamp in Hr; [|done]. rewrite validate_contiguous_stamp by done.
  intros [= <- <-]. simpl. rewrite <- stamp_app. split_and!; [|done|done].
  exists (l ++ entries). split; [done|]. simpl. unfold length_u64 in *. rewrite length_app. lia.
Qed.

Lemma memory_truncate_wf s l from s' r :
  segment_wf s -> cle_entries (ml_entries s) = stamp (ml_compacted_through s) l ->
  memory_truncate_suffix s from = (s', r) ->
  match r with
  | Ok _ => segment_wf s' /\ ml_compacted_through s < from /\
      ml_compacted_through s' = ml_compacted_through s /\
      cle_entries (ml_entries s') =
        stamp (ml_compacted_through s) (take (N.to_nat (from - ml_compacted_through s - 1)) l)
  | Err _ => s' = s
  end.
Proof.
  intros (l' & Hl & Hb) Hs. rewrite Hl in Hs. simpl in Hs.
  apply (f_equal (map unstamp)) in Hs. rewrite !unstamp_stamp in Hs. subst l'.
  unfold memory_truncate_suffix, reject_truncate_bounds. case_cmp; [by intros [= <- <-]..|].
  intros [= <- <-]. simpl. rewrite Hl. unfold cle_truncate_suffix. simpl.
  rewrite partition_point_stamp, stamp_take by done.
  rewrite <- take_take, (take_ge l (length l)) by done. split_and!; [|done|done|done].
  eexists. split; [simpl; reflexivity|]. simpl. unfold length_u64 in *. rewrite length_take. lia.
Qed.

Lemma memory_compact_wf s l through s' r :
  segment_wf s -> cle_entries (ml_entries s) = stamp (ml_compacted_through s) l ->
  through < u64_modulus -> memory_compact_prefix_through s through = (s', r) ->
  match r with
  | Ok _ => segment_wf s' /\
      (if through <=? ml_compacted_through s then s' = s
       else ml_compacted_through s' = through /\
            cle_entries (ml_entries s') =
              stamp through (drop (N.to_nat (through - ml_compacted_through s)) l))
  | Err _ => s' = s
  end.
Proof.
  intros Hwf Hs Ht. pose proof Hwf as (l' & Hl & Hb). rewrite Hl in Hs. simpl in Hs.
  apply (f_equal (map unstamp)) in Hs. rewrite !unstamp_stamp in Hs. subst l'.
  unfold memory_compact_prefix_through, reject_compact_bounds, advanceable_log_index.
  destruct (N.eqb_spec through u64_max) as [|Hne]; [by intros [= <- <-]|].
  destruct (N.leb_spec through (ml_compacted_through s)) as [|Hlt]; intros [= <- <-]; [done|].
  simpl. rewrite Hl. unfold cle_compact_prefix_through, LogIndex_next. simpl.
  rewrite u64_add_small by (unfold u64_max, u64_modulus in *; lia). case_cmp; [lia|]. simpl.
  rewrite partition_point_stamp, stamp_drop by lia. set (k := N.to_nat (through - ml_compacted_through s)).
  replace (N.to_nat (through + 1 - ml_compacted_through s - 1)) with k by lia.
  assert (stamp (ml_compacted_through s + N.of_nat (Nat.min k (length l))) (drop (Nat.min k (length l)) l) =
          stamp through (drop k l)) as ->.
  { destruct (Nat.le_gt_cases (length l) k).
    - by rewrite Nat.min_r, !drop_ge by lia.
    - rewrite Nat.min_l by lia. f_equal. lia. }
  split_and!; [|done|done]. eexists. split; [simpl; reflexivity|]. simpl.
  unfold length_u64, u64_max, u64_modulus in *. rewrite length_drop. lia.
Qed.

(** The loop has enough rounds: it collects the whole payload. *)
Lemma pull_payload_length fuel source snapshot id offset payload p :
  offset = length_u64 payload -> offset <= application_payload_len snapshot ->
  application_payload_len snapshot - offset <= N.of_nat fuel * SNAPSHOT_STREAM_CHUNK_BYTES ->
  pull_payload fuel source snapshot id offset payload = Ok p ->
  length_u64 p = application_payload_len snapshot.
Proof.
  revert offset payload. induction fuel as [|fuel IH]; intros offset payload Ho Hle Hf;
    rewrite ?Nat2N.inj_succ in Hf; simpl.
  { destruct (N.ltb_spec offset (application_payload_len snapshot)); simpl; [lia|]. intros [= <-]. lia. }
  destruct (N.ltb_spec offset (application_payload_len snapshot)) as [Hlt|]; simpl; [|intros [= <-]; lia].
  unfold source_chunk. destruct (source _) as [bytes|]; [|done]. simpl.
  destruct (N.eqb_spec (length_u64 bytes) (stream_chunk_len (application_payload_len snapshot - offset) SNAPSHOT_STREAM_CHUNK_BYTES))
    as [Hb|]; [|done].
  unfold stream_chunk_len in *. apply IH; [|lia|].
  - rewrite <- Hb. unfold length_u64. rewrite length_app. unfold length_u64 in Ho. lia.
  - unfold SNAPSHOT_STREAM_CHUNK_BYTES in *. lia.
Qed.

Lemma memory_write_from_source_spec s snapshot source s' r :
  memory_write_snapshot_from_source s snapshot source = (s', r) ->
  match r with
  | Ok _ => memory_current_snapshot s' = Some snapshot /\ ms_pending s' = None
  | Err _ => s' = s
  end.
Proof.
  unfold memory_write_snapshot_from_source. destruct (pull_payload _ _ _ _ _ _) as [p|] eqn:Hp;
    [|by intros [= <- <-]].
  destruct (N.eqb_spec (crc32 p) (application_payload_crc32 snapshot)) as [Hc|];
    [|by intros [= <- <-]].
  intros [= <- <-]. simpl. split; [|done]. unfold memory_current_snapshot. simpl.
  apply pull_payload_length in Hp; [|done|lia|].
  - unfold from_payload, RaftSnapshot_new. rewrite Hp, Hc. by destruct snapshot.
  - pose proof (N.div_mod (application_payload_len snapshot) SNAPSHOT_STREAM_CHUNK_BYTES ltac:(done)).
    pose proof (N.mod_lt (application_payload_len snapshot) SNAPSHOT_STREAM_CHUNK_BYTES ltac:(done)). lia.
Qed.

Lemma memory_stage_spec s chunk s' r :
  staging_wf s -> memory_stage_snapshot_chunk s chunk = (s', r) ->
  match r with
  | Ok _ => staging_wf s' /\ ms_current s' = ms_current s /\
      exists v, validate_staged_chunk chunk (memory_pending s) = Ok v /\
        memory_pending s' = Some (pending_transfer_after_chunk chunk v)
  | Err _ => s' = s
  end.
Proof.
  intros Hwf. unfold memory_stage_snapshot_chunk.
  destruct (validate_staged_chunk _ _) as [v|] eqn:Hv; [|by intros [= <- <-]].
  assert (validated_received_len v = ssc_offset chunk + length_u64 (ssc_bytes chunk) /\
    (ssc_offset chunk <> 0 -> exists staged, ms_pending s = Some staged /\
       ssc_offset chunk = pst_received_len (staged_transfer staged))) as [Hlen Hcont].
  { unfold validate_staged_chunk in Hv. destruct (u64_checked_add _ _) as [stop|] eqn:Ha; [|done].
    apply u64_checked_add_Some in Ha as [_ ->].
    repeat (case_match; [done|]). destruct (validate_continuation _ _) as [[]|] eqn:Hc; [|done].
    injection Hv as <-. split; [done|]. intros Hne. unfold validate_continuation in Hc.
    destruct (N.eqb_spec (ssc_offset chunk) 0); [done|]. unfold memory_pending in Hc.
    destruct (ms_pending s) as [staged|]; [|done]. simpl in Hc. exists staged. split; [done|].
    destruct (_ || _); [done|]. destruct (N.eqb_spec (ssc_offset chunk) (pst_received_len (staged_transfer staged)));
      [done|done]. }
  destruct (N.eqb_spec (ssc_offset chunk) 0) as [Hz|Hne].
  - intros [= <- <-]. split_and!; [|done|by exists v].
    intros staged [= <-]. simpl. rewrite Hlen, Hz. lia.
  - destruct (Hcont Hne) as (staged & Hs & Ho). rewrite Hs. intros [= <- <-].
    split_and!; [|done|by exists v]. intros x [= <-]. simpl. rewrite Hlen, Ho.
    unfold length_u64 in *. rewrite length_app. specialize (Hwf staged Hs). unfold length_u64 in Hwf. lia.
Qed.

Lemma memory_promote_spec s snapshot s' r :
  staging_wf s -> memory_promote_staged_snapshot s snapshot = (s', r) ->
  match r with
  | Ok _ => validate_staged_promotion snapshot (memory_pending s) = Ok tt /\
      memory_current_snapshot s' = Some snapshot /\ ms_pending s' = None
  | Err _ => s' = s
  end.
Proof.
  intros Hwf. unfold memory_promote_staged_snapshot.
  destruct (validate_staged_promotion _ _) as [[]|] eqn:Hv; [|by intros [= <- <-]].
  unfold memory_pending in Hv. destruct (ms_pending s) as [staged|] eqn:Hs; [|done]. simpl in Hv.
  destruct (N.eqb_spec (crc32 (staged_bytes staged)) (application_payload_crc32 snapshot)) as [Hc|];
    [|by intros [= <- <-]].
  intros [= <- <-]. split_and!; [done| |done]. unfold memory_current_snapshot. simpl.
  destruct (negb _); [done|].
  destruct (bool_decide_reflect (staged_descriptor (staged_transfer staged) = snapshot)) as [Hd|]; [|done].
  simpl in Hv. destruct (is_complete _) eqn:Hcomp; [|done]. unfold is_complete, received_bytes in Hcomp.
  apply N.eqb_eq in Hcomp. specialize (Hwf staged Hs). unfold from_payload.
  rewrite Hwf, Hcomp, Hc, <- Hd. done.
Qed.

Lemma memory_image_log d l :
  cle_entries (ml_entries (mem_log d)) = stamp (ml_compacted_through (mem_log d)) l ->
  im_log (image d) = l.
Proof. intros H. simpl. rewrite H. apply unstamp_stamp. Qed.

Lemma memory_replay d : memory_wf d ->
  replay_entries d = stamp (im_compacted (image d)) (im_log (image d)).
Proof. intros [(l & Hl & _) _]. simpl. rewrite Hl. simpl. by rewrite unstamp_stamp. Qed.

Lemma memory_next d : memory_wf d ->
  segment_next_index d = im_last (image d) + 1 /\ im_last (image d) < u64_max.
Proof.
  intros [(l & Hl & Hb) _]. simpl. unfold im_last. simpl. rewrite Hl. simpl.
  rewrite unstamp_stamp, cle_next_index_wf by done. done.
Qed.

#[export, program] Instance memory_laws : StoreLaws MemoryStores := {|
  healthy := memory_wf;
  reopens := fun d d' => d' = d /\ memory_wf d;
|}.
Next Obligation. by intros d d' _ [-> H]. Qed.
Next Obligation. by intros d d' _ [-> _]. Qed.
Next Obligation. apply memory_replay. Qed.
Next Obligation. intros d H. by apply memory_next. Qed.
Next Obligation. intros d H. by apply memory_next. Qed.
Next Obligation. intros d hs d' r Hd [= <- <-]. done. Qed.
Next Obligation.
  intros d entries d' r Hd H. pose proof (memory_replay d Hd) as Hl. simpl in H. unfold with_log in H.
  destruct (memory_append_entries _ _) as [s' r'] eqn:Ha. injection H as <- <-.
  eapply memory_append_wf in Ha; [|apply Hd|exact Hl]. destruct r' as [u|e].
  - destruct Ha as (Hwf & Hc & He). split; [split; [done|apply Hd]|].
    unfold image. simpl. by rewrite Hc, He, unstamp_stamp.
  - subst s'. intros d'' [-> Hr]. split; [done|]. exists 0%nat. rewrite app_nil_r. by destruct d.
Qed.
Next Obligation.
  intros d from d' r Hd H. pose proof (memory_replay d Hd) as Hl. simpl in H. unfold with_log in H.
  destruct (memory_truncate_suffix _ _) as [s' r'] eqn:Ha. injection H as <- <-.
  eapply memory_truncate_wf in Ha; [|apply Hd|exact Hl]. destruct r' as [u|e].
  - destruct Ha as (Hwf & Hlt & Hc & He). split_and!; [split; [done|apply Hd]|done|].
    unfold image, im_truncate. simpl. by rewrite Hc, He, unstamp_stamp.
  - subst s'. intros d'' [-> Hr]. split; [done|]. left. by destruct d.
Qed.
Next Obligation.
  intros d through d' r Hd Ht H. pose proof (memory_replay d Hd) as Hl. simpl in H. unfold with_log in H.
  destruct (memory_compact_prefix_through _ _) as [s' r'] eqn:Ha. injection H as <- <-.
  eapply memory_compact_wf in Ha; [|apply Hd|exact Hl|exact Ht]. destruct r' as [u|e].
  - destruct Ha as (Hwf & He). split; [split; [done|apply Hd]|]. unfold im_compact. simpl in He |- *.
    case_cmp; [by subst s'; destruct d|]. destruct He as [Hc He]. unfold image. simpl. by rewrite Hc, He, unstamp_stamp.
  - subst s'. intros d'' [-> Hr]. split; [done|]. left. by destruct d.
Qed.
Next Obligation. intros d domain entries hard d' r Hd [= <- <-]. done. Qed.
Next Obligation. intros d snapshot d' r [Hd _] [= <- <-]. split; [by split|done]. Qed.
Next Obligation.
  intros d descriptor source d' r [Hd Hs] H. simpl in H. unfold with_snapshots in H.
  destruct (memory_write_snapshot_from_source _ _ _) as [s' r'] eqn:Ha. injection H as <- <-.
  apply memory_write_from_source_spec in Ha. destruct r' as [u|e].
  - destruct Ha as [Hc Hp]. split; [split; [done|]; intros staged; simpl; by rewrite Hp|].
    unfold image. simpl. unfold memory_pending. by rewrite Hc, Hp.
  - subst s'. intros d'' [-> Hr]. split; [done|]. eexists _, _. split_and!; [by left|by left|by destruct d].
Qed.
Next Obligation.
  intros d chunk d' r [Hd Hs] H. simpl in H. unfold with_snapshots in H.
  destruct (memory_stage_snapshot_chunk _ _) as [s' r'] eqn:Ha. injection H as <- <-.
  apply memory_stage_spec in Ha; [|done]. destruct r' as [u|e].
  - destruct Ha as (Hwf & Hc & v & Hv & Hp). split; [by split|]. exists v. split; [done|].
    unfold image. simpl. unfold memory_current_snapshot. by rewrite Hc, Hp.
  - subst s'. intros d'' [-> Hr]. split; [done|]. eexists. split; [by left|by destruct d].
Qed.
Next Obligation.
  intros d snapshot d' r [Hd Hs] H. simpl in H. unfold with_snapshots in H.
  destruct (memory_promote_staged_snapshot _ _) as [s' r'] eqn:Ha. injection H as <- <-.
  apply memory_promote_spec in Ha; [|done]. destruct r' as [u|e].
  - destruct Ha as (Hv & Hc & Hp). split_and!; [split; [done|]; intros staged; simpl; by rewrite Hp|done|].
    unfold image. simpl. unfold memory_pending. by rewrite Hc, Hp.
  - subst s'. intros d'' [-> Hr]. split; [done|]. eexists _, _. split_and!; [by left|by left|by destruct d].
Qed.
Next Obligation. intros d d' r [Hd _] [= <- <-]. split; [by split|done]. Qed.
