(* ===== verification/Runtime.v ===== *)
(** * The durable runtime

    [rafter-runtime]'s [DurableRaftNode]: a kernel node, the stores of a node
    and the fence between them. Errors ([error/]), log repair
    ([log_repair.rs]), snapshot installation ([snapshot_install.rs]), stepping
    ([step.rs], [step/]), local compaction ([compaction.rs]) and construction
    over durable storage ([construction/]).

    Operations pass the state through and return a [result]; the state they
    leave beside an error is what a crash or a failed write leaves. *)

From stdpp Require Import base strings list sorting numbers option sets.
From S2P Require Import Prelude.
From S2P Require Import Types.
From S2P Require Import Crc32.
From S2P Require Import Snapshot.
From S2P Require Import Message.
From S2P Require Import Membership.
From S2P Require Import Config.
From S2P Require Import NodeState.
From S2P Require Import Log.
From S2P Require Import View.
From S2P Require Import Commit.
From S2P Require Import SnapshotTransfer.
From S2P Require Import Receive.
From S2P Require Import LocalSnapshot.
From S2P Require Import Dispatch.
From S2P Require Import Bootstrap.
From S2P Require Import Stores.

(** ** Errors *)

Inductive RaftRuntimeFatalError :=
| FatalHardStateWrite (error : RaftHardStateStoreWriteError)
| FatalPersistenceBatch (error : RaftPersistenceBatchError)
| FatalLogAppend (error : RaftLogSegmentAppendError)
| FatalLogTruncate (error : RaftLogSegmentTruncateError)
| FatalLogCompact (error : RaftLogSegmentCompactError)
| FatalSnapshotWrite (error : RaftSnapshotStoreWriteError)
| FatalLogPrefixDiverged (index : LogIndex)
| FatalUnsupportedConfigurationEntry (index : LogIndex)
| FatalLogBehindSnapshotBoundary (segment_next_index snapshot_index : LogIndex).

Inductive RaftRuntimeError :=
| RtBootstrap (error : BootstrapValidationError)
| RtHardStateWrite (error : RaftHardStateStoreWriteError)
| RtPersistenceBatch (error : RaftPersistenceBatchError)
| RtLogAppend (error : RaftLogSegmentAppendError)
| RtLogTruncate (error : RaftLogSegmentTruncateError)
| RtLogCompact (error : RaftLogSegmentCompactError)
| RtSnapshotWrite (error : RaftSnapshotStoreWriteError)
| RtPendingSnapshotTransferResume (error : PendingSnapshotTransferResumeError)
| RtSnapshotAheadOfCommit (snapshot_index commit_index : LogIndex)
| RtSnapshotAheadOfApplied (snapshot_index applied_index : LogIndex)
| RtSnapshotBelowInstalledBoundary (snapshot_index installed_index : LogIndex)
| RtSnapshotRefusedByKernel (reason : LocalSnapshotInstallError)
| RtSnapshotBoundaryTermMismatch (snapshot_index : LogIndex) (snapshot_term : Term)
    (local_term : option Term)
| RtSnapshotMembershipMismatch (snapshot_index : LogIndex) (expected actual : MembershipConfig)
| RtSnapshotCommittedConfigurationMismatch (snapshot_index : LogIndex)
    (expected actual : option CommittedConfiguration)
| RtLogPrefixDiverged (index : LogIndex)
| RtUnsupportedConfigurationEntry (index : LogIndex)
| RtCompactionAheadOfSnapshot (compacted_through snapshot_index : LogIndex)
| RtLogBehindSnapshotBoundary (segment_next_index snapshot_index : LogIndex)
| RtPoisoned (cause : RaftRuntimeFatalError).

(** Whether an error poisons the runtime. *)
Definition from_runtime_error (error : RaftRuntimeError) : option RaftRuntimeFatalError :=
  match error with
  | RtHardStateWrite error => Some (FatalHardStateWrite error)
  | RtPersistenceBatch error => Some (FatalPersistenceBatch error)
  | RtLogAppend error => Some (FatalLogAppend error)
  | RtLogTruncate error => Some (FatalLogTruncate error)
  | RtLogCompact error => Some (FatalLogCompact error)
  | RtSnapshotWrite error => Some (FatalSnapshotWrite error)
  | RtLogPrefixDiverged index => Some (FatalLogPrefixDiverged index)
  | RtUnsupportedConfigurationEntry index => Some (FatalUnsupportedConfigurationEntry index)
  | RtLogBehindSnapshotBoundary next_index snapshot_index =>
      Some (FatalLogBehindSnapshotBoundary next_index snapshot_index)
  | RtBootstrap _ | RtPendingSnapshotTransferResume _ | RtSnapshotAheadOfCommit _ _
  | RtSnapshotAheadOfApplied _ _ | RtSnapshotBelowInstalledBoundary _ _
  | RtSnapshotRefusedByKernel _ | RtSnapshotBoundaryTermMismatch _ _ _
  | RtSnapshotMembershipMismatch _ _ _ | RtSnapshotCommittedConfigurationMismatch _ _ _
  | RtCompactionAheadOfSnapshot _ _ | RtPoisoned _ => None
  end.

Definition local_snapshot_install_error (error : LocalSnapshotInstallError) : RaftRuntimeError :=
  match error with
  | BoundaryBelowInstalledSnapshot snapshot_index installed_index =>
      RtSnapshotBelowInstalledBoundary snapshot_index installed_index
  | BoundaryAheadOfCommit snapshot_index commit_index =>
      RtSnapshotAheadOfCommit snapshot_index commit_index
  | BoundaryAheadOfApplied snapshot_index applied_index =>
      RtSnapshotAheadOfApplied snapshot_index applied_index
  | BoundaryTermMismatch snapshot_index snapshot_term local_term =>
      RtSnapshotBoundaryTermMismatch snapshot_index snapshot_term local_term
  | CommittedMembershipMismatch snapshot_index expected actual =>
      RtSnapshotMembershipMismatch snapshot_index expected actual
  | CommittedConfigurationMismatch snapshot_index expected actual =>
      RtSnapshotCommittedConfigurationMismatch snapshot_index expected actual
  | other => RtSnapshotRefusedByKernel other
  end.

(** ** Sequencing *)

(** [m?; k] over a passed state. *)
Definition and_then {S A B E} (m : S * result A E) (k : S -> A -> S * result B E)
  : S * result B E :=
  let '(s, r) := m in
  match r with Ok a => k s a | Err e => (s, Err e) end.

(** [m.map_err(f)]. *)
Definition mapping_err {S A E F} (f : E -> F) (m : S * result A E) : S * result A F :=
  let '(s, r) := m in (s, map_err f r).

(** ** Projections of the kernel *)

Definition hard_state_for_node (n : Node) : RaftHardState :=
  {| hs_current_term := current_term (persistent n);
     hs_voted_for := voted_for (persistent n);
     hs_commit_index := commit_index (volatile n);
     hs_committed_configuration := committed_configuration_state_at n (commit_index (volatile n)) |}.

Record PersistedTail := {
  tail_index : LogIndex;
  tail_term : Term;
}.

Definition of_node (n : Node) : PersistedTail :=
  let index := last_log_index n in
  {| tail_index := index; tail_term := default 0 (term_at n index) |}.

Definition still_matches (tail : PersistedTail) (n : Node) : bool :=
  bool_decide (term_at n (tail_index tail) = Some (tail_term tail)).

(** ** The node *)

Record DurableRaftNode (D : Type) := {
  rt_node : Node;
  rt_stores : D;
  rt_persisted_tail : option PersistedTail;
  rt_fatal_error : option RaftRuntimeFatalError;
}.
Arguments rt_node {D} _.
Arguments rt_stores {D} _.
Arguments rt_persisted_tail {D} _.
Arguments rt_fatal_error {D} _.

#[export] Instance set_rt_node {D} : Setter (@rt_node D) := fun v r =>
  {| rt_node := v; rt_stores := rt_stores r; rt_persisted_tail := rt_persisted_tail r;
     rt_fatal_error := rt_fatal_error r |}.
#[export] Instance set_rt_stores {D} : Setter (@rt_stores D) := fun v r =>
  {| rt_node := rt_node r; rt_stores := v; rt_persisted_tail := rt_persisted_tail r;
     rt_fatal_error := rt_fatal_error r |}.
#[export] Instance set_rt_persisted_tail {D} : Setter (@rt_persisted_tail D) := fun v r =>
  {| rt_node := rt_node r; rt_stores := rt_stores r; rt_persisted_tail := v;
     rt_fatal_error := rt_fatal_error r |}.
#[export] Instance set_rt_fatal_error {D} : Setter (@rt_fatal_error D) := fun v r =>
  {| rt_node := rt_node r; rt_stores := rt_stores r; rt_persisted_tail := rt_persisted_tail r;
     rt_fatal_error := v |}.

Section runtime.
Context {D : Type} `{!RaftHardStateStore D, !RaftLogSegment D, !RaftSnapshotStore D,
                     !SnapshotChunkSource D}.
Implicit Types (d : D) (rt : DurableRaftNode D).

Definition on_stores {A E} rt (step : D * result A E) : DurableRaftNode D * result A E :=
  let '(d, r) := step in (rt <| rt_stores := d |>, r).

(** [into_storage]: the durable truth a successor recovers from. *)
Definition into_storage rt : D := rt_stores rt.

(** ** Log repair *)

Definition first_persisted_divergence d (n : Node) : option LogIndex :=
  find_map (fun persisted =>
              match head (log_entries_slice_from n (ple_index persisted)) with
              | Some entry =>
                  if (entry_term entry =? ple_term persisted)
                     && bool_decide (entry_kind entry = ple_kind persisted)
                  then None else Some (ple_index persisted)
              | None => Some (ple_index persisted)
              end)
    (filter_bool (fun persisted => snapshot_index n <? ple_index persisted) (replay_entries d)).

Definition repair_persisted_log_suffix d (n : Node) (persisted_tail : option PersistedTail)
    (commit_floor : LogIndex) : D * result unit RaftRuntimeError :=
  if is_some_and (fun tail => still_matches tail n) persisted_tail then (d, Ok tt)
  else
    match first_persisted_divergence d n with
    | Some index =>
        if index <=? commit_floor then (d, Err (RtLogPrefixDiverged index))
        else mapping_err RtLogTruncate (truncate_suffix d index)
    | None => (d, Ok tt)
    end.

(** ** Snapshot installation *)

Definition install_staged_snapshot d (snapshot : RaftSnapshot) (commit_floor : LogIndex)
  : D * result unit RaftRuntimeError :=
  let boundary := last_included_index (metadata snapshot) in
  let boundary_entry := find_first (fun entry => ple_index entry =? boundary) (replay_entries d) in
  and_then
    (if is_some_and (fun entry => negb (ple_term entry =? last_included_term (metadata snapshot)))
          boundary_entry
     then if boundary <=? commit_floor then (d, Err (RtLogPrefixDiverged boundary))
          else mapping_err RtLogTruncate (truncate_suffix d boundary)
     else (d, Ok tt))
    (fun d _ =>
       and_then (mapping_err RtSnapshotWrite (promote_staged_snapshot d snapshot))
         (fun d _ => mapping_err RtLogCompact (compact_prefix_through d boundary))).

(** ** The snapshot half of a step *)

Fixpoint persist_snapshot_outputs_for_step d (outputs : list Output)
  : D * result unit RaftRuntimeError :=
  match outputs with
  | [] => (d, Ok tt)
  | output :: outputs =>
      and_then
        (match output with
         | StageSnapshotChunk chunk => mapping_err RtSnapshotWrite (stage_snapshot_chunk d chunk)
         | ApplySnapshot snapshot =>
             install_staged_snapshot d snapshot (hs_commit_index (hard_state_current d))
         | _ => (d, Ok tt)
         end)
        (fun d _ => persist_snapshot_outputs_for_step d outputs)
  end.

Definition clear_abandoned_snapshot_staging_for_step d (n : Node)
  : D * result unit RaftRuntimeError :=
  if is_none (pending_snapshot_transfer n) && is_some (current_pending_snapshot_transfer d)
  then mapping_err RtSnapshotWrite (clear_pending_snapshot_transfer d)
  else (d, Ok tt).

Definition is_chunk_send (output : Output) : bool :=
  match output with SendSnapshotChunk _ _ => true | _ => false end.

Definition resolve_snapshot_chunk_sends d (outputs : list Output) : list Output :=
  if negb (existsb is_chunk_send outputs) then outputs
  else
    omap (fun output =>
            match output with
            | SendSnapshotChunk to chunk =>
                (fun message => Send to (MInstallSnapshotChunk message)) <$> resolve chunk d
            | other => Some other
            end) outputs.

(** ** The atomic fast path *)

Definition needs_explicit_fence (output : Output) : bool :=
  match output with
  | StageSnapshotChunk _ | ApplySnapshot _ | ConfigurationCommitted _ _ _ _ => true
  | _ => false
  end.

Definition is_application (kind : LogEntryKind) : bool :=
  match kind with Application _ => true | _ => false end.

(** The steps after which one batch of application entries and hard state
    covers everything that changed. *)
Definition atomic_batch_eligible rt (before current : RaftHardState) (outputs : list Output) : bool :=
  let n := rt_node rt in
  let d := rt_stores rt in
  negb (negb (hs_current_term before =? hs_current_term current)
        || negb (bool_decide (hs_voted_for before = hs_voted_for current))
        || negb (bool_decide (hs_committed_configuration before =
                              hs_committed_configuration current))
        || existsb needs_explicit_fence outputs
        || is_some (pending_snapshot_transfer n)
        || is_some (current_pending_snapshot_transfer d)
        || negb (snapshot_index n =? compacted_through d)
        || negb (is_some_and (fun tail => still_matches tail n) (rt_persisted_tail rt))).

(** What a receipt has to say for the step to count as durable. *)
Definition receipt_matches rt (domain : PersistenceDomain) (current : RaftHardState)
    (receipt : DurableReceipt) : bool :=
  let n := rt_node rt in
  let d := rt_stores rt in
  (receipt_domain receipt =? domain)
  && bool_decide (receipt_hard_state receipt = current)
  && bool_decide (hard_state_current d = current)
  && (receipt_next_index receipt =? LogIndex_next (last_log_index n))
  && (receipt_next_index receipt =? segment_next_index d)
  && (receipt_compacted_through receipt =? snapshot_index n)
  && (receipt_compacted_through receipt =? compacted_through d).

(** Kernel entries stamped with segment indexes from [first] on. *)
Definition stamp_from (first : LogIndex) (entries : list LogEntry) : list PersistedRaftLogEntry :=
  imap (fun offset entry =>
          {| ple_index := u64_add first (N.of_nat offset); ple_term := entry_term entry;
             ple_kind := entry_kind entry |}) entries.

Definition try_atomic_append_batch rt (before current : RaftHardState) (outputs : list Output)
  : DurableRaftNode D * result bool RaftRuntimeError :=
  match persistence_domain (rt_stores rt) with
  | None => (rt, Ok false)
  | Some domain =>
      if negb (atomic_batch_eligible rt before current outputs) then (rt, Ok false)
      else
        let first := segment_next_index (rt_stores rt) in
        let entries := log_entries_slice_from (rt_node rt) first in
        if existsb (fun entry => negb (is_application (entry_kind entry))) entries
        then (rt, Ok false)
        else
          let batch :=
            {| batch_truncate_from := None;
               batch_entries := stamp_from first entries;
               batch_hard_state := if bool_decide (current = before) then None else Some current |} in
          and_then
            (on_stores rt (mapping_err RtPersistenceBatch (persist_batch (rt_stores rt) domain batch)))
            (fun rt receipt =>
               match receipt with
               | None => (rt, Ok false)
               | Some receipt =>
                   if receipt_matches rt domain current receipt
                   then (rt <| rt_persisted_tail := Some (of_node (rt_node rt)) |>, Ok true)
                   else (rt, Err (RtPersistenceBatch
                                    (InvalidBatch "receipt does not match stepped state"%string)))
               end)
  end.

(** ** The fence *)

Definition poison {A} (m : DurableRaftNode D * result A RaftRuntimeError)
  : DurableRaftNode D * result A RaftRuntimeError :=
  let '(rt, r) := m in
  match r with
  | Ok a => (rt, Ok a)
  | Err error =>
      (match from_runtime_error error with
       | Some fatal => rt <| rt_fatal_error := Some fatal |>
       | None => rt
       end, Err error)
  end.

Definition persist_log_suffix_for_step rt (commit_floor : LogIndex)
  : DurableRaftNode D * result unit RaftRuntimeError :=
  and_then
    (on_stores rt (repair_persisted_log_suffix (rt_stores rt) (rt_node rt) (rt_persisted_tail rt)
                     commit_floor))
    (fun rt _ =>
       let first_new_index := segment_next_index (rt_stores rt) in
       let snapshot_index := snapshot_index (rt_node rt) in
       if first_new_index <=? snapshot_index
       then (rt, Err (RtLogBehindSnapshotBoundary first_new_index snapshot_index))
       else
         let entries := log_entries_slice_from (rt_node rt) first_new_index in
         and_then
           (match entries with
            | [] => (rt, Ok tt)
            | _ => on_stores rt (mapping_err RtLogAppend
                     (append_entries (rt_stores rt) (stamp_from first_new_index entries)))
            end)
           (fun rt _ => (rt <| rt_persisted_tail := Some (of_node (rt_node rt)) |>, Ok tt))).

(** Writes the hard state when it differs from the stored one. *)
Definition write_changed_hard_state rt (stored state : RaftHardState)
  : DurableRaftNode D * result unit RaftRuntimeError :=
  if bool_decide (state = stored) then (rt, Ok tt)
  else on_stores rt (mapping_err RtHardStateWrite (write_hard_state (rt_stores rt) state)).

Definition persist_stepped rt (persisted_before : RaftHardState) (commit_floor : LogIndex)
    (outputs : list Output) : DurableRaftNode D * result (list Output) RaftRuntimeError :=
  let current := hard_state_for_node (rt_node rt) in
  poison (and_then (try_atomic_append_batch rt persisted_before current outputs) (fun rt atomic =>
    if (atomic : bool) then (rt, Ok (resolve_snapshot_chunk_sends (rt_stores rt) outputs))
    else
      let pre_log_hard_state :=
        {| hs_current_term := hs_current_term current;
           hs_voted_for := hs_voted_for current;
           hs_commit_index := hs_commit_index persisted_before;
           hs_committed_configuration := hs_committed_configuration persisted_before |} in
      and_then (write_changed_hard_state rt persisted_before pre_log_hard_state) (fun rt _ =>
      and_then (on_stores rt (persist_snapshot_outputs_for_step (rt_stores rt) outputs)) (fun rt _ =>
      and_then (on_stores rt (clear_abandoned_snapshot_staging_for_step (rt_stores rt) (rt_node rt)))
        (fun rt _ =>
      and_then (persist_log_suffix_for_step rt commit_floor) (fun rt _ =>
      and_then (write_changed_hard_state rt (hard_state_current (rt_stores rt)) current) (fun rt _ =>
        (rt, Ok (resolve_snapshot_chunk_sends (rt_stores rt) outputs))))))))).

Definition step_and_persist rt (step : Node -> Node * list Output)
  : DurableRaftNode D * result (list Output) RaftRuntimeError :=
  match rt_fatal_error rt with
  | Some cause => (rt, Err (RtPoisoned cause))
  | None =>
      let persisted_before := hard_state_current (rt_stores rt) in
      let commit_floor := commit_index (volatile (rt_node rt)) in
      let '(n, outputs) := step (rt_node rt) in
      persist_stepped (rt <| rt_node := n |>) persisted_before commit_floor outputs
  end.

(** ** Stepping *)

Definition runtime_step rt (input : Input) : DurableRaftNode D * result (list Output) RaftRuntimeError :=
  step_and_persist rt (fun n => step n input).

Definition step_tracked_proposal rt (proposal_id : LocalProposalId) (payload : list u8)
  : DurableRaftNode D * result (list Output) RaftRuntimeError :=
  runtime_step rt (TrackedClientProposal proposal_id payload).

Definition step_read_index rt (read_id : ReadId)
  : DurableRaftNode D * result (list Output) RaftRuntimeError :=
  runtime_step rt (ReadIndex read_id).

Definition runtime_step_proposal_batch rt (proposals : list ClientProposalInput)
  : DurableRaftNode D * result (list Output) RaftRuntimeError :=
  match proposals with
  | [] => (rt, Ok [])
  | _ => step_and_persist rt (fun n => step_proposal_batch n proposals)
  end.

Definition runtime_step_batch rt (inputs : list Input)
  : DurableRaftNode D * result (list Output) RaftRuntimeError :=
  match inputs with
  | [input] => runtime_step rt input
  | _ => step_and_persist rt (fun n => step_batch n inputs)
  end.

Definition runtime_drain_committed_outputs rt : DurableRaftNode D * list Output :=
  let '(n, outputs) := drain_committed_outputs (rt_node rt) in
  (rt <| rt_node := n |>, outputs).

(** ** Local compaction *)

Definition fill_local_snapshot_membership (n : Node) (metadata : RaftSnapshotMetadata)
  : RaftSnapshotMetadata :=
  if is_some (metadata_committed_configuration metadata) then metadata
  else
    let snapshot_index := last_included_index metadata in
    set_metadata_configuration metadata
      (Some {| scc_configuration := committed_configuration_state_at n snapshot_index;
               scc_membership := membership_at_index n snapshot_index |}).

(** Prepares the kernel's transition, publishes the snapshot with [write],
    compacts the log and commits the transition. *)
Definition compact_with rt (descriptor : RaftSnapshot)
    (write : D -> D * result unit RaftSnapshotStoreWriteError)
  : DurableRaftNode D * result (list LogEntry) RaftRuntimeError :=
  match prepare_local_snapshot_install (rt_node rt) descriptor with
  | Err error => (rt, Err (local_snapshot_install_error error))
  | Ok prepared =>
      let boundary_index := last_included_index (metadata descriptor) in
      poison (and_then
        (on_stores rt
           (and_then (mapping_err RtSnapshotWrite (write (rt_stores rt)))
              (fun d _ => mapping_err RtLogCompact (compact_prefix_through d boundary_index))))
        (fun rt _ =>
           let '(n, _, retired) := commit_with_retired_entries (rt_node rt) prepared in
           (rt <| rt_node := n |>, Ok retired)))
  end.

Definition compact_log_with_snapshot_deferred_drop rt (snapshot : PersistedRaftSnapshot)
  : DurableRaftNode D * result (list LogEntry) RaftRuntimeError :=
  match rt_fatal_error rt with
  | Some cause => (rt, Err (RtPoisoned cause))
  | None =>
      let snapshot :=
        {| prs_metadata := fill_local_snapshot_membership (rt_node rt) (prs_metadata snapshot);
           prs_application_payload := prs_application_payload snapshot |} in
      let descriptor :=
        RaftSnapshot_new (prs_metadata snapshot) (length_u64 (prs_application_payload snapshot))
          (crc32 (prs_application_payload snapshot)) in
      compact_with rt descriptor (fun d => write_snapshot d snapshot)
  end.

Definition compact_log_with_snapshot rt (snapshot : PersistedRaftSnapshot)
  : DurableRaftNode D * result unit RaftRuntimeError :=
  and_then (compact_log_with_snapshot_deferred_drop rt snapshot) (fun rt _ => (rt, Ok tt)).

Definition compact_log_through_snapshot rt (metadata : RaftSnapshotMetadata)
  : DurableRaftNode D * result unit RaftRuntimeError :=
  compact_log_with_snapshot rt {| prs_metadata := metadata; prs_application_payload := [] |}.

(** [OriginalSnapshotChunkSource]: serves the original descriptor's payload. *)
Definition original_snapshot_chunk (source : SnapshotChunkRequest -> option (list u8))
    (snapshot : RaftSnapshot) (request : SnapshotChunkRequest) : option (list u8) :=
  if negb (req_total_payload_len request =? application_payload_len snapshot)
     || negb (req_application_payload_crc32 request =? application_payload_crc32 snapshot)
  then None
  else
    source {| req_transfer_id := transfer_id snapshot; req_metadata := metadata snapshot;
              req_total_payload_len := application_payload_len snapshot;
              req_application_payload_crc32 := application_payload_crc32 snapshot;
              req_offset := req_offset request; req_len := req_len request |}.

Definition compact_log_with_streamed_snapshot_deferred_drop rt (snapshot : RaftSnapshot)
    (source : SnapshotChunkRequest -> option (list u8))
  : DurableRaftNode D * result (list LogEntry) RaftRuntimeError :=
  match rt_fatal_error rt with
  | Some cause => (rt, Err (RtPoisoned cause))
  | None =>
      let descriptor :=
        {| metadata := fill_local_snapshot_membership (rt_node rt) (metadata snapshot);
           application_payload_len := application_payload_len snapshot;
           application_payload_crc32 := application_payload_crc32 snapshot |} in
      compact_with rt descriptor (fun d =>
        write_snapshot_from_source d descriptor (original_snapshot_chunk source snapshot))
  end.

Definition compact_log_with_streamed_snapshot rt (snapshot : RaftSnapshot)
    (source : SnapshotChunkRequest -> option (list u8))
  : DurableRaftNode D * result unit RaftRuntimeError :=
  and_then (compact_log_with_streamed_snapshot_deferred_drop rt snapshot source)
    (fun rt _ => (rt, Ok tt)).

(** ** Construction *)

Definition persisted_entry_to_bootstrap (entry : PersistedRaftLogEntry) : BootstrapLogEntry :=
  {| ble_index := ple_index entry; ble_term := ple_term entry; ble_kind := ple_kind entry |}.

Definition boundary_of (snapshot : option RaftSnapshot) : LogIndex :=
  match snapshot with
  | Some snapshot => last_included_index (metadata snapshot)
  | None => 0
  end.

(** Finishes an installation that was interrupted before its promotion. *)
Definition finish_staged_installation d : D * result unit RaftRuntimeError :=
  match current_pending_snapshot_transfer d with
  | None => (d, Ok tt)
  | Some transfer =>
      let staged_boundary := last_included_index (pst_metadata transfer) in
      if is_complete transfer && (boundary_of (current_snapshot d) <? staged_boundary)
      then install_staged_snapshot d (staged_descriptor transfer)
             (hs_commit_index (hard_state_current d))
      else (d, Ok tt)
  end.

(** Finishes a compaction that was interrupted after its promotion. *)
Definition finish_compaction d : D * result unit RaftRuntimeError :=
  let snapshot_index := boundary_of (current_snapshot d) in
  let compacted := compacted_through d in
  if snapshot_index <? compacted then (d, Err (RtCompactionAheadOfSnapshot compacted snapshot_index))
  else if (compacted <? snapshot_index) && (segment_next_index d <=? snapshot_index)
  then mapping_err RtLogCompact (compact_prefix_through d snapshot_index)
  else (d, Ok tt).

Definition bootstrap_state d (hard_state : RaftHardState) : BootstrapState :=
  let snapshot := current_snapshot d in
  {| bs_current_term := hs_current_term hard_state;
     bs_voted_for := hs_voted_for hard_state;
     bs_commit_index := hs_commit_index hard_state;
     bs_committed_configuration := hs_committed_configuration hard_state;
     bs_snapshot := snapshot;
     bs_log := map persisted_entry_to_bootstrap
                 (filter_bool (fun entry => boundary_of snapshot <=? ple_index entry)
                    (replay_entries d)) |}.

(** Resumes a transfer that is still wanted and clears a stale one. *)
Definition resume_staged_transfer d (n : Node) : D * result Node RaftRuntimeError :=
  match current_pending_snapshot_transfer d with
  | None => (d, Ok n)
  | Some transfer =>
      match resume_pending_snapshot_transfer n transfer with
      | Ok n => (d, Ok n)
      | Err (StaleSnapshot _ _) =>
          and_then (mapping_err RtSnapshotWrite (clear_pending_snapshot_transfer d))
            (fun d _ => (d, Ok n))
      | Err error => (d, Err (RtPendingSnapshotTransferResume error))
      end
  end.

Definition with_storage_and_snapshot_store_applied_through (config : NodeConfig) d
    (applied_through : LogIndex) : D * result (DurableRaftNode D) RaftRuntimeError :=
  let hard_state := hard_state_current d in
  and_then (finish_staged_installation d) (fun d _ =>
  and_then (finish_compaction d) (fun d _ =>
  match from_bootstrap_applied_through config (bootstrap_state d hard_state) applied_through with
  | Err error => (d, Err (RtBootstrap error))
  | Ok n =>
      and_then (resume_staged_transfer d n) (fun d n =>
        (d, Ok {| rt_node := n; rt_stores := d; rt_persisted_tail := Some (of_node n);
                  rt_fatal_error := None |}))
  end)).

Definition with_storage_and_snapshot_store (config : NodeConfig) d
  : D * result (DurableRaftNode D) RaftRuntimeError :=
  with_storage_and_snapshot_store_applied_through config d 0.

Definition recover_with_storage_and_snapshot_store_applied_through (config : NodeConfig) d
    (applied_through : LogIndex)
  : D * result (DurableRaftNode D * list Output) RaftRuntimeError :=
  and_then (with_storage_and_snapshot_store_applied_through config d applied_through)
    (fun d rt => (d, Ok (runtime_drain_committed_outputs rt))).

Definition recover_with_storage_and_snapshot_store (config : NodeConfig) d
  : D * result (DurableRaftNode D * list Output) RaftRuntimeError :=
  recover_with_storage_and_snapshot_store_applied_through config d 0.
End runtime.
