(* ===== verification/SnapshotFlow.v ===== *)
(** * Snapshots staged and installed by an operation

    The snapshots a sequence of operations asks its driver to stage and to
    install come from the messages it delivers, install at ascending boundaries
    above the commit index, and the last one installed is the node's snapshot
    afterwards. *)

From stdpp Require Import base list sorting numbers option sets.
From S2P Require Import Prelude.
From S2P Require Import Types.
From S2P Require Import Snapshot.
From S2P Require Import Message.
From S2P Require Import NodeState.
From S2P Require Import Spec.
From S2P Require Import SpecProps.
From S2P Require Import Abstraction.
From S2P Require Import Refinement.
From S2P Require Import Safety.

(** The snapshots installed, and the metadata of the chunks staged. *)
Definition applied (o : list Output) : list RaftSnapshot :=
  omap (fun x => match x with ApplySnapshot s => Some s | _ => None end) o.

Definition staged (o : list Output) : list RaftSnapshotMetadata :=
  omap (fun x => match x with StageSnapshotChunk chunk => Some (ssc_metadata chunk) | _ => None end) o.

Lemma applied_app o1 o2 : applied (o1 ++ o2) = applied o1 ++ applied o2.
Proof. apply omap_app. Qed.

Lemma staged_app o1 o2 : staged (o1 ++ o2) = staged o1 ++ staged o2.
Proof. apply omap_app. Qed.

Abbreviation boundary s := (last_included_index (metadata s)).

(** Boundaries that ascend strictly from above [lo] and end at or below [hi]. *)
Fixpoint ascends (lo : LogIndex) (l : list RaftSnapshot) (hi : LogIndex) : Prop :=
  match l with
  | [] => lo <= hi
  | s :: l => lo < boundary s /\ ascends (boundary s) l hi
  end.

Lemma ascends_le lo l hi : ascends lo l hi -> lo <= hi.
Proof. revert lo. induction l as [|s l IH]; simpl; [done|]. intros lo [? ?%IH]. lia. Qed.

Lemma ascends_weaken lo lo' l hi : lo' <= lo -> ascends lo l hi -> ascends lo' l hi.
Proof. destruct l; simpl; [lia|]. intros ? [? ?]. split; [lia|done]. Qed.

Lemma ascends_app lo l mid k hi : ascends lo l mid -> ascends mid k hi -> ascends lo (l ++ k) hi.
Proof.
  revert lo. induction l as [|s l IH]; simpl; intros lo; [by apply ascends_weaken|].
  intros [? ?] ?. split; [done|by apply IH].
Qed.

Record snapshot_flow (source : Term -> RaftSnapshotMetadata -> Prop) (s : Spec) (o : list Output)
    (s' : Spec) : Prop := {
  flow_term : s_term s <= s_term s';
  flow_ascends : ascends (s_commit s) (applied o) (s_commit s');
  flow_snapshot : s_snapshot s' = default (s_snapshot s) (Some <$> last (applied o));
  flow_staged : Forall (fun m => exists t, t <= s_term s' /\ source t m) (staged o);
  flow_applied : Forall (fun x => exists t, t <= s_term s' /\ source t (metadata x)) (applied o);
}.

Lemma flow_weaken (P Q : Term -> RaftSnapshotMetadata -> Prop) s o s' :
  (forall t m, P t m -> Q t m) -> snapshot_flow P s o s' -> snapshot_flow Q s o s'.
Proof.
  intros HPQ []. split; try done; eapply Forall_impl; try done; simpl;
    intros m (t & ? & ?); exists t; auto.
Qed.

Lemma flow_refl P s : snapshot_flow P s [] s.
Proof. split; simpl; first [done|lia|constructor]. Qed.

Lemma flow_trans P s1 o1 s2 o2 s3 :
  snapshot_flow P s1 o1 s2 -> snapshot_flow P s2 o2 s3 -> snapshot_flow P s1 (o1 ++ o2) s3.
Proof.
  intros [Ht1 Ha1 Hs1 Hst1 Hap1] [Ht2 Ha2 Hs2 Hst2 Hap2].
  split; rewrite ?applied_app, ?staged_app.
  - lia.
  - by eapply ascends_app.
  - rewrite Hs2, Hs1, last_app. by destruct (last (applied o2)).
  - apply Forall_app. split; [|done]. eapply Forall_impl; [exact Hst1|]. simpl.
    intros m (t & ? & ?). exists t. split; [lia|done].
  - apply Forall_app. split; [|done]. eapply Forall_impl; [exact Hap1|]. simpl.
    intros x (t & ? & ?). exists t. split; [lia|done].
Qed.

(** A transition that neither stages nor installs. *)
Lemma flow_plain P s o s' :
  s_term s <= s_term s' -> s_commit s <= s_commit s' -> s_snapshot s' = s_snapshot s ->
  applied o = [] -> staged o = [] -> snapshot_flow P s o s'.
Proof. intros Ht Hc Hs Ha Hst. split; rewrite ?Ha, ?Hst; simpl; first [done|constructor]. Qed.

Lemma permitted_applied op s o : Forall (permitted op s) o -> applied o = [].
Proof.
  induction 1 as [|x o Hx _ IH]; [done|].
  change (x :: o) with ([x] ++ o). rewrite applied_app, IH, app_nil_r.
  by destruct x as [| | | | | | | | | | | |? []].
Qed.

Lemma permitted_staged op s o :
  Forall (permitted op s) o -> Forall (fun m => exists t, t <= s_term s /\ installs op t m) (staged o).
Proof.
  induction 1 as [|x o Hx _ IH]; [constructor|].
  change (x :: o) with ([x] ++ o). rewrite staged_app. destruct x; try exact IH. constructor; [|exact IH]. exists (s_term s). split; [lia|exact Hx].
Qed.

Lemma dispatches_plain index e o : dispatches index e o -> applied o = [] /\ staged o = [].
Proof.
  unfold dispatches. destruct (entry_kind e).
  - by intros (? & ->).
  - by intros (? & ->).
  - by intros ->.
Qed.

Lemma rule_flow strict op s o s' :
  (forall x, op <> OpCompact x) -> rule strict op s o s' -> snapshot_flow (installs op) s o s'.
Proof.
  intros Hop Hr. destruct Hr; try (apply flow_plain; simpl; first [done|lia]).
  - split; rewrite ?(permitted_applied op s o) by done; simpl; try first [done|lia].
    by apply permitted_staged.
  - destruct (dispatches_plain _ _ _ H1). by apply flow_plain; simpl; first [done|lia].
  - split; simpl; [done|split; lia|done|constructor|].
    constructor; [|constructor]. exists (s_term s). split; [lia|done].
  - by destruct (Hop snapshot).
Qed.

Lemma run_flow strict op s o s' :
  (forall x, op <> OpCompact x) -> run strict op s o s' -> snapshot_flow (installs op) s o s'.
Proof.
  intros Hop. induction 1 as [|s1 o1 s2 o2 s3 Hr _ IH]; [apply flow_refl|].
  eapply flow_trans; [by eapply rule_flow|done].
Qed.
