(* ===== verification/Durability.v ===== *)
(** * What storage owes the cluster

    The obligations of a node to the others as an invariant of its durable
    image ([image_ok]), and that they survive partial writes: a log cut where
    it disagrees with a committed snapshot, replaced by that snapshot's prefix,
    or caught between two logs of the node. *)

From stdpp Require Import base list sorting numbers option sets.
From S2P Require Import Prelude.
From S2P Require Import Types.
From S2P Require Import Snapshot.
From S2P Require Import Message.
From S2P Require Import Membership.
From S2P Require Import Config.
From S2P Require Import NodeState.
From S2P Require Import Log.
From S2P Require Import View.
From S2P Require Import Bootstrap.
From S2P Require Import Spec.
From S2P Require Import SpecProps.
From S2P Require Import Abstraction.
From S2P Require Import RefineSnapshot.
From S2P Require Import Refinement.
From S2P Require Import KernelAudit.
From S2P Require Import Safety.
From S2P Require Import Reigns.
From S2P Require Import Consensus.
From S2P Require Import Recovery.
From S2P Require Import Stores.
From S2P Require Import Runtime.
From S2P Require Import SnapshotFlow.

(** ** Acknowledged entries under partial writes *)

Section retention.
Context (c : MembershipConfig) (G : History) (HG : history_ok c G).

(** A committed prefix and what the leader of [t] was acknowledged: one holds
    the other, or a leader has already missed the acknowledged entries. *)
Lemma committed_ack P ts R T t r j :
  committed c G P ts -> reigns G !! ts = Some R -> P `prefix_of` r_log R -> ts <= T ->
  reigns G !! t = Some r -> (j <= length (r_log r))%nat ->
  missed G t j T \/ take j (r_log r) `prefix_of` P \/ P `prefix_of` take j (r_log r).
Proof using HG.
  intros HP HR HPR HT Hr Hj.
  assert (missed G t j T \/ exists l, take j (r_log r) `prefix_of` l /\ P `prefix_of` l) as [|(l & H1 & H2)].
  { destruct (N.lt_trichotomy t ts) as [Hlt|[->|Hgt]].
    - destruct (decide (take j (r_log r) `prefix_of` r_start R)) as [Hy|Hn].
      + right. exists (r_log R). split; [|done]. etrans; [exact Hy|]. apply (history_reigns _ _ HG _ _ HR).
      + left. exists r, ts, R. split_and!; try done. all: lia.
    - rewrite HR in Hr. injection Hr as <-. right. exists (r_log R). split; [apply prefix_take|done].
    - right. exists (r_log r). split; [apply prefix_take|].
      apply (committed_in_reign c G HG P ts t r HP); [lia|done]. }
  - by left.
  - right. by apply (prefix_weak_total _ _ _ H1 H2).
Qed.

Context (P : list LogEntry) (ts : Term) (R : Reign) (T : Term).
Context (HP : committed c G P ts) (HR : reigns G !! ts = Some R) (HPR : P `prefix_of` r_log R).
Context (HT : ts <= T).

(** Replacing a log that does not hold a committed prefix by that prefix. *)
Lemma retained_replace L t k : ~ P `prefix_of` L -> retained G L t k T -> retained G P t k T.
Proof using HG HP HR HPR HT.
  intros Hno Hret j Hj. destruct (Hret j Hj) as [(r & Hr & Hjr & Hp)|]; [|by right].
  destruct (committed_ack P ts R T t r j) as [|[Hin|Hout]]; try done; [by right| |].
  - left. exists r. by split_and!.
  - destruct Hno. by etrans.
Qed.

(** Cutting such a log where it disagrees with the prefix at the latest. *)
Lemma retained_cutoff L m t k :
  ~ P `prefix_of` L -> (length P <= S m)%nat -> retained G L t k T -> retained G (take m L) t k T.
Proof using HG HP HR HPR HT.
  intros Hno Hm Hret j Hj. destruct (Hret j Hj) as [(r & Hr & Hjr & Hp)|]; [|by right].
  assert (length (take j (r_log r)) = j) as Hlen by (rewrite length_take; lia).
  destruct (decide (j <= m)%nat) as [Hle|Hgt].
  { left. exists r. split_and!; [done|done|]. pose proof (prefix_length _ _ Hp).
    eapply prefix_shorter; [exact Hp|apply prefix_take|]. rewrite Hlen, length_take. lia. }
  destruct (committed_ack P ts R T t r j) as [|[Hin|Hout]]; try done; [by right| |].
  - destruct Hno. pose proof (prefix_length _ _ Hin). rewrite <- (prefix_length_eq _ _ Hin) by lia. done.
  - destruct Hno. by etrans.
Qed.
End retention.

(** Between two logs that part after [q] entries, whatever extends the common
    part inside one of them keeps what both keep. *)
Lemma retained_between G L L' q M t k T :
  take q L = take q L' -> L !! q <> L' !! q ->
  take q L `prefix_of` M ->
  retained G L t k T -> retained G L' t k T -> retained G M t k T.
Proof.
  intros Hq Hne HM HL HL' j Hj. destruct (HL j Hj) as [(r & Hr & Hjr & Hp)|]; [|by right].
  destruct (HL' j Hj) as [(r' & Hr' & _ & Hp')|]; [|by right].
  rewrite Hr in Hr'. injection Hr' as <-. left. exists r. split_and!; [done|done|].
  assert (length (take j (r_log r)) = j) as Hlen by (rewrite length_take; lia).
  destruct (decide (j <= q)%nat) as [Hle|Hgt].
  - etrans; [|exact HM]. pose proof (prefix_length _ _ Hp).
    eapply prefix_shorter; [exact Hp|apply prefix_take|]. rewrite Hlen, length_take. lia.
  - destruct Hne. destruct (lookup_lt_is_Some_2 (take j (r_log r)) q) as [e He]; [lia|].
    by rewrite (prefix_lookup_Some _ _ _ _ He Hp), (prefix_lookup_Some _ _ _ _ He Hp').
Qed.

(** ** Histories without unreleased acknowledgements *)

(** The history [G'] with the acknowledgements of [G] only. *)
Definition forget (G' G : History) : History :=
  {| reigns := reigns G'; cast := cast G'; acked := acked G |}.

Section forget.
Context (c : MembershipConfig) (i : NodeId) (G G' : History) (Hgrow : grows i G G').

Lemma forget_grows : grows i G (forget G' G).
Proof using Hgrow. destruct Hgrow. split; simpl; auto. Qed.

Lemma grows_forget : grows i (forget G' G) G'.
Proof using Hgrow.
  destruct Hgrow. split; simpl; auto.
  - intros t r Hr. exists r. by split_and!.
  - intros t r Hr. left. by exists r.
Qed.

Lemma forget_ok : history_ok c G' -> history_ok c (forget G' G).
Proof using Hgrow.
  intros [Hr Hv Hu Ha]. pose proof (grows_acks _ _ _ Hgrow) as Hsub. split; simpl.
  - intros t r Ht. destruct (Hr t r Ht) as [? ? ? ? ? ? ? ? Hacks]. split; try done.
    intros v t0 k r0 j Hvr Hk. apply (Hacks v t0 k r0 j Hvr). by apply Hsub.
  - intros v Hvc. destruct (Hv v Hvc) as [? ? Hacks]. split; try done.
    intros t k Hk. apply (Hacks t k). by apply Hsub.
  - done.
  - intros v t k Hk. apply (Ha v t k). by apply Hsub.
Qed.
End forget.

(** ** Images *)

(** A snapshot that a leader of a term up to [T] sent, or this node took. *)
Definition snapshot_fit (c : MembershipConfig) (G : History) (T : Term) (m : RaftSnapshotMetadata)
  : Prop :=
  metadata_wf m /\
  (metadata_committed_membership m = None \/ metadata_committed_membership m = Some c) /\
  (last_included_index m = 0 \/ exists t, t <= T /\ snapshot_ok c G t m).

(** The log [F] and the snapshot meet: the log ends below its boundary, or
    holds the entry there. *)
Definition snapshot_meets (c : MembershipConfig) (G : History) (T : Term) (F : list LogEntry)
    (compacted : LogIndex) (snapshot : option RaftSnapshot) : Prop :=
  compacted <= boundary_of snapshot /\
  match snapshot with
  | None => True
  | Some s =>
      snapshot_fit c G T (metadata s) /\
      ((length F < N.to_nat (boundary s))%nat \/
       term_of F (N.to_nat (boundary s)) = Some (snapshot_base_term snapshot))
  end.

(** What the image of node [i], whose complete log is [F], owes the others. *)
Record image_ok (c : MembershipConfig) (G : History) (i : NodeId) (im : Image) (F : list LogEntry)
  : Prop := {
  img_compacted : (N.to_nat (im_compacted im) <= length F)%nat;
  img_log : im_log im = drop (N.to_nat (im_compacted im)) F;
  img_sourced : sourced G F;
  img_plain : configurations (drop (N.to_nat (boundary_of (im_snapshot im))) F) = [];
  img_wf : Forall entry_wf (drop (N.to_nat (boundary_of (im_snapshot im))) F);
  img_terms : Forall (fun e => entry_term e <= hs_current_term (im_hard im)) F;
  img_votes : forall v, v ∈ cast G -> v_voter v = i ->
    v_term v <= hs_current_term (im_hard im) /\
    (v_term v = hs_current_term (im_hard im) -> hs_voted_for (im_hard im) = Some (v_candidate v));
  img_voted : forall candidate, hs_voted_for (im_hard im) = Some candidate -> exists P,
    {| v_voter := i; v_term := hs_current_term (im_hard im); v_candidate := candidate; v_log := P |}
      ∈ cast G;
  img_acks : forall t k, (i, t, k) ∈ acked G ->
    t <= hs_current_term (im_hard im) /\ retained G F t k (hs_current_term (im_hard im));
  img_commit : (N.to_nat (hs_commit_index (im_hard im)) <= length F)%nat;
  img_committed :
    committed c G (take (N.to_nat (hs_commit_index (im_hard im))) F) (hs_current_term (im_hard im));
  img_snapshot : snapshot_meets c G (hs_current_term (im_hard im)) F (im_compacted im) (im_snapshot im);
  img_pending : from_option (fun p => snapshot_fit c G (hs_current_term (im_hard im)) (pst_metadata p))
    True (im_pending im);
}.

Section growth.
Context (c : MembershipConfig) (i : NodeId) (G G' : History) (Hgrow : grows i G G').

Lemma snapshot_fit_grows T m : snapshot_fit c G T m -> snapshot_fit c G' T m.
Proof using Hgrow.
  intros (Hw & Hm & Hs). split_and!; [done..|]. destruct Hs as [|(t & Ht & Hs)]; [by left|].
  right. exists t. split; [done|by eapply snapshot_ok_grows].
Qed.

Lemma snapshot_meets_grows T F k s : snapshot_meets c G T F k s -> snapshot_meets c G' T F k s.
Proof using Hgrow.
  intros [Hk Hs]. split; [done|]. destruct s as [s|]; [|done]. destruct Hs as [Hf Hor].
  split; [by apply snapshot_fit_grows|done].
Qed.

(** What other nodes do does not concern an image. *)
Lemma image_ok_others j im F : j <> i -> image_ok c G j im F -> image_ok c G' j im F.
Proof using Hgrow.
  intros Hne []. split; try done.
  - by eapply sourced_grows.
  - intros v Hv Hvj. apply img_votes0; [|done].
    destruct (grows_votes_new _ _ _ Hgrow v Hv); [done|congruence].
  - intros candidate Hc. destruct (img_voted0 candidate Hc) as (P & HP). exists P.
    by apply (grows_votes _ _ _ Hgrow).
  - intros t k Hin. destruct (grows_acks_new _ _ _ Hgrow _ _ _ Hin) as [Hold|]; [|congruence].
    destruct (img_acks0 t k Hold). split; [done|by eapply retained_grows].
  - by eapply committed_grows.
  - by apply snapshot_meets_grows.
  - destruct (im_pending im); simpl in *; [by apply snapshot_fit_grows|done].
Qed.
End growth.

(** ** Changes of an image *)

Lemma drop_boundary_mono (b b' : nat) (F : list LogEntry) :
  (b <= b')%nat -> configurations (drop b F) = [] -> Forall entry_wf (drop b F) ->
  configurations (drop b' F) = [] /\ Forall entry_wf (drop b' F).
Proof.
  intros Hb Hc Hw. replace b' with (b + (b' - b))%nat by lia. rewrite <- drop_drop.
  split; [by apply configurations_drop|by apply Forall_drop].
Qed.

Section changes.
Context (c : MembershipConfig) (G : History) (i : NodeId) (HG : history_ok c G).
Context (im : Image) (F : list LogEntry) (Hok : image_ok c G i im F).
Local Notation T := (hs_current_term (im_hard im)).

Lemma image_ok_pending p :
  from_option (fun p => snapshot_fit c G T (pst_metadata p)) True p ->
  image_ok c G i (im <| im_pending := p |>) F.
Proof using Hok. intros Hp. destruct Hok. by split. Qed.

(** A shorter log. *)
Lemma image_ok_cut m :
  im_compacted im <= N.of_nat m -> (N.to_nat (hs_commit_index (im_hard im)) <= m)%nat ->
  boundary_of (im_snapshot im) <= N.of_nat m \/ (length F <= m)%nat ->
  (forall t k, (i, t, k) ∈ acked G -> retained G (take m F) t k T) ->
  image_ok c G i (im <| im_log := drop (N.to_nat (im_compacted im)) (take m F) |>) (take m F).
Proof using Hok.
  intros Hcm Hcommit Hb Hret. destruct Hok. pose proof (length_take F m) as Hlen.
  assert (forall k, drop k (take m F) = take (m - k) (drop k F)) as Hdt by (intros; apply skipn_firstn_comm).
  split; simpl; try done.
  - lia.
  - by apply sourced_take.
  - rewrite Hdt. by apply configurations_take.
  - rewrite Hdt. by apply Forall_take.
  - by apply Forall_take.
  - intros t k Hin. destruct (img_acks0 t k Hin). auto.
  - lia.
  - rewrite take_take, Nat.min_l by lia. done.
  - destruct img_snapshot0 as [Hk Hs]. split; [done|]. destruct (im_snapshot im) as [s|]; [|done].
    destruct Hs as [Hfit Hor]. split; [done|]. simpl in Hb. destruct Hor as [Hlt|Ht]; [left; lia|].
    destruct Hb as [Hb|Hge].
    + right. rewrite term_of_take by lia. done.
    + right. by rewrite take_ge.
Qed.

(** A longer log. *)
Lemma image_ok_extend F' :
  F `prefix_of` F' -> sourced G F' -> Forall (fun e => entry_term e <= T) F' ->
  (forall s, im_snapshot im = Some s -> (N.to_nat (boundary s) <= length F)%nat) ->
  configurations (drop (N.to_nat (boundary_of (im_snapshot im))) F') = [] ->
  Forall entry_wf (drop (N.to_nat (boundary_of (im_snapshot im))) F') ->
  (forall t k, (i, t, k) ∈ acked G -> retained G F' t k T) ->
  image_ok c G i (im <| im_log := drop (N.to_nat (im_compacted im)) F' |>) F'.
Proof using Hok.
  intros Hp Hs Ht Hb Hc Hw Hret. pose proof (prefix_length _ _ Hp) as Hlen. destruct Hok. split; simpl; try done.
  - lia.
  - intros t k Hin. destruct (img_acks0 t k Hin). auto.
  - lia.
  - by rewrite <- (prefix_take_le _ _ _ Hp).
  - destruct img_snapshot0 as [Hk Hsn]. split; [done|]. destruct (im_snapshot im) as [s|]; [|done].
    destruct Hsn as [Hfit Hor]. split; [done|]. right. specialize (Hb s eq_refl).
    rewrite <- (term_of_prefix _ _ _ Hp) by done. destruct Hor; [lia|done].
Qed.

(** A new snapshot above the old one. *)
Lemma image_ok_snapshot s p :
  boundary_of (im_snapshot im) <= boundary s -> snapshot_fit c G T (metadata s) ->
  (length F < N.to_nat (boundary s))%nat \/
    term_of F (N.to_nat (boundary s)) = Some (snapshot_base_term (Some s)) ->
  from_option (fun p => snapshot_fit c G T (pst_metadata p)) True p ->
  image_ok c G i (im <| im_snapshot := Some s |> <| im_pending := p |>) F.
Proof using Hok.
  intros Hb Hfit Hor Hp. destruct Hok.
  destruct (drop_boundary_mono (N.to_nat (boundary_of (im_snapshot im))) (N.to_nat (boundary s)) F)
    as [? ?]; [lia|done|done|].
  split; try done. simpl. destruct img_snapshot0 as [Hk _]. split; [simpl; lia|done].
Qed.

(** Compaction through the snapshot, which replaces a log that ends below it. *)
Lemma image_ok_compact s :
  im_snapshot im = Some s ->
  exists F', image_ok c G i (im_compact (boundary s) im) F' /\
    (N.to_nat (boundary s) <= length F')%nat /\ im_compacted (im_compact (boundary s) im) = boundary s /\
    ((F' = F /\ (N.to_nat (boundary s) <= length F)%nat) \/
     (exists t r, t <= T /\ reigns G !! t = Some r /\ committed c G F' t /\
        F' = take (N.to_nat (boundary s)) (r_log r) /\ length F' = N.to_nat (boundary s))).
Proof using HG Hok.
  intros Hs. pose proof (img_snapshot _ _ _ _ _ Hok) as Hmeet. rewrite Hs in Hmeet.
  destruct Hmeet as [Hk [Hfit Hor]]. simpl in Hk. unfold im_compact.
  destruct (N.leb_spec (boundary s) (im_compacted im)) as [Hle|Hlt].
  { assert (im_compacted im = boundary s) as Heq by lia. exists F.
    pose proof (img_compacted _ _ _ _ _ Hok). split_and!; [done|lia|done|left; split; [done|lia]]. }
  destruct Hor as [Hshort|Hterm].
  - destruct Hfit as (Hmw & Hmem & [Hz|(ts & Hts & R & HR & HlenR & HtR & HcR)]); [lia|].
    set (P := take (N.to_nat (boundary s)) (r_log R)) in *.
    assert (length P = N.to_nat (boundary s)) as HlenP by (unfold P; rewrite length_take; lia).
    assert (~ P `prefix_of` F) as Hno by (intros ?%prefix_length; lia).
    exists P. split_and!; [|lia|done|right; exists ts, R; split_and!; try done; by unfold P].
    destruct Hok. rewrite Hs in *. split; simpl; try done.
    + lia.
    + rewrite !drop_ge; [done|lia|]. rewrite img_log0, length_drop. lia.
    + unfold P. apply sourced_take. apply (history_reigns _ _ HG _ _ HR).
    + by rewrite drop_ge by lia.
    + rewrite drop_ge by lia. constructor.
    + apply Forall_lookup. intros k e He. unfold P in He. apply lookup_take_Some in He as [He _].
      destruct (reign_entry c G HG ts R k e HR He). lia.
    + intros t k Hin. destruct (img_acks0 t k Hin). split; [done|].
      by eapply (retained_replace c G HG P ts R); [..|exact Hno|]; try done; apply prefix_take.
    + lia.
    + eapply committed_prefix; [apply prefix_take|]. by eapply committed_weaken.
    + split; [simpl; lia|]. split; [split_and!; [done..|]; right; exists ts; split; [done|]; by exists R|].
      right. simpl. unfold P. rewrite term_of_take by lia. case_cmp; [rewrite e; done|]. by apply HtR.
  - pose proof (term_of_length _ _ _ Hterm) as HlenF.
    exists F. split_and!; [|done|done|by left].
    destruct Hok. rewrite Hs in *. split; simpl; try done.
    + rewrite img_log0, drop_drop. f_equal. lia.
    + split; [simpl; lia|]. by split; [|right].
Qed.

(** New commit metadata. *)
Lemma image_ok_commit commit configuration :
  (N.to_nat commit <= length F)%nat -> committed c G (take (N.to_nat commit) F) T ->
  image_ok c G i
    (im <| im_hard := {| hs_current_term := T; hs_voted_for := hs_voted_for (im_hard im);
                         hs_commit_index := commit; hs_committed_configuration := configuration |} |>) F.
Proof using Hok. intros Hc Hcom. destruct Hok. by split. Qed.
End changes.
