(* ===== verification/Persistence.v ===== *)
(** * Live nodes and their stores

    Installing a staged snapshot over stores whose image is sound, whatever
    write fails; and what it means for stores to hold a live node
    ([linked]), whose image is then sound. *)

From stdpp Require Import base list sorting numbers option sets.
From S2P Require Import Prelude.
From S2P Require Import Types.
From S2P Require Import Snapshot.
From S2P Require Import Message.
From S2P Require Import Membership.
From S2P Require Import Config.
From S2P Require Import NodeState.
From S2P Require Import Log.
From S2P Require Import View.
From S2P Require Import SnapshotTransfer.
From S2P Require Import Bootstrap.
From S2P Require Import Spec.
From S2P Require Import SpecProps.
From S2P Require Import Abstraction.
From S2P Require Import RefineSnapshot.
From S2P Require Import Refinement.
From S2P Require Import KernelAudit.
From S2P Require Import Safety.
From S2P Require Import Reigns.
From S2P Require Import Consensus.
From S2P Require Import Recovery.
From S2P Require Import Stores.
From S2P Require Import Runtime.
From S2P Require Import SnapshotFlow.
From S2P Require Import Durability.

(** ** Stamped logs *)

Lemma find_stamp before l index :
  before < index ->
  find_first (fun e => ple_index e =? index) (stamp before l) =
  stamp before l !! N.to_nat (index - before - 1).
Proof.
  revert before. induction l as [|e l IH]; intros before Hlt; [done|].
  rewrite stamp_cons. simpl. destruct (N.eqb_spec (before + 1) index) as [<-|Hne].
  - by replace (N.to_nat _) with 0%nat by lia.
  - rewrite IH by lia. replace (N.to_nat (index - before - 1))
      with (S (N.to_nat (index - (before + 1) - 1))) by lia. done.
Qed.

Lemma stamp_lookup_eq before l k :
  stamp before l !! k =
  (fun e => {| ple_index := before + 1 + N.of_nat k; ple_term := entry_term e;
               ple_kind := entry_kind e |}) <$> l !! k.
Proof. unfold stamp. by rewrite list_lookup_imap. Qed.

Lemma stamp_from_stamp before l :
  before + length_u64 l + 1 < u64_modulus -> stamp_from (before + 1) l = stamp before l.
Proof.
  intros Hb. unfold stamp_from, stamp. apply list_eq. intros k. rewrite !list_lookup_imap.
  destruct (l !! k) as [e|] eqn:He; [|done]. simpl. f_equal.
  apply lookup_lt_Some in He. unfold length_u64 in Hb. rewrite u64_add_small by lia. done.
Qed.

(** The part of a stamped log above an index. *)
Lemma filter_stamp_all before l bound :
  bound <= before -> filter_bool (fun e => bound <? ple_index e) (stamp before l) = stamp before l.
Proof.
  revert before. induction l as [|e l IH]; intros before Hle; [done|].
  rewrite stamp_cons. simpl. destruct (N.ltb_spec bound (before + 1)); [|lia]. f_equal. apply IH. lia.
Qed.

Lemma filter_stamp before l bound :
  before <= bound ->
  filter_bool (fun e => bound <? ple_index e) (stamp before l) =
  stamp bound (drop (N.to_nat (bound - before)) l).
Proof.
  revert before. induction l as [|e l IH]; intros before Hle; [by rewrite drop_nil|].
  rewrite stamp_cons. simpl. destruct (N.ltb_spec bound (before + 1)) as [Hlt|Hge].
  - assert (before = bound) as -> by lia. rewrite N.sub_diag. simpl. rewrite stamp_cons.
    f_equal. apply filter_stamp_all. lia.
  - rewrite IH by lia. replace (N.to_nat (bound - before)) with (S (N.to_nat (bound - (before + 1)))) by lia.
    done.
Qed.

Section stores.
Context {D : Type} `{!RaftHardStateStore D, !RaftLogSegment D, !RaftSnapshotStore D}.
Context `{!StoreLaws D}.
Context (c : MembershipConfig) (i : NodeId).
Implicit Types (d : D) (G : History) (F L : list LogEntry).

Lemma image_hard d : hard_state_current d = im_hard (image d).
Proof. done. Qed.

Lemma image_compacted d : compacted_through d = im_compacted (image d).
Proof. done. Qed.

Lemma image_snapshot d : current_snapshot d = im_snapshot (image d).
Proof. done. Qed.

Lemma image_pending d : current_pending_snapshot_transfer d = im_pending (image d).
Proof. done. Qed.

#[local] Opaque image.

Lemma im_compact_rest through im :
  im_hard (im_compact through im) = im_hard im /\
  im_snapshot (im_compact through im) = im_snapshot im /\
  im_pending (im_compact through im) = im_pending im.
Proof. unfold im_compact. by destruct (_ <=? _). Qed.

(** Everything reopening can find satisfies [P]. *)
Definition leaves d (P : Image -> Prop) : Prop := forall d', reopens d d' -> healthy d' /\ P (image d').

Lemma healthy_leaves d P : healthy d -> P (image d) -> leaves d P.
Proof. intros Hd HP d' Hr. split; [by eapply reopen_healthy|]. by rewrite (reopen_same d d' Hd Hr). Qed.

(** ** Installing a staged snapshot *)

(** The entry at [index] of the log behind an image. *)
Lemma image_entry G im F index :
  image_ok c G i im F -> im_compacted im < index ->
  stamp (im_compacted im) (im_log im) !! N.to_nat (index - im_compacted im - 1) =
  (fun e => {| ple_index := index; ple_term := entry_term e; ple_kind := entry_kind e |})
    <$> F !! (N.to_nat index - 1)%nat.
Proof.
  intros Hok Hlt. rewrite stamp_lookup_eq, (img_log _ _ _ _ _ Hok), lookup_drop.
  replace (N.to_nat (im_compacted im) + _)%nat with (N.to_nat index - 1)%nat by lia.
  replace (im_compacted im + 1 + _) with index by lia. done.
Qed.

(** A log without the entry a committed snapshot ends with is cut before it. *)
Lemma image_ok_truncate G im F x e :
  history_ok c G -> image_ok c G i im F ->
  snapshot_fit c G (hs_current_term (im_hard im)) (metadata x) ->
  boundary_of (im_snapshot im) < boundary x -> hs_commit_index (im_hard im) < boundary x ->
  F !! (N.to_nat (boundary x) - 1)%nat = Some e -> entry_term e <> last_included_term (metadata x) ->
  image_ok c G i (im_truncate (boundary x) im) (take (N.to_nat (boundary x) - 1) F).
Proof using.
  intros HG Hok (_ & _ & Hfit) Hb Hcommit He Hne. set (b := boundary x) in *.
  destruct Hfit as [|(ts & Hts & R & HR & Hlen & Ht & Hc)]; [lia|]. specialize (Ht ltac:(lia)).
  fold b in Hlen, Ht, Hc.
  pose proof (img_snapshot _ _ _ _ _ Hok) as [Hk _]. pose proof (img_log _ _ _ _ _ Hok) as Hlog.
  set (m := (N.to_nat b - 1)%nat) in *.
  replace (im_truncate b im)
    with (im <| im_log := drop (N.to_nat (im_compacted im)) (take m F) |>).
  - apply image_ok_cut; [done|lia|lia|left; lia|].
    intros t k Hin. destruct (img_acks _ _ _ _ _ Hok t k Hin) as [_ Hret].
    eapply (retained_cutoff c G HG (take (N.to_nat b) (r_log R)) ts R);
      [exact Hc|exact HR|apply prefix_take|exact Hts| | |exact Hret].
    + intros Hp. apply Hne. replace (N.to_nat b) with (S m) in Ht by lia.
      apply term_of_lookup in Ht as (e' & He' & <-). f_equal.
      apply (prefix_lookup_Some _ _ m e') in Hp; [congruence|]. by rewrite lookup_take_lt by lia.
    + rewrite length_take. lia.
  - unfold im_truncate. do 2 f_equal. rewrite Hlog, skipn_firstn_comm. f_equal. lia.
Qed.

(** A log that holds the entry a snapshot ends with, or nothing there. *)
Definition agrees F x : Prop :=
  (length F < N.to_nat (boundary x))%nat \/
  term_of F (N.to_nat (boundary x)) = Some (snapshot_base_term (Some x)).

(** What installing the snapshot [x] over the log [F] makes of the log: it
    stays, or becomes the committed prefix the snapshot stands for. *)
Definition installed G (T : Term) F x F' : Prop :=
  (N.to_nat (boundary x) <= length F')%nat /\
  (F' = F \/ exists t r, t <= T /\ reigns G !! t = Some r /\ committed c G F' t /\
     F' = take (N.to_nat (boundary x)) (r_log r) /\ length F' = N.to_nat (boundary x)).

Lemma promote_compact_ok G d F x d' r :
  history_ok c G -> healthy d -> image_ok c G i (image d) F ->
  snapshot_fit c G (hs_current_term (im_hard (image d))) (metadata x) ->
  boundary_of (im_snapshot (image d)) < boundary x -> agrees F x ->
  and_then (mapping_err RtSnapshotWrite (promote_staged_snapshot d x))
    (fun d _ => mapping_err RtLogCompact (compact_prefix_through d (boundary x))) = (d', r) ->
  match r with
  | Ok _ => healthy d' /\
      image d' = im_compact (boundary x)
                   ((image d) <| im_snapshot := Some x |> <| im_pending := None |>) /\
      im_compacted (image d') = boundary x /\
      exists F', image_ok c G i (image d') F' /\
        installed G (hs_current_term (im_hard (image d))) F x F'
  | Err _ => leaves d' (fun im => exists F', image_ok c G i im F')
  end.
Proof using.
  intros HG Hd Hok Hfit Hb Hag.
  assert (boundary x < u64_modulus) as Hbu by (destruct Hfit as [[? _] _]; lia).
  destruct (promote_staged_snapshot d x) as [d1 r1] eqn:Hpr.
  pose proof (promote_staged_snapshot_law d x d1 r1 Hd Hpr) as Hlaw.
  pose proof (img_pending _ _ _ _ _ Hok) as Hpend.
  assert (forall p, p = im_pending (image d) \/ p = None ->
    image_ok c G i ((image d) <| im_snapshot := Some x |> <| im_pending := p |>) F) as Hsnap.
  { intros p Hp. apply image_ok_snapshot; [done|lia|done|exact Hag|]. by destruct Hp as [->| ->]. }
  destruct r1 as [[]|e1]; simpl.
  - destruct Hlaw as (Hd1 & _ & Him1).
    destruct (compact_prefix_through d1 (boundary x)) as [d2 r2] eqn:Hcp.
    pose proof (compact_prefix_through_law d1 _ d2 r2 Hd1 Hbu Hcp) as Hlaw2.
    pose proof (Hsnap None (or_intror eq_refl)) as Hok1.
    destruct (image_ok_compact c G i HG _ F Hok1 x) as (F' & HF' & HbF & Hck & Hor); [done|].
    rewrite Him1 in Hlaw2. intros [= <- <-]. destruct r2 as [[]|e2]; simpl.
    + destruct Hlaw2 as [Hd2 Him2]. rewrite Him2. split_and!; [done|done|exact Hck|].
      exists F'. split; [exact HF'|]. split; [done|]. destruct Hor as [[-> _]|Hor]; [by left|by right].
    + intros d'' Hr. destruct (Hlaw2 d'' Hr) as [Hd'' Hleft]. split; [exact Hd''|]. destruct Hleft as [->| ->]; [by exists F|by exists F'].
  - intros [= <- <-] d'' Hr. destruct (Hlaw d'' Hr) as [Hd'' Hleft]. split; [exact Hd''|]. destruct Hleft as (s & p & Hs & Hp & ->). exists F.
    destruct Hs as [->|[_ ->]]; [|by apply Hsnap].
    replace ((image d) <| im_snapshot := im_snapshot (image d) |> <| im_pending := p |>)
      with ((image d) <| im_pending := p |>) by done.
    apply image_ok_pending; [done|]. by destruct Hp as [->| ->].
Qed.

Lemma install_staged_ok G d F x d' r :
  history_ok c G -> healthy d -> image_ok c G i (image d) F ->
  snapshot_fit c G (hs_current_term (im_hard (image d))) (metadata x) ->
  boundary_of (im_snapshot (image d)) < boundary x ->
  install_staged_snapshot d x (hs_commit_index (im_hard (image d))) = (d', r) ->
  match r with
  | Ok _ => healthy d' /\ im_hard (image d') = im_hard (image d) /\
      im_snapshot (image d') = Some x /\ im_pending (image d') = None /\
      im_compacted (image d') = boundary x /\
      exists F', image_ok c G i (image d') F' /\
        installed G (hs_current_term (im_hard (image d))) F x F'
  | Err _ => leaves d' (fun im => exists F', image_ok c G i im F')
  end.
Proof using.
  intros HG Hd Hok Hfit Hb. unfold install_staged_snapshot. set (b := boundary x) in *.
  pose proof (img_snapshot _ _ _ _ _ Hok) as [Hk _].
  rewrite healthy_replay, find_stamp, (image_entry G _ F b Hok) by (done || lia).
  destruct (is_some_and _ _) eqn:Hstale.
  - destruct (F !! _) as [e|] eqn:He; [|done]. simpl in Hstale.
    apply negb_true_iff, N.eqb_neq in Hstale.
    destruct (N.leb_spec b (hs_commit_index (im_hard (image d)))) as [Hle|Hgt].
    { intros [= <- <-]. apply healthy_leaves; [done|by exists F]. }
    pose proof (image_ok_truncate G _ F x e HG Hok Hfit Hb Hgt He Hstale) as Hcut.
    destruct (truncate_suffix d b) as [d1 r1] eqn:Htr.
    pose proof (truncate_suffix_law d b d1 r1 Hd Htr) as Hlaw. destruct r1 as [[]|e1]; simpl.
    + destruct Hlaw as (Hd1 & _ & Him1). fold b in Hcut. rewrite <- Him1 in Hcut.
      assert (im_hard (image d1) = im_hard (image d) /\ im_snapshot (image d1) = im_snapshot (image d))
        as [Hh Hs] by (by rewrite Him1).
      intros Hrun. apply (promote_compact_ok G d1 (take (N.to_nat b - 1) F)) in Hrun; [|done|exact Hd1|exact Hcut|by rewrite Hh|by rewrite Hs|].
      * destruct r as [[]|]; [|exact Hrun]. destruct Hrun as (Hd' & Him' & Hck & F' & HF' & Hlen & Hor).
        rewrite <- Hh. epose proof (im_compact_rest (boundary x) _) as Hrest. rewrite <- Him' in Hrest.
        destruct Hrest as (? & ? & ?). split_and!; try done. exists F'. split; [done|split; [done|]].
        destruct Hor as [->|]; [|by right]. exfalso. rewrite length_take in Hlen. fold b in Hlen. lia.
      * left. rewrite length_take. fold b. lia.
    + intros [= <- <-] d'' Hr. destruct (Hlaw d'' Hr) as [Hd'' Hleft]. split; [exact Hd''|]. destruct Hleft as [->|[_ ->]]; eauto.
  - simpl. intros Hrun. apply (promote_compact_ok G d F) in Hrun; [|done|exact Hd|exact Hok|done|done|].
    + destruct r as [[]|]; [|exact Hrun]. destruct Hrun as (Hd' & Him' & Hck & HF').
      epose proof (im_compact_rest (boundary x) _) as Hrest. rewrite <- Him' in Hrest.
      destruct Hrest as (? & ? & ?). by split_and!.
    + unfold agrees. fold b. destruct (F !! _) as [e|] eqn:He; simpl in Hstale.
      * right. apply negb_false_iff, N.eqb_eq in Hstale. replace (N.to_nat b) with (S (N.to_nat b - 1)) by lia.
        apply term_of_lookup. exists e. split; [done|]. simpl. rewrite Hstale. destruct (N.eqb_spec (boundary x) 0); [lia|done].
      * left. apply lookup_ge_None in He. lia.
Qed.
End stores.

(** ** Stores of a live node *)

(** The stores hold the node: its term, vote, snapshot and complete log; the
    recorded commit index and the compacted prefix may lag behind. *)
Record linked (n : Node) (L : list LogEntry) (im : Image) : Prop := {
  linked_term : hs_current_term (im_hard im) = current_term (persistent n);
  linked_vote : hs_voted_for (im_hard im) = voted_for (persistent n);
  linked_commit : hs_commit_index (im_hard im) <= commit_index (volatile n);
  linked_compacted : im_compacted im <= snapshot_index n;
  linked_log : im_log im = drop (N.to_nat (im_compacted im)) L;
  linked_snapshot : im_snapshot im = snapshot (persistent n);
}.

Section live.
Context (c : MembershipConfig) (G : History) (i : NodeId) (n : Node) (L : list LogEntry).
Context (Hg : good false n) (Hok : node_ok c G i (abs n) L).

Lemma node_bounds :
  snapshot_index n <= commit_index (volatile n) /\
  (N.to_nat (commit_index (volatile n)) <= length L)%nat /\
  N.of_nat (length L) + 1 < u64_modulus.
Proof using Hg Hok.
  destruct Hg as [Hr Hinv]. pose proof (inv_base _ _ Hinv). pose proof (inv_applied _ _ Hinv).
  pose proof (inv_commit _ _ Hinv) as Hc. rewrite (layout_last _ _ (node_layout _ _ _ _ _ Hok)) in Hc.
  pose proof (layout_last _ _ (node_layout _ _ _ _ _ Hok)) as Hl. unfold s_last in Hl.
  pose proof (rep_capacity _ Hr). simpl in *. split_and!; lia.
Qed.

(** A committed prefix is part of a leader's log. *)
Lemma committed_snapshot (T : Term) (P : list LogEntry) (m : RaftSnapshotMetadata) :
  committed c G P T -> length P = N.to_nat (last_included_index m) -> P <> [] ->
  term_of P (length P) = Some (last_included_term m) ->
  exists t, t <= T /\ snapshot_ok c G t m.
Proof using.
  intros [->|(t & k & r & Ht & Hd & Hr & Hp)] Hlen Hne Hterm; [done|].
  exists t. split; [done|]. exists r. assert (P `prefix_of` r_log r) as Hpr by (etrans; [exact Hp|apply prefix_take]).
  pose proof (prefix_length _ _ Hpr) as Hle. rewrite <- Hlen. split_and!; [done|done| |].
  - intros _. by rewrite <- (term_of_prefix _ _ _ Hpr).
  - rewrite <- (prefix_take_le _ _ _ Hpr), take_ge by lia. right. exists t, k, r. by split_and!.
Qed.

Lemma node_snapshot s :
  snapshot (persistent n) = Some s ->
  snapshot_fit c G (current_term (persistent n)) (metadata s) /\
  term_of L (N.to_nat (boundary s)) = Some (snapshot_base_term (Some s)).
Proof using Hg Hok.
  intros Hs. assert (snapshot_index n = boundary s) as Hb by (unfold snapshot_index; by rewrite Hs).
  pose proof (layout_term _ _ (node_layout _ _ _ _ _ Hok)) as Ht. simpl in Ht. rewrite Hs, Hb in Ht.
  split; [|done]. destruct node_bounds as (Hbc & Hcl & Hcap). split_and!.
  - destruct Hg as [Hr Hinv]. pose proof (inv_base_wf _ _ Hinv) as Hw. simpl in Hw.
    unfold snapshot_committed_membership in Hw. rewrite Hs in Hw. split; [lia|done].
  - destruct (node_fixed _ _ _ _ _ Hok) as (_ & Hm & _). simpl in Hm.
    unfold snapshot_committed_membership in Hm. by rewrite Hs in Hm.
  - destruct (N.eqb_spec (boundary s) 0) as [|Hne]; [by left|]. right.
    assert (length (take (N.to_nat (boundary s)) L) = N.to_nat (boundary s)) as Hlen
      by (rewrite length_take; lia).
    apply (committed_snapshot _ (take (N.to_nat (boundary s)) L)); [|done| |].
    + eapply committed_prefix; [|apply (node_committed _ _ _ _ _ Hok)]. apply take_le_prefix. simpl. lia.
    + intros Hnil. rewrite Hnil in Hlen. simpl in Hlen. lia.
    + rewrite Hlen, term_of_take, Ht by lia. simpl. by rewrite (proj2 (N.eqb_neq _ _) Hne).
Qed.

(** What the kernel's accessors read of the complete log. *)
Lemma node_slice index :
  snapshot_index n < index -> log_entries_slice_from n index = drop (N.to_nat index - 1) L.
Proof using Hg Hok.
  intros Hi. destruct node_bounds as (_ & _ & Hcap). destruct Hg as [Hr _].
  destruct (node_layout _ _ _ _ _ Hok) as [Hb Hl _]. simpl in Hb, Hl.
  pose proof (layout_last _ _ (node_layout _ _ _ _ _ Hok)) as Hlast.
  unfold log_entries_slice_from. rewrite (last_log_index_abs n Hr), Hlast, (next_base n Hr).
  destruct (N.eqb_spec index 0); [lia|]. simpl.
  destruct (N.ltb_spec (N.of_nat (length L)) index) as [Hlt|Hle].
  - symmetry. apply drop_ge. lia.
  - rewrite N.max_l, Hl, drop_drop by lia. f_equal. unfold retained_log_offset.
    rewrite u64_sub_small by lia. lia.
Qed.

Lemma node_term_at index t :
  index < u64_modulus -> term_at n index = Some t ->
  snapshot_index n <= index /\ term_of L (N.to_nat index) = Some t.
Proof using Hg Hok.
  intros Hi. destruct Hg as [Hr _]. rewrite (term_at_abs n Hr) by done. unfold s_term_at. simpl.
  destruct (node_layout _ _ _ _ _ Hok) as [Hb Hl Ht]. simpl in Hb, Hl, Ht.
  destruct (N.eqb_spec index (snapshot_index n)) as [->|Hne].
  - intros [= <-]. split; [lia|done].
  - unfold s_entry. simpl. case_cmp; [done|]. rewrite Hl, lookup_drop. intros He. split; [lia|].
    replace (N.to_nat index) with (S (N.to_nat index - 1)) by lia. simpl. rewrite <- He. do 2 f_equal. lia.
Qed.

Lemma node_tail : of_node n = {| tail_index := N.of_nat (length L); tail_term := last_term L |}.
Proof using Hg Hok.
  destruct node_bounds as (_ & _ & Hcap). destruct Hg as [Hr _].
  pose proof (layout_last _ _ (node_layout _ _ _ _ _ Hok)) as Hlast.
  destruct (node_layout _ _ _ _ _ Hok) as [Hb Hl Ht]. simpl in Hb, Hl, Ht.
  unfold of_node. rewrite (last_log_index_abs n Hr), Hlast, (term_at_abs n Hr) by lia. f_equal.
  unfold s_term_at. simpl. unfold last_term.
  destruct (N.eqb_spec (N.of_nat (length L)) (snapshot_index n)) as [He|Hne].
  - rewrite <- He, Nat2N.id in Ht. by rewrite Ht.
  - unfold s_entry. simpl. case_cmp; [lia|]. rewrite Hl, lookup_drop.
    replace (length L) with (S (length L - 1)) at 2 by lia. simpl. do 3 f_equal. lia.
Qed.

(** The first entry of a persisted log that is not the kernel's. *)
Lemma node_divergence M (b : LogIndex) :
  snapshot_index n <= b ->
  match find_map (fun persisted =>
          match head (log_entries_slice_from n (ple_index persisted)) with
          | Some entry =>
              if (entry_term entry =? ple_term persisted)
                 && bool_decide (entry_kind entry = ple_kind persisted)
              then None else Some (ple_index persisted)
          | None => Some (ple_index persisted)
          end) (stamp b M) with
  | None => M `prefix_of` drop (N.to_nat b) L
  | Some index => exists q, index = b + 1 + N.of_nat q /\ (q < length M)%nat /\
      take q M `prefix_of` drop (N.to_nat b) L /\ M !! q <> drop (N.to_nat b) L !! q
  end.
Proof using Hg Hok.
  revert b. induction M as [|e M IH]; intros b Hb; [apply prefix_nil|].
  rewrite stamp_cons. cbn [find_map ple_index ple_term ple_kind].
  rewrite (node_slice (b + 1)) by lia. replace (N.to_nat (b + 1) - 1)%nat with (N.to_nat b) by lia.
  destruct (drop (N.to_nat b) L) as [|x rest] eqn:Hd; simpl.
  { exists 0%nat. split_and!; [lia|lia|apply prefix_nil|done]. }
  assert (drop (N.to_nat (b + 1)) L = rest) as Hrest.
  { replace (N.to_nat (b + 1)) with (N.to_nat b + 1)%nat by lia. by rewrite <- drop_drop, Hd. }
  destruct (N.eqb_spec (entry_term x) (entry_term e)) as [Ht|Ht]; simpl.
  2:{ exists 0%nat. split_and!; [lia|lia|apply prefix_nil|]. simpl. congruence. }
  case_bool_decide as Hk.
  2:{ exists 0%nat. split_and!; [lia|lia|apply prefix_nil|]. simpl. congruence. }
  assert (x = e) as -> by (destruct x, e; simpl in *; congruence).
  specialize (IH (b + 1) ltac:(lia)). rewrite Hrest in IH. destruct (find_map _ _) as [index|].
  - destruct IH as (q & -> & Hq & Hp & Hne). exists (S q). split_and!; [lia|simpl; lia| |done].
    simpl. by apply prefix_cons.
  - by apply prefix_cons.
Qed.

(** The image of a live node owes what the node owes. *)
Lemma linked_image im :
  linked n L im ->
  from_option (fun p => snapshot_fit c G (current_term (persistent n)) (pst_metadata p)) True
    (im_pending im) ->
  image_ok c G i im L.
Proof using Hg Hok.
  intros [Ht Hv Hc Hk Hl Hs] Hp. destruct node_bounds as (Hbc & Hcl & Hcap).
  assert (boundary_of (im_snapshot im) = snapshot_index n) as Hb by (by rewrite Hs).
  pose proof (node_layout _ _ _ _ _ Hok) as [Hlb Hll Hlt]. simpl in Hlb, Hll.
  destruct (node_fixed _ _ _ _ _ Hok) as (_ & _ & Hcf). simpl in Hcf.
  split; rewrite ?Hb, ?Ht, ?Hv.
  - lia.
  - done.
  - apply Hok.
  - by rewrite <- Hll.
  - rewrite <- Hll. apply (inv_log_wf _ _ (node_inv _ _ _ _ _ Hok)).
  - apply Hok.
  - apply Hok.
  - apply Hok.
  - apply Hok.
  - lia.
  - eapply committed_prefix; [|apply (node_committed _ _ _ _ _ Hok)]. apply take_le_prefix. simpl. lia.
  - split; [lia|]. rewrite Hs. destruct (snapshot (persistent n)) as [s|] eqn:Es; [|done].
    destruct (node_snapshot s Es). split; [done|by right].
  - done.
Qed.
End live.
