(* ===== verification/Fence.v ===== *)
(** * The persist-before-output fence

    A runtime is sound ([live_ok]) when its stores hold its kernel. A step that
    succeeds leaves a sound runtime; whatever a step that fails leaves on the
    medium still honours what the node owes the others, and none of the step's
    outputs were released. *)

From stdpp Require Import base list sorting numbers option sets.
From S2P Require Import Prelude.
From S2P Require Import Types.
From S2P Require Import Snapshot.
From S2P Require Import Message.
From S2P Require Import Membership.
From S2P Require Import Config.
From S2P Require Import NodeState.
From S2P Require Import Log.
From S2P Require Import View.
From S2P Require Import SnapshotTransfer.
From S2P Require Import Spec.
From S2P Require Import SpecProps.
From S2P Require Import Abstraction.
From S2P Require Import RefineSnapshot.
From S2P Require Import Refinement.
From S2P Require Import Safety.
From S2P Require Import Reigns.
From S2P Require Import Consensus.
From S2P Require Import Stores.
From S2P Require Import Runtime.
From S2P Require Import SnapshotFlow.
From S2P Require Import Durability.
From S2P Require Import Persistence.

#[local] Opaque image.

Lemma snapshot_fit_weaken c G T T' m : T <= T' -> snapshot_fit c G T m -> snapshot_fit c G T' m.
Proof.
  intros HT (Hw & Hm & Hs). split_and!; [done..|]. destruct Hs as [|(t & ? & ?)]; [by left|].
  right. exists t. split; [lia|done].
Qed.

Lemma retained_mono G L M t k T : L `prefix_of` M -> retained G L t k T -> retained G M t k T.
Proof.
  intros Hp H j Hj. destruct (H j Hj) as [(r & ? & ? & ?)|]; [left|by right].
  exists r. split_and!; [done|done|by etrans].
Qed.

(** ** A step of the kernel, seen from storage *)

Record stepped (c : MembershipConfig) (i : NodeId) (G : History) (n : Node) (L : list LogEntry)
    (o : list Output) (G' : History) (n' : Node) (L' : list LogEntry) : Prop := {
  st_history : history_ok c G;
  st_good : good false n;
  st_ok : node_ok c G i (abs n) L;
  st_history' : history_ok c G';
  st_good' : good false n';
  st_ok' : node_ok c G' i (abs n') L';
  st_grows : grows i G G';
  st_term : current_term (persistent n) <= current_term (persistent n');
  st_ascends : ascends (commit_index (volatile n)) (applied o) (commit_index (volatile n'));
  st_snapshot : snapshot (persistent n') =
    default (snapshot (persistent n)) (Some <$> last (applied o));
  st_staged : Forall (snapshot_fit c G (current_term (persistent n'))) (staged o);
  st_applied : Forall (fun x => snapshot_fit c G (current_term (persistent n')) (metadata x)) (applied o);
}.

Section stepped.
Context (c : MembershipConfig) (i : NodeId) (G : History) (n : Node) (L : list LogEntry).
Context (o : list Output) (G' : History) (n' : Node) (L' : list LogEntry).
Context (Hst : stepped c i G n L o G' n' L').

(** The history of the step without the acknowledgements it has not released. *)
#[local] Abbreviation H := (forget G' G).
#[local] Abbreviation T' := (current_term (persistent n')).

Lemma fence_history : history_ok c H.
Proof using Hst. destruct Hst. by apply (forget_ok c i). Qed.

Lemma fence_grows : grows i G H.
Proof using Hst. destruct Hst. by apply forget_grows. Qed.

Lemma fence_release : grows i H G'.
Proof using Hst. destruct Hst. by apply (grows_forget i). Qed.

(** A committed prefix within the commit index is in the log. *)
Lemma committed_below P T :
  committed c G' P T -> (length P <= N.to_nat (commit_index (volatile n')))%nat -> P `prefix_of` L'.
Proof using Hst.
  intros HP Hlen. destruct Hst. destruct (node_bounds c G' i n' L') as (_ & Hcl & _); [done..|].
  destruct (committed_comparable c G' st_history'0 _ _ _ _ HP (node_committed _ _ _ _ _ st_ok'0)) as [Hp|Hp].
  - etrans; [exact Hp|apply prefix_take].
  - simpl in Hp. apply prefix_length_eq in Hp as <-; [apply prefix_take|].
    rewrite length_take. lia.
Qed.

Lemma commit_kept :
  take (N.to_nat (commit_index (volatile n))) L `prefix_of` L'.
Proof using Hst.
  pose proof (ascends_le _ _ _ (st_ascends _ _ _ _ _ _ _ _ _ Hst)) as Hle.
  apply (committed_below _ (current_term (persistent n))).
  - eapply committed_grows; [apply (st_grows _ _ _ _ _ _ _ _ _ Hst)|].
    apply (node_committed _ _ _ _ _ (st_ok _ _ _ _ _ _ _ _ _ Hst)).
  - rewrite length_take. lia.
Qed.

(** What the node owed before the step, after the step. *)
Lemma retained_old t k : (i, t, k) ∈ acked G -> t <= T' /\ retained H L t k T'.
Proof using Hst.
  intros Hin. destruct (node_acks _ _ _ _ _ (st_ok _ _ _ _ _ _ _ _ _ Hst) t k Hin) as [Ht Hret].
  pose proof (st_term _ _ _ _ _ _ _ _ _ Hst). simpl in *. split; [lia|].
  eapply retained_weaken; [done|]. eapply retained_grows; [apply fence_grows|done].
Qed.

Lemma retained_new t k : (i, t, k) ∈ acked G -> retained H L' t k T'.
Proof using Hst.
  intros Hin. apply (grows_acks _ _ _ (st_grows _ _ _ _ _ _ _ _ _ Hst)) in Hin.
  apply (node_acks _ _ _ _ _ (st_ok' _ _ _ _ _ _ _ _ _ Hst) t k Hin).
Qed.

(** The stores behind the first fence: the new term and vote over the old log. *)
Lemma fenced_image im configuration :
  linked n L im ->
  from_option (fun p => snapshot_fit c G (current_term (persistent n)) (pst_metadata p)) True
    (im_pending im) ->
  image_ok c H i
    (im <| im_hard := {| hs_current_term := T'; hs_voted_for := voted_for (persistent n');
                         hs_commit_index := hs_commit_index (im_hard im);
                         hs_committed_configuration := configuration |} |>) L.
Proof using Hst.
  intros Hl Hp. pose proof (st_term _ _ _ _ _ _ _ _ _ Hst) as HT.
  pose proof fence_grows as Hgr. pose proof retained_old as Hret.
  destruct (linked_image c G i n L (st_good _ _ _ _ _ _ _ _ _ Hst) (st_ok _ _ _ _ _ _ _ _ _ Hst) im Hl Hp).
  pose proof (linked_term _ _ _ Hl) as Hterm. rewrite Hterm in *.
  pose proof (st_ok' _ _ _ _ _ _ _ _ _ Hst) as Hok'.
  split; simpl; try done.
  - by eapply sourced_grows.
  - eapply Forall_impl; [exact img_terms|]. simpl. lia.
  - apply Hok'.
  - apply Hok'.
  - by eapply committed_weaken, committed_grows.
  - apply (snapshot_meets_grows c i G H Hgr). destruct img_snapshot as [Hk Hs]. split; [done|].
    destruct (im_snapshot im); [|done]. destruct Hs. split; [by eapply snapshot_fit_weaken|done].
  - destruct (im_pending im); [|done]. simpl in *. eapply snapshot_fit_grows; [exact Hgr|].
    by eapply snapshot_fit_weaken.
Qed.

(** A log that reaches the boundary of its snapshot agrees with the new log there. *)
Lemma snapshot_common im F x :
  image_ok c H i im F -> im_snapshot im = Some x -> boundary x <= commit_index (volatile n') ->
  (N.to_nat (boundary x) <= length F)%nat ->
  take (N.to_nat (boundary x)) F `prefix_of` L'.
Proof using Hst.
  intros Him Hx Hb HbF. destruct (img_snapshot _ _ _ _ _ Him) as [_ Hs]. rewrite Hx in Hs.
  destruct Hs as ((_ & _ & Hfit) & [Hlt|Hterm]); [lia|].
  destruct (N.eqb_spec (boundary x) 0) as [->|Hne]; [apply prefix_nil|].
  destruct Hfit as [|(ts & Hts & R & HR & HlenR & HtR & HcR)]; [done|]. specialize (HtR Hne).
  simpl in Hterm. rewrite (proj2 (N.eqb_neq _ _) Hne) in Hterm.
  assert (take (N.to_nat (boundary x)) F = take (N.to_nat (boundary x)) (r_log R)) as Heq.
  { eapply (log_matching H); [apply Him| |exact Hterm|exact HtR].
    apply (history_reigns _ _ fence_history _ _ HR). }
  apply (committed_below _ ts).
  - rewrite Heq. eapply committed_grows; [apply fence_release|exact HcR].
  - rewrite length_take. lia.
Qed.

(** ** The log between the fences *)

(** The stores while the step is being written: the hard state of the first
    fence, and a log that is the old one or a part of the new one. *)
Record between (im : Image) (F : list LogEntry) : Prop := {
  bt_image : image_ok c H i im F;
  bt_term : hs_current_term (im_hard im) = T';
  bt_vote : hs_voted_for (im_hard im) = voted_for (persistent n');
  bt_commit : hs_commit_index (im_hard im) <= commit_index (volatile n);
  bt_log : F = L \/ F `prefix_of` L';
  bt_inside : (N.to_nat (boundary_of (im_snapshot im)) <= length F)%nat;
  bt_common : take (N.to_nat (boundary_of (im_snapshot im))) F `prefix_of` L';
}.

Lemma between_fenced im configuration :
  linked n L im ->
  from_option (fun p => snapshot_fit c G (current_term (persistent n)) (pst_metadata p)) True
    (im_pending im) ->
  between
    (im <| im_hard := {| hs_current_term := T'; hs_voted_for := voted_for (persistent n');
                         hs_commit_index := hs_commit_index (im_hard im);
                         hs_committed_configuration := configuration |} |>) L.
Proof using Hst.
  intros Hl Hp. pose proof (fenced_image im configuration Hl Hp) as Him.
  destruct (node_bounds c G i n L (st_good _ _ _ _ _ _ _ _ _ Hst) (st_ok _ _ _ _ _ _ _ _ _ Hst))
    as (Hbc & Hcl & _).
  assert (boundary_of (im_snapshot im) = snapshot_index n) as Hb by (by rewrite (linked_snapshot _ _ _ Hl)).
  split; simpl; rewrite ?Hb; try done.
  - apply (linked_commit _ _ _ Hl).
  - by left.
  - lia.
  - etrans; [|exact commit_kept]. apply take_le_prefix. lia.
Qed.

Lemma between_pending im F p :
  between im F ->
  from_option (fun p => snapshot_fit c G T' (pst_metadata p)) True p ->
  between (im <| im_pending := p |>) F.
Proof using Hst.
  intros [Him HT Hv Hc Hl Hi Hco] Hp. split; simpl; try done. apply image_ok_pending; [done|].
  destruct p as [p|]; [|done]. simpl in *. rewrite HT. by eapply snapshot_fit_grows; [apply fence_grows|].
Qed.

(** A prefix of the new log in front of the old one survives a cut. *)
Lemma between_cut im F index q :
  between im F -> snapshot_index n' = boundary_of (im_snapshot im) ->
  index = snapshot_index n' + 1 + N.of_nat q ->
  let b := N.to_nat (snapshot_index n') in
  (q < length (drop b F))%nat -> take q (drop b F) `prefix_of` drop b L' ->
  drop b F !! q <> drop b L' !! q ->
  commit_index (volatile n) < index /\
  exists F', F' `prefix_of` L' /\ between (im_truncate index im) F'.
Proof using Hst.
  intros [Him HT Hv Hc Hl Hi Hco] Hb Hindex b Hq Hp Hne. rewrite <- Hb in Hi, Hco. fold b in Hi, Hco.
  rewrite length_drop in Hq. set (m := (b + q)%nat).
  assert (take m F `prefix_of` L') as Hm.
  { destruct Hco as [k Hk]. destruct Hp as [k' Hk']. exists k'.
    rewrite <- (take_drop b L'), Hk', app_assoc. f_equal. unfold m.
    rewrite <- take_take_drop. f_equal. rewrite Hk, take_app_length'; [done|].
    rewrite length_take. lia. }
  assert (F !! m <> L' !! m) as Hne' by (by rewrite !lookup_drop in Hne).
  assert (F = L) as ->.
  { destruct Hl as [|Hl]; [done|]. destruct Hne'.
    destruct (lookup_lt_is_Some_2 F m) as [e He]; [lia|]. by rewrite He, (prefix_lookup_Some _ _ _ _ He Hl). }
  assert (commit_index (volatile n) < index) as Hcm.
  { destruct (N.lt_ge_cases (commit_index (volatile n)) index) as [|Hge]; [done|]. destruct Hne'.
    destruct (lookup_lt_is_Some_2 L m) as [e He]; [lia|]. rewrite He. symmetry.
    eapply prefix_lookup_Some; [|exact commit_kept]. rewrite lookup_take_lt; [done|lia]. }
  assert (m <= length L')%nat as HmL by (apply prefix_length in Hm; rewrite length_take in Hm; lia).
  split; [done|]. exists (take m L). split; [done|].
  pose proof (img_snapshot _ _ _ _ _ Him) as [Hk _].
  assert (image_ok c H i (im_truncate index im) (take m L)) as Hcut.
  { replace (im_truncate index im)
      with (im <| im_log := drop (N.to_nat (im_compacted im)) (take m L) |>).
    - apply image_ok_cut; [done|lia|lia|left; lia|]. rewrite HT. intros t k Hin.
      apply (retained_between H L L' m); [|done|done|by apply retained_old|by apply retained_new].
      destruct Hm as [k' Hk']. rewrite Hk', take_app_length'; [done|rewrite length_take; lia].
    - unfold im_truncate. do 2 f_equal. rewrite (img_log _ _ _ _ _ Him), skipn_firstn_comm. f_equal. lia. }
  split; simpl; try done.
  - by right.
  - rewrite length_take. rewrite <- Hb. lia.
  - etrans; [apply prefix_take|done].
Qed.

(** Any part of the new log that extends what is stored may be appended. *)
Lemma between_extend im F M :
  between im F -> snapshot_index n' = boundary_of (im_snapshot im) ->
  F `prefix_of` M -> M `prefix_of` L' ->
  between (im <| im_log := drop (N.to_nat (im_compacted im)) M |>) M.
Proof using Hst.
  intros [Him HT Hv Hc Hl Hi Hco] Hb HF HM. pose proof (prefix_length _ _ HF) as Hlen.
  pose proof (st_ok' _ _ _ _ _ _ _ _ _ Hst) as Hok'.
  destruct (node_layout _ _ _ _ _ Hok') as [_ Hlog _]. simpl in Hlog.
  assert (drop (N.to_nat (snapshot_index n')) M `prefix_of` log (persistent n')) as Hd.
  { rewrite Hlog. destruct HM as [k ->]. rewrite drop_app_le by lia. by exists (k). }
  assert (drop (N.to_nat (snapshot_index n')) M =
    take (length (drop (N.to_nat (snapshot_index n')) M)) (log (persistent n'))) as Htake.
  { destruct Hd as [k ->]. by rewrite take_app_length. }
  split; simpl; try done.
  - apply (image_ok_extend c H i im F Him); rewrite <- ?Hb; try done.
    + eapply sourced_prefix; [exact HM|apply Hok'].
    + rewrite HT. destruct HM as [k Hk]. pose proof (node_terms _ _ _ _ _ Hok') as Ht.
      rewrite Hk in Ht. by apply Forall_app in Ht as [? _].
    + intros s Hs. by rewrite Hs in Hi.
    + rewrite Htake. apply configurations_take. apply (node_fixed _ _ _ _ _ Hok').
    + rewrite Htake. apply Forall_take. apply (inv_log_wf _ _ (node_inv _ _ _ _ _ Hok')).
    + intros t k Hin. eapply retained_mono; [exact HF|].
      apply (img_acks _ _ _ _ _ Him t k). exact Hin.
  - by right.
  - lia.
  - etrans; [apply prefix_take|done].
Qed.

Lemma between_installed im im' F x F' :
  between im F -> image_ok c H i im' F' -> im_hard im' = im_hard im -> im_snapshot im' = Some x ->
  boundary x <= commit_index (volatile n') -> installed c H (hs_current_term (im_hard im)) F x F' ->
  between im' F'.
Proof using Hst.
  intros [Him HT Hv Hc Hl Hi Hco] Him' Hh Hx Hb [Hlen Hor].
  assert (take (N.to_nat (boundary x)) F' `prefix_of` L') as Hcommon by (by eapply snapshot_common).
  split; rewrite ?Hh, ?Hx; try done. destruct Hor as [->|(_ & _ & _ & _ & _ & _ & Heq)]; [done|].
  right. by rewrite take_ge in Hcommon by lia.
Qed.
End stepped.

Section fence.
Context {D : Type} `{!RaftHardStateStore D, !RaftLogSegment D, !RaftSnapshotStore D}.
Context `{!SnapshotChunkSource D, !StoreLaws D}.
Context (c : MembershipConfig) (i : NodeId) (G : History) (n : Node) (L : list LogEntry).
Context (o : list Output) (G' : History) (n' : Node) (L' : list LogEntry).
Context (Hst : stepped c i G n L o G' n' L').
#[local] Abbreviation H := (forget G' G).
#[local] Abbreviation T' := (current_term (persistent n')).
Local Notation between := (between c i G n L G' n' L').

(** What a failed step may leave on the medium. *)
Definition salvageable (im : Image) : Prop :=
  exists G1 F, grows i G G1 /\ history_ok c G1 /\ image_ok c G1 i im F.

Lemma salvage_fenced im F : image_ok c H i im F -> salvageable im.
Proof using Hst.
  intros Him. exists H, F. split_and!; [by eapply fence_grows|by eapply fence_history|done].
Qed.

Lemma stage_chunk_ok d F chunk d' r :
  healthy d -> between (image d) F -> snapshot_fit c G T' (ssc_metadata chunk) ->
  stage_snapshot_chunk d chunk = (d', r) ->
  match r with
  | Ok _ => healthy d' /\ between (image d') F /\
      im_hard (image d') = im_hard (image d) /\ im_snapshot (image d') = im_snapshot (image d)
  | Err _ => leaves d' salvageable
  end.
Proof using Hst.
  intros Hd Hbt Hfit Hrun. pose proof (stage_snapshot_chunk_law d chunk d' r Hd Hrun) as Hlaw.
  destruct r as [[]|e].
  - destruct Hlaw as (Hd' & v & _ & ->). split_and!; [done| |done|done]. by eapply between_pending.
  - intros d'' Hr. destruct (Hlaw d'' Hr) as [Hd'' Hleft]. split; [exact Hd''|]. destruct Hleft as (p & Hp & ->). apply (salvage_fenced _ F).
    destruct Hp as [->|Hp].
    + replace ((image d) <| im_pending := im_pending (image d) |>) with (image d)
        by (by destruct (image d)). apply Hbt.
    + eapply bt_image, (between_pending _ _ _ _ _ _ _ _ _ Hst); [exact Hbt|].
      destruct Hp as [->|(v & _ & ->)]; done.
Qed.

Lemma install_output_ok d F x d' r :
  healthy d -> between (image d) F -> snapshot_fit c G T' (metadata x) ->
  boundary_of (im_snapshot (image d)) < boundary x -> boundary x <= commit_index (volatile n') ->
  install_staged_snapshot d x (hs_commit_index (im_hard (image d))) = (d', r) ->
  match r with
  | Ok _ => healthy d' /\ im_hard (image d') = im_hard (image d) /\
      im_snapshot (image d') = Some x /\ exists F', between (image d') F'
  | Err _ => leaves d' salvageable
  end.
Proof using Hst.
  intros Hd Hbt Hfit Hlo Hhi Hrun.
  apply (install_staged_ok c i H d F) in Hrun; [|by eapply fence_history|done|apply Hbt| |done].
  - destruct r as [[]|e].
    + destruct Hrun as (Hd' & Hh & Hs & _ & _ & F' & Him' & Hins). split_and!; [done..|].
      exists F'. by eapply between_installed.
    + intros d'' Hr. destruct (Hrun d'' Hr) as [Hd'' Hleft]. split; [exact Hd''|]. destruct Hleft as (F' & ?). by eapply salvage_fenced.
  - rewrite (bt_term _ _ _ _ _ _ _ _ _ _ Hbt). by eapply snapshot_fit_grows; [by eapply fence_grows|].
Qed.

Lemma snapshot_outputs_ok os : forall d F lo d' r,
  healthy d -> between (image d) F ->
  boundary_of (im_snapshot (image d)) <= lo ->
  ascends lo (applied os) (commit_index (volatile n')) ->
  Forall (snapshot_fit c G T') (staged os) ->
  Forall (fun x => snapshot_fit c G T' (metadata x)) (applied os) ->
  persist_snapshot_outputs_for_step d os = (d', r) ->
  match r with
  | Ok _ => healthy d' /\ im_hard (image d') = im_hard (image d) /\
      im_snapshot (image d') = default (im_snapshot (image d)) (Some <$> last (applied os)) /\
      exists F', between (image d') F'
  | Err _ => leaves d' salvageable
  end.
Proof using Hst.
  induction os as [|x os IH]; intros d F lo d' r Hd Hbt Hlo Hasc Hsf Haf.
  { intros [= <- <-]. split_and!; [done..|by exists F]. }
  change (x :: os) with ([x] ++ os) in Hasc, Hsf, Haf |- *.
  rewrite applied_app in *. rewrite staged_app in Hsf.
  apply Forall_app in Hsf as [Hs1 Hsf], Haf as [Ha1 Haf].
  destruct x as [| | | |x| |chunk| | | | | |]; cbn [persist_snapshot_outputs_for_step app and_then];
    try (intros Hrun; eapply IH in Hrun; [exact Hrun|done..]).
  - rewrite image_hard. destruct Hasc as [Hlt Hasc]. apply Forall_inv in Ha1.
    destruct (install_staged_snapshot d x _) as [d1 r1] eqn:Hrun1.
    pose proof (ascends_le _ _ _ Hasc) as Hhi.
    apply (install_output_ok d F) in Hrun1; [|done|done|done|lia|done].
    destruct r1 as [[]|e1]; cbn [and_then]; [|by intros [= <- <-]].
    destruct Hrun1 as (Hd1 & Hh1 & Hs1' & F1 & Hbt1). intros Hrun.
    eapply IH in Hrun; [|done|exact Hbt1| |exact Hasc|done|done]; [|by rewrite Hs1'].
    destruct r as [[]|e]; [|done]. destruct Hrun as (Hd' & Hh' & Hs' & HF').
    rewrite Hh', Hh1, Hs', Hs1'. split_and!; [done|done| |done].
    change (applied [ApplySnapshot x]) with [x]. rewrite last_app. by destruct (last (applied os)).
  - apply Forall_inv in Hs1. destruct (stage_snapshot_chunk d chunk) as [d1 r1] eqn:Hrun1.
    apply (stage_chunk_ok d F) in Hrun1; [|done..]. unfold mapping_err.
    destruct r1 as [[]|e1]; cbn [and_then map_err]; [|by intros [= <- <-]].
    destruct Hrun1 as (Hd1 & Hbt1 & Hh1 & Hs1'). rewrite <- Hh1, <- Hs1'. intros Hrun.
    eapply IH in Hrun; [exact Hrun|done|exact Hbt1| |exact Hasc|done|done]. by rewrite Hs1'.
Qed.

Lemma clear_staging_ok d F d' r :
  healthy d -> between (image d) F ->
  clear_abandoned_snapshot_staging_for_step d n' = (d', r) ->
  match r with
  | Ok _ => healthy d' /\ between (image d') F /\ im_hard (image d') = im_hard (image d) /\
      im_snapshot (image d') = im_snapshot (image d)
  | Err _ => leaves d' salvageable
  end.
Proof using Hst.
  intros Hd Hbt. unfold clear_abandoned_snapshot_staging_for_step.
  destruct (_ && _); [|by intros [= <- <-]].
  destruct (clear_pending_snapshot_transfer d) as [d1 r1] eqn:Hrun.
  pose proof (clear_pending_law d d1 r1 Hd Hrun) as Hlaw. cbn [mapping_err]. intros [= <- <-].
  assert (between ((image d) <| im_pending := None |>) F) as Hbt1 by (by eapply between_pending).
  destruct r1 as [[]|e1]; cbn [map_err].
  - destruct Hlaw as [Hd1 ->]. by split_and!.
  - intros d'' Hr. destruct (Hlaw d'' Hr) as [Hd'' Hleft]. split; [exact Hd''|]. destruct Hleft as [->| ->]; by eapply salvage_fenced, bt_image.
Qed.

(** The tail recorded for the log of the node before the step. *)
Definition tail_ok (L : list LogEntry) (tail : option PersistedTail) : Prop :=
  forall t, tail = Some t -> tail_index t = N.of_nat (length L) /\ tail_term t = last_term L.

Lemma tail_matches tail :
  tail_ok L tail -> is_some_and (fun tail => still_matches tail n') tail = true -> L `prefix_of` L'.
Proof using Hst.
  intros Ht Hm. destruct tail as [t|]; [|done]. destruct (Ht t eq_refl) as [Hi Hterm].
  simpl in Hm. unfold still_matches in Hm. apply bool_decide_eq_true in Hm. rewrite Hi, Hterm in Hm.
  destruct (node_bounds c G i n L (st_good _ _ _ _ _ _ _ _ _ Hst) (st_ok _ _ _ _ _ _ _ _ _ Hst))
    as (_ & _ & Hcap).
  apply (node_term_at c G' i n' L') in Hm as [_ Hm]; [|by destruct Hst..|lia].
  rewrite Nat2N.id in Hm.
  assert (take (length L) L = take (length L) L') as Heq.
  { eapply (log_matching G'); [| |apply term_of_last|exact Hm].
    - eapply sourced_grows; [apply (st_grows _ _ _ _ _ _ _ _ _ Hst)|].
      apply (node_sourced _ _ _ _ _ (st_ok _ _ _ _ _ _ _ _ _ Hst)).
    - apply (node_sourced _ _ _ _ _ (st_ok' _ _ _ _ _ _ _ _ _ Hst)). }
  rewrite take_ge in Heq by done. rewrite Heq. apply prefix_take.
Qed.

Lemma repair_ok d F tail d' r :
  healthy d -> between (image d) F -> im_snapshot (image d) = snapshot (persistent n') ->
  tail_ok L tail ->
  repair_persisted_log_suffix d n' tail (commit_index (volatile n)) = (d', r) ->
  match r with
  | Ok _ => healthy d' /\ im_hard (image d') = im_hard (image d) /\
      im_snapshot (image d') = im_snapshot (image d) /\
      exists F', F' `prefix_of` L' /\ between (image d') F'
  | Err _ => leaves d' salvageable
  end.
Proof using Hst.
  intros Hd Hbt Hs Htail. unfold repair_persisted_log_suffix.
  assert (snapshot_index n' = boundary_of (im_snapshot (image d))) as Hb by (by rewrite Hs).
  destruct (is_some_and _ _) eqn:Hm.
  { intros [= <- <-]. apply (tail_matches _ Htail) in Hm. split_and!; [done..|]. exists F.
    split; [|done]. by destruct (bt_log _ _ _ _ _ _ _ _ _ _ Hbt) as [->|]. }
  pose proof (bt_image _ _ _ _ _ _ _ _ _ _ Hbt) as Him.
  pose proof (img_snapshot _ _ _ _ _ Him) as [Hk _].
  unfold first_persisted_divergence. rewrite healthy_replay, filter_stamp by (done || lia).
  rewrite (img_log _ _ _ _ _ Him), drop_drop.
  replace (N.to_nat (im_compacted (image d)) + _)%nat with (N.to_nat (snapshot_index n')) by lia.
  pose proof (node_divergence c G' i n' L' (st_good' _ _ _ _ _ _ _ _ _ Hst)
    (st_ok' _ _ _ _ _ _ _ _ _ Hst) (drop (N.to_nat (snapshot_index n')) F) (snapshot_index n')
    ltac:(lia)) as Hdiv.
  destruct (find_map _ _) as [index|].
  - destruct Hdiv as (q & Hindex & Hq & Hp & Hne).
    destruct (between_cut _ _ _ _ _ _ _ _ _ Hst (image d) F index q) as (Hlt & F' & HF' & Hbt'); try done.
    destruct (N.leb_spec index (commit_index (volatile n))); [lia|].
    destruct (truncate_suffix d index) as [d1 r1] eqn:Hrun.
    pose proof (truncate_suffix_law d index d1 r1 Hd Hrun) as Hlaw. cbn [mapping_err].
    intros [= <- <-]. destruct r1 as [[]|e1]; cbn [map_err].
    + destruct Hlaw as (Hd1 & _ & ->). split_and!; [done..|]. by exists F'.
    + intros d'' Hr. destruct (Hlaw d'' Hr) as [Hd'' Hleft]. split; [exact Hd''|]. destruct Hleft as [->|[_ ->]]; by eapply salvage_fenced, bt_image.
  - intros [= <- <-]. split_and!; [done..|]. exists F. split; [|done].
    destruct (bt_common _ _ _ _ _ _ _ _ _ _ Hbt) as [k Hk']. rewrite <- Hb in Hk'.
    pose proof (bt_inside _ _ _ _ _ _ _ _ _ _ Hbt) as Hin. rewrite <- Hb in Hin.
    rewrite <- (take_drop (N.to_nat (snapshot_index n')) F). rewrite Hk' in Hdiv |- *.
    rewrite drop_app_length' in Hdiv by (rewrite length_take; lia). by apply prefix_app.
Qed.

(** The entries of the new log behind what is stored. *)
Lemma suffix_entries im F :
  between im F -> snapshot_index n' = boundary_of (im_snapshot im) -> F `prefix_of` L' ->
  im_last im = N.of_nat (length F) /\
  log_entries_slice_from n' (im_last im + 1) = drop (length F) L' /\
  stamp_from (im_last im + 1) (drop (length F) L') = stamp (im_last im) (drop (length F) L').
Proof using Hst.
  intros Hbt Hb HF. pose proof (bt_image _ _ _ _ _ _ _ _ _ _ Hbt) as Him.
  pose proof (img_compacted _ _ _ _ _ Him) as Hc. pose proof (bt_inside _ _ _ _ _ _ _ _ _ _ Hbt) as Hin.
  assert (im_last im = N.of_nat (length F)) as Hlast.
  { unfold im_last, length_u64. rewrite (img_log _ _ _ _ _ Him), length_drop. lia. }
  destruct (node_bounds c G' i n' L' (st_good' _ _ _ _ _ _ _ _ _ Hst) (st_ok' _ _ _ _ _ _ _ _ _ Hst))
    as (_ & _ & Hcap).
  apply prefix_length in HF. rewrite Hlast. split_and!; [done| |].
  - rewrite (node_slice c G' i n' L'); [f_equal; lia|by destruct Hst..|lia].
  - apply stamp_from_stamp. unfold length_u64. rewrite length_drop. lia.
Qed.

Lemma persist_log_suffix_ok (rt : DurableRaftNode D) F rt' r :
  rt_node rt = n' -> healthy (rt_stores rt) -> between (image (rt_stores rt)) F ->
  im_snapshot (image (rt_stores rt)) = snapshot (persistent n') -> tail_ok L (rt_persisted_tail rt) ->
  persist_log_suffix_for_step rt (commit_index (volatile n)) = (rt', r) ->
  rt_node rt' = n' /\ rt_fatal_error rt' = rt_fatal_error rt /\
  match r with
  | Ok _ => healthy (rt_stores rt') /\ rt_persisted_tail rt' = Some (of_node n') /\
      im_hard (image (rt_stores rt')) = im_hard (image (rt_stores rt)) /\
      im_snapshot (image (rt_stores rt')) = im_snapshot (image (rt_stores rt)) /\
      between (image (rt_stores rt')) L'
  | Err _ => leaves (rt_stores rt') salvageable
  end.
Proof using Hst.
  intros Hn Hd Hbt Hs Htail. unfold persist_log_suffix_for_step. rewrite Hn.
  destruct (repair_persisted_log_suffix _ _ _ _) as [d1 r1] eqn:Hrep.
  apply (repair_ok _ F) in Hrep; [|done..]. cbn [on_stores and_then].
  destruct r1 as [[]|e1]; [|by intros [= <- <-]].
  destruct Hrep as (Hd1 & Hh1 & Hs1 & F1 & HF1 & Hbt1).
  assert (snapshot_index n' = boundary_of (im_snapshot (image d1))) as Hb by (by rewrite Hs1, Hs).
  destruct (suffix_entries _ _ Hbt1 Hb HF1) as (Hlast & Hslice & Hstamp).
  pose proof (bt_inside _ _ _ _ _ _ _ _ _ _ Hbt1) as Hin.
  simpl rt_stores. simpl rt_node. rewrite Hn, healthy_next by done.
  destruct (N.leb_spec (im_last (image d1) + 1) (snapshot_index n')); [lia|].
  rewrite Hslice, Hstamp.
  assert (forall k, between ((image d1) <| im_log := im_log (image d1) ++ take k (drop (length F1) L') |>)
    (F1 ++ take k (drop (length F1) L'))) as Hext.
  { intros k. pose proof (img_compacted _ _ _ _ _ (bt_image _ _ _ _ _ _ _ _ _ _ Hbt1)) as Hc.
    rewrite (img_log _ _ _ _ _ (bt_image _ _ _ _ _ _ _ _ _ _ Hbt1)), <- drop_app_le by done.
    eapply between_extend; [exact Hst|exact Hbt1|done|by eexists|].
    destruct HF1 as [rest ->]. rewrite drop_app_length. apply prefix_app, prefix_take. }
  assert (F1 ++ drop (length F1) L' = L') as Happ
    by (destruct HF1 as [rest ->]; by rewrite drop_app_length).
  destruct (drop (length F1) L') as [|e rest] eqn:Hdrop.
  - intros [= <- <-]. rewrite app_nil_r in Happ. subst F1.
    split_and!; simpl; try done. by rewrite Hn.
  - destruct (append_entries d1 _) as [d2 r2] eqn:Hap.
    pose proof (append_entries_law d1 _ d2 r2 Hd1 Hap) as Hlaw.
    cbn [mapping_err on_stores and_then]. destruct r2 as [[]|e2]; cbn [map_err and_then].
    + destruct Hlaw as [Hd2 Him2]. intros [= <- <-]. simpl. rewrite Hn, Him2.
      split_and!; try done. specialize (Hext (length (e :: rest))).
      rewrite take_ge in Hext by done. by rewrite Happ in Hext.
    + intros [= <- <-]. split_and!; try done. simpl. intros d'' Hr.
      destruct (Hlaw d'' Hr) as [Hd'' Hleft]. split; [exact Hd''|]. destruct Hleft as [k ->]. by eapply salvage_fenced, bt_image.
Qed.

(** ** The hard state *)

Lemma write_changed_ok (rt : DurableRaftNode D) state rt' r :
  healthy (rt_stores rt) ->
  write_changed_hard_state rt (im_hard (image (rt_stores rt))) state = (rt', r) ->
  rt_node rt' = rt_node rt /\ rt_fatal_error rt' = rt_fatal_error rt /\
  rt_persisted_tail rt' = rt_persisted_tail rt /\
  match r with
  | Ok _ => healthy (rt_stores rt') /\
      image (rt_stores rt') = (image (rt_stores rt)) <| im_hard := state |>
  | Err _ => leaves (rt_stores rt') (fun im => im = image (rt_stores rt) \/
                                              im = (image (rt_stores rt)) <| im_hard := state |>)
  end.
Proof using.
  intros Hd. unfold write_changed_hard_state. case_bool_decide as Heq.
  - intros [= <- <-]. split_and!; try done. rewrite Heq. by destruct (image (rt_stores rt)).
  - destruct (write_hard_state (rt_stores rt) state) as [d1 r1] eqn:Hrun.
    pose proof (write_hard_state_law _ _ _ _ Hd Hrun) as Hlaw. cbn [mapping_err on_stores].
    intros [= <- <-]. split_and!; try done. by destruct r1.
Qed.

(** The stores once the step's hard state is written. *)
Lemma linked_final im :
  between im L' -> im_snapshot im = snapshot (persistent n') ->
  linked n' L' (im <| im_hard := hard_state_for_node n' |>) /\
  from_option (fun p => snapshot_fit c G' T' (pst_metadata p)) True (im_pending im).
Proof using Hst.
  intros Hbt Hs. pose proof (bt_image _ _ _ _ _ _ _ _ _ _ Hbt) as Him. split.
  - split; simpl; try done.
    + pose proof (img_snapshot _ _ _ _ _ Him) as [Hk _]. by rewrite Hs in Hk.
    + apply (img_log _ _ _ _ _ Him).
  - pose proof (img_pending _ _ _ _ _ Him) as Hp. rewrite (bt_term _ _ _ _ _ _ _ _ _ _ Hbt) in Hp.
    destruct (im_pending im); [|done]. simpl in *. by eapply snapshot_fit_grows; [by eapply fence_release|].
Qed.

Lemma salvage_final im :
  linked n' L' im -> from_option (fun p => snapshot_fit c G' T' (pst_metadata p)) True (im_pending im) ->
  salvageable im.
Proof using Hst.
  intros Hl Hp. exists G', L'. destruct Hst. split_and!; [done..|]. by apply (linked_image c G' i n' L').
Qed.

(** ** A sound runtime *)

Record live_ok (G : History) (rt : DurableRaftNode D) (L : list LogEntry) : Prop := {
  live_good : good false (rt_node rt);
  live_node : node_ok c G i (abs (rt_node rt)) L;
  live_healthy : healthy (rt_stores rt);
  live_linked : linked (rt_node rt) L (image (rt_stores rt));
  live_pending : from_option (fun p => snapshot_fit c G (current_term (persistent (rt_node rt)))
                                         (pst_metadata p)) True (im_pending (image (rt_stores rt)));
  live_tail : tail_ok L (rt_persisted_tail rt);
  live_sound : rt_fatal_error rt = None;
}.

(** Everything a successful step promises: its effects are durable. *)
Definition released (rt' : DurableRaftNode D) : Prop :=
  live_ok G' rt' L' /\ rt_node rt' = n' /\
  im_hard (image (rt_stores rt')) = hard_state_for_node n'.

Lemma node_tail_ok : tail_ok L' (Some (of_node n')).
Proof using Hst.
  intros t [= <-]. rewrite (node_tail c G' i n' L') by (by destruct Hst). done.
Qed.

Lemma released_intro (rt' : DurableRaftNode D) :
  rt_node rt' = n' -> healthy (rt_stores rt') -> linked n' L' (image (rt_stores rt')) ->
  from_option (fun p => snapshot_fit c G' T' (pst_metadata p)) True
    (im_pending (image (rt_stores rt'))) ->
  rt_persisted_tail rt' = Some (of_node n') -> rt_fatal_error rt' = None ->
  im_hard (image (rt_stores rt')) = hard_state_for_node n' -> released rt'.
Proof using Hst.
  intros Hn Hd Hl Hp Ht Hf Hh. split_and!; [|done|done].
  split; rewrite ?Hn, ?Ht; try done; [by destruct Hst..|apply node_tail_ok].
Qed.

(** ** The atomic fast path *)

Lemma no_fence_no_snapshot os : existsb needs_explicit_fence os = false -> applied os = [].
Proof using.
  induction os as [|x os IH]; [done|]. intros [Hx Hos]%orb_false_iff.
  change (x :: os) with ([x] ++ os). rewrite applied_app, (IH Hos), app_nil_r. by destruct x.
Qed.

Lemma eligible_inv (rt : DurableRaftNode D) before current :
  rt_node rt = n' -> tail_ok L (rt_persisted_tail rt) ->
  atomic_batch_eligible rt before current o = true ->
  hs_current_term before = hs_current_term current /\ hs_voted_for before = hs_voted_for current /\
  applied o = [] /\ im_pending (image (rt_stores rt)) = None /\ L `prefix_of` L'.
Proof using Hst.
  intros Hn Ht. unfold atomic_batch_eligible. rewrite Hn, negb_true_iff, !orb_false_iff, !negb_false_iff.
  intros (((((((H1 & H2) & _) & H4) & _) & H6) & _) & H8).
  split_and!; [by apply N.eqb_eq|by apply bool_decide_eq_true in H2|by apply no_fence_no_snapshot| |].
  - rewrite <- image_pending. by destruct (current_pending_snapshot_transfer _).
  - by eapply tail_matches.
Qed.

(** The batch takes the stores from the old node to the new one. *)
Lemma batch_image im :
  linked n L im ->
  from_option (fun p => snapshot_fit c G (current_term (persistent n)) (pst_metadata p)) True
    (im_pending im) ->
  applied o = [] -> L `prefix_of` L' ->
  log_entries_slice_from n' (im_last im + 1) = drop (length L) L' /\
  stamp_from (im_last im + 1) (drop (length L) L') = stamp (im_last im) (drop (length L) L') /\
  im_batch (drop (length L) L')
    (if bool_decide (hard_state_for_node n' = im_hard im) then None else Some (hard_state_for_node n')) im =
  (im <| im_log := drop (N.to_nat (im_compacted im)) L' |>) <| im_hard := hard_state_for_node n' |>.
Proof using Hst.
  intros Hl Hp Happ HLL. pose proof (st_snapshot _ _ _ _ _ _ _ _ _ Hst) as Hsn. rewrite Happ in Hsn.
  pose proof (between_fenced _ _ _ _ _ _ _ _ _ Hst im None Hl Hp) as Hbt.
  destruct (suffix_entries _ _ Hbt) as (_ & Hslice & Hstamp); [|done|].
  { simpl. rewrite (linked_snapshot _ _ _ Hl). simpl in Hsn. unfold snapshot_index. by rewrite Hsn. }
  split_and!; [exact Hslice|exact Hstamp|].
  pose proof (img_compacted _ _ _ _ _ (bt_image _ _ _ _ _ _ _ _ _ _ Hbt)) as Hc. simpl in Hc.
  unfold im_batch. rewrite (linked_log _ _ _ Hl), <- drop_app_le by done.
  replace (L ++ drop (length L) L') with L'
    by (destruct HLL as [rest ->]; by rewrite drop_app_length).
  case_bool_decide as Heq; [|done]. simpl. by rewrite Heq.
Qed.

Lemma linked_batch im :
  linked n L im -> applied o = [] ->
  linked n' L' ((im <| im_log := drop (N.to_nat (im_compacted im)) L' |>)
                  <| im_hard := hard_state_for_node n' |>).
Proof using Hst.
  intros [] Happ. pose proof (st_snapshot _ _ _ _ _ _ _ _ _ Hst) as Hsn. rewrite Happ in Hsn. simpl in Hsn.
  split; simpl; try done; [|congruence]. unfold snapshot_index. by rewrite Hsn.
Qed.

Lemma atomic_ok (rt : DurableRaftNode D) rt' r :
  live_ok G rt L -> rt_node rt = n ->
  try_atomic_append_batch (rt <| rt_node := n' |>) (im_hard (image (rt_stores rt)))
    (hard_state_for_node n') o = (rt', r) ->
  match r with
  | Ok true => released rt'
  | Ok false => healthy (rt_stores rt') /\ image (rt_stores rt') = image (rt_stores rt) /\
      rt_node rt' = n' /\ rt_persisted_tail rt' = rt_persisted_tail rt /\ rt_fatal_error rt' = None
  | Err _ => leaves (rt_stores rt') salvageable
  end.
Proof using Hst.
  intros Hlive Hn. set (rt1 := rt <| rt_node := n' |>).
  assert (healthy (rt_stores rt1)) as Hd by apply Hlive.
  assert (tail_ok L (rt_persisted_tail rt1)) as Ht by apply Hlive.
  pose proof (live_linked _ _ _ Hlive) as Hl. rewrite Hn in Hl.
  pose proof (live_pending _ _ _ Hlive) as Hp. rewrite Hn in Hp.
  pose proof (live_sound _ _ _ Hlive) as Hf.
  unfold try_atomic_append_batch.
  destruct (persistence_domain (rt_stores rt1)) as [domain|]; [|by intros [= <- <-]].
  destruct (atomic_batch_eligible _ _ _ _) eqn:Hel; simpl negb; cbv iota; [|by intros [= <- <-]].
  destruct (eligible_inv rt1 _ _ eq_refl Ht Hel) as (HT & Hv & Happ & Hpend & HLL).
  change (image (rt_stores rt1)) with (image (rt_stores rt)) in Hpend.
  destruct (batch_image _ Hl Hp Happ HLL) as (Hslice & Hstamp & Hbatch).
  rewrite healthy_next by done. change (image (rt_stores rt1)) with (image (rt_stores rt)).
  change (rt_node rt1) with n'. rewrite Hslice, Hstamp.
  destruct (existsb _ _); [by intros [= <- <-]|].
  destruct (persist_batch _ _ _) as [d1 r1] eqn:Hrun.
  pose proof (persist_batch_law _ _ _ _ _ _ Hd Hrun) as Hlaw.
  change (image (rt_stores rt1)) with (image (rt_stores rt)) in Hlaw.
  rewrite Hbatch in Hlaw. cbn [mapping_err on_stores].
  set (im1 := ((image (rt_stores rt)) <| im_log := _ |>) <| im_hard := _ |>) in Hlaw.
  assert (linked n' L' im1) as Hl1 by (by apply linked_batch).
  assert (from_option (fun p => snapshot_fit c G' T' (pst_metadata p)) True (im_pending im1)) as Hp1
    by (unfold im1; simpl; by rewrite Hpend).
  destruct r1 as [[receipt|]|e1]; cbn [map_err and_then].
  - destruct Hlaw as [Hd1 Him1]. destruct (receipt_matches _ _ _ _).
    + intros [= <- <-]. by apply released_intro; simpl; rewrite ?Him1.
    + intros [= <- <-]. simpl. apply healthy_leaves; [done|]. rewrite Him1. by apply salvage_final.
  - intros [= <- <-]. by destruct Hlaw.
  - intros [= <- <-] d'' Hr. simpl in Hr. destruct (Hlaw d'' Hr) as [Hd'' Hleft]. split; [exact Hd''|]. destruct Hleft as [->| ->]; [|by apply salvage_final].
    exists G, L. destruct Hst. split_and!; [apply grows_refl|done|]. by apply (linked_image c G i n L).
Qed.

(** ** The fence as a whole *)

(** The path of explicit fences. *)
Lemma explicit_ok (rt rt0 : DurableRaftNode D) rt' r :
  live_ok G rt L -> rt_node rt = n ->
  healthy (rt_stores rt0) -> image (rt_stores rt0) = image (rt_stores rt) -> rt_node rt0 = n' ->
  rt_persisted_tail rt0 = rt_persisted_tail rt -> rt_fatal_error rt0 = None ->
  let before := im_hard (image (rt_stores rt)) in
  let current := hard_state_for_node n' in
  and_then (write_changed_hard_state rt0 before
              {| hs_current_term := hs_current_term current;
                 hs_voted_for := hs_voted_for current;
                 hs_commit_index := hs_commit_index before;
                 hs_committed_configuration := hs_committed_configuration before |}) (fun rt _ =>
  and_then (on_stores rt (persist_snapshot_outputs_for_step (rt_stores rt) o)) (fun rt _ =>
  and_then (on_stores rt (clear_abandoned_snapshot_staging_for_step (rt_stores rt) (rt_node rt)))
    (fun rt _ =>
  and_then (persist_log_suffix_for_step rt (commit_index (volatile n))) (fun rt _ =>
  and_then (write_changed_hard_state rt (hard_state_current (rt_stores rt)) current) (fun rt _ =>
    (rt, Ok (resolve_snapshot_chunk_sends (rt_stores rt) o))))))) = (rt', r) ->
  match r with
  | Ok o' => released rt' /\ o' = resolve_snapshot_chunk_sends (rt_stores rt') o
  | Err _ => leaves (rt_stores rt') salvageable
  end.
Proof using Hst.
  intros Hlive Hn Hd0 Him0 Hn0 Ht0 Hf0 before current.
  pose proof (live_linked _ _ _ Hlive) as Hl. rewrite Hn in Hl.
  pose proof (live_pending _ _ _ Hlive) as Hp. rewrite Hn in Hp.
  pose proof (live_tail _ _ _ Hlive) as Htail. rewrite <- Ht0 in Htail.
  set (pre := {| hs_current_term := _ |}).
  pose proof (between_fenced _ _ _ _ _ _ _ _ _ Hst (image (rt_stores rt))
    (hs_committed_configuration before) Hl Hp) as Hbt.
  change (between ((image (rt_stores rt)) <| im_hard := pre |>) L) in Hbt.
  (* the first fence *)
  destruct (write_changed_hard_state rt0 before pre) as [rt1 r1] eqn:H1. unfold before in H1.
  rewrite <- Him0 in H1. apply write_changed_ok in H1 as (Hn1 & Hf1 & Ht1 & H1); [|done].
  rewrite Him0 in H1. destruct r1 as [[]|e1]; cbn [and_then].
  2:{ intros [= <- <-] d'' Hr. destruct (H1 d'' Hr) as [Hd'' Hleft]. split; [exact Hd''|]. destruct Hleft as [->| ->]; [|by eapply salvage_fenced, bt_image].
      exists G, L. destruct Hst. split_and!; [apply grows_refl|done|]. by apply (linked_image c G i n L). }
  destruct H1 as [Hd1 Him1]. rewrite <- Him1 in Hbt.
  (* the snapshot outputs *)
  destruct (persist_snapshot_outputs_for_step (rt_stores rt1) o) as [d2 r2] eqn:H2.
  apply (snapshot_outputs_ok o _ L (commit_index (volatile n))) in H2; [|done|done|..].
  2:{ rewrite Him1. simpl. rewrite (linked_snapshot _ _ _ Hl).
      apply (node_bounds c G i n L); by destruct Hst. }
  2-4: by destruct Hst.
  cbn [on_stores and_then]. destruct r2 as [[]|e2]; cbn [and_then]; [|by intros [= <- <-]].
  destruct H2 as (Hd2 & _ & Hs2 & F2 & Hbt2).
  assert (im_snapshot (image d2) = snapshot (persistent n')) as Hs2'.
  { rewrite Hs2, Him1. simpl. rewrite (linked_snapshot _ _ _ Hl). symmetry. by destruct Hst. }
  (* the abandoned transfer *)
  simpl rt_node. simpl rt_stores. rewrite Hn1, Hn0.
  destruct (clear_abandoned_snapshot_staging_for_step d2 n') as [d3 r3] eqn:H3.
  apply (clear_staging_ok d2 F2) in H3; [|done..].
  cbn [on_stores and_then]. destruct r3 as [[]|e3]; cbn [and_then]; [|by intros [= <- <-]].
  destruct H3 as (Hd3 & Hbt3 & _ & Hs3). rewrite Hs2' in Hs3.
  (* the log *)
  destruct (persist_log_suffix_for_step _ _) as [rt4 r4] eqn:H4.
  eapply persist_log_suffix_ok in H4; [|simpl; congruence|exact Hd3|exact Hbt3|exact Hs3|simpl; by rewrite Ht1].
  destruct H4 as (Hn4 & Hf4 & H4). destruct r4 as [[]|e4]; cbn [and_then]; [|by intros [= <- <-]].
  destruct H4 as (Hd4 & Ht4 & _ & Hs4 & Hbt4). simpl rt_stores in Hs4. rewrite Hs3 in Hs4.
  (* the last fence *)
  destruct (linked_final _ Hbt4 Hs4) as [Hl5 Hp5].
  rewrite image_hard. destruct (write_changed_hard_state rt4 _ current) as [rt5 r5] eqn:H5.
  apply write_changed_ok in H5 as (Hn5 & Hf5 & Ht5 & H5); [|done].
  destruct r5 as [[]|e5]; cbn [and_then]; intros [= <- <-].
  - destruct H5 as [Hd5 Him5]. split; [|done]. simpl in Hf4.
    apply released_intro; rewrite ?Him5; try done; congruence.
  - intros d'' Hr. destruct (H5 d'' Hr) as [Hd'' Hleft]. split; [exact Hd''|]. destruct Hleft as [->| ->]; [by eapply salvage_fenced, bt_image|].
    by apply salvage_final.
Qed.

Lemma poison_inv {A} (m : DurableRaftNode D * result A RaftRuntimeError) rt' r :
  poison m = (rt', r) -> r = m.2 /\ rt_stores rt' = rt_stores m.1 /\
    (forall a, r = Ok a -> rt' = m.1).
Proof using.
  destruct m as [rt [a|e]]; simpl; [by intros [= <- <-]|].
  intros [= <- <-]. split_and!; [done| |done]. by destruct (from_runtime_error e).
Qed.

(** A step either becomes durable as a whole before its outputs are released,
    or releases nothing and leaves a medium the node can restart from. *)
Lemma persist_stepped_ok (rt rt' : DurableRaftNode D) r :
  live_ok G rt L -> rt_node rt = n ->
  persist_stepped (rt <| rt_node := n' |>) (hard_state_current (rt_stores rt))
    (commit_index (volatile n)) o = (rt', r) ->
  match r with
  | Ok o' => released rt' /\ o' = resolve_snapshot_chunk_sends (rt_stores rt') o
  | Err _ => leaves (rt_stores rt') salvageable
  end.
Proof using Hst.
  intros Hlive Hn. unfold persist_stepped. rewrite image_hard.
  change (rt_node (rt <| rt_node := n' |>)) with n'.
  destruct (try_atomic_append_batch _ _ _ _) as [rt0 r0] eqn:H0.
  apply (atomic_ok rt) in H0; [|done..]. intros Hrun. apply poison_inv in Hrun as (Hr & Hd & Heq).
  cbn [and_then] in *. destruct r0 as [[]|e0].
  - simpl in Hr, Heq. subst r. specialize (Heq _ eq_refl) as ->. done.
  - destruct H0 as (Hd0 & Him0 & Hn0 & Ht0 & Hf0).
    destruct (and_then _ _) as [rt1 r1] eqn:H1 in Hr, Hd, Heq. simpl in Hr, Hd, Heq. subst r1.
    apply (explicit_ok rt rt0) in H1; [|done..]. destruct r as [o'|e]; [|by rewrite Hd].
    by rewrite (Heq _ eq_refl).
  - simpl in Hr, Hd. subst r. by rewrite Hd.
Qed.
End fence.
