(* ===== verification/RuntimeStep.v ===== *)
(** * Steps of the durable runtime

    Every public stepping call runs a sequence of kernel operations behind the
    fence. A call that succeeds leaves a sound runtime whose stores hold the
    stepped kernel; a call that fails releases nothing. *)

From stdpp Require Import base list sorting numbers option sets.
From S2P Require Import Prelude.
From S2P Require Import Types.
From S2P Require Import Snapshot.
From S2P Require Import Message.
From S2P Require Import Membership.
From S2P Require Import Config.
From S2P Require Import NodeState.
From S2P Require Import Log.
From S2P Require Import View.
From S2P Require Import Commit.
From S2P Require Import Receive.
From S2P Require Import LocalSnapshot.
From S2P Require Import Dispatch.
From S2P Require Import Spec.
From S2P Require Import SpecProps.
From S2P Require Import Abstraction.
From S2P Require Import RefineCommit.
From S2P Require Import RefineSnapshot.
From S2P Require Import RefineMembership.
From S2P Require Import Refinement.
From S2P Require Import Safety.
From S2P Require Import Batch.
From S2P Require Import Reigns.
From S2P Require Import Consensus.
From S2P Require Import Stores.
From S2P Require Import Runtime.
From S2P Require Import SnapshotFlow.
From S2P Require Import Durability.
From S2P Require Import Persistence.
From S2P Require Import Fence.

#[local] Opaque image.

(** ** Kernel operations *)

Definition compacts (op : Op) : bool :=
  match op with OpCompact _ => true | _ => false end.

(** What a snapshot message says is a snapshot its sender took. *)
Lemma installs_fit c G i n op t m :
  admissible false op n -> quiet_membership c op -> delivery_ok c G i op ->
  installs op t m -> snapshot_fit c G t m.
Proof.
  intros Ha Hq Hd Hi. split_and!.
  - destruct Hi as (from & message & -> & Hm). pose proof (adm_wf _ _ _ Ha) as Hw. simpl in Hw.
    destruct message; try done; destruct Hm as [_ <-]; exact Hw.
  - by apply (quiet_installs _ _ Hq t).
  - right. exists t. split; [lia|]. by eapply installs_ok.
Qed.

Section kernel.
Context (c : MembershipConfig) (i : NodeId) (G0 : History).

Lemma perform_all_ok ops : forall G n L,
  grows i G0 G -> history_ok c G -> good false n -> node_ok c G i (abs n) L ->
  all_admissible false n ops -> Forall (quiet_membership c) ops -> Forall (delivery_ok c G0 i) ops ->
  Forall (fun op => compacts op = false) ops ->
  exists G' L', grows i G G' /\ history_ok c G' /\ good false (perform_all n ops).1 /\
    node_ok c G' i (abs (perform_all n ops).1) L' /\
    Forall (output_ok c G' i) (perform_all n ops).2 /\
    snapshot_flow (snapshot_fit c G0) (abs n) (perform_all n ops).2 (abs (perform_all n ops).1).
Proof.
  induction ops as [|op ops IH]; intros G n L H0 HG Hg Hok Ha Hq Hd Hc.
  { exists G, L. split_and!; try done; [apply grows_refl|apply flow_refl]. }
  destruct Ha as [Ha1 Ha]. apply Forall_cons in Hq as [Hq1 Hq], Hd as [Hd1 Hd], Hc as [Hc1 Hc].
  destruct (perform_run _ _ _ Hg Ha1) as [Hrun Hg1].
  destruct (run_ok _ _ _ _ _ _ Hq1 Hrun G L HG Hok) as (G1 & L1 & Hgr1 & HG1 & Hok1 & Ho1).
  { by eapply delivery_ok_grows. }
  assert (snapshot_flow (snapshot_fit c G0) (abs n) (perform n op).2 (abs (perform n op).1)) as Hf1.
  { eapply flow_weaken; [|eapply run_flow; [|exact Hrun]].
    - intros t m. by eapply installs_fit.
    - intros x ->. done. }
  destruct (IH G1 (perform n op).1 L1) as (G2 & L2 & Hgr2 & HG2 & Hg2 & Hok2 & Ho2 & Hf2);
    [by eapply grows_trans|done..|].
  simpl. destruct (perform n op) as [n1 o1]. simpl in *. destruct (perform_all n1 ops) as [n2 o2].
  simpl in *. exists G2, L2. split_and!; [by eapply grows_trans|done..| |by eapply flow_trans].
  apply Forall_app. split; [by eapply outputs_ok_grows|done].
Qed.
End kernel.

(** The same, seen from storage. *)
Lemma perform_all_stepped c i G n L ops :
  history_ok c G -> good false n -> node_ok c G i (abs n) L ->
  all_admissible false n ops -> Forall (quiet_membership c) ops -> Forall (delivery_ok c G i) ops ->
  Forall (fun op => compacts op = false) ops ->
  exists G' L', stepped c i G n L (perform_all n ops).2 G' (perform_all n ops).1 L' /\
    Forall (output_ok c G' i) (perform_all n ops).2.
Proof.
  intros HG Hg Hok Ha Hq Hd Hc.
  destruct (perform_all_ok c i G ops G n L) as (G' & L' & Hgr & HG' & Hg' & Hok' & Ho & [Ht Has Hs Hst Hap]);
    [apply grows_refl|done..|].
  exists G', L'. split; [|done]. split; try done.
  - eapply Forall_impl; [exact Hst|]. simpl. intros m (t & Hle & Hf). by eapply snapshot_fit_weaken.
  - eapply Forall_impl; [exact Hap|]. simpl. intros x (t & Hle & Hf). by eapply snapshot_fit_weaken.
Qed.

(** ** Local snapshots *)

Section compaction.
Context (c : MembershipConfig) (G : History) (i : NodeId) (n : Node) (L : list LogEntry).
Context (HG : history_ok c G) (Hg : good false n) (Hok : node_ok c G i (abs n) L).

(** The membership never changes, so every index has it. *)
Lemma committed_membership_fixed index : membership_at_index n index = c.
Proof using Hg Hok.
  destruct (node_fixed _ _ _ _ _ Hok) as (Hst & Hbm & Hcf). simpl in Hst, Hbm, Hcf.
  unfold membership_at_index. destruct (entry_at_or_before _ _ _ _) as [e|] eqn:Ee.
  - unfold entry_at_or_before in Ee. apply find_map_Some in Ee as (o & _ & Ho).
    destruct (_ <=? _); [|done]. unfold configuration_entry_at in Ho.
    destruct (log (persistent n) !! o) as [x|] eqn:Hx; [|done]. simpl in Ho.
    assert (e ∈ configurations (log (persistent n))) as Hin.
    { apply list_elem_of_omap. exists x. split; [by eapply list_elem_of_lookup_2|done]. }
    rewrite Hcf in Hin. by apply not_elem_of_nil in Hin.
  - destruct (_ <=? _); [|done]. destruct Hbm as [->| ->]; done.
Qed.

Lemma check_local_membership snapshot' committed :
  check_local_snapshot n snapshot' = Ok committed ->
  metadata_committed_membership (metadata snapshot') = None \/
  metadata_committed_membership (metadata snapshot') = Some c.
Proof using Hg Hok.
  unfold check_local_snapshot, metadata_committed_membership. rewrite !committed_membership_fixed.
  repeat (destruct (_ <? _); [done|]). destruct (negb _); [done|].
  destruct (metadata_committed_configuration _) as [d|]; [|by left]. simpl.
  case_bool_decide as Hd; [|done]. rewrite Hd. by right.
Qed.

Lemma install_local_ok snapshot' n' o' :
  install_local_snapshot n snapshot' = Ok (n', o') ->
  good false n' /\ node_ok c G i (abs n') L /\ snapshot (persistent n') = Some snapshot' /\
  snapshot_index n <= boundary snapshot' /\
  current_term (persistent n') = current_term (persistent n) /\
  voted_for (persistent n') = voted_for (persistent n) /\
  commit_index (volatile n') = commit_index (volatile n).
Proof using HG Hg Hok.
  intros Hrun. pose proof (install_local_snapshot_refines n snapshot' Hg _ Hrun) as Href.
  apply refines_good in Href as Hg'; [|done].
  revert Hrun. unfold install_local_snapshot, prepare_local_snapshot_install.
  destruct (check_local_snapshot n snapshot') as [committed|] eqn:Ec; [|done]. simpl.
  pose proof (check_local_membership snapshot' committed Ec) as Hm.
  apply (check_local_snapshot_sound n snapshot' Hg) in Ec as (Hlo & Hhi & Ht & _ & _).
  unfold u64_checked_sub. destruct (N.leb_spec (snapshot_index n) (boundary snapshot')); [|lia]. simpl.
  unfold prepared_commit, install_local_snapshot_state_with_committed_configuration,
    finish_local_snapshot_install, retained_log_offset. simpl prepared_snapshot.
  simpl prepared_committed_configuration. simpl prepared_retired_len.
  set (n1 := _ <| persistent ; committed_configuration := committed |>).
  destruct (reconcile_local_proposals_shape n1) as [kept Hk].
  destruct (reconcile_local_proposals n1) as [n2 o2]. cbn [fst snd] in Hk. subst n2. intros [= <- <-].
  assert (node_ok c G i (s_compact snapshot' committed (abs n)) L) as Hok'.
  { destruct node_bounds with (c := c) (G := G) (i := i) (n := n) (L := L) as (_ & _ & Hcap); [done..|].
    rewrite (term_at_abs n (proj1 Hg)) in Ht.
    2:{ pose proof (commit_in_range false n (proj1 Hg) (proj2 Hg)).
        pose proof (inv_applied _ _ (proj2 Hg)). simpl in *. lia. }
    apply (compact_ok c G i (abs n) L HG Hok); [exact Hlo|exact Ht|exact (proj2 Hg')|].
    destruct (node_fixed _ _ _ _ _ Hok) as (Hst & _ & Hcf). split_and!; [done|exact Hm|].
    simpl. by apply configurations_drop. }
  split_and!; try done.
Qed.
End compaction.

(** Retiring entries for a later drop changes nothing else. *)
Lemma commit_retired n prepared n' o retired :
  commit_with_retired_entries n prepared = (n', o, retired) -> prepared_commit n prepared = (n', o).
Proof.
  unfold commit_with_retired_entries, install_local_snapshot_state_deferred_drop, prepared_commit,
    install_local_snapshot_state_with_committed_configuration.
  destruct (Nat.eqb_spec (prepared_retired_len prepared) 0) as [->|].
  - rewrite drop_0. replace (n <| persistent ; log := log (persistent n) |>) with n
      by (by destruct n as [? []]).
    destruct (finish_local_snapshot_install _ _ _ _). by intros [= <- <- _].
  - destruct (finish_local_snapshot_install _ _ _ _). by intros [= <- <- _].
Qed.

(** ** Calls *)

(** The stepping calls of the runtime; tracked proposals and reads are inputs. *)
Inductive RuntimeCall :=
| CallStep (input : Input)
| CallProposals (proposals : list ClientProposalInput)
| CallBatch (inputs : list Input).

(** The kernel operations behind a call. *)
Definition call_ops (call : RuntimeCall) : list Op :=
  match call with
  | CallStep input => [OpInput input]
  | CallProposals [] => []
  | CallProposals proposals => [OpProposals proposals]
  | CallBatch inputs => inputs_ops inputs
  end.

Section runtime.
Context {D : Type} `{!RaftHardStateStore D, !RaftLogSegment D, !RaftSnapshotStore D}.
Context `{!SnapshotChunkSource D, !StoreLaws D}.
Implicit Types (d : D) (rt : DurableRaftNode D).

Definition runtime_call rt (call : RuntimeCall)
  : DurableRaftNode D * result (list Output) RaftRuntimeError :=
  match call with
  | CallStep input => runtime_step rt input
  | CallProposals proposals => runtime_step_proposal_batch rt proposals
  | CallBatch inputs => runtime_step_batch rt inputs
  end.

Lemma step_and_persist_ext rt f g :
  f (rt_node rt) = g (rt_node rt) -> step_and_persist rt f = step_and_persist rt g.
Proof. intros Heq. unfold step_and_persist. by rewrite Heq. Qed.

(** An empty proposal batch does nothing; any other call runs its operations
    behind the fence. *)
Lemma runtime_call_shape rt call :
  (call = CallProposals [] /\ runtime_call rt call = (rt, Ok [])) \/
  runtime_call rt call = step_and_persist rt (fun n => perform_all n (call_ops call)).
Proof.
  destruct call as [input|[|x xs]|inputs]; [| by left| |]; right.
  - apply step_and_persist_ext. symmetry. apply perform_all_single.
  - apply step_and_persist_ext. symmetry. apply perform_all_single.
  - destruct inputs as [|a [|b rest]]; apply step_and_persist_ext.
    + done.
    + symmetry. apply (perform_all_single _ (OpInput a)).
    + apply step_batch_perform.
Qed.

Lemma resolve_ok c G i d o :
  Forall (output_ok c G i) o -> Forall (output_ok c G i) (resolve_snapshot_chunk_sends d o).
Proof.
  intros Ho. unfold resolve_snapshot_chunk_sends. destruct (negb _); [done|].
  apply Forall_forall. intros x (y & Hy & Hx)%list_elem_of_omap.
  rewrite Forall_forall in Ho. specialize (Ho y Hy).
  destruct y; simplify_eq; try done. apply fmap_Some in Hx as (m & Hm & ->). simpl in *.
  unfold resolve in Hm. destruct (snapshot_chunk _ _); [|done]. destruct (negb _); [done|].
  by injection Hm as <-.
Qed.

Section calls.
Context (c : MembershipConfig) (i : NodeId) (G : History) (L : list LogEntry).
Context (rt : DurableRaftNode D) (HG : history_ok c G) (Hlive : live_ok c i G rt L).

(** The operations of a call are ones a caller may make, and deliver only what
    was sent. *)
Definition call_allowed (ops : list Op) : Prop :=
  all_admissible false (rt_node rt) ops /\ Forall (quiet_membership c) ops /\
  Forall (delivery_ok c G i) ops.

Lemma call_ops_compacts call : Forall (fun op => compacts op = false) (call_ops call).
Proof using.
  assert (forall p, Forall (fun op => compacts op = false) (pending_op p)) as Hp
    by (intros []; repeat constructor).
  assert (forall inputs p, Forall (fun op => compacts op = false) (batch_ops p inputs)) as Hb.
  { induction inputs as [|input inputs IH]; intros p; simpl; [apply Hp|].
    destruct (accept_ops p input) as [ops p'] eqn:He. apply Forall_app. split; [|apply IH].
    replace ops with (accept_ops p input).1 by (by rewrite He).
    assert (forall i, Forall (fun op => compacts op = false) (pending_op p ++ [OpInput i])) as Hpi.
    { intros. apply Forall_app. split; [apply Hp|by repeat constructor]. }
    destruct input; try apply Hpi; destruct p; repeat constructor. }
  destruct call as [input|[|x xs]|[|a [|b rest]]]; try (by repeat constructor). apply Hb.
Qed.

Lemma runtime_call_ok call rt' r :
  call_allowed (call_ops call) -> runtime_call rt call = (rt', r) ->
  match r with
  | Ok o' => exists G' L', grows i G G' /\ history_ok c G' /\ live_ok c i G' rt' L' /\
      rt_node rt' = (perform_all (rt_node rt) (call_ops call)).1 /\
      o' = resolve_snapshot_chunk_sends (rt_stores rt') (perform_all (rt_node rt) (call_ops call)).2 /\
      Forall (output_ok c G' i) o' /\
      (call <> CallProposals [] ->
       im_hard (image (rt_stores rt')) = hard_state_for_node (rt_node rt'))
  | Err _ => leaves (rt_stores rt') (salvageable c i G)
  end.
Proof using HG Hlive.
  intros (Ha & Hq & Hd). destruct (runtime_call_shape rt call) as [[-> ->]| ->].
  { intros [= <- <-]. exists G, L. split_and!; try done. apply grows_refl. }
  destruct (perform_all_stepped c i G (rt_node rt) L (call_ops call)) as (G' & L' & Hst & Ho);
    try done; [by apply Hlive..|apply call_ops_compacts|].
  unfold step_and_persist. rewrite (live_sound _ _ _ _ _ Hlive).
  destruct (perform_all (rt_node rt) (call_ops call)) as [n' o]. cbn [fst snd] in *.
  intros Hrun. apply (persist_stepped_ok c i G _ L o G' n' L' Hst rt) in Hrun; [|done|done].
  destruct r as [o'|e]; [|done]. destruct Hrun as ((Hlive' & Hn' & Hh) & ->).
  exists G', L'. destruct Hst. split_and!; try done; [by apply resolve_ok|]. by rewrite Hn'.
Qed.

(** ** Compaction *)

(** Publishing a snapshot as the stores promise it. *)
Definition publishes (descriptor : RaftSnapshot)
    (write : D -> D * result unit RaftSnapshotStoreWriteError) : Prop :=
  forall d d' r, healthy d -> write d = (d', r) ->
    match r with
    | Ok _ => healthy d' /\
        image d' = (image d) <| im_snapshot := Some descriptor |> <| im_pending := None |>
    | Err _ => leaves d' (fun im => exists s p,
        (s = im_snapshot (image d) \/ s = Some descriptor) /\
        (p = im_pending (image d) \/ p = None) /\
        im = (image d) <| im_snapshot := s |> <| im_pending := p |>)
    end.

Section compact.
Context (descriptor : RaftSnapshot) (n' : Node) (o' : list Output).
Context (Hinst : install_local_snapshot (rt_node rt) descriptor = Ok (n', o')).

Lemma published_image s p :
  s = im_snapshot (image (rt_stores rt)) \/ s = Some descriptor ->
  p = im_pending (image (rt_stores rt)) \/ p = None ->
  image_ok c G i ((image (rt_stores rt)) <| im_snapshot := s |> <| im_pending := p |>) L.
Proof using HG Hlive Hinst.
  intros Hs Hp. pose proof (live_linked _ _ _ _ _ Hlive) as Hl.
  pose proof (live_good _ _ _ _ _ Hlive) as Hg. pose proof (live_node _ _ _ _ _ Hlive) as Hok.
  pose proof (linked_image c G i _ L Hg Hok _ Hl (live_pending _ _ _ _ _ Hlive)) as Him.
  assert (from_option (fun p => snapshot_fit c G (hs_current_term (im_hard (image (rt_stores rt))))
    (pst_metadata p)) True p) as Hpf.
  { destruct Hp as [->| ->]; [|done]. apply (img_pending _ _ _ _ _ Him). }
  destruct Hs as [->| ->].
  - replace ((image (rt_stores rt)) <| im_snapshot := im_snapshot (image (rt_stores rt)) |>)
      with (image (rt_stores rt)) by (by destruct (image (rt_stores rt))).
    by apply image_ok_pending.
  - destruct (install_local_ok c G i _ L HG Hg Hok _ _ _ Hinst) as (Hg' & Hok' & Hsn & Hb & HT & _ & _).
    destruct (node_snapshot c G i n' L Hg' Hok' descriptor Hsn) as [Hfit Hterm].
    apply image_ok_snapshot; [done| | |by right|done].
    + rewrite (linked_snapshot _ _ _ Hl). exact Hb.
    + by rewrite (linked_term _ _ _ Hl), <- HT.
Qed.

Lemma compacted_exact :
  im_compacted (im_compact (boundary descriptor)
    ((image (rt_stores rt)) <| im_snapshot := Some descriptor |> <| im_pending := None |>)) =
  boundary descriptor.
Proof using HG Hlive Hinst.
  destruct (image_ok_compact c G i HG _ L
    (published_image (Some descriptor) None ltac:(by right) ltac:(by right)) descriptor eq_refl)
    as (_ & _ & _ & Hc & _). exact Hc.
Qed.

Lemma compact_linked :
  linked n' L (im_compact (boundary descriptor)
    ((image (rt_stores rt)) <| im_snapshot := Some descriptor |> <| im_pending := None |>)).
Proof using HG Hlive Hinst.
  pose proof (live_linked _ _ _ _ _ Hlive) as Hl.
  pose proof (live_good _ _ _ _ _ Hlive) as Hg. pose proof (live_node _ _ _ _ _ Hlive) as Hok.
  destruct (install_local_ok c G i _ L HG Hg Hok _ _ _ Hinst) as (_ & _ & Hsn & Hb & HT & Hv & Hc).
  destruct (im_compact_rest (boundary descriptor)
    ((image (rt_stores rt)) <| im_snapshot := Some descriptor |> <| im_pending := None |>)) as (Hh & Hs & _).
  assert (snapshot_index n' = boundary descriptor) as Hb' by (unfold snapshot_index; by rewrite Hsn).
  destruct Hl as [Ht' Hv' Hc' Hk' Hl' Hs'].
  split; rewrite ?Hh, ?Hs, ?Hb', ?compacted_exact; try (simpl; congruence); try (simpl; lia).
  unfold im_compact. case_cmp; simpl in *; rewrite Hl', ?drop_drop; f_equal; lia.
Qed.
End compact.

Lemma compact_with_ok descriptor write rt' r :
  publishes descriptor write -> compact_with rt descriptor write = (rt', r) ->
  match r with
  | Ok retired => live_ok c i G rt' L /\ exists o',
      install_local_snapshot (rt_node rt) descriptor = Ok (rt_node rt', o') /\
      im_snapshot (image (rt_stores rt')) = Some descriptor /\
      im_compacted (image (rt_stores rt')) = boundary descriptor
  | Err _ => rt' = rt \/ leaves (rt_stores rt') (salvageable c i G)
  end.
Proof using HG Hlive.
  intros Hwrite. unfold compact_with.
  destruct (prepare_local_snapshot_install (rt_node rt) descriptor) as [prepared|e] eqn:Hprep.
  2:{ intros [= <- <-]. by left. }
  destruct (commit_with_retired_entries (rt_node rt) prepared) as [[n' o'] retired] eqn:Hcommit.
  assert (install_local_snapshot (rt_node rt) descriptor = Ok (n', o')) as Hinst.
  { unfold install_local_snapshot. rewrite Hprep. simpl. by rewrite (commit_retired _ _ _ _ _ Hcommit). }
  assert (forall im F, image_ok c G i im F -> salvageable c i G im) as Hsalvage.
  { intros im F Him. exists G, F. split_and!; [apply grows_refl|done|done]. }
  intros Hrun. apply poison_inv in Hrun as (Hr & Hd & Heq). revert Hr Hd Heq.
  destruct (write (rt_stores rt)) as [d1 r1] eqn:Hw.
  pose proof (Hwrite _ _ _ (live_healthy _ _ _ _ _ Hlive) Hw) as H1.
  pose proof (published_image _ _ _ Hinst) as Hpub. cbn [mapping_err and_then].
  destruct r1 as [[]|e1]; cbn [map_err and_then].
  2:{ cbn [on_stores fst snd]. intros -> -> _. right. intros d'' Hr.
      destruct (H1 d'' Hr) as [Hd'' Hleft]. split; [exact Hd''|]. destruct Hleft as (s & p & Hs & Hp & ->). eapply Hsalvage, Hpub; done. }
  destruct H1 as [Hd1 Him1].
  destruct (compact_prefix_through d1 (boundary descriptor)) as [d2 r2] eqn:Hcp.
  assert (boundary descriptor < u64_modulus) as Hbu.
  { pose proof (live_good _ _ _ _ _ Hlive) as Hg. pose proof (live_node _ _ _ _ _ Hlive) as Hok.
    destruct (install_local_ok c G i _ L HG Hg Hok _ _ _ Hinst) as (Hg' & Hok' & Hsn & _).
    destruct (node_bounds c G i n' L Hg' Hok') as (? & ? & ?).
    unfold snapshot_index in *. rewrite Hsn in *. lia. }
  pose proof (compact_prefix_through_law d1 _ d2 r2 Hd1 Hbu Hcp) as H2. rewrite Him1 in H2.
  cbn [on_stores mapping_err]. destruct r2 as [[]|e2]; cbn [map_err and_then].
  - change (rt_node (rt <| rt_stores := d2 |>)) with (rt_node rt). rewrite Hcommit.
    cbn [fst snd]. intros -> _ Heq. rewrite (Heq _ eq_refl). destruct H2 as [Hd2 Him2].
    destruct (install_local_ok c G i _ L HG (live_good _ _ _ _ _ Hlive) (live_node _ _ _ _ _ Hlive) _ _ _ Hinst)
      as (Hg' & Hok' & Hsn & _).
    pose proof (compact_linked _ _ _ Hinst) as Hl. rewrite <- Him2 in Hl.
    destruct (im_compact_rest (boundary descriptor)
      ((image (rt_stores rt)) <| im_snapshot := Some descriptor |> <| im_pending := None |>)) as (Hh & Hs & Hp).
    rewrite <- Him2 in Hh, Hs, Hp. simpl in Hs, Hp. split.
    + split; simpl; try done; [by rewrite Hp|apply Hlive|apply Hlive].
    + exists o'. split_and!; [done|done|]. simpl. rewrite Him2. by eapply compacted_exact.
  - cbn [fst snd]. intros -> -> _. right. intros d'' Hr. simpl in Hr.
    destruct (H2 d'' Hr) as [Hd'' Hleft]. split; [exact Hd''|]. destruct Hleft as [->| ->].
    + eapply Hsalvage, Hpub; by right.
    + destruct (image_ok_compact c G i HG _ L (Hpub (Some descriptor) None ltac:(by right) ltac:(by right))
        descriptor eq_refl) as (F' & HF' & _). by eapply Hsalvage.
Qed.
End calls.

(** The compaction calls of the runtime; the others wrap these. *)
Inductive CompactCall :=
| CompactPayload (snapshot : PersistedRaftSnapshot)
| CompactStreamed (snapshot : RaftSnapshot) (source : SnapshotChunkRequest -> option (list u8)).

Definition runtime_compact rt (call : CompactCall)
  : DurableRaftNode D * result (list LogEntry) RaftRuntimeError :=
  match call with
  | CompactPayload snapshot => compact_log_with_snapshot_deferred_drop rt snapshot
  | CompactStreamed snapshot source =>
      compact_log_with_streamed_snapshot_deferred_drop rt snapshot source
  end.

Lemma write_snapshot_publishes snapshot :
  publishes (from_payload (prs_metadata snapshot) (prs_application_payload snapshot))
    (fun d => write_snapshot d snapshot).
Proof.
  intros d d' r Hd Hrun. pose proof (write_snapshot_law d snapshot d' r Hd Hrun) as Hlaw.
  by destruct r.
Qed.

Lemma write_from_source_publishes descriptor source :
  publishes descriptor (fun d => write_snapshot_from_source d descriptor source).
Proof.
  intros d d' r Hd Hrun. pose proof (write_snapshot_from_source_law d _ _ d' r Hd Hrun) as Hlaw.
  by destruct r.
Qed.

Lemma runtime_compact_ok c i G L rt call rt' r :
  history_ok c G -> live_ok c i G rt L -> runtime_compact rt call = (rt', r) ->
  match r with
  | Ok _ => live_ok c i G rt' L
  | Err _ => rt' = rt \/ leaves (rt_stores rt') (salvageable c i G)
  end.
Proof.
  intros HG Hlive. destruct call as [snapshot|snapshot source]; simpl;
    [unfold compact_log_with_snapshot_deferred_drop|unfold compact_log_with_streamed_snapshot_deferred_drop];
    rewrite (live_sound _ _ _ _ _ Hlive); intros Hrun;
    eapply compact_with_ok in Hrun; try done; try (destruct r; [apply Hrun|done]).
  - apply (write_snapshot_publishes {| prs_metadata := _; prs_application_payload := _ |}).
  - apply write_from_source_publishes.
Qed.
End runtime.
