(* ===== verification/RuntimeErrors.v ===== *)
(** * Failures of the durable runtime

    A call that fails for any reason leaves the runtime poisoned, whatever the
    stores did: nothing more is stepped, persisted or released until the stores
    are reopened. *)

From stdpp Require Import base strings list sorting numbers option sets.
From S2P Require Import Prelude.
From S2P Require Import Types.
From S2P Require Import Snapshot.
From S2P Require Import Message.
From S2P Require Import NodeState.
From S2P Require Import Log.
From S2P Require Import SnapshotTransfer.
From S2P Require Import Receive.
From S2P Require Import LocalSnapshot.
From S2P Require Import Dispatch.
From S2P Require Import Stores.
From S2P Require Import Runtime.
From S2P Require Import RuntimeStep.

(** Every error of the operation poisons. *)
Definition fatally {S A} (m : S * result A RaftRuntimeError) : Prop :=
  forall e, m.2 = Err e -> is_some (from_runtime_error e) = true.

Create HintDb fatal.

Lemma fatally_ok {S A} (s : S) (a : A) : fatally (s, Ok a).
Proof. by intros e. Qed.

Lemma fatally_mapping {S A E} (f : E -> RaftRuntimeError) (m : S * result A E) :
  (forall e, is_some (from_runtime_error (f e)) = true) -> fatally (mapping_err f m).
Proof. intros Hf e. destruct m as [s [a|e0]]; [done|]. simpl. intros [= <-]. apply Hf. Qed.

Lemma fatally_then {S A B} (m : S * result A RaftRuntimeError) (k : S -> A -> S * result B RaftRuntimeError) :
  fatally m -> (forall s a, fatally (k s a)) -> fatally (and_then m k).
Proof.
  intros Hm Hk. destruct m as [s [a|e0]]; simpl; [apply Hk|]. intros e [= <-]. by apply Hm.
Qed.

Lemma fatally_on_stores {D A} (rt : DurableRaftNode D) (m : D * result A RaftRuntimeError) :
  fatally m -> fatally (on_stores rt m).
Proof. by destruct m. Qed.

(** Splits an operation into the steps that can fail; the database [fatal] knows
    the operations. *)
Ltac fatally :=
  repeat match goal with
  | |- fatally (_, Ok _) => apply fatally_ok
  | |- fatally (_, Err _) => intros ? [= <-]; reflexivity
  | |- fatally (mapping_err _ _) => apply fatally_mapping; intros; reflexivity
  | |- fatally (on_stores _ _) => apply fatally_on_stores
  | |- fatally (and_then _ _) => apply fatally_then; [|intros]
  | |- fatally (if ?b then _ else _) => destruct b
  | |- fatally (match ?x with _ => _ end) => destruct x
  | |- fatally (let _ := _ in _) => cbv zeta
  end; auto with fatal.

Section failures.
Context {D : Type} `{!RaftHardStateStore D, !RaftLogSegment D, !RaftSnapshotStore D}.
Context `{!SnapshotChunkSource D}.
Implicit Types (d : D) (rt : DurableRaftNode D).

Lemma install_staged_fatal d s floor : fatally (install_staged_snapshot d s floor).
Proof. unfold install_staged_snapshot. fatally. Qed.
#[local] Hint Resolve install_staged_fatal : fatal.

Lemma snapshot_outputs_fatal o : forall d, fatally (persist_snapshot_outputs_for_step d o).
Proof. induction o as [|x o IH]; intros d; simpl; fatally. Qed.
#[local] Hint Resolve snapshot_outputs_fatal : fatal.

Lemma clear_staging_fatal d n : fatally (clear_abandoned_snapshot_staging_for_step d n).
Proof. unfold clear_abandoned_snapshot_staging_for_step. fatally. Qed.
#[local] Hint Resolve clear_staging_fatal : fatal.

Lemma repair_fatal d n tail floor : fatally (repair_persisted_log_suffix d n tail floor).
Proof. unfold repair_persisted_log_suffix. fatally. Qed.
#[local] Hint Resolve repair_fatal : fatal.

Lemma persist_log_fatal rt floor : fatally (persist_log_suffix_for_step rt floor).
Proof. unfold persist_log_suffix_for_step. fatally. Qed.
#[local] Hint Resolve persist_log_fatal : fatal.

Lemma write_changed_fatal rt stored state : fatally (write_changed_hard_state rt stored state).
Proof. unfold write_changed_hard_state. fatally. Qed.
#[local] Hint Resolve write_changed_fatal : fatal.

Lemma atomic_fatal rt before current o : fatally (try_atomic_append_batch rt before current o).
Proof. unfold try_atomic_append_batch. fatally. Qed.
#[local] Hint Resolve atomic_fatal : fatal.

(** A poisoning wrapper around an operation whose errors all poison. *)
Lemma poison_fatal {A} (m : DurableRaftNode D * result A RaftRuntimeError) rt' e :
  fatally m -> poison m = (rt', Err e) -> exists cause, rt_fatal_error rt' = Some cause.
Proof.
  intros Hm. destruct m as [rt [a|e0]]; [done|]. simpl. intros [= <- <-].
  specialize (Hm e0 eq_refl). destruct (from_runtime_error e0) as [cause|]; [by exists cause|done].
Qed.

Lemma persist_stepped_fatal rt before floor o rt' e :
  persist_stepped rt before floor o = (rt', Err e) -> exists cause, rt_fatal_error rt' = Some cause.
Proof. apply poison_fatal. fatally. Qed.

Lemma step_fatal rt step rt' e :
  step_and_persist rt step = (rt', Err e) -> exists cause, rt_fatal_error rt' = Some cause.
Proof.
  unfold step_and_persist. destruct (rt_fatal_error rt) as [cause|] eqn:Hf.
  - intros [= <- <-]. by exists cause.
  - destruct (step (rt_node rt)) as [n o]. apply persist_stepped_fatal.
Qed.

Lemma poisoned_step rt step cause :
  rt_fatal_error rt = Some cause -> step_and_persist rt step = (rt, Err (RtPoisoned cause)).
Proof. intros Hf. unfold step_and_persist. by rewrite Hf. Qed.

(** C36: whatever the stores do, a stepping call that returns an error leaves
    the runtime poisoned: every later stepping or compaction call returns that
    cause, changes nothing and releases nothing. *)
Theorem failed_call_poisons rt call rt' e :
  runtime_call rt call = (rt', Err e) ->
  exists cause, rt_fatal_error rt' = Some cause /\
    (forall later, later <> CallProposals [] ->
       runtime_call rt' later = (rt', Err (RtPoisoned cause))) /\
    (forall later, runtime_compact rt' later = (rt', Err (RtPoisoned cause))).
Proof.
  intros Hrun.
  assert (exists cause, rt_fatal_error rt' = Some cause) as [cause Hf].
  { destruct (runtime_call_shape rt call) as [[-> Heq]|Heq]; rewrite Heq in Hrun; [done|].
    by eapply step_fatal. }
  exists cause. split_and!; [done| |].
  - intros next Hne. destruct (runtime_call_shape rt' next) as [[-> _]|Heq]; [done|].
    rewrite Heq. by apply poisoned_step.
  - intros []; simpl; unfold compact_log_with_snapshot_deferred_drop,
      compact_log_with_streamed_snapshot_deferred_drop; by rewrite Hf.
Qed.
End failures.
