(* ===== verification/Restart.v ===== *)
(** * Restart of the durable runtime

    [construction/hydrate.rs] and [construction/recover.rs]: whatever a crash or
    a failed write left on the medium, construction finishes interrupted
    snapshot installations and compactions, and the runtime it returns is sound
    for the log the medium holds. *)

From stdpp Require Import base list sorting numbers option sets.
From S2P Require Import Prelude.
From S2P Require Import Types.
From S2P Require Import Snapshot.
From S2P Require Import Message.
From S2P Require Import Membership.
From S2P Require Import Progress.
From S2P Require Import Config.
From S2P Require Import NodeState.
From S2P Require Import Log.
From S2P Require Import View.
From S2P Require Import Commit.
From S2P Require Import SnapshotTransfer.
From S2P Require Import Bootstrap.
From S2P Require Import Spec.
From S2P Require Import SpecProps.
From S2P Require Import Abstraction.
From S2P Require Import RefineCommit.
From S2P Require Import RefineSnapshot.
From S2P Require Import Refinement.
From S2P Require Import KernelAudit.
From S2P Require Import Safety.
From S2P Require Import Reigns.
From S2P Require Import Consensus.
From S2P Require Import Recovery.
From S2P Require Import Stores.
From S2P Require Import Runtime.
From S2P Require Import SnapshotFlow.
From S2P Require Import Durability.
From S2P Require Import Persistence.
From S2P Require Import Fence.
From S2P Require Import RuntimeStep.

#[local] Opaque image.

(** ** The log construction reads *)

Lemma bootstrap_stamp before l :
  map persisted_entry_to_bootstrap (stamp before l) = indexed (before + 1) l.
Proof.
  revert before. induction l as [|e l IH]; intros before; [done|].
  rewrite stamp_cons, indexed_cons. simpl. by rewrite IH.
Qed.

Lemma filter_stamp_from before l bound :
  before < bound ->
  filter_bool (fun e => bound <=? ple_index e) (stamp before l) =
  stamp (bound - 1) (drop (N.to_nat (bound - 1 - before)) l).
Proof.
  intros Hlt. rewrite <- filter_stamp by lia. apply filter_bool_ext. intros e _.
  apply eq_true_iff_eq. rewrite N.leb_le, N.ltb_lt. lia.
Qed.

(** The entry at the boundary of the snapshot is checked and not kept. *)
Definition without_boundary (b : BootstrapState) (log : list BootstrapLogEntry) : BootstrapState :=
  {| bs_current_term := bs_current_term b; bs_voted_for := bs_voted_for b;
     bs_commit_index := bs_commit_index b;
     bs_committed_configuration := bs_committed_configuration b;
     bs_snapshot := bs_snapshot b; bs_log := log |}.

Lemma from_bootstrap_boundary cfg b s x rest n :
  bs_snapshot b = Some s -> bs_log b = x :: rest -> ble_index x = boundary s ->
  from_bootstrap cfg b = Ok n -> from_bootstrap cfg (without_boundary b rest) = Ok n.
Proof.
  intros Hs Hlog Hx. unfold from_bootstrap, into_parts, without_boundary, validate_vote, validate_snapshot.
  simpl. rewrite Hs, Hlog.
  destruct (match bs_voted_for b with Some _ => _ | None => _ end); [|done]. simpl.
  destruct (if _ <? _ then _ else _); [|done]. simpl. unfold validate_log. simpl.
  unfold LogValidation_accept at 1. simpl. rewrite Hx, N.ltb_irrefl, N.eqb_refl.
  destruct (validate_boundary_entry _ _); [|done]. simpl.
  by destruct (validate_boundary_configuration _ _ _).
Qed.

(** ** Hydration of the kernel *)

Section hydrate.
Context (c : MembershipConfig) (G : History) (i : NodeId) (HG : history_ok c G).

(** A snapshot whose boundary the log reaches is a committed prefix of it. *)
Lemma snapshot_committed im F s :
  image_ok c G i im F -> im_snapshot im = Some s -> (N.to_nat (boundary s) <= length F)%nat ->
  committed c G (take (N.to_nat (boundary s)) F) (hs_current_term (im_hard im)).
Proof using HG.
  intros Him Hs Hlen. destruct (img_snapshot _ _ _ _ _ Him) as [_ Hm]. rewrite Hs in Hm.
  destruct Hm as ((_ & _ & Hfit) & [Hlt|Hterm]); [lia|].
  destruct (N.eqb_spec (boundary s) 0) as [->|Hne]; [by left|].
  destruct Hfit as [|(ts & Hts & R & HR & HlenR & HtR & HcR)]; [done|]. specialize (HtR Hne).
  simpl in Hterm. rewrite (proj2 (N.eqb_neq _ _) Hne) in Hterm.
  rewrite (log_matching G F (r_log R) _ (last_included_term (metadata s))); try done.
  - by eapply committed_weaken.
  - apply Him.
  - apply (history_reigns _ _ HG _ _ HR).
Qed.

(** What construction promises of a node over the image [im] of the log [F]. *)
Record hydrated (cfg : NodeConfig) (im : Image) (F : list LogEntry) (n : Node) : Prop := {
  hyd_good : good false n;
  hyd_config : config n = cfg;
  hyd_term : current_term (persistent n) = hs_current_term (im_hard im);
  hyd_vote : voted_for (persistent n) = hs_voted_for (im_hard im);
  hyd_snapshot : snapshot (persistent n) = im_snapshot im;
  hyd_log : log (persistent n) = drop (N.to_nat (boundary_of (im_snapshot im))) F;
  hyd_commit : commit_index (volatile n) =
    N.max (hs_commit_index (im_hard im)) (boundary_of (im_snapshot im));
  hyd_role : role (volatile n) = Follower;
}.

Lemma hydrated_ok cfg im F n :
  image_ok c G i im F -> (N.to_nat (boundary_of (im_snapshot im)) <= length F)%nat ->
  hydrated cfg im F n -> nc_id cfg = i -> static_membership cfg = c ->
  node_ok c G i (abs n) F.
Proof using HG.
  intros Him Hlen [Hg Hcfg Ht Hv Hs Hl Hc Hrole] Hid Hstatic.
  assert (snapshot_index n = boundary_of (im_snapshot im)) as Hb by (by rewrite <- Hs).
  split; simpl; rewrite ?Ht, ?Hv, ?Hrole; try (by apply Him); try done.
  - unfold Node_id. by rewrite Hcfg.
  - apply Hg.
  - split_and!; simpl; [by rewrite Hcfg| |by rewrite Hl; apply Him].
    unfold snapshot_committed_membership. rewrite Hs. destruct (img_snapshot _ _ _ _ _ Him) as [_ Hm].
    destruct (im_snapshot im) as [s|]; [|by left]. apply Hm.
  - split; simpl; rewrite ?Hb; [done|done|]. rewrite Hs.
    destruct (img_snapshot _ _ _ _ _ Him) as [_ Hm]. destruct (im_snapshot im) as [s|]; [|done].
    destruct Hm as [_ [Hlt|Hterm]]; [|done]. simpl in Hlen, Hlt. lia.
  - rewrite Hc. destruct (N.max_spec (hs_commit_index (im_hard im)) (boundary_of (im_snapshot im)))
      as [[_ ->]|[_ ->]]; [|apply Him].
    destruct (im_snapshot im) as [s|] eqn:Es; [|by left]. by apply snapshot_committed.
Qed.
End hydrate.

(** ** Replay of committed entries *)

Section replay.
Context (c : MembershipConfig) (G : History) (i : NodeId) (L : list LogEntry).

(** Without configuration entries, replay only moves the dispatch cursor. *)
Lemma replay_ok fuel : forall n,
  good false n -> node_ok c G i (abs n) L ->
  let r := emit_committed_loop fuel n in
  good false r.1 /\ node_ok c G i (abs r.1) L /\ config r.1 = config n /\
  persistent r.1 = persistent n /\ commit_index (volatile r.1) = commit_index (volatile n) /\
  Forall (output_ok c G i) r.2.
Proof.
  induction fuel as [|fuel IH]; intros n Hg Hok; simpl; [by split_and!|].
  destruct (N.ltb_spec (dispatched_index (volatile n)) (commit_index (volatile n))) as [Hlt|]; simpl;
    [|by split_and!].
  destruct (entry_at n _) as [e|] eqn:He; [|by split_and!].
  assert (configuration_entry e = None) as Hplain.
  { destruct (configuration_entry e) as [x|] eqn:Hx; [|done].
    destruct (node_fixed _ _ _ _ _ Hok) as (_ & _ & Hcf). simpl in Hcf.
    assert (e ∈ log (persistent n)) as Hin.
    { unfold entry_at in He. destruct (_ <=? _); [done|]. by eapply list_elem_of_lookup_2. }
    assert (x ∈ configurations (log (persistent n))) as Hc by (apply list_elem_of_omap; by exists e).
    rewrite Hcf in Hc. by apply not_elem_of_nil in Hc. }
  pose proof (emit_committed_entry_refines (op := OpDrain) n e Hg Hlt He) as Href.
  pose proof (refines_good _ _ Hg Href) as Hg1.
  assert (exists remaining o1,
    emit_committed_entry n (LogIndex_next (dispatched_index (volatile n))) e =
      (n <| volatile ; dispatched_index := LogIndex_next (dispatched_index (volatile n)) |>
         <| volatile ; local_proposals := remaining |>, o1) /\
    dispatches (LogIndex_next (dispatched_index (volatile n))) e o1) as (remaining & o1 & Heq & Ho1).
  { unfold emit_committed_entry. destruct (tracker_remove _ _) as [remaining removed]. rewrite Hplain.
    destruct (application_payload e) eqn:Hp; eexists _, _; (split; [done|]).
    - by apply application_dispatches.
    - by apply noop_dispatches. }
  rewrite Heq in Hg1 |- *. cbn [fst snd] in Hg1. set (n1 := n <| volatile ; dispatched_index := _ |> <| volatile ; local_proposals := _ |>) in *.
  pose proof (next_dispatched n Hg Hlt) as Hnext. rewrite Hnext in Ho1, He.
  assert (Forall (output_ok c G i) o1) as Hout.
  { eapply (apply_ok c G i (abs n) L Hok e); [exact Hlt| |exact Ho1].
    rewrite <- (entry_at_abs n (proj1 Hg)); [exact He|].
    pose proof (commit_in_range false n (proj1 Hg) (proj2 Hg)). simpl. lia. }
  assert (node_ok c G i (abs n1) L) as Hok1.
  { eapply node_ok_keep; [exact Hok|apply Hg1|apply (node_fixed _ _ _ _ _ Hok)|].
    unfold node_kept. split_and!; try done. }
  destruct (IH n1 Hg1 Hok1) as (Hg2 & Hok2 & Hcf2 & Hp2 & Hc2 & Ho2).
  destruct (emit_committed_loop fuel n1) as [n2 o2]. cbn [fst snd] in *.
  split_and!; try done. apply Forall_app. by split.
Qed.
End replay.

Section construction.
Context {D : Type} `{!RaftHardStateStore D, !RaftLogSegment D, !RaftSnapshotStore D}.
Context `{!SnapshotChunkSource D, !StoreLaws D}.
Context (c : MembershipConfig) (G : History) (i : NodeId) (HG : history_ok c G).
Context (Hwf : MembershipConfig_wf c).
Context (cfg : NodeConfig) (Hstatic : static_membership cfg = c).
Implicit Types (d : D).

(** The log handed to the kernel: the retained entries, behind the entry at the
    boundary when the log still holds it. *)
Lemma bootstrap_log d F hard :
  healthy d -> image_ok c G i (image d) F ->
  let b := boundary_of (im_snapshot (image d)) in
  (N.to_nat b <= length F)%nat ->
  let kept := indexed (b + 1) (drop (N.to_nat b) F) in
  bs_log (bootstrap_state d hard) = kept \/
  exists s x e, im_snapshot (image d) = Some s /\ ble_index x = boundary s /\
    F !! (N.to_nat b - 1)%nat = Some e /\ 0 < b /\ ble_term x = entry_term e /\
    bs_log (bootstrap_state d hard) = x :: kept.
Proof using.
  intros Hd Him b Hlen kept. unfold bootstrap_state. simpl. rewrite image_snapshot. fold b.
  rewrite healthy_replay by done. destruct (img_snapshot _ _ _ _ _ Him) as [Hk _]. fold b in Hk.
  rewrite (img_log _ _ _ _ _ Him). set (k := im_compacted (image d)) in *.
  destruct (decide (k = b)) as [->|Hne].
  - left. replace (filter_bool _ _) with (stamp b (drop (N.to_nat b) F)); [apply bootstrap_stamp|].
    destruct (N.eqb_spec b 0) as [->|].
    + symmetry. generalize (stamp 0 (drop (N.to_nat 0) F)). intros l.
      induction l as [|x l IH]; [done|]. simpl. destruct (N.leb_spec 0 (ple_index x)); [by rewrite IH|lia].
    + rewrite <- (filter_stamp_all b _ (b - 1)) at 1 by lia. apply filter_bool_ext. intros e _.
      apply eq_true_iff_eq. rewrite N.leb_le, N.ltb_lt. lia.
  - right. rewrite filter_stamp_from, drop_drop by lia.
    replace (N.to_nat k + N.to_nat (b - 1 - k))%nat with (N.to_nat b - 1)%nat by lia.
    destruct (drop (N.to_nat b - 1) F) as [|e rest] eqn:Hd1.
    { apply (f_equal length) in Hd1. rewrite length_drop in Hd1. simpl in Hd1. lia. }
    assert (rest = drop (N.to_nat b) F) as ->.
    { replace (N.to_nat b) with (N.to_nat b - 1 + 1)%nat by lia. by rewrite <- drop_drop, Hd1. }
    unfold b in *. destruct (im_snapshot (image d)) as [s|]; [|simpl in *; lia].
    simpl boundary_of in *. eexists s, _, e. split_and!; [done| | |lia| |].
    4:{ rewrite stamp_cons. simpl map. rewrite bootstrap_stamp. unfold kept. do 3 f_equal. lia. }
    + simpl. lia.
    + apply (f_equal (fun l => l !! 0%nat)) in Hd1. rewrite lookup_drop, Nat.add_0_r in Hd1. exact Hd1.
    + done.
Qed.

Lemma from_bootstrap_hydrated d F applied n :
  healthy d -> image_ok c G i (image d) F ->
  (N.to_nat (boundary_of (im_snapshot (image d))) <= length F)%nat ->
  from_bootstrap_applied_through cfg (bootstrap_state d (im_hard (image d))) applied = Ok n ->
  hydrated cfg (image d) F n.
Proof using Hwf Hstatic.
  intros Hd Him Hlen. set (b := boundary_of (im_snapshot (image d))) in *.
  set (kept := indexed (b + 1) (drop (N.to_nat b) F)).
  set (bs := without_boundary (bootstrap_state d (im_hard (image d))) kept).
  assert (forall n0, from_bootstrap cfg (bootstrap_state d (im_hard (image d))) = Ok n0 ->
    from_bootstrap cfg bs = Ok n0) as Hbs.
  { intros n0 H0. destruct (bootstrap_log d F (im_hard (image d)) Hd Him Hlen) as [Hl|(s & x & e & Hs & Hx & _ & _ & _ & Hl)].
    - fold b in Hl. fold kept in Hl. unfold bs. rewrite <- Hl. exact H0.
    - eapply from_bootstrap_boundary; [|exact Hl|exact Hx|exact H0]. by rewrite <- Hs. }
  assert (metadata_index (metadata <$> bs_snapshot bs) = b) as Hb
    by (unfold b; simpl; rewrite image_snapshot; by destruct (im_snapshot (image d))).
  pose proof (img_snapshot _ _ _ _ _ Him) as [_ Hmeet].
  assert (from_option (fun s => metadata_wf (metadata s)) True (im_snapshot (image d))) as Hmw
    by (destruct (im_snapshot (image d)); [apply Hmeet|done]).
  assert (b + 1 < u64_modulus) as Hbu
    by (unfold b; destruct (im_snapshot (image d)); simpl in *; [apply Hmw|done]).
  assert (bootstrap_wf cfg bs) as Hbwf.
  { split_and!; [by rewrite Hstatic|by simpl; rewrite image_snapshot|].
    pose proof (img_wf _ _ _ _ _ Him) as Hw. fold b in Hw. unfold bs, kept, indexed. simpl.
    apply Forall_lookup. intros k x Hx. rewrite list_lookup_imap in Hx.
    apply fmap_Some in Hx as (e & He & ->). simpl. eapply Forall_lookup_1 in Hw; [|done]. by destruct e. }
  unfold from_bootstrap_applied_through.
  destruct (from_bootstrap cfg (bootstrap_state d _)) as [n0|]; [|done]. pose proof (Hbs n0 eq_refl) as E.
  simpl. destruct (last_log_index n0 <? applied) eqn:E1; [done|].
  destruct (commit_index (volatile n0) <? applied) eqn:E2; [done|]. intros [= <-].
  destruct (from_bootstrap_indexed cfg bs (drop (N.to_nat b) F) n0) as (Hc & Ht & Hv & Hs & Hl & Hci & Hr);
    [by rewrite Hb|by rewrite Hb|exact E|].
  split; simpl; try done.
  - eapply good_any, from_bootstrap_applied_through_good; [exact Hbwf|].
    unfold from_bootstrap_applied_through. rewrite E. simpl. by rewrite E1, E2.
  - by rewrite Hci, Hb.
Qed.

(** What a failed construction leaves. *)
Definition sound_image (im : Image) : Prop := exists F, image_ok c G i im F.

Lemma finish_staged_ok d F d' r :
  healthy d -> image_ok c G i (image d) F -> finish_staged_installation d = (d', r) ->
  match r with
  | Ok _ => healthy d' /\ im_hard (image d') = im_hard (image d) /\
      exists F', image_ok c G i (image d') F'
  | Err _ => leaves d' sound_image
  end.
Proof using HG.
  intros Hd Him. unfold finish_staged_installation. rewrite image_pending, image_snapshot.
  pose proof (img_pending _ _ _ _ _ Him) as Hp.
  destruct (im_pending (image d)) as [p|]; [|intros [= <- <-]; eauto]. simpl in Hp.
  destruct (_ && _) eqn:Hc; [|intros [= <- <-]; eauto]. apply andb_true_iff in Hc as [_ Hlt%N.ltb_lt].
  rewrite image_hard. intros Hrun.
  apply (install_staged_ok c i G d F) in Hrun; [|done..].
  destruct r as [[]|e]; [|done]. destruct Hrun as (Hd' & Hh & _ & _ & _ & F' & HF' & _). eauto.
Qed.

Lemma finish_compaction_ok d F d' r :
  healthy d -> image_ok c G i (image d) F -> finish_compaction d = (d', r) ->
  match r with
  | Ok _ => healthy d' /\ im_hard (image d') = im_hard (image d) /\
      exists F', image_ok c G i (image d') F' /\
        (N.to_nat (boundary_of (im_snapshot (image d'))) <= length F')%nat
  | Err _ => leaves d' sound_image
  end.
Proof using HG.
  intros Hd Him. unfold finish_compaction.
  rewrite image_snapshot, image_compacted, healthy_next by done.
  destruct (img_snapshot _ _ _ _ _ Him) as [Hk Hmeet]. pose proof (img_compacted _ _ _ _ _ Him) as Hkl.
  set (b := boundary_of (im_snapshot (image d))) in *.
  destruct (N.ltb_spec b (im_compacted (image d))); [lia|].
  assert (im_last (image d) = N.of_nat (length F)) as Hlast.
  { unfold im_last, length_u64. rewrite (img_log _ _ _ _ _ Him), length_drop. lia. }
  rewrite Hlast. destruct (N.ltb_spec (im_compacted (image d)) b) as [Hlt|Hge]; simpl.
  2:{ intros [= <- <-]. split_and!; [done..|]. exists F. split; [done|]. fold b. lia. }
  destruct (N.leb_spec (N.of_nat (length F) + 1) b) as [Hle|Hgt].
  2:{ intros [= <- <-]. split_and!; [done..|]. exists F. split; [done|]. fold b. lia. }
  unfold b in *. destruct (im_snapshot (image d)) as [s|] eqn:Hs; [|simpl in Hlt; lia].
  cbn [boundary_of] in *. destruct Hmeet as [[[Hbu _] _] _].
  destruct (compact_prefix_through d (boundary s)) as [d1 r1] eqn:Hrun.
  assert (boundary s < u64_modulus) as Hbu' by lia.
  pose proof (compact_prefix_through_law d _ d1 r1 Hd Hbu' Hrun) as Hlaw.
  destruct (image_ok_compact c G i HG _ F Him s Hs) as (F' & HF' & HbF & _).
  destruct (im_compact_rest (boundary s) (image d)) as (Hh & Hs' & _).
  intros [= <- <-]. destruct r1 as [[]|e1]; simpl.
  - destruct Hlaw as [Hd1 ->]. split_and!; [done..|]. exists F'. rewrite Hs', Hs. done.
  - intros d'' Hr. destruct (Hlaw d'' Hr) as [Hd'' Hleft]. split; [exact Hd''|]. destruct Hleft as [->| ->]; by eexists.
Qed.

Lemma resume_ok d F n d' r :
  healthy d -> image_ok c G i (image d) F -> hydrated cfg (image d) F n ->
  resume_staged_transfer d n = (d', r) ->
  match r with
  | Ok n' => healthy d' /\ image_ok c G i (image d') F /\ hydrated cfg (image d') F n' /\
      im_snapshot (image d') = im_snapshot (image d) /\ im_hard (image d') = im_hard (image d) /\
      exists incoming, n' = n <| volatile ; incoming_snapshot := incoming |>
  | Err _ => leaves d' sound_image
  end.
Proof using.
  intros Hd Him Hhyd. unfold resume_staged_transfer. rewrite image_pending.
  assert (exists incoming, n = n <| volatile ; incoming_snapshot := incoming |>) as Hsame.
  { exists (incoming_snapshot (volatile n)). by destruct n as [? ? []]. }
  destruct (im_pending (image d)) as [p|] eqn:Hp.
  2:{ intros [= <- <-]. by split_and!. }
  destruct (resume_pending_snapshot_transfer n p) as [n1|e] eqn:Hres.
  - intros [= <- <-]. split_and!; try done.
    + pose proof (hyd_good _ _ _ _ Hhyd) as Hg.
      pose proof (resume_refines (op := OpDrain) n p n1 Hg Hres) as Href. apply refines_good in Href; [|done].
      revert Hres. unfold resume_pending_snapshot_transfer.
      destruct (_ <? _); [done|]. destruct (negb _); [done|].
      destruct (validate_snapshot_transfer_header _ _ _ _) as [|[]]; [|done|done].
      destruct (_ <=? _); [done|]. destruct (is_complete p); [done|]. intros [= <-].
      destruct Hhyd. by split.
    + revert Hres. unfold resume_pending_snapshot_transfer.
      destruct (_ <? _); [done|]. destruct (negb _); [done|].
      destruct (validate_snapshot_transfer_header _ _ _ _) as [|[]]; [|done|done].
      destruct (_ <=? _); [done|]. destruct (is_complete p); [done|]. intros [= <-]. by eexists.
  - destruct e; try (intros [= <- <-]; apply healthy_leaves; [done|by exists F]).
    destruct (clear_pending_snapshot_transfer d) as [d1 r1] eqn:Hrun.
    pose proof (clear_pending_law d d1 r1 Hd Hrun) as Hlaw. cbn [mapping_err and_then].
    pose proof (image_ok_pending c G i (image d) F Him None I) as Him1.
    destruct r1 as [[]|e1]; cbn [map_err and_then]; intros [= <- <-].
    + destruct Hlaw as [Hd1 ->]. split_and!; try done. destruct Hhyd. by split.
    + intros d'' Hr. destruct (Hlaw d'' Hr) as [Hd'' Hleft]. split; [exact Hd''|]. destruct Hleft as [->| ->]; by eexists.
Qed.

Context (Hid : nc_id cfg = i).

(** Construction over a sound image gives a sound runtime, or leaves a sound
    image behind. *)
Lemma construct_ok d F applied d' r :
  healthy d -> image_ok c G i (image d) F ->
  with_storage_and_snapshot_store_applied_through cfg d applied = (d', r) ->
  match r with
  | Ok rt => exists F', live_ok c i G rt F' /\ rt_stores rt = d' /\
      im_hard (image d') = im_hard (image d) /\ hydrated cfg (image d') F' (rt_node rt)
  | Err _ => leaves d' sound_image
  end.
Proof using HG Hwf Hid Hstatic.
  intros Hd Him. unfold with_storage_and_snapshot_store_applied_through. rewrite image_hard.
  destruct (finish_staged_installation d) as [d1 r1] eqn:H1.
  apply (finish_staged_ok d F) in H1; [|done..]. destruct r1 as [[]|e1]; cbn [and_then];
    [|by intros [= <- <-]].
  destruct H1 as (Hd1 & Hh1 & F1 & Him1).
  destruct (finish_compaction d1) as [d2 r2] eqn:H2.
  apply (finish_compaction_ok d1 F1) in H2; [|done..]. destruct r2 as [[]|e2]; cbn [and_then];
    [|by intros [= <- <-]].
  destruct H2 as (Hd2 & Hh2 & F2 & Him2 & Hlen2). rewrite <- Hh1, <- Hh2.
  destruct (from_bootstrap_applied_through _ _ _) as [n|e] eqn:H3.
  2:{ intros [= <- <-]. apply healthy_leaves; [done|by exists F2]. }
  apply (from_bootstrap_hydrated d2 F2) in H3; [|done..].
  destruct (resume_staged_transfer d2 n) as [d3 r3] eqn:H4.
  apply (resume_ok d2 F2) in H4; [|done..]. destruct r3 as [n3|e3]; cbn [and_then];
    [|by intros [= <- <-]].
  destruct H4 as (Hd3 & Him3 & Hhyd & Hs3 & Hh3 & incoming & Hn3). intros [= <- <-]. exists F2.
  assert (node_ok c G i (abs n3) F2) as Hok.
  { by eapply (hydrated_ok c G i HG cfg (image d3)); rewrite ?Hs3. }
  split_and!; [|done|done|done].
  pose proof (hyd_good _ _ _ _ Hhyd) as Hg.
  split; simpl; try done.
  - destruct Hhyd. destruct (img_snapshot _ _ _ _ _ Him3) as [Hk _].
    assert (snapshot_index n3 = boundary_of (im_snapshot (image d3))) as Hb by (by rewrite <- hyd_snapshot0).
    split; rewrite ?Hb; try done; [lia|apply Him3].
  - rewrite (hyd_term _ _ _ _ Hhyd). apply (img_pending _ _ _ _ _ Him3).
  - intros t [= <-]. by rewrite (node_tail c G i n3 F2).
Qed.

(** Recovery: construction, then the replay of the committed entries above the
    floor the application has already made durable. *)
Lemma recover_ok d F applied d' r :
  healthy d -> image_ok c G i (image d) F ->
  recover_with_storage_and_snapshot_store_applied_through cfg d applied = (d', r) ->
  match r with
  | Ok (rt, o) => exists F', live_ok c i G rt F' /\ rt_stores rt = d' /\
      im_hard (image d') = im_hard (image d) /\
      config (rt_node rt) = cfg /\ Forall (output_ok c G i) o
  | Err _ => leaves d' sound_image
  end.
Proof using HG Hwf Hid Hstatic.
  intros Hd Him. unfold recover_with_storage_and_snapshot_store_applied_through.
  destruct (with_storage_and_snapshot_store_applied_through cfg d applied) as [d1 r1] eqn:H1.
  apply (construct_ok d F) in H1; [|done..]. destruct r1 as [rt|e]; cbn [and_then]; [|by intros [= <- <-]].
  destruct H1 as (F' & Hlive & Hst & Hh & Hhyd). unfold runtime_drain_committed_outputs.
  pose proof (replay_ok c G i F' (N.to_nat (commit_index (volatile (rt_node rt)) -
    dispatched_index (volatile (rt_node rt)))) (rt_node rt) (live_good _ _ _ _ _ Hlive)
    (live_node _ _ _ _ _ Hlive)) as Hrep.
  unfold drain_committed_outputs, emit_committed_outputs. destruct (emit_committed_loop _ _) as [n' o].
  cbn [fst snd] in Hrep. destruct Hrep as (Hg' & Hok' & Hcf & Hp & Hc & Ho). intros [= <- <-].
  exists F'. split_and!; try done; [|by rewrite <- (hyd_config _ _ _ _ Hhyd)].
  destruct Hlive as [_ _ Hhe Hl Hpe Ht Hf]. split; simpl; rewrite ?Hp; try done.
  destruct Hl. unfold snapshot_index in *. split; rewrite ?Hp, ?Hc; try done. unfold snapshot_index. by rewrite Hp.
Qed.
End construction.
