(* ===== verification/RuntimeCluster.v ===== *)
(** * A cluster of durable runtimes

    Nodes run the durable runtime over stores that may fail at any write. A
    call that fails, or a crash between calls, leaves whatever the medium may
    hold; the node is down until a recovery over the reopened stores succeeds,
    and recoveries may fail and be retried. The network drops, delays, reorders
    and duplicates what was released. Membership is fixed.

    The stores are any that keep the promises of [StoreLaws]. *)

From stdpp Require Import base list sorting numbers option sets gmap relations.
From S2P Require Import Prelude.
From S2P Require Import Types.
From S2P Require Import Snapshot.
From S2P Require Import Message.
From S2P Require Import Membership.
From S2P Require Import Config.
From S2P Require Import NodeState.
From S2P Require Import Log.
From S2P Require Import View.
From S2P Require Import Spec.
From S2P Require Import SpecProps.
From S2P Require Import Abstraction.
From S2P Require Import Refinement.
From S2P Require Import Safety.
From S2P Require Import Reigns.
From S2P Require Import Consensus.
From S2P Require Import Cluster.
From S2P Require Import Stores.
From S2P Require Import Runtime.
From S2P Require Import Durability.
From S2P Require Import Persistence.
From S2P Require Import Fence.
From S2P Require Import RuntimeStep.
From S2P Require Import Restart.

#[local] Opaque image.

(** The stores of a node that has never run. *)
Definition fresh_image : Image :=
  {| im_hard := RaftHardState_default; im_compacted := 0; im_log := []; im_snapshot := None;
     im_pending := None |}.

Section cluster.
Context {D : Type} `{!RaftHardStateStore D, !RaftLogSegment D, !RaftSnapshotStore D}.
Context `{!SnapshotChunkSource D, !StoreLaws D}.
Context (c : MembershipConfig) (configs : NodeId -> NodeConfig).

(** A node runs, or is down with the medium it left. *)
Inductive Host :=
| Running (rt : DurableRaftNode D)
| Down (d : D).

(** The hosts, and everything released so far, oldest first. *)
Record Deployment := {
  hosts : gmap NodeId Host;
  releases : list (NodeId * Output);
}.

Definition set_host (σ : Deployment) (i : NodeId) (h : Host) (o : list Output) : Deployment :=
  {| hosts := <[i := h]> (hosts σ); releases := releases σ ++ (pair i <$> o) |}.

(** A call the caller may make, whose messages were released to this node. *)
Definition allowed (σ : Deployment) (i : NodeId) (n : Node) (ops : list Op) : Prop :=
  all_admissible false n ops /\ Forall (quiet_membership c) ops /\
  Forall (fun op => forall from m, delivers op from m -> (from, Send i m) ∈ releases σ) ops.

Inductive deployment_step (σ : Deployment) : Deployment -> Prop :=
| ds_call i rt call rt' o :
    hosts σ !! i = Some (Running rt) -> allowed σ i (rt_node rt) (call_ops call) ->
    runtime_call rt call = (rt', Ok o) ->
    deployment_step σ (set_host σ i (Running rt') o)
| ds_call_failed i rt call rt' e d :
    hosts σ !! i = Some (Running rt) -> allowed σ i (rt_node rt) (call_ops call) ->
    runtime_call rt call = (rt', Err e) -> reopens (rt_stores rt') d ->
    deployment_step σ (set_host σ i (Down d) [])
| ds_compact i rt call rt' retired :
    hosts σ !! i = Some (Running rt) -> runtime_compact rt call = (rt', Ok retired) ->
    deployment_step σ (set_host σ i (Running rt') [])
| ds_compact_failed i rt call rt' e d :
    hosts σ !! i = Some (Running rt) -> runtime_compact rt call = (rt', Err e) ->
    reopens (rt_stores rt') d ->
    deployment_step σ (set_host σ i (Down d) [])
| ds_crash i rt d :
    hosts σ !! i = Some (Running rt) -> reopens (rt_stores rt) d ->
    deployment_step σ (set_host σ i (Down d) [])
| ds_recover i d applied d' rt o :
    hosts σ !! i = Some (Down d) ->
    recover_with_storage_and_snapshot_store_applied_through (configs i) d applied = (d', Ok (rt, o)) ->
    deployment_step σ (set_host σ i (Running rt) o)
| ds_recover_failed i d applied d' e d'' :
    hosts σ !! i = Some (Down d) ->
    recover_with_storage_and_snapshot_store_applied_through (configs i) d applied = (d', Err e) ->
    reopens d' d'' ->
    deployment_step σ (set_host σ i (Down d'') []).

Definition deployed (σ : Deployment) : Prop :=
  MembershipConfig_wf c /\ releases σ = [] /\
  forall i h, hosts σ !! i = Some h ->
    nc_id (configs i) = i /\ static_membership (configs i) = c /\
    exists d, h = Down d /\ healthy d /\ image d = fresh_image.

(** ** The invariant *)

Definition host_ok (G : History) (i : NodeId) (h : Host) : Prop :=
  match h with
  | Running rt => exists L, live_ok c i G rt L
  | Down d => healthy d /\ exists F, image_ok c G i (image d) F
  end.

Record deployment_inv (G : History) (σ : Deployment) : Prop := {
  deployment_wf : MembershipConfig_wf c;
  deployment_history : history_ok c G;
  deployment_configs : forall i h, hosts σ !! i = Some h ->
    nc_id (configs i) = i /\ static_membership (configs i) = c;
  deployment_hosts : forall i h, hosts σ !! i = Some h -> host_ok G i h;
  deployment_releases : forall i o, (i, o) ∈ releases σ -> output_ok c G i o;
}.

Lemma fresh_image_ok i : image_ok c no_history i fresh_image [].
Proof.
  split; simpl; try done.
  - intros v Hv. by apply not_elem_of_nil in Hv.
  - intros t k Hin. by apply not_elem_of_nil in Hin.
  - by left.
Qed.

Lemma deployed_inv σ : deployed σ -> deployment_inv no_history σ.
Proof.
  intros (Hwf & Hrel & Hh). split; [done|apply no_history_ok| | |].
  - intros i h Hi. destruct (Hh i h Hi) as (? & ? & _). done.
  - intros i h Hi. destruct (Hh i h Hi) as (_ & _ & d & -> & Hd & Him). split; [done|].
    exists []. rewrite Him. apply fresh_image_ok.
  - rewrite Hrel. intros i o Hin. by apply not_elem_of_nil in Hin.
Qed.

(** What one node does does not concern the others. *)
Lemma host_ok_others i j G G' h : grows i G G' -> j <> i -> host_ok G j h -> host_ok G' j h.
Proof.
  intros Hgrow Hne. destruct h as [rt|d]; simpl.
  - intros (L & []). exists L. split; try done; [by eapply node_ok_others|].
    destruct (im_pending _); simpl in *; [by eapply snapshot_fit_grows|done].
  - intros (Hd & F & Him). split; [done|]. exists F. by eapply image_ok_others.
Qed.

Lemma set_host_inv G G' σ i h0 h o :
  deployment_inv G σ -> hosts σ !! i = Some h0 -> grows i G G' -> history_ok c G' ->
  host_ok G' i h -> Forall (output_ok c G' i) o -> deployment_inv G' (set_host σ i h o).
Proof.
  intros [Hwf HG Hcf Hh Hrel] Hi Hgrow HG' Hok Ho. split; simpl; try done.
  - intros j x. destruct (decide (i = j)) as [<-|Hne]; [intros _; by eapply Hcf|].
    rewrite lookup_insert_ne by done. apply Hcf.
  - intros j x. destruct (decide (i = j)) as [<-|Hne].
    + rewrite lookup_insert_eq. by intros [= <-].
    + rewrite lookup_insert_ne by done. intros Hj. eapply host_ok_others; [done|done|by apply Hh].
  - intros j x [Hin|Hin]%elem_of_app; [by eapply output_ok_grows, Hrel|].
    apply list_elem_of_fmap in Hin as (y & [= -> ->] & Hin). by eapply Forall_forall in Ho.
Qed.

Lemma allowed_call G σ i (rt : DurableRaftNode D) ops :
  deployment_inv G σ -> allowed σ i (rt_node rt) ops -> call_allowed c i G rt ops.
Proof.
  intros Hinv (Ha & Hq & Hd). split_and!; [done|done|]. eapply Forall_impl; [exact Hd|].
  intros op Hop from m Hm. by apply (deployment_releases _ _ Hinv), Hop.
Qed.

(** A medium that can be salvaged belongs to a grown history. *)
Lemma salvaged_inv G σ i h0 d d' :
  deployment_inv G σ -> hosts σ !! i = Some h0 -> leaves d (salvageable c i G) -> reopens d d' ->
  exists G', grows i G G' /\ deployment_inv G' (set_host σ i (Down d') []).
Proof.
  intros Hinv Hi Hl Hr. destruct (Hl d' Hr) as (Hd' & G1 & F & Hgrow & HG1 & Him). exists G1. split; [done|].
  eapply set_host_inv; try done. split; [done|by exists F].
Qed.

Lemma deployment_step_inv G σ σ' :
  deployment_inv G σ -> deployment_step σ σ' ->
  exists i G', grows i G G' /\ deployment_inv G' σ'.
Proof.
  intros Hinv Hstep. pose proof (deployment_history _ _ Hinv) as HG.
  assert (forall i h, hosts σ !! i = Some h -> host_ok G i h) as Hhosts by apply Hinv.
  destruct Hstep as [i rt call rt' o Hi Ha Hrun|i rt call rt' e d Hi Ha Hrun Hr|i rt call rt' retired Hi Hrun
    |i rt call rt' e d Hi Hrun Hr|i rt d Hi Hr|i d applied d' rt o Hi Hrun|i d applied d' e d'' Hi Hrun Hr];
    exists i; specialize (Hhosts _ _ Hi).
  - destruct Hhosts as [L Hlive].
    destruct (runtime_call_ok c i G L rt HG Hlive call rt' (Ok o) (allowed_call _ _ _ _ _ Hinv Ha) Hrun)
      as (G' & L' & Hgrow & HG' & Hlive' & _ & _ & Ho & _).
    exists G'. split; [done|]. eapply set_host_inv; try done. by exists L'.
  - destruct Hhosts as [L Hlive].
    pose proof (runtime_call_ok c i G L rt HG Hlive call rt' (Err e) (allowed_call _ _ _ _ _ Hinv Ha) Hrun) as Hl.
    exact (salvaged_inv _ _ _ _ _ _ Hinv Hi Hl Hr).
  - destruct Hhosts as [L Hlive].
    pose proof (runtime_compact_ok c i G L rt call rt' (Ok retired) HG Hlive Hrun) as Hlive'.
    exists G. split; [apply grows_refl|]. eapply set_host_inv; try done; [apply grows_refl|by exists L].
  - destruct Hhosts as [L Hlive].
    destruct (runtime_compact_ok c i G L rt call rt' (Err e) HG Hlive Hrun) as [->|Hl];
      [|exact (salvaged_inv _ _ _ _ _ _ Hinv Hi Hl Hr)].
    eapply salvaged_inv; [done|done| |done]. apply healthy_leaves; [apply Hlive|]. exists G, L.
    split_and!; [apply grows_refl|done|]. eapply linked_image; apply Hlive.
  - destruct Hhosts as [L Hlive]. eapply salvaged_inv; [done|done| |done]. apply healthy_leaves; [apply Hlive|].
    exists G, L. split_and!; [apply grows_refl|done|]. eapply linked_image; apply Hlive.
  - destruct Hhosts as (Hd & F & Him). destruct (deployment_configs _ _ Hinv i _ Hi) as [Hid Hst].
    eapply (recover_ok c G i HG (deployment_wf _ _ Hinv) (configs i) Hst Hid d F) in Hrun; [|done..].
    destruct Hrun as (F' & Hlive & _ & _ & _ & Ho). exists G. split; [apply grows_refl|].
    eapply set_host_inv; try done; [apply grows_refl|by exists F'].
  - destruct Hhosts as (Hd & F & Him). destruct (deployment_configs _ _ Hinv i _ Hi) as [Hid Hst].
    eapply (recover_ok c G i HG (deployment_wf _ _ Hinv) (configs i) Hst Hid d F) in Hrun; [|done..].
    eapply salvaged_inv; [done|done| |done]. intros x Hx. destruct (Hrun x Hx) as (Hx' & F' & ?). split; [done|]. exists G, F'.
    split_and!; [apply grows_refl|done|done].
Qed.

Lemma deployment_steps_inv σ σ' :
  rtc deployment_step σ σ' -> forall G, deployment_inv G σ ->
  exists G', later G G' /\ deployment_inv G' σ'.
Proof.
  induction 1 as [|σ1 σ2 σ3 H1 H2 IH]; intros G Hinv; [exists G; split; [apply rtc_refl|done]|].
  destruct (deployment_step_inv _ _ _ Hinv H1) as (i & G1 & Hl1 & Hinv1).
  destruct (IH _ Hinv1) as (G2 & Hl2 & Hinv2). exists G2. split; [|done].
  eapply rtc_l; [by exists i|done].
Qed.

Lemma deployment_moments σ0 σ1 σ2 :
  deployed σ0 -> rtc deployment_step σ0 σ1 -> rtc deployment_step σ1 σ2 ->
  exists G1 G2, later G1 G2 /\ deployment_inv G1 σ1 /\ deployment_inv G2 σ2.
Proof.
  intros H0 H1 H2. destruct (deployment_steps_inv _ _ H1 _ (deployed_inv _ H0)) as (G1 & _ & Hinv1).
  destruct (deployment_steps_inv _ _ H2 _ Hinv1) as (G2 & Hl & Hinv2). by exists G1, G2.
Qed.

(** ** Safety over failing stores *)

Lemma released_dispatched G σ i o k e :
  deployment_inv G σ -> (i, o) ∈ releases σ -> dispatched_entry o = Some (k, e) -> dispatched_ok c G k e.
Proof.
  intros Hinv Hin Hd. pose proof (deployment_releases _ _ Hinv i o Hin) as Ht.
  destruct o; try done; simpl in *; by injection Hd as <- <-.
Qed.

(** Two dispatches at one index. *)
Lemma deployments_agree σ0 σ i j o1 o2 k e1 e2 :
  deployed σ0 -> rtc deployment_step σ0 σ ->
  (i, o1) ∈ releases σ -> dispatched_entry o1 = Some (k, e1) ->
  (j, o2) ∈ releases σ -> dispatched_entry o2 = Some (k, e2) -> e1 = e2.
Proof.
  intros H0 H1 Ho1 Hd1 Ho2 Hd2.
  destruct (deployment_steps_inv _ _ H1 _ (deployed_inv _ H0)) as (G & _ & Hinv).
  destruct (released_dispatched _ _ _ _ _ _ Hinv Ho1 Hd1) as (P1 & T1 & Hc1 & _ & He1).
  destruct (released_dispatched _ _ _ _ _ _ Hinv Ho2 Hd2) as (P2 & T2 & Hc2 & _ & He2).
  exact (committed_agree c G (deployment_history _ _ Hinv) _ _ _ _ _ _ _ Hc1 Hc2 He1 He2).
Qed.

(** The reign of a running leader. *)
Lemma running_reign G σ i rt :
  deployment_inv G σ -> hosts σ !! i = Some (Running rt) -> role (volatile (rt_node rt)) = Leader ->
  exists r, reigns G !! current_term (persistent (rt_node rt)) = Some r /\ r_leader r = i.
Proof.
  intros Hinv Hi Hl. destruct (deployment_hosts _ _ Hinv i _ Hi) as [L Hlive].
  destruct (node_leader _ _ _ _ _ (live_node _ _ _ _ _ Hlive) Hl) as ((r & Hr & Hlr & _) & _). by exists r.
Qed.

(** Two leaders of one term. *)
Lemma deployments_one_leader σ0 σ1 σ2 i j rt1 rt2 :
  deployed σ0 -> rtc deployment_step σ0 σ1 -> rtc deployment_step σ1 σ2 ->
  hosts σ1 !! i = Some (Running rt1) -> role (volatile (rt_node rt1)) = Leader ->
  hosts σ2 !! j = Some (Running rt2) -> role (volatile (rt_node rt2)) = Leader ->
  current_term (persistent (rt_node rt1)) = current_term (persistent (rt_node rt2)) -> i = j.
Proof.
  intros H0 H1 H2 Hi Hli Hj Hlj Ht.
  destruct (deployment_moments _ _ _ H0 H1 H2) as (G1 & G2 & Hl & Hinv1 & Hinv2).
  destruct (leads_later _ _ _ _ Hl (running_reign _ _ _ _ Hinv1 Hi Hli)) as (r & Hr & <-).
  destruct (running_reign _ _ _ _ Hinv2 Hj Hlj) as (r' & Hr' & <-). rewrite <- Ht in Hr'. congruence.
Qed.

(** C1: with durable runtimes over stores that may fail at any write, crashes
    at any point and recoveries that may themselves fail, any two nodes hand the
    same entry to their applications at a given index. *)
Theorem durable_state_machine_safety σ0 σ i j o1 o2 k e1 e2 :
  deployed σ0 -> rtc deployment_step σ0 σ ->
  (i, o1) ∈ releases σ -> dispatched_entry o1 = Some (k, e1) ->
  (j, o2) ∈ releases σ -> dispatched_entry o2 = Some (k, e2) -> e1 = e2.
Proof. apply deployments_agree. Qed.

(** C2: under the same failures at most one running node is ever leader in any
    given term, whether the two leaders are compared at one time or at two: no
    failed write or crash makes a node forget a vote it has released. *)
Theorem durable_election_safety σ0 σ1 σ2 i j rt1 rt2 :
  deployed σ0 -> rtc deployment_step σ0 σ1 -> rtc deployment_step σ1 σ2 ->
  hosts σ1 !! i = Some (Running rt1) -> role (volatile (rt_node rt1)) = Leader ->
  hosts σ2 !! j = Some (Running rt2) -> role (volatile (rt_node rt2)) = Leader ->
  current_term (persistent (rt_node rt1)) = current_term (persistent (rt_node rt2)) -> i = j.
Proof. apply deployments_one_leader. Qed.
End cluster.
