(* ===== verification/RestartTotal.v ===== *)
(** * Restart gives the node back

    What a released step has made durable, and that a crashed runtime recovers
    with the term, vote, snapshot and log it had, without writing anything. *)

From stdpp Require Import base list sorting numbers option sets gmap relations.
From S2P Require Import Prelude.
From S2P Require Import Types.
From S2P Require Import Snapshot.
From S2P Require Import Message.
From S2P Require Import Membership.
From S2P Require Import Config.
From S2P Require Import NodeState.
From S2P Require Import Log.
From S2P Require Import View.
From S2P Require Import Commit.
From S2P Require Import SnapshotTransfer.
From S2P Require Import Bootstrap.
From S2P Require Import Spec.
From S2P Require Import Abstraction.
From S2P Require Import RefineReceive.
From S2P Require Import Refinement.
From S2P Require Import Safety.
From S2P Require Import Drain.
From S2P Require Import Reigns.
From S2P Require Import Consensus.
From S2P Require Import Recovery.
From S2P Require Import Cluster.
From S2P Require Import Stores.
From S2P Require Import Runtime.
From S2P Require Import SnapshotFlow.
From S2P Require Import Durability.
From S2P Require Import Persistence.
From S2P Require Import Fence.
From S2P Require Import RuntimeStep.
From S2P Require Import Restart.
From S2P Require Import RuntimeCluster.

#[local] Opaque image.

(** ** Validation accepts what a node stores *)

(** What construction checks and the cluster's invariant does not say: no
    configuration has been committed, and the snapshot's author and hard-state
    term are acceptable. *)
Record restorable (cfg : NodeConfig) (hard : RaftHardState) (snapshot : option RaftSnapshot) : Prop := {
  restorable_vote : forall v, hs_voted_for hard = Some v -> hs_current_term hard <> 0;
  restorable_configuration : hs_committed_configuration hard = None;
  restorable_snapshot : forall s, snapshot = Some s ->
    hard_state_term (metadata s) <= hs_current_term hard /\
    snapshot_writer_is_replica (metadata s) cfg = true /\
    metadata_committed_configuration_state (metadata s) = None;
}.

Lemma accept_all_total meta current log : forall first v,
  lv_expected_index v = first -> metadata_index meta < first ->
  first + length_u64 log < u64_modulus ->
  Forall (fun e => 0 < entry_term e <= current) log ->
  exists v', accept_all meta current None v (indexed first log) = Ok v' /\
    lv_last_log_index v' = if (length log =? 0)%nat then lv_last_log_index v
                           else first + length_u64 log - 1.
Proof.
  induction log as [|e log IH]; intros first v Hv Hlo Hb Ht; [by exists v|].
  apply Forall_cons in Ht as [He Ht]. rewrite indexed_cons. simpl.
  unfold length_u64 in Hb. simpl in Hb.
  unfold LogValidation_accept. simpl. destruct (N.ltb_spec first (metadata_index meta)); [lia|].
  destruct (N.eqb_spec first (metadata_index meta)); [lia|].
  match goal with |- exists v', (match ?m with Ok _ => _ | Err _ => _ end) = Ok v' /\ _ =>
    replace m with (retain_entry current v {| ble_index := first; ble_term := entry_term e;
                                              ble_kind := entry_kind e |}) by (by destruct meta) end.
  unfold retain_entry, validate_retained_entry. simpl. rewrite Hv, N.eqb_refl. simpl.
  unfold Term_is_zero. destruct (N.eqb_spec (entry_term e) 0); [lia|].
  destruct (N.ltb_spec current (entry_term e)); [lia|].
  unfold u64_checked_add. destruct (N.leb_spec (first + 1) u64_max); [|unfold u64_max, u64_modulus in *; lia].
  simpl. edestruct (IH (first + 1)) as (v' & -> & Hlast); [|..|exact Ht|].
  - simpl. apply u64_add_small. lia.
  - lia.
  - unfold length_u64. lia.
  - exists v'. split; [done|]. rewrite Hlast. simpl. unfold length_u64. simpl.
    destruct log; simpl; lia.
Qed.

Section total.
Context {D : Type} `{!RaftHardStateStore D, !RaftLogSegment D, !RaftSnapshotStore D}.
Context `{!SnapshotChunkSource D, !StoreLaws D}.
Context (c : MembershipConfig) (G : History) (i : NodeId) (HG : history_ok c G).
Context (cfg : NodeConfig) (d : D) (F : list LogEntry).
Context (Hd : healthy d) (Him : image_ok c G i (image d) F).
Local Notation b := (boundary_of (im_snapshot (image d))).
Local Notation hard := (im_hard (image d)).

Lemma image_terms : Forall (fun e => 0 < entry_term e <= hs_current_term hard) F.
Proof using HG Him.
  apply Forall_lookup. intros k e He.
  pose proof (Forall_lookup_1 _ _ _ _ (img_terms _ _ _ _ _ Him) He) as Hle. simpl in Hle.
  destruct (img_sourced _ _ _ _ _ Him k e He) as (r & Hr & _).
  pose proof (reign_term _ _ _ _ (history_reigns _ _ HG _ _ Hr)). lia.
Qed.

Lemma image_last : im_last (image d) = N.of_nat (length F).
Proof using Him.
  pose proof (img_compacted _ _ _ _ _ Him). unfold im_last, length_u64.
  rewrite (img_log _ _ _ _ _ Him), length_drop. lia.
Qed.

Context (Hlen : (N.to_nat b <= length F)%nat).
Context (Hrest : restorable cfg hard (im_snapshot (image d))).

Lemma boundary_accepted v x e s :
  im_snapshot (image d) = Some s -> ble_index x = boundary s ->
  F !! (N.to_nat b - 1)%nat = Some e -> 0 < b -> ble_term x = entry_term e ->
  LogValidation_accept (Some (metadata s)) (hs_current_term hard) None v x = Ok v.
Proof using Him Hrest Hlen.
  intros Hs Hx He Hb Ht. unfold LogValidation_accept. simpl. rewrite Hx, N.ltb_irrefl, N.eqb_refl.
  destruct (img_snapshot _ _ _ _ _ Him) as [_ Hm]. rewrite Hs in Hm, Hlen, Hb, He.
  cbn [boundary_of] in Hlen, Hb, He. destruct Hm as [_ [Hlt|Hterm]]; [lia|].
  replace (N.to_nat (boundary s)) with (S (N.to_nat (boundary s) - 1)) in Hterm by lia.
  apply term_of_lookup in Hterm as (e' & He' & Hte'). rewrite He in He'. injection He' as <-.
  simpl in Hte'. destruct (N.eqb_spec (boundary s) 0); [lia|].
  unfold validate_boundary_entry. rewrite Ht, Hte', N.eqb_refl. simpl.
  unfold validate_boundary_configuration. simpl.
  destruct (restorable_snapshot _ _ _ Hrest s Hs) as (_ & _ & ->). done.
Qed.

Lemma validate_log_total : exists l,
  validate_log (metadata <$> im_snapshot (image d)) (hs_current_term hard) (hs_commit_index hard) None
    (bs_log (bootstrap_state d hard)) = Ok l.
Proof using HG Hd Him Hlen Hrest.
  pose proof (healthy_bound d Hd) as Hbound. rewrite image_last in Hbound.
  assert (metadata_index (metadata <$> im_snapshot (image d)) = b) as Hb
    by (by destruct (im_snapshot (image d))).
  set (m := metadata <$> im_snapshot (image d)) in *.
  destruct (accept_all_total m (hs_current_term hard) (drop (N.to_nat b) F) (b + 1) (LogValidation_new m))
    as (v & Hv & Hlast).
  - simpl. rewrite Hb. apply u64_add_small. unfold u64_max, u64_modulus in *. lia.
  - rewrite Hb. lia.
  - unfold length_u64. rewrite length_drop. unfold u64_max, u64_modulus in *. lia.
  - apply Forall_drop, image_terms.
  - assert (accept_all m (hs_current_term hard) None (LogValidation_new m)
      (bs_log (bootstrap_state d hard)) = Ok v) as Hall.
    { destruct (bootstrap_log c G i d F hard Hd Him Hlen) as [->|(s & x & e & Hs & Hx & He & Hpos & Hte & ->)];
        [done|]. simpl. unfold m. rewrite Hs. simpl.
      rewrite (boundary_accepted _ x e s Hs Hx He Hpos Hte). unfold m in Hv. by rewrite Hs in Hv. }
    unfold validate_log. rewrite Hall. simpl.
    assert (lv_last_log_index v = N.of_nat (length F)) as ->.
    { rewrite Hlast, length_drop. unfold length_u64. rewrite length_drop. simpl. rewrite Hb.
      destruct (Nat.eqb_spec (length F - N.to_nat b) 0); lia. }
    rewrite Hb. pose proof (img_commit _ _ _ _ _ Him).
    destruct (N.ltb_spec (N.of_nat (length F)) (N.max (hs_commit_index hard) b)); [lia|]. by eexists.
Qed.

Lemma from_bootstrap_total : exists n, from_bootstrap cfg (bootstrap_state d hard) = Ok n.
Proof using HG Hd Him Hlen Hrest.
  destruct validate_log_total as [l Hl]. unfold from_bootstrap, into_parts.
  assert (validate_vote (bootstrap_state d hard) = Ok tt) as ->.
  { unfold validate_vote. simpl. destruct (hs_voted_for hard) as [v|] eqn:Hv; [|done].
    pose proof (restorable_vote _ _ _ Hrest v Hv). unfold Term_is_zero.
    destruct (N.eqb_spec (hs_current_term hard) 0); done. }
  assert (validate_snapshot (bootstrap_state d hard) cfg = Ok tt) as ->.
  { unfold validate_snapshot. simpl. rewrite image_snapshot.
    destruct (im_snapshot (image d)) as [s|] eqn:Hs; [|done].
    destruct (restorable_snapshot _ _ _ Hrest s eq_refl) as (Ht & Hw & _). simpl.
    destruct (N.ltb_spec (hs_current_term hard) (hard_state_term (metadata s))); [lia|]. by rewrite Hw. }
  simpl. rewrite image_snapshot, (restorable_configuration _ _ _ Hrest). simpl in Hl. rewrite image_snapshot in Hl. rewrite Hl. simpl.
  assert (forall commit, exists r,
    recover_configuration None (metadata <$> im_snapshot (image d)) l commit = Ok r) as Hrec.
  { intros commit. unfold recover_configuration. destruct (im_snapshot (image d)) as [s|] eqn:Hs; simpl.
    - destruct (restorable_snapshot _ _ _ Hrest s eq_refl) as (_ & _ & ->). by eexists.
    - by eexists. }
  destruct (Hrec (N.max (hs_commit_index hard)
    (metadata_index (metadata <$> im_snapshot (image d))))) as [r Hr].
  rewrite Hr. simpl. by eexists.
Qed.
End total.

(** ** Recovery of a running node *)

Section restart.
Context {D : Type} `{!RaftHardStateStore D, !RaftLogSegment D, !RaftSnapshotStore D}.
Context `{!SnapshotChunkSource D, !StoreLaws D}.
Context (c : MembershipConfig) (G : History) (i : NodeId) (HG : history_ok c G).
Context (Hwf : MembershipConfig_wf c).
Context (cfg : NodeConfig) (Hstatic : static_membership cfg = c).

(** The node is back: what it had persisted, with everything committed replayed. *)
Definition restored_from (n : Node) (hard : RaftHardState) (n' : Node) : Prop :=
  current_term (persistent n') = current_term (persistent n) /\
  voted_for (persistent n') = voted_for (persistent n) /\
  snapshot (persistent n') = snapshot (persistent n) /\
  log (persistent n') = log (persistent n) /\
  commit_index (volatile n') = N.max (hs_commit_index hard) (snapshot_index n) /\
  dispatched_index (volatile n') = commit_index (volatile n') /\
  role (volatile n') = Follower.

Lemma finish_compaction_idle (d : D) F :
  healthy d -> image_ok c G i (image d) F ->
  (N.to_nat (boundary_of (im_snapshot (image d))) <= length F)%nat ->
  finish_compaction d = (d, Ok tt).
Proof using.
  intros Hd Him Hlen. unfold finish_compaction.
  rewrite image_snapshot, image_compacted, healthy_next by done.
  destruct (img_snapshot _ _ _ _ _ Him) as [Hk _].
  destruct (N.ltb_spec (boundary_of (im_snapshot (image d))) (im_compacted (image d))); [lia|].
  rewrite (image_last c G i d F Him).
  destruct (N.leb_spec (N.of_nat (length F) + 1) (boundary_of (im_snapshot (image d)))); [lia|].
  by rewrite andb_false_r.
Qed.

Lemma recover_live (rt : DurableRaftNode D) L d applied :
  live_ok c i G rt L -> reopens (rt_stores rt) d ->
  current_pending_snapshot_transfer d = None ->
  restorable cfg (hard_state_current d) (current_snapshot d) ->
  applied <= N.max (hs_commit_index (hard_state_current d)) (snapshot_index (rt_node rt)) ->
  exists rt' o,
    recover_with_storage_and_snapshot_store_applied_through cfg d applied = (d, Ok (rt', o)) /\
    restored_from (rt_node rt) (hard_state_current d) (rt_node rt').
Proof using HG Hwf Hstatic.
  intros Hlive Hr Hp Hrest Happ. rewrite image_pending in Hp. rewrite image_hard, image_snapshot in *.
  pose proof (reopen_healthy _ _ (live_healthy _ _ _ _ _ Hlive) Hr) as Hd.
  pose proof (reopen_same _ _ (live_healthy _ _ _ _ _ Hlive) Hr) as Himg.
  pose proof (live_good _ _ _ _ _ Hlive) as Hg. pose proof (live_node _ _ _ _ _ Hlive) as Hok.
  pose proof (live_linked _ _ _ _ _ Hlive) as Hl.
  pose proof (linked_image c G i _ L Hg Hok _ Hl (live_pending _ _ _ _ _ Hlive)) as Him.
  rewrite <- Himg in Hl, Him.
  assert (boundary_of (im_snapshot (image d)) = snapshot_index (rt_node rt)) as Hb
    by (by rewrite (linked_snapshot _ _ _ Hl)).
  destruct (node_bounds c G i _ L Hg Hok) as (Hbc & Hcl & _).
  assert (N.to_nat (boundary_of (im_snapshot (image d))) <= length L)%nat as Hlen by lia.
  destruct (from_bootstrap_total c G i HG cfg d L Hd Him Hlen Hrest) as [n0 Hn0].
  assert (exists n, from_bootstrap_applied_through cfg (bootstrap_state d (im_hard (image d))) applied = Ok n)
    as [n Hn].
  { set (n1 := n0 <| volatile ; dispatched_index := N.max (dispatched_index (volatile n0)) 0 |>).
    assert (from_bootstrap_applied_through cfg (bootstrap_state d (im_hard (image d))) 0 = Ok n1) as H0.
    { unfold from_bootstrap_applied_through. rewrite Hn0. simpl.
      destruct (N.ltb_spec (last_log_index n0) 0); [lia|].
      destruct (N.ltb_spec (commit_index (volatile n0)) 0); [lia|done]. }
    apply (from_bootstrap_hydrated c G i Hwf cfg Hstatic d L) in H0; [|done..].
    pose proof (hyd_commit _ _ _ _ H0) as Hc0. change (commit_index (volatile n1)) with
      (commit_index (volatile n0)) in Hc0. rewrite Hb in Hc0.
    pose proof (hyd_good _ _ _ _ H0) as [Hr0 Hinv0]. pose proof (inv_commit _ _ Hinv0) as Hcl0.
    change (commit_index (volatile n0) <= s_last (abs n1)) in Hcl0.
    pose proof (last_log_index_abs _ Hr0) as Hlast0.
    change (last_log_index n1) with (last_log_index n0) in Hlast0.
    unfold from_bootstrap_applied_through. rewrite Hn0. simpl.
    destruct (N.ltb_spec (last_log_index n0) applied); [lia|].
    destruct (N.ltb_spec (commit_index (volatile n0)) applied); [lia|]. by eexists. }
  pose proof (from_bootstrap_hydrated c G i Hwf cfg Hstatic d L applied n Hd Him Hlen Hn) as Hhyd.
  unfold recover_with_storage_and_snapshot_store_applied_through,
    with_storage_and_snapshot_store_applied_through, finish_staged_installation, resume_staged_transfer.
  rewrite image_pending, Hp, image_hard. cbn [and_then].
  rewrite (finish_compaction_idle d L Hd Him Hlen). cbn [and_then]. rewrite Hn.
  rewrite image_pending, Hp. cbn [and_then]. unfold runtime_drain_committed_outputs. simpl rt_node.
  destruct (drain_complete n (hyd_good _ _ _ _ Hhyd)) as (Hdd & Hdc & _).
  pose proof (emit_committed_persistent
    (N.to_nat (commit_index (volatile n) - dispatched_index (volatile n))) n) as Hpers.
  pose proof (emit_follower (N.to_nat (commit_index (volatile n) - dispatched_index (volatile n))) n
    (hyd_role _ _ _ _ Hhyd)) as Hrole.
  unfold drain_committed_outputs, emit_committed_outputs in *.
  destruct (emit_committed_loop _ n) as [n' o] eqn:Hloop. cbn [fst] in *.
  eexists _, _. split; [done|]. simpl rt_node. destruct Hhyd.
  unfold restored_from. rewrite Hpers, Hdc, Hdd.
  destruct (node_layout _ _ _ _ _ Hok) as [_ Hlog _]. simpl in Hlog.
  destruct Hl. split_and!; congruence.
Qed.
End restart.

Section deployment.
Context {D : Type} `{!RaftHardStateStore D, !RaftLogSegment D, !RaftSnapshotStore D}.
Context `{!SnapshotChunkSource D, !StoreLaws D}.
Context (c : MembershipConfig) (configs : NodeId -> NodeConfig).
Implicit Types (rt : DurableRaftNode D) (d : D).

(** The stores hold exactly what the node has. *)
Definition stores_hold (n : Node) (d : D) : Prop :=
  hard_state_current d = hard_state_for_node n /\
  current_snapshot d = snapshot (persistent n) /\
  filter_bool (fun e => snapshot_index n <? ple_index e) (replay_entries d) =
    stamp (snapshot_index n) (log (persistent n)) /\
  segment_next_index d = last_log_index n + 1.

Lemma live_stores_hold G i rt L :
  live_ok c i G rt L -> im_hard (image (rt_stores rt)) = hard_state_for_node (rt_node rt) ->
  stores_hold (rt_node rt) (rt_stores rt).
Proof.
  intros Hlive Hh. pose proof (live_good _ _ _ _ _ Hlive) as Hg.
  pose proof (live_node _ _ _ _ _ Hlive) as Hok. pose proof (live_linked _ _ _ _ _ Hlive) as Hl.
  pose proof (live_healthy _ _ _ _ _ Hlive) as Hd.
  pose proof (linked_image c G i _ L Hg Hok _ Hl (live_pending _ _ _ _ _ Hlive)) as Him.
  destruct (node_layout _ _ _ _ _ Hok) as [_ Hlog _]. simpl in Hlog.
  pose proof (linked_compacted _ _ _ Hl) as Hk.
  split_and!; [by rewrite image_hard|by rewrite image_snapshot, (linked_snapshot _ _ _ Hl)| |].
  - rewrite healthy_replay, filter_stamp, (linked_log _ _ _ Hl), drop_drop, Hlog by done.
    do 2 f_equal. lia.
  - rewrite healthy_next, (image_last c G i _ L Him) by done.
    rewrite (last_log_index_abs _ (proj1 Hg)), (layout_last _ _ (node_layout _ _ _ _ _ Hok)). done.
Qed.

(** C9: the outputs of a step are released only once its effects are durable:
    when a call succeeds, the stores hold the hard state, the snapshot and
    exactly the log of the stepped kernel, whatever failures came before. *)
Theorem release_is_durable σ0 σ i rt call rt' o :
  deployed c configs σ0 -> rtc (deployment_step c configs) σ0 σ ->
  hosts σ !! i = Some (Running rt) -> allowed c σ i (rt_node rt) (call_ops call) ->
  call <> CallProposals [] -> runtime_call rt call = (rt', Ok o) ->
  rt_node rt' = (perform_all (rt_node rt) (call_ops call)).1 /\
  o = resolve_snapshot_chunk_sends (rt_stores rt') (perform_all (rt_node rt) (call_ops call)).2 /\
  stores_hold (rt_node rt') (rt_stores rt').
Proof.
  intros H0 H1 Hi Ha Hne Hrun.
  destruct (deployment_steps_inv c configs _ _ H1 _ (deployed_inv _ _ _ H0)) as (G & _ & Hinv).
  destruct (deployment_hosts _ _ _ _ Hinv i _ Hi) as [L Hlive].
  destruct (runtime_call_ok c i G L rt (deployment_history _ _ _ _ Hinv) Hlive call rt' (Ok o)
    (allowed_call _ _ _ _ _ _ _ Hinv Ha) Hrun) as (G' & L' & _ & _ & Hlive' & Hn & Ho & _ & Hh).
  split_and!; [done|done|]. eapply live_stores_hold; [exact Hlive'|by apply Hh].
Qed.

End deployment.
