(* ===== verification/FaultyStores.v ===== *)
(** * Stores that fail on schedule

    The in-memory stores behind a script that makes single writes fail, before
    or after they take effect. A failed write closes the handles until the
    medium is reopened. They keep the promises of [StoreLaws], so what is proved
    of the runtime over failing stores is not vacuous. *)

From stdpp Require Import base strings list sorting numbers option sets.
From S2P Require Import Prelude.
From S2P Require Import Types.
From S2P Require Import Snapshot.
From S2P Require Import Stores.
From S2P Require Import MemoryStores.

Inductive Outcome := Succeeds | FailsBefore | FailsAfter.

Record FaultyStores := {
  fs_stores : MemoryStores;
  fs_script : list Outcome;
  fs_closed : bool;
}.

(** Stores that have never been written to. *)
Definition faulty_new (script : list Outcome) : FaultyStores :=
  {| fs_stores := MemoryStores_new; fs_script := script; fs_closed := false |}.

(** The medium of a node, reopened with another script. *)
Definition reopened (script : list Outcome) (d : FaultyStores) : FaultyStores :=
  {| fs_stores := fs_stores d; fs_script := script; fs_closed := false |}.

Definition attempt {A E} (error : E) (d : FaultyStores)
    (write : MemoryStores -> MemoryStores * result A E) : FaultyStores * result A E :=
  if fs_closed d then (d, Err error)
  else
    let '(m, r) := write (fs_stores d) in
    match fs_script d with
    | [] => ({| fs_stores := m; fs_script := []; fs_closed := false |}, r)
    | Succeeds :: script => ({| fs_stores := m; fs_script := script; fs_closed := false |}, r)
    | FailsBefore :: script =>
        ({| fs_stores := fs_stores d; fs_script := script; fs_closed := true |}, Err error)
    | FailsAfter :: script =>
        ({| fs_stores := m; fs_script := script; fs_closed := true |}, Err error)
    end.

#[export] Instance faulty_hard_state_store : RaftHardStateStore FaultyStores := {|
  persistence_domain d := persistence_domain (fs_stores d);
  write_hard_state d state :=
    attempt HardStateRequiresReopen d (fun m => write_hard_state m state);
  hard_state_current d := hard_state_current (fs_stores d);
|}.

#[export] Instance faulty_log_segment : RaftLogSegment FaultyStores := {|
  persist_batch d domain batch :=
    attempt BatchRequiresReopen d (fun m => persist_batch m domain batch);
  append_entries d entries := attempt AppendRequiresReopen d (fun m => append_entries m entries);
  truncate_suffix d from := attempt TruncateRequiresReopen d (fun m => truncate_suffix m from);
  compact_prefix_through d through :=
    attempt CompactRequiresReopen d (fun m => compact_prefix_through m through);
  replay_entries d := replay_entries (fs_stores d);
  segment_next_index d := segment_next_index (fs_stores d);
  compacted_through d := compacted_through (fs_stores d);
|}.

#[export] Instance faulty_snapshot_store : RaftSnapshotStore FaultyStores := {|
  write_snapshot d snapshot :=
    attempt SnapshotRequiresReopen d (fun m => write_snapshot m snapshot);
  write_snapshot_from_source d descriptor source :=
    attempt SnapshotRequiresReopen d (fun m => write_snapshot_from_source m descriptor source);
  current_snapshot d := current_snapshot (fs_stores d);
  stage_snapshot_chunk d chunk :=
    attempt SnapshotRequiresReopen d (fun m => stage_snapshot_chunk m chunk);
  promote_staged_snapshot d snapshot :=
    attempt SnapshotRequiresReopen d (fun m => promote_staged_snapshot m snapshot);
  clear_pending_snapshot_transfer d :=
    attempt SnapshotRequiresReopen d (fun m => clear_pending_snapshot_transfer m);
  current_pending_snapshot_transfer d := current_pending_snapshot_transfer (fs_stores d);
|}.

#[export] Instance faulty_chunk_source : SnapshotChunkSource FaultyStores := {|
  snapshot_chunk d request := snapshot_chunk (fs_stores d) request;
|}.

(** ** Laws *)

Definition faulty_healthy (d : FaultyStores) : Prop :=
  fs_closed d = false /\ memory_wf (fs_stores d).

Definition faulty_reopens (d d' : FaultyStores) : Prop :=
  fs_stores d' = fs_stores d /\ fs_closed d' = false /\ memory_wf (fs_stores d).

(** A scripted write keeps any promise that holds of the write, of no write, and
    of the write's effect without its success. *)
Lemma attempt_law {A E} (error : E) d d' (write : MemoryStores -> MemoryStores * result A E) r
    (PO : A -> Image -> Prop) (PE : Image -> Prop) :
  faulty_healthy d -> attempt error d write = (d', r) ->
  (forall m r, write (fs_stores d) = (m, r) ->
     match r with
     | Ok a => memory_wf m /\ PO a (image m)
     | Err _ => forall m', reopens m m' -> healthy m' /\ PE (image m')
     end) ->
  PE (image (fs_stores d)) -> (forall a im, PO a im -> PE im) ->
  match r with
  | Ok a => faulty_healthy d' /\ PO a (image d')
  | Err _ => forall d'', faulty_reopens d' d'' -> faulty_healthy d'' /\ PE (image d'')
  end.
Proof.
  intros [Hc Hwf] Hrun Hw Hsame Hdone. unfold attempt in Hrun. rewrite Hc in Hrun.
  destruct (write (fs_stores d)) as [m r0] eqn:Hm. specialize (Hw m r0 eq_refl).
  assert (forall d'', faulty_reopens {| fs_stores := fs_stores d; fs_script := []; fs_closed := true |} d'' ->
    faulty_healthy d'' /\ PE (image d'')) as Hbefore.
  { intros d'' (Heq & Hc' & Hwf'). split; [by split; [|rewrite Heq]|]. change (image d'') with (image (fs_stores d'')). by rewrite Heq. }
  assert (forall script b d'', faulty_reopens {| fs_stores := m; fs_script := script; fs_closed := b |} d'' ->
    faulty_healthy d'' /\ PE (image d'')) as Hafter.
  { intros script b d'' (Heq & Hc' & Hwf'). split; [by split; [|rewrite Heq]|]. change (image d'') with (image (fs_stores d'')). rewrite Heq.
    destruct r0 as [a|e]; [by eapply Hdone, Hw|]. by apply Hw. }
  destruct (fs_script d) as [|[] script]; injection Hrun as <- <-.
  - destruct r0 as [a|e]; [|by apply Hafter]. destruct Hw. by split.
  - destruct r0 as [a|e]; [|by apply Hafter]. destruct Hw. by split.
  - intros d'' Hr. by apply Hbefore.
  - by apply Hafter.
Qed.

#[export, program] Instance faulty_laws : StoreLaws FaultyStores := {|
  healthy := faulty_healthy;
  reopens := faulty_reopens;
|}.
Next Obligation. intros d d' _ (Heq & Hc & Hwf). split; [done|by rewrite Heq]. Qed.
Next Obligation.
  intros d d' _ (Heq & _ & _). change (image (fs_stores d') = image (fs_stores d)). by rewrite Heq.
Qed.
Next Obligation. intros d [_ Hd]. exact (healthy_replay (fs_stores d) Hd). Qed.
Next Obligation. intros d [_ Hd]. exact (healthy_next (fs_stores d) Hd). Qed.
Next Obligation. intros d [_ Hd]. exact (healthy_bound (fs_stores d) Hd). Qed.
Next Obligation.
  intros d hs d' r Hd Hrun.
  apply (attempt_law _ _ _ _ _ (fun _ im => im = (image d) <| im_hard := hs |>)
    (fun im => im = image d \/ im = (image d) <| im_hard := hs |>) Hd Hrun); [|by left|by right].
  intros m r0 Hm. exact (write_hard_state_law (fs_stores d) _ _ _ (proj2 Hd) Hm).
Qed.
Next Obligation.
  intros d entries d' r Hd Hrun.
  apply (attempt_law _ _ _ _ _ (fun _ im => im = (image d) <| im_log := im_log (image d) ++ entries |>)
    (fun im => exists k, im = (image d) <| im_log := im_log (image d) ++ take k entries |>) Hd Hrun).
  - intros m r0 Hm. exact (append_entries_law (fs_stores d) _ _ _ (proj2 Hd) Hm).
  - exists 0%nat. by rewrite app_nil_r.
  - intros _ im ->. exists (length entries). by rewrite take_ge.
Qed.
Next Obligation.
  intros d from d' r Hd Hrun.
  apply (attempt_law _ _ _ _ _ (fun _ im => im_compacted (image d) < from /\ im = im_truncate from (image d))
    (fun im => im = image d \/ (im_compacted (image d) < from /\ im = im_truncate from (image d))) Hd Hrun);
    [|by left|by right].
  intros m r0 Hm. exact (truncate_suffix_law (fs_stores d) _ _ _ (proj2 Hd) Hm).
Qed.
Next Obligation.
  intros d through d' r Hd Ht Hrun.
  apply (attempt_law _ _ _ _ _ (fun _ im => im = im_compact through (image d))
    (fun im => im = image d \/ im = im_compact through (image d)) Hd Hrun); [|by left|by right].
  intros m r0 Hm. exact (compact_prefix_through_law (fs_stores d) _ _ _ (proj2 Hd) Ht Hm).
Qed.
Next Obligation.
  intros d domain entries hard d' r Hd Hrun.
  pose proof (attempt_law _ _ _ _ _
    (fun receipt im => match receipt with
                       | None => im = image d
                       | Some _ => im = im_batch entries hard (image d)
                       end)
    (fun im => im = image d \/ im = im_batch entries hard (image d)) Hd Hrun) as Hlaw.
  destruct r as [[receipt|]|e]; apply Hlaw; try (by left); try (by intros [|] im ->; [right|left]).
  all: intros m [[x|]|e0] Hm; exact (persist_batch_law (fs_stores d) domain entries hard m _ (proj2 Hd) Hm).
Qed.
Next Obligation.
  intros d snapshot d' r Hd Hrun.
  set (descriptor := from_payload (prs_metadata snapshot) (prs_application_payload snapshot)).
  apply (attempt_law _ _ _ _ _
    (fun _ im => im = (image d) <| im_snapshot := Some descriptor |> <| im_pending := None |>)
    (fun im => exists s p, (s = im_snapshot (image d) \/ s = Some descriptor) /\
       (p = im_pending (image d) \/ p = None) /\
       im = (image d) <| im_snapshot := s |> <| im_pending := p |>) Hd Hrun).
  - intros m r0 Hm. exact (write_snapshot_law (fs_stores d) _ _ _ (proj2 Hd) Hm).
  - eexists _, _. split_and!; [by left|by left|done].
  - intros _ im ->. eexists _, _. split_and!; [by right|by right|done].
Qed.
Next Obligation.
  intros d descriptor source d' r Hd Hrun.
  apply (attempt_law _ _ _ _ _
    (fun _ im => im = (image d) <| im_snapshot := Some descriptor |> <| im_pending := None |>)
    (fun im => exists s p, (s = im_snapshot (image d) \/ s = Some descriptor) /\
       (p = im_pending (image d) \/ p = None) /\
       im = (image d) <| im_snapshot := s |> <| im_pending := p |>) Hd Hrun).
  - intros m r0 Hm. exact (write_snapshot_from_source_law (fs_stores d) _ _ _ _ (proj2 Hd) Hm).
  - eexists _, _. split_and!; [by left|by left|done].
  - intros _ im ->. eexists _, _. split_and!; [by right|by right|done].
Qed.
Next Obligation.
  intros d chunk d' r Hd Hrun.
  apply (attempt_law _ _ _ _ _
    (fun _ im => exists v, validate_staged_chunk chunk (im_pending (image d)) = Ok v /\
       im = (image d) <| im_pending := Some (pending_transfer_after_chunk chunk v) |>)
    (fun im => exists p, (p = im_pending (image d) \/ p = None \/
       exists v, validate_staged_chunk chunk (im_pending (image d)) = Ok v /\
                 p = Some (pending_transfer_after_chunk chunk v)) /\
       im = (image d) <| im_pending := p |>) Hd Hrun).
  - intros m r0 Hm. exact (stage_snapshot_chunk_law (fs_stores d) _ _ _ (proj2 Hd) Hm).
  - eexists. split; [by left|done].
  - intros _ im (v & Hv & ->). eexists. split; [right; right; by exists v|done].
Qed.
Next Obligation.
  intros d snapshot d' r Hd Hrun.
  apply (attempt_law _ _ _ _ _
    (fun _ im => validate_staged_promotion snapshot (im_pending (image d)) = Ok tt /\
       im = (image d) <| im_snapshot := Some snapshot |> <| im_pending := None |>)
    (fun im => exists s p,
       (s = im_snapshot (image d) \/
        validate_staged_promotion snapshot (im_pending (image d)) = Ok tt /\ s = Some snapshot) /\
       (p = im_pending (image d) \/ p = None) /\
       im = (image d) <| im_snapshot := s |> <| im_pending := p |>) Hd Hrun).
  - intros m r0 Hm. exact (promote_staged_snapshot_law (fs_stores d) _ _ _ (proj2 Hd) Hm).
  - eexists _, _. split_and!; [by left|by left|done].
  - intros _ im (Hv & ->). eexists _, _. split_and!; [right; by split|by right|done].
Qed.
Next Obligation.
  intros d d' r Hd Hrun.
  apply (attempt_law _ _ _ _ _ (fun _ im => im = (image d) <| im_pending := None |>)
    (fun im => im = image d \/ im = (image d) <| im_pending := None |>) Hd Hrun); [|by left|by right].
  intros m r0 Hm. exact (clear_pending_law (fs_stores d) _ _ (proj2 Hd) Hm).
Qed.
