(* ===== verification/RuntimeScenario.v ===== *)
(** * An execution over failing stores

    Schedules of calls, deliveries, crashes and recoveries of durable runtimes
    over the scripted stores, a check that a schedule is an execution of the
    deployment, and one of three nodes in which a vote's write fails after
    reaching the medium, a follower crashes and recovers, and a snapshot is
    taken, streamed and installed. The theorems about durable runtimes are
    applied to it, and a compaction that a restart refuses is run on it. *)

From stdpp Require Import base strings list sorting numbers option sets gmap relations.
From S2P Require Import Prelude.
From S2P Require Import Types.
From S2P Require Import Snapshot.
From S2P Require Import Message.
From S2P Require Import Membership.
From S2P Require Import Config.
From S2P Require Import NodeState.
From S2P Require Import Log.
From S2P Require Import View.
From S2P Require Import Bootstrap.
From S2P Require Import RefineElection.
From S2P Require Import RefineReceive.
From S2P Require Import RefineSnapshot.
From S2P Require Import Spec.
From S2P Require Import Refinement.
From S2P Require Import Safety.
From S2P Require Import Batch.
From S2P Require Import Consensus.
From S2P Require Import Cluster.
From S2P Require Import Scenario.
From S2P Require Import Stores.
From S2P Require Import MemoryStores.
From S2P Require Import FaultyStores.
From S2P Require Import Runtime.
From S2P Require Import RuntimeStep.
From S2P Require Import RuntimeErrors.
From S2P Require Import RuntimeCluster.
From S2P Require Import RestartTotal.

Abbreviation Faulty := (Deployment (D := FaultyStores)) (only parsing).

(** ** Checked inputs *)

Section checked.
Context {D : Type} `{!RaftHardStateStore D, !RaftLogSegment D, !RaftSnapshotStore D}.
Context `{!SnapshotChunkSource D, !StoreLaws D}.
Context (c : MembershipConfig).
Implicit Types (σ : Deployment (D := D)).

Definition arrival σ (position : nat) : option (NodeId * Input) :=
  match releases σ !! position with
  | Some (from, Send to m) => Some (to, InputMessage from m)
  | _ => None
  end.

Definition quiet_message (m : Message) : bool :=
  match m with
  | MAppendEntries request =>
      (ae_prev_log_index request + length_u64 (ae_entries request) + 1 <? u64_modulus)
      && forallb (fun e => negb (is_configuration (entry_kind e))) (ae_entries request)
  | MInstallSnapshot _ => false
  | MInstallSnapshotChunk request =>
      (last_included_index (isc_metadata request) + 1 <? u64_modulus)
      && bool_decide (metadata_committed_membership (isc_metadata request) ∈ [None; Some c])
  | _ => true
  end.

Definition quiet_input (input : Input) : bool :=
  match input with
  | Tick | ClientProposal _ => true
  | InputMessage _ m => quiet_message m
  | _ => false
  end.

Definition running_ok σ (i : NodeId) : bool :=
  match hosts σ !! i with
  | Some (Running rt) =>
      (snapshot_index (rt_node rt) + length_u64 (log (persistent (rt_node rt))) + 2 <? u64_modulus)
      && (heartbeat_sequence (leader (rt_node rt)) + 1 <? u64_modulus)
  | _ => false
  end.

Definition is_running σ (i : NodeId) : bool :=
  match hosts σ !! i with Some (Running _) => true | _ => false end.

Definition is_delivery (input : Input) : bool :=
  match input with InputMessage _ _ => true | _ => false end.

Lemma quiet_input_op input :
  MembershipConfig_wf c -> quiet_input input = true ->
  quiet_membership c (OpInput input) /\ op_wf (OpInput input) /\ op_appends (OpInput input) = 1.
Proof.
  intros Hc. destruct input as [|from m| | | | | | | | | | |]; simpl; try done; intros H.
  - split_and!; [|done|done]. by split; [|intros ?? [=]|intros ?? (? & ? & [=] & ?)|].
  - destruct m; simpl in H; try done; (split_and!; [|try done|done]);
      try (by split; [|intros ?? [=]|intros ?? (? & ? & [= <- <-] & [])|]).
    + apply andb_true_iff in H as [_ Hn]. apply no_configuration in Hn as [Hn _].
      by split; [|intros ?? [= <- <-]|intros ?? (? & ? & [= <- <-] & [])|].
    + apply andb_true_iff in H as [Hl%N.ltb_lt [_ Hw]%no_configuration]. by split.
    + apply andb_true_iff in H as [_ Hn%bool_decide_eq_true]. split; [done|by intros ?? [=]| |done].
      intros t x (? & ? & [= <- <-] & _ & <-). set_solver.
    + apply andb_true_iff in H as [Hl%N.ltb_lt Hn%bool_decide_eq_true]. split; [done|].
      apply elem_of_cons in Hn as [->|Hn]; [done|]. by apply list_elem_of_singleton in Hn as ->.
  - split_and!; [|done|done]. by split; [|intros ?? [=]|intros ?? (? & ? & [=] & ?)|].
Qed.

Lemma host_set σ i h o : hosts (set_host σ i h o) !! i = Some h.
Proof. simpl. apply lookup_insert_eq. Qed.

(** A checked input may be given. *)
Lemma checked_allowed σ i rt input :
  MembershipConfig_wf c -> hosts σ !! i = Some (Running rt) ->
  running_ok σ i = true -> quiet_input input = true ->
  (forall from m, input = InputMessage from m -> (from, Send i m) ∈ releases σ) ->
  allowed c σ i (rt_node rt) (call_ops (CallStep input)).
Proof.
  intros Hc Hi Hr Hq Hdel. unfold running_ok in Hr. rewrite Hi in Hr.
  apply andb_true_iff in Hr as [Hroom%N.ltb_lt Hcontact%N.ltb_lt].
  destruct (quiet_input_op input Hc Hq) as (Hqm & Hwf & Ha).
  split_and!; simpl.
  - split; [|done]. split; [done| |done|done|done]. unfold room. rewrite Ha. lia.
  - apply Forall_singleton. exact Hqm.
  - apply Forall_singleton. intros from m [= ->]. by apply Hdel.
Qed.
End checked.

(** ** Schedules *)

Inductive RuntimeEvent :=
| Act (i : NodeId) (input : Input)
| Arrive (position : nat)
| Snap (i : NodeId) (snapshot : PersistedRaftSnapshot)
| Crash (i : NodeId) (script : list Outcome)
| Start (i : NodeId) (applied : LogIndex).

Section schedule.
Context (c : MembershipConfig) (configs : NodeId -> NodeConfig).
Implicit Types (σ : Faulty).

Definition act σ (i : NodeId) (input : Input) : Faulty :=
  match hosts σ !! i with
  | Some (Running rt) =>
      match runtime_call rt (CallStep input) with
      | (rt', Ok o) => set_host σ i (Running rt') o
      | (rt', Err _) => set_host σ i (Down (reopened [] (rt_stores rt'))) []
      end
  | _ => σ
  end.

Definition runtime_event σ (e : RuntimeEvent) : Faulty :=
  match e with
  | Act i input => act σ i input
  | Arrive position =>
      match arrival σ position with Some (i, input) => act σ i input | None => σ end
  | Snap i snapshot =>
      match hosts σ !! i with
      | Some (Running rt) =>
          match runtime_compact rt (CompactPayload snapshot) with
          | (rt', Ok _) => set_host σ i (Running rt') []
          | (rt', Err _) => set_host σ i (Down (reopened [] (rt_stores rt'))) []
          end
      | _ => σ
      end
  | Crash i script =>
      match hosts σ !! i with
      | Some (Running rt) => set_host σ i (Down (reopened script (rt_stores rt))) []
      | _ => σ
      end
  | Start i applied =>
      match hosts σ !! i with
      | Some (Down d) =>
          match recover_with_storage_and_snapshot_store_applied_through (configs i) d applied with
          | (_, Ok (rt, o)) => set_host σ i (Running rt) o
          | (d', Err _) => set_host σ i (Down (reopened [] d')) []
          end
      | _ => σ
      end
  end.

Definition run_events σ (events : list RuntimeEvent) : Faulty := fold_left runtime_event events σ.

(** ** Checking a schedule *)

Definition memory_check (d : MemoryStores) : bool :=
  let entries := cle_entries (ml_entries (mem_log d)) in
  let compacted := ml_compacted_through (mem_log d) in
  (cle_first_index (ml_entries (mem_log d)) =? compacted + 1)
  && bool_decide (entries = stamp compacted (map unstamp entries))
  && (compacted + length_u64 entries <? u64_max)
  && match ms_pending (mem_snapshots d) with
     | Some staged => length_u64 (staged_bytes staged) =? pst_received_len (staged_transfer staged)
     | None => true
     end.

Definition down_ok σ (i : NodeId) : bool :=
  match hosts σ !! i with Some (Down d) => memory_check (fs_stores d) | _ => true end.

Definition runtime_event_ok σ (e : RuntimeEvent) : bool :=
  match e with
  | Act i input => running_ok σ i && quiet_input c input && negb (is_delivery input)
                   && down_ok (act σ i input) i
  | Arrive position =>
      match arrival σ position with
      | Some (i, input) => running_ok σ i && quiet_input c input && down_ok (act σ i input) i
      | None => false
      end
  | Snap i _ | Crash i _ => is_running σ i && down_ok (runtime_event σ e) i
  | Start i _ => negb (is_running σ i) && is_some (hosts σ !! i) && down_ok (runtime_event σ e) i
  end.

Fixpoint runtime_schedule_ok σ (events : list RuntimeEvent) : bool :=
  match events with
  | [] => true
  | e :: rest => runtime_event_ok σ e && runtime_schedule_ok (runtime_event σ e) rest
  end.

Lemma memory_check_wf d : memory_check d = true -> memory_wf d.
Proof.
  unfold memory_check. rewrite !andb_true_iff, N.eqb_eq, bool_decide_eq_true, N.ltb_lt.
  intros [[[Hf He] Hb] Hs]. split.
  - exists (map unstamp (cle_entries (ml_entries (mem_log d)))).
    unfold length_u64 in *. rewrite length_map. split; [|done]. rewrite <- He, <- Hf.
    by destruct (ml_entries (mem_log d)).
  - intros staged Hp. rewrite Hp in Hs. by apply N.eqb_eq.
Qed.

Lemma reopened_reopens script d : memory_check (fs_stores d) = true -> reopens d (reopened script d).
Proof. intros H%memory_check_wf. by split_and!. Qed.

(** A checked call is a step. *)
Lemma checked_act σ i input :
  MembershipConfig_wf c -> running_ok σ i = true -> quiet_input c input = true ->
  (forall from m, input = InputMessage from m -> (from, Send i m) ∈ releases σ) ->
  down_ok (act σ i input) i = true ->
  deployment_step c configs σ (act σ i input).
Proof.
  intros Hc Hr Hq Hdel Hdown. pose proof Hr as Hr'. unfold running_ok in Hr. unfold act in *.
  destruct (hosts σ !! i) as [[rt|d]|] eqn:Hi; try done.
  pose proof (checked_allowed c σ i rt input Hc Hi Hr' Hq Hdel) as Hallowed.
  destruct (runtime_call rt (CallStep input)) as [rt' [o|e]] eqn:Hrun.
  - by eapply ds_call.
  - eapply ds_call_failed; [done|done|exact Hrun|]. apply reopened_reopens.
    unfold down_ok in Hdown. rewrite host_set in Hdown. exact Hdown.
Qed.

Lemma runtime_event_step σ e :
  MembershipConfig_wf c -> runtime_event_ok σ e = true ->
  deployment_step c configs σ (runtime_event σ e).
Proof.
  intros Hc. destruct e as [i input|position|i snapshot|i script|i applied]; unfold runtime_event_ok.
  - rewrite !andb_true_iff, negb_true_iff. intros [[[Hr Hq] Hd] Hdown]. apply checked_act; try done.
    by intros from m ->.
  - unfold runtime_event. destruct (arrival σ position) as [[i input]|] eqn:Har; [|done].
    rewrite !andb_true_iff. intros [[Hr Hq] Hdown]. apply checked_act; try done.
    unfold arrival in Har. destruct (releases σ !! position) as [[from o]|] eqn:Hp; [|done].
    apply list_elem_of_lookup_2 in Hp. destruct o; simplify_eq. by intros ?? [= <- <-].
  - unfold is_running. rewrite andb_true_iff. cbn [runtime_event]. intros [Hr Hdown].
    destruct (hosts σ !! i) as [[rt|d]|] eqn:Hi; try done.
    destruct (runtime_compact rt (CompactPayload snapshot)) as [rt' [o|e]] eqn:Hrun; [by eapply ds_compact|].
    eapply ds_compact_failed; [done|exact Hrun|]. apply reopened_reopens.
    unfold down_ok in Hdown. by rewrite host_set in Hdown.
  - unfold is_running. rewrite andb_true_iff. simpl. intros [Hr Hdown].
    destruct (hosts σ !! i) as [[rt|d]|] eqn:Hi; try done. eapply ds_crash; [done|].
    apply reopened_reopens. unfold down_ok in Hdown. by rewrite host_set in Hdown.
  - unfold is_running. rewrite !andb_true_iff. simpl. intros [[Hr Hsome] Hdown].
    destruct (hosts σ !! i) as [[rt|d]|] eqn:Hi; try done.
    destruct (recover_with_storage_and_snapshot_store_applied_through _ _ _) as [d' [[rt o]|e]] eqn:Hrun.
    + by eapply ds_recover.
    + eapply ds_recover_failed; [done|exact Hrun|]. apply reopened_reopens.
      unfold down_ok in Hdown. by rewrite host_set in Hdown.
Qed.

Lemma runtime_schedule_steps events σ :
  MembershipConfig_wf c -> runtime_schedule_ok σ events = true ->
  rtc (deployment_step c configs) σ (run_events σ events).
Proof.
  intros Hc. revert σ. induction events as [|e events IH]; intros σ; [done|]. simpl.
  rewrite andb_true_iff. intros [He Hs]. eapply rtc_l; [by apply runtime_event_step|by apply IH].
Qed.
End schedule.

(** ** Three nodes *)

Definition quorum_configs (i : NodeId) : NodeConfig :=
  sample_config i (filter (fun j => j <> i) [1; 2; 3]).

(** Three fresh media; node 2's first write fails after reaching its medium. *)
Definition fleet : Faulty :=
  {| hosts := <[1 := Down (faulty_new [])]> (<[2 := Down (faulty_new [FailsAfter])]>
                (<[3 := Down (faulty_new [])]> ∅));
     releases := [] |}.

Definition run_ticks (i : NodeId) (k : nat) : list RuntimeEvent := replicate k (Act i Tick).

(** Node 1 is elected: the write of node 2's vote fails, node 2 restarts and the
    retried request gets the vote that is already on its medium. *)
Definition fleet_elects : list RuntimeEvent :=
  [Start 1 0; Start 2 0; Start 3 0] ++ run_ticks 1 3 ++
  [Arrive 0; Arrive 1; Arrive 2; Arrive 4; Start 2 0; Arrive 4; Arrive 6].

(** A command commits; node 2 crashes and recovers over stores that will fail. *)
Definition fleet_commits : list RuntimeEvent :=
  [Arrive 7; Arrive 9; Act 1 (ClientProposal [Byte.x07]); Arrive 10; Arrive 11] ++
  run_ticks 1 1 ++ [Crash 2 [FailsBefore]; Start 2 0].

Definition fleet_snapshot : PersistedRaftSnapshot :=
  {| prs_metadata := metadata trio_snapshot; prs_application_payload := [Byte.x01; Byte.x02] |}.

(** Node 1 compacts and streams its snapshot to node 3, node 2's append fails and
    is retried after a restart, node 1 restarts and node 2 is elected. *)
Definition fleet_continues : list RuntimeEvent :=
  [Snap 1 fleet_snapshot] ++ run_ticks 1 1 ++ [Arrive 16; Arrive 13; Start 2 0; Arrive 13] ++
  [Crash 1 []; Start 1 0] ++ run_ticks 3 3 ++ run_ticks 2 5 ++ [Arrive 25; Arrive 26; Arrive 28; Arrive 29].

Definition fleet_elected : Faulty := run_events quorum_configs fleet fleet_elects.
Definition fleet_committed : Faulty := run_events quorum_configs fleet_elected fleet_commits.
Definition fleet_final : Faulty := run_events quorum_configs fleet_committed fleet_continues.

Definition runtime_at (σ : Faulty) (i : NodeId) : option (DurableRaftNode FaultyStores) :=
  match hosts σ !! i with Some (Running rt) => Some rt | _ => None end.

Definition idle_runtime : DurableRaftNode FaultyStores :=
  {| rt_node := trio; rt_stores := faulty_new []; rt_persisted_tail := None;
     rt_fatal_error := None |}.

Definition first_leader : DurableRaftNode FaultyStores :=
  default idle_runtime (runtime_at fleet_elected 1).
Definition second_leader : DurableRaftNode FaultyStores :=
  default idle_runtime (runtime_at fleet_final 2).

(** Node 1 once it has compacted its log. *)
Definition fleet_compacted : Faulty :=
  run_events quorum_configs fleet_committed [Snap 1 fleet_snapshot].
Definition committed_leader : DurableRaftNode FaultyStores :=
  default idle_runtime (runtime_at fleet_committed 1).
Definition compacted_leader : DurableRaftNode FaultyStores :=
  default idle_runtime (runtime_at fleet_compacted 1).

Lemma fleet_wf : MembershipConfig_wf trio_membership.
Proof. vm_compute. split_and!; [done|repeat constructor..|set_solver]. Defined.

Lemma fleet_deployed : deployed trio_membership quorum_configs fleet.
Proof.
  split_and!; [exact fleet_wf|done|].
  intros i h. unfold fleet. simpl. rewrite !lookup_insert_Some, lookup_empty.
  intros [[<- <-]|[_ [[<- <-]|[_ [[<- <-]|[_ [=]]]]]]]; (split; [done|]); (split; [done|]);
    eexists; (split; [reflexivity|]); (split; [|done]); split; try done; apply memory_check_wf; done.
Defined.

Lemma fleet_elects_steps : rtc (deployment_step trio_membership quorum_configs) fleet fleet_elected.
Proof. apply runtime_schedule_steps; [exact fleet_wf|vm_compute; reflexivity]. Defined.

Lemma fleet_commits_steps :
  rtc (deployment_step trio_membership quorum_configs) fleet_elected fleet_committed.
Proof. apply runtime_schedule_steps; [exact fleet_wf|vm_compute; reflexivity]. Defined.

Lemma fleet_continues_steps :
  rtc (deployment_step trio_membership quorum_configs) fleet_committed fleet_final.
Proof. apply runtime_schedule_steps; [exact fleet_wf|vm_compute; reflexivity]. Defined.

Lemma fleet_compacted_steps :
  rtc (deployment_step trio_membership quorum_configs) fleet_committed fleet_compacted.
Proof. apply runtime_schedule_steps; [exact fleet_wf|vm_compute; reflexivity]. Defined.

Lemma first_leader_at : hosts fleet_elected !! 1 = Some (Running first_leader).
Proof. vm_compute. reflexivity. Defined.

Lemma compacted_leader_at : hosts fleet_compacted !! 1 = Some (Running compacted_leader).
Proof. vm_compute. reflexivity. Defined.

Lemma fleet_released position x :
  releases fleet_final !! position = Some x -> x ∈ releases fleet_final.
Proof. apply list_elem_of_lookup_2. Defined.

(** ** The theorems at this execution *)

(** Whatever any node hands to its application at index 2 is the command node 1
    applied, although node 2 was restarted over a medium its last write had
    failed to. *)
Lemma durable_state_machine_safety_witness :
  (1, Apply 2 1 [Byte.x07] None) ∈ releases fleet_final /\
  (2, Apply 2 1 [Byte.x07] None) ∈ releases fleet_final /\
  forall j o e, (j, o) ∈ releases fleet_final -> dispatched_entry o = Some (2, e) -> trio_command = e.
Proof.
  assert ((1, Apply 2 1 [Byte.x07] None) ∈ releases fleet_final) as Hin
    by (apply (fleet_released 12); vm_compute; reflexivity).
  split_and!; [exact Hin|apply (fleet_released 20); vm_compute; reflexivity|]. intros j o e Ho He.
  refine (durable_state_machine_safety trio_membership quorum_configs fleet fleet_final 1 j _ o 2 _ e
    fleet_deployed _ Hin eq_refl Ho He).
  etrans; [exact fleet_elects_steps|]. etrans; [exact fleet_commits_steps|exact fleet_continues_steps].
Defined.

(** No node but node 1 leads term 1 after the restarts. *)
Lemma durable_election_safety_witness :
  role (volatile (rt_node first_leader)) = Leader /\
  forall j rt, hosts fleet_final !! j = Some (Running rt) -> role (volatile (rt_node rt)) = Leader ->
    1 = current_term (persistent (rt_node rt)) -> 1 = j.
Proof.
  split; [vm_compute; reflexivity|]. intros j rt Hj Hl Ht.
  refine (durable_election_safety trio_membership quorum_configs fleet fleet_elected fleet_final 1 j
    first_leader rt fleet_deployed fleet_elects_steps _ first_leader_at _ Hj Hl _).
  - etrans; [exact fleet_commits_steps|exact fleet_continues_steps].
  - vm_compute. reflexivity.
  - rewrite <- Ht. vm_compute. reflexivity.
Defined.

(** Node 1 logs a command: what it sends is on its medium. *)
Definition logged : DurableRaftNode FaultyStores * result (list Output) RaftRuntimeError :=
  runtime_call first_leader (CallStep (ClientProposal [Byte.x07])).

Lemma release_is_durable_witness :
  stores_hold (rt_node logged.1) (rt_stores logged.1) /\
  length (log (persistent (rt_node logged.1))) = 2%nat.
Proof.
  split; [|vm_compute; reflexivity].
  refine (proj2 (proj2 (release_is_durable trio_membership quorum_configs fleet fleet_elected 1
    first_leader (CallStep (ClientProposal [Byte.x07])) logged.1
    (match logged.2 with Ok o => o | Err _ => [] end)
    fleet_deployed fleet_elects_steps first_leader_at _ _ _))).
  - apply checked_allowed; [exact fleet_wf|exact first_leader_at|vm_compute; reflexivity..|done].
  - done.
  - vm_compute. reflexivity.
Defined.


(** The first write of node 2, its vote, fails. *)
Definition vote_request : Input :=
  InputMessage 1 (MRequestVote {| rv_term := 1; rv_candidate_id := 1; rv_last_log_index := 0;
                                  rv_last_log_term := 0 |}).
Definition failing_voter : DurableRaftNode FaultyStores :=
  default idle_runtime (runtime_at (run_events quorum_configs fleet (take 9 fleet_elects)) 2).
Definition failed_vote : DurableRaftNode FaultyStores * result (list Output) RaftRuntimeError :=
  runtime_call failing_voter (CallStep vote_request).

Lemma failed_call_poisons_witness :
  (exists cause, rt_fatal_error failed_vote.1 = Some cause /\
     (forall later, later <> CallProposals [] ->
        runtime_call failed_vote.1 later = (failed_vote.1, Err (RtPoisoned cause))) /\
     (forall later, runtime_compact failed_vote.1 later = (failed_vote.1, Err (RtPoisoned cause)))) /\
  hs_voted_for (hard_state_current (rt_stores failed_vote.1)) = Some 1.
Proof.
  split; [|vm_compute; reflexivity].
  apply (failed_call_poisons failing_voter (CallStep vote_request) failed_vote.1
    (match failed_vote.2 with Err e => e | Ok _ => RtPoisoned (FatalLogPrefixDiverged 0) end)).
  vm_compute. reflexivity.
Defined.

(** ** A compaction that prevents the restart *)

(** A snapshot of the committed prefix whose metadata names a hard-state term
    above the node's. *)
Definition snapshot_ahead : PersistedRaftSnapshot :=
  {| prs_metadata :=
       {| group_id := {| group_id_str := [97] |}; writer_id := 1; last_included_index := 2;
          last_included_term := 1; hard_state_term := 9;
          application := {| app_kind := {| application_kind_str := [97] |};
                            app_version := {| application_version := 1 |} |};
          metadata_committed_configuration := None |};
     prs_application_payload := [Byte.x01; Byte.x02] |}.

Definition compacted_ahead : DurableRaftNode FaultyStores * result (list LogEntry) RaftRuntimeError :=
  runtime_compact committed_leader (CompactPayload snapshot_ahead).

