(* ===== verification/StorageFormat.v ===== *)
(** * Storage formats: hard state, log entries, markers and frames

    Models the version-1 artifacts of [crates/rafter-storage/src/format/]: the
    checksummed envelope ([envelope.rs]), hard state ([v1/hard_state.rs]), its
    journal ([v1/hard_state_journal.rs]), log entries ([v1/log_entry/codec.rs])
    and the compaction marker ([v1/log_compaction.rs]); and the outer frames of
    a log segment ([raft_log_segment/frames.rs]).

    The reader of [format/cursor.rs] has the fields and the reads of the reader
    of [Wire], which is used here at the error type of each artifact.  A writer
    is the vector of the bytes written so far. *)

From Stdlib Require Import Strings.Byte.
From stdpp Require Import base strings list sorting numbers option sets.
From S2P Require Import Prelude.
From S2P Require Import Types.
From S2P Require Import Crc32.
From S2P Require Import Snapshot.
From S2P Require Import Wire.
From S2P Require Import Stores.

(** ** Envelopes *)

Definition CHECKSUM_LEN : usize := 4.

Inductive ChecksumError :=
| Checksum_UnexpectedEof (needed remaining : usize)
| Checksum_Mismatch (expected actual : u32).

Definition finish_checksummed (writer : list u8) : list u8 :=
  let checksum := crc32 writer in
  writer ++ be_bytes 4 checksum.

Definition verify_checksum (input : list u8) : result (list u8) ChecksumError :=
  if length_u64 input <? CHECKSUM_LEN
  then Err (Checksum_UnexpectedEof CHECKSUM_LEN (length_u64 input))
  else
    let checksum_offset := length_u64 input - CHECKSUM_LEN in
    let body := take (N.to_nat checksum_offset) input in
    let checksum := drop (N.to_nat checksum_offset) input in
    let expected := from_be checksum in
    let actual := crc32 body in
    if expected =? actual then Ok body else Err (Checksum_Mismatch expected actual).

(** [From<ChecksumError>] of an artifact's decoding error. *)
Class FromChecksum (E : Type) := from_checksum : ChecksumError -> E.

(** The common course of an artifact's decoder: check and drop the checksum,
    read the fields, and require that nothing is left. *)
Definition decode_checked {E A} `{!ReaderError E, !FromChecksum E} (fields : rdec E A)
    (envelope : list u8) : result A E :=
  let? body := map_err from_checksum (verify_checksum envelope) in
  let? (value, reader) := fields (Reader_new body) in
  let? _ := finish reader in
  Ok value.

(** Magic and version, the first fields of every artifact. *)
Definition expect_header {E} `{!ReaderError E} (expected_magic : list u8) (expected_version : u8)
    (invalid_magic : list u8 -> E) (unsupported_version : u8 -> E) : rdec E unit :=
  let! magic := array_4 in
  if negb (bool_decide (magic = expected_magic)) then dec_fail (invalid_magic magic)
  else
    let! version := read_u8 in
    if negb (bool_decide (version = expected_version)) then dec_fail (unsupported_version version)
    else dec_ret tt.

(** ** Hard state *)

(** [*b"RFHS"] *)
Definition RAFT_HARD_STATE_MAGIC : list u8 := [x52; x46; x48; x53].
Definition RAFT_HARD_STATE_VERSION : u8 := x01.

Inductive DecodeRaftHardStateError :=
| HardState_UnexpectedEof (needed remaining : usize)
| HardState_InvalidMagic (magic : list u8)
| HardState_UnsupportedVersion (version : u8)
| HardState_InvalidVotedForFlag (flag : u8)
| HardState_NonCanonicalAbsentVotedFor (node_id : NodeId)
| HardState_InvalidCommittedConfigurationFlag (flag : u8)
| HardState_NonCanonicalAbsentCommittedConfiguration (index : LogIndex) (config_id : ConfigurationId)
| HardState_ChecksumMismatch (expected actual : u32)
| HardState_TrailingBytes (remaining : usize).

#[export] Instance hard_state_reader_error : ReaderError DecodeRaftHardStateError := {|
  eof := HardState_UnexpectedEof;
  trailing := HardState_TrailingBytes;
|}.

#[export] Instance hard_state_from_checksum : FromChecksum DecodeRaftHardStateError := fun error =>
  match error with
  | Checksum_UnexpectedEof needed remaining => HardState_UnexpectedEof needed remaining
  | Checksum_Mismatch expected actual => HardState_ChecksumMismatch expected actual
  end.

Definition encode_raft_hard_state (state : RaftHardState) : list u8 :=
  finish_checksummed (
    RAFT_HARD_STATE_MAGIC ++ [RAFT_HARD_STATE_VERSION] ++
    be_bytes 8 (hs_current_term state) ++
    match hs_voted_for state with
    | Some node_id => [x01] ++ be_bytes 8 node_id
    | None => [x00] ++ be_bytes 8 0
    end ++
    be_bytes 8 (hs_commit_index state) ++
    match hs_committed_configuration state with
    | Some committed_configuration =>
        [x01] ++ be_bytes 8 (cc_index committed_configuration)
        ++ be_bytes 8 (cc_config_id committed_configuration)
    | None => [x00] ++ be_bytes 8 0 ++ be_bytes 8 0
    end).

Definition read_voted_for : rdec DecodeRaftHardStateError (option NodeId) :=
  let! flag := read_u8 in
  match flag with
  | x00 =>
      let! node_id := read_u64 in
      if negb (node_id =? 0) then dec_fail (HardState_NonCanonicalAbsentVotedFor node_id)
      else dec_ret None
  | x01 => let! node_id := read_u64 in dec_ret (Some node_id)
  | flag => dec_fail (HardState_InvalidVotedForFlag flag)
  end.

Definition read_committed_configuration
  : rdec DecodeRaftHardStateError (option CommittedConfiguration) :=
  let! flag := read_u8 in
  match flag with
  | x00 =>
      let! index := read_u64 in
      let! config_id := read_u64 in
      if negb (index =? 0) || negb (config_id =? 0)
      then dec_fail (HardState_NonCanonicalAbsentCommittedConfiguration index config_id)
      else dec_ret None
  | x01 =>
      let! index := read_u64 in
      let! config_id := read_u64 in
      dec_ret (Some {| cc_index := index; cc_config_id := config_id |})
  | flag => dec_fail (HardState_InvalidCommittedConfigurationFlag flag)
  end.

Definition read_hard_state : rdec DecodeRaftHardStateError RaftHardState :=
  let! _ := expect_header RAFT_HARD_STATE_MAGIC RAFT_HARD_STATE_VERSION
              HardState_InvalidMagic HardState_UnsupportedVersion in
  let! current_term := read_u64 in
  let! voted_for := read_voted_for in
  let! commit_index := read_u64 in
  let! committed_configuration := read_committed_configuration in
  dec_ret {| hs_current_term := current_term; hs_voted_for := voted_for;
             hs_commit_index := commit_index;
             hs_committed_configuration := committed_configuration |}.

Definition decode_raft_hard_state (envelope : list u8)
  : result RaftHardState DecodeRaftHardStateError :=
  decode_checked read_hard_state envelope.

(** ** The hard-state journal *)

Definition HEADER_LEN : usize := 9.
Definition RECORD_LEN : usize := 51.

(** [b"RFHJ\x01"] *)
Definition JOURNAL_PREFIX : list u8 := [x52; x46; x48; x4a; x01].

Definition journal_header : list u8 := JOURNAL_PREFIX ++ be_bytes 4 (crc32 JOURNAL_PREFIX).

Definition decode_record (bytes : list u8) : result RaftHardState DecodeRaftHardStateError :=
  decode_raft_hard_state bytes.

(** ** Compaction markers *)

(** [*b"RFLC"] *)
Definition RAFT_LOG_COMPACTION_MAGIC : list u8 := [x52; x46; x4c; x43].
Definition RAFT_LOG_COMPACTION_VERSION : u8 := x01.

Inductive DecodeRaftLogCompactionMarkerError :=
| Marker_UnexpectedEof (needed remaining : usize)
| Marker_InvalidMagic (magic : list u8)
| Marker_UnsupportedVersion (version : u8)
| Marker_CompactedThroughAtMaximum
| Marker_ChecksumMismatch (expected actual : u32)
| Marker_TrailingBytes (remaining : usize).

#[export] Instance marker_reader_error : ReaderError DecodeRaftLogCompactionMarkerError := {|
  eof := Marker_UnexpectedEof;
  trailing := Marker_TrailingBytes;
|}.

#[export] Instance marker_from_checksum : FromChecksum DecodeRaftLogCompactionMarkerError := fun error =>
  match error with
  | Checksum_UnexpectedEof needed remaining => Marker_UnexpectedEof needed remaining
  | Checksum_Mismatch expected actual => Marker_ChecksumMismatch expected actual
  end.

Definition encode_raft_log_compaction_marker (compacted_through : LogIndex) : list u8 :=
  finish_checksummed (
    RAFT_LOG_COMPACTION_MAGIC ++ [RAFT_LOG_COMPACTION_VERSION] ++ be_bytes 8 compacted_through).

Definition read_compacted_through : rdec DecodeRaftLogCompactionMarkerError LogIndex :=
  let! _ := expect_header RAFT_LOG_COMPACTION_MAGIC RAFT_LOG_COMPACTION_VERSION
              Marker_InvalidMagic Marker_UnsupportedVersion in
  let! raw := read_u64 in
  match advanceable_log_index raw with
  | Some compacted_through => dec_ret compacted_through
  | None => dec_fail Marker_CompactedThroughAtMaximum
  end.

Definition decode_raft_log_compaction_marker (input : list u8)
  : result LogIndex DecodeRaftLogCompactionMarkerError :=
  decode_checked read_compacted_through input.

(** ** Log entries *)

(** [*b"RFLE"] *)
Definition RAFT_LOG_ENTRY_MAGIC : list u8 := [x52; x46; x4c; x45].
Definition RAFT_LOG_ENTRY_VERSION : u8 := x01.

Definition RAFT_LOG_ENTRY_KIND_APPLICATION : u8 := x00.
Definition RAFT_LOG_ENTRY_KIND_STABLE_CONFIGURATION : u8 := x01.
Definition RAFT_LOG_ENTRY_KIND_JOINT_CONFIGURATION : u8 := x02.
Definition RAFT_LOG_ENTRY_KIND_NOOP : u8 := x03.

Inductive DecodeRaftLogEntryError :=
| Entry_UnexpectedEof (needed remaining : usize)
| Entry_InvalidMagic (magic : list u8)
| Entry_UnsupportedVersion (version : u8)
| Entry_UnknownEntryKind (kind : u8)
| Entry_IndexAtMaximum
| Entry_InvalidMembership (error : MembershipValidationError)
| Entry_NonCanonicalMembershipOrder (member_kind : string) (previous actual : NodeId)
| Entry_ChecksumMismatch (expected actual : u32)
| Entry_TrailingBytes (remaining : usize).

#[export] Instance entry_reader_error : ReaderError DecodeRaftLogEntryError := {|
  eof := Entry_UnexpectedEof;
  trailing := Entry_TrailingBytes;
|}.

#[export] Instance entry_from_checksum : FromChecksum DecodeRaftLogEntryError := fun error =>
  match error with
  | Checksum_UnexpectedEof needed remaining => Entry_UnexpectedEof needed remaining
  | Checksum_Mismatch expected actual => Entry_ChecksumMismatch expected actual
  end.

Definition u32_max : N := 4294967295.

(** A write to the vector, then the ones after it; [?] stops at an error and
    leaves what was written. *)
Definition then_write (written : list u8 * result unit EncodeRaftLogEntryError)
    (rest : list u8 -> list u8 * result unit EncodeRaftLogEntryError)
  : list u8 * result unit EncodeRaftLogEntryError :=
  match written with
  | (writer, Ok _) => rest writer
  | (writer, Err error) => (writer, Err error)
  end.

Definition write_payload (writer : list u8) (payload : list u8)
  : list u8 * result unit EncodeRaftLogEntryError :=
  if length_u64 payload <=? u32_max
  then (writer ++ be_bytes 4 (length_u64 payload) ++ payload, Ok tt)
  else (writer, Err (EntryPayloadTooLarge (length_u64 payload))).

Definition write_node_ids (writer : list u8) (node_ids : list NodeId)
  : list u8 * result unit EncodeRaftLogEntryError :=
  if length_u64 node_ids <=? u32_max
  then (writer ++ be_bytes 4 (length_u64 node_ids) ++ (node_ids ≫= be_bytes 8), Ok tt)
  else (writer, Err (TooManyMembers (length_u64 node_ids))).

Definition write_membership_set (writer : list u8) (membership : MembershipSet)
  : list u8 * result unit EncodeRaftLogEntryError :=
  then_write (write_node_ids writer (voters membership)) (fun writer =>
    write_node_ids writer (learners membership)).

Definition write_log_entry_kind (writer : list u8) (kind : LogEntryKind)
  : list u8 * result unit EncodeRaftLogEntryError :=
  match kind with
  | Application payload => write_payload (writer ++ [RAFT_LOG_ENTRY_KIND_APPLICATION]) payload
  | Configuration (StableEntry config_id membership) =>
      write_membership_set
        (writer ++ [RAFT_LOG_ENTRY_KIND_STABLE_CONFIGURATION] ++ be_bytes 8 config_id) membership
  | Configuration (JointEntry config_id membership) =>
      then_write
        (write_membership_set
           (writer ++ [RAFT_LOG_ENTRY_KIND_JOINT_CONFIGURATION] ++ be_bytes 8 config_id)
           (old membership))
        (fun writer => write_membership_set writer (new_membership membership))
  | Noop => (writer ++ [RAFT_LOG_ENTRY_KIND_NOOP], Ok tt)
  end.

(** The buffer after the call, and the length of the envelope appended to it. *)
Definition encode_borrowed_raft_log_entry_appending (entry : PersistedRaftLogEntry)
    (encoded : list u8) : list u8 * result usize EncodeRaftLogEntryError :=
  match advanceable_log_index (ple_index entry) with
  | None => (encoded, Err EntryIndexAtMaximum)
  | Some _ =>
      let start := length encoded in
      let writer :=
        encoded ++ RAFT_LOG_ENTRY_MAGIC ++ [RAFT_LOG_ENTRY_VERSION]
        ++ be_bytes 8 (ple_index entry) ++ be_bytes 8 (ple_term entry) in
      match write_log_entry_kind writer (ple_kind entry) with
      | (writer, Err error) => (take start writer, Err error)
      | (writer, Ok _) =>
          let checksum := crc32 (drop start writer) in
          let encoded := writer ++ be_bytes 4 checksum in
          (encoded, Ok (length_u64 encoded - N.of_nat start))
      end
  end.

Definition encode_borrowed_raft_log_entry (entry : PersistedRaftLogEntry)
  : result (list u8) EncodeRaftLogEntryError :=
  match encode_borrowed_raft_log_entry_appending entry [] with
  | (encoded, Ok _) => Ok encoded
  | (_, Err error) => Err error
  end.

(** The loop that reads ids in ascending order, with the ids pushed so far. *)
Fixpoint read_node_ids_loop {E} `{!ReaderError E} (non_canonical : NodeId -> NodeId -> E) (len : nat)
    (node_ids : list NodeId) : rdec E (list NodeId) :=
  match len with
  | 0%nat => dec_ret node_ids
  | S len =>
      let! node_id := read_u64 in
      match last node_ids with
      | Some previous =>
          if node_id <? previous
          then dec_fail (non_canonical previous node_id)
          else read_node_ids_loop non_canonical len (node_ids ++ [node_id])
      | None => read_node_ids_loop non_canonical len (node_ids ++ [node_id])
      end
  end.

Definition read_node_ids (member_kind : string) : rdec DecodeRaftLogEntryError (list NodeId) :=
  let! len := read_u32 in
  read_node_ids_loop (Entry_NonCanonicalMembershipOrder member_kind) (N.to_nat len) [].

Definition read_membership_set : rdec DecodeRaftLogEntryError MembershipSet :=
  let! voters := read_node_ids "voters" in
  let! learners := read_node_ids "learners" in
  dec_lift (map_err Entry_InvalidMembership (MembershipSet_new voters learners)).

Definition read_application_kind : rdec DecodeRaftLogEntryError LogEntryKind :=
  let! payload_len := read_u32 in
  let! payload := read_take payload_len in
  dec_ret (Application payload).

Definition read_log_entry_kind : rdec DecodeRaftLogEntryError LogEntryKind :=
  let! kind := read_u8 in
  match kind with
  | x00 => read_application_kind
  | x01 =>
      let! config_id := read_u64 in
      let! membership := read_membership_set in
      dec_ret (Configuration (StableEntry config_id membership))
  | x02 =>
      let! config_id := read_u64 in
      let! old := read_membership_set in
      let! new := read_membership_set in
      dec_ret (Configuration (JointEntry config_id {| old := old; new_membership := new |}))
  | x03 => dec_ret Noop
  | unknown => dec_fail (Entry_UnknownEntryKind unknown)
  end.

Definition read_log_entry : rdec DecodeRaftLogEntryError PersistedRaftLogEntry :=
  let! _ := expect_header RAFT_LOG_ENTRY_MAGIC RAFT_LOG_ENTRY_VERSION
              Entry_InvalidMagic Entry_UnsupportedVersion in
  let! raw := read_u64 in
  match advanceable_log_index raw with
  | None => dec_fail Entry_IndexAtMaximum
  | Some index =>
      let! term := read_u64 in
      let! kind := read_log_entry_kind in
      dec_ret {| ple_index := index; ple_term := term; ple_kind := kind |}
  end.

Definition decode_raft_log_entry (envelope : list u8)
  : result PersistedRaftLogEntry DecodeRaftLogEntryError :=
  decode_checked read_log_entry envelope.

(** ** Frames of a log segment *)

Definition RAFT_LOG_FRAME_HEADER_LEN : usize := 4.

Inductive RaftLogReplayError :=
| PartialFrameHeader (offset remaining : usize)
| PartialEntry (offset expected remaining : usize)
| CorruptEntry (offset : usize) (source : DecodeRaftLogEntryError).

Record ReplayedRaftLogFrame := {
  frame_offset : u64;
  frame_entry : PersistedRaftLogEntry;
}.

Record RaftLogFrameScan := {
  scan_frames : list ReplayedRaftLogFrame;
  scan_replay_error : option (u64 * RaftLogReplayError);
}.

(** The reader's source is what is left of the file. *)
Record RaftLogFrameReader := {
  frd_reader : list u8;
  frd_offset : u64;
  frd_remaining : u64;
  frd_finished : bool;
}.

Definition RaftLogFrameReader_new (reader : list u8) (file_len : u64) : RaftLogFrameReader :=
  {| frd_reader := reader; frd_offset := 0; frd_remaining := file_len; frd_finished := false |}.

(** The bytes that fill a buffer of [len], as far as there are any. *)
Definition read_to_fill (reader : list u8) (len : usize) : list u8 * list u8 :=
  (take (N.to_nat len) reader, drop (N.to_nat len) reader).

Definition replay_error (r : RaftLogFrameReader) (offset : u64) (source : RaftLogReplayError)
  : RaftLogFrameReader * result (option ReplayedRaftLogFrame) (u64 * RaftLogReplayError) :=
  ({| frd_reader := frd_reader r; frd_offset := frd_offset r; frd_remaining := frd_remaining r;
      frd_finished := true |}, Err (offset, source)).

Definition next_frame (r : RaftLogFrameReader)
  : RaftLogFrameReader * result (option ReplayedRaftLogFrame) (u64 * RaftLogReplayError) :=
  if frd_finished r || (frd_remaining r =? 0) then
    ({| frd_reader := frd_reader r; frd_offset := frd_offset r; frd_remaining := frd_remaining r;
        frd_finished := true |}, Ok None)
  else
    let frame_offset := frd_offset r in
    if frd_remaining r <? RAFT_LOG_FRAME_HEADER_LEN then
      replay_error r frame_offset (PartialFrameHeader frame_offset (frd_remaining r))
    else
      let (header, reader) := read_to_fill (frd_reader r) RAFT_LOG_FRAME_HEADER_LEN in
      if negb (length_u64 header =? RAFT_LOG_FRAME_HEADER_LEN) then
        replay_error r frame_offset (PartialFrameHeader frame_offset (length_u64 header))
      else
        let r := {| frd_reader := reader; frd_offset := frd_offset r + RAFT_LOG_FRAME_HEADER_LEN;
                    frd_remaining := frd_remaining r - RAFT_LOG_FRAME_HEADER_LEN;
                    frd_finished := frd_finished r |} in
        let encoded_len := from_be header in
        if frd_remaining r <? encoded_len then
          replay_error r frame_offset (PartialEntry frame_offset encoded_len (frd_remaining r))
        else
          let (encoded, reader) := read_to_fill (frd_reader r) encoded_len in
          if negb (length_u64 encoded =? encoded_len) then
            replay_error r frame_offset (PartialEntry frame_offset encoded_len (length_u64 encoded))
          else
            match decode_raft_log_entry encoded with
            | Err source => replay_error r frame_offset (CorruptEntry frame_offset source)
            | Ok entry =>
                ({| frd_reader := reader; frd_offset := frd_offset r + encoded_len;
                    frd_remaining := frd_remaining r - encoded_len;
                    frd_finished := frd_finished r |},
                 Ok (Some {| frame_offset := frame_offset; frame_entry := entry |}))
            end.

(** The loop of [read_raft_log_frames]; every frame takes at least its header
    from the file, so the turns are bounded by its length. *)
Fixpoint read_frames_loop (fuel : nat) (reader : RaftLogFrameReader)
    (frames : list ReplayedRaftLogFrame) : RaftLogFrameScan :=
  match fuel with
  | 0%nat => {| scan_frames := frames; scan_replay_error := None |}
  | S fuel =>
      match next_frame reader with
      | (reader, Ok (Some frame)) => read_frames_loop fuel reader (frames ++ [frame])
      | (_, Ok None) => {| scan_frames := frames; scan_replay_error := None |}
      | (_, Err error) => {| scan_frames := frames; scan_replay_error := Some error |}
      end
  end.

Definition read_raft_log_frames (bytes : list u8) : RaftLogFrameScan :=
  read_frames_loop (S (length bytes)) (RaftLogFrameReader_new bytes (length_u64 bytes)) [].

Definition encoded_frame_len (encoded : list u8) : result u32 EncodeRaftLogEntryError :=
  if length_u64 encoded <=? u32_max then Ok (length_u64 encoded)
  else Err (EntryPayloadTooLarge (length_u64 encoded)).

Definition append_encoded_frame (output encoded : list u8)
  : result (list u8) EncodeRaftLogEntryError :=
  let? len := encoded_frame_len encoded in
  Ok (output ++ be_bytes 4 len ++ encoded).

Definition append_borrowed_raft_log_frame (output : list u8) (entry : PersistedRaftLogEntry)
  : result (list u8) EncodeRaftLogEntryError :=
  let? encoded := encode_borrowed_raft_log_entry entry in
  append_encoded_frame output encoded.
