(* ===== verification/StorageSpec.v ===== *)
(** * Storage formats: round trip, canonicity and torn tails

    Every decoder of [StorageFormat] accepts exactly the bytes its encoder
    writes for a value of the machine types, and a log segment cut anywhere is
    read back as the entries whose frames are whole, with the offset at which
    the torn one begins. *)

From Stdlib Require Import Strings.Byte.
From stdpp Require Import base strings list sorting numbers option sets.
From S2P Require Import Prelude.
From S2P Require Import Types.
From S2P Require Import Crc32.
From S2P Require Import Snapshot.
From S2P Require Import Message.
From S2P Require Import Membership.
From S2P Require Import Wire.
From S2P Require Import CodecV1.
From S2P Require Import Frame.
From S2P Require Import Grammar.
From S2P Require Import Emit.
From S2P Require Import CodecSpec.
From S2P Require Import FrameSpec.
From S2P Require Import Stores.
From S2P Require Import StorageFormat.

#[local] Arguments be_bytes : simpl never.

(** ** Values and their bytes *)

Definition puts {A} (valid : A -> Prop) (put : A -> list u8) (a : A) (bs : list u8) : Prop :=
  valid a /\ bs = put a.

Section fields.
Context {E : Type} `{!ReaderError E} {A B : Type}.

(** The rest of a record is read under the constraint [C] on its fields so
    far, and written after them. *)
Lemma puts_field (C : B -> Prop) (proj : B -> A) (d : rdec E A) (k : A -> rdec E B) v1 v2 p1 p2 :
  Grammar d (puts v1 p1) ->
  (forall a, Grammar (k a) (fun b bs => (C b /\ proj b = a) /\ puts v2 p2 b bs)) ->
  Grammar (dec_bind d k) (fun b bs =>
    C b /\ puts (fun b => v1 (proj b) /\ v2 b) (fun b => p1 (proj b) ++ p2 b) b bs).
Proof.
  intros Hd Hk. eapply Grammar_iff; [typeclasses eauto|]. intros b bs. unfold bind_grammar, puts. split.
  - intros (a & bs1 & bs2 & -> & [Hv1 ->] & [HC <-] & Hv2 & ->). done.
  - intros (HC & [Hv1 Hv2] & ->). eexists (proj b), _, _. done.
Qed.

Lemma puts_last (C : B -> Prop) (proj : B -> A) (mk : A -> B) (d : rdec E A) v1 p1 :
  Grammar d (puts v1 p1) -> (forall a b, C b /\ proj b = a <-> b = mk a) ->
  Grammar (dec_bind d (fun a => dec_ret (mk a))) (fun b bs =>
    C b /\ puts (fun b => v1 (proj b)) (fun b => p1 (proj b)) b bs).
Proof.
  intros Hd HC. eapply Grammar_iff; [typeclasses eauto|]. intros b bs. unfold bind_grammar, ret_grammar, puts. split.
  - intros (a & bs1 & bs2 & -> & [Hv1 ->] & -> & ->). rewrite app_nil_r.
    destruct (proj2 (HC a (mk a)) eq_refl) as [HCb Hp]. by rewrite Hp.
  - intros (HCb & Hv1 & ->). eexists (proj b), _, []. rewrite app_nil_r. split_and!; try done. by apply HC.
Qed.

(** The constraint is lifted, the value's conditions restated and its bytes
    regrouped. *)
Lemma puts_iff (d : rdec E A) (C : A -> Prop) v v' p p' :
  Grammar d (fun a bs => C a /\ puts v p a bs) -> (forall a, C a) -> (forall a, v a <-> v' a) ->
  (forall a, p a = p' a) -> Grammar d (puts v' p').
Proof.
  intros Hd HC Hv Hp. eapply Grammar_iff; [exact Hd|]. intros a bs. unfold puts. rewrite Hv, Hp. naive_solver.
Qed.
End fields.

Section reads.
Context {E : Type} `{!ReaderError E}.

#[export] Instance u64_puts : Grammar (E := E) read_u64 (puts fits64 (be_bytes 8)).
Proof. eapply Grammar_iff; [apply u64_Grammar|]. done. Qed.
#[export] Instance u32_puts : Grammar (E := E) read_u32 (puts fits32 (be_bytes 4)).
Proof. eapply Grammar_iff; [apply u32_Grammar|]. done. Qed.
#[export] Instance u16_puts : Grammar (E := E) read_u16 (puts fits16 (be_bytes 2)).
Proof. eapply Grammar_iff; [apply u16_Grammar|]. done. Qed.

Lemma header_Grammar magic version f g :
  length_u64 magic = 4 ->
  Grammar (expect_header (E := E) magic version f g) (fun _ bs => bs = magic ++ [version]).
Proof.
  intros Hm. eapply Grammar_iff.
  { unfold expect_header. eapply (bind_Grammar _ _ _ (fun m _ bs => m = magic /\ bs = [version]));
      [unfold array_4; typeclasses eauto|]. intros m.
    destruct (decide (m = magic)) as [->|Hne].
    - rewrite bool_decide_true by done. simpl negb. cbv iota.
      eapply Grammar_iff; [eapply (bind_Grammar _ _ _ (fun v _ bs => v = version /\ bs = []));
        [typeclasses eauto|]; intros v; destruct (decide (v = version)) as [->|Hv]|].
      + rewrite bool_decide_true by done. simpl negb. cbv iota. eapply Grammar_iff; [typeclasses eauto|].
        intros [] bs. unfold ret_grammar. naive_solver.
      + rewrite bool_decide_false by done. simpl negb. cbv iota. eapply Grammar_iff; [typeclasses eauto|]. naive_solver.
      + intros [] bs. unfold bind_grammar. split; [naive_solver|]. intros [_ ->]. by exists version, [version], [].
    - rewrite bool_decide_false by done. simpl negb. cbv iota. eapply Grammar_iff; [typeclasses eauto|]. naive_solver. }
  intros [] bs. unfold bind_grammar. split; [naive_solver|]. intros ->. by exists magic, magic, [version].
Qed.

(** An artifact's fields after its header. *)
Lemma headed_Grammar {A} magic version f g (d : rdec E A) (valid : A -> Prop) put :
  length_u64 magic = 4 -> Grammar d (puts valid put) ->
  Grammar (let! _ := expect_header magic version f g in d)
    (puts valid (fun a => magic ++ [version] ++ put a)).
Proof.
  intros Hm Hd. eapply Grammar_iff; [eapply bind_Grammar; [by apply header_Grammar|intros; exact Hd]|].
  intros a bs. unfold bind_grammar, puts. split.
  - intros (u & bs1 & bs2 & -> & -> & Hv & ->). by rewrite <- app_assoc.
  - intros (Hv & ->). eexists tt, _, _. rewrite app_assoc. done.
Qed.

Lemma finish_reader_at pre post :
  finish (E := E) (reader_at pre post) = if length_u64 post =? 0 then Ok tt else Err (trailing (length_u64 post)).
Proof. unfold finish. by rewrite remaining_at. Qed.
End reads.

(** ** Envelopes *)

Lemma crc32_small bytes : crc32 bytes < 4294967296.
Proof.
  unfold crc32, u32_not. rewrite crc_update_bitwise by done. change 4294967296 with (2 ^ 32).
  apply lxor_small; [|done]. by apply crc_bitwise_small.
Qed.

Lemma verify_checksum_Ok bs body : verify_checksum bs = Ok body <-> bs = finish_checksummed body.
Proof.
  unfold verify_checksum, finish_checksummed, CHECKSUM_LEN. split.
  - destruct (N.ltb_spec (length_u64 bs) 4) as [|Hl]; [done|].
    destruct (N.eqb_spec (from_be (drop (N.to_nat (length_u64 bs - 4)) bs)) (crc32 (take (N.to_nat (length_u64 bs - 4)) bs)))
      as [He|]; [|done]. intros [= <-]. rewrite <- He.
    replace 4%nat with (length (drop (N.to_nat (length_u64 bs - 4)) bs))
      by (rewrite length_drop; unfold length_u64 in *; lia).
    by rewrite be_bytes_from_be, take_drop.
  - intros ->. rewrite length_u64_app, length_u64_be_bytes. destruct (N.ltb_spec (length_u64 body + N.of_nat 4) 4); [lia|].
    replace (N.to_nat (length_u64 body + N.of_nat 4 - 4)) with (length body) by (unfold length_u64; lia).
    rewrite take_app_length, drop_app_length, from_be_be_bytes, N.mod_small by apply crc32_small.
    by rewrite N.eqb_refl.
Qed.

Lemma decode_checked_Ok {E A} `{!ReaderError E, !FromChecksum E} (d : rdec E A) G bs a :
  Grammar d G -> decode_checked d bs = Ok a <-> exists body, bs = finish_checksummed body /\ G a body.
Proof.
  intros Hd. unfold decode_checked. split.
  - destruct (verify_checksum bs) as [body|] eqn:Hb; [|done]. simpl. apply verify_checksum_Ok in Hb as ->.
    destruct (d (Reader_new body)) as [[v r]|] eqn:Hr; [|done]. simpl.
    apply (grammar_sound [] body) in Hr as (b & post & -> & -> & HG). simpl. rewrite finish_reader_at.
    destruct post; simpl; [|done]. intros [= <-]. exists b. by rewrite app_nil_r.
  - intros (body & -> & HG). rewrite (proj2 (verify_checksum_Ok _ body)) by done. simpl.
    pose proof (grammar_reads _ _ HG [] []) as Hr. rewrite app_nil_r in Hr.
    change (Reader_new body) with (reader_at [] body). rewrite Hr. simpl. by rewrite finish_reader_at.
Qed.

Lemma finish_checksummed_inj a b : finish_checksummed a = finish_checksummed b -> a = b.
Proof.
  intros H. assert (verify_checksum (finish_checksummed a) = Ok b) as Hb by by apply verify_checksum_Ok.
  rewrite (proj2 (verify_checksum_Ok _ a)) in Hb by done. by injection Hb.
Qed.

(** ** Hard state *)

Definition hard_state_fits (state : RaftHardState) : Prop :=
  fits64 (hs_current_term state) /\ from_option fits64 True (hs_voted_for state) /\
  fits64 (hs_commit_index state) /\
  from_option (fun c => fits64 (cc_index c) /\ fits64 (cc_config_id c)) True
    (hs_committed_configuration state).

(** A present value after its flag, or a flag and reserved zeroes. *)
Definition put_flagged {A} (put : A -> list u8) (width : nat) (o : option A) : list u8 :=
  match o with
  | Some a => [x01] ++ put a
  | None => [x00] ++ replicate width x00
  end.

Lemma flag_Grammar {E A} `{!ReaderError E} (k : u8 -> rdec E (option A)) v put width f :
  Grammar (k x00) (fun o bs => o = None /\ bs = replicate width x00) ->
  Grammar (k x01) (fun o bs => exists a, o = Some a /\ puts v put a bs) ->
  (forall flag, flag <> x00 -> flag <> x01 -> k flag = dec_fail (f flag)) ->
  Grammar (let! flag := read_u8 in k flag) (puts (from_option v True) (put_flagged put width)).
Proof.
  intros H0 H1 Hf. eapply Grammar_iff.
  { eapply (bind_Grammar _ _ _ (fun flag o bs => match o with
      | Some a => flag = x01 /\ puts v put a bs
      | None => flag = x00 /\ bs = replicate width x00 end)); [typeclasses eauto|].
    intros flag. destruct (decide (flag = x00)) as [->|Hn0]; [|destruct (decide (flag = x01)) as [->|Hn1]].
    - eapply Grammar_iff; [exact H0|]. intros [] bs; naive_solver.
    - eapply Grammar_iff; [exact H1|]. intros [] bs; naive_solver.
    - rewrite Hf by done. eapply Grammar_iff; [typeclasses eauto|]. intros [] bs; naive_solver. }
  intros o bs. unfold bind_grammar, puts, put_flagged. destruct o as [a|]; simpl; split.
  - intros (flag & ? & ? & -> & -> & -> & Hv & ->). done.
  - intros [Hv ->]. by exists x01, [x01], (put a).
  - intros (flag & ? & ? & -> & -> & -> & ->). done.
  - intros [_ ->]. by exists x00, [x00], (replicate width x00).
Qed.

#[export] Instance voted_for_Grammar :
  Grammar read_voted_for (puts (from_option fits64 True) (put_flagged (be_bytes 8) 8)).
Proof.
  unfold read_voted_for. eapply (flag_Grammar _ _ _ _ HardState_InvalidVotedForFlag).
  - eapply Grammar_iff.
    { eapply (bind_Grammar _ _ _ (fun n o bs => n = 0 /\ o = None /\ bs = [])); [typeclasses eauto|]. intros n.
      destruct (N.eqb_spec n 0); (eapply Grammar_iff; [typeclasses eauto|]); intros o bs; unfold ret_grammar; naive_solver. }
    intros o bs. unfold bind_grammar, puts. split.
    + intros (a & ? & ? & -> & [_ ->] & -> & -> & ->). by rewrite app_nil_r.
    + intros [-> ->]. by exists 0, (be_bytes 8 0), [].
  - eapply Grammar_iff; [typeclasses eauto|]. intros o bs. unfold bind_grammar, ret_grammar, puts. split.
    + intros (a & ? & ? & -> & [Ha ->] & -> & ->). rewrite app_nil_r. eauto.
    + intros (a & -> & Ha & ->). exists a, (be_bytes 8 a), []. by rewrite app_nil_r.
  - intros []; done.
Qed.

Definition put_committed (c : CommittedConfiguration) : list u8 :=
  be_bytes 8 (cc_index c) ++ be_bytes 8 (cc_config_id c).

#[export] Instance committed_configuration_Grammar :
  Grammar read_committed_configuration
    (puts (from_option (fun c => fits64 (cc_index c) /\ fits64 (cc_config_id c)) True)
       (put_flagged put_committed 16)).
Proof.
  unfold read_committed_configuration. eapply (flag_Grammar _ _ _ _ HardState_InvalidCommittedConfigurationFlag).
  - eapply Grammar_iff.
    { eapply (bind_Grammar _ _ _ _); [typeclasses eauto|]. intros i.
      eapply (bind_Grammar _ _ _ (fun c o bs => i = 0 /\ c = 0 /\ o = None /\ bs = [])); [typeclasses eauto|]. intros c.
      destruct (N.eqb_spec i 0), (N.eqb_spec c 0); (eapply Grammar_iff; [typeclasses eauto|]); intros o bs;
        unfold ret_grammar; naive_solver. }
    intros o bs. unfold bind_grammar, puts. split.
    + intros (i & ? & ? & -> & [_ ->] & c & ? & ? & -> & [_ ->] & -> & -> & -> & ->). done.
    + intros [-> ->]. exists 0, (be_bytes 8 0), (be_bytes 8 0). split_and!; [done..|].
      by exists 0, (be_bytes 8 0), [].
  - eapply Grammar_iff; [typeclasses eauto|]. intros o bs. unfold bind_grammar, ret_grammar, puts, put_committed. split.
    + intros (i & ? & ? & -> & [Hi ->] & c & ? & ? & -> & [Hc ->] & -> & ->). rewrite app_nil_r. eauto.
    + intros ([i c] & -> & [Hi Hc] & ->). eexists i, _, _. split_and!; [done..|].
      eexists c, _, []. by rewrite app_nil_r.
  - intros []; done.
Qed.

Definition put_hard_state (state : RaftHardState) : list u8 :=
  be_bytes 8 (hs_current_term state) ++ put_flagged (be_bytes 8) 8 (hs_voted_for state) ++
  be_bytes 8 (hs_commit_index state) ++
  put_flagged put_committed 16 (hs_committed_configuration state).

Lemma encode_raft_hard_state_eq state :
  encode_raft_hard_state state =
  finish_checksummed (RAFT_HARD_STATE_MAGIC ++ [RAFT_HARD_STATE_VERSION] ++ put_hard_state state).
Proof. destruct state as [? [] ? []]; done. Qed.

(** A field, and the last one. *)
Ltac put_field proj :=
  eapply (puts_field _ proj); [typeclasses eauto|let a := fresh "a" in intros a].
Ltac put_last proj :=
  eapply (puts_last _ proj); [typeclasses eauto|
    let a := fresh "a" in let b := fresh "b" in
    intros a b; split; [let H := fresh in intros H; destruct b; simpl in *; naive_solver|
                        intros ->; naive_solver]].

#[export] Instance hard_state_Grammar : Grammar read_hard_state
  (puts hard_state_fits (fun s => RAFT_HARD_STATE_MAGIC ++ [RAFT_HARD_STATE_VERSION] ++ put_hard_state s)).
Proof.
  unfold read_hard_state. apply headed_Grammar; [done|].
  eapply (puts_iff _ (fun _ => True)); [|done|..].
  - put_field hs_current_term. put_field hs_voted_for. put_field hs_commit_index.
    put_last hs_committed_configuration.
  - done.
  - done.
Qed.

(** Decoding accepts exactly the encodings. *)
Lemma decode_raft_hard_state_Ok bs state :
  decode_raft_hard_state bs = Ok state <-> hard_state_fits state /\ bs = encode_raft_hard_state state.
Proof.
  unfold decode_raft_hard_state. rewrite decode_checked_Ok by typeclasses eauto. unfold puts.
  rewrite encode_raft_hard_state_eq. naive_solver.
Qed.

Lemma length_encode_raft_hard_state state : length (encode_raft_hard_state state) = 51%nat.
Proof.
  destruct state as [? [] ? [[]|]]; rewrite encode_raft_hard_state_eq; unfold finish_checksummed, put_hard_state, put_committed;
    cbn -[be_bytes crc32]; repeat (rewrite ?length_app, ?length_be_bytes; cbn -[be_bytes crc32]); done.
Qed.

(** ** Compaction markers *)

Lemma decode_marker_Ok bs through :
  decode_raft_log_compaction_marker bs = Ok through <->
  through < u64_max /\ bs = encode_raft_log_compaction_marker through.
Proof.
  unfold decode_raft_log_compaction_marker.
  rewrite (decode_checked_Ok _ (puts (fun i => i < u64_max) (fun i =>
    RAFT_LOG_COMPACTION_MAGIC ++ [RAFT_LOG_COMPACTION_VERSION] ++ be_bytes 8 i))).
  - unfold puts, encode_raft_log_compaction_marker. naive_solver.
  - apply headed_Grammar; [done|]. eapply Grammar_iff.
    { eapply (bind_Grammar _ _ _ (fun raw i bs => raw = i /\ raw <> u64_max /\ bs = [])); [typeclasses eauto|].
      intros raw. unfold advanceable_log_index.
      destruct (N.eqb_spec raw u64_max); (eapply Grammar_iff; [typeclasses eauto|]); unfold ret_grammar; naive_solver. }
    intros i b. unfold bind_grammar, puts, fits64, u64_max. split.
    + intros (raw & ? & ? & -> & [Hr ->] & -> & Hne & ->). rewrite app_nil_r. split; [lia|done].
    + intros [Hi ->]. exists i, (be_bytes 8 i), []. rewrite app_nil_r. split_and!; [done|lia|done|done|lia|done].
Qed.

(** ** Log entries *)

Definition put_nodes (nodes : list NodeId) : list u8 :=
  be_bytes 4 (length_u64 nodes) ++ (nodes ≫= be_bytes 8).
Definition put_set (m : MembershipSet) : list u8 := put_nodes (voters m) ++ put_nodes (learners m).
Definition put_kind (kind : LogEntryKind) : list u8 :=
  match kind with
  | Application payload => [x00] ++ be_bytes 4 (length_u64 payload) ++ payload
  | Configuration (StableEntry config_id m) => [x01] ++ be_bytes 8 config_id ++ put_set m
  | Configuration (JointEntry config_id j) =>
      [x02] ++ be_bytes 8 config_id ++ put_set (old j) ++ put_set (new_membership j)
  | Noop => [x03]
  end.
Definition put_entry (e : PersistedRaftLogEntry) : list u8 :=
  RAFT_LOG_ENTRY_MAGIC ++ [RAFT_LOG_ENTRY_VERSION] ++ be_bytes 8 (ple_index e) ++
  be_bytes 8 (ple_term e) ++ put_kind (ple_kind e).

(** Lengths that fit their prefixes. *)
Definition set_sized (m : MembershipSet) : Prop :=
  length_u64 (voters m) <= u32_max /\ length_u64 (learners m) <= u32_max.
Definition kind_sized (kind : LogEntryKind) : Prop :=
  match kind with
  | Application payload => length_u64 payload <= u32_max
  | Configuration (StableEntry _ m) => set_sized m
  | Configuration (JointEntry _ j) => set_sized (old j) /\ set_sized (new_membership j)
  | Noop => True
  end.

(** Values of the machine types. *)
Definition kind_fits (kind : LogEntryKind) : Prop :=
  match kind with
  | Configuration (StableEntry config_id m) => fits64 config_id /\ set_valid m
  | Configuration (JointEntry config_id j) => fits64 config_id /\ joint_valid j
  | _ => True
  end.
Definition entry_fits (e : PersistedRaftLogEntry) : Prop :=
  fits64 (ple_index e) /\ fits64 (ple_term e) /\ kind_fits (ple_kind e).

Lemma node_ids_loop_Grammar {E} `{!ReaderError E} (error : NodeId -> NodeId -> E) len acc :
  Grammar (read_node_ids_loop error len acc) (fun l bs => exists ids, l = acc ++ ids /\
    length ids = len /\ Forall fits64 ids /\ any_descent (option_list (last acc) ++ ids) = false /\
    bs = ids ≫= be_bytes 8).
Proof.
  revert acc. induction len as [|len IH]; intros acc.
  - simpl. eapply Grammar_iff; [typeclasses eauto|]. intros l bs. unfold ret_grammar. split.
    + intros [-> ->]. exists []. rewrite !app_nil_r. split_and!; try done. by destruct (last acc).
    + intros ([|] & -> & ? & _ & _ & ->); [|done]. by rewrite app_nil_r.
  - cbn [read_node_ids_loop]. eapply Grammar_iff.
    { eapply (bind_Grammar _ _ _ (fun id l bs => exists ids, l = acc ++ id :: ids /\ length ids = len /\
        Forall fits64 ids /\ any_descent (option_list (last acc) ++ id :: ids) = false /\ bs = ids ≫= be_bytes 8));
        [typeclasses eauto|]. intros id.
      assert (Grammar (read_node_ids_loop error len (acc ++ [id])) (fun l bs => exists ids, l = acc ++ id :: ids /\
        length ids = len /\ Forall fits64 ids /\ any_descent (id :: ids) = false /\ bs = ids ≫= be_bytes 8)) as Hnext.
      { eapply Grammar_iff; [apply IH|]. intros l bs. rewrite last_snoc. simpl.
        split; intros (ids & -> & ?); exists ids; by rewrite <- app_assoc. }
      destruct (last acc) as [previous|]; [|exact Hnext]. simpl. destruct (N.ltb_spec id previous).
      - eapply Grammar_iff; [typeclasses eauto|]. naive_solver.
      - exact Hnext. }
    intros l bs. unfold bind_grammar, puts. split.
    + intros (id & ? & ? & -> & [Hid ->] & ids & -> & Hl & Hf & Hd & ->). exists (id :: ids). simpl.
      split_and!; [done|congruence|by constructor|done|done].
    + intros ([|id ids] & -> & Hl & Hf & Hd & ->); [done|]. apply Forall_cons in Hf as [Hid Hf].
      eexists id, _, _. split_and!; [done..|]. exists ids. split_and!; try done. simpl in Hl. lia.
Qed.

(** Ascending ids behind their count. *)
Definition nodes_fit (max : N) (ids : list NodeId) : Prop :=
  Forall fits64 ids /\ length_u64 ids <= max /\ any_descent ids = false.

Lemma counted_nodes_Grammar {E} `{!ReaderError E} (count : rdec E N) max put (error : NodeId -> NodeId -> E) :
  Grammar count (puts (fun n => n <= max) put) ->
  Grammar (let! len := count in read_node_ids_loop error (N.to_nat len) [])
    (puts (nodes_fit max) (fun ids => put (length_u64 ids) ++ (ids ≫= be_bytes 8))).
Proof.
  intros Hc. eapply Grammar_iff; [eapply bind_Grammar; [exact Hc|intros; apply node_ids_loop_Grammar]|].
  intros l bs. unfold bind_grammar, puts, nodes_fit. simpl. split.
  - intros (len & ? & ? & -> & [Hl ->] & ids & -> & Hlen & Hf & Hd & ->).
    assert (len = length_u64 ids) as -> by (unfold length_u64; lia). done.
  - intros ((Hf & Hl & Hd) & ->). exists (length_u64 l), (put (length_u64 l)), (l ≫= be_bytes 8).
    split_and!; [done|done|done|]. exists l. unfold length_u64. rewrite Nat2N.id. done.
Qed.

(** Voters, learners and the constructor that checks them. *)
Lemma checked_set_Grammar {E} `{!ReaderError E} (dv dl : rdec E (list NodeId)) max put invalid :
  Grammar dv (puts (nodes_fit max) put) -> Grammar dl (puts (nodes_fit max) put) ->
  Grammar (let! voters := dv in let! learners := dl in dec_lift (map_err invalid (MembershipSet_new voters learners)))
    (puts (fun m => set_valid m /\ length_u64 (voters m) <= max /\ length_u64 (learners m) <= max)
       (fun m => put (voters m) ++ put (learners m))).
Proof.
  intros Hdv Hdl. eapply Grammar_iff; [typeclasses eauto|].
  intros m bs. unfold bind_grammar, lift_grammar, puts, nodes_fit, set_valid. split.
  - intros (vs & ? & ? & -> & [(Hv & Hvl & Hvd) ->] & ls & ? & ? & -> & [(Hl & Hll & Hld) ->] & Hm & ->).
    apply map_err_Ok in Hm. destruct (proj1 (canonical_set vs ls m)) as (Hwf & -> & ->); [done|].
    by rewrite app_nil_r.
  - intros (((Hwf & Hv & Hl) & Hvl & Hll) & ->).
    destruct (proj2 (canonical_set (voters m) (learners m) m)) as (Hvd & Hld & Hm); [done|].
    eexists (voters m), _, _. split_and!; [done..|]. eexists (learners m), _, []. rewrite app_nil_r.
    split_and!; try done. by apply map_err_Ok.
Qed.

Lemma node_ids_Grammar kind : Grammar (read_node_ids kind) (puts (nodes_fit u32_max) put_nodes).
Proof.
  apply counted_nodes_Grammar. eapply Grammar_iff; [apply u32_puts|]. intros n bs. unfold puts, fits32, u32_max.
  split; intros [? ->]; (split; [lia|done]).
Qed.

#[export] Instance membership_set_Grammar :
  Grammar read_membership_set (puts (fun m => set_valid m /\ set_sized m) put_set).
Proof. apply checked_set_Grammar; apply node_ids_Grammar. Qed.

Lemma application_kind_Grammar : Grammar read_application_kind (fun k bs =>
  exists payload, k = Application payload /\ length_u64 payload <= u32_max /\
    bs = be_bytes 4 (length_u64 payload) ++ payload).
Proof.
  eapply Grammar_iff; [unfold read_application_kind; typeclasses eauto|].
  intros k bs. unfold bind_grammar, ret_grammar, puts, fits32, u32_max. split.
  - intros (len & ? & ? & -> & [Hl ->] & payload & ? & ? & -> & [-> Hp] & -> & ->). rewrite app_nil_r.
    eexists. split_and!; [done|lia|by rewrite Hp].
  - intros (payload & -> & Hl & ->). exists (length_u64 payload), (be_bytes 4 (length_u64 payload)), payload.
    split_and!; [done|lia|done|]. exists payload, payload, []. rewrite app_nil_r. done.
Qed.

#[export] Instance kind_Grammar :
  Grammar read_log_entry_kind (puts (fun k => kind_fits k /\ kind_sized k) put_kind).
Proof.
  eapply Grammar_iff.
  { unfold read_log_entry_kind. eapply (bind_Grammar _ _ _ (fun flag k bs =>
      put_kind k = flag :: bs /\ kind_fits k /\ kind_sized k)); [typeclasses eauto|].
    intros flag. assert (forall k, flag <> x00 -> flag <> x01 -> flag <> x02 -> flag <> x03 -> forall bs,
      ~ (put_kind k = flag :: bs /\ kind_fits k /\ kind_sized k)) as Hnone.
    { intros [| [] |] ? ? ? ? bs [H _]; simpl in H; congruence. }
    destruct flag; try by (eapply Grammar_iff; [apply fail_Grammar|]; intros k bs; split; [done|];
      intros H; exfalso; revert H; apply Hnone).
    - eapply Grammar_iff; [apply application_kind_Grammar|]. intros [payload|[]|] bs; simpl; naive_solver.
    - eapply Grammar_iff; [typeclasses eauto|]. intros k bs. unfold bind_grammar, ret_grammar, puts. split.
      + intros (c & ? & ? & -> & [Hc ->] & m & ? & ? & -> & [[Hm Hs] ->] & -> & ->). simpl. by rewrite app_nil_r.
      + destruct k as [|[c m|]|]; simpl; try (intros [? _]; congruence).
        intros ([= <-] & [Hc Hm] & Hs). exists c, (be_bytes 8 c), (put_set m). split_and!; [done..|].
        exists m, (put_set m), []. by rewrite app_nil_r.
    - eapply Grammar_iff; [typeclasses eauto|]. intros k bs. unfold bind_grammar, ret_grammar, puts. split.
      + intros (c & ? & ? & -> & [Hc ->] & o & ? & ? & -> & [[Ho Hos] ->] & m & ? & ? & -> & [[Hm Hms] ->] & -> & ->).
        simpl. by rewrite app_nil_r.
      + destruct k as [|[|c [o m]]|]; simpl; try (intros [? _]; congruence).
        intros ([= <-] & [Hc [Ho Hm]] & Hos & Hms). exists c, (be_bytes 8 c), (put_set o ++ put_set m).
        split_and!; [done..|]. exists o, (put_set o), (put_set m). split_and!; [done..|].
        exists m, (put_set m), []. by rewrite app_nil_r.
    - eapply Grammar_iff; [typeclasses eauto|]. intros [|[]|] bs; unfold ret_grammar; simpl; naive_solver. }
  intros k bs. unfold bind_grammar, puts. split.
  - intros (flag & ? & ? & -> & -> & Hk & ?). by rewrite Hk.
  - intros [Hv ->]. destruct k as [|[]|]; simpl; (eexists _, [_], _; split; [reflexivity|]; split; [reflexivity|done]).
Qed.

(** What the entry encoder takes: an index with a successor and lengths that
    fit. *)
Definition entry_sized (e : PersistedRaftLogEntry) : Prop :=
  ple_index e <> u64_max /\ kind_sized (ple_kind e).

Lemma read_log_entry_Grammar :
  Grammar read_log_entry (puts (fun e => entry_fits e /\ entry_sized e) put_entry).
Proof.
  unfold read_log_entry. apply headed_Grammar; [done|]. eapply Grammar_iff.
  { eapply (bind_Grammar _ _ _ (fun raw e bs => (raw <> u64_max /\ ple_index e = raw) /\
      puts (fun e => fits64 (ple_term e) /\ (kind_fits (ple_kind e) /\ kind_sized (ple_kind e)))
        (fun e => be_bytes 8 (ple_term e) ++ put_kind (ple_kind e)) e bs)); [typeclasses eauto|].
    intros raw. unfold advanceable_log_index. destruct (N.eqb_spec raw u64_max) as [->|Hne].
    - eapply Grammar_iff; [typeclasses eauto|]. naive_solver.
    - put_field ple_term.
      apply (puts_last _ ple_kind _ _ (fun k => kind_fits k /\ kind_sized k) put_kind); [typeclasses eauto|].
      intros k [i t k']. simpl. naive_solver. }
  intros e bs. unfold bind_grammar, puts, entry_fits, entry_sized. split.
  - intros (raw & ? & ? & -> & [Hr ->] & [Hne <-] & (Ht & Hk & Hs) & ->). done.
  - intros [((Hi & Ht & Hk) & Hne & Hs) ->]. by eexists (ple_index e), _, _.
Qed.

Lemma decode_raft_log_entry_Ok bs e :
  decode_raft_log_entry bs = Ok e <-> (entry_fits e /\ entry_sized e) /\ bs = finish_checksummed (put_entry e).
Proof.
  unfold decode_raft_log_entry. rewrite decode_checked_Ok by apply read_log_entry_Grammar. unfold puts. naive_solver.
Qed.

(** ** Encoding entries *)

Lemma write_node_ids_Ok w nodes w' :
  write_node_ids w nodes = (w', Ok tt) <-> length_u64 nodes <= u32_max /\ w' = w ++ put_nodes nodes.
Proof. unfold write_node_ids. destruct (N.leb_spec (length_u64 nodes) u32_max); split; [naive_solver..|lia]. Qed.

Lemma then_write_Ok written rest w' :
  then_write written rest = (w', Ok tt) <-> exists w, written = (w, Ok tt) /\ rest w = (w', Ok tt).
Proof. unfold then_write. destruct written as [w [[]|]]; naive_solver. Qed.

Lemma write_membership_set_Ok w m w' :
  write_membership_set w m = (w', Ok tt) <-> set_sized m /\ w' = w ++ put_set m.
Proof.
  unfold write_membership_set, set_sized, put_set. rewrite then_write_Ok. setoid_rewrite write_node_ids_Ok.
  split; [intros (? & [? ->] & ? & ->); by rewrite <- app_assoc|].
  intros [[? ?] ->]. eexists. rewrite app_assoc. done.
Qed.

Lemma write_log_entry_kind_Ok w k w' :
  write_log_entry_kind w k = (w', Ok tt) <-> kind_sized k /\ w' = w ++ put_kind k.
Proof.
  destruct k as [payload|[c m|c j]|]; cbn [write_log_entry_kind put_kind kind_sized].
  - unfold write_payload. destruct (N.leb_spec (length_u64 payload) u32_max); rewrite <- ?app_assoc; split; [naive_solver..|lia].
  - rewrite write_membership_set_Ok. by rewrite <- app_assoc.
  - rewrite then_write_Ok. setoid_rewrite write_membership_set_Ok.
    split; [intros (? & [? ->] & ? & ->); rewrite <- !app_assoc; split_and!; done|].
    intros [[? ?] ->]. eexists. split; [done|]. by rewrite <- !app_assoc.
  - naive_solver.
Qed.

(** The entry encoder writes the envelope, or leaves the buffer alone. *)
Lemma encode_appending_spec e encoded :
  match encode_borrowed_raft_log_entry_appending e encoded with
  | (after, Ok len) => entry_sized e /\ after = encoded ++ finish_checksummed (put_entry e) /\
      len = length_u64 (finish_checksummed (put_entry e))
  | (after, Err _) => ~ entry_sized e /\ after = encoded
  end.
Proof.
  unfold encode_borrowed_raft_log_entry_appending, advanceable_log_index, entry_sized.
  destruct (N.eqb_spec (ple_index e) u64_max); [naive_solver|].
  set (w := encoded ++ _). assert (write_log_entry_kind w (ple_kind e) = write_log_entry_kind w (ple_kind e)) as Hw by done.
  revert Hw. generalize (write_log_entry_kind w (ple_kind e)) at 2 3. intros [w' r] Hw.
  destruct r as [[]|error].
  - apply write_log_entry_kind_Ok in Hw as [Hs ->]. unfold w. rewrite <- !app_assoc.
    rewrite !drop_app_length. unfold finish_checksummed, put_entry. rewrite <- !app_assoc. split_and!; [done..|].
    rewrite !length_u64_app. unfold length_u64. lia.
  - split.
    + intros [_ Hs]. assert (write_log_entry_kind w (ple_kind e) = (w ++ put_kind (ple_kind e), Ok tt)) as H
        by by apply write_log_entry_kind_Ok. congruence.
    + assert (exists rest, w' = encoded ++ rest) as [rest ->]; [|by rewrite take_app_length].
      assert (w `prefix_of` w') as [k ->]; [|exists (RAFT_LOG_ENTRY_MAGIC ++ [RAFT_LOG_ENTRY_VERSION] ++
        be_bytes 8 (ple_index e) ++ be_bytes 8 (ple_term e) ++ k); unfold w; by rewrite <- !app_assoc].
      replace w' with (write_log_entry_kind w (ple_kind e)).1 by by rewrite Hw.
      clear. assert (forall w n, w `prefix_of` (write_node_ids w n).1) as Hn.
      { intros w0 n. unfold write_node_ids. destruct (_ <=? _); simpl; [by eexists|done]. }
      assert (forall w m, w `prefix_of` (write_membership_set w m).1) as Hm.
      { intros w0 m. unfold write_membership_set, then_write. pose proof (Hn w0 (voters m)) as H1.
        destruct (write_node_ids w0 (voters m)) as [w1 [|]]; simpl in *; [|done]. by etrans; [|apply Hn]. }
      destruct (ple_kind e) as [p|[c m|c j]|]; simpl.
      * unfold write_payload. destruct (_ <=? _); simpl; [rewrite <- app_assoc|]; by eexists.
      * etrans; [|apply Hm]. by eexists.
      * unfold then_write. match goal with |- context [write_membership_set ?a ?b] => pose proof (Hm a b) as H1;
          destruct (write_membership_set a b) as [w1 [|]] end; simpl in *; (etrans; [by eexists|]);
          (etrans; [exact H1|]); [apply Hm|done].
      * by eexists.
Qed.

Lemma encode_borrowed_raft_log_entry_Ok e bs :
  encode_borrowed_raft_log_entry e = Ok bs <-> entry_sized e /\ bs = finish_checksummed (put_entry e).
Proof.
  unfold encode_borrowed_raft_log_entry. pose proof (encode_appending_spec e []) as H.
  destruct (encode_borrowed_raft_log_entry_appending e []) as [after [|]]; naive_solver.
Qed.

(** ** Frames *)

Definition envelope (e : PersistedRaftLogEntry) : list u8 := finish_checksummed (put_entry e).
Definition frame (e : PersistedRaftLogEntry) : list u8 :=
  be_bytes 4 (length_u64 (envelope e)) ++ envelope e.
Definition segment (entries : list PersistedRaftLogEntry) : list u8 := entries ≫= frame.

(** An entry a segment can hold. *)
Definition frameable (e : PersistedRaftLogEntry) : Prop :=
  entry_sized e /\ length_u64 (envelope e) <= u32_max.
Definition framed (e : PersistedRaftLogEntry) : Prop := entry_fits e /\ frameable e.

Lemma append_frame_Ok output e output' :
  append_borrowed_raft_log_frame output e = Ok output' <-> frameable e /\ output' = output ++ frame e.
Proof.
  unfold append_borrowed_raft_log_frame, frameable, frame, envelope.
  destruct (encode_borrowed_raft_log_entry e) as [bs|] eqn:He; simpl.
  - apply encode_borrowed_raft_log_entry_Ok in He as [Hs ->].
    unfold append_encoded_frame, encoded_frame_len.
    destruct (N.leb_spec (length_u64 (finish_checksummed (put_entry e))) u32_max); simpl; split; [naive_solver..|lia].
  - split; [done|]. intros [[Hs _] _]. pose proof (encode_borrowed_raft_log_entry_Ok e (envelope e)) as H.
    rewrite He in H. destruct H as [_ H]. by discriminate H.
Qed.

Lemma length_frame e : length_u64 (frame e) = 4 + length_u64 (envelope e).
Proof. unfold frame. by rewrite length_u64_app, length_u64_be_bytes. Qed.

Lemma segment_app l k : segment (l ++ k) = segment l ++ segment k.
Proof. apply bind_app. Qed.

Lemma segment_cons e l : segment (e :: l) = frame e ++ segment l.
Proof. done. Qed.

Lemma segment_length l : (4 * length l <= length (segment l))%nat.
Proof.
  induction l as [|e l IH]; simpl; [lia|]. rewrite length_app. pose proof (length_frame e). unfold length_u64 in *.
  fold (segment l). lia.
Qed.

(** A reader before [bytes], the rest of the file. *)
Definition frames_at (offset : u64) (bytes : list u8) : RaftLogFrameReader :=
  {| frd_reader := bytes; frd_offset := offset; frd_remaining := length_u64 bytes; frd_finished := false |}.

Lemma length_u64_take {A} n (l : list A) : n <= length_u64 l -> length_u64 (take (N.to_nat n) l) = n.
Proof. unfold length_u64. rewrite length_take. lia. Qed.

Lemma length_u64_drop {A} n (l : list A) : length_u64 (drop (N.to_nat n) l) = length_u64 l - n.
Proof. unfold length_u64. rewrite length_drop. lia. Qed.

(** The course of [next_frame], in terms of the bytes that are left. *)
Lemma next_frame_cases offset bytes :
  bytes = [] /\ (next_frame (frames_at offset bytes)).2 = Ok None \/
  (exists e rest, framed e /\ bytes = frame e ++ rest /\
     next_frame (frames_at offset bytes) =
     (frames_at (offset + length_u64 (frame e)) rest,
      Ok (Some {| frame_offset := offset; frame_entry := e |}))) \/
  (bytes <> [] /\ (forall e rest, framed e -> bytes <> frame e ++ rest) /\
     exists error, (next_frame (frames_at offset bytes)).2 = Err (offset, error)).
Proof.
  unfold next_frame, RAFT_LOG_FRAME_HEADER_LEN. cbn [frd_finished frd_remaining frd_offset frd_reader frames_at].
  destruct bytes as [|b bytes']; [by left|]. set (bytes := b :: bytes'). right.
  assert (length_u64 bytes <> 0) as Hne by (unfold length_u64, bytes; simpl; lia).
  destruct (N.eqb_spec (length_u64 bytes) 0); [lia|]. cbn [orb]. destruct (N.ltb_spec (length_u64 bytes) 4) as [Hl|Hl].
  { right. split; [done|]. split; [|by eexists]. intros e rest _ He. pose proof (f_equal length_u64 He) as Hlen.
    rewrite length_u64_app, length_frame in Hlen. lia. }
  unfold read_to_fill. cbv beta iota zeta. cbn [frd_finished frd_remaining frd_offset frd_reader frames_at].
  rewrite (length_u64_take 4 bytes) by done. cbn [negb N.eqb Pos.eqb].
  set (header := take (N.to_nat 4) bytes). set (reader := drop (N.to_nat 4) bytes).
  assert (length_u64 reader = length_u64 bytes - 4) as Hrd by apply length_u64_drop.
  assert (bytes = header ++ reader) as Hsplit by (symmetry; apply take_drop).
  assert (length header = 4%nat) as Hh4 by (unfold header; rewrite length_take; unfold length_u64 in *; lia).
  (** Any whole frame at the front has the length the header says. *)
  assert (forall e rest, framed e -> bytes = frame e ++ rest ->
    from_be header = length_u64 (envelope e) /\ reader = envelope e ++ rest) as Hfront.
  { intros e rest [_ [_ Hsz]] He. rewrite Hsplit in He. unfold frame in He. rewrite <- app_assoc in He.
    apply app_inj_1 in He as [-> ->]; [|by rewrite length_be_bytes]. split; [|done].
    rewrite from_be_be_bytes, N.mod_small; [done|]. change (256 ^ N.of_nat 4) with 4294967296. unfold u32_max in Hsz. lia. }
  rewrite <- Hrd. destruct (N.ltb_spec (length_u64 reader) (from_be header)) as [Hshort|Hlong].
  { right. split; [done|]. split; [|by eexists]. intros e rest Hf He. destruct (Hfront e rest Hf He) as [Hb Hr].
    rewrite Hb, Hr, length_u64_app in Hshort. lia. }
  rewrite (length_u64_take (from_be header) reader), N.eqb_refl by done. cbn [negb].
  destruct (decode_raft_log_entry (take (N.to_nat (from_be header)) reader)) as [e|error] eqn:Hd.
  - left. apply decode_raft_log_entry_Ok in Hd as [[Hf Hs] He]. fold (envelope e) in He.
    assert (length_u64 (envelope e) = from_be header) as Hle by (rewrite <- He; by apply length_u64_take).
    exists e, (drop (N.to_nat (from_be header)) reader).
    assert (length_u64 (envelope e) <= u32_max) as Hsz.
    { rewrite Hle. pose proof (from_be_bounded header) as Hb. unfold length_u64 in Hb. rewrite Hh4 in Hb.
      change (256 ^ N.of_nat 4) with 4294967296 in Hb. unfold u32_max. lia. }
    split; [done|]. split.
    + rewrite Hsplit at 1. unfold frame. rewrite Hle, <- He.
      replace 4%nat with (length header) by done. by rewrite be_bytes_from_be, <- app_assoc, take_drop.
    + f_equal. unfold frames_at. rewrite length_frame, Hle. f_equal; [lia|]. by rewrite length_u64_drop.
  - right. split; [done|]. split; [|by eexists]. intros e rest Hf He. destruct (Hfront e rest Hf He) as [Hb Hr].
    rewrite Hb, Hr in Hd. unfold length_u64 in Hd. rewrite Nat2N.id, take_app_length in Hd.
    destruct Hf as [Hf [Hs _]]. rewrite (proj2 (decode_raft_log_entry_Ok _ e)) in Hd by done. done.
Qed.

Lemma frame_inj e e' r r' :
  framed e -> framed e' -> frame e ++ r = frame e' ++ r' -> e = e' /\ r = r'.
Proof.
  intros [Hf [Hs Hl]] [Hf' [Hs' Hl']]. unfold frame. rewrite <- !app_assoc. intros H.
  apply app_inj_1 in H as [Hh H]; [|by rewrite !length_be_bytes].
  apply (f_equal from_be) in Hh. unfold u32_max in *. change 4294967295 with (4294967296 - 1) in *.
  rewrite !from_be_be_bytes, !N.mod_small in Hh by (change (256 ^ N.of_nat 4) with 4294967296; lia).
  apply app_inj_1 in H as [He ->]; [|unfold length_u64 in Hh; lia]. split; [|done].
  assert (decode_raft_log_entry (envelope e) = Ok e) as Hd by by apply decode_raft_log_entry_Ok.
  rewrite He, (proj2 (decode_raft_log_entry_Ok _ e')) in Hd by done. by injection Hd.
Qed.

(** Bytes that do not begin with a whole frame. *)
Definition torn (rest : list u8) : Prop := forall e r, framed e -> rest <> frame e ++ r.

Lemma torn_nil : torn [].
Proof. intros e r _ H. apply (f_equal length_u64) in H. rewrite length_u64_app, length_frame in H. unfold length_u64 at 1 in H. simpl in H. lia. Qed.

Lemma torn_cut e rest : framed e -> cut_short rest (frame e) -> torn rest.
Proof.
  intros He [[k Hk] Hl] e' r He' ->. rewrite <- app_assoc in Hk.
  destruct (frame_inj e e' [] (r ++ k)) as [<- Hr]; [done|done|by rewrite app_nil_r|].
  rewrite length_app in Hl. lia.
Qed.

(** The frames of [entries] from [offset] on. *)
Fixpoint frames_of (offset : u64) (entries : list PersistedRaftLogEntry) : list ReplayedRaftLogFrame :=
  match entries with
  | [] => []
  | e :: entries =>
      {| frame_offset := offset; frame_entry := e |} :: frames_of (offset + length_u64 (frame e)) entries
  end.

Lemma frames_of_entries offset entries : frame_entry <$> frames_of offset entries = entries.
Proof. revert offset. induction entries as [|e entries IH]; intros offset; simpl; [done|]. by rewrite IH. Qed.

(** What a scan of a segment followed by [rest] reports. *)
Definition scan_error_at (offset : u64) (rest : list u8) (error : option (u64 * RaftLogReplayError)) : Prop :=
  match rest with
  | [] => error = None
  | _ => exists source, error = Some (offset, source)
  end.

Lemma read_frames_loop_spec fuel offset entries rest acc :
  Forall framed entries -> torn rest -> (length entries < fuel)%nat ->
  exists error, scan_error_at (offset + length_u64 (segment entries)) rest error /\
  read_frames_loop fuel (frames_at offset (segment entries ++ rest)) acc =
  {| scan_frames := acc ++ frames_of offset entries; scan_replay_error := error |}.
Proof.
  intros Hf Ht. revert fuel offset acc. induction Hf as [|e entries He Hf IH]; intros [|fuel] offset acc Hfuel; simpl in Hfuel;
    try lia; cbn [read_frames_loop].
  - simpl segment. cbn [app]. rewrite app_nil_r, N.add_0_r.
    destruct (next_frame_cases offset rest) as [[-> Hn]|[(e & r & He & -> & _)|(Hne & _ & error & Hn)]].
    + destruct (next_frame _) as [r [[]|]]; simplify_eq/=. by eexists.
    + by destruct (Ht e r He).
    + destruct (next_frame _) as [r [|]]; simplify_eq/=. eexists. split; [|done]. destruct rest; [done|]. by eexists.
  - destruct (next_frame_cases offset (segment (e :: entries) ++ rest)) as [[H _]|[(e' & r & He' & Hb & ->)|(_ & Hno & _)]].
    + exfalso. apply (torn_nil e (segment entries ++ rest) He). by rewrite <- H, segment_cons, <- app_assoc.
    + rewrite segment_cons, <- app_assoc in Hb. apply frame_inj in Hb as [<- <-]; [|done..].
      destruct (IH fuel (offset + length_u64 (frame e)) (acc ++ [{| frame_offset := offset; frame_entry := e |}]))
        as (error & Herr & ->); [lia|]. exists error. split; [|by rewrite <- app_assoc].
      change (segment (e :: entries)) with (frame e ++ segment entries). by rewrite length_u64_app, N.add_assoc.
    + exfalso. apply (Hno e (segment entries ++ rest) He). by rewrite segment_cons, <- app_assoc.
Qed.

(** Scanning is exact: every whole frame in order, and the offset of what
    follows them. *)
Lemma read_raft_log_frames_spec entries rest :
  Forall framed entries -> torn rest ->
  exists error, scan_error_at (length_u64 (segment entries)) rest error /\
  read_raft_log_frames (segment entries ++ rest) =
  {| scan_frames := frames_of 0 entries; scan_replay_error := error |}.
Proof.
  intros Hf Ht. unfold read_raft_log_frames.
  destruct (read_frames_loop_spec (S (length (segment entries ++ rest))) 0 entries rest []) as (error & Herr & H);
    [done|done| |by exists error].
  rewrite length_app. pose proof (segment_length entries). lia.
Qed.

(** Every file splits into whole frames and what is torn. *)
Lemma segment_split bytes : exists entries rest, Forall framed entries /\ torn rest /\ bytes = segment entries ++ rest.
Proof.
  induction (Nat.lt_wf_0_projected (@length u8) bytes) as [bytes _ IH].
  destruct (next_frame_cases 0 bytes) as [[-> _]|[(e & r & He & -> & _)|(_ & Ht & _)]].
  - exists [], []. split_and!; [done|apply torn_nil|done].
  - destruct (IH r) as (es & rest & Hes & Ht & ->).
    { rewrite length_app. pose proof (length_frame e). unfold length_u64 in *. lia. }
    exists (e :: es), rest. split_and!; [by constructor|done|]. by rewrite segment_cons, <- app_assoc.
  - by exists [], bytes.
Qed.

(** A segment cut in the entries appended last keeps whole frames of them. *)
Lemma segment_cut entries added c :
  Forall framed added -> segment entries `prefix_of` c -> c `prefix_of` segment (entries ++ added) ->
  exists k rest, c = segment (entries ++ take k added) ++ rest /\ torn rest.
Proof.
  intros Ha [p ->]. rewrite segment_app. intros Hp%prefix_app_inv. revert entries p Hp.
  induction Ha as [|e added He Ha IH]; intros entries p Hp.
  - apply prefix_nil_inv in Hp as ->. exists 0%nat, []. rewrite !app_nil_r. split; [done|apply torn_nil].
  - rewrite segment_cons in Hp. destruct (decide (length p < length (frame e))%nat) as [Hl|Hl].
    + exists 0%nat, p. rewrite app_nil_r. split; [done|]. apply (torn_cut e); [done|]. split; [|done].
      destruct (prefix_weak_total p (frame e) (frame e ++ segment added)) as [|Hx]; [done|by apply prefix_app_r|done|].
      apply prefix_length in Hx. lia.
    + assert (exists q, p = frame e ++ q) as [q ->].
      { destruct Hp as [k Hk]. exists (drop (length (frame e)) p).
        apply (f_equal (take (length (frame e)))) in Hk. rewrite take_app_length, take_app_le in Hk by lia.
        rewrite Hk at 1. by rewrite take_drop. }
      apply prefix_app_inv in Hp. destruct (IH (entries ++ [e]) q Hp) as (k & rest & Hk & Ht).
      exists (S k), rest. split; [|done]. rewrite <- app_assoc in Hk. cbn [take app] in Hk |- *. rewrite <- Hk.
      rewrite segment_app, <- app_assoc. f_equal. by rewrite segment_cons, app_nil_r.
Qed.
