(* ===== verification/FileSystem.v ===== *)
(** * A file system that can fail and crash

    The part of the operating system the file-backed stores of
    [rafter-storage] rely on, as the assumptions of [DURABILITY_PROTOCOL.md]
    state it: a file sync makes the data written before it durable, a rename
    replaces the destination name atomically, and a sync of the parent
    directory makes renames, creations and removals durable
    ([durable_fs.rs]).

    A name keeps what it stood for since the directory was last synced, and a
    file the contents it had since it was last synced.  A crash leaves, for
    each name, one of these; an unsynced append may be torn anywhere, and where
    contents were cut and written again only what they all begin with is
    certain.  System calls take their outcome from a list of faults, and a
    failed call may have taken effect or, for a write, written a part. *)

From Stdlib Require Import Strings.Byte.
From stdpp Require Import base strings list sorting numbers option pretty gmap fin_maps.
From S2P Require Import Prelude.
From S2P Require Import Types.
From S2P Require Import Snapshot.
From S2P Require Import Stores.

(** ** Names *)

(** The replica's directory and [snapshots] in it. *)
Inductive Directory := NodeDirectory | SnapshotDirectory.

#[export] Instance Directory_eq_dec : EqDecision Directory.
Proof. solve_decision. Defined.
#[export] Instance Directory_countable : Countable Directory.
Proof.
  refine (inj_countable' (fun d => if d is NodeDirectory then true else false)
            (fun b => if (b : bool) then NodeDirectory else SnapshotDirectory) _).
  by intros [].
Defined.

Abbreviation StorePath := (Directory * string)%type.

Definition parent_directory (path : StorePath) : Directory := path.1.

Definition path_display (path : StorePath) : string :=
  match path.1 with
  | NodeDirectory => path.2
  | SnapshotDirectory => "snapshots/" +:+ path.2
  end.

(** ** Files and names over time *)

(** The contents, and those it had since the last sync. *)
Record File := {
  file_data : list u8;
  file_unsynced : list (list u8);
}.

(** What the name stands for, and what it stood for since the last sync of its
    directory. *)
Record Entry := {
  entry_now : option File;
  entry_was : list (option File);
}.

Definition clean (data : list u8) : File := {| file_data := data; file_unsynced := [] |}.
Definition settled (data : option (list u8)) : Entry :=
  {| entry_now := clean <$> data; entry_was := [] |}.
Definition vacant : Entry := settled None.

Abbreviation Disk := (gmap StorePath Entry).

Definition entry (d : Disk) (path : StorePath) : Entry := default vacant (d !! path).

(** ** Crashes *)

Definition versions (f : File) : list (list u8) := file_data f :: file_unsynced f.

(** What a crash may leave of a file. *)
Definition survives (f : File) (data : list u8) : Prop :=
  (forall p, (forall v, v ∈ versions f -> p `prefix_of` v) -> p `prefix_of` data) /\
  ((forall v w, v ∈ versions f -> w ∈ versions f -> v `prefix_of` w \/ w `prefix_of` v) ->
   exists v, v ∈ versions f /\ data `prefix_of` v).

(** What a crash may leave under a name. *)
Definition may (e : Entry) (data : option (list u8)) : Prop :=
  exists x, x ∈ entry_now e :: entry_was e /\
    match x, data with
    | None, None => True
    | Some f, Some data => survives f data
    | _, _ => False
    end.

(** The directory [snapshots] is itself a name of the replica's directory. *)
Definition snapshots_path : StorePath := (NodeDirectory, "snapshots").

Definition crash (d d' : Disk) : Prop :=
  exists pick : StorePath -> option (list u8),
    forall path, may (entry d path) (pick path) /\
      entry d' path = settled (
        match parent_directory path, pick snapshots_path with
        | SnapshotDirectory, None => None
        | _, _ => pick path
        end).

(** ** Faults *)

Definition ErrorKind_NotFound : N := 0.
Definition ErrorKind_AlreadyExists : N := 1.
Definition ErrorKind_UnexpectedEof : N := 2.
Definition ErrorKind_Other : N := 3.

Definition not_found_error : StorageIoError :=
  {| io_kind := ErrorKind_NotFound; io_raw_os_error := Some 2%Z;
     io_message := "No such file or directory (os error 2)" |}.
Definition already_exists_error : StorageIoError :=
  {| io_kind := ErrorKind_AlreadyExists; io_raw_os_error := Some 17%Z;
     io_message := "File exists (os error 17)" |}.
Definition unexpected_eof (message : string) : StorageIoError :=
  {| io_kind := ErrorKind_UnexpectedEof; io_raw_os_error := None; io_message := message |}.

(** A failing call: its error and how far it got. *)
Record Fault := {
  fault_error : StorageIoError;
  fault_progress : nat;
}.

Record World := {
  disk : Disk;
  faults : list (option Fault);
  process_id : N;
}.

(** A missing and an existing file are reported for what they are, never as a
    device's failure. *)
Definition device_fault (fault : Fault) : bool :=
  negb (io_kind (fault_error fault) =? ErrorKind_NotFound)
  && negb (io_kind (fault_error fault) =? ErrorKind_AlreadyExists).

(** The outcome of the next call; there are no faults after the last. *)
Definition next_fault (w : World) : World * option Fault :=
  match faults w with
  | [] => (w, None)
  | fault :: faults =>
      ({| disk := disk w; faults := faults; process_id := process_id w |},
       match fault with
       | Some fault => if device_fault fault then Some fault else None
       | None => None
       end)
  end.

Definition io (A : Type) : Type := World -> World * result A StorageIoError.

Definition io_ret {A} (a : A) : io A := fun w => (w, Ok a).
Definition io_fail {A} (error : StorageIoError) : io A := fun w => (w, Err error).
Definition io_bind {A B} (m : io A) (k : A -> io B) : io B := fun w =>
  match m w with
  | (w, Ok a) => k a w
  | (w, Err error) => (w, Err error)
  end.

Notation "'let*' x ':=' m 'in' k" := (io_bind m (fun x => k))
  (at level 10, x pattern, k at level 200) : rafter_scope.

Definition with_disk (w : World) (d : Disk) : World :=
  {| disk := d; faults := faults w; process_id := process_id w |}.

(** A change of the disk that a fault may leave in part. *)
Definition change (whole : Disk -> Disk) (part : nat -> Disk -> Disk) : io unit := fun w =>
  match next_fault w with
  | (w, None) => (with_disk w (whole (disk w)), Ok tt)
  | (w, Some fault) => (with_disk w (part (fault_progress fault) (disk w)), Err (fault_error fault))
  end.

(** A change that takes effect or does not. *)
Definition change_atomic (whole : Disk -> Disk) : io unit :=
  change whole (fun progress d => if Nat.eqb progress 0 then d else whole d).

(** A look at the disk. *)
Definition inspect {A} (look : Disk -> result A StorageIoError) : io A := fun w =>
  match next_fault w with
  | (w, None) => (w, look (disk w))
  | (w, Some fault) => (w, Err (fault_error fault))
  end.

(** ** System calls

    A file is written through the name it was opened by: the stores keep no
    handle over a rename of that name that they still write to. *)

Definition rewritten (data : list u8) (f : File) : File :=
  {| file_data := data; file_unsynced := versions f |}.

Definition renamed (x : option File) (e : Entry) : Entry :=
  {| entry_now := x; entry_was := entry_now e :: entry_was e |}.

Definition update_file (change : File -> File) (e : Entry) : Entry :=
  {| entry_now := change <$> entry_now e; entry_was := entry_was e |}.

Definition settle (e : Entry) : Entry := {| entry_now := entry_now e; entry_was := [] |}.

Definition alter_entry (change : Entry -> Entry) (path : StorePath) (d : Disk) : Disk :=
  <[path := change (entry d path)]> d.

(** [try_exists] and [metadata]. *)
Definition try_exists (path : StorePath) : io bool :=
  inspect (fun d => Ok (if entry_now (entry d path) is Some _ then true else false)).

Definition file_len (path : StorePath) : io u64 :=
  inspect (fun d =>
    match entry_now (entry d path) with
    | Some f => Ok (length_u64 (file_data f))
    | None => Err not_found_error
    end).

(** [File::open] *)
Definition open_read (path : StorePath) : io unit :=
  inspect (fun d => if entry_now (entry d path) is Some _ then Ok tt else Err not_found_error).

(** Everything from the start of an open file. *)
Definition read_to_end (path : StorePath) : io (list u8) :=
  inspect (fun d =>
    match entry_now (entry d path) with
    | Some f => Ok (file_data f)
    | None => Err not_found_error
    end).

(** [OpenOptions] with [create] and [truncate]. *)
Definition truncated (e : Entry) : Entry :=
  match entry_now e with
  | Some f => update_file (rewritten []) e
  | None => renamed (Some (clean [])) e
  end.
Definition open_truncate (path : StorePath) : io unit :=
  change_atomic (alter_entry truncated path).

(** [OpenOptions] with [create] and [append]. *)
Definition created (e : Entry) : Entry :=
  match entry_now e with
  | Some _ => e
  | None => renamed (Some (clean [])) e
  end.
Definition open_append (path : StorePath) : io unit :=
  change_atomic (alter_entry created path).

(** [OpenOptions] with [create_new] and [append]. *)
Definition open_create_new (path : StorePath) : io unit := fun w =>
  match entry_now (entry (disk w) path) with
  | Some _ => io_fail already_exists_error w
  | None => change_atomic (alter_entry created path) w
  end.

Definition write_all (path : StorePath) (bytes : list u8) : io unit :=
  let append bytes := alter_entry (update_file (fun f => rewritten (file_data f ++ bytes) f)) path in
  change (append bytes) (fun progress => append (take progress bytes)).

(** [sync_data] and [sync_all] *)
Definition sync_data (path : StorePath) : io unit :=
  change_atomic (alter_entry (update_file (fun f => clean (file_data f))) path).

Definition set_len (path : StorePath) (len : u64) : io unit :=
  change_atomic (alter_entry (update_file (fun f => rewritten (take (N.to_nat len) (file_data f)) f)) path).

(** [fs::rename] *)
Definition rename (from to : StorePath) : io unit :=
  change_atomic (fun d =>
    alter_entry (renamed None) from (alter_entry (renamed (entry_now (entry d from))) to d)).

(** [fs::remove_file] *)
Definition remove_file (path : StorePath) : io unit := fun w =>
  match entry_now (entry (disk w) path) with
  | None => io_fail not_found_error w
  | Some _ => change_atomic (alter_entry (renamed None) path) w
  end.

(** [create_dir_all]: the directory is a name of its parent. *)
Definition create_dir (path : StorePath) : io unit :=
  change_atomic (alter_entry created path).

Definition settle_directory (directory : Directory) (d : Disk) : Disk :=
  map_imap (fun path e => Some (if decide (parent_directory path = directory) then settle e else e)) d.

Definition sync_directory (directory : Directory) : io unit :=
  change_atomic (settle_directory directory).

Definition sync_parent_directory (path : StorePath) : io unit :=
  sync_directory (parent_directory path).

(** Directories whose sync is put off to the end of an opening. *)
Record ParentDirectorySyncBatch := { batch_parents : list Directory }.

Definition ParentDirectorySyncBatch_new : ParentDirectorySyncBatch := {| batch_parents := [] |}.

Definition record_parent_of (batch : ParentDirectorySyncBatch) (path : StorePath)
  : ParentDirectorySyncBatch :=
  if decide (parent_directory path ∈ batch_parents batch) then batch
  else {| batch_parents := batch_parents batch ++ [parent_directory path] |}.

Fixpoint flush_parents (parents : list Directory) : io unit :=
  match parents with
  | [] => io_ret tt
  | parent :: parents => let* _ := sync_directory parent in flush_parents parents
  end.

(** The batch after the call: emptied, unless a sync failed. *)
Definition flush (batch : ParentDirectorySyncBatch) : io ParentDirectorySyncBatch :=
  let* _ := flush_parents (batch_parents batch) in
  io_ret {| batch_parents := [] |}.

(** ** Post-error health ([file_store_health.rs]) *)

Inductive FileStoreHealth := Healthy | ReopenRequired.

Definition is_reopen_required (health : FileStoreHealth) : bool :=
  match health with Healthy => false | ReopenRequired => true end.

(** ** Replacing a file

    Open a temporary file, write and sync it, rename it over the path and sync
    the directory: the course several stores share, with the step that
    failed. *)
Inductive ReplaceStep := OpenStep | WriteStep | RenameStep | SyncStep.

Definition at_step {A} (step : ReplaceStep) (m : io A)
  : World -> World * result A (ReplaceStep * StorageIoError) := fun w =>
  let (w, r) := m w in (w, map_err (pair step) r).

(** The temporary file, written and synced. *)
Definition write_temp (temp : StorePath) (bytes : list u8) (w : World)
  : World * result unit (ReplaceStep * StorageIoError) :=
  match at_step OpenStep (open_truncate temp) w with
  | (w, Err error) => (w, Err error)
  | (w, Ok _) => at_step WriteStep (let* _ := write_all temp bytes in sync_data temp) w
  end.

(** The rename and the sync of the directory. *)
Definition select_temp (temp path : StorePath) (w : World)
  : World * result unit (ReplaceStep * StorageIoError) :=
  match at_step RenameStep (rename temp path) w with
  | (w, Err error) => (w, Err error)
  | (w, Ok _) => at_step SyncStep (sync_parent_directory path) w
  end.

Definition replace_file (temp path : StorePath) (bytes : list u8) (w : World)
  : World * result unit (ReplaceStep * StorageIoError) :=
  match write_temp temp bytes w with
  | (w, Err error) => (w, Err error)
  | (w, Ok _) => select_temp temp path w
  end.

(** ** Entries *)

Lemma entry_alter change path d : entry (alter_entry change path d) path = change (entry d path).
Proof. unfold entry at 1, alter_entry. by rewrite lookup_insert_eq. Qed.

Lemma entry_alter_ne change path d q : q <> path -> entry (alter_entry change path d) q = entry d q.
Proof. intros. unfold entry at 1, alter_entry. by rewrite lookup_insert_ne. Qed.

Lemma entry_settle_directory directory d q :
  entry (settle_directory directory d) q =
  if decide (parent_directory q = directory) then settle (entry d q) else entry d q.
Proof.
  unfold entry, settle_directory. rewrite map_lookup_imap. destruct (d !! q); simpl; [by case_decide|].
  by case_decide.
Qed.

(** ** What survives *)

Lemma survives_clean data c : survives (clean data) c <-> c = data.
Proof.
  unfold survives, versions, clean. simpl. split.
  - intros [Hp Hv]. destruct Hv as (v & ->%list_elem_of_singleton & Hc).
    { intros v w ->%list_elem_of_singleton ->%list_elem_of_singleton. by left. }
    assert (data `prefix_of` c) as Hd by (apply Hp; by intros v ->%list_elem_of_singleton).
    by apply (anti_symm prefix).
  - intros ->. split; [intros p H; apply H; by constructor|]. intros _. exists data. by split; [constructor|].
Qed.

Lemma may_settled o o' : may (settled o) o' <-> o' = o.
Proof.
  unfold may, settled. simpl. split.
  - intros (x & ->%list_elem_of_singleton & H). destruct o, o'; simpl in H; try done. by apply survives_clean in H as ->.
  - intros ->. exists (clean <$> o). split; [by constructor|]. destruct o; simpl; [by apply survives_clean|done].
Qed.

(** Only appended to since the last sync. *)
Lemma survives_appended base data c :
  base `prefix_of` data -> survives {| file_data := data; file_unsynced := [base] |} c ->
  base `prefix_of` c /\ c `prefix_of` data.
Proof.
  intros Hb [Hp Hv]. split.
  - apply Hp. intros v [->| ->%list_elem_of_singleton]%elem_of_cons; done.
  - destruct Hv as (v & [->| ->%list_elem_of_singleton]%elem_of_cons & Hc); [|done|by etrans].
    intros v w [->| ->%list_elem_of_singleton]%elem_of_cons [->| ->%list_elem_of_singleton]%elem_of_cons; auto.
Qed.

(** Whatever happened to it, a file keeps what all its contents begin with. *)
Lemma survives_prefix f p c : survives f c -> (forall v, v ∈ versions f -> p `prefix_of` v) -> p `prefix_of` c.
Proof. intros [Hp _]. apply Hp. Qed.

(** ** Calmer entries

    Nothing happened to a name but that its directory may have been synced. *)
Definition calmer (e e' : Entry) : Prop :=
  entry_now e' = entry_now e /\ (entry_was e' = entry_was e \/ entry_was e' = []).

#[export] Instance calmer_preorder : PreOrder calmer.
Proof.
  split; [by split; auto|]. intros a b c [H1 H2] [H3 H4]. split; [congruence|]. destruct H4 as [H4|H4]; [by rewrite H4|auto].
Qed.

Lemma calmer_may e e' o : calmer e e' -> may e' o -> may e o.
Proof.
  intros [Hn Hw] (x & Hx & H). exists x. split; [|done]. rewrite Hn in Hx.
  destruct Hw as [Hw|Hw]; rewrite Hw in Hx; [done|]. apply list_elem_of_singleton in Hx as ->. by constructor.
Qed.

Lemma calmer_settled o e : calmer (settled o) e -> e = settled o.
Proof. intros [Hn Hw]. destruct e as [n w]. simpl in *. destruct Hw as [-> | ->]; by subst. Qed.

Lemma calmer_settle e : calmer e (settle e).
Proof. split; auto. Qed.

(** Only the names [ps] were touched. *)
Definition only (ps : list StorePath) (d d' : Disk) : Prop :=
  forall q, q ∉ ps -> calmer (entry d q) (entry d' q).

#[export] Instance only_preorder ps : PreOrder (only ps).
Proof. split; [by intros d q _|]. intros a b c H1 H2 q Hq. etrans; [by apply H1|by apply H2]. Qed.

Lemma only_weaken ps ps' d d' : only ps d d' -> ps ⊆ ps' -> only ps' d d'.
Proof. intros H Hs q Hq. apply H. set_solver. Qed.

Lemma only_alter change path d : only [path] d (alter_entry change path d).
Proof. intros q Hq. rewrite entry_alter_ne by set_solver. done. Qed.

Lemma only_settle_directory directory d : only [] d (settle_directory directory d).
Proof. intros q _. rewrite entry_settle_directory. case_decide; [apply calmer_settle|done]. Qed.

(** ** System calls *)

Lemma next_fault_disk w w' fault : next_fault w = (w', fault) -> disk w' = disk w.
Proof. unfold next_fault. destruct (faults w); intros [= <- _]; done. Qed.

Lemma next_fault_device w w' fault :
  next_fault w = (w', Some fault) ->
  io_kind (fault_error fault) <> ErrorKind_NotFound /\ io_kind (fault_error fault) <> ErrorKind_AlreadyExists.
Proof.
  unfold next_fault. destruct (faults w) as [|[f|] fs]; [done| |done]. destruct (device_fault f) eqn:Hf; [|done].
  intros [= _ <-]. unfold device_fault in Hf. rewrite andb_true_iff, !negb_true_iff, !N.eqb_neq in Hf. done.
Qed.

Lemma change_spec whole part w w' r :
  change whole part w = (w', r) ->
  (r = Ok tt /\ disk w' = whole (disk w)) \/
  (exists error k, r = Err error /\ disk w' = part k (disk w)).
Proof.
  unfold change. destruct (next_fault w) as [w1 [fault|]] eqn:Hn; apply next_fault_disk in Hn; intros [= <- <-];
    simpl; rewrite Hn; eauto.
Qed.

Lemma change_atomic_spec whole w w' r :
  change_atomic whole w = (w', r) ->
  (r = Ok tt /\ disk w' = whole (disk w)) \/
  (exists error, r = Err error /\ (disk w' = disk w \/ disk w' = whole (disk w))).
Proof.
  intros [H|(error & k & Hr & Hd)]%change_spec; [by left|]. right. exists error. split; [done|].
  destruct (Nat.eqb k 0); auto.
Qed.

Lemma inspect_spec {A} (look : Disk -> result A StorageIoError) w w' r :
  inspect look w = (w', r) -> disk w' = disk w /\
  (r = look (disk w) \/ exists error, r = Err error /\
     io_kind error <> ErrorKind_NotFound /\ io_kind error <> ErrorKind_AlreadyExists).
Proof.
  unfold inspect. destruct (next_fault w) as [w1 [fault|]] eqn:Hn; intros [= <- <-].
  - pose proof (next_fault_device _ _ _ Hn). apply next_fault_disk in Hn. eauto.
  - apply next_fault_disk in Hn. rewrite Hn. auto.
Qed.

Lemma io_bind_inv {A B} (m : io A) (k : A -> io B) w w' r :
  (let* a := m in k a) w = (w', r) ->
  (exists w1 a, m w = (w1, Ok a) /\ k a w1 = (w', r)) \/
  (exists error, m w = (w', Err error) /\ r = Err error).
Proof. unfold io_bind. destruct (m w) as [w1 [a|error]] eqn:E; [eauto|]. intros [= <- <-]. eauto. Qed.

Lemma at_step_inv {A} step (m : io A) w w' r :
  at_step step m w = (w', r) -> exists r', m w = (w', r') /\ r = map_err (pair step) r'.
Proof. unfold at_step. destruct (m w) as [w1 r1]. intros [= <- <-]. eauto. Qed.

(** Without faults. *)
Lemma change_atomic_calm whole w :
  faults w = [] -> change_atomic whole w = (with_disk w (whole (disk w)), Ok tt).
Proof. intros Hf. unfold change_atomic, change, next_fault. by rewrite Hf. Qed.

Lemma change_calm whole part w : faults w = [] -> change whole part w = (with_disk w (whole (disk w)), Ok tt).
Proof. intros Hf. unfold change, next_fault. by rewrite Hf. Qed.

Lemma inspect_calm {A} (look : Disk -> result A StorageIoError) w :
  faults w = [] -> inspect look w = (w, look (disk w)).
Proof. intros Hf. unfold inspect, next_fault. by rewrite Hf. Qed.

(** The process stays the same. *)
Definition steady {A} (m : World -> World * A) : Prop := forall w, process_id (m w).1 = process_id w.

Lemma steady_run {A} (m : World -> World * A) w w' r : steady m -> m w = (w', r) -> process_id w' = process_id w.
Proof. intros Hm H. specialize (Hm w). by rewrite H in Hm. Qed.

Lemma steady_change whole part : steady (change whole part).
Proof. intros w. unfold change, next_fault. destruct (faults w) as [|[fault|] ?]; simpl; [done| |done]. by destruct (device_fault fault). Qed.

Lemma steady_inspect {A} (look : Disk -> result A StorageIoError) : steady (inspect look).
Proof. intros w. unfold inspect, next_fault. destruct (faults w) as [|[fault|] ?]; simpl; [done| |done]. by destruct (device_fault fault). Qed.

Lemma steady_bind {A B} (m : io A) (k : A -> io B) : steady m -> (forall a, steady (k a)) -> steady (io_bind m k).
Proof.
  intros Hm Hk w. unfold io_bind. pose proof (Hm w) as H. destruct (m w) as [w1 [a|error]]; simpl in *; [|done].
  by rewrite Hk.
Qed.

Lemma steady_remove_file path : steady (remove_file path).
Proof. intros w. unfold remove_file. destruct (entry_now _); [apply steady_change|done]. Qed.

Create HintDb steady.
#[export] Hint Resolve steady_bind steady_remove_file : steady.
#[export] Hint Extern 2 (steady _) => first [apply steady_change | apply steady_inspect] : steady.

(** The temporary file holds the bytes and they are durable. *)
Lemma write_temp_spec temp bytes w w' r :
  write_temp temp bytes w = (w', r) -> only [temp] (disk w) (disk w') /\
  (r = Ok tt -> entry_now (entry (disk w') temp) = Some (clean bytes)).
Proof.
  unfold write_temp. destruct (at_step OpenStep (open_truncate temp) w) as [w1 r1] eqn:H1.
  apply at_step_inv in H1 as (r1' & H1 & ->).
  assert (only [temp] (disk w) (disk w1)) as Ho1.
  { apply change_atomic_spec in H1 as [[_ ->]|(? & _ & [-> | ->])]; try done; apply only_alter. }
  destruct r1' as [[]|e1]; simpl; [|intros [= <- <-]; done].
  assert (exists f, entry_now (entry (disk w1) temp) = Some f /\ file_data f = []) as (f & Hf & Hfd).
  { apply change_atomic_spec in H1 as [[_ ->]|(? & [=] & _)]. rewrite entry_alter. unfold truncated.
    destruct (entry_now (entry (disk w) temp)) eqn:En; simpl; rewrite ?En; simpl; by eexists. }
  intros (r' & [(w2 & [] & H2 & H3)|(error & H2 & ->)]%io_bind_inv & ->)%at_step_inv.
  - pose proof H2 as [[_ Hd2]|(? & ? & [=] & _)]%change_spec.
    assert (only [temp] (disk w) (disk w2)) as Ho2 by (etrans; [done|]; rewrite Hd2; apply only_alter).
    assert (exists g, entry_now (entry (disk w2) temp) = Some g /\ file_data g = bytes) as (g & Hg & Hgd).
    { rewrite Hd2, entry_alter. simpl. rewrite Hf. simpl. eexists. split; [done|]. simpl. by rewrite Hfd. }
    apply change_atomic_spec in H3 as [[-> Hd]|(error & -> & Hd)].
    + split; [etrans; [done|]; rewrite Hd; apply only_alter|]. intros _. rewrite Hd, entry_alter. simpl.
      rewrite Hg. simpl. by rewrite Hgd.
    + split; [|done]. etrans; [done|]. destruct Hd as [-> | ->]; [done|apply only_alter].
  - split; [|done]. apply change_spec in H2 as [[[=] _]|(? & k & _ & ->)]. etrans; [done|]. apply only_alter.
Qed.

(** Renaming a durable file over [path]: then it is there, or may be. *)
Lemma select_temp_spec temp path bytes w w' r :
  temp <> path -> entry_now (entry (disk w) temp) = Some (clean bytes) ->
  select_temp temp path w = (w', r) -> only [temp; path] (disk w) (disk w') /\
  match r with
  | Ok _ => entry (disk w') path = settled (Some bytes)
  | Err _ => forall o, may (entry (disk w') path) o -> may (entry (disk w) path) o \/ o = Some bytes
  end.
Proof.
  intros Hne Ht. unfold select_temp. destruct (at_step RenameStep (rename temp path) w) as [w1 r1] eqn:H1.
  apply at_step_inv in H1 as (r1' & H1 & ->).
  set (d1 := alter_entry (renamed None) temp (alter_entry (renamed (entry_now (entry (disk w) temp))) path (disk w))).
  assert (only [temp; path] (disk w) d1) as Ho.
  { transitivity (alter_entry (renamed (entry_now (entry (disk w) temp))) path (disk w));
      (eapply only_weaken; [apply only_alter|set_solver]). }
  assert (entry d1 path = renamed (Some (clean bytes)) (entry (disk w) path)) as He.
  { unfold d1. rewrite entry_alter_ne by done. by rewrite entry_alter, Ht. }
  assert (forall o, may (entry d1 path) o -> may (entry (disk w) path) o \/ o = Some bytes) as Hm.
  { intros o. rewrite He. intros (x & [-> |Hx]%elem_of_cons & H); [|left; by exists x].
    destruct o; [|done]. right. by apply survives_clean in H as ->. }
  apply change_atomic_spec in H1 as [[-> Hd]|(error & -> & Hd)]; simpl.
  - fold d1 in Hd. intros (r' & H2 & ->)%at_step_inv. apply change_atomic_spec in H2 as [[-> Hd2]|(error & -> & Hd2)]; simpl.
    + rewrite Hd2, Hd. split; [etrans; [done|]; eapply only_weaken; [apply only_settle_directory|set_solver]|].
      rewrite entry_settle_directory, decide_True by done. by rewrite He.
    + rewrite Hd in Hd2. destruct Hd2 as [-> | ->]; [done|]. split.
      * etrans; [done|]. eapply only_weaken; [apply only_settle_directory|set_solver].
      * intros o Ho'. apply Hm. rewrite entry_settle_directory, decide_True in Ho' by done.
        by eapply calmer_may; [apply calmer_settle|].
  - intros [= <- <-]. destruct Hd as [-> | ->]; [by split; auto|done].
Qed.

(** Replacing is atomic: the old contents, or the new ones, and the new ones
    for certain once it succeeds. *)
Lemma replace_file_spec temp path bytes w w' r :
  temp <> path -> replace_file temp path bytes w = (w', r) ->
  only [temp; path] (disk w) (disk w') /\
  match r with
  | Ok _ => entry (disk w') path = settled (Some bytes)
  | Err _ => forall o, may (entry (disk w') path) o -> may (entry (disk w) path) o \/ o = Some bytes
  end.
Proof.
  intros Hne. unfold replace_file. destruct (write_temp temp bytes w) as [w1 r1] eqn:H1.
  apply write_temp_spec in H1 as [Ho Hok]. destruct r1 as [[]|error].
  - intros H2. apply (select_temp_spec _ _ bytes) in H2 as [Ho2 H2]; [|done|by apply Hok]. split.
    + etrans; [|done]. eapply only_weaken; [done|set_solver].
    + destruct r; [done|]. intros o Ho'. destruct (H2 o Ho') as [H|H]; [left|by right].
      eapply calmer_may; [apply Ho|done]. set_solver.
  - intros [= <- <-]. split; [eapply only_weaken; [done|set_solver]|]. intros o Ho'. left.
    eapply calmer_may; [apply Ho|done]. set_solver.
Qed.

(** Appending to a durable file and syncing it: a crash leaves the old contents
    and some of what was appended. *)
Lemma append_sync_spec path bytes old w w' r :
  entry (disk w) path = settled (Some old) ->
  (let* _ := write_all path bytes in sync_data path) w = (w', r) ->
  only [path] (disk w) (disk w') /\
  match r with
  | Ok _ => entry (disk w') path = settled (Some (old ++ bytes))
  | Err _ => forall data, may (entry (disk w') path) (Some data) -> old `prefix_of` data /\ data `prefix_of` old ++ bytes
  end /\ ~ may (entry (disk w') path) None.
Proof.
  intros He.
  assert (forall k, let e := update_file (fun f => rewritten (file_data f ++ take k bytes) f) (settled (Some old)) in
    (forall data, may e (Some data) -> old `prefix_of` data /\ data `prefix_of` old ++ bytes) /\ ~ may e None) as Hpart.
  { intros k e. split; [|by intros (x & ->%list_elem_of_singleton & ?)].
    intros data (x & ->%list_elem_of_singleton & Hd). simpl in Hd. apply survives_appended in Hd as [H1 H2]; [|by eexists].
    split; [done|]. etrans; [done|]. apply prefix_app, prefix_take. }
  intros [(w1 & [] & H1 & H2)|(error & H1 & ->)]%io_bind_inv.
  - apply change_spec in H1 as [[_ Hd1]|(? & ? & [=] & _)].
    assert (forall d, entry d path = settled (Some (old ++ bytes)) -> ~ may (entry d path) None) as Hnone
      by (intros d ->; rewrite may_settled; done).
    apply change_atomic_spec in H2 as [[-> Hd2]|(error & -> & Hd2)].
    + assert (entry (disk w') path = settled (Some (old ++ bytes))) as Hs by by rewrite Hd2, Hd1, !entry_alter, He.
      split_and!; [|done|by apply Hnone]. rewrite Hd2, Hd1. etrans; apply only_alter.
    + split; [destruct Hd2 as [-> | ->]; rewrite Hd1; [apply only_alter|etrans; apply only_alter]|].
      destruct Hd2 as [-> | ->]; rewrite Hd1, ?entry_alter, He.
      * destruct (Hpart (length bytes)) as [Ha Hb]. rewrite take_ge in Ha, Hb by done. done.
      * change (update_file _ (update_file _ _)) with (settled (Some (old ++ bytes))).
        split; [|by rewrite may_settled]. intros data [= ->]%may_settled. split; [by eexists|done].
  - apply change_spec in H1 as [[[=] _]|(? & k & _ & ->)]. split; [apply only_alter|]. rewrite entry_alter, He. apply Hpart.
Qed.
