(* ===== verification/HardStateFile.v ===== *)
(** * File-backed hard-state stores

    Models [raft_hard_state_store/file.rs], which replaces one envelope, and
    [journal.rs], [journal_recovery.rs] and [journal_checkpoint.rs], which
    append envelopes to a journal and replace it when it is long.  Both are
    implementations of one contract, [HardStateBackend]: a successful write is
    what any later crash leaves, a failed one leaves the old state or the new
    one, and opening after a crash reports what was left. *)

From Stdlib Require Import Strings.Byte.
From stdpp Require Import base strings list sorting numbers option pretty gmap.
From S2P Require Import Prelude.
From S2P Require Import Types.
From S2P Require Import Crc32.
From S2P Require Import Snapshot.
From S2P Require Import Wire.
From S2P Require Import Grammar.
From S2P Require Import CodecSpec.
From S2P Require Import Stores.
From S2P Require Import StorageFormat.
From S2P Require Import StorageSpec.
From S2P Require Import FileSystem.

(** ** One envelope *)

Record FileRaftHardStateStore := {
  fhs_path : StorePath;
  fhs_current : RaftHardState;
  fhs_health : FileStoreHealth;
}.

Inductive OpenRaftHardStateStoreError :=
| OpenHardState_Io (operation path : string) (source : StorageIoError)
| OpenHardState_Decode (error : DecodeRaftHardStateError).

Definition FileRaftHardStateStore_empty (path : StorePath) : FileRaftHardStateStore :=
  {| fhs_path := path; fhs_current := RaftHardState_default; fhs_health := Healthy |}.

Definition FileRaftHardStateStore_open (path : StorePath) (w : World)
  : World * result FileRaftHardStateStore OpenRaftHardStateStoreError :=
  match open_read path w with
  | (w, Err error) =>
      if io_kind error =? ErrorKind_NotFound then (w, Ok (FileRaftHardStateStore_empty path))
      else (w, Err (OpenHardState_Io "open raft hard state" (path_display path) error))
  | (w, Ok _) =>
      match read_to_end path w with
      | (w, Err error) =>
          (w, Err (OpenHardState_Io "read raft hard state" (path_display path) error))
      | (w, Ok bytes) =>
          (w, let? current := map_err OpenHardState_Decode (decode_raft_hard_state bytes) in
              Ok {| fhs_path := path; fhs_current := current; fhs_health := Healthy |})
      end
  end.

Definition fhs_temp_path (s : FileRaftHardStateStore) : StorePath :=
  ((fhs_path s).1, (fhs_path s).2 +:+ ".tmp").

Definition fhs_io_failure (s : FileRaftHardStateStore) (operation : string) (path : StorePath)
    (error : StorageIoError) : FileRaftHardStateStore * RaftHardStateStoreWriteError :=
  ({| fhs_path := fhs_path s; fhs_current := fhs_current s; fhs_health := ReopenRequired |},
   HardStateIo operation (path_display path) error).

Definition FileRaftHardStateStore_write_hard_state (w : World) (s : FileRaftHardStateStore)
    (state : RaftHardState)
  : World * FileRaftHardStateStore * result unit RaftHardStateStoreWriteError :=
  if is_reopen_required (fhs_health s) then (w, s, Err HardStateRequiresReopen)
  else
    let encoded := encode_raft_hard_state state in
    let temp_path := fhs_temp_path s in
    match replace_file temp_path (fhs_path s) encoded w with
    | (w, Err (step, error)) =>
        let (s, error) :=
          match step with
          | OpenStep => fhs_io_failure s "open raft hard state temp file" temp_path error
          | WriteStep => fhs_io_failure s "write raft hard state temp file" temp_path error
          | RenameStep => fhs_io_failure s "replace raft hard state" (fhs_path s) error
          | SyncStep => fhs_io_failure s "sync raft hard state directory" (fhs_path s) error
          end in
        (w, s, Err error)
    | (w, Ok _) =>
        (w, {| fhs_path := fhs_path s; fhs_current := state; fhs_health := fhs_health s |}, Ok tt)
    end.

(** ** The journal *)

Record JournalRaftHardStateStore := {
  jhs_path : StorePath;
  jhs_current : RaftHardState;
  jhs_records : u64;
  jhs_health : FileStoreHealth;
}.

Inductive OpenJournalRaftHardStateStoreError :=
| Journal_InvalidHeader
| Journal_Record (offset : u64) (source : DecodeRaftHardStateError)
| Journal_Io (operation path : string) (source : StorageIoError).

Definition RECORD_LIMIT : u64 := 4096.

Definition checkpoint_temp_path (path : StorePath) : StorePath :=
  (path.1, path.2 +:+ ".checkpoint.tmp").

(** The journal replaced by one record; the handle is the renamed file. *)
Definition checkpoint_publish (path : StorePath) (record : list u8) (w : World)
  : World * result unit StorageIoError :=
  let bytes := journal_header ++ record in
  let (w, r) := replace_file (checkpoint_temp_path path) path bytes w in
  (w, map_err snd r).

(** The next [len] bytes from [offset] on, fewer at the end. *)
Definition read_up_to (path : StorePath) (offset len : u64) : io (list u8) :=
  inspect (fun d =>
    match entry_now (entry d path) with
    | Some f => Ok (take (N.to_nat len) (drop (N.to_nat offset) (file_data f)))
    | None => Err not_found_error
    end).

Definition journal_io {A} (operation : string) (path : StorePath) (r : result A StorageIoError)
  : result A OpenJournalRaftHardStateStoreError :=
  map_err (Journal_Io operation (path_display path)) r.

(** The loop of [recover], with the records of a file of [fuel] bytes. *)
Fixpoint recover_loop (fuel : nat) (path : StorePath) (current : RaftHardState) (offset : u64)
    (w : World) : World * result RaftHardState OpenJournalRaftHardStateStoreError :=
  match fuel with
  | 0%nat => (w, Ok current)
  | S fuel =>
      match read_up_to path offset RECORD_LEN w with
      | (w, Err error) => (w, Err (Journal_Io "read journal record" (path_display path) error))
      | (w, Ok record) =>
          let count := length_u64 record in
          if count =? 0 then (w, Ok current)
          else if count <? RECORD_LEN then
            match set_len path offset w with
            | (w, Err error) =>
                (w, Err (Journal_Io "truncate incomplete journal record" (path_display path) error))
            | (w, Ok _) => (w, Ok current)
            end
          else
            match decode_record record with
            | Err source => (w, Err (Journal_Record offset source))
            | Ok current => recover_loop fuel path current (offset + RECORD_LEN) w
            end
      end
  end.

Definition file_size (path : StorePath) (w : World) : nat :=
  match entry_now (entry (disk w) path) with
  | Some f => length (file_data f)
  | None => 0%nat
  end.

Definition recover (path : StorePath) (w : World)
  : World * result RaftHardState OpenJournalRaftHardStateStoreError :=
  match read_up_to path 0 HEADER_LEN w with
  | (w, Err error) => (w, Err (Journal_Io "read journal header" (path_display path) error))
  | (w, Ok header) =>
      if negb (length_u64 header =? HEADER_LEN) || negb (bool_decide (header = journal_header))
      then (w, Err Journal_InvalidHeader)
      else recover_loop (S (file_size path w)) path RaftHardState_default HEADER_LEN w
  end.

(** Create or open the file; whether it was created. *)
Definition open_journal_file (path : StorePath) (w : World)
  : World * result bool OpenJournalRaftHardStateStoreError :=
  match open_create_new path w with
  | (w, Ok _) => (w, Ok true)
  | (w, Err error) =>
      if io_kind error =? ErrorKind_AlreadyExists then
        match open_read path w with
        | (w, Ok _) => (w, Ok false)
        | (w, Err error) => (w, Err (Journal_Io "open hard-state journal" (path_display path) error))
        end
      else (w, Err (Journal_Io "create hard-state journal" (path_display path) error))
  end.

Definition journal_recovery_open (path : StorePath) (w : World)
  : World * result (RaftHardState * u64) OpenJournalRaftHardStateStoreError :=
  let (w, r) := open_journal_file path w in
  match r with
  | Err error => (w, Err error)
  | Ok opened_new =>
      let (w, r) :=
        if opened_new then
          let (w, r) := write_all path journal_header w in
          (w, let? _ := journal_io "write journal header" path r in Ok RaftHardState_default)
        else recover path w in
      match r with
      | Err error => (w, Err error)
      | Ok current =>
          match sync_data path w with
          | (w, Err error) => (w, Err (Journal_Io "sync recovered journal" (path_display path) error))
          | (w, Ok _) =>
              match sync_parent_directory path w with
              | (w, Err error) => (w, Err (Journal_Io "sync journal directory" (path_display path) error))
              | (w, Ok _) =>
                  match file_len path w with
                  | (w, Err error) =>
                      (w, Err (Journal_Io "inspect recovered journal" (path_display path) error))
                  | (w, Ok len) => (w, Ok (current, (len - HEADER_LEN) / RECORD_LEN))
                  end
              end
          end
      end
  end.

Definition JournalRaftHardStateStore_open (path : StorePath) (w : World)
  : World * result JournalRaftHardStateStore OpenJournalRaftHardStateStoreError :=
  match journal_recovery_open path w with
  | (w, Err error) => (w, Err error)
  | (w, Ok (current, records)) =>
      (w, Ok {| jhs_path := path; jhs_current := current; jhs_records := records;
                jhs_health := Healthy |})
  end.

Definition jhs_io_failure (s : JournalRaftHardStateStore) (operation : string)
    (error : StorageIoError) : JournalRaftHardStateStore * RaftHardStateStoreWriteError :=
  ({| jhs_path := jhs_path s; jhs_current := jhs_current s; jhs_records := jhs_records s;
      jhs_health := ReopenRequired |},
   HardStateIo operation (path_display (jhs_path s)) error).

Definition JournalRaftHardStateStore_write_hard_state (w : World) (s : JournalRaftHardStateStore)
    (state : RaftHardState)
  : World * JournalRaftHardStateStore * result unit RaftHardStateStoreWriteError :=
  let failed w operation error
      : World * JournalRaftHardStateStore * result unit RaftHardStateStoreWriteError :=
    let (s, error) := jhs_io_failure s operation error in (w, s, Err error) in
  if is_reopen_required (jhs_health s) then (w, s, Err HardStateRequiresReopen)
  else
    let encoded := encode_raft_hard_state state in
    if RECORD_LIMIT <=? jhs_records s then
      match checkpoint_publish (jhs_path s) encoded w with
      | (w, Ok _) =>
          (w, {| jhs_path := jhs_path s; jhs_current := state; jhs_records := 1;
                 jhs_health := jhs_health s |}, Ok tt)
      | (w, Err error) => failed w "checkpoint hard-state journal" error
      end
    else
      match write_all (jhs_path s) encoded w with
      | (w, Err error) => failed w "append hard-state journal" error
      | (w, Ok _) =>
          match sync_data (jhs_path s) w with
          | (w, Err error) => failed w "sync hard-state journal" error
          | (w, Ok _) =>
              (w, {| jhs_path := jhs_path s; jhs_current := state;
                     jhs_records := u64_add (jhs_records s) 1; jhs_health := jhs_health s |}, Ok tt)
          end
      end.

(** ** The contract of a hard-state backend *)

(** [directory.join("hard-state")] *)
Definition hard_state_path : StorePath := (NodeDirectory, "hard-state").

(** The names the backends touch. *)
Definition hard_state_names : list StorePath :=
  [hard_state_path; (NodeDirectory, "hard-state.tmp"); (NodeDirectory, "hard-state.checkpoint.tmp")].

Class HardStateBackend (S Err : Type) := {
  hb_open : World -> World * result S Err;
  hb_write : World -> S -> RaftHardState -> World * S * result unit RaftHardStateStoreWriteError;
  hb_current : S -> RaftHardState;
}.

Class HardStateBackendLaws (S Err : Type) `{HardStateBackend S Err} := {
  (** What opening finds in the contents of the file. *)
  hb_reads : option (list u8) -> RaftHardState -> Prop;
  (** The file holds the current state of a healthy handle, durably. *)
  hb_holds : Entry -> S -> Prop;
  hb_holds_settled e s : hb_holds e s -> exists o, e = settled o /\ hb_reads o (hb_current s);
  hb_reads_unique o hs hs' : hb_reads o hs -> hb_reads o hs' -> hs = hs';
  (** A node that has never written. *)
  hb_reads_new : hb_reads None RaftHardState_default;
  hb_holds_fits e s : hb_holds e s -> hard_state_fits (hb_current s);
  hb_open_law o w w' s :
    entry (disk w) hard_state_path = settled o -> hb_open w = (w', Ok s) ->
    only hard_state_names (disk w) (disk w') /\
    hb_holds (entry (disk w') hard_state_path) s /\ hb_reads o (hb_current s);
  (** A failed opening leaves no other state to be found. *)
  hb_open_failed o w w' r :
    entry (disk w) hard_state_path = settled o -> hb_open w = (w', r) -> (forall s, r <> Ok s) ->
    only hard_state_names (disk w) (disk w') /\
    (forall o' hs, may (entry (disk w') hard_state_path) o' -> hb_reads o' hs -> hb_reads o hs);
  hb_open_total o hs w :
    entry (disk w) hard_state_path = settled o -> hb_reads o hs -> faults w = [] ->
    exists w' s, hb_open w = (w', Ok s) /\ faults w' = [];
  hb_write_law w s state w' s' r :
    hb_holds (entry (disk w) hard_state_path) s -> hard_state_fits state ->
    hb_write w s state = (w', s', r) ->
    only hard_state_names (disk w) (disk w') /\
    match r with
    | Ok _ => hb_holds (entry (disk w') hard_state_path) s' /\ hb_current s' = state
    | Err _ => forall o, may (entry (disk w') hard_state_path) o -> exists hs, hb_reads o hs /\
        (hs = hb_current s \/ hs = state)
    end;
}.

(** ** The replaced envelope *)

#[export] Instance file_hard_state_backend :
  HardStateBackend FileRaftHardStateStore OpenRaftHardStateStoreError := {|
  hb_open := FileRaftHardStateStore_open hard_state_path;
  hb_write := FileRaftHardStateStore_write_hard_state;
  hb_current := fhs_current;
|}.

Definition envelope_reads (o : option (list u8)) (hs : RaftHardState) : Prop :=
  match o with
  | None => hs = RaftHardState_default
  | Some bytes => hard_state_fits hs /\ bytes = encode_raft_hard_state hs
  end.

Definition envelope_holds (e : Entry) (s : FileRaftHardStateStore) : Prop :=
  fhs_path s = hard_state_path /\ fhs_health s = Healthy /\
  exists o, e = settled o /\ envelope_reads o (fhs_current s).

Lemma default_fits : hard_state_fits RaftHardState_default.
Proof. done. Qed.

Lemma encode_hard_state_inj hs hs' :
  hard_state_fits hs -> encode_raft_hard_state hs = encode_raft_hard_state hs' -> hard_state_fits hs' -> hs = hs'.
Proof.
  intros Hf He Hf'. assert (decode_raft_hard_state (encode_raft_hard_state hs) = Ok hs) as Hd
    by by apply decode_raft_hard_state_Ok.
  rewrite He, (proj2 (decode_raft_hard_state_Ok _ hs')) in Hd by done. by injection Hd.
Qed.

Lemma envelope_open_law o w w' s :
  entry (disk w) hard_state_path = settled o ->
  FileRaftHardStateStore_open hard_state_path w = (w', Ok s) ->
  disk w' = disk w /\ envelope_holds (entry (disk w') hard_state_path) s /\ envelope_reads o (fhs_current s).
Proof.
  intros He. unfold FileRaftHardStateStore_open. destruct (open_read hard_state_path w) as [w1 r1] eqn:H1.
  apply inspect_spec in H1 as [Hd1 H1]. rewrite He in H1. destruct r1 as [[]|error].
  - destruct (read_to_end hard_state_path w1) as [w2 r2] eqn:H2. apply inspect_spec in H2 as [Hd2 H2].
    rewrite Hd1, He in H2. destruct r2 as [bytes|]; [|done].
    destruct H2 as [H2|(? & [=] & _)]. destruct o as [data|]; [|done]. simplify_eq/=.
    destruct (decode_raft_hard_state data) as [current|] eqn:Hc; [|done]. simpl. intros [= <- <-].
    apply decode_raft_hard_state_Ok in Hc as [Hf ->]. rewrite Hd2, Hd1, He. unfold envelope_holds. simpl.
    split_and!; try done. by eexists.
  - destruct (N.eqb_spec (io_kind error) ErrorKind_NotFound) as [Hk|]; [|done]. intros [= <- <-].
    assert (o = None) as ->. { destruct H1 as [H1|(e & [= <-] & Hne & _)]; [by destruct o|done]. }
    rewrite Hd1, He. unfold envelope_holds. simpl. split_and!; try done. by eexists.
Qed.

Lemma envelope_open_disk w w' r : FileRaftHardStateStore_open hard_state_path w = (w', r) -> disk w' = disk w.
Proof.
  unfold FileRaftHardStateStore_open. destruct (open_read hard_state_path w) as [w1 r1] eqn:H1.
  apply inspect_spec in H1 as [Hd1 _]. rewrite <- Hd1. destruct r1 as [[]|error]; [|by case_match; intros [= <- <-]].
  destruct (read_to_end hard_state_path w1) as [w2 r2] eqn:H2. apply inspect_spec in H2 as [Hd2 _]. rewrite <- Hd2.
  destruct r2; by intros [= <- <-].
Qed.

Lemma envelope_write_law w s state w' s' r :
  envelope_holds (entry (disk w) hard_state_path) s -> hard_state_fits state ->
  FileRaftHardStateStore_write_hard_state w s state = (w', s', r) ->
  only hard_state_names (disk w) (disk w') /\
  match r with
  | Ok _ => envelope_holds (entry (disk w') hard_state_path) s' /\ fhs_current s' = state
  | Err _ => forall o, may (entry (disk w') hard_state_path) o -> exists hs, envelope_reads o hs /\
      (hs = fhs_current s \/ hs = state)
  end.
Proof.
  intros (Hp & Hh & o & He & Hr) Hf. unfold FileRaftHardStateStore_write_hard_state. rewrite Hh. simpl.
  assert (fhs_temp_path s = (NodeDirectory, "hard-state.tmp")) as -> by (unfold fhs_temp_path; by rewrite Hp).
  rewrite Hp.
  destruct (replace_file _ hard_state_path (encode_raft_hard_state state) w) as [w1 r1] eqn:H1.
  apply replace_file_spec in H1 as [Ho H1]; [|done].
  assert (only hard_state_names (disk w) (disk w1)) as Ho' by (eapply only_weaken; [done|set_solver]).
  destruct r1 as [[]|[step error]].
  - intros [= <- <- <-]. split; [done|]. split; [|done]. split_and!; [done|done|]. by eexists.
  - intros H. assert (w' = w1 /\ exists error, r = Err error) as [-> [error' ->]] by (destruct step; simplify_eq/=; eauto).
    split; [done|]. intros o' Ho1. destruct (H1 o' Ho1) as [Ho2| ->].
    + rewrite He in Ho2. apply may_settled in Ho2 as ->. eauto.
    + exists state. by split; [|right].
Qed.

#[export] Instance file_hard_state_laws :
  HardStateBackendLaws FileRaftHardStateStore OpenRaftHardStateStoreError.
Proof.
  refine {| hb_reads := envelope_reads; hb_holds := envelope_holds |}.
  - by intros e s (_ & _ & H).
  - intros [bytes|] hs hs'; simpl; [|congruence]. intros [Hf ->] [Hf' He]. by apply encode_hard_state_inj.
  - done.
  - intros e s (_ & _ & [bytes|] & _ & Hr); simpl in Hr; [apply Hr|]. simpl. rewrite Hr. apply default_fits.
  - intros o w w' s He Ho. destruct (envelope_open_law o w w' s He Ho) as (Hd & Hh & Hr).
    split_and!; [by rewrite Hd|done|done].
  - intros o w w' r He Hd%envelope_open_disk _. rewrite Hd. split; [done|]. intros o' hs. rewrite He, may_settled. by intros ->.
  - intros o hs w He Hr Hf. simpl. unfold FileRaftHardStateStore_open, open_read, read_to_end, inspect, next_fault.
    rewrite Hf, He. destruct o as [bytes|]; simpl in *; [|by eauto].
    rewrite Hf, He. simpl. destruct Hr as [Hfit ->].
    rewrite (proj2 (decode_raft_hard_state_Ok _ hs)) by done. simpl. eauto.
  - intros w s state w' s' r. apply envelope_write_law.
Defined.

(** ** The journal *)

#[export] Instance journal_hard_state_backend :
  HardStateBackend JournalRaftHardStateStore OpenJournalRaftHardStateStoreError := {|
  hb_open := JournalRaftHardStateStore_open hard_state_path;
  hb_write := JournalRaftHardStateStore_write_hard_state;
  hb_current := jhs_current;
|}.

Definition records (states : list RaftHardState) : list u8 := states ≫= encode_raft_hard_state.
Definition journal (states : list RaftHardState) : list u8 := journal_header ++ records states.
Definition journal_state (start : RaftHardState) (states : list RaftHardState) : RaftHardState :=
  default start (last states).

(** Whole records and less than one more. *)
Definition journal_reads (o : option (list u8)) (hs : RaftHardState) : Prop :=
  match o with
  | None => hs = RaftHardState_default
  | Some bytes => exists states rest, bytes = journal states ++ rest /\ (length rest < 51)%nat /\
      Forall hard_state_fits states /\ hs = journal_state RaftHardState_default states
  end.

Definition journal_holds (e : Entry) (s : JournalRaftHardStateStore) : Prop :=
  jhs_path s = hard_state_path /\ jhs_health s = Healthy /\
  exists states, e = settled (Some (journal states)) /\ Forall hard_state_fits states /\
    jhs_current s = journal_state RaftHardState_default states /\ jhs_records s = length_u64 states.

Lemma records_cons hs states : records (hs :: states) = encode_raft_hard_state hs ++ records states.
Proof. done. Qed.
Lemma records_app l k : records (l ++ k) = records l ++ records k.
Proof. apply bind_app. Qed.
Lemma records_length states : length (records states) = (51 * length states)%nat.
Proof.
  induction states as [|hs states IH]; [done|]. rewrite records_cons, length_app, IH, length_encode_raft_hard_state. simpl. lia.
Qed.

Lemma journal_state_cons start hs states : journal_state start (hs :: states) = journal_state hs states.
Proof. unfold journal_state. destruct states as [|hs' states _] using rev_ind; [done|]. by rewrite app_comm_cons, !last_snoc. Qed.
Lemma journal_state_snoc start states hs : journal_state start (states ++ [hs]) = hs.
Proof. unfold journal_state. by rewrite last_snoc. Qed.
Lemma journal_state_fits states :
  Forall hard_state_fits states -> hard_state_fits (journal_state RaftHardState_default states).
Proof.
  intros Hf. destruct states as [|hs states _] using rev_ind; [apply default_fits|].
  rewrite journal_state_snoc. apply Forall_app in Hf as [_ Hf]. by apply Forall_inv in Hf.
Qed.

Lemma records_unique l k r r' :
  Forall hard_state_fits l -> Forall hard_state_fits k -> (length r < 51)%nat -> (length r' < 51)%nat ->
  records l ++ r = records k ++ r' -> l = k.
Proof.
  intros Hl. revert k. induction Hl as [|hs l Hhs Hl IH]; intros k Hk Hr Hr' He.
  - destruct k as [|hs k]; [done|]. apply (f_equal length) in He. rewrite !length_app, records_length in He.
    rewrite records_length in He. simpl in He. lia.
  - destruct Hk as [|hs' k Hhs' Hk].
    { apply (f_equal length) in He. rewrite !length_app, !records_length in He. simpl in He. lia. }
    rewrite !records_cons, <- !app_assoc in He.
    apply app_inj_1 in He as [He Hrest]; [|by rewrite !length_encode_raft_hard_state].
    f_equal; [by apply encode_hard_state_inj|by apply IH].
Qed.

Lemma read_up_to_inv path offset len w w' record f :
  entry_now (entry (disk w) path) = Some f -> read_up_to path offset len w = (w', Ok record) ->
  disk w' = disk w /\ record = take (N.to_nat len) (drop (N.to_nat offset) (file_data f)).
Proof.
  intros Hf [Hd [H|(? & [=] & _)]]%inspect_spec. rewrite Hf in H. by simplify_eq.
Qed.

(** A recovery that succeeds has read whole records to the end, and cut off
    what was less than one. *)
Lemma recover_loop_Ok fuel path current offset w w' hs f pre tail :
  entry_now (entry (disk w) path) = Some f -> file_data f = pre ++ tail -> offset = length_u64 pre ->
  (length tail < fuel)%nat -> recover_loop fuel path current offset w = (w', Ok hs) ->
  exists states rest, tail = records states ++ rest /\ (length rest < 51)%nat /\ Forall hard_state_fits states /\
    hs = journal_state current states /\
    (rest = [] /\ disk w' = disk w \/
     disk w' = alter_entry (update_file (rewritten (pre ++ records states))) path (disk w)).
Proof.
  revert current offset w pre tail. induction fuel as [|fuel IH]; intros current offset w pre tail Hf Hd Ho Hl; [lia|].
  cbn [recover_loop]. destruct (read_up_to path offset RECORD_LEN w) as [w1 [record|]] eqn:H1; [|done].
  apply (read_up_to_inv _ _ _ _ _ _ _ Hf) in H1 as [Hd1 Hrec].
  assert (drop (N.to_nat offset) (file_data f) = tail) as Hdrop.
  { rewrite Hd, Ho. unfold length_u64. by rewrite Nat2N.id, drop_app_length. }
  rewrite Hdrop in Hrec. change (N.to_nat RECORD_LEN) with 51%nat in Hrec.
  assert (length record = Nat.min 51 (length tail)) as Hrl by (rewrite Hrec; apply length_take).
  unfold length_u64 at 1 2. rewrite Hrl. unfold RECORD_LEN.
  destruct (N.eqb_spec (N.of_nat (Nat.min 51 (length tail))) 0) as [Hz|Hz].
  { intros [= <- <-]. assert (tail = []) as -> by (apply nil_length_inv; lia).
    exists [], []. split_and!; [done|simpl; lia|done|done|by left]. }
  destruct (N.ltb_spec (N.of_nat (Nat.min 51 (length tail))) 51) as [Hs|Hs].
  { destruct (set_len path offset w1) as [w2 [|]] eqn:H2; [|done]. intros [= <- <-].
    apply change_atomic_spec in H2 as [[_ Hd2]|(? & [=] & _)].
    exists [], tail. split_and!; [done|lia|done|done|]. right. rewrite Hd2, Hd1. unfold alter_entry. f_equal.
    unfold update_file. rewrite Hf. simpl. rewrite Hd, Ho. unfold length_u64. rewrite Nat2N.id, take_app_length.
    by rewrite app_nil_r. }
  destruct (decode_record record) as [current1|] eqn:Hc; [|done]. intros Hrest.
  apply decode_raft_hard_state_Ok in Hc as [Hfit Henc].
  assert (tail = record ++ drop 51 tail) as Ht by (rewrite Hrec; by rewrite take_drop).
  apply (IH _ _ _ (pre ++ record) (drop 51 tail)) in Hrest as (states & rest & Htail & Hlr & Hfs & -> & Hdisk).
  - exists (current1 :: states), rest. rewrite records_cons, journal_state_cons, <- Henc, <- app_assoc, <- Htail.
    split_and!; [done|done|by constructor|done|]. rewrite Hd1 in Hdisk. by rewrite <- app_assoc in Hdisk.
  - by rewrite Hd1.
  - by rewrite Hd, <- app_assoc, <- Ht.
  - rewrite Ho. unfold length_u64. rewrite length_app, Hrl. lia.
  - rewrite length_drop. lia.
Qed.

(** Without faults, recovery gets through whole records. *)
Lemma recover_loop_total fuel path current offset w f pre states rest :
  entry_now (entry (disk w) path) = Some f -> file_data f = pre ++ records states ++ rest ->
  offset = length_u64 pre -> (length (records states ++ rest) < fuel)%nat -> (length rest < 51)%nat ->
  Forall hard_state_fits states -> faults w = [] ->
  exists w', recover_loop fuel path current offset w = (w', Ok (journal_state current states)) /\ faults w' = [].
Proof.
  revert current offset pre states. induction fuel as [|fuel IH]; intros current offset pre states Hf Hd Ho Hl Hr Hfs Hw; [lia|].
  cbn [recover_loop].
  assert (read_up_to path offset RECORD_LEN w = (w, Ok (take 51 (records states ++ rest)))) as ->.
  { unfold read_up_to, inspect, next_fault. rewrite Hw, Hf, Hd, Ho. unfold length_u64.
    by rewrite Nat2N.id, drop_app_length. }
  destruct Hfs as [|hs states Hhs Hfs].
  - simpl app. rewrite take_ge by lia. unfold RECORD_LEN, length_u64.
    destruct (N.eqb_spec (N.of_nat (length rest)) 0); [by eauto|].
    destruct (N.ltb_spec (N.of_nat (length rest)) 51); [|lia].
    unfold set_len, change_atomic, change, next_fault. rewrite Hw. eauto.
  - rewrite records_cons, <- !app_assoc in *. pose proof (length_encode_raft_hard_state hs) as He.
    rewrite take_app_length' by done. unfold RECORD_LEN, length_u64. rewrite He. simpl N.eqb. simpl N.ltb. cbv iota.
    unfold decode_record. rewrite (proj2 (decode_raft_hard_state_Ok _ hs)) by done.
    rewrite journal_state_cons. apply (IH _ _ (pre ++ encode_raft_hard_state hs)); try done.
    + by rewrite <- app_assoc.
    + rewrite Ho. unfold length_u64. rewrite length_app, He. lia.
    + rewrite length_app in Hl. lia.
Qed.

Lemma journal_header_length : length journal_header = 9%nat.
Proof. done. Qed.
#[local] Opaque journal_header.

Lemma recover_Ok path w w' hs f :
  entry_now (entry (disk w) path) = Some f -> recover path w = (w', Ok hs) ->
  exists states rest, file_data f = journal states ++ rest /\ (length rest < 51)%nat /\
    Forall hard_state_fits states /\ hs = journal_state RaftHardState_default states /\
    (rest = [] /\ disk w' = disk w \/
     disk w' = alter_entry (update_file (rewritten (journal states))) path (disk w)).
Proof.
  intros Hf. unfold recover. destruct (read_up_to path 0 HEADER_LEN w) as [w1 [header|]] eqn:H1; [|done].
  apply (read_up_to_inv _ _ _ _ _ _ _ Hf) in H1 as [Hd1 Hh]. change (N.to_nat HEADER_LEN) with 9%nat in Hh.
  change (drop (N.to_nat 0) (file_data f)) with (file_data f) in Hh.
  destruct (negb (length_u64 header =? HEADER_LEN)) eqn:Hl; [done|].
  destruct (bool_decide_reflect (header = journal_header)) as [Hj|]; [|done]. cbn [negb orb].
  apply negb_false_iff, N.eqb_eq in Hl. intros Hr.
  assert (file_data f = journal_header ++ drop 9 (file_data f)) as Hfd by (rewrite <- Hj, Hh; by rewrite take_drop).
  apply (recover_loop_Ok _ _ _ _ _ _ _ f journal_header (drop 9 (file_data f))) in Hr
    as (states & rest & Ht & Hlr & Hfs & -> & Hdisk).
  - exists states, rest. rewrite Hfd, Ht. unfold journal. rewrite <- app_assoc. rewrite Hd1 in Hdisk. done.
  - by rewrite Hd1.
  - done.
  - unfold length_u64. by rewrite journal_header_length.
  - unfold file_size. rewrite Hd1, Hf, length_drop. lia.
Qed.

(** The directory synced after the file: everything about the name is
    durable. *)
Lemma synced_entry path w w1 w2 f :
  entry_now (entry (disk w) path) = Some f ->
  sync_data path w = (w1, Ok tt) -> sync_parent_directory path w1 = (w2, Ok tt) ->
  entry (disk w2) path = settled (Some (file_data f)) /\ only [path] (disk w) (disk w2).
Proof.
  intros Hf [[_ Hd1]|(? & [=] & _)]%change_atomic_spec [[_ Hd2]|(? & [=] & _)]%change_atomic_spec. split.
  - rewrite Hd2, entry_settle_directory, decide_True by done. rewrite Hd1, entry_alter. unfold settle, update_file.
    simpl. by rewrite Hf.
  - rewrite Hd2, Hd1. etrans; [apply only_alter|]. eapply only_weaken; [apply only_settle_directory|set_solver].
Qed.

Lemma open_journal_file_Ok path o w w1 opened_new :
  entry (disk w) path = settled o -> open_journal_file path w = (w1, Ok opened_new) ->
  match o with
  | None => opened_new = true /\ disk w1 = alter_entry created path (disk w)
  | Some _ => opened_new = false /\ disk w1 = disk w
  end.
Proof.
  intros He. unfold open_journal_file, open_create_new. rewrite He. destruct o as [bytes|]; simpl.
  - destruct (open_read path w) as [w2 [[]|]] eqn:H2; [|done]. intros [= <- <-].
    apply inspect_spec in H2 as [Hd _]. done.
  - destruct (change_atomic (alter_entry created path) w) as [w2 r2] eqn:H2.
    pose proof H2 as Hdev. apply change_atomic_spec in H2 as [[-> Hd]|(error & -> & _)]; [by intros [= <- <-]|].
    assert (io_kind error <> ErrorKind_AlreadyExists) as Hk.
    { unfold change_atomic, change in Hdev. destruct (next_fault w) as [w3 [fault|]] eqn:Hn; [|done].
      apply next_fault_device in Hn as [_ Hn]. by injection Hdev as _ <-. }
    destruct (N.eqb_spec (io_kind error) ErrorKind_AlreadyExists); [done|]. done.
Qed.

(** A recovery cuts off less than a record, or nothing. *)
Lemma recover_loop_disk fuel path current offset w w' r f pre tail :
  entry_now (entry (disk w) path) = Some f -> file_data f = pre ++ tail -> offset = length_u64 pre ->
  recover_loop fuel path current offset w = (w', r) ->
  disk w' = disk w \/ exists states rest, tail = records states ++ rest /\ (length rest < 51)%nat /\ Forall hard_state_fits states /\
    disk w' = alter_entry (update_file (rewritten (pre ++ records states))) path (disk w).
Proof.
  revert current offset w pre tail. induction fuel as [|fuel IH]; intros current offset w pre tail Hf Hd Ho; [by intros [= <- <-]; left|].
  cbn [recover_loop]. destruct (read_up_to path offset RECORD_LEN w) as [w1 [record|]] eqn:H1.
  2: { intros [= <- <-]. apply inspect_spec in H1 as [-> _]. by left. }
  apply (read_up_to_inv _ _ _ _ _ _ _ Hf) in H1 as [Hd1 Hrec].
  assert (drop (N.to_nat offset) (file_data f) = tail) as Hdrop.
  { rewrite Hd, Ho. unfold length_u64. by rewrite Nat2N.id, drop_app_length. }
  rewrite Hdrop in Hrec. change (N.to_nat RECORD_LEN) with 51%nat in Hrec.
  assert (length record = Nat.min 51 (length tail)) as Hrl by (rewrite Hrec; apply length_take).
  unfold length_u64 at 1 2. rewrite Hrl. unfold RECORD_LEN.
  destruct (N.eqb_spec (N.of_nat (Nat.min 51 (length tail))) 0) as [Hz|Hz]; [intros [= <- <-]; by left|].
  destruct (N.ltb_spec (N.of_nat (Nat.min 51 (length tail))) 51) as [Hs|Hs].
  { destruct (set_len path offset w1) as [w2 r2] eqn:H2. intros Hr. assert (w' = w2) as -> by (destruct r2; congruence).
    apply change_atomic_spec in H2 as [[_ Hd2]|(? & _ & [Hd2|Hd2])]; rewrite Hd1 in Hd2; [right|by left|right];
      (exists [], tail; split_and!; [done|lia|done|]; rewrite Hd2; unfold alter_entry; f_equal; unfold update_file;
       rewrite Hf; simpl; rewrite Hd, Ho; unfold length_u64; rewrite Nat2N.id, take_app_length; by rewrite app_nil_r). }
  destruct (decode_record record) as [current1|] eqn:Hc; [|intros [= <- <-]; by left]. intros Hrest.
  apply decode_raft_hard_state_Ok in Hc as [Hfit Henc].
  assert (tail = record ++ drop 51 tail) as Ht by (rewrite Hrec; by rewrite take_drop).
  apply (IH _ _ _ (pre ++ record) (drop 51 tail)) in Hrest as [Hsame|(states & rest & Htail & Hlr & Hfs & Hdisk)].
  - left. by rewrite Hsame.
  - right. exists (current1 :: states), rest. rewrite records_cons, <- Henc, <- app_assoc, <- Htail.
    split_and!; [done|done|by constructor|]. rewrite Hd1 in Hdisk. by rewrite <- app_assoc in Hdisk.
  - by rewrite Hd1.
  - by rewrite Hd, <- app_assoc, <- Ht.
  - rewrite Ho. unfold length_u64. rewrite length_app, Hrl. lia.
Qed.

(** What an interrupted opening may have done: a part of the header of a new
    journal, or the cut of a torn record. *)
Definition interrupted (o : option (list u8)) (e : Entry) : Prop :=
  match o with
  | None => forall f, Some f ∈ entry_now e :: entry_was e -> forall v, v ∈ versions f -> v `prefix_of` journal_header
  | Some bytes => e = settled o \/ exists states rest f, bytes = journal states ++ rest /\ (length rest < 51)%nat /\
      Forall hard_state_fits states /\ entry_now e = Some f /\ entry_was e = [] /\
      forall v, v ∈ versions f -> journal states `prefix_of` v /\ v `prefix_of` bytes
  end.

Lemma interrupted_settled o : interrupted o (settled o).
Proof.
  destruct o as [bytes|]; [by left|]. intros f Hf. simpl in Hf. apply list_elem_of_singleton in Hf. done.
Qed.

Lemma interrupted_sync o e : interrupted o e -> interrupted o (update_file (fun f => clean (file_data f)) e).
Proof.
  destruct o as [bytes|]; simpl.
  - intros [-> |(states & rest & f & Hb & Hl & Hf & Hn & Hw & Hv)]; [by left|]. right.
    exists states, rest, (clean (file_data f)). rewrite Hn. split_and!; try done.
    intros v ->%list_elem_of_singleton. apply Hv. by constructor.
  - intros H f [Hf|Hf]%elem_of_cons v Hv; [|by eapply (H f); [by constructor|]].
    destruct (entry_now e) as [g|]; [|done]. injection Hf as ->. apply list_elem_of_singleton in Hv as ->. simpl.
    apply (H g); by constructor.
Qed.

Lemma interrupted_calmer o e e' : interrupted o e -> calmer e e' -> interrupted o e'.
Proof.
  intros H [Hn Hw]. destruct o as [bytes|]; simpl in *.
  - destruct H as [-> |(states & rest & f & Hb & Hl & Hf & Hne & Hwe & Hv)]; [left; by apply calmer_settled|]. right.
    exists states, rest, f. rewrite Hn. split_and!; try done. destruct Hw as [-> | ->]; done.
  - intros f Hf. apply (H f). rewrite Hn in Hf. destruct Hw as [Hw|Hw]; rewrite Hw in Hf; [done|].
    apply list_elem_of_singleton in Hf as ->. by constructor.
Qed.

(** Whatever a crash leaves of it, no other state is found. *)
Lemma interrupted_reads o e o' hs : interrupted o e -> may e o' -> journal_reads o' hs -> journal_reads o hs.
Proof.
  intros Hi Hmay Hreads. destruct o as [bytes|]; simpl in Hi.
  - destruct Hi as [-> |(states & rest & f & -> & Hl & Hf & Hn & Hw & Hv)]; [by apply may_settled in Hmay as <-|].
    destruct Hmay as (x & Hx & Hs). rewrite Hn, Hw in Hx. apply list_elem_of_singleton in Hx as ->. destruct o' as [c|]; [|done].
    assert (journal states `prefix_of` c) as [rest' ->] by (eapply survives_prefix; [done|]; intros v Hin; by apply Hv).
    destruct Hs as [_ Hs]. destruct Hs as (v & Hin & Hpre).
    { intros v v' H1 H2. destruct (Hv v H1) as [_ Hp1], (Hv v' H2) as [_ Hp2]. by eapply prefix_weak_total. }
    assert (journal states ++ rest' `prefix_of` journal states ++ rest) as [k Hk]%prefix_app_inv by (etrans; [done|by apply Hv]).
    destruct Hreads as (states' & rest'' & Heq & Hl'' & Hf' & ->). exists states, rest. split_and!; [done|done|done|].
    unfold journal in Heq. rewrite <- !app_assoc in Heq. apply app_inv_head in Heq.
    apply (f_equal length) in Hk. rewrite length_app in Hk. by rewrite (records_unique states states' rest' rest'') by (done || lia).
  - destruct o' as [c|]; [|done]. destruct Hmay as (x & Hx & Hs). destruct x as [f|]; [|done]. specialize (Hi f Hx).
    destruct Hs as [_ Hs]. destruct Hs as (v & Hin & Hpre).
    { intros v v' H1 H2. eapply prefix_weak_total; by apply Hi. }
    destruct Hreads as (states & rest & -> & Hl & Hf & ->). destruct states as [|hs states]; [done|]. exfalso.
    assert (journal (hs :: states) ++ rest `prefix_of` journal_header) as Hp by (etrans; [done|by apply Hi]).
    apply prefix_length in Hp. unfold journal in Hp. rewrite !length_app, records_length, journal_header_length in Hp. simpl in Hp. lia.
Qed.

(** The contents found by the rest of the opening, and what it reports. *)
Lemma journal_open_law o w w' s :
  entry (disk w) hard_state_path = settled o ->
  JournalRaftHardStateStore_open hard_state_path w = (w', Ok s) ->
  only [hard_state_path] (disk w) (disk w') /\
  journal_holds (entry (disk w') hard_state_path) s /\ journal_reads o (jhs_current s).
Proof.
  intros He. unfold JournalRaftHardStateStore_open, journal_recovery_open.
  destruct (open_journal_file hard_state_path w) as [w1 [opened_new|]] eqn:H1; [|done].
  apply (open_journal_file_Ok _ o) in H1 as H1; [|done].
  assert (only [hard_state_path] (disk w) (disk w1)) as Ho1.
  { destruct o; destruct H1 as [_ ->]; [done|apply only_alter]. }
  match goal with |- context [if opened_new then ?a else ?b] =>
    destruct (if opened_new then a else b) as [w2 r2] eqn:H2 end.
  destruct r2 as [hs|]; [|done]. intros Hrest.
  assert (exists states f, entry_now (entry (disk w2) hard_state_path) = Some f /\ file_data f = journal states /\
    Forall hard_state_fits states /\ hs = journal_state RaftHardState_default states /\
    journal_reads o hs /\ only [hard_state_path] (disk w) (disk w2)) as (states & f & Hf & Hfd & Hfs & -> & Hreads & Ho2).
  { destruct o as [bytes|], H1 as [-> Hd1].
    - assert (entry_now (entry (disk w1) hard_state_path) = Some (clean bytes)) as Hf by by rewrite Hd1, He.
      apply (recover_Ok _ _ _ _ _ Hf) in H2 as (states & rest & Hb & Hl & Hfs & -> & Hd). simpl in Hb.
      exists states. destruct Hd as [[-> Hd]|Hd].
      + exists (clean bytes). rewrite Hd. rewrite app_nil_r in Hb. simpl. split_and!; try done.
        exists states, []. by rewrite app_nil_r.
      + exists (rewritten (journal states) (clean bytes)). rewrite Hd, entry_alter. simpl. rewrite Hf.
        split_and!; try done; [by exists states, rest|]. etrans; [done|apply only_alter].
    - destruct (write_all hard_state_path journal_header w1) as [w3 [[]|]] eqn:H3; [|done]. injection H2 as <- <-.
      apply change_spec in H3 as [[_ Hd3]|(? & ? & [=] & _)]. exists [], (rewritten journal_header (clean [])).
      rewrite Hd3, entry_alter, Hd1, entry_alter, He. split_and!; try done.
      etrans; [apply only_alter|apply only_alter]. }
  destruct (sync_data hard_state_path w2) as [w3 [[]|]] eqn:H3; [|done].
  destruct (sync_parent_directory hard_state_path w3) as [w4 [[]|]] eqn:H4; [|done].
  destruct (synced_entry _ _ _ _ _ Hf H3 H4) as [He4 Ho4].
  destruct (file_len hard_state_path w4) as [w5 [len|]] eqn:H5; [|done].
  apply inspect_spec in H5 as [Hd5 [H5|(? & [=] & _)]]. rewrite He4 in H5. simpl in H5. injection H5 as ->.
  injection Hrest as <- <-. rewrite Hd5, He4. split_and!; [by etrans| |done].
  split_and!; [done|done|]. exists states. rewrite Hfd. split_and!; [done..|]. simpl.
  unfold journal, length_u64, HEADER_LEN, RECORD_LEN. rewrite length_app, records_length, journal_header_length.
  replace (N.of_nat (9 + 51 * length states) - 9) with (N.of_nat (length states) * 51) by lia.
  by rewrite N.div_mul.
Qed.

Lemma recover_interrupted o w w' r bytes :
  o = Some bytes -> entry (disk w) hard_state_path = settled o -> recover hard_state_path w = (w', r) ->
  only [hard_state_path] (disk w) (disk w') /\ interrupted o (entry (disk w') hard_state_path).
Proof.
  intros -> He. assert (only [hard_state_path] (disk w) (disk w) /\ interrupted (Some bytes) (entry (disk w) hard_state_path)) as Hsame.
  { split; [done|]. rewrite He. apply interrupted_settled. }
  assert (entry_now (entry (disk w) hard_state_path) = Some (clean bytes)) as Hf by by rewrite He.
  unfold recover. destruct (read_up_to hard_state_path 0 HEADER_LEN w) as [w1 [header|]] eqn:H1.
  2: { intros [= <- <-]. apply inspect_spec in H1 as [Hd _]. by rewrite Hd. }
  apply (read_up_to_inv _ _ _ _ _ _ _ Hf) in H1 as [Hd1 Hh]. change (N.to_nat HEADER_LEN) with 9%nat in Hh.
  change (drop (N.to_nat 0) (file_data (clean bytes))) with bytes in Hh.
  destruct (negb (length_u64 header =? HEADER_LEN) || negb (bool_decide (header = journal_header))) eqn:Hc; [intros [= <- <-]; by rewrite Hd1|].
  apply orb_false_iff in Hc as [_ Hj%negb_false_iff%bool_decide_eq_true].
  assert (bytes = journal_header ++ drop 9 bytes) as Hb by (rewrite <- Hj, Hh; by rewrite take_drop). rewrite <- Hd1 in Hf.
  intros Hr. apply (recover_loop_disk _ _ _ _ _ _ _ (clean bytes) journal_header (drop 9 bytes)) in Hr as
    [Hd|(states & rest & Ht & Hl & Hfs & Hd)]; [by rewrite Hd, Hd1|..|done|done|done].
  rewrite Hd, Hd1. split; [apply only_alter|]. rewrite entry_alter, He. right. exists states, rest, (rewritten (journal states) (clean bytes)).
  assert (bytes = journal states ++ rest) as Hbytes by (rewrite Hb, Ht; unfold journal; by rewrite <- app_assoc).
  split_and!; try done. intros v [-> | ->%list_elem_of_singleton]%elem_of_cons; simpl.
  - split; [done|]. rewrite Hbytes. by eexists.
  - split; [|done]. rewrite Hbytes. by eexists.
Qed.

(** The file created with a part of its header, or found as it was. *)
Lemma open_journal_interrupted o w w1 r1 :
  entry (disk w) hard_state_path = settled o -> open_journal_file hard_state_path w = (w1, r1) ->
  only [hard_state_path] (disk w) (disk w1) /\ interrupted o (entry (disk w1) hard_state_path).
Proof.
  intros He. assert (only [hard_state_path] (disk w) (disk w) /\ interrupted o (entry (disk w) hard_state_path)) as Hsame.
  { split; [done|]. rewrite He. apply interrupted_settled. }
  unfold open_journal_file, open_create_new. rewrite He. destruct o as [bytes|]; simpl.
  - destruct (open_read hard_state_path w) as [w2 r2] eqn:H2. apply inspect_spec in H2 as [Hd _]. rewrite <- Hd in *.
    destruct r2; by intros [= <- <-].
  - destruct (change_atomic _ w) as [w2 r2] eqn:H2.
    assert (only [hard_state_path] (disk w) (disk w2) /\ interrupted None (entry (disk w2) hard_state_path)) as Hw2.
    { apply change_atomic_spec in H2 as [[_ ->]|(? & _ & [-> | ->])]; [|done|]; (split; [apply only_alter|]); rewrite entry_alter, He; simpl;
        intros f; rewrite elem_of_cons, list_elem_of_singleton; (intros [[= ->]|[=]] v ->%list_elem_of_singleton); apply prefix_nil. }
    destruct r2 as [[]|error]; [by intros [= <- <-]|]. case_match; [|by intros [= <- <-]].
    destruct (open_read hard_state_path w2) as [w3 r3] eqn:H3. apply inspect_spec in H3 as [Hd _]. rewrite <- Hd in *.
    destruct r3; by intros [= <- <-].
Qed.

Lemma recover_total path w f states rest :
  entry_now (entry (disk w) path) = Some f -> file_data f = journal states ++ rest -> (length rest < 51)%nat ->
  Forall hard_state_fits states -> faults w = [] ->
  exists w' hs, recover path w = (w', Ok hs) /\ faults w' = [] /\
    exists f, entry_now (entry (disk w') path) = Some f.
Proof.
  intros Hf Hd Hl Hfs Hw. destruct (recover_loop_total (S (file_size path w)) path RaftHardState_default HEADER_LEN w
    f journal_header states rest) as (w2 & Hw2 & Hf2); [done|..|done|done|done|].
  { rewrite Hd. unfold journal. by rewrite <- app_assoc. }
  { unfold length_u64. by rewrite journal_header_length. }
  { unfold file_size. rewrite Hf, Hd. unfold journal. rewrite <- app_assoc, (length_app journal_header). lia. }
  assert (recover path w = (w2, Ok (journal_state RaftHardState_default states))) as Hr.
  { unfold recover, read_up_to. rewrite inspect_calm, Hf, Hd by done. unfold journal.
    change (drop (N.to_nat 0) ?l) with l. rewrite <- app_assoc, take_app_length' by done.
    rewrite bool_decide_true by done. done. }
  exists w2, (journal_state RaftHardState_default states). split_and!; [done..|].
  apply (recover_Ok _ _ _ _ _ Hf) in Hr as (? & ? & _ & _ & _ & _ & [[_ ->]| ->]); [by eauto|].
  rewrite entry_alter. simpl. rewrite Hf. simpl. eauto.
Qed.

Lemma journal_open_total o hs w :
  entry (disk w) hard_state_path = settled o -> journal_reads o hs -> faults w = [] ->
  exists w' s, JournalRaftHardStateStore_open hard_state_path w = (w', Ok s) /\ faults w' = [].
Proof.
  intros He Hr Hf. unfold JournalRaftHardStateStore_open, journal_recovery_open.
  assert (exists w1 r1, open_journal_file hard_state_path w = (w1, Ok r1) /\ faults w1 = [] /\
    exists w2 current, (if r1 then let (w, r) := write_all hard_state_path journal_header w1 in
       (w, let? _ := journal_io "write journal header" hard_state_path r in Ok RaftHardState_default)
     else recover hard_state_path w1) = (w2, Ok current) /\ faults w2 = [] /\
    exists f, entry_now (entry (disk w2) hard_state_path) = Some f)
    as (w1 & r1 & -> & Hf1 & w2 & current & -> & Hf2 & f & Hnow).
  { unfold open_journal_file, open_create_new. rewrite He. destruct o as [bytes|]; simpl.
    - unfold open_read. rewrite inspect_calm, He by done. simpl. exists w, false. split_and!; [done..|].
      destruct Hr as (states & rest & -> & Hl & Hfs & ->).
      apply (recover_total _ _ (clean (journal states ++ rest)) states rest); try done. by rewrite He.
    - rewrite change_atomic_calm by done. eexists _, true. split_and!; [done..|].
      unfold write_all. rewrite change_calm by done. simpl. eexists _, _. split_and!; [done..|]. simpl.
      rewrite entry_alter. simpl. rewrite entry_alter, He. simpl. eauto. }
  unfold sync_data. rewrite change_atomic_calm by done. unfold sync_parent_directory, sync_directory.
  rewrite change_atomic_calm by done. unfold file_len. rewrite inspect_calm by done. simpl.
  rewrite entry_settle_directory, decide_True by done. rewrite entry_alter. simpl. rewrite Hnow. simpl. eauto.
Qed.

(** However the opening ends, the same states are found. *)
Lemma journal_open_interrupted o w w' r :
  entry (disk w) hard_state_path = settled o -> JournalRaftHardStateStore_open hard_state_path w = (w', r) ->
  only [hard_state_path] (disk w) (disk w') /\ interrupted o (entry (disk w') hard_state_path).
Proof.
  intros He. unfold JournalRaftHardStateStore_open, journal_recovery_open.
  destruct (open_journal_file hard_state_path w) as [w1 r1] eqn:H1.
  pose proof (open_journal_interrupted _ _ _ _ He H1) as [Ho1 Hi1]. destruct r1 as [opened_new|]; [|by intros [= <- <-]].
  apply (open_journal_file_Ok _ _ _ _ _ He) in H1.
  match goal with |- context [if opened_new then ?a else ?b] =>
    destruct (if opened_new then a else b) as [w2 r2] eqn:H2 end.
  assert (only [hard_state_path] (disk w) (disk w2) /\ interrupted o (entry (disk w2) hard_state_path)) as [Ho2 Hi2].
  { destruct o as [bytes|]; destruct H1 as [-> Hd1].
    - rewrite <- Hd1 in *. by eapply recover_interrupted.
    - destruct (write_all hard_state_path journal_header w1) as [w3 r3] eqn:H3. injection H2 as <- _.
      assert (exists k, disk w3 = alter_entry (update_file (fun f => rewritten (file_data f ++ take k journal_header) f)) hard_state_path (disk w1)) as (k & Hd3).
      { apply change_spec in H3 as [[_ ->]|(? & k & _ & ->)]; [exists 9%nat; by rewrite take_ge|by exists k]. }
      rewrite Hd3, Hd1. split; [etrans; apply only_alter|]. rewrite !entry_alter, He. simpl.
      intros f. rewrite elem_of_cons, list_elem_of_singleton. intros [[= ->]|[=]] v. simpl.
      intros [-> | ->%list_elem_of_singleton]%elem_of_cons; [apply prefix_take|apply prefix_nil]. }
  destruct r2 as [hs|]; [|by intros [= <- <-]].
  destruct (sync_data hard_state_path w2) as [w3 r3] eqn:H3.
  assert (only [hard_state_path] (disk w) (disk w3) /\ interrupted o (entry (disk w3) hard_state_path)) as [Ho3 Hi3].
  { apply change_atomic_spec in H3 as [[_ ->]|(? & _ & [-> | ->])]; [|done|];
      (split; [etrans; [done|apply only_alter]|]); rewrite entry_alter; by apply interrupted_sync. }
  destruct r3; [|by intros [= <- <-]]. destruct (sync_parent_directory hard_state_path w3) as [w4 r4] eqn:H4.
  assert (only [] (disk w3) (disk w4)) as Hs4.
  { apply change_atomic_spec in H4 as [[_ ->]|(? & _ & [-> | ->])]; try done; apply only_settle_directory. }
  assert (only [hard_state_path] (disk w) (disk w4) /\ interrupted o (entry (disk w4) hard_state_path)) as [Ho4 Hi4].
  { split; [etrans; [done|]; eapply only_weaken; [done|set_solver]|]. eapply interrupted_calmer; [done|]. apply Hs4. set_solver. }
  destruct r4; [|by intros [= <- <-]]. destruct (file_len hard_state_path w4) as [w5 r5] eqn:H5.
  apply inspect_spec in H5 as [Hd5 _]. rewrite <- Hd5 in Ho4, Hi4. destruct r5; by intros [= <- <-].
Qed.

(** A torn record leaves the states before it. *)
Lemma journal_torn states state c :
  Forall hard_state_fits states -> hard_state_fits state ->
  journal states `prefix_of` c -> c `prefix_of` journal states ++ encode_raft_hard_state state ->
  exists hs, journal_reads (Some c) hs /\
    (hs = journal_state RaftHardState_default states \/ hs = state).
Proof.
  intros Hfs Hf [x ->] Hx%prefix_app_inv.
  destruct (decide (length x < 51)%nat) as [Hl|Hl].
  - eexists. split; [by exists states, x|by left].
  - assert (x = encode_raft_hard_state state) as ->.
    { apply (anti_symm prefix); [done|]. destruct Hx as [k Hk].
      assert (k = []) as ->; [|rewrite app_nil_r in Hk; by rewrite Hk].
      apply nil_length_inv. apply (f_equal length) in Hk. rewrite length_app, length_encode_raft_hard_state in Hk. lia. }
    exists state. split; [|by right]. exists (states ++ [state]), [].
    unfold journal. rewrite records_app, journal_state_snoc, app_nil_r, <- app_assoc. split_and!; [|simpl; lia| |done].
    + do 2 f_equal. unfold records. simpl. by rewrite app_nil_r.
    + apply Forall_app; split; [done|by constructor].
Qed.

Lemma journal_append_law w state w' r states :
  entry (disk w) hard_state_path = settled (Some (journal states)) -> Forall hard_state_fits states ->
  hard_state_fits state ->
  (let* _ := write_all hard_state_path (encode_raft_hard_state state) in sync_data hard_state_path) w = (w', r) ->
  only [hard_state_path] (disk w) (disk w') /\
  match r with
  | Ok _ => entry (disk w') hard_state_path = settled (Some (journal (states ++ [state])))
  | Err _ => forall o, may (entry (disk w') hard_state_path) o -> exists hs, journal_reads o hs /\
      (hs = journal_state RaftHardState_default states \/ hs = state)
  end.
Proof.
  intros He Hfs Hf.
  assert (journal (states ++ [state]) = journal states ++ encode_raft_hard_state state) as Hj.
  { unfold journal. rewrite records_app, app_assoc. f_equal. unfold records. simpl. by rewrite app_nil_r. }
  intros (Ho & H & Hnone)%(append_sync_spec _ _ (journal states)); [|done]. split; [done|].
  destruct r; [by rewrite Hj|]. intros [c|] Hc; [|done]. destruct (H c Hc) as [H1 H2]. by apply (journal_torn states state).
Qed.

Lemma journal_write_law w s state w' s' r :
  journal_holds (entry (disk w) hard_state_path) s -> hard_state_fits state ->
  JournalRaftHardStateStore_write_hard_state w s state = (w', s', r) ->
  only hard_state_names (disk w) (disk w') /\
  match r with
  | Ok _ => journal_holds (entry (disk w') hard_state_path) s' /\ jhs_current s' = state
  | Err _ => forall o, may (entry (disk w') hard_state_path) o -> exists hs, journal_reads o hs /\
      (hs = jhs_current s \/ hs = state)
  end.
Proof.
  intros (Hp & Hh & states & He & Hfs & Hc & Hn) Hf. unfold JournalRaftHardStateStore_write_hard_state.
  rewrite Hh, Hp. cbn [is_reopen_required]. destruct (N.leb_spec RECORD_LIMIT (jhs_records s)) as [Hlim|Hlim].
  - unfold checkpoint_publish. destruct (replace_file _ hard_state_path _ w) as [w1 r1] eqn:H1.
    apply replace_file_spec in H1 as [Ho H1]; [|done].
    assert (only hard_state_names (disk w) (disk w1)) as Ho' by (eapply only_weaken; [done|set_solver]).
    assert (journal_header ++ encode_raft_hard_state state = journal [state]) as Hj
      by (unfold journal, records; simpl; by rewrite app_nil_r).
    rewrite Hj in H1. destruct r1 as [[]|[step error]]; simpl; intros [= <- <- <-]; (split; [done|]).
    + split; [|done]. split_and!; [done|done|]. exists [state]. split_and!; [done|by constructor|done|done].
    + intros o Ho1. destruct (H1 o Ho1) as [Ho2| ->].
      * rewrite He in Ho2. apply may_settled in Ho2 as ->. exists (jhs_current s). split; [|by left].
        exists states, []. rewrite app_nil_r. split_and!; [done|simpl; lia|done|done].
      * exists state. split; [|by right]. exists [state], []. rewrite app_nil_r.
        split_and!; [done|simpl; lia|by constructor|done].
  - pose proof (journal_append_law w state) as Hlaw. unfold io_bind in Hlaw.
    destruct (write_all hard_state_path (encode_raft_hard_state state) w) as [w1 [[]|e1]].
    + destruct (sync_data hard_state_path w1) as [w2 [[]|e2]]; intros [= <- <- <-];
        destruct (Hlaw _ _ states He Hfs Hf eq_refl) as [Ho H2];
        (split; [eapply only_weaken; [done|set_solver]|]); [|by rewrite Hc].
      split; [|done]. split_and!; [done|done|]. exists (states ++ [state]). split_and!; [done| | |].
      * apply Forall_app. split; [done|by constructor].
      * by rewrite journal_state_snoc.
      * simpl. rewrite Hn in *. unfold u64_add, RECORD_LIMIT, length_u64 in *. rewrite length_app. simpl.
        rewrite N.mod_small by (unfold u64_modulus; lia). lia.
    + intros [= <- <- <-]. destruct (Hlaw _ _ states He Hfs Hf eq_refl) as [Ho H2].
      split; [eapply only_weaken; [done|set_solver]|]. by rewrite Hc.
Qed.

#[export] Instance journal_hard_state_laws :
  HardStateBackendLaws JournalRaftHardStateStore OpenJournalRaftHardStateStoreError.
Proof.
  refine {| hb_reads := journal_reads; hb_holds := journal_holds |}.
  - intros e s (_ & _ & states & He & Hfs & Hc & _). exists (Some (journal states)). split; [done|].
    exists states, []. rewrite app_nil_r. split_and!; [done|simpl; lia|done|done].
  - intros [bytes|] hs hs'; simpl; [|congruence]. intros (l & r & -> & Hr & Hl & ->) (k & r' & He & Hr' & Hk & ->).
    unfold journal in He. rewrite <- !app_assoc in He. apply app_inv_head in He.
    by rewrite (records_unique l k r r').
  - done.
  - intros e s (_ & _ & states & _ & Hfs & Hc & _). simpl. rewrite Hc. by apply journal_state_fits.
  - intros o w w' s He Ho. destruct (journal_open_law o w w' s He Ho) as (Hd & Hh & Hr).
    split_and!; [|done|done]. eapply only_weaken; [done|set_solver].
  - intros o w w' r He Ho _. destruct (journal_open_interrupted o w w' r He Ho) as [Hd Hi].
    split; [eapply only_weaken; [done|set_solver]|]. intros o' hs. by apply interrupted_reads.
  - intros o hs w. apply journal_open_total.
  - intros w s state w' s' r. apply journal_write_law.
Defined.
