(* ===== verification/LogFile.v ===== *)
(** * The file-backed log segment

    Models [raft_log_segment/file.rs], [rewrite.rs], [state.rs] and [open.rs]:
    appends to a file of frames, truncation and compaction by a rewritten file
    and, for compaction, a marker before it, and opening with the strict replay
    or the one that repairs an uncommitted tail. *)

From Stdlib Require Import Strings.Byte.
From stdpp Require Import base strings list sorting numbers option pretty gmap.
From S2P Require Import Prelude.
From S2P Require Import Types.
From S2P Require Import Crc32.
From S2P Require Import Snapshot.
From S2P Require Import Wire.
From S2P Require Import Grammar.
From S2P Require Import CodecSpec.
From S2P Require Import Stores.
From S2P Require Import MemoryStores.
From S2P Require Import StorageFormat.
From S2P Require Import StorageSpec.
From S2P Require Import FileSystem.

(** ** State *)

Record FileRaftLogSegment := {
  flog_path : StorePath;
  flog_compacted_through : LogIndex;
  flog_entries : ContiguousLogEntries;
  flog_health : FileStoreHealth;
}.

(** The operation and the source of a failure. *)
Abbreviation LogIoFailure := (string * StorageIoError)%type.

Definition record_io_failure (s : FileRaftLogSegment) (operation : string) (error : StorageIoError)
  : FileRaftLogSegment * LogIoFailure :=
  ({| flog_path := flog_path s; flog_compacted_through := flog_compacted_through s;
      flog_entries := flog_entries s; flog_health := ReopenRequired |}, (operation, error)).

Definition flog_next_index (s : FileRaftLogSegment) : LogIndex := cle_next_index (flog_entries s).

(** [with_extension], of a name without one. *)
Definition temp_rewrite_path (path : StorePath) (process : N) : StorePath :=
  (path.1, path.2 +:+ ".rewrite-" +:+ pretty process +:+ ".tmp").

Definition compaction_marker_path (path : StorePath) : StorePath := (path.1, path.2 +:+ ".compact").

Definition temp_compaction_marker_path (path : StorePath) (process : N) : StorePath :=
  (path.1, (compaction_marker_path path).2 +:+ "." +:+ pretty process +:+ ".tmp").

(** ** Appending *)

(** The loop of [append_entries_borrowed]: the frames and the entries, as far
    as they are encodable and contiguous. *)
Fixpoint frame_entries (entries : list PersistedRaftLogEntry) (expected_index : LogIndex)
    (bytes : list u8) (owned_entries : list PersistedRaftLogEntry)
  : result (list u8 * list PersistedRaftLogEntry) RaftLogSegmentAppendError :=
  match entries with
  | [] => Ok (bytes, owned_entries)
  | entry :: entries =>
      let? _ := reject_append_bounds (ple_index entry) in
      if negb (ple_index entry =? expected_index)
      then Err (AppendNonContiguous expected_index (ple_index entry))
      else
        let? bytes := map_err AppendEncode (append_borrowed_raft_log_frame bytes entry) in
        frame_entries entries (LogIndex_next expected_index) bytes (owned_entries ++ [entry])
  end.

Definition extend_owned_validated (c : ContiguousLogEntries) (entries : list PersistedRaftLogEntry)
  : ContiguousLogEntries :=
  {| cle_first_index := cle_first_index c; cle_entries := cle_entries c ++ entries |}.

Definition file_append_entries (w : World) (s : FileRaftLogSegment)
    (entries : list PersistedRaftLogEntry)
  : World * FileRaftLogSegment * result unit RaftLogSegmentAppendError :=
  if is_reopen_required (flog_health s) then (w, s, Err AppendRequiresReopen)
  else
    match frame_entries entries (flog_next_index s) [] [] with
    | Err error => (w, s, Err error)
    | Ok (bytes, owned_entries) =>
        match owned_entries with
        | [] => (w, s, Ok tt)
        | _ =>
            match (let* _ := write_all (flog_path s) bytes in sync_data (flog_path s)) w with
            | (w, Err error) =>
                let (s, failure) := record_io_failure s "append raft log entries" error in
                (w, s, Err (AppendIo failure.1 failure.2))
            | (w, Ok _) =>
                (w, {| flog_path := flog_path s;
                       flog_compacted_through := flog_compacted_through s;
                       flog_entries := extend_owned_validated (flog_entries s) owned_entries;
                       flog_health := flog_health s |}, Ok tt)
            end
        end
    end.

(** ** Rewriting *)

Inductive WriteRaftLogFramesError :=
| WriteFrames_Encode (error : EncodeRaftLogEntryError)
| WriteFrames_Io (error : StorageIoError).

Fixpoint write_raft_log_frames (output : StorePath) (entries : list PersistedRaftLogEntry) (w : World)
  : World * result unit WriteRaftLogFramesError :=
  match entries with
  | [] => (w, Ok tt)
  | entry :: entries =>
      match (let? encoded := encode_borrowed_raft_log_entry entry in
             let? len := encoded_frame_len encoded in Ok (encoded, len)) with
      | Err error => (w, Err (WriteFrames_Encode error))
      | Ok (encoded, len) =>
          match (let* _ := write_all output (be_bytes 4 len) in write_all output encoded) w with
          | (w, Err error) => (w, Err (WriteFrames_Io error))
          | (w, Ok _) => write_raft_log_frames output entries w
          end
      end
  end.

Inductive PrepareLogRewriteError :=
| Prepare_Encode (error : EncodeRaftLogEntryError)
| Prepare_Io (operation : string) (source : StorageIoError).

Definition prepare_log_rewrite (temp_path : StorePath) (entries : list PersistedRaftLogEntry) (w : World)
  : World * result unit PrepareLogRewriteError :=
  match open_truncate temp_path w with
  | (w, Err error) => (w, Err (Prepare_Io "open rewritten raft log segment" error))
  | (w, Ok _) =>
      match write_raft_log_frames temp_path entries w with
      | (w, Err (WriteFrames_Encode error)) =>
          let (w, _) := remove_file temp_path w in (w, Err (Prepare_Encode error))
      | (w, Err (WriteFrames_Io error)) =>
          (w, Err (Prepare_Io "write rewritten raft log segment" error))
      | (w, Ok _) =>
          let (w, r) := sync_data temp_path w in
          (w, map_err (Prepare_Io "write rewritten raft log segment") r)
      end
  end.

(** Select the prepared file and reopen the append handle on it. *)
Definition publish_log_rewrite (w : World) (s : FileRaftLogSegment) (temp_path : StorePath)
  : World * FileRaftLogSegment * result unit LogIoFailure :=
  let failed w operation error : World * FileRaftLogSegment * result unit LogIoFailure :=
    let (s, failure) := record_io_failure s operation error in (w, s, Err failure) in
  let path := flog_path s in
  match select_temp temp_path path w with
  | (w, Err (SyncStep, error)) => failed w "sync raft log segment directory" error
  | (w, Err (_, error)) => failed w "replace raft log segment" error
  | (w, Ok _) =>
      match open_append path w with
      | (w, Err error) => failed w "reopen raft log segment" error
      | (w, Ok _) =>
          match sync_data path w with
          | (w, Err error) => failed w "sync rewritten raft log segment" error
          | (w, Ok _) => (w, s, Ok tt)
          end
      end
  end.

Definition publish_compaction_marker (w : World) (s : FileRaftLogSegment) (compacted_through : LogIndex)
  : World * FileRaftLogSegment * result unit LogIoFailure :=
  let bytes := encode_raft_log_compaction_marker compacted_through in
  let temp_path := temp_compaction_marker_path (flog_path s) (process_id w) in
  let marker_path := compaction_marker_path (flog_path s) in
  match replace_file temp_path marker_path bytes w with
  | (w, Ok _) => (w, s, Ok tt)
  | (w, Err (step, error)) =>
      let operation :=
        match step with
        | OpenStep => "open raft log compaction marker"
        | WriteStep => "write raft log compaction marker"
        | RenameStep => "replace raft log compaction marker"
        | SyncStep => "sync raft log compaction marker directory"
        end in
      let (s, failure) := record_io_failure s operation error in (w, s, Err failure)
  end.

Definition truncate_prepare_error (s : FileRaftLogSegment) (error : PrepareLogRewriteError)
  : FileRaftLogSegment * RaftLogSegmentTruncateError :=
  match error with
  | Prepare_Encode error => (s, TruncateEncode error)
  | Prepare_Io operation source =>
      let (s, failure) := record_io_failure s operation source in (s, TruncateIo failure.1 failure.2)
  end.

Definition compaction_prepare_error (s : FileRaftLogSegment) (error : PrepareLogRewriteError)
  : FileRaftLogSegment * RaftLogSegmentCompactError :=
  match error with
  | Prepare_Encode error => (s, CompactEncode error)
  | Prepare_Io operation source =>
      let (s, failure) := record_io_failure s operation source in (s, CompactIo failure.1 failure.2)
  end.

Definition file_truncate_suffix (w : World) (s : FileRaftLogSegment) (from_index : LogIndex)
  : World * FileRaftLogSegment * result unit RaftLogSegmentTruncateError :=
  if is_reopen_required (flog_health s) then (w, s, Err TruncateRequiresReopen)
  else
    match reject_truncate_bounds from_index (flog_compacted_through s) (flog_next_index s) with
    | Err error => (w, s, Err error)
    | Ok _ =>
        if from_index =? flog_next_index s then (w, s, Ok tt)
        else
          let temp_path := temp_rewrite_path (flog_path s) (process_id w) in
          match prepare_log_rewrite temp_path (entries_before (flog_entries s) from_index) w with
          | (w, Err error) => let (s, error) := truncate_prepare_error s error in (w, s, Err error)
          | (w, Ok _) =>
              match publish_log_rewrite w s temp_path with
              | (w, s, Err failure) => (w, s, Err (TruncateIo failure.1 failure.2))
              | (w, s, Ok _) =>
                  (w, {| flog_path := flog_path s;
                         flog_compacted_through := flog_compacted_through s;
                         flog_entries := cle_truncate_suffix (flog_entries s) from_index;
                         flog_health := flog_health s |}, Ok tt)
              end
          end
    end.

Definition file_compact_prefix_through (w : World) (s : FileRaftLogSegment) (through_index : LogIndex)
  : World * FileRaftLogSegment * result unit RaftLogSegmentCompactError :=
  if is_reopen_required (flog_health s) then (w, s, Err CompactRequiresReopen)
  else
    match reject_compact_bounds through_index with
    | Err error => (w, s, Err error)
    | Ok _ =>
        if through_index <=? flog_compacted_through s then (w, s, Ok tt)
        else
          let temp_path := temp_rewrite_path (flog_path s) (process_id w) in
          match prepare_log_rewrite temp_path (entries_after (flog_entries s) through_index) w with
          | (w, Err error) => let (s, error) := compaction_prepare_error s error in (w, s, Err error)
          | (w, Ok _) =>
              match publish_compaction_marker w s through_index with
              | (w, s, Err failure) => (w, s, Err (CompactIo failure.1 failure.2))
              | (w, s, Ok _) =>
                  let s :=
                    {| flog_path := flog_path s; flog_compacted_through := through_index;
                       flog_entries := cle_compact_prefix_through (flog_entries s) through_index;
                       flog_health := flog_health s |} in
                  match publish_log_rewrite w s temp_path with
                  | (w, s, Err failure) =>
                      (w, s, Err (CompactedButReclamationFailed through_index failure.1 failure.2))
                  | (w, s, Ok _) => (w, s, Ok tt)
                  end
              end
          end
    end.

(** ** Opening *)

Inductive OpenRaftLogSegmentError :=
| OpenLog_Io (operation path : string) (source : StorageIoError)
| OpenLog_Replay (error : RaftLogReplayError)
| OpenLog_CompactionMarker (error : DecodeRaftLogCompactionMarkerError)
| OpenLog_NonContiguous (expected actual : LogIndex).

(** Whether a created file's directory is synced at once, or recorded. *)
Inductive CreationSync := Immediate | Batched (batch : ParentDirectorySyncBatch).

Inductive OpenMode := Strict | RepairUncommittedTail (durable_commit_index : LogIndex).

Definition open_contiguous (first_index : LogIndex) (entries : list PersistedRaftLogEntry)
  : result ContiguousLogEntries OpenRaftLogSegmentError :=
  map_err (fun e => OpenLog_NonContiguous (nc_expected e) (nc_actual e)) (from_entries first_index entries).

Definition replay_entries_strict (scan : RaftLogFrameScan) (compacted_through : LogIndex)
  : result ContiguousLogEntries OpenRaftLogSegmentError :=
  match scan_replay_error scan with
  | Some (_, error) => Err (OpenLog_Replay error)
  | None =>
      let entries :=
        filter (fun entry => compacted_through < ple_index entry) (frame_entry <$> scan_frames scan) in
      open_contiguous (LogIndex_next compacted_through) entries
  end.

(** The loop over the frames: what is expected next, the entries kept and
    where the first gap begins. *)
Fixpoint repair_frames (frames : list ReplayedRaftLogFrame)
    (compacted_through durable_commit_index expected : LogIndex) (entries : list PersistedRaftLogEntry)
  : result (LogIndex * list PersistedRaftLogEntry * option u64) OpenRaftLogSegmentError :=
  match frames with
  | [] => Ok (expected, entries, None)
  | frame :: frames =>
      let index := ple_index (frame_entry frame) in
      if index <=? compacted_through
      then repair_frames frames compacted_through durable_commit_index expected entries
      else if negb (index =? expected) then
        if expected <=? durable_commit_index then Err (OpenLog_NonContiguous expected index)
        else Ok (expected, entries, Some (frame_offset frame))
      else repair_frames frames compacted_through durable_commit_index (LogIndex_next expected)
             (entries ++ [frame_entry frame])
  end.

Definition replay_entries_repairing_uncommitted_tail (scan : RaftLogFrameScan)
    (compacted_through durable_commit_index : LogIndex)
  : result (ContiguousLogEntries * option u64) OpenRaftLogSegmentError :=
  let? (expected, entries, truncate_at) :=
    repair_frames (scan_frames scan) compacted_through durable_commit_index
      (LogIndex_next compacted_through) [] in
  let? truncate_at :=
    match truncate_at, scan_replay_error scan with
    | None, Some (error_offset, error) =>
        if expected <=? durable_commit_index then Err (OpenLog_Replay error)
        else Ok (Some error_offset)
    | truncate_at, _ => Ok truncate_at
    end in
  let? entries := open_contiguous (LogIndex_next compacted_through) entries in
  Ok (entries, truncate_at).

Definition replay_entries_for_open (scan : RaftLogFrameScan) (compacted_through : LogIndex)
    (mode : OpenMode) : result (ContiguousLogEntries * option u64) OpenRaftLogSegmentError :=
  match mode with
  | Strict => let? entries := replay_entries_strict scan compacted_through in Ok (entries, None)
  | RepairUncommittedTail durable_commit_index =>
      replay_entries_repairing_uncommitted_tail scan compacted_through durable_commit_index
  end.

Definition read_compaction_marker (path : StorePath) (w : World)
  : World * result LogIndex OpenRaftLogSegmentError :=
  let marker_path := compaction_marker_path path in
  match open_read marker_path w with
  | (w, Err error) =>
      if io_kind error =? ErrorKind_NotFound then (w, Ok 0)
      else (w, Err (OpenLog_Io "open raft log compaction marker" (path_display marker_path) error))
  | (w, Ok _) =>
      match read_to_end marker_path w with
      | (w, Err error) =>
          (w, Err (OpenLog_Io "read raft log compaction marker" (path_display marker_path) error))
      | (w, Ok bytes) =>
          (w, map_err OpenLog_CompactionMarker (decode_raft_log_compaction_marker bytes))
      end
  end.

(** The sync of a new file's directory, and what is recorded of it. *)
Definition creation_sync (path : StorePath) (creation_sync : CreationSync) (w : World)
  : World * CreationSync * result unit StorageIoError :=
  match creation_sync with
  | Immediate => let (w, r) := sync_parent_directory path w in (w, Immediate, r)
  | Batched batch => (w, Batched (record_parent_of batch path), Ok tt)
  end.

(** The open file is scanned, matched with its marker and cut at the repair
    offset. *)
Definition replay_open_file (path : StorePath) (mode : OpenMode) (w : World)
  : World * result FileRaftLogSegment OpenRaftLogSegmentError :=
  let io_error operation error : OpenRaftLogSegmentError :=
    OpenLog_Io operation (path_display path) error in
  match file_len path w with
  | (w, Err error) => (w, Err (io_error "stat raft log segment" error))
  | (w, Ok _) =>
      match read_to_end path w with
      | (w, Err error) => (w, Err (io_error "read raft log segment" error))
      | (w, Ok bytes) =>
          let scan := read_raft_log_frames bytes in
          match read_compaction_marker path w with
          | (w, Err error) => (w, Err error)
          | (w, Ok compacted_through) =>
              match replay_entries_for_open scan compacted_through mode with
              | Err error => (w, Err error)
              | Ok (entries, repair_truncate_offset) =>
                  let (w, r) :=
                    match repair_truncate_offset with
                    | Some offset => (let* _ := set_len path offset in sync_data path) w
                    | None => (w, Ok tt)
                    end in
                  match r with
                  | Err error => (w, Err (io_error "truncate corrupt uncommitted raft log tail" error))
                  | Ok _ =>
                      (w, Ok {| flog_path := path; flog_compacted_through := compacted_through;
                                flog_entries := entries; flog_health := Healthy |})
                  end
              end
          end
      end
  end.

(** [open_with_creation_sync] *)
Definition file_log_open (path : StorePath) (sync : CreationSync) (mode : OpenMode) (w : World)
  : World * CreationSync * result FileRaftLogSegment OpenRaftLogSegmentError :=
  let io_error operation error : OpenRaftLogSegmentError :=
    OpenLog_Io operation (path_display path) error in
  match try_exists path w with
  | (w, Err error) => (w, sync, Err (io_error "stat raft log segment" error))
  | (w, Ok existed) =>
      match open_append path w with
      | (w, Err error) => (w, sync, Err (io_error "open raft log segment" error))
      | (w, Ok _) =>
          let '(w, sync, r) :=
            if existed then (w, sync, Ok tt) else creation_sync path sync w in
          match r with
          | Err error => (w, sync, Err (io_error "sync raft log segment directory" error))
          | Ok _ => let (w, r) := replay_open_file path mode w in (w, sync, r)
          end
      end
  end.

(** ** What a segment's files hold *)

#[local] Arguments segment : simpl never.

(** [directory.join("log")] *)
Definition log_path : StorePath := (NodeDirectory, "log").
Definition marker_path : StorePath := compaction_marker_path log_path.

(** The boundary a marker file tells. *)
Definition marker_reads (o : option (list u8)) (through : LogIndex) : Prop :=
  match o with
  | None => through = 0
  | Some bytes => through < u64_max /\ bytes = encode_raft_log_compaction_marker through
  end.

(** The entries the frames [physical] give above the boundary. *)
Definition retains (through : LogIndex) (physical : list PersistedRaftLogEntry) (entries : list LogEntry)
  : Prop :=
  Forall framed physical /\ through + length_u64 entries < u64_max /\
  filter (fun e => through < ple_index e) physical = stamp through entries.

(** Nothing in [rest] continues the entries: it is torn, or its first frame
    leaves a gap. *)
Definition stops (through expected : LogIndex) (rest : list u8) : Prop :=
  forall e r, framed e -> rest = frame e ++ r -> through < ple_index e /\ ple_index e <> expected.

(** What opening with repair finds in the two files. *)
Definition log_reads (log marker : option (list u8)) (through : LogIndex) (entries : list LogEntry) : Prop :=
  marker_reads marker through /\
  exists physical rest, default [] log = segment physical ++ rest /\
    retains through physical entries /\ stops through (through + length_u64 entries + 1) rest.

(** The handle's view. *)
Definition log_view (s : FileRaftLogSegment) (entries : list LogEntry) : Prop :=
  flog_path s = log_path /\ flog_health s = Healthy /\
  flog_entries s = {| cle_first_index := flog_compacted_through s + 1;
                      cle_entries := stamp (flog_compacted_through s) entries |}.

(** The files hold the view, durably. *)
Definition log_holds (d : Disk) (s : FileRaftLogSegment) (entries : list LogEntry) : Prop :=
  log_view s entries /\
  (exists marker, entry d marker_path = settled marker /\ marker_reads marker (flog_compacted_through s)) /\
  exists physical, entry d log_path = settled (Some (segment physical)) /\
    retains (flog_compacted_through s) physical entries.

(** ** Stamped entries *)

Lemma filter_stamp_above through before entries :
  through <= before -> filter (fun e => through < ple_index e) (stamp before entries) = stamp before entries.
Proof.
  revert before. induction entries as [|e entries IH]; intros before Hle; [done|].
  rewrite stamp_cons, filter_cons_True, IH by (simpl; lia). done.
Qed.

Lemma filter_above_stamp before through entries :
  before <= through ->
  filter (fun e => through < ple_index e) (stamp before entries) =
  stamp through (drop (N.to_nat (through - before)) entries).
Proof.
  revert before. induction entries as [|e entries IH]; intros before Hb; [by rewrite drop_nil|].
  rewrite stamp_cons. destruct (decide (through < before + 1)) as [Hlt|Hge].
  - assert (through = before) as -> by lia. rewrite N.sub_diag. simpl drop.
    rewrite filter_cons_True by done. rewrite stamp_cons. f_equal.
    apply filter_stamp_above. lia.
  - rewrite filter_cons_False by done. rewrite IH by lia.
    replace (N.to_nat (through - before)) with (S (N.to_nat (through - (before + 1)))) by lia. done.
Qed.

Lemma retains_stamp through entries :
  Forall framed (stamp through entries) -> through + length_u64 entries < u64_max ->
  retains through (stamp through entries) entries.
Proof.
  intros Hf Hb. split_and!; [done|done|]. rewrite filter_above_stamp by done. by rewrite N.sub_diag.
Qed.

(** A higher boundary retains fewer of the same frames. *)
Lemma retains_compact through through' physical entries :
  retains through physical entries -> through <= through' -> through' < u64_max ->
  retains through' physical (drop (N.to_nat (through' - through)) entries).
Proof.
  intros (Hf & Hb & Hr) Hle Hlt. split_and!; [done| |].
  - unfold length_u64 in *. rewrite length_drop. lia.
  - rewrite <- filter_above_stamp by done. rewrite <- Hr, list_filter_filter.
    apply list_filter_iff. intros e. lia.
Qed.

Lemma stamp_inj before l k : stamp before l = stamp before k -> l = k.
Proof. intros H. apply (f_equal (map unstamp)) in H. by rewrite !unstamp_stamp in H. Qed.

Lemma retains_unique through physical l k : retains through physical l -> retains through physical k -> l = k.
Proof. intros (_ & _ & Hl) (_ & _ & Hk). apply (stamp_inj through). congruence. Qed.

(** Appending to what is retained. *)
Lemma retains_app through physical entries added :
  retains through physical entries -> Forall framed (stamp (through + length_u64 entries) added) ->
  through + length_u64 entries + length_u64 added < u64_max ->
  retains through (physical ++ stamp (through + length_u64 entries) added) (entries ++ added).
Proof.
  intros (Hf & Hb & Hr) Ha Hlt. split_and!.
  - by apply Forall_app.
  - rewrite length_u64_app. lia.
  - rewrite filter_app, Hr, stamp_app. f_equal.
    apply filter_stamp_above. lia.
Qed.

Lemma torn_stops through expected rest : torn rest -> stops through expected rest.
Proof. intros Ht e r He ->. by destruct (Ht e r He). Qed.

(** What is found is unique. *)
Lemma segment_app_inv l k r r' :
  Forall framed l -> Forall framed k -> segment l ++ r = segment k ++ r' ->
  (exists m, k = l ++ m /\ r = segment m ++ r') \/ (exists m, l = k ++ m /\ r' = segment m ++ r).
Proof.
  intros Hl. revert k. induction Hl as [|e l He Hl IH]; intros k Hk Heq; [left; by exists k|].
  destruct Hk as [|e' k He' Hk]; [right; by exists (e :: l)|].
  rewrite !segment_cons, <- !app_assoc in Heq. apply frame_inj in Heq as [-> Heq]; [|done..].
  destruct (IH k Hk Heq) as [(m & -> & ->)|(m & -> & ->)]; [left|right]; by exists m.
Qed.

Lemma retains_extend_stop through physical e m entries entries' r :
  retains through physical entries -> retains through (physical ++ e :: m) entries' ->
  stops through (through + length_u64 entries + 1) (segment (e :: m) ++ r) -> False.
Proof.
  intros (Hf & Hb & Hr) (Hf' & Hb' & Hr') Hs. apply Forall_app in Hf' as [_ Hem]. apply Forall_cons in Hem as [He Hm].
  destruct (Hs e (segment m ++ r) He) as [Hlt Hne]; [by rewrite segment_cons, <- app_assoc|].
  rewrite filter_app, Hr, filter_cons_True in Hr' by done.
  assert (stamp through entries' !! length entries = Some e) as Hl.
  { rewrite <- Hr', lookup_app_r by (rewrite stamp_length; lia). by rewrite stamp_length, Nat.sub_diag. }
  apply stamp_lookup in Hl. unfold length_u64 in *. lia.
Qed.

Lemma log_reads_unique log marker t t' l l' : log_reads log marker t l -> log_reads log marker t' l' -> t = t' /\ l = l'.
Proof.
  intros [Hm (p & r & Hp & Hr & Hs)] [Hm' (p' & r' & Hp' & Hr' & Hs')].
  assert (t = t') as <-.
  { destruct marker as [bytes|]; simpl in *; [|congruence]. destruct Hm as [Ht ->], Hm' as [Ht' He].
    assert (decode_raft_log_compaction_marker (encode_raft_log_compaction_marker t) = Ok t) as Hd by by apply decode_marker_Ok.
    rewrite He, (proj2 (decode_marker_Ok _ t')) in Hd by done. by injection Hd. }
  split; [done|]. rewrite Hp in Hp'.
  destruct (segment_app_inv p p' r r') as [(m & -> & ->)|(m & -> & ->)]; [apply Hr|apply Hr'|done|..];
    (destruct m as [|e m]; [rewrite app_nil_r in *; by eapply retains_unique|]).
  - by destruct (retains_extend_stop t p e m l l' r').
  - by destruct (retains_extend_stop t p' e m l' l r).
Qed.

(** ** Writing *)

(** Frames of stamped entries that continue the log. *)
Lemma frame_entries_stamp before added bytes owned bytes' owned' :
  before < u64_max ->
  frame_entries (stamp before added) (before + 1) bytes owned = Ok (bytes', owned') ->
  bytes' = bytes ++ segment (stamp before added) /\ owned' = owned ++ stamp before added /\
  Forall frameable (stamp before added) /\ before + length_u64 added < u64_max.
Proof.
  revert before bytes owned. induction added as [|e added IH]; intros before bytes owned Hb.
  - intros [= <- <-]. rewrite !app_nil_r. split_and!; [done..|]. unfold length_u64. simpl. lia.
  - rewrite stamp_cons. cbn [frame_entries ple_index]. unfold reject_append_bounds, advanceable_log_index.
    destruct (N.eqb_spec (before + 1) u64_max); [done|]. cbv iota beta. rewrite N.eqb_refl. cbn [negb].
    destruct (append_borrowed_raft_log_frame bytes _) as [bytes1|] eqn:Hf; [|done]. cbn [map_err].
    apply append_frame_Ok in Hf as [Hf ->]. unfold LogIndex_next. rewrite u64_add_small by (unfold u64_max, u64_modulus in *; lia).
    intros (-> & -> & Hfs & Hlt)%IH; [|lia]. rewrite segment_cons, <- !app_assoc. split_and!; [done|done|by constructor|].
    unfold length_u64 in *. simpl. lia.
Qed.

Lemma io_write_two temp a b w w' r f :
  entry_now (entry (disk w) temp) = Some f ->
  (let* _ := write_all temp a in write_all temp b) w = (w', r) ->
  only [temp] (disk w) (disk w') /\
  (r = Ok tt -> exists f', entry_now (entry (disk w') temp) = Some f' /\ file_data f' = file_data f ++ a ++ b).
Proof.
  intros Hf [(w1 & [] & H1 & H2)|(error & H1 & ->)]%io_bind_inv.
  - apply change_spec in H1 as [[_ Hd1]|(? & ? & [=] & _)].
    apply change_spec in H2 as [[-> Hd2]|(error & k & -> & Hd2)]; rewrite Hd2, Hd1;
      (split; [etrans; apply only_alter|]); [|done].
    intros _. rewrite !entry_alter. simpl. rewrite Hf. simpl. eexists. split; [done|]. simpl. by rewrite app_assoc.
  - apply change_spec in H1 as [[[=] _]|(? & k & _ & ->)]. split; [apply only_alter|done].
Qed.

Lemma write_raft_log_frames_spec temp entries w w' r f :
  entry_now (entry (disk w) temp) = Some f -> write_raft_log_frames temp entries w = (w', r) ->
  only [temp] (disk w) (disk w') /\
  (r = Ok tt -> Forall frameable entries /\
     exists f', entry_now (entry (disk w') temp) = Some f' /\ file_data f' = file_data f ++ segment entries).
Proof.
  revert w f. induction entries as [|e entries IH]; intros w f Hf; cbn [write_raft_log_frames].
  { intros [= <- <-]. split; [done|]. intros _. split; [done|]. exists f. by rewrite app_nil_r. }
  destruct (encode_borrowed_raft_log_entry e) as [encoded|] eqn:He; simpl; [|by intros [= <- <-]].
  apply encode_borrowed_raft_log_entry_Ok in He as [Hs ->]. unfold encoded_frame_len. fold (envelope e).
  destruct (N.leb_spec (length_u64 (envelope e)) u32_max) as [Hl|]; simpl; [|by intros [= <- <-]].
  destruct (io_bind _ _ w) as [w1 r1] eqn:H1. apply (io_write_two _ _ _ _ _ _ f Hf) in H1 as [Ho1 H1].
  destruct r1 as [[]|]; [|by intros [= <- <-]]. destruct (H1 eq_refl) as (f1 & Hf1 & Hd1).
  intros [Ho2 H2]%(IH w1 f1 Hf1). split; [by etrans|]. intros (Hfs & f' & Hf' & Hd')%H2.
  split; [by constructor|]. exists f'. split; [done|]. rewrite Hd', Hd1, segment_cons. unfold frame. by rewrite <- !app_assoc.
Qed.

Lemma steady_write_raft_log_frames output entries : steady (write_raft_log_frames output entries).
Proof.
  induction entries as [|e entries IH]; intros w; simpl; [done|].
  destruct (encode_borrowed_raft_log_entry e) as [encoded|]; [|done]. simpl.
  destruct (encoded_frame_len encoded) as [len|]; [|done]. simpl.
  destruct (io_bind _ _ w) as [w1 [[]|error]] eqn:H; apply steady_run in H; auto with steady; simpl.
  by rewrite IH.
Qed.

Lemma remove_file_only path w w' r : remove_file path w = (w', r) -> only [path] (disk w) (disk w').
Proof.
  unfold remove_file. destruct (entry_now _); [|by intros [= <- <-]].
  intros [[_ ->]|(? & _ & [-> | ->])]%change_atomic_spec; [apply only_alter|done|apply only_alter].
Qed.

Lemma open_truncate_spec path w w' r :
  open_truncate path w = (w', r) -> only [path] (disk w) (disk w') /\
  (r = Ok tt -> exists f, entry_now (entry (disk w') path) = Some f /\ file_data f = []).
Proof.
  intros [[-> ->]|(? & -> & Hd)]%change_atomic_spec.
  - split; [apply only_alter|]. intros _. rewrite entry_alter. unfold truncated.
    destruct (entry_now (entry (disk w) path)) eqn:E; simpl; rewrite ?E; simpl; by eexists.
  - split; [|done]. destruct Hd as [-> | ->]; [done|apply only_alter].
Qed.

(** The rewritten segment is durable under the temporary name. *)
Lemma prepare_log_rewrite_spec temp entries w w' r :
  prepare_log_rewrite temp entries w = (w', r) ->
  only [temp] (disk w) (disk w') /\
  (r = Ok tt -> Forall frameable entries /\
     entry_now (entry (disk w') temp) = Some (clean (segment entries))).
Proof.
  unfold prepare_log_rewrite. destruct (open_truncate temp w) as [w1 r1] eqn:H1.
  apply open_truncate_spec in H1 as [Ho1 H1]. destruct r1 as [[]|]; [|by intros [= <- <-]].
  destruct (H1 eq_refl) as (f1 & Hf1 & Hd1).
  destruct (write_raft_log_frames temp entries w1) as [w2 r2] eqn:H2.
  apply (write_raft_log_frames_spec _ _ _ _ _ _ Hf1) in H2 as [Ho2 H2].
  assert (only [temp] (disk w) (disk w2)) as Ho by by etrans.
  destruct r2 as [[]|[error|error]]; [| |by intros [= <- <-]].
  - destruct (H2 eq_refl) as (Hfs & f2 & Hf2 & Hd2). destruct (sync_data temp w2) as [w3 r3] eqn:H3. intros [= <- <-].
    apply change_atomic_spec in H3 as [[-> Hd3]|(? & -> & Hd3)].
    + rewrite Hd3. split; [by etrans; [|apply only_alter]|]. intros _. split; [done|]. rewrite entry_alter. simpl.
      rewrite Hf2. simpl. by rewrite Hd2, Hd1.
    + split; [|done]. etrans; [done|]. destruct Hd3 as [-> | ->]; [done|apply only_alter].
  - destruct (remove_file temp w2) as [w3 r3] eqn:H3. intros [= <- <-]. apply remove_file_only in H3.
    split; [by etrans|done].
Qed.

Lemma steady_prepare_log_rewrite temp entries : steady (prepare_log_rewrite temp entries).
Proof.
  intros w. unfold prepare_log_rewrite. destruct (open_truncate temp w) as [w1 [[]|error]] eqn:H1;
    apply steady_run in H1; auto with steady; simpl.
  destruct (write_raft_log_frames temp entries w1) as [w2 r2] eqn:H2;
    apply (steady_run _ _ _ _ (steady_write_raft_log_frames _ _)) in H2. destruct r2 as [[]|[error|error]]; simpl.
  - destruct (sync_data temp w2) as [w3 r3] eqn:H3. apply steady_run in H3; auto with steady. simpl. congruence.
  - destruct (remove_file temp w2) as [w3 r3] eqn:H3. apply steady_run in H3; auto with steady. simpl. congruence.
  - congruence.
Qed.

(** Opening for appending and syncing a durable file changes nothing. *)
Lemma reopen_settled path bytes d :
  entry d path = settled (Some bytes) ->
  entry (alter_entry created path d) path = settled (Some bytes) /\
  entry (alter_entry (update_file (fun f => clean (file_data f))) path d) path = settled (Some bytes).
Proof. intros He. by rewrite !entry_alter, He. Qed.

Lemma publish_log_rewrite_spec w s temp bytes w' s' r :
  flog_path s = log_path -> temp <> log_path -> entry_now (entry (disk w) temp) = Some (clean bytes) ->
  publish_log_rewrite w s temp = (w', s', r) ->
  only [temp; log_path] (disk w) (disk w') /\
  match r with
  | Ok _ => entry (disk w') log_path = settled (Some bytes) /\ s' = s
  | Err _ => forall o, may (entry (disk w') log_path) o -> may (entry (disk w) log_path) o \/ o = Some bytes
  end.
Proof.
  intros Hp Hne Ht. unfold publish_log_rewrite. rewrite Hp. destruct (select_temp temp log_path w) as [w1 r1] eqn:H1.
  apply (select_temp_spec _ _ bytes) in H1 as [Ho1 H1]; [|done|done].
  destruct r1 as [[]|[step error]].
  2: { destruct step; intros [= <- <- <-]; done. }
  assert (forall w, only [log_path] (disk w1) (disk w) -> entry (disk w) log_path = settled (Some bytes) ->
    only [temp; log_path] (disk w1) (disk w) /\
    forall o, may (entry (disk w) log_path) o -> may (entry (disk w1) log_path) o \/ o = Some bytes) as Hfin.
  { intros w2 Ho2 He2. split; [eapply only_weaken; [done|set_solver]|]. intros o. rewrite He2, may_settled. by right. }
  destruct (open_append log_path w1) as [w2 r2] eqn:H2.
  assert (only [log_path] (disk w1) (disk w2) /\ entry (disk w2) log_path = settled (Some bytes)) as [Ho2 He2].
  { apply change_atomic_spec in H2 as [[_ ->]|(? & _ & [-> | ->])]; (split; [try apply only_alter; done|]);
      try done; by apply reopen_settled. }
  destruct r2 as [[]|].
  2: { intros [= <- <- <-]. split; [etrans; [done|]; eapply only_weaken; [done|set_solver]|].
       intros o. rewrite He2, may_settled. by right. }
  destruct (sync_data log_path w2) as [w3 r3] eqn:H3.
  assert (only [log_path] (disk w2) (disk w3) /\ entry (disk w3) log_path = settled (Some bytes)) as [Ho3 He3].
  { apply change_atomic_spec in H3 as [[_ ->]|(? & _ & [-> | ->])]; (split; [try apply only_alter; done|]);
      try done; by apply reopen_settled. }
  assert (only [temp; log_path] (disk w) (disk w3)) as Ho.
  { etrans; [done|]. eapply only_weaken; [by etrans|set_solver]. }
  destruct r3 as [[]|]; intros [= <- <- <-]; (split; [done|]); [done|].
  intros o. rewrite He3, may_settled. by right.
Qed.

Lemma publish_compaction_marker_spec w s through w' s' r :
  flog_path s = log_path -> publish_compaction_marker w s through = (w', s', r) ->
  only [temp_compaction_marker_path log_path (process_id w); marker_path] (disk w) (disk w') /\
  match r with
  | Ok _ => entry (disk w') marker_path = settled (Some (encode_raft_log_compaction_marker through)) /\ s' = s
  | Err _ => forall o, may (entry (disk w') marker_path) o ->
      may (entry (disk w) marker_path) o \/ o = Some (encode_raft_log_compaction_marker through)
  end.
Proof.
  intros Hp. unfold publish_compaction_marker. rewrite Hp. fold marker_path.
  destruct (replace_file _ marker_path _ w) as [w1 r1] eqn:H1. apply replace_file_spec in H1 as [Ho H1]; [|done].
  destruct r1 as [[]|[step error]]; [by intros [= <- <- <-]|]. simpl. intros [= <- <- <-]. done.
Qed.

(** The names the segment touches. *)
Definition log_names (process : N) : list StorePath :=
  [log_path; marker_path; temp_rewrite_path log_path process; temp_compaction_marker_path log_path process].

Lemma log_names_distinct process :
  temp_rewrite_path log_path process <> log_path /\ temp_rewrite_path log_path process <> marker_path /\
  temp_compaction_marker_path log_path process <> log_path /\
  temp_compaction_marker_path log_path process <> marker_path /\
  temp_rewrite_path log_path process <> temp_compaction_marker_path log_path process.
Proof. done. Qed.

(** ** The laws of the segment *)

Section laws.
Context (w : World) (s : FileRaftLogSegment) (entries : list LogEntry).
Hypothesis Hholds : log_holds (disk w) s entries.

Let through := flog_compacted_through s.

Lemma holds_bound : through + length_u64 entries < u64_max.
Proof. by destruct Hholds as (_ & _ & physical & _ & _ & H & _). Qed.

Lemma holds_next : flog_next_index s = through + length_u64 entries + 1.
Proof.
  destruct Hholds as ((_ & _ & He) & _). unfold flog_next_index. rewrite He. apply cle_next_index_wf, holds_bound.
Qed.

Lemma holds_framed : Forall framed (stamp through entries).
Proof.
  destruct Hholds as (_ & _ & physical & _ & Hf & _ & Hr). unfold through. rewrite <- Hr.
  rewrite Forall_forall in *. intros e [_ He]%list_elem_of_filter. auto.
Qed.

(** What the durable files read as. *)
Lemma holds_reads log marker :
  may (entry (disk w) log_path) log -> may (entry (disk w) marker_path) marker ->
  log_reads log marker through entries.
Proof.
  destruct Hholds as (_ & (m & Hm & Hmr) & physical & Hl & Hr). rewrite Hl, Hm, !may_settled. intros -> ->.
  split; [done|]. exists physical, []. rewrite app_nil_r. split_and!; [done|done|]. apply torn_stops, torn_nil.
Qed.

(** Entries appended torn: a prefix of them is there. *)
Lemma append_reads added log marker :
  Forall framed (stamp (through + length_u64 entries) added) ->
  through + length_u64 entries + length_u64 added < u64_max ->
  forall physical, entry (disk w) log_path = settled (Some (segment physical)) -> retains through physical entries ->
  may (entry (disk w) marker_path) marker ->
  segment physical `prefix_of` log -> log `prefix_of` segment (physical ++ stamp (through + length_u64 entries) added) ->
  exists k, log_reads (Some log) marker through (entries ++ take k added).
Proof.
  intros Hf Hb physical Hl Hr Hm Hp1 Hp2.
  destruct (segment_cut physical (stamp (through + length_u64 entries) added) log) as (k & rest & -> & Ht); [done..|].
  exists k. rewrite stamp_take in *. assert (Forall framed (stamp (through + length_u64 entries) (take k added))) as Hfk
    by (rewrite <- stamp_take; by apply Forall_take).
  destruct Hholds as (_ & (m & Hme & Hmr) & _). rewrite Hme, may_settled in Hm. subst marker.
  split; [done|]. eexists _, rest. split; [reflexivity|]. split; [|by apply torn_stops].
  apply retains_app; [done|done|]. unfold length_u64 in *. rewrite length_take. lia.
Qed.

Lemma append_law added w' s' r :
  Forall entry_fits (stamp (through + length_u64 entries) added) ->
  file_append_entries w s (stamp (through + length_u64 entries) added) = (w', s', r) ->
  only (log_names (process_id w)) (disk w) (disk w') /\
  match r with
  | Ok _ => log_holds (disk w') s' (entries ++ added) /\ flog_compacted_through s' = through
  | Err _ => forall log marker, may (entry (disk w') log_path) log -> may (entry (disk w') marker_path) marker ->
      exists k, log_reads log marker through (entries ++ take k added)
  end.
Proof.
  intros Hfit. pose proof holds_bound as Hb. pose proof holds_next as Hn. unfold file_append_entries.
  pose proof Hholds as ((Hp & Hh & He) & (m & Hm & Hmr) & physical & Hl & Hr). rewrite Hh, Hp, Hn. cbn [is_reopen_required].
  assert (forall log marker, may (entry (disk w) log_path) log -> may (entry (disk w) marker_path) marker ->
    exists k, log_reads log marker through (entries ++ take k added)) as Hsame.
  { intros log marker H1 H2. exists 0%nat. rewrite app_nil_r. by apply holds_reads. }
  destruct (frame_entries _ _ [] []) as [[bytes owned]|error] eqn:Hfe; [|intros [= <- <- <-]; by split].
  apply frame_entries_stamp in Hfe as (-> & -> & Hfr & Hlt); [|done].
  assert (Forall framed (stamp (through + length_u64 entries) added)) as Hfd.
  { rewrite Forall_forall in *. intros e Hin. split; auto. }
  destruct added as [|e added']; [intros [= <- <- <-]; rewrite app_nil_r; by split|]. cbn [app].
  set (added := e :: added') in *.
  destruct (stamp (through + length_u64 entries) added) as [|x l] eqn:Hx;
    [unfold added in Hx; by rewrite stamp_cons in Hx|]. rewrite <- Hx in *. clear Hx x l.
  destruct (io_bind _ _ w) as [w1 r1] eqn:H1.
  assert (only [log_path] (disk w) (disk w1) /\ match r1 with
    | Ok _ => entry (disk w1) log_path = settled (Some (segment (physical ++ stamp (through + length_u64 entries) added)))
    | Err _ => forall log, may (entry (disk w1) log_path) (Some log) ->
        segment physical `prefix_of` log /\ log `prefix_of` segment (physical ++ stamp (through + length_u64 entries) added)
    end /\ ~ may (entry (disk w1) log_path) None) as (Ho & Hr1 & Hnone).
  { rewrite segment_app. apply (append_sync_spec _ _ (segment physical)) in H1; [|done]. exact H1. }
  assert (only (log_names (process_id w)) (disk w) (disk w1)) as Ho' by (eapply only_weaken; [done|set_solver]).
  assert (entry (disk w1) marker_path = entry (disk w) marker_path) as Hme.
  { rewrite Hm. apply calmer_settled. rewrite <- Hm. apply Ho. set_solver. }
  destruct r1 as [[]|error]; intros [= <- <- <-]; (split; [done|]).
  - split; [|done]. split; [|split].
    + split_and!; [done|done|]. simpl. rewrite He. unfold extend_owned_validated. simpl. fold through. by rewrite stamp_app.
    + exists m. simpl. rewrite Hme. done.
    + eexists. split; [done|]. simpl. by apply retains_app.
  - intros [log|] marker Hml Hmm; [|done]. destruct (Hr1 log Hml) as [Hp1 Hp2]. rewrite Hme in Hmm.
    by eapply append_reads.
Qed.

(** The replacement holds the stamped entries [kept]. *)
Lemma rewritten_holds w' s' boundary kept marker :
  log_view s' kept -> flog_compacted_through s' = boundary ->
  entry (disk w') marker_path = settled marker -> marker_reads marker boundary ->
  Forall framed (stamp boundary kept) -> boundary + length_u64 kept < u64_max ->
  entry (disk w') log_path = settled (Some (segment (stamp boundary kept))) ->
  log_holds (disk w') s' kept.
Proof.
  intros Hv Hc Hm Hmr Hf Hb Hl. split; [done|]. rewrite Hc. split; [by exists marker|].
  exists (stamp boundary kept). split; [done|]. by apply retains_stamp.
Qed.

(** Replacement frames read as the entries they were made from. *)
Lemma rewritten_reads boundary kept marker :
  marker_reads marker boundary -> Forall framed (stamp boundary kept) -> boundary + length_u64 kept < u64_max ->
  log_reads (Some (segment (stamp boundary kept))) marker boundary kept.
Proof.
  intros Hm Hf Hb. split; [done|]. exists (stamp boundary kept), []. rewrite app_nil_r.
  split_and!; [done|by apply retains_stamp|apply torn_stops, torn_nil].
Qed.

Lemma entries_before_stamp from :
  through < from ->
  entries_before (flog_entries s) from = stamp through (take (N.to_nat (from - through - 1)) entries).
Proof.
  intros Hlt. destruct Hholds as ((_ & _ & He) & _). unfold entries_before. rewrite He. simpl. fold through.
  rewrite partition_point_stamp, stamp_take by done. f_equal.
  rewrite <- take_take, (take_ge entries (length entries)) by done. done.
Qed.

(** Preparing a rewrite leaves the two files alone. *)
Lemma prepare_keeps kept w1 r1 :
  prepare_log_rewrite (temp_rewrite_path log_path (process_id w)) kept w = (w1, r1) ->
  process_id w1 = process_id w /\ only [temp_rewrite_path log_path (process_id w)] (disk w) (disk w1) /\
  entry (disk w1) log_path = entry (disk w) log_path /\ entry (disk w1) marker_path = entry (disk w) marker_path /\
  (r1 = Ok tt -> entry_now (entry (disk w1) (temp_rewrite_path log_path (process_id w))) = Some (clean (segment kept))).
Proof.
  intros H. destruct (log_names_distinct (process_id w)) as (Hd1 & Hd2 & _).
  destruct Hholds as (_ & (m & Hm & _) & physical & Hl & _).
  pose proof (steady_run _ _ _ _ (steady_prepare_log_rewrite _ _) H) as Hpid.
  apply prepare_log_rewrite_spec in H as [Ho H]. split_and!; [done|done| | |].
  - rewrite Hl. apply calmer_settled. rewrite <- Hl. apply Ho. set_solver.
  - rewrite Hm. apply calmer_settled. rewrite <- Hm. apply Ho. set_solver.
  - intros Hr. by apply H.
Qed.

Lemma truncate_law from w' s' r :
  file_truncate_suffix w s from = (w', s', r) ->
  only (log_names (process_id w)) (disk w) (disk w') /\
  match r with
  | Ok _ => through < from /\ flog_compacted_through s' = through /\
      log_holds (disk w') s' (take (N.to_nat (from - through - 1)) entries)
  | Err _ => forall log marker, may (entry (disk w') log_path) log -> may (entry (disk w') marker_path) marker ->
      log_reads log marker through entries \/
      through < from /\ log_reads log marker through (take (N.to_nat (from - through - 1)) entries)
  end.
Proof.
  pose proof holds_bound as Hb. pose proof holds_next as Hn. unfold file_truncate_suffix.
  pose proof Hholds as ((Hp & Hh & He) & (m & Hm & Hmr) & physical & Hl & Hr). rewrite Hh, Hp, Hn. cbn [is_reopen_required].
  unfold reject_truncate_bounds. fold through. destruct (N.leb_spec from through) as [|Hlt].
  { intros [= <- <- <-]. split; [done|]. intros log marker H1 H2. left. by apply holds_reads. }
  destruct (N.ltb_spec (through + length_u64 entries + 1) from) as [|Hle].
  { intros [= <- <- <-]. split; [done|]. intros log marker H1 H2. left. by apply holds_reads. }
  set (kept := take (N.to_nat (from - through - 1)) entries).
  destruct (N.eqb_spec from (through + length_u64 entries + 1)) as [->|Hne].
  { intros [= <- <- <-]. split; [done|]. split_and!; [done|done|]. unfold kept. rewrite take_ge; [done|].
    unfold length_u64. lia. }
  destruct (log_names_distinct (process_id w)) as (Hd1 & Hd2 & _ & _ & _).
  rewrite entries_before_stamp by done. fold kept. set (temp := temp_rewrite_path log_path (process_id w)) in *.
  assert (through + length_u64 kept < u64_max) as Hbk by (unfold kept, length_u64 in *; rewrite length_take; lia).
  assert (Forall framed (stamp through kept)) as Hfk.
  { unfold kept. rewrite <- stamp_take. apply Forall_take, holds_framed. }
  destruct (prepare_log_rewrite temp (stamp through kept) w) as [w1 r1] eqn:H1.
  apply prepare_keeps in H1 as (_ & Ho1 & Hl1 & Hm1 & H1).
  destruct r1 as [[]|error].
  2: { intros H. assert (w' = w1 /\ exists e, r = Err e) as [-> [e ->]] by (destruct error; simplify_eq/=; eauto).
       split; [eapply only_weaken; [done|set_solver]|]. intros log marker. rewrite Hl1, Hm1. intros ? ?. left. by apply holds_reads. }
  pose proof (H1 eq_refl) as Hnow. destruct (publish_log_rewrite w1 s temp) as [[w2 s2] r2] eqn:H2.
  apply (publish_log_rewrite_spec _ _ _ _ _ _ _ Hp Hd1 Hnow) in H2 as [Ho2 H2].
  assert (entry (disk w2) marker_path = settled m) as Hm2.
  { apply calmer_settled. rewrite <- Hm, <- Hm1. apply Ho2. set_solver. }
  assert (only (log_names (process_id w)) (disk w) (disk w2)) as Ho.
  { etrans; (eapply only_weaken; [done|set_solver]). }
  destruct r2 as [[]|failure]; intros [= <- <- <-]; (split; [done|]).
  - destruct H2 as [H2 ->]. split_and!; [done|done|]. eapply rewritten_holds; [|done|done|done|done|done|done].
    split_and!; [done|done|]. simpl. rewrite He. unfold cle_truncate_suffix. simpl. fold through.
    f_equal. pose proof (entries_before_stamp from Hlt) as Hk. unfold entries_before in Hk. by rewrite He in Hk.
  - intros log marker Hml Hmm. rewrite Hm2, may_settled in Hmm. subst marker. destruct (H2 log Hml) as [Hml'| ->].
    + left. rewrite Hl1 in Hml'. apply holds_reads; [done|]. by rewrite Hm, may_settled.
    + right. split; [done|]. by apply rewritten_reads.
Qed.

Lemma dropped_stamp boundary :
  through < boundary ->
  drop (partition_point (fun x => ple_index x <? boundary + 1) (stamp through entries)) (stamp through entries) =
  stamp boundary (drop (N.to_nat (boundary - through)) entries).
Proof.
  intros Hlt. rewrite partition_point_stamp, stamp_drop by lia. set (k := N.to_nat (boundary - through)).
  replace (N.to_nat (boundary + 1 - through - 1)) with k by lia.
  destruct (Nat.le_gt_cases (length entries) k).
  - by rewrite Nat.min_r, !drop_ge by lia.
  - rewrite Nat.min_l by lia. f_equal. lia.
Qed.

Lemma entries_after_stamp boundary :
  through < boundary ->
  entries_after (flog_entries s) boundary = stamp boundary (drop (N.to_nat (boundary - through)) entries).
Proof.
  intros Hlt. rewrite <- dropped_stamp by done. destruct Hholds as ((_ & _ & He) & _).
  unfold entries_after. rewrite He. simpl. fold through. f_equal. apply partition_point_ext.
  intros x. destruct (N.leb_spec (ple_index x) boundary), (N.ltb_spec (ple_index x) (boundary + 1)); lia.
Qed.

Lemma compacted_view boundary :
  through < boundary -> boundary < u64_max ->
  log_view {| flog_path := flog_path s; flog_compacted_through := boundary;
              flog_entries := cle_compact_prefix_through (flog_entries s) boundary;
              flog_health := flog_health s |} (drop (N.to_nat (boundary - through)) entries).
Proof.
  intros Hlt Hmax. destruct Hholds as ((Hp & Hh & He) & _). split_and!; [done|done|]. simpl. rewrite He.
  unfold cle_compact_prefix_through, LogIndex_next. simpl. fold through.
  rewrite u64_add_small by (unfold u64_max, u64_modulus in *; lia). case_cmp; [lia|].
  f_equal. by apply dropped_stamp.
Qed.

Lemma compact_law boundary w' s' r :
  boundary < u64_modulus -> file_compact_prefix_through w s boundary = (w', s', r) ->
  let kept := drop (N.to_nat (boundary - through)) entries in
  only (log_names (process_id w)) (disk w) (disk w') /\
  match r with
  | Ok _ => flog_compacted_through s' = N.max through boundary /\ log_holds (disk w') s' kept
  | Err _ => forall log marker, may (entry (disk w') log_path) log -> may (entry (disk w') marker_path) marker ->
      log_reads log marker through entries \/ through < boundary < u64_max /\ log_reads log marker boundary kept
  end.
Proof.
  intros Hu Hrun kept. revert Hrun. pose proof holds_bound as Hb. unfold file_compact_prefix_through.
  pose proof Hholds as ((Hp & Hh & He) & (m & Hm & Hmr) & physical & Hl & Hr). rewrite Hh, Hp. cbn [is_reopen_required].
  unfold reject_compact_bounds, advanceable_log_index. fold through. destruct (N.eqb_spec boundary u64_max) as [|Hne].
  { intros [= <- <- <-]. split; [done|]. intros log marker H1 H2. left. by apply holds_reads. }
  destruct (N.leb_spec boundary through) as [|Hlt].
  { intros [= <- <- <-]. split; [done|]. split; [fold through; lia|]. unfold kept.
    by replace (N.to_nat (boundary - through)) with 0%nat by lia. }
  assert (boundary < u64_max) as Hmax by (unfold u64_max, u64_modulus in *; lia).
  destruct (log_names_distinct (process_id w)) as (Hd1 & Hd2 & Hd3 & Hd4 & Hd5).
  rewrite entries_after_stamp by done. fold kept. set (temp := temp_rewrite_path log_path (process_id w)) in *.
  set (mtemp := temp_compaction_marker_path log_path (process_id w)) in *.
  pose proof (retains_compact _ boundary _ _ Hr (N.lt_le_incl _ _ Hlt) Hmax) as Hrk. change (retains boundary physical kept) in Hrk.
  assert (boundary + length_u64 kept < u64_max) as Hbk by apply Hrk.
  assert (Forall framed (stamp boundary kept)) as Hfk.
  { destruct Hrk as (Hf & _ & <-). rewrite Forall_forall in *. intros e [_ Hin]%list_elem_of_filter. auto. }
  destruct (prepare_log_rewrite temp (stamp boundary kept) w) as [w1 r1] eqn:H1.
  apply prepare_keeps in H1 as (Hpid & Ho1 & Hl1 & Hm1 & H1).
  destruct r1 as [[]|error].
  2: { intros H. assert (w' = w1 /\ exists e, r = Err e) as [-> [e ->]] by (destruct error; simplify_eq/=; eauto).
       split; [eapply only_weaken; [done|set_solver]|]. intros log marker. rewrite Hl1, Hm1. intros ? ?. left. by apply holds_reads. }
  pose proof (H1 eq_refl) as Hnow. destruct (publish_compaction_marker w1 s boundary) as [[w2 s2] r2] eqn:H2.
  apply (publish_compaction_marker_spec _ _ _ _ _ _ Hp) in H2 as [Ho2 H2]. rewrite Hpid in Ho2. fold mtemp in Ho2.
  assert (only (log_names (process_id w)) (disk w) (disk w2)) as Ho.
  { etrans; (eapply only_weaken; [done|set_solver]). }
  assert (entry (disk w2) log_path = settled (Some (segment physical))) as Hl2.
  { apply calmer_settled. rewrite <- Hl, <- Hl1. apply Ho2. set_solver. }
  assert (log_reads (Some (segment physical)) (Some (encode_raft_log_compaction_marker boundary)) boundary kept) as Hnew.
  { split; [done|]. exists physical, []. rewrite app_nil_r. split_and!; [done|done|apply torn_stops, torn_nil]. }
  destruct r2 as [[]|failure].
  2: { intros [= <- <- <-]. split; [done|]. intros log marker Hml Hmm. rewrite Hl2, may_settled in Hml. subst log.
       destruct (H2 marker Hmm) as [Hmo| ->]; [left|by right]. rewrite Hm1 in Hmo. apply holds_reads; [|done].
       by rewrite Hl, may_settled. }
  destruct H2 as [Hm2 ->]. set (s1 := {| flog_path := _ |}) in *.
  destruct (publish_log_rewrite w2 s1 temp) as [[w3 s3] r3] eqn:H3.
  assert (entry_now (entry (disk w2) temp) = Some (clean (segment (stamp boundary kept)))) as Hnow2.
  { rewrite <- Hnow. apply Ho2. set_solver. }
  apply (publish_log_rewrite_spec _ s1 _ _ _ _ _ Hp Hd1 Hnow2) in H3 as [Ho3 H3].
  assert (only (log_names (process_id w)) (disk w) (disk w3)) as Ho'.
  { etrans; [done|]. eapply only_weaken; [done|set_solver]. }
  assert (entry (disk w3) marker_path = settled (Some (encode_raft_log_compaction_marker boundary))) as Hm3.
  { apply calmer_settled. rewrite <- Hm2. apply Ho3. set_solver. }
  destruct r3 as [[]|failure]; intros [= <- <- <-]; (split; [done|]).
  - destruct H3 as [Hl3 ->]. split; [simpl; lia|].
    eapply rewritten_holds; [by apply compacted_view|done|done|done|done|done|done].
  - intros log marker Hml Hmm. right. split; [done|]. rewrite Hm3, may_settled in Hmm. subst marker.
    destruct (H3 log Hml) as [Hlo| ->]; [|by apply rewritten_reads]. rewrite Hl2, may_settled in Hlo. by subst log.
Qed.
End laws.

(** ** Opening with repair *)

Lemma frames_of_app offset l k :
  frames_of offset (l ++ k) = frames_of offset l ++ frames_of (offset + length_u64 (segment l)) k.
Proof.
  revert offset. induction l as [|e l IH]; intros offset.
  - cbn [app frames_of]. f_equal. unfold length_u64. simpl. lia.
  - cbn [app frames_of]. rewrite IH, segment_cons, length_u64_app, N.add_assoc. done.
Qed.

(** Frames that continue the log are all kept. *)
Lemma repair_frames_retained physical tail offset through commit before entries acc :
  filter (fun e => through < ple_index e) physical = stamp before entries -> before + length_u64 entries < u64_max ->
  repair_frames (frames_of offset physical ++ tail) through commit (before + 1) acc =
  repair_frames tail through commit (before + length_u64 entries + 1) (acc ++ stamp before entries).
Proof.
  revert offset before entries acc. induction physical as [|e physical IH]; intros offset before entries acc Hf Hb.
  - destruct entries as [|x entries]; [|by rewrite stamp_cons in Hf]. cbn [frames_of app]. rewrite app_nil_r.
    unfold length_u64. simpl. by rewrite N.add_0_r.
  - cbn [frames_of app repair_frames frame_entry]. destruct (N.leb_spec (ple_index e) through) as [Hle|Hlt].
    + rewrite filter_cons_False in Hf by lia. by apply IH.
    + rewrite filter_cons_True in Hf by done. destruct entries as [|x entries]; [done|].
      rewrite stamp_cons in Hf |- *. injection Hf as -> Hf. cbn [ple_index]. rewrite N.eqb_refl. cbn [negb].
      unfold length_u64 in *. simpl length in *. unfold LogIndex_next.
      rewrite u64_add_small by (unfold u64_max, u64_modulus in *; lia).
      rewrite (IH _ (before + 1) entries) by (done || (unfold length_u64; lia)).
      rewrite <- app_assoc. f_equal. unfold length_u64. lia.
Qed.

Definition contiguous_from (through : LogIndex) (entries : list LogEntry) : ContiguousLogEntries :=
  {| cle_first_index := through + 1; cle_entries := stamp through entries |}.

Lemma open_contiguous_stamp through entries :
  through + length_u64 entries < u64_max ->
  open_contiguous (LogIndex_next through) (stamp through entries) = Ok (contiguous_from through entries).
Proof.
  intros Hb. unfold open_contiguous, from_entries, LogIndex_next.
  rewrite u64_add_small by (unfold u64_max, u64_modulus in *; lia). by rewrite validate_contiguous_stamp.
Qed.

(** Where the entries end, the file is cut, unless a committed entry would be
    missing. *)
Lemma replay_repairing_spec through commit physical rest entries :
  retains through physical entries -> stops through (through + length_u64 entries + 1) rest ->
  let r := replay_entries_repairing_uncommitted_tail (read_raft_log_frames (segment physical ++ rest)) through commit in
  if decide (rest = []) then r = Ok (contiguous_from through entries, None)
  else if commit <=? through + length_u64 entries
       then r = Ok (contiguous_from through entries, Some (length_u64 (segment physical)))
       else exists error, r = Err error.
Proof.
  intros (Hf & Hb & Hr) Hs. destruct (segment_split rest) as (more & torn_rest & Hmore & Ht & ->). intros r.
  destruct (read_raft_log_frames_spec (physical ++ more) torn_rest) as (error & Herr & Hscan); [by apply Forall_app|done|].
  assert (r = replay_entries_repairing_uncommitted_tail (read_raft_log_frames (segment physical ++ segment more ++ torn_rest))
            through commit) as Hrun by done. clearbody r. revert Hrun.
  rewrite segment_app, <- app_assoc in Hscan. rewrite Hscan. unfold replay_entries_repairing_uncommitted_tail.
  cbn [scan_frames scan_replay_error]. rewrite frames_of_app. unfold LogIndex_next at 1.
  rewrite u64_add_small by (unfold u64_max, u64_modulus in *; lia).
  rewrite (repair_frames_retained _ _ _ _ _ through entries) by done. cbn [app].
  assert (forall c, (through + length_u64 entries + 1 <=? c) = negb (c <=? through + length_u64 entries)) as Hcmp.
  { intros c. destruct (N.leb_spec c (through + length_u64 entries)), (N.leb_spec (through + length_u64 entries + 1) c);
      try done; lia. }
  destruct more as [|e more].
  - cbn [frames_of repair_frames]. rewrite app_nil_r in Herr. change (segment [] ++ torn_rest) with torn_rest.
    destruct torn_rest as [|b torn_rest]; simpl in Herr; rewrite open_contiguous_stamp by done.
    + subst error. by rewrite decide_True.
    + destruct Herr as [source ->]. rewrite decide_False by done. rewrite Hcmp.
      destruct (commit <=? _); cbn [negb]; [done|by eexists].
  - apply Forall_cons in Hmore as [He Hmore].
    destruct (Hs e (segment more ++ torn_rest) He) as [Hlt Hne]; [by rewrite segment_cons, <- app_assoc|].
    rewrite decide_False.
    2: { intros Hnil. apply (f_equal length_u64) in Hnil. rewrite segment_cons, !length_u64_app, length_frame in Hnil.
         change (length_u64 (@nil u8)) with 0 in Hnil. lia. }
    cbn [frames_of repair_frames frame_entry frame_offset].
    destruct (N.leb_spec (ple_index e) through); [lia|]. destruct (N.eqb_spec (ple_index e) (through + length_u64 entries + 1)); [done|].
    cbn [negb]. rewrite Hcmp, N.add_0_l. destruct (commit <=? _); cbn [negb]; [|by eexists].
    by rewrite open_contiguous_stamp.
Qed.

(** The directories still to be synced. *)
Definition recorded (sync : CreationSync) (directory : Directory) : Prop :=
  match sync with Immediate => False | Batched batch => directory ∈ batch_parents batch end.

Lemma recorded_parent batch path :
  recorded (Batched (record_parent_of batch path)) (parent_directory path) /\
  (forall directory, recorded (Batched batch) directory -> recorded (Batched (record_parent_of batch path)) directory).
Proof. unfold recorded, record_parent_of. case_decide; simpl; [done|]. set_solver. Qed.

Section opening.
Context (log marker : option (list u8)) (through : LogIndex) (entries : list LogEntry).
Hypothesis Hreads : log_reads log marker through entries.

(** The segment is there as it was found, or was created empty. *)
Definition at_hand (d : Disk) : Prop :=
  entry_now (entry d log_path) = Some (clean (default [] log)) /\
  (entry_was (entry d log_path) = [] \/ log = None /\ entry_was (entry d log_path) = [None]).

Lemma reads_default log' : default [] log' = default [] log -> log_reads log' marker through entries.
Proof. intros He. destruct Hreads as [Hm H]. split; [done|]. by rewrite He. Qed.

Lemma at_hand_reads d log' :
  entry d log_path = settled log \/ at_hand d -> may (entry d log_path) log' -> log_reads log' marker through entries.
Proof.
  intros [-> | [Hn Hw]] Hm; apply reads_default; [apply may_settled in Hm; by subst|].
  destruct Hm as (x & Hx & Hm). rewrite Hn in Hx. apply elem_of_cons in Hx as [->|Hx].
  - destruct log' as [bytes|]; [|done]. by apply survives_clean in Hm as ->.
  - destruct Hw as [Hw|[-> Hw]]; rewrite Hw in Hx; [by apply elem_of_nil in Hx|].
    apply list_elem_of_singleton in Hx as ->. by destruct log'.
Qed.

Lemma stops_prefix expected rest rest' :
  stops through expected rest -> rest' `prefix_of` rest -> stops through expected rest'.
Proof. intros Hs [k ->] e r He ->. apply (Hs e (r ++ k) He). by rewrite app_assoc. Qed.

Lemma read_compaction_marker_spec w w' r :
  entry (disk w) marker_path = settled marker -> read_compaction_marker log_path w = (w', r) ->
  disk w' = disk w /\ (forall t, r = Ok t -> t = through) /\ (faults w = [] -> w' = w /\ r = Ok through).
Proof.
  intros He. unfold read_compaction_marker. change (compaction_marker_path log_path) with marker_path.
  destruct Hreads as [Hm _]. destruct (open_read marker_path w) as [w1 r1] eqn:H1.
  assert (faults w = [] -> w1 = w /\ r1 = if marker is Some _ then Ok tt else Err not_found_error) as Hcalm1.
  { intros Hf. unfold open_read in H1. rewrite inspect_calm, He in H1 by done. destruct marker; by simplify_eq/=. }
  apply inspect_spec in H1 as [Hd1 H1]. rewrite He in H1.
  destruct marker as [bytes|]; simpl in Hm, H1.
  - destruct r1 as [[]|error].
    + destruct (read_to_end marker_path w1) as [w2 r2] eqn:H2.
      assert (faults w = [] -> w2 = w /\ r2 = Ok bytes) as Hcalm2.
      { intros Hf. destruct (Hcalm1 Hf) as [-> _]. unfold read_to_end in H2. rewrite inspect_calm, He in H2 by done. by simplify_eq/=. }
      apply inspect_spec in H2 as [Hd2 H2]. rewrite Hd1, He in H2. simpl in H2.
      assert (decode_raft_log_compaction_marker bytes = Ok through) as Hdec by by apply decode_marker_Ok.
      destruct r2 as [bytes'|error]; intros [= <- <-]; (split; [congruence|]).
      * destruct H2 as [[= ->]|(? & [=] & _)]. rewrite Hdec. split; [by intros t [= <-]|]. by intros [-> _]%Hcalm2.
      * split; [done|]. by intros [_ [=]]%Hcalm2.
    + destruct H1 as [[=]|(error' & [= ->] & Hnf & _)]. apply N.eqb_neq in Hnf. rewrite Hnf.
      intros [= <- <-]. split_and!; [done|done|]. by intros [_ [=]]%Hcalm1.
  - subst through. destruct H1 as [-> |(error & -> & Hnf & _)].
    + intros [= <- <-]. split_and!; [done|by intros t [= <-]|]. by intros [-> _]%Hcalm1.
    + apply N.eqb_neq in Hnf. rewrite Hnf. intros [= <- <-]. split_and!; [done|done|].
      intros [_ [= ->]]%Hcalm1. done.
Qed.

(** Creating a missing segment. *)
Lemma open_append_law w w' r :
  entry (disk w) log_path = settled log -> open_append log_path w = (w', r) ->
  only [log_path] (disk w) (disk w') /\ (entry (disk w') log_path = settled log \/ at_hand (disk w')) /\
  (r = Ok tt -> at_hand (disk w') /\ (log <> None -> entry (disk w') log_path = settled log)).
Proof.
  intros He H. assert (at_hand (alter_entry created log_path (disk w)) /\
    (log <> None -> entry (alter_entry created log_path (disk w)) log_path = settled log)) as Hc.
  { unfold at_hand. rewrite entry_alter, He. destruct log; simpl; [by auto|]. split; [by auto|]. by intros []. }
  apply change_atomic_spec in H as [[-> ->]|(error & -> & [-> | ->])].
  - split_and!; [apply only_alter|right; apply Hc|done].
  - split_and!; [done|by left|done].
  - split_and!; [apply only_alter|right; apply Hc|done].
Qed.

Lemma creation_sync_law sync w w' sync' r :
  at_hand (disk w) -> creation_sync log_path sync w = (w', sync', r) ->
  only [log_path] (disk w) (disk w') /\ at_hand (disk w') /\
  (forall directory, recorded sync directory -> recorded sync' directory) /\
  (r = Ok tt -> entry_was (entry (disk w') log_path) = [] \/ recorded sync' NodeDirectory).
Proof.
  intros Hh. unfold creation_sync. destruct sync as [|batch].
  - destruct (sync_parent_directory log_path w) as [w1 r1] eqn:H1. intros [= <- <- <-].
    assert (at_hand (settle_directory NodeDirectory (disk w)) /\
      entry_was (entry (settle_directory NodeDirectory (disk w)) log_path) = []) as Hs.
    { unfold at_hand. rewrite entry_settle_directory, decide_True by done. destruct Hh as [Hn _]. simpl. by auto. }
    apply change_atomic_spec in H1 as [[-> ->]|(error & -> & Hd)].
    + split_and!; [eapply only_weaken; [apply only_settle_directory|set_solver]|apply Hs|done|]. intros _. left. apply Hs.
    + destruct Hd as [-> | ->]; (split_and!; [|done || apply Hs|done|done]); [done|].
      eapply only_weaken; [apply only_settle_directory|set_solver].
  - intros [= <- <- <-]. destruct (recorded_parent batch log_path) as [H1 H2]. split_and!; [done|done|done|]. intros _. by right.
Qed.

(** Cutting what does not continue the log. *)
Lemma cut_law w w' r physical rest :
  default [] log = segment physical ++ rest -> retains through physical entries ->
  stops through (through + length_u64 entries + 1) rest -> at_hand (disk w) ->
  (let* _ := set_len log_path (length_u64 (segment physical)) in sync_data log_path) w = (w', r) ->
  only [log_path] (disk w) (disk w') /\
  match r with
  | Ok _ => entry (disk w') log_path = {| entry_now := Some (clean (segment physical)); entry_was := entry_was (entry (disk w) log_path) |}
  | Err _ => forall log', may (entry (disk w') log_path) log' -> log_reads log' marker through entries
  end.
Proof.
  intros Hlog Hret Hstop Hh H. pose proof Hh as [Hn Hw].
  set (cut := {| file_data := segment physical; file_unsynced := [default [] log] |}).
  set (d1 := alter_entry (update_file (fun f => rewritten (take (N.to_nat (length_u64 (segment physical))) (file_data f)) f)) log_path (disk w)).
  assert (entry d1 log_path = {| entry_now := Some cut; entry_was := entry_was (entry (disk w) log_path) |}) as He1.
  { unfold d1. rewrite entry_alter. unfold update_file. rewrite Hn. simpl. unfold rewritten, cut, clean, versions. simpl.
    unfold length_u64. by rewrite Nat2N.id, Hlog, take_app_length. }
  assert (forall log', may (entry d1 log_path) log' -> log_reads log' marker through entries) as Hcut.
  { intros log' (x & Hx & Hm). rewrite He1 in Hx. simpl in Hx. apply elem_of_cons in Hx as [->|Hx].
    - destruct log' as [bytes|]; [|done]. destruct Hm as [Hp Hv].
      assert (segment physical `prefix_of` bytes /\ bytes `prefix_of` segment physical ++ rest) as [[k ->] Hb].
      { unfold versions, cut in Hp, Hv. simpl in Hp, Hv. rewrite Hlog in Hp, Hv. split.
        - apply Hp. intros v [->| ->%list_elem_of_singleton]%elem_of_cons; [done|by eexists].
        - destruct Hv as (v & [->| ->%list_elem_of_singleton]%elem_of_cons & Hv); [|by etrans; [|eexists]|done].
          intros v v' [->| ->%list_elem_of_singleton]%elem_of_cons [->| ->%list_elem_of_singleton]%elem_of_cons;
            first [by left|by right|left; by eexists|right; by eexists]. }
      destruct Hreads as [Hm _]. split; [done|]. exists physical, k. split_and!; [done|done|].
      eapply stops_prefix; [done|]. by eapply prefix_app_inv.
    - eapply (at_hand_reads (disk w)); [by right|]. exists x. split; [by right|done]. }
  apply io_bind_inv in H as [(w1 & [] & H1 & H2)|(error & H1 & ->)].
  - apply change_atomic_spec in H1 as [[_ Hd1]|(? & [=] & _)]. fold d1 in Hd1.
    assert (only [log_path] (disk w) (disk w1)) as Ho1 by (rewrite Hd1; apply only_alter).
    apply change_atomic_spec in H2 as [[-> Hd2]|(error & -> & Hd2)].
    + rewrite Hd2. split; [etrans; [done|]; apply only_alter|]. rewrite entry_alter, Hd1, He1. done.
    + split; [etrans; [done|]; destruct Hd2 as [-> | ->]; [done|apply only_alter]|].
      intros log' Hm. destruct Hd2 as [Hd2|Hd2]; [rewrite Hd2, Hd1 in Hm; by apply Hcut|].
      rewrite Hd2, entry_alter, Hd1, He1 in Hm. destruct Hm as (x & Hx & Hm). simpl in Hx. apply elem_of_cons in Hx as [->|Hx].
      * destruct log' as [bytes|]; [|done]. apply survives_clean in Hm as ->. destruct Hreads as [Hm _]. split; [done|].
        exists physical, []. rewrite app_nil_r. split_and!; [done|done|apply torn_stops, torn_nil].
      * apply Hcut. rewrite He1. exists x. split; [by right|done].
  - apply change_atomic_spec in H1 as [[[=] _]|(error' & _ & Hd)]. fold d1 in Hd. destruct Hd as [-> | ->].
    + split; [done|]. intros log' Hm. eapply (at_hand_reads (disk w)); [by right|done].
    + split; [apply only_alter|done].
Qed.

Lemma at_hand_only d d' : at_hand d -> only [] d d' -> at_hand d'.
Proof.
  intros [Hn Hw] Ho. destruct (Ho log_path) as [Hn' Hw']; [set_solver|]. split; [by rewrite Hn'|].
  destruct Hw' as [Hw'|Hw']; rewrite Hw'; auto.
Qed.

(** Scanning, matching with the marker and cutting. *)
Lemma replay_open_law commit w w' r :
  at_hand (disk w) -> entry (disk w) marker_path = settled marker ->
  replay_open_file log_path (RepairUncommittedTail commit) w = (w', r) ->
  only [log_path] (disk w) (disk w') /\
  match r with
  | Ok s => log_view s entries /\ flog_compacted_through s = through /\
      exists physical, retains through physical entries /\
        entry (disk w') log_path = {| entry_now := Some (clean (segment physical));
                                      entry_was := entry_was (entry (disk w) log_path) |}
  | Err _ => forall log', may (entry (disk w') log_path) log' -> log_reads log' marker through entries
  end.
Proof.
  intros Hh Hm. pose proof Hh as [Hn Hw]. unfold replay_open_file.
  assert (forall log', may (entry (disk w) log_path) log' -> log_reads log' marker through entries) as Hsame.
  { intros log'. apply at_hand_reads. by right. }
  destruct (file_len log_path w) as [w1 r1] eqn:H1. apply inspect_spec in H1 as [Hd1 _].
  destruct r1 as [len|]; [|intros [= <- <-]; rewrite Hd1; by split].
  destruct (read_to_end log_path w1) as [w2 r2] eqn:H2. apply inspect_spec in H2 as [Hd2 H2]. rewrite Hd1, Hn in H2.
  destruct r2 as [bytes|]; [|intros [= <- <-]; rewrite Hd2, Hd1; by split].
  destruct H2 as [[= ->]|(? & [=] & _)]. rewrite Hd1 in Hd2.
  destruct (read_compaction_marker log_path w2) as [w3 r3] eqn:H3.
  apply read_compaction_marker_spec in H3 as (Hd3 & H3 & _); [|by rewrite Hd2]. rewrite Hd2 in Hd3.
  destruct r3 as [t|]; [|intros [= <- <-]; rewrite Hd3; by split].
  specialize (H3 t eq_refl) as ->. pose proof Hreads as [_ (physical & rest & Hlog & Hret & Hstop)].
  cbn [file_data clean]. rewrite Hlog. cbn [replay_entries_for_open].
  pose proof (replay_repairing_spec through commit physical rest entries Hret Hstop) as Hrep. cbv zeta in Hrep.
  case_decide as Hrest.
  - rewrite Hrep. intros [= <- <-]. rewrite Hd3. split; [done|]. split; [done|]. split; [done|]. exists physical. split; [done|].
    destruct (entry (disk w) log_path) as [n was]. simpl in *. by rewrite Hn, Hlog, Hrest, app_nil_r.
  - destruct (commit <=? _).
    2: { destruct Hrep as [error ->]. intros [= <- <-]. rewrite Hd3. by split. }
    rewrite Hrep. destruct (io_bind _ _ w3) as [w4 r4] eqn:H4. apply (cut_law _ _ _ physical rest) in H4 as [Ho4 H4];
      [|done|done|done|by rewrite Hd3]. rewrite Hd3 in Ho4, H4.
    destruct r4 as [[]|]; intros [= <- <-]; (split; [done|]); [|done].
    split; [done|]. split; [done|]. by exists physical.
Qed.

Lemma replay_open_total commit w :
  at_hand (disk w) -> entry (disk w) marker_path = settled marker -> faults w = [] ->
  commit <= through + length_u64 entries ->
  exists w' s, replay_open_file log_path (RepairUncommittedTail commit) w = (w', Ok s) /\ faults w' = [].
Proof.
  intros Hh Hm Hf Hc. pose proof Hh as [Hn Hw]. unfold replay_open_file, file_len, read_to_end.
  rewrite inspect_calm, Hn by done. rewrite inspect_calm, Hn by done.
  destruct (read_compaction_marker log_path w) as [w3 r3] eqn:H3.
  apply read_compaction_marker_spec in H3 as (_ & _ & H3); [|done]. destruct (H3 Hf) as [-> ->].
  pose proof Hreads as [_ (physical & rest & Hlog & Hret & Hstop)].
  cbn [file_data clean]. rewrite Hlog. cbn [replay_entries_for_open].
  pose proof (replay_repairing_spec through commit physical rest entries Hret Hstop) as Hrep. cbv zeta in Hrep.
  apply N.leb_le in Hc. rewrite Hc in Hrep. case_decide; rewrite Hrep; [by eexists _, _|].
  unfold io_bind, set_len, sync_data. rewrite !change_atomic_calm by done. by eexists _, _.
Qed.

(** The frames replayed are what was there. *)
Lemma replayed_reads d physical log' :
  at_hand d -> retains through physical entries ->
  may {| entry_now := Some (clean (segment physical)); entry_was := entry_was (entry d log_path) |} log' ->
  log_reads log' marker through entries.
Proof.
  intros [_ Hw] Hr (x & Hx & Hm). simpl in Hx. apply elem_of_cons in Hx as [->|Hx].
  - destruct log' as [bytes|]; [|done]. apply survives_clean in Hm as ->. destruct Hreads as [Hmr _]. split; [done|].
    exists physical, []. rewrite app_nil_r. split_and!; [done|done|]. apply torn_stops, torn_nil.
  - destruct Hw as [Hw|[Hl Hw]]; rewrite Hw in Hx; [by apply elem_of_nil in Hx|].
    apply list_elem_of_singleton in Hx as ->. destruct log'; [done|]. apply reads_default. by rewrite Hl.
Qed.

Lemma open_law commit sync w w' sync' r :
  entry (disk w) log_path = settled log -> entry (disk w) marker_path = settled marker ->
  file_log_open log_path sync (RepairUncommittedTail commit) w = (w', sync', r) ->
  only [log_path] (disk w) (disk w') /\
  (forall directory, recorded sync directory -> recorded sync' directory) /\
  (forall log', may (entry (disk w') log_path) log' -> log_reads log' marker through entries) /\
  match r with
  | Ok s => log_view s entries /\ flog_compacted_through s = through /\
      exists physical, retains through physical entries /\
        entry_now (entry (disk w') log_path) = Some (clean (segment physical)) /\
        (entry_was (entry (disk w') log_path) = [] \/ recorded sync' NodeDirectory)
  | Err _ => True
  end.
Proof.
  intros Hl Hm. unfold file_log_open. destruct (try_exists log_path w) as [w1 r1] eqn:H1.
  apply inspect_spec in H1 as [Hd1 H1]. rewrite Hl in H1.
  destruct r1 as [existed|].
  2: { intros [= <- <- <-]. rewrite Hd1. split_and!; [done|done| |done]. intros log'. apply at_hand_reads. by left. }
  destruct (open_append log_path w1) as [w2 r2] eqn:H2. apply open_append_law in H2 as (Ho2 & Hd2 & H2); [|by rewrite Hd1].
  rewrite Hd1 in Ho2. destruct r2 as [[]|].
  2: { intros [= <- <- <-]. split_and!; [done|done| |done]. intros log'. by apply at_hand_reads. }
  destruct (H2 eq_refl) as [Hh2 Hex].
  destruct (if existed then _ else _) as [[w3 sync3] r3] eqn:H3.
  assert (only [log_path] (disk w) (disk w3) /\ at_hand (disk w3) /\
    (forall directory, recorded sync directory -> recorded sync3 directory) /\
    (r3 = Ok tt -> entry_was (entry (disk w3) log_path) = [] \/ recorded sync3 NodeDirectory)) as (Ho3 & Hh3 & Hrec & Hwas).
  { destruct existed.
    - injection H3 as <- <- <-. split_and!; [done|done|done|]. intros _. left. rewrite Hex; [done|].
      destruct H1 as [[= H1]|(? & [=] & _)]. by destruct log.
    - apply creation_sync_law in H3 as (Ho3 & ? & ? & ?); [|done]. split_and!; [by etrans|done..]. }
  destruct r3 as [[]|].
  2: { intros [= <- <- <-]. split_and!; [done|done| |done]. intros log'. apply at_hand_reads. by right. }
  destruct (replay_open_file log_path _ w3) as [w4 r4] eqn:H4. intros [= <- <- <-].
  apply replay_open_law in H4 as [Ho4 H4]; [|done|].
  2: { apply calmer_settled. rewrite <- Hm. apply Ho3. set_solver. }
  split; [by etrans|]. split; [done|]. destruct r4 as [s|]; [|by split].
  destruct H4 as (Hv & Ht & physical & Hr & He). split; [|split_and!; [done|done|]; exists physical; rewrite He; by eauto].
  intros log'. rewrite He. by apply (replayed_reads _ _ _ Hh3).
Qed.

Lemma open_total commit sync w :
  entry (disk w) log_path = settled log -> entry (disk w) marker_path = settled marker -> faults w = [] ->
  commit <= through + length_u64 entries ->
  exists w' sync' s, file_log_open log_path sync (RepairUncommittedTail commit) w = (w', sync', Ok s) /\ faults w' = [].
Proof.
  intros Hl Hm Hf Hc. unfold file_log_open, try_exists. rewrite inspect_calm by done.
  destruct (open_append log_path w) as [w2 r2] eqn:H2.
  assert (r2 = Ok tt /\ faults w2 = []) as [-> Hf2].
  { unfold open_append in H2. rewrite change_atomic_calm in H2 by done. by injection H2 as <- <-. }
  apply open_append_law in H2 as (Ho2 & _ & H2); [|done]. destruct (H2 eq_refl) as [Hh2 _].
  set (existed := match entry_now _ with Some _ => true | None => false end). clearbody existed.
  destruct (if existed then (w2, sync, Ok tt) else creation_sync log_path sync w2) as [[w3 sync3] r3] eqn:H3.
  assert (r3 = Ok tt /\ faults w3 = [] /\ at_hand (disk w3) /\ only [log_path] (disk w) (disk w3)) as (-> & Hf3 & Hh3 & Ho3).
  { destruct existed; [by injection H3 as <- <- <-|].
    pose proof H3 as (Ho3 & Hh3 & _)%creation_sync_law; [|done]. split_and!; [| |done|by etrans].
    all: unfold creation_sync, sync_parent_directory, sync_directory in H3; destruct sync; rewrite ?change_atomic_calm in H3 by done.
    all: by injection H3 as <- <- <-. }
  destruct (replay_open_total commit w3) as (w4 & s & -> & Hf4); [done| |done|done|by eauto 6].
  apply calmer_settled. rewrite <- Hm. apply Ho3. set_solver.
Qed.
End opening.
