(* ===== verification/SnapshotFormat.v ===== *)
(** * Storage formats: snapshots, their manifest and pending transfers

    Models the version-1 snapshot artifacts of
    [crates/rafter-storage/src/format/v1/]: the metadata fields
    ([snapshot_metadata.rs]), the snapshot envelope ([snapshot.rs],
    [snapshot/codec.rs], [snapshot/value.rs]), the manifest that selects the
    current snapshot ([snapshot_manifest.rs]) and the manifest of a pending
    transfer ([pending_transfer.rs]); and shows that every decoder accepts
    exactly what its encoder writes.

    A file name is the string of its UTF-8 bytes. *)

From Stdlib Require Import Strings.Byte.
From Stdlib Require Import Strings.String.
From stdpp Require Import base strings list sorting numbers option sets.
From S2P Require Import Prelude.
From S2P Require Import Types.
From S2P Require Import Crc32.
From S2P Require Import Snapshot.
From S2P Require Import Message.
From S2P Require Import Membership.
From S2P Require Import Wire.
From S2P Require Import CodecV1.
From S2P Require Import Frame.
From S2P Require Import Grammar.
From S2P Require Import Emit.
From S2P Require Import CodecSpec.
From S2P Require Import FrameSpec.
From S2P Require Import Stores.
From S2P Require Import StorageFormat.
From S2P Require Import StorageSpec.

(** ** Errors *)

Inductive DecodeRaftSnapshotError :=
| Snapshot_UnexpectedEof (needed remaining : usize)
| Snapshot_InvalidMagic (magic : list u8)
| Snapshot_UnsupportedVersion (version : u8)
| Snapshot_InvalidGroupId (error : SnapshotIdError)
| Snapshot_InvalidApplicationKind (error : SnapshotIdError)
| Snapshot_InvalidUtf8 (field : string)
| Snapshot_InvalidApplicationVersion (error : SnapshotMetadataError)
| Snapshot_InvalidMetadata (error : SnapshotMetadataError)
| Snapshot_InvalidMembership (error : MembershipValidationError)
| Snapshot_NonCanonicalMembershipOrder (member_kind : string) (previous actual : NodeId)
| Snapshot_UnknownMembershipFlag (flag : u8)
| Snapshot_UnknownMembershipKind (kind : u8)
| Snapshot_PayloadChecksumMismatch (expected actual : u32)
| Snapshot_EnvelopeChecksumMismatch (expected actual : u32)
| Snapshot_TrailingBytes (remaining : usize).

#[export] Instance snapshot_reader_error : ReaderError DecodeRaftSnapshotError := {|
  eof := Snapshot_UnexpectedEof;
  trailing := Snapshot_TrailingBytes;
|}.

#[export] Instance snapshot_from_checksum : FromChecksum DecodeRaftSnapshotError := fun error =>
  match error with
  | Checksum_UnexpectedEof needed remaining => Snapshot_UnexpectedEof needed remaining
  | Checksum_Mismatch expected actual => Snapshot_EnvelopeChecksumMismatch expected actual
  end.

(** ** Metadata *)

Definition u16_max : N := 65535.

(** The encoders' writer is local to [encode_raft_snapshot_header], which drops
    it on an error: an encoder is the bytes it appends, or its error. *)
Definition encode_string (field : string) (value : list N)
  : result (list u8) EncodeRaftSnapshotError :=
  let len := str_len value in
  if len <=? u16_max then Ok (be_bytes 2 len ++ (as_u8 <$> str_bytes value))
  else Err (SnapshotStringTooLong field len).

Definition encode_node_set (member_kind : string) (node_ids : list NodeId)
  : result (list u8) EncodeRaftSnapshotError :=
  let count := length_u64 node_ids in
  if count <=? u16_max then Ok (be_bytes 2 count ++ (node_ids ≫= be_bytes 8))
  else Err (SnapshotTooManyMembers member_kind count).

Definition encode_membership_set (membership : MembershipSet)
  : result (list u8) EncodeRaftSnapshotError :=
  let? voters := encode_node_set "voters" (voters membership) in
  let? learners := encode_node_set "learners" (learners membership) in
  Ok (voters ++ learners).

Definition encode_membership_config (membership : MembershipConfig)
  : result (list u8) EncodeRaftSnapshotError :=
  match membership with
  | Stable stable =>
      let? stable := encode_membership_set stable in
      Ok ([x00] ++ stable)
  | Joint joint =>
      let? old := encode_membership_set (old joint) in
      let? new := encode_membership_set (new_membership joint) in
      Ok ([x01] ++ old ++ new)
  end.

Definition encode_optional_committed_configuration (committed : option SnapshotCommittedConfiguration)
  : result (list u8) EncodeRaftSnapshotError :=
  match committed with
  | Some committed =>
      let configuration :=
        match scc_configuration committed with
        | Some configuration =>
            [x01] ++ be_bytes 8 (cc_index configuration) ++ be_bytes 8 (cc_config_id configuration)
        | None => [x00]
        end in
      let? membership := encode_membership_config (scc_membership committed) in
      Ok ([x01] ++ configuration ++ membership)
  | None => Ok [x00]
  end.

Definition encode_snapshot_metadata (metadata : RaftSnapshotMetadata)
  : result (list u8) EncodeRaftSnapshotError :=
  let? group_id := encode_string "snapshot group id" (group_id_str (group_id metadata)) in
  let? kind :=
    encode_string "application snapshot kind" (application_kind_str (app_kind (application metadata))) in
  let? committed := encode_optional_committed_configuration (metadata_committed_configuration metadata) in
  Ok (group_id ++ be_bytes 8 (writer_id metadata) ++ be_bytes 8 (last_included_index metadata)
      ++ be_bytes 8 (last_included_term metadata) ++ be_bytes 8 (hard_state_term metadata)
      ++ kind ++ be_bytes 2 (application_version (app_version (application metadata)))
      ++ committed).

Definition decode_string (field : string) : rdec DecodeRaftSnapshotError (list N) :=
  read_str (Snapshot_InvalidUtf8 field).

Definition decode_node_set (member_kind : string) : rdec DecodeRaftSnapshotError (list NodeId) :=
  let! count := read_u16 in
  read_node_ids_loop (Snapshot_NonCanonicalMembershipOrder member_kind) (N.to_nat count) [].

Definition decode_membership_set : rdec DecodeRaftSnapshotError MembershipSet :=
  let! voters := decode_node_set "voters" in
  let! learners := decode_node_set "learners" in
  dec_lift (map_err Snapshot_InvalidMembership (MembershipSet_new voters learners)).

Definition decode_membership_config : rdec DecodeRaftSnapshotError MembershipConfig :=
  let! kind := read_u8 in
  match kind with
  | x00 => let! stable := decode_membership_set in dec_ret (Stable stable)
  | x01 =>
      let! old := decode_membership_set in
      let! new := decode_membership_set in
      dec_ret (Joint {| old := old; new_membership := new |})
  | other => dec_fail (Snapshot_UnknownMembershipKind other)
  end.

Definition decode_configuration : rdec DecodeRaftSnapshotError (option CommittedConfiguration) :=
  let! flag := read_u8 in
  match flag with
  | x00 => dec_ret None
  | x01 =>
      let! index := read_u64 in
      let! config_id := read_u64 in
      dec_ret (Some {| cc_index := index; cc_config_id := config_id |})
  | flag => dec_fail (Snapshot_UnknownMembershipFlag flag)
  end.

Definition decode_optional_committed_configuration
  : rdec DecodeRaftSnapshotError (option SnapshotCommittedConfiguration) :=
  let! flag := read_u8 in
  match flag with
  | x00 => dec_ret None
  | x01 =>
      let! configuration := decode_configuration in
      let! membership := decode_membership_config in
      dec_ret (Some {| scc_configuration := configuration; scc_membership := membership |})
  | flag => dec_fail (Snapshot_UnknownMembershipFlag flag)
  end.

(** A field handed to a constructor that checks it. *)
Definition read_new {E A B F} `{!ReaderError E} (new : A -> result B F) (field : rdec E A) (error : F -> E)
  : rdec E B :=
  let! value := field in
  dec_lift (map_err error (new value)).

Definition decode_snapshot_metadata : rdec DecodeRaftSnapshotError RaftSnapshotMetadata :=
  let! group_id :=
    read_new SnapshotGroupId_new (decode_string "snapshot group id") Snapshot_InvalidGroupId in
  let! writer_id := read_u64 in
  let! last_included_index := read_u64 in
  let! last_included_term := read_u64 in
  let! hard_state_term := read_u64 in
  let! application_kind :=
    read_new ApplicationSnapshotKind_new (decode_string "application snapshot kind")
      Snapshot_InvalidApplicationKind in
  let! application_version :=
    read_new ApplicationSnapshotVersion_new read_u16 Snapshot_InvalidApplicationVersion in
  let! committed_configuration := decode_optional_committed_configuration in
  let! metadata :=
    dec_lift (map_err Snapshot_InvalidMetadata
      (RaftSnapshotMetadata_new group_id writer_id last_included_index last_included_term
         hard_state_term {| app_kind := application_kind; app_version := application_version |})) in
  dec_ret (match committed_configuration with
           | Some committed_configuration =>
               with_committed_configuration metadata committed_configuration
           | None => metadata
           end).

(** ** Snapshot envelopes *)

(** [*b"RFSN"] *)
Definition RAFT_SNAPSHOT_MAGIC : list u8 := [x52; x46; x53; x4e].
Definition RAFT_SNAPSHOT_VERSION : u8 := x01.

Record SnapshotEnvelopeHeader := {
  header_metadata : RaftSnapshotMetadata;
  header_payload_len : u64;
  header_len : u64;
}.

Definition encode_raft_snapshot_header (metadata : RaftSnapshotMetadata) (payload_len : u64)
  : result (list u8) EncodeRaftSnapshotError :=
  let? metadata := encode_snapshot_metadata metadata in
  Ok (RAFT_SNAPSHOT_MAGIC ++ [RAFT_SNAPSHOT_VERSION] ++ metadata ++ be_bytes 8 payload_len).

Definition encode_raft_snapshot (snapshot : PersistedRaftSnapshot)
  : result (list u8) EncodeRaftSnapshotError :=
  let payload := prs_application_payload snapshot in
  let? header := encode_raft_snapshot_header (prs_metadata snapshot) (length_u64 payload) in
  Ok (finish_checksummed (header ++ payload ++ be_bytes 4 (crc32 payload))).

Definition encode_raft_snapshot_metadata_envelope (metadata : RaftSnapshotMetadata)
  : result (list u8) EncodeRaftSnapshotError :=
  let? header := encode_raft_snapshot_header metadata 0 in
  Ok (finish_checksummed (header ++ be_bytes 4 (crc32 []))).

Definition read_snapshot_header : rdec DecodeRaftSnapshotError (RaftSnapshotMetadata * u64) :=
  let! _ := expect_header RAFT_SNAPSHOT_MAGIC RAFT_SNAPSHOT_VERSION
              Snapshot_InvalidMagic Snapshot_UnsupportedVersion in
  let! metadata := decode_snapshot_metadata in
  let! payload_len := read_u64 in
  dec_ret (metadata, payload_len).

Definition decode_raft_snapshot_header (prefix : list u8)
  : result SnapshotEnvelopeHeader DecodeRaftSnapshotError :=
  let? (metadata, payload_len, reader) := read_snapshot_header (Reader_new prefix) in
  Ok {| header_metadata := metadata; header_payload_len := payload_len;
        header_len := rd_position reader |}.

(** The payload, behind a header of [payload_len] bytes. *)
Definition read_snapshot_payload (payload_len : u64) : rdec DecodeRaftSnapshotError (list u8) :=
  let! application_payload := read_take payload_len in
  let! expected := read_u32 in
  let actual := crc32 application_payload in
  if negb (expected =? actual) then dec_fail (Snapshot_PayloadChecksumMismatch expected actual)
  else dec_ret application_payload.

Definition decode_raft_snapshot (envelope : list u8)
  : result PersistedRaftSnapshot DecodeRaftSnapshotError :=
  let? body := map_err from_checksum (verify_checksum envelope) in
  let? header := decode_raft_snapshot_header body in
  let? (_, reader) := read_take (header_len header) (Reader_new body) in
  let remaining := length_u64 body - header_len header in
  if remaining <? header_payload_len header
  then Err (Snapshot_UnexpectedEof (header_payload_len header) remaining)
  else
    let? (application_payload, reader) := read_snapshot_payload (header_payload_len header) reader in
    let? _ := finish reader in
    Ok {| prs_metadata := header_metadata header; prs_application_payload := application_payload |}.

(** ** The current-snapshot manifest *)

(** [*b"RFSM"] *)
Definition SNAPSHOT_MANIFEST_MAGIC : list u8 := [x52; x46; x53; x4d].
Definition SNAPSHOT_MANIFEST_VERSION : u8 := x01.

Inductive RaftSnapshotManifestDecodeError :=
| Manifest_UnexpectedEof (needed remaining : usize)
| Manifest_InvalidMagic (magic : list u8)
| Manifest_UnsupportedVersion (version : u8)
| Manifest_ChecksumMismatch (expected actual : u32)
| Manifest_InvalidFileNameUtf8
| Manifest_InvalidFileName
| Manifest_TrailingBytes (remaining : usize).

#[export] Instance manifest_reader_error : ReaderError RaftSnapshotManifestDecodeError := {|
  eof := Manifest_UnexpectedEof;
  trailing := Manifest_TrailingBytes;
|}.

#[export] Instance manifest_from_checksum : FromChecksum RaftSnapshotManifestDecodeError := fun error =>
  match error with
  | Checksum_UnexpectedEof needed remaining => Manifest_UnexpectedEof needed remaining
  | Checksum_Mismatch expected actual => Manifest_ChecksumMismatch expected actual
  end.

Record SnapshotManifest := {
  manifest_sequence : u64;
  manifest_file_name : string;
}.

Definition encode_manifest (manifest : SnapshotManifest)
  : result (list u8) RaftSnapshotManifestEncodeError :=
  let file_name := list_byte_of_string (manifest_file_name manifest) in
  let file_name_len := length_u64 file_name in
  if file_name_len <=? u16_max
  then Ok (finish_checksummed (
             SNAPSHOT_MANIFEST_MAGIC ++ [SNAPSHOT_MANIFEST_VERSION] ++
             be_bytes 8 (manifest_sequence manifest) ++ be_bytes 2 file_name_len ++ file_name))
  else Err (FileNameTooLong file_name_len).

(** The separators [/] and [\], and the names of a directory itself and of its
    parent. *)
Definition validate_manifest_file_name (file_name : string)
  : result unit RaftSnapshotManifestDecodeError :=
  let bytes := list_byte_of_string file_name in
  if bool_decide (bytes = []) || bool_decide (x2f ∈ bytes) || bool_decide (x5c ∈ bytes)
     || bool_decide (file_name = ".") || bool_decide (file_name = "..")
  then Err Manifest_InvalidFileName
  else Ok tt.

Definition read_file_name : rdec RaftSnapshotManifestDecodeError string :=
  let! file_name_len := read_u16 in
  let! file_name_bytes := read_take file_name_len in
  match from_utf8 file_name_bytes with
  | None => dec_fail Manifest_InvalidFileNameUtf8
  | Some _ =>
      let file_name := string_of_list_byte file_name_bytes in
      let! _ := dec_lift (validate_manifest_file_name file_name) in
      dec_ret file_name
  end.

Definition read_manifest_fields : rdec RaftSnapshotManifestDecodeError SnapshotManifest :=
  let! _ := expect_header SNAPSHOT_MANIFEST_MAGIC SNAPSHOT_MANIFEST_VERSION
              Manifest_InvalidMagic Manifest_UnsupportedVersion in
  let! sequence := read_u64 in
  let! file_name := read_file_name in
  dec_ret {| manifest_sequence := sequence; manifest_file_name := file_name |}.

Definition decode_manifest (input : list u8) : result SnapshotManifest RaftSnapshotManifestDecodeError :=
  decode_checked read_manifest_fields input.

(** ** The manifest of a pending transfer *)

(** [*b"RFPT"] *)
Definition PENDING_SNAPSHOT_TRANSFER_MANIFEST_MAGIC : list u8 := [x52; x46; x50; x54].
Definition PENDING_SNAPSHOT_TRANSFER_MANIFEST_VERSION : u8 := x01.

Definition MAX_PENDING_SNAPSHOT_METADATA_ENVELOPE_BYTES : u64 := 4194304.

Record PendingTransferManifest := {
  ptm_leader_id : NodeId;
  ptm_transfer_id : SnapshotTransferId;
  ptm_metadata : RaftSnapshotMetadata;
  ptm_total_payload_len : u64;
  ptm_application_payload_crc32 : u32;
  ptm_received_payload_len : u64;
  ptm_body_checksum : u32;
}.

Inductive DecodePendingSnapshotTransferError :=
| Pending_UnexpectedEof (needed remaining : usize)
| Pending_InvalidMagic (magic : list u8)
| Pending_UnsupportedVersion (version : u8)
| Pending_EnvelopeChecksumMismatch (expected actual : u32)
| Pending_SnapshotEnvelopeTooLarge (len : u64)
| Pending_SnapshotEnvelopePayloadNotEmpty (len : usize)
| Pending_Snapshot (error : DecodeRaftSnapshotError)
| Pending_ReceivedPayloadTooLong (received_bytes total_payload_len : u64)
| Pending_TransferIdMismatch (expected actual : SnapshotTransferId)
| Pending_TrailingBytes (remaining : usize).

#[export] Instance pending_reader_error : ReaderError DecodePendingSnapshotTransferError := {|
  eof := Pending_UnexpectedEof;
  trailing := Pending_TrailingBytes;
|}.

#[export] Instance pending_from_checksum : FromChecksum DecodePendingSnapshotTransferError := fun error =>
  match error with
  | Checksum_UnexpectedEof needed remaining => Pending_UnexpectedEof needed remaining
  | Checksum_Mismatch expected actual => Pending_EnvelopeChecksumMismatch expected actual
  end.

Definition encode_pending_snapshot_transfer_manifest (manifest : PendingTransferManifest)
  : result (list u8) EncodeRaftSnapshotError :=
  let? metadata_envelope := encode_raft_snapshot_metadata_envelope (ptm_metadata manifest) in
  Ok (finish_checksummed (
        PENDING_SNAPSHOT_TRANSFER_MANIFEST_MAGIC ++ [PENDING_SNAPSHOT_TRANSFER_MANIFEST_VERSION] ++
        be_bytes 8 (ptm_leader_id manifest) ++ be_bytes 8 (ptm_transfer_id manifest) ++
        be_bytes 8 (ptm_total_payload_len manifest) ++
        be_bytes 4 (ptm_application_payload_crc32 manifest) ++
        be_bytes 8 (ptm_received_payload_len manifest) ++ be_bytes 4 (ptm_body_checksum manifest) ++
        be_bytes 8 (length_u64 metadata_envelope) ++ metadata_envelope)).

(** The nested envelope, which has no payload. *)
Definition read_metadata_envelope : rdec DecodePendingSnapshotTransferError RaftSnapshotMetadata :=
  let! metadata_envelope_len := read_u64 in
  if MAX_PENDING_SNAPSHOT_METADATA_ENVELOPE_BYTES <? metadata_envelope_len
  then dec_fail (Pending_SnapshotEnvelopeTooLarge metadata_envelope_len)
  else
    let! metadata_envelope := read_take metadata_envelope_len in
    let! metadata_snapshot :=
      dec_lift (map_err Pending_Snapshot (decode_raft_snapshot metadata_envelope)) in
    if negb (length_u64 (prs_application_payload metadata_snapshot) =? 0)
    then dec_fail (Pending_SnapshotEnvelopePayloadNotEmpty
                     (length_u64 (prs_application_payload metadata_snapshot)))
    else dec_ret (prs_metadata metadata_snapshot).

Definition read_pending_manifest : rdec DecodePendingSnapshotTransferError PendingTransferManifest :=
  let! _ := expect_header PENDING_SNAPSHOT_TRANSFER_MANIFEST_MAGIC
              PENDING_SNAPSHOT_TRANSFER_MANIFEST_VERSION
              Pending_InvalidMagic Pending_UnsupportedVersion in
  let! leader_id := read_u64 in
  let! transfer_id := read_u64 in
  let! total_payload_len := read_u64 in
  let! application_payload_crc32 := read_u32 in
  let! received_payload_len := read_u64 in
  let! body_checksum := read_u32 in
  let! metadata := read_metadata_envelope in
  dec_ret {| ptm_leader_id := leader_id; ptm_transfer_id := transfer_id; ptm_metadata := metadata;
             ptm_total_payload_len := total_payload_len;
             ptm_application_payload_crc32 := application_payload_crc32;
             ptm_received_payload_len := received_payload_len; ptm_body_checksum := body_checksum |}.

Definition decode_pending_snapshot_transfer_manifest (envelope : list u8)
  : result PendingTransferManifest DecodePendingSnapshotTransferError :=
  let? manifest := decode_checked read_pending_manifest envelope in
  if ptm_total_payload_len manifest <? ptm_received_payload_len manifest
  then Err (Pending_ReceivedPayloadTooLong (ptm_received_payload_len manifest)
              (ptm_total_payload_len manifest))
  else
    let expected_transfer_id :=
      transfer_id (RaftSnapshot_new (ptm_metadata manifest) (ptm_total_payload_len manifest)
                     (ptm_application_payload_crc32 manifest)) in
    if negb (ptm_transfer_id manifest =? expected_transfer_id)
    then Err (Pending_TransferIdMismatch expected_transfer_id (ptm_transfer_id manifest))
    else Ok manifest.

(** ** What the artifacts look like *)

#[local] Arguments be_bytes : simpl never.

Definition put_string (value : list N) : list u8 := be_bytes 2 (str_len value) ++ (as_u8 <$> str_bytes value).
Definition put_node_set (nodes : list NodeId) : list u8 :=
  be_bytes 2 (length_u64 nodes) ++ (nodes ≫= be_bytes 8).
Definition put_members (m : MembershipSet) : list u8 := put_node_set (voters m) ++ put_node_set (learners m).
Definition put_config (c : MembershipConfig) : list u8 :=
  match c with
  | Stable m => [x00] ++ put_members m
  | Joint j => [x01] ++ put_members (old j) ++ put_members (new_membership j)
  end.
Definition put_scc (c : SnapshotCommittedConfiguration) : list u8 :=
  put_flagged put_committed 0 (scc_configuration c) ++ put_config (scc_membership c).
Definition put_metadata (m : RaftSnapshotMetadata) : list u8 :=
  put_string (group_id_str (group_id m)) ++ be_bytes 8 (writer_id m) ++ be_bytes 8 (last_included_index m) ++
  be_bytes 8 (last_included_term m) ++ be_bytes 8 (hard_state_term m) ++
  put_string (application_kind_str (app_kind (application m))) ++
  be_bytes 2 (application_version (app_version (application m))) ++
  put_flagged put_scc 0 (metadata_committed_configuration m).
Definition put_header (m : RaftSnapshotMetadata) (payload_len : u64) : list u8 :=
  RAFT_SNAPSHOT_MAGIC ++ [RAFT_SNAPSHOT_VERSION] ++ put_metadata m ++ be_bytes 8 payload_len.

(** The file of a snapshot. *)
Definition snapshot_bytes (m : RaftSnapshotMetadata) (payload : list u8) : list u8 :=
  finish_checksummed (put_header m (length_u64 payload) ++ payload ++ be_bytes 4 (crc32 payload)).

(** Member counts that fit their prefixes. *)
Definition members_sized (m : MembershipSet) : Prop :=
  length_u64 (voters m) <= u16_max /\ length_u64 (learners m) <= u16_max.
Definition config_sized (c : MembershipConfig) : Prop :=
  match c with
  | Stable m => members_sized m
  | Joint j => members_sized (old j) /\ members_sized (new_membership j)
  end.
Definition metadata_sized (m : RaftSnapshotMetadata) : Prop :=
  option_valid (fun c => config_sized (scc_membership c)) (metadata_committed_configuration m).

(** What every metadata of the kernel is, and what the encoder takes. *)
Definition storable (m : RaftSnapshotMetadata) : Prop := metadata_valid m /\ metadata_sized m.

(** ** Metadata: the grammar *)

Section checked.
Context {E : Type} `{!ReaderError E} {A B F : Type}.

Lemma new_Grammar (new : A -> result B F) (d : rdec E A) error (get : B -> A) v p (ok : B -> Prop) :
  Grammar d (puts v p) -> (forall a b, new a = Ok b <-> a = get b /\ ok b) ->
  Grammar (read_new new d error) (puts (fun b => v (get b) /\ ok b) (fun b => p (get b))).
Proof.
  intros Hd Hnew. eapply Grammar_iff; [unfold read_new; typeclasses eauto|]. intros b bs.
  unfold bind_grammar, lift_grammar, puts. setoid_rewrite map_err_Ok. setoid_rewrite Hnew. split.
  - intros (a & bs1 & ? & -> & [Hv ->] & [-> Hok] & ->). by rewrite app_nil_r.
  - intros [[Hv Hok] ->]. exists (get b), (p (get b)), []. by rewrite app_nil_r.
Qed.
End checked.

Definition id_fits (field : SnapshotIdField) (value : list N) : Prop :=
  (Forall scalar value /\ str_len value <= u16_max) /\ id_valid field value.

Lemma id_fits_iff field value : id_fits field value <-> id_valid field value.
Proof.
  unfold id_fits. split; [by intros [_ ?]|]. intros H. split; [|done]. split; [by eapply id_valid_scalar|].
  unfold id_valid, validate_snapshot_id in H. case_match; [done|]. case_match eqn:E; [done|]. apply N.ltb_ge in E.
  unfold u16_max. lia.
Qed.

#[export] Instance decode_string_Grammar field :
  Grammar (decode_string field) (puts (fun s => Forall scalar s /\ str_len s <= u16_max) put_string).
Proof. eapply Grammar_iff; [apply str_Grammar|]. intros s bs. unfold puts, put_string, u16_max. naive_solver. Qed.

#[export] Instance group_id_Grammar :
  Grammar (read_new SnapshotGroupId_new (decode_string "snapshot group id") Snapshot_InvalidGroupId)
    (puts (fun g => id_fits FieldGroupId (group_id_str g)) (fun g => put_string (group_id_str g))).
Proof.
  apply (new_Grammar _ _ _ group_id_str (fun s => Forall scalar s /\ str_len s <= u16_max) put_string (fun g => id_valid FieldGroupId (group_id_str g))); [typeclasses eauto|].
  unfold SnapshotGroupId_new, id_valid. intros a [b]. simpl.
  destruct (validate_snapshot_id FieldGroupId a) as [[]|] eqn:He; simpl; split; [by intros [= ->]|by intros [-> _]|done|].
  intros [-> H]. congruence.
Qed.

#[export] Instance application_kind_Grammar :
  Grammar (read_new ApplicationSnapshotKind_new (decode_string "application snapshot kind") Snapshot_InvalidApplicationKind)
    (puts (fun k => id_fits FieldApplicationKind (application_kind_str k)) (fun k => put_string (application_kind_str k))).
Proof.
  apply (new_Grammar _ _ _ application_kind_str (fun s => Forall scalar s /\ str_len s <= u16_max) put_string (fun k => id_valid FieldApplicationKind (application_kind_str k)));
    [typeclasses eauto|].
  unfold ApplicationSnapshotKind_new, id_valid. intros a [b]. simpl.
  destruct (validate_snapshot_id FieldApplicationKind a) as [[]|] eqn:He; simpl; split; [by intros [= ->]|by intros [-> _]|done|].
  intros [-> H]. congruence.
Qed.

#[export] Instance application_version_Grammar :
  Grammar (read_new ApplicationSnapshotVersion_new read_u16 Snapshot_InvalidApplicationVersion)
    (puts version_valid (fun v => be_bytes 2 (application_version v))).
Proof.
  apply (new_Grammar _ _ _ application_version fits16 (be_bytes 2) (fun v => application_version v <> 0)); [typeclasses eauto|].
  unfold ApplicationSnapshotVersion_new. intros a [b]. simpl. destruct (N.eqb_spec a 0); split; try done.
  - by intros [-> ?].
  - intros [= ->]. done.
  - by intros [-> _].
Qed.

#[export] Instance node_set_Grammar kind : Grammar (decode_node_set kind) (puts (nodes_fit u16_max) put_node_set).
Proof.
  apply counted_nodes_Grammar. eapply Grammar_iff; [apply u16_puts|]. intros n bs. unfold puts, fits16, u16_max.
  split; intros [? ->]; (split; [lia|done]).
Qed.

#[export] Instance members_Grammar :
  Grammar decode_membership_set (puts (fun m => set_valid m /\ members_sized m) put_members).
Proof. apply checked_set_Grammar; apply node_set_Grammar. Qed.

#[export] Instance config_Grammar :
  Grammar decode_membership_config (puts (fun c => config_valid c /\ config_sized c) put_config).
Proof.
  eapply Grammar_iff.
  { unfold decode_membership_config. eapply (bind_Grammar _ _ _ (fun flag c bs =>
      put_config c = flag :: bs /\ config_valid c /\ config_sized c)); [typeclasses eauto|]. intros flag.
    destruct flag; try by (eapply Grammar_iff; [apply fail_Grammar|]; intros [] bs; simpl; naive_solver).
    - eapply Grammar_iff; [typeclasses eauto|]. intros c bs. unfold bind_grammar, ret_grammar, puts. split.
      + intros (m & ? & ? & -> & [[Hm Hs] ->] & -> & ->). simpl. by rewrite app_nil_r.
      + destruct c as [m|]; simpl; [|intros [? _]; congruence]. intros ([= <-] & Hm & Hs).
        exists m, (put_members m), []. by rewrite app_nil_r.
    - eapply Grammar_iff; [typeclasses eauto|]. intros c bs. unfold bind_grammar, ret_grammar, puts. split.
      + intros (o & ? & ? & -> & [[Ho Hos] ->] & m & ? & ? & -> & [[Hm Hms] ->] & -> & ->). simpl. by rewrite app_nil_r.
      + destruct c as [|[o m]]; simpl; [intros [? _]; congruence|]. intros ([= <-] & [Ho Hm] & Hos & Hms).
        exists o, (put_members o), (put_members m). split_and!; [done..|]. exists m, (put_members m), []. by rewrite app_nil_r. }
  intros c bs. unfold bind_grammar, puts. split.
  - intros (flag & ? & ? & -> & -> & Hc & ?). by rewrite Hc.
  - intros [Hv ->]. destruct c; simpl; (eexists _, [_], _; split; [reflexivity|]; split; [reflexivity|done]).
Qed.

#[export] Instance configuration_Grammar :
  Grammar decode_configuration (puts (option_valid identity_valid) (put_flagged put_committed 0)).
Proof.
  eapply Grammar_iff; [unfold decode_configuration; eapply (flag_Grammar _ identity_valid put_committed 0 Snapshot_UnknownMembershipFlag)|].
  - eapply Grammar_iff; [typeclasses eauto|]. done.
  - eapply Grammar_iff; [typeclasses eauto|]. intros o bs. unfold bind_grammar, ret_grammar, puts, put_committed, identity_valid. split.
    + intros (i & ? & ? & -> & [Hi ->] & c & ? & ? & -> & [Hc ->] & -> & ->). rewrite app_nil_r. eauto.
    + intros ([i c] & -> & [Hi Hc] & ->). eexists i, _, _. split_and!; [done..|]. eexists c, _, []. by rewrite app_nil_r.
  - intros []; done.
  - done.
Qed.

Definition scc_storable (c : SnapshotCommittedConfiguration) : Prop :=
  scc_valid c /\ config_sized (scc_membership c).

#[export] Instance committed_Grammar :
  Grammar decode_optional_committed_configuration (puts (option_valid scc_storable) (put_flagged put_scc 0)).
Proof.
  eapply Grammar_iff; [unfold decode_optional_committed_configuration;
    eapply (flag_Grammar _ scc_storable put_scc 0 Snapshot_UnknownMembershipFlag)|].
  - eapply Grammar_iff; [typeclasses eauto|]. done.
  - eapply Grammar_iff; [typeclasses eauto|]. intros o bs. unfold bind_grammar, ret_grammar, puts, put_scc, scc_storable, scc_valid. split.
    + intros (i & ? & ? & -> & [Hi ->] & c & ? & ? & -> & [Hc ->] & -> & ->). rewrite app_nil_r. eexists. split; [done|]. simpl. naive_solver.
    + intros ([i c] & -> & [[Hi Hc] Hs] & ->). eexists i, _, _. split_and!; [done..|]. eexists c, _, []. by rewrite app_nil_r.
  - intros []; done.
  - done.
Qed.

(** The constructor, and the committed configuration it is given afterwards. *)
Lemma metadata_new_Ok gid writer index term hard_term kind version committed m :
  (exists m0, RaftSnapshotMetadata_new gid writer index term hard_term {| app_kind := kind; app_version := version |} = Ok m0 /\
     m = match committed with Some c => with_committed_configuration m0 c | None => m0 end) <->
  (((((((True /\ group_id m = gid) /\ writer_id m = writer) /\ last_included_index m = index) /\ last_included_term m = term) /\
      hard_state_term m = hard_term) /\ app_kind (application m) = kind) /\ app_version (application m) = version) /\
  metadata_committed_configuration m = committed /\ boundary_valid m.
Proof.
  unfold boundary_valid, RaftSnapshotMetadata_new, Term_is_zero.
  destruct (N.eqb_spec index 0); [naive_solver|]. destruct (N.eqb_spec index u64_max); [naive_solver|].
  destruct (N.eqb_spec term 0); [naive_solver|]. destruct (N.ltb_spec hard_term term).
  - split; [naive_solver|]. intros H'. destruct_and!. subst. lia.
  - split.
    + intros (m0 & [= <-] & ->). destruct committed; simpl; by split_and!.
    + intros H'. destruct_and!. subst. eexists. split; [done|]. destruct m as [g w li lt hs [] [|]]; done.
Qed.

#[export] Instance metadata_Grammar : Grammar decode_snapshot_metadata (puts storable put_metadata).
Proof.
  unfold decode_snapshot_metadata. eapply (puts_iff _ (fun _ => True)); [|done|..].
  - eapply (puts_field _ group_id); [apply group_id_Grammar|intros g].
    put_field writer_id. put_field last_included_index. put_field last_included_term. put_field hard_state_term.
    eapply (puts_field _ (fun m => app_kind (application m))); [apply application_kind_Grammar|intros kind].
    eapply (puts_field _ (fun m => app_version (application m))); [apply application_version_Grammar|intros version].
    eapply (Grammar_iff _ _ (fun m bs => _ /\
      puts (fun m => option_valid scc_storable (metadata_committed_configuration m) /\ boundary_valid m)
        (fun m => put_flagged put_scc 0 (metadata_committed_configuration m)) m bs)); [typeclasses eauto|].
    intros m bs. unfold bind_grammar, lift_grammar, ret_grammar, puts. setoid_rewrite map_err_Ok. split.
    + intros (c & ? & ? & -> & [Hc ->] & m0 & ? & ? & -> & [Hm ->] & Hmm & ->). rewrite app_nil_r.
      destruct (proj1 (metadata_new_Ok g a a0 a1 a2 kind version c m)) as (HC & Hcc & Hb); [by exists m0|]. by rewrite Hcc.
    + intros (HC & [Hc Hb] & ->).
      destruct (proj2 (metadata_new_Ok g a a0 a1 a2 kind version (metadata_committed_configuration m) m)) as (m0 & Hm & Hm0); [done|].
      eexists _, _, []. rewrite app_nil_r. split_and!; [done|done|done|]. by eexists m0, [], [].
  - intros m. unfold storable, metadata_valid, metadata_sized, option_valid, scc_storable. rewrite !id_fits_iff.
    destruct (metadata_committed_configuration m); naive_solver.
  - done.
Qed.

(** ** Metadata: what the encoder writes *)

Lemma encode_node_set_Ok kind nodes bs :
  encode_node_set kind nodes = Ok bs <-> length_u64 nodes <= u16_max /\ bs = put_node_set nodes.
Proof. unfold encode_node_set. destruct (N.leb_spec (length_u64 nodes) u16_max); split; [naive_solver..|lia]. Qed.

Lemma encode_membership_set_Ok m bs :
  encode_membership_set m = Ok bs <-> members_sized m /\ bs = put_members m.
Proof.
  unfold encode_membership_set, members_sized, put_members.
  destruct (encode_node_set "voters" (voters m)) as [v|] eqn:Hv; simpl.
  - apply encode_node_set_Ok in Hv as [Hv ->].
    destruct (encode_node_set "learners" (learners m)) as [l|] eqn:Hl; simpl.
    + apply encode_node_set_Ok in Hl as [Hl ->]. naive_solver.
    + split; [done|]. intros [[_ Hs] ->]. rewrite (proj2 (encode_node_set_Ok _ _ _)) in Hl by done. done.
  - split; [done|]. intros [[Hs _] ->]. rewrite (proj2 (encode_node_set_Ok _ _ _)) in Hv by done. done.
Qed.

Lemma encode_membership_config_Ok c bs :
  encode_membership_config c = Ok bs <-> config_sized c /\ bs = put_config c.
Proof.
  destruct c as [m|[o n]]; simpl.
  - destruct (encode_membership_set m) as [b|] eqn:Hm; simpl.
    + apply encode_membership_set_Ok in Hm as [Hm ->]. naive_solver.
    + split; [done|]. intros [Hs ->]. rewrite (proj2 (encode_membership_set_Ok _ _)) in Hm by done. done.
  - destruct (encode_membership_set o) as [b|] eqn:Ho; simpl.
    + apply encode_membership_set_Ok in Ho as [Ho ->]. destruct (encode_membership_set n) as [b|] eqn:Hn; simpl.
      * apply encode_membership_set_Ok in Hn as [Hn ->]. naive_solver.
      * split; [done|]. intros [[_ Hs] ->]. rewrite (proj2 (encode_membership_set_Ok _ _)) in Hn by done. done.
    + split; [done|]. intros [[Hs _] ->]. rewrite (proj2 (encode_membership_set_Ok _ _)) in Ho by done. done.
Qed.

Lemma encode_committed_Ok c bs :
  encode_optional_committed_configuration c = Ok bs <->
  option_valid (fun c => config_sized (scc_membership c)) c /\ bs = put_flagged put_scc 0 c.
Proof.
  destruct c as [[i m]|]; simpl; [|naive_solver]. unfold put_scc. simpl.
  destruct (encode_membership_config m) as [b|] eqn:Hm; simpl.
  - apply encode_membership_config_Ok in Hm as [Hm ->]. destruct i; simpl; naive_solver.
  - split; [done|]. intros [Hs ->]. rewrite (proj2 (encode_membership_config_Ok _ _)) in Hm by done. done.
Qed.

Lemma encode_string_valid field f value : id_valid f value -> encode_string field value = Ok (put_string value).
Proof.
  intros [[_ Hl] _]%id_fits_iff. unfold encode_string. apply N.leb_le in Hl. by rewrite Hl.
Qed.

Lemma encode_snapshot_metadata_Ok m bs :
  metadata_valid m -> encode_snapshot_metadata m = Ok bs <-> metadata_sized m /\ bs = put_metadata m.
Proof.
  intros (Hg & _ & _ & _ & _ & Hk & _). unfold encode_snapshot_metadata, metadata_sized, put_metadata.
  rewrite (encode_string_valid _ _ _ Hg), (encode_string_valid _ _ _ Hk).
  destruct (encode_optional_committed_configuration _) as [c|] eqn:Hc.
  - apply encode_committed_Ok in Hc as [Hc ->]. naive_solver.
  - split; [done|]. intros [Hs ->]. rewrite (proj2 (encode_committed_Ok _ _)) in Hc by done. done.
Qed.

Lemma encode_header_Ok m len bs :
  metadata_valid m -> encode_raft_snapshot_header m len = Ok bs <-> metadata_sized m /\ bs = put_header m len.
Proof.
  intros Hm. unfold encode_raft_snapshot_header, put_header. destruct (encode_snapshot_metadata m) as [b|] eqn:He.
  - apply encode_snapshot_metadata_Ok in He as [Hs ->]; [|done]. naive_solver.
  - split; [done|]. intros [Hs ->]. rewrite (proj2 (encode_snapshot_metadata_Ok _ _ Hm)) in He by done. done.
Qed.

(** ** Headers *)

Definition header_storable (h : RaftSnapshotMetadata * u64) : Prop := storable h.1 /\ fits64 h.2.

#[export] Instance header_fields_Grammar :
  Grammar read_snapshot_header (puts header_storable (fun h => put_header h.1 h.2)).
Proof.
  unfold read_snapshot_header. apply headed_Grammar; [done|].
  eapply Grammar_iff; [typeclasses eauto|]. intros [m len] bs. unfold bind_grammar, ret_grammar, puts, header_storable. split.
  - intros (m' & ? & ? & -> & [Hm ->] & len' & ? & ? & -> & [Hl ->] & [= -> ->] & ->). by rewrite app_nil_r.
  - intros [[Hm Hl] ->]. eexists m, _, _. split_and!; [done..|]. eexists len, _, []. by rewrite app_nil_r.
Qed.

Lemma decode_header_Ok prefix h :
  decode_raft_snapshot_header prefix = Ok h <->
  storable (header_metadata h) /\ fits64 (header_payload_len h) /\
  header_len h = length_u64 (put_header (header_metadata h) (header_payload_len h)) /\
  exists rest, prefix = put_header (header_metadata h) (header_payload_len h) ++ rest.
Proof.
  unfold decode_raft_snapshot_header. change (Reader_new prefix) with (reader_at [] prefix). split.
  - destruct (read_snapshot_header _) as [[[m len] r]|] eqn:Hr; [|done]. intros [= <-].
    apply grammar_sound in Hr as (bs & post & -> & -> & [[Hm Hl] ->]). simpl in *. split_and!; [done|done|done|by eexists].
  - intros (Hm & Hl & Hh & rest & ->). destruct h as [m len hl]. simpl in *.
    assert (puts header_storable (fun h => put_header h.1 h.2) (m, len) (put_header m len)) as Hp by done.
    rewrite (grammar_reads _ _ Hp [] rest). simpl. by rewrite Hh.
Qed.

Lemma length_bind_be ids : length_u64 (mbind (M := list) (be_bytes 8) ids) = 8 * length_u64 ids.
Proof.
  induction ids as [|id ids IH]; [done|]. rewrite bind_cons, length_u64_app, length_u64_be_bytes, IH.
  unfold length_u64. simpl length. lia.
Qed.

Lemma length_put_members m : members_sized m -> length_u64 (put_members m) <= 1048564.
Proof.
  intros [Hv Hl]. unfold put_members, put_node_set. rewrite !length_u64_app, !length_u64_be_bytes, !length_bind_be.
  unfold u16_max in *. lia.
Qed.

Lemma length_put_id f value : id_valid f value -> length_u64 (put_string value) <= 130.
Proof.
  intros Hid. unfold put_string. rewrite length_u64_app, length_u64_be_bytes, <- str_len_bytes.
  unfold id_valid, validate_snapshot_id in Hid. case_match; [done|]. case_match eqn:E; [done|]. apply N.ltb_ge in E. lia.
Qed.

Lemma length_put_committed c :
  option_valid (fun c => config_sized (scc_membership c)) c -> length_u64 (put_flagged put_scc 0 c) <= 2097147.
Proof.
  intros Hs. destruct c as [[i c]|]; [|done]. unfold put_flagged at 1, put_scc. cbn [scc_configuration scc_membership].
  rewrite !length_u64_app. change (length_u64 [x01]) with 1.
  assert (length_u64 (put_flagged put_committed 0 i) <= 17).
  { destruct i; [|done]. unfold put_flagged, put_committed. by rewrite !length_u64_app, !length_u64_be_bytes. }
  assert (length_u64 (put_config c) <= 2097129); [|lia]. destruct c as [s|[o n]]; unfold put_config; simpl in Hs.
  - apply length_put_members in Hs. rewrite length_u64_app. change (length_u64 [x00]) with 1. lia.
  - destruct Hs as [Ho%length_put_members Hn%length_put_members]. rewrite !length_u64_app. change (length_u64 [x01]) with 1.
    simpl. lia.
Qed.

(** The largest header fits the prefix that opening reads. *)
Lemma length_put_header m len : storable m -> length_u64 (put_header m len) <= 2097536.
Proof.
  intros [(Hg%length_put_id & _ & _ & _ & _ & Hk%length_put_id & _) Hs%length_put_committed]. unfold put_header, put_metadata.
  rewrite !length_u64_app, !length_u64_be_bytes. change (length_u64 RAFT_SNAPSHOT_MAGIC) with 4.
  change (length_u64 [RAFT_SNAPSHOT_VERSION]) with 1. lia.
Qed.

(** ** Snapshot envelopes *)

Lemma read_take_app {E} `{!ReaderError E} pre (bs post : list u8) :
  read_take (E := E) (length_u64 bs) (reader_at pre (bs ++ post)) = Ok (bs, reader_at (pre ++ bs) post).
Proof. by apply (grammar_reads (d := read_take (length_u64 bs)) bs bs). Qed.

Lemma read_snapshot_payload_Ok len pre rest payload r :
  read_snapshot_payload len (reader_at pre rest) = Ok (payload, r) <->
  len = length_u64 payload /\ exists post, rest = payload ++ be_bytes 4 (crc32 payload) ++ post /\
    r = reader_at (pre ++ payload ++ be_bytes 4 (crc32 payload)) post.
Proof.
  assert (Grammar (read_snapshot_payload len) (fun payload bs =>
    len = length_u64 payload /\ bs = payload ++ be_bytes 4 (crc32 payload))) as Hg.
  { eapply Grammar_iff.
    { unfold read_snapshot_payload. eapply bind_Grammar; [typeclasses eauto|]. intros p.
      eapply (bind_Grammar _ _ _ (fun crc p' bs => crc = crc32 p /\ p' = p /\ bs = [])); [typeclasses eauto|]. intros crc.
      destruct (N.eqb_spec crc (crc32 p)); (eapply Grammar_iff; [typeclasses eauto|]); intros p' bs; unfold ret_grammar; naive_solver. }
    intros p bs. unfold bind_grammar, puts. split.
    - intros (p' & ? & ? & -> & [-> Hl] & crc & ? & ? & -> & [_ ->] & -> & -> & ->). by rewrite app_nil_r.
    - intros [-> ->]. eexists p, p, _. split_and!; [done..|]. eexists (crc32 p), _, []. rewrite app_nil_r.
      split_and!; try done. apply crc32_small. }
  split.
  - intros (bs & post & -> & -> & -> & ->)%grammar_sound. split; [done|]. exists post. by rewrite <- app_assoc.
  - intros (-> & post & -> & ->). rewrite app_assoc. by apply (grammar_reads payload).
Qed.

Lemma decode_raft_snapshot_Ok bs s :
  decode_raft_snapshot bs = Ok s <->
  storable (prs_metadata s) /\ fits64 (length_u64 (prs_application_payload s)) /\
  bs = snapshot_bytes (prs_metadata s) (prs_application_payload s).
Proof.
  unfold decode_raft_snapshot, snapshot_bytes. destruct s as [m payload]. cbn [prs_metadata prs_application_payload]. split.
  - destruct (verify_checksum bs) as [body|] eqn:Hb; [|done]. apply verify_checksum_Ok in Hb as ->. cbn [map_err].
    destruct (decode_raft_snapshot_header body) as [[m' len hl]|] eqn:Hh; [|done].
    apply decode_header_Ok in Hh. cbn [header_metadata header_payload_len header_len] in *. destruct Hh as (Hm & Hl & -> & rest & ->).
    set (header := put_header m' len) in *. change (Reader_new (header ++ rest)) with (reader_at [] (header ++ rest)).
    rewrite read_take_app. case_match; [done|].
    destruct (read_snapshot_payload len _) as [[p r]|] eqn:Hp; [|done].
    apply read_snapshot_payload_Ok in Hp as (-> & post & -> & ->). rewrite finish_reader_at.
    destruct post; [|done]. intros [= <- <-]. by rewrite app_nil_r.
  - intros (Hm & Hl & ->). rewrite (proj2 (verify_checksum_Ok _ _)) by reflexivity. cbn [map_err].
    set (header := put_header m (length_u64 payload)). set (rest := payload ++ be_bytes 4 (crc32 payload)).
    rewrite (proj2 (decode_header_Ok (header ++ rest)
      {| header_metadata := m; header_payload_len := length_u64 payload; header_len := length_u64 header |}))
      by (split_and!; [done|done|done|by exists rest]).
    cbn [header_metadata header_payload_len header_len]. change (Reader_new (header ++ rest)) with (reader_at [] (header ++ rest)).
    rewrite read_take_app. rewrite length_u64_app. destruct (N.ltb_spec (length_u64 header + length_u64 rest - length_u64 header) (length_u64 payload)).
    { unfold rest in *. rewrite length_u64_app in *. lia. }
    rewrite (proj2 (read_snapshot_payload_Ok _ _ rest payload (reader_at (([] ++ header) ++ rest) [])))
      by (split; [done|]; exists []; by rewrite app_nil_r).
    by rewrite finish_reader_at.
Qed.

Lemma encode_raft_snapshot_Ok s bs :
  metadata_valid (prs_metadata s) -> encode_raft_snapshot s = Ok bs <->
  metadata_sized (prs_metadata s) /\ bs = snapshot_bytes (prs_metadata s) (prs_application_payload s).
Proof.
  intros Hm. unfold encode_raft_snapshot, snapshot_bytes. destruct (encode_raft_snapshot_header _ _) as [h|] eqn:He.
  - apply encode_header_Ok in He as [Hs ->]; [|done]. naive_solver.
  - split; [done|]. intros [Hs ->]. rewrite (proj2 (encode_header_Ok _ _ _ Hm)) in He by done. done.
Qed.

Lemma encode_metadata_envelope_Ok m bs :
  metadata_valid m -> encode_raft_snapshot_metadata_envelope m = Ok bs <-> metadata_sized m /\ bs = snapshot_bytes m [].
Proof. intros Hm. apply (encode_raft_snapshot_Ok {| prs_metadata := m; prs_application_payload := [] |} bs Hm). Qed.

(** ** The current-snapshot manifest *)

Definition file_name_valid (name : string) : Prop :=
  length_u64 (list_byte_of_string name) <= u16_max /\ is_Some (from_utf8 (list_byte_of_string name)) /\
  validate_manifest_file_name name = Ok tt.

Definition put_file_name (name : string) : list u8 :=
  be_bytes 2 (length_u64 (list_byte_of_string name)) ++ list_byte_of_string name.

#[export] Instance file_name_Grammar : Grammar read_file_name (puts file_name_valid put_file_name).
Proof.
  eapply Grammar_iff.
  { unfold read_file_name. eapply bind_Grammar; [typeclasses eauto|]. intros len.
    eapply (bind_Grammar _ _ _ (fun bytes name bs => name = string_of_list_byte bytes /\ is_Some (from_utf8 bytes) /\
      validate_manifest_file_name name = Ok tt /\ bs = [])); [typeclasses eauto|]. intros bytes.
    destruct (from_utf8 bytes) as [s|].
    - eapply Grammar_iff; [typeclasses eauto|]. intros name bs. unfold bind_grammar, lift_grammar, ret_grammar. split.
      + intros ([] & ? & ? & -> & [Hv ->] & -> & ->). by eauto.
      + intros (-> & _ & Hv & ->). by eexists tt, [], [].
    - eapply Grammar_iff; [typeclasses eauto|]. intros name bs. split; [done|]. by intros (_ & [? [=]] & _). }
  intros name bs. unfold bind_grammar, puts, put_file_name, file_name_valid, fits16, u16_max. split.
  - intros (len & ? & ? & -> & [Hl ->] & bytes & ? & ? & -> & [-> Hb] & -> & Hu & Hv & ->).
    rewrite list_byte_of_string_of_list_byte, app_nil_r, Hb. split; [|done]. split_and!; [lia|done|done].
  - intros [(Hl & Hu & Hv) ->]. eexists (length_u64 (list_byte_of_string name)), _, _. split_and!; [done|lia|done|].
    eexists _, (list_byte_of_string name), []. rewrite app_nil_r. split_and!; try done.
    by rewrite string_of_list_byte_of_string.
Qed.

Definition manifest_valid (m : SnapshotManifest) : Prop :=
  fits64 (manifest_sequence m) /\ file_name_valid (manifest_file_name m).

Lemma encode_manifest_Ok m bs :
  encode_manifest m = Ok bs <-> length_u64 (list_byte_of_string (manifest_file_name m)) <= u16_max /\
  bs = finish_checksummed (SNAPSHOT_MANIFEST_MAGIC ++ [SNAPSHOT_MANIFEST_VERSION] ++
         be_bytes 8 (manifest_sequence m) ++ put_file_name (manifest_file_name m)).
Proof. unfold encode_manifest. case_match eqn:E; [apply N.leb_le in E|apply N.leb_gt in E]; split; [naive_solver..|lia]. Qed.

Lemma decode_manifest_Ok bs m : decode_manifest bs = Ok m <-> manifest_valid m /\ encode_manifest m = Ok bs.
Proof.
  unfold decode_manifest. rewrite (decode_checked_Ok _ (puts manifest_valid (fun m =>
    SNAPSHOT_MANIFEST_MAGIC ++ [SNAPSHOT_MANIFEST_VERSION] ++ be_bytes 8 (manifest_sequence m) ++
    put_file_name (manifest_file_name m)))).
  - unfold puts. rewrite encode_manifest_Ok. unfold manifest_valid, file_name_valid. naive_solver.
  - apply headed_Grammar; [done|]. eapply (puts_iff _ (fun _ => True)); [|done|..].
    + put_field manifest_sequence. put_last manifest_file_name.
    + done.
    + done.
Qed.

(** ** The manifest of a pending transfer *)

Definition put_nested (m : RaftSnapshotMetadata) : list u8 :=
  be_bytes 8 (length_u64 (snapshot_bytes m [])) ++ snapshot_bytes m [].

Lemma length_snapshot_bytes m payload :
  length_u64 (snapshot_bytes m payload) = length_u64 (put_header m (length_u64 payload)) + length_u64 payload + 8.
Proof. unfold snapshot_bytes, finish_checksummed. rewrite !length_u64_app, !length_u64_be_bytes. lia. Qed.

#[export] Instance nested_Grammar : Grammar read_metadata_envelope (puts storable put_nested).
Proof.
  eapply Grammar_iff.
  { unfold read_metadata_envelope. eapply (bind_Grammar _ _ _ (fun len m bs =>
      len = length_u64 (snapshot_bytes m []) /\ storable m /\ bs = snapshot_bytes m [])); [typeclasses eauto|]. intros len.
    destruct (N.ltb_spec MAX_PENDING_SNAPSHOT_METADATA_ENVELOPE_BYTES len) as [Hlt|Hle].
    - eapply Grammar_iff; [typeclasses eauto|]. intros m bs. split; [done|]. intros (-> & Hm & _).
      rewrite length_snapshot_bytes in Hlt. pose proof (length_put_header m (length_u64 (@nil u8)) Hm).
      change (length_u64 (@nil u8)) with 0 in *. unfold MAX_PENDING_SNAPSHOT_METADATA_ENVELOPE_BYTES in Hlt. lia.
    - eapply Grammar_iff.
      { eapply bind_Grammar; [typeclasses eauto|]. intros envelope.
        eapply (bind_Grammar _ _ _ (fun s m bs => prs_application_payload s = [] /\ m = prs_metadata s /\ bs = [])); [typeclasses eauto|].
        intros [m [|b payload]]; (eapply Grammar_iff; [typeclasses eauto|]); intros m' bs; unfold ret_grammar; simpl; naive_solver. }
      intros m bs. unfold bind_grammar, lift_grammar. setoid_rewrite map_err_Ok. setoid_rewrite decode_raft_snapshot_Ok. split.
      + intros (envelope & ? & ? & -> & [-> Hl] & [m' payload] & ? & ? & -> & [(Hm & Hf & ->) ->] & Hp & -> & ->).
        simpl in *. subst payload. by rewrite !app_nil_r.
      + intros (-> & Hm & ->). eexists _, (snapshot_bytes m []), []. rewrite app_nil_r. split_and!; [done..|].
        by eexists {| prs_metadata := m; prs_application_payload := [] |}, [], []. }
  intros m bs. unfold bind_grammar, puts, put_nested. split.
  - intros (len & ? & ? & -> & [_ ->] & -> & Hm & ->). done.
  - intros [Hm ->]. eexists _, _, _. split_and!; [done| |done|done|done|done].
    rewrite length_snapshot_bytes. pose proof (length_put_header m (length_u64 (@nil u8)) Hm).
    change (length_u64 (@nil u8)) with 0 in *. unfold fits64. lia.
Qed.

Definition put_pending (m : PendingTransferManifest) : list u8 :=
  be_bytes 8 (ptm_leader_id m) ++ be_bytes 8 (ptm_transfer_id m) ++ be_bytes 8 (ptm_total_payload_len m) ++
  be_bytes 4 (ptm_application_payload_crc32 m) ++ be_bytes 8 (ptm_received_payload_len m) ++
  be_bytes 4 (ptm_body_checksum m) ++ put_nested (ptm_metadata m).

Definition pending_bytes (m : PendingTransferManifest) : list u8 :=
  finish_checksummed (PENDING_SNAPSHOT_TRANSFER_MANIFEST_MAGIC ++ [PENDING_SNAPSHOT_TRANSFER_MANIFEST_VERSION] ++ put_pending m).

Definition pending_fields_fit (m : PendingTransferManifest) : Prop :=
  fits64 (ptm_leader_id m) /\ fits64 (ptm_transfer_id m) /\ fits64 (ptm_total_payload_len m) /\
  fits32 (ptm_application_payload_crc32 m) /\ fits64 (ptm_received_payload_len m) /\ fits32 (ptm_body_checksum m) /\
  storable (ptm_metadata m).

Definition ptm_descriptor (m : PendingTransferManifest) : RaftSnapshot :=
  RaftSnapshot_new (ptm_metadata m) (ptm_total_payload_len m) (ptm_application_payload_crc32 m).

Definition pending_valid (m : PendingTransferManifest) : Prop :=
  pending_fields_fit m /\ ptm_received_payload_len m <= ptm_total_payload_len m /\
  ptm_transfer_id m = transfer_id (ptm_descriptor m).

Lemma pending_fields_Grammar :
  Grammar read_pending_manifest (puts pending_fields_fit (fun m =>
    PENDING_SNAPSHOT_TRANSFER_MANIFEST_MAGIC ++ [PENDING_SNAPSHOT_TRANSFER_MANIFEST_VERSION] ++ put_pending m)).
Proof.
  apply headed_Grammar; [done|]. eapply (puts_iff _ (fun _ => True)); [|done|..].
  - put_field ptm_leader_id. put_field ptm_transfer_id. put_field ptm_total_payload_len.
    put_field ptm_application_payload_crc32. put_field ptm_received_payload_len. put_field ptm_body_checksum.
    put_last ptm_metadata.
  - done.
  - done.
Qed.

Lemma decode_pending_fields m :
  pending_fields_fit m -> decode_checked read_pending_manifest (pending_bytes m) = Ok m.
Proof. intros Hf. apply (decode_checked_Ok _ _ _ _ pending_fields_Grammar). eexists. by split; [reflexivity|]. Qed.

Lemma decode_pending_Ok bs m :
  decode_pending_snapshot_transfer_manifest bs = Ok m <-> pending_valid m /\ bs = pending_bytes m.
Proof.
  unfold decode_pending_snapshot_transfer_manifest. destruct (decode_checked _ bs) as [m'|] eqn:Hd.
  - apply (decode_checked_Ok _ _ _ _ pending_fields_Grammar) in Hd as (body & -> & Hf & ->). fold (pending_bytes m').
    assert (forall P, (if ptm_total_payload_len m' <? ptm_received_payload_len m' then Err P else
      if negb (ptm_transfer_id m' =? transfer_id (ptm_descriptor m')) then Err (Pending_TransferIdMismatch (transfer_id (ptm_descriptor m')) (ptm_transfer_id m'))
      else Ok m') = Ok m <-> m = m' /\ ptm_received_payload_len m' <= ptm_total_payload_len m' /\
        ptm_transfer_id m' = transfer_id (ptm_descriptor m')) as ->.
    { intros P. destruct (N.ltb_spec (ptm_total_payload_len m') (ptm_received_payload_len m')); [split; [done|lia]|].
      destruct (N.eqb_spec (ptm_transfer_id m') (transfer_id (ptm_descriptor m'))); naive_solver. }
    unfold pending_valid. split; [naive_solver|]. intros [(Hf' & Hr & Ht) He].
    pose proof (decode_pending_fields m Hf') as Hm. rewrite <- He, decode_pending_fields in Hm by done. by injection Hm as ->.
  - split; [done|]. intros [(Hf & _) ->]. by rewrite decode_pending_fields in Hd.
Qed.

Lemma encode_pending_Ok m bs :
  metadata_valid (ptm_metadata m) -> encode_pending_snapshot_transfer_manifest m = Ok bs <->
  metadata_sized (ptm_metadata m) /\ bs = pending_bytes m.
Proof.
  intros Hm. unfold encode_pending_snapshot_transfer_manifest, pending_bytes, put_pending, put_nested.
  destruct (encode_raft_snapshot_metadata_envelope _) as [b|] eqn:He.
  - apply encode_metadata_envelope_Ok in He as [Hs ->]; [|done]. naive_solver.
  - split; [done|]. intros [Hs ->]. rewrite (proj2 (encode_metadata_envelope_Ok _ _ Hm)) in He by done. done.
Qed.
