(* ===== verification/SnapshotFile.v ===== *)
(** * The file-backed snapshot store

    Models [crates/rafter-storage/src/raft_snapshot_store/]: the handle and its
    names ([state.rs]), opening with the streaming verification of the current
    envelope ([open.rs], [open/verify.rs], [manifest.rs]), publication
    ([publish.rs], [health.rs]), the trait's operations ([file.rs]), chunk
    serving ([source.rs]) and the staging of inbound transfers
    ([pending_transfer/]).

    The store's directory is [SnapshotDirectory].  An operation takes and gives
    back the world and the handle.  Loops over a payload have one round per
    chunk as fuel, the search for a free file name one round per name on the
    disk and one more. *)

From Stdlib Require Import Strings.Byte.
From Stdlib Require Import Strings.String.
From stdpp Require Import base strings list sorting numbers option pretty gmap.
From S2P Require Import Prelude.
From S2P Require Import Types.
From S2P Require Import Crc32.
From S2P Require Import Snapshot.
From S2P Require Import Wire.
From S2P Require Import Stores.
From S2P Require Import MemoryStores.
From S2P Require Import StorageFormat.
From S2P Require Import SnapshotFormat.
From S2P Require Import FileSystem.
From S2P Require Import LogFile.

(** ** Reading a part of a file *)

(** [take(len).read_to_end] from the start. *)
Definition read_prefix (path : StorePath) (len : u64) : io (list u8) :=
  let* data := read_to_end path in
  io_ret (take (N.to_nat len) data).

(** [read_exact] at [offset]; an empty buffer is filled without a call. *)
Definition read_exact (path : StorePath) (offset len : u64) : io (list u8) :=
  if len =? 0 then io_ret []
  else
    inspect (fun d =>
      match entry_now (entry d path) with
      | Some f =>
          if offset + len <=? length_u64 (file_data f)
          then Ok (take (N.to_nat len) (drop (N.to_nat offset) (file_data f)))
          else Err (unexpected_eof "failed to fill whole buffer")
      | None => Err not_found_error
      end).

(** ** The handle *)

Record CurrentSnapshot := {
  current_file_name : string;
  current_descriptor : RaftSnapshot;
  current_payload_offset : u64;
}.

Record StagedTransfer := {
  staged_pending : PendingSnapshotTransfer;
  staged_body_crc : RunningCrc32;
}.

Record FileRaftSnapshotStore := {
  fsn_current : option CurrentSnapshot;
  fsn_pending : option StagedTransfer;
  fsn_next_sequence : option u64;
  fsn_health : FileStoreHealth;
}.

Definition fsn_require_reopen (s : FileRaftSnapshotStore) : FileRaftSnapshotStore :=
  {| fsn_current := fsn_current s; fsn_pending := fsn_pending s;
     fsn_next_sequence := fsn_next_sequence s; fsn_health := ReopenRequired |}.

Definition fsn_with_pending (s : FileRaftSnapshotStore) (pending : option StagedTransfer)
  : FileRaftSnapshotStore :=
  {| fsn_current := fsn_current s; fsn_pending := pending;
     fsn_next_sequence := fsn_next_sequence s; fsn_health := fsn_health s |}.

Definition snapshot_path (file_name : string) : StorePath := (SnapshotDirectory, file_name).
Definition manifest_path : StorePath := snapshot_path "current.snapshot".
Definition pending_snapshot_transfer_path : StorePath := snapshot_path "pending.snapshot-transfer".
Definition pending_snapshot_transfer_body_path : StorePath :=
  snapshot_path "pending.snapshot-transfer.body".

Definition temp_snapshot_path (process : N) : StorePath :=
  snapshot_path (".snapshot-" +:+ pretty process +:+ ".tmp").
Definition temp_manifest_path (process : N) : StorePath :=
  snapshot_path (".current.snapshot-" +:+ pretty process +:+ ".tmp").
Definition temp_pending_snapshot_transfer_path (process : N) : StorePath :=
  snapshot_path (".pending.snapshot-transfer-" +:+ pretty process +:+ ".tmp").
Definition temp_body_path (process : N) : StorePath :=
  snapshot_path (".pending.snapshot-transfer.body-" +:+ pretty process +:+ ".tmp").

Definition snapshot_file_name (sequence : u64) (snapshot : RaftSnapshot) : string :=
  "snapshot-" +:+ pretty sequence +:+ "-" +:+ pretty (last_included_index (metadata snapshot))
  +:+ "-" +:+ pretty (last_included_term (metadata snapshot))
  +:+ "-" +:+ pretty (writer_id (metadata snapshot)) +:+ ".rfsn".

(** ** Health *)

(** The results of an operation of the store. *)
Abbreviation Outcome A := (World * FileRaftSnapshotStore * result A RaftSnapshotStoreWriteError)%type.

Definition fsn_io_failure {A} (w : World) (s : FileRaftSnapshotStore) (operation : string)
    (path : StorePath) (error : StorageIoError) : Outcome A :=
  (w, fsn_require_reopen s, Err (SnapshotIo operation (path_display path) error)).

Definition poison_if_io (s : FileRaftSnapshotStore) (error : RaftSnapshotStoreWriteError)
  : FileRaftSnapshotStore :=
  match error with
  | SnapshotIo _ _ _ => fsn_require_reopen s
  | _ => s
  end.

(** The text of a failure that is not one of input or output is not modelled. *)
Definition snapshot_committed_cleanup_failure (file_name : string)
    (error : RaftSnapshotStoreWriteError) : RaftSnapshotStoreWriteError :=
  match error with
  | SnapshotIo operation path source =>
      SnapshotCommittedButReopenRequired file_name operation path source
  | _ =>
      SnapshotCommittedButReopenRequired file_name "finish current snapshot cleanup" "snapshots"
        {| io_kind := ErrorKind_Other; io_raw_os_error := None; io_message := "" |}
  end.

(** ** Staging files ([pending_transfer/]) *)

(** [write_temp_and_rename] with the operations' names. *)
Definition write_temp_and_rename (temp_path final_path : StorePath) (bytes : list u8)
    (open_operation write_operation rename_operation sync_operation : string) (w : World)
  : World * result unit RaftSnapshotStoreWriteError :=
  match replace_file temp_path final_path bytes w with
  | (w, Ok _) => (w, Ok tt)
  | (w, Err (OpenStep, error)) => (w, Err (SnapshotIo open_operation (path_display temp_path) error))
  | (w, Err (WriteStep, error)) => (w, Err (SnapshotIo write_operation (path_display temp_path) error))
  | (w, Err (RenameStep, error)) => (w, Err (SnapshotIo rename_operation (path_display final_path) error))
  | (w, Err (SyncStep, error)) => (w, Err (SnapshotIo sync_operation (path_display final_path) error))
  end.

Definition remove_file_if_exists (path : StorePath) (operation : string) (w : World)
  : World * result bool RaftSnapshotStoreWriteError :=
  match remove_file path w with
  | (w, Ok _) => (w, Ok true)
  | (w, Err error) =>
      if io_kind error =? ErrorKind_NotFound then (w, Ok false)
      else (w, Err (SnapshotIo operation (path_display path) error))
  end.

(** [clear_pending_snapshot_transfer] of a directory. *)
Definition clear_staging (w : World) : World * result unit RaftSnapshotStoreWriteError :=
  match remove_file_if_exists pending_snapshot_transfer_path
          "remove pending snapshot transfer manifest" w with
  | (w, Err error) => (w, Err error)
  | (w, Ok removed_manifest) =>
      match remove_file_if_exists pending_snapshot_transfer_body_path
              "remove pending snapshot transfer body" w with
      | (w, Err error) => (w, Err error)
      | (w, Ok removed_body) =>
          if removed_manifest || removed_body then
            let (w, r) := sync_parent_directory pending_snapshot_transfer_path w in
            (w, map_err (SnapshotIo "sync pending snapshot transfer directory after clear" "snapshots") r)
          else (w, Ok tt)
      end
  end.

Definition body_io {A} (operation : string) (m : io A) (w : World)
  : World * result A RaftSnapshotStoreWriteError :=
  let (w, r) := m w in
  (w, map_err (SnapshotIo operation (path_display pending_snapshot_transfer_body_path)) r).

(** The message of [body file holds ... bytes but ... bytes are staged]. *)
Definition short_body (body_len staged_len : u64) : StorageIoError :=
  unexpected_eof ("body file holds " +:+ pretty body_len +:+ " bytes but " +:+ pretty staged_len
                  +:+ " bytes are staged").

Definition append_pending_snapshot_body (chunk : StagedSnapshotChunk) (w : World)
  : World * result unit RaftSnapshotStoreWriteError :=
  let body_path := pending_snapshot_transfer_body_path in
  let staged_len := ssc_offset chunk in
  match body_io "open pending snapshot transfer body" (open_append body_path) w with
  | (w, Err error) => (w, Err error)
  | (w, Ok _) =>
      match body_io "stat pending snapshot transfer body" (file_len body_path) w with
      | (w, Err error) => (w, Err error)
      | (w, Ok body_len) =>
          if body_len <? staged_len then
            (w, Err (SnapshotIo "append pending snapshot transfer body" (path_display body_path)
                       (short_body body_len staged_len)))
          else
            let (w, r) :=
              if staged_len <? body_len
              then body_io "truncate pending snapshot transfer body to staged length"
                     (set_len body_path staged_len) w
              else (w, Ok tt) in
            match r with
            | Err error => (w, Err error)
            | Ok _ =>
                body_io "append pending snapshot transfer body"
                  (let* _ := write_all body_path (ssc_bytes chunk) in sync_data body_path) w
            end
      end
  end.

Definition rewrite_pending_snapshot_body (bytes : list u8) (w : World)
  : World * result unit RaftSnapshotStoreWriteError :=
  write_temp_and_rename (temp_body_path (process_id w)) pending_snapshot_transfer_body_path bytes
    "open pending snapshot transfer body temp file"
    "write pending snapshot transfer body temp file"
    "replace pending snapshot transfer body"
    "sync pending snapshot transfer body directory" w.

Definition write_pending_snapshot_body_chunk (chunk : StagedSnapshotChunk) (w : World)
  : World * result unit RaftSnapshotStoreWriteError :=
  if ssc_offset chunk =? 0 then rewrite_pending_snapshot_body (ssc_bytes chunk) w
  else append_pending_snapshot_body chunk w.

Definition open_staged_body (received_len : u64) (w : World)
  : World * result unit RaftSnapshotStoreWriteError :=
  let body_path := pending_snapshot_transfer_body_path in
  match body_io "open pending snapshot transfer body for promotion" (open_read body_path) w with
  | (w, Err error) => (w, Err error)
  | (w, Ok _) =>
      match body_io "stat pending snapshot transfer body for promotion" (file_len body_path) w with
      | (w, Err error) => (w, Err error)
      | (w, Ok body_len) =>
          if body_len <? received_len then
            (w, Err (SnapshotIo "open pending snapshot transfer body for promotion"
                       (path_display body_path) (short_body body_len received_len)))
          else (w, Ok tt)
      end
  end.

Definition stage_pending_snapshot_chunk (chunk : StagedSnapshotChunk) (received_len : u64)
    (body_crc_before_chunk : RunningCrc32) (w : World)
  : World * result RunningCrc32 RaftSnapshotStoreWriteError :=
  let body_crc := RunningCrc32_update body_crc_before_chunk (ssc_bytes chunk) in
  let manifest :=
    {| ptm_leader_id := ssc_leader_id chunk; ptm_transfer_id := ssc_transfer_id chunk;
       ptm_metadata := ssc_metadata chunk; ptm_total_payload_len := ssc_total_payload_len chunk;
       ptm_application_payload_crc32 := ssc_application_payload_crc32 chunk;
       ptm_received_payload_len := received_len;
       ptm_body_checksum := RunningCrc32_value body_crc |} in
  match encode_pending_snapshot_transfer_manifest manifest with
  | Err error => (w, Err (EncodeSnapshot error))
  | Ok encoded =>
      match write_pending_snapshot_body_chunk chunk w with
      | (w, Err error) => (w, Err error)
      | (w, Ok _) =>
          match write_temp_and_rename (temp_pending_snapshot_transfer_path (process_id w))
                  pending_snapshot_transfer_path encoded
                  "open pending snapshot transfer manifest temp file"
                  "write pending snapshot transfer manifest temp file"
                  "replace pending snapshot transfer manifest"
                  "sync pending snapshot transfer manifest directory" w with
          | (w, Err error) => (w, Err error)
          | (w, Ok _) => (w, Ok body_crc)
          end
      end
  end.

(** ** Publication ([publish.rs]) *)

(** The loop of [snapshot_path_for_write] over the sequence numbers. *)
Fixpoint free_sequence (fuel : nat) (w : World) (s : FileRaftSnapshotStore) (snapshot : RaftSnapshot)
    (sequence : u64) : Outcome (StorePath * string * u64) :=
  match fuel with
  | 0%nat => (w, s, Err SnapshotSequenceExhausted)
  | S fuel =>
      let file_name := snapshot_file_name sequence snapshot in
      let path := snapshot_path file_name in
      match try_exists path w with
      | (w, Err error) => fsn_io_failure w s "stat candidate raft snapshot path" path error
      | (w, Ok false) => (w, s, Ok (path, file_name, sequence))
      | (w, Ok true) =>
          match u64_checked_add sequence 1 with
          | None => (w, s, Err SnapshotSequenceExhausted)
          | Some sequence => free_sequence fuel w s snapshot sequence
          end
      end
  end.

Definition snapshot_path_for_write (w : World) (s : FileRaftSnapshotStore) (snapshot : RaftSnapshot)
  : Outcome (StorePath * string * u64) :=
  match fsn_next_sequence s with
  | None => (w, s, Err SnapshotSequenceExhausted)
  | Some sequence => free_sequence (S (size (disk w))) w s snapshot sequence
  end.

(** Where the payload comes from: a chunk of [len] bytes at [offset]. *)
Abbreviation ReadChunk :=
  (u64 -> u32 -> World -> World * result (list u8) RaftSnapshotStoreWriteError).

(** The loop of [write_snapshot_temp] with both running checksums. *)
Fixpoint write_payload_chunks (fuel : nat) (temp_path : StorePath) (payload_len : u64)
    (read_chunk : ReadChunk) (w : World) (s : FileRaftSnapshotStore) (offset : u64)
    (payload_crc envelope_crc : RunningCrc32) : Outcome (RunningCrc32 * RunningCrc32) :=
  if negb (offset <? payload_len) then (w, s, Ok (payload_crc, envelope_crc))
  else
    match fuel with
    | 0%nat => (w, s, Ok (payload_crc, envelope_crc))
    | S fuel =>
        let len := stream_chunk_len (payload_len - offset) SNAPSHOT_STREAM_CHUNK_BYTES in
        match read_chunk offset len w with
        | (w, Err error) => (w, poison_if_io s error, Err error)
        | (w, Ok bytes) =>
            match write_all temp_path bytes w with
            | (w, Err error) => fsn_io_failure w s "write raft snapshot temp file" temp_path error
            | (w, Ok _) =>
                write_payload_chunks fuel temp_path payload_len read_chunk w s (offset + len)
                  (RunningCrc32_update payload_crc bytes) (RunningCrc32_update envelope_crc bytes)
            end
        end
    end.

Definition write_snapshot_temp (w : World) (s : FileRaftSnapshotStore) (temp_path : StorePath)
    (header : list u8) (payload_len : u64) (expected_payload_crc : option u32) (read_chunk : ReadChunk)
  : Outcome unit :=
  let failed w s error : Outcome unit :=
    fsn_io_failure w s "write raft snapshot temp file" temp_path error in
  match open_truncate temp_path w with
  | (w, Err error) => fsn_io_failure w s "open raft snapshot temp file" temp_path error
  | (w, Ok _) =>
      match write_all temp_path header w with
      | (w, Err error) => failed w s error
      | (w, Ok _) =>
          let rounds := N.to_nat (payload_len / SNAPSHOT_STREAM_CHUNK_BYTES + 1) in
          match write_payload_chunks rounds temp_path payload_len read_chunk w s 0
                  RunningCrc32_new (RunningCrc32_update RunningCrc32_new header) with
          | (w, s, Err error) => (w, s, Err error)
          | (w, s, Ok (payload_crc, envelope_crc)) =>
              let payload_crc := RunningCrc32_value payload_crc in
              let mismatch :=
                expected ← expected_payload_crc;
                if negb (payload_crc =? expected)
                then Some (SnapshotPayloadChecksumMismatch expected payload_crc) else None in
              match mismatch with
              | Some error => (w, s, Err error)
              | None =>
                let payload_crc_bytes := be_bytes 4 payload_crc in
                let envelope_crc :=
                  RunningCrc32_value (RunningCrc32_update envelope_crc payload_crc_bytes) in
                let (w, r) :=
                  (let* _ := write_all temp_path payload_crc_bytes in
                   let* _ := write_all temp_path (be_bytes 4 envelope_crc) in
                   sync_data temp_path) w in
                match r with
                | Err error => failed w s error
                | Ok _ => (w, s, Ok tt)
                end
              end
          end
      end
  end.

Definition publish_snapshot_file (w : World) (s : FileRaftSnapshotStore)
    (temp_path snapshot_path : StorePath) : Outcome unit :=
  match select_temp temp_path snapshot_path w with
  | (w, Ok _) => (w, s, Ok tt)
  | (w, Err (SyncStep, error)) =>
      fsn_io_failure w s "sync raft snapshot directory" snapshot_path error
  | (w, Err (_, error)) => fsn_io_failure w s "replace raft snapshot" snapshot_path error
  end.

Definition publish_current_manifest (w : World) (s : FileRaftSnapshotStore) (sequence : u64)
    (file_name : string) : Outcome unit :=
  match encode_manifest {| manifest_sequence := sequence; manifest_file_name := file_name |} with
  | Err error => (w, s, Err (EncodeManifest error))
  | Ok encoded =>
      match write_temp_and_rename (temp_manifest_path (process_id w)) manifest_path encoded
              "open raft snapshot manifest temp file"
              "write raft snapshot manifest temp file"
              "replace raft snapshot manifest"
              "sync raft snapshot manifest directory" w with
      | (w, Ok _) => (w, s, Ok tt)
      | (w, Err error) => (w, poison_if_io s error, Err error)
      end
  end.

(** ** The operations ([file.rs]) *)

Definition fsn_staged_transfer (s : FileRaftSnapshotStore) : option PendingSnapshotTransfer :=
  staged_pending <$> fsn_pending s.

Definition file_clear_pending (w : World) (s : FileRaftSnapshotStore) : Outcome unit :=
  if is_reopen_required (fsn_health s) then (w, s, Err SnapshotRequiresReopen)
  else
    match clear_staging w with
    | (w, Err error) => (w, poison_if_io s error, Err error)
    | (w, Ok _) => (w, fsn_with_pending s None, Ok tt)
    end.

Definition write_snapshot_streamed (w : World) (s : FileRaftSnapshotStore) (descriptor : RaftSnapshot)
    (expected_payload_crc : option u32) (read_chunk : ReadChunk) : Outcome unit :=
  if is_reopen_required (fsn_health s) then (w, s, Err SnapshotRequiresReopen)
  else
    let payload_len := application_payload_len descriptor in
    match encode_raft_snapshot_header (metadata descriptor) payload_len with
    | Err error => (w, s, Err (EncodeSnapshot error))
    | Ok header =>
        match snapshot_path_for_write w s descriptor with
        | (w, s, Err error) => (w, s, Err error)
        | (w, s, Ok (snapshot_path, file_name, sequence)) =>
            let temp_path := temp_snapshot_path (process_id w) in
            match write_snapshot_temp w s temp_path header payload_len expected_payload_crc read_chunk with
            | (w, s, Err error) => (w, s, Err error)
            | (w, s, Ok _) =>
                match publish_snapshot_file w s temp_path snapshot_path with
                | (w, s, Err error) => (w, s, Err error)
                | (w, s, Ok _) =>
                    match publish_current_manifest w s sequence file_name with
                    | (w, s, Err error) => (w, s, Err error)
                    | (w, s, Ok _) =>
                        let s :=
                          {| fsn_current := Some {| current_file_name := file_name;
                                                    current_descriptor := descriptor;
                                                    current_payload_offset := length_u64 header |};
                             fsn_pending := fsn_pending s;
                             fsn_next_sequence := u64_checked_add sequence 1;
                             fsn_health := fsn_health s |} in
                        match file_clear_pending w s with
                        | (w, s, Ok _) => (w, s, Ok tt)
                        | (w, s, Err error) =>
                            (w, fsn_require_reopen s,
                             Err (snapshot_committed_cleanup_failure file_name error))
                        end
                    end
                end
            end
        end
    end.

Definition file_write_snapshot (w : World) (s : FileRaftSnapshotStore) (snapshot : PersistedRaftSnapshot)
  : Outcome unit :=
  let payload := prs_application_payload snapshot in
  let descriptor := from_payload (prs_metadata snapshot) payload in
  write_snapshot_streamed w s descriptor (Some (application_payload_crc32 descriptor))
    (fun offset len w => (w, Ok (take (N.to_nat len) (drop (N.to_nat offset) payload)))).

Definition file_write_snapshot_from_source (w : World) (s : FileRaftSnapshotStore)
    (snapshot : RaftSnapshot) (source : SnapshotChunkRequest -> option (list u8)) : Outcome unit :=
  write_snapshot_streamed w s snapshot (Some (application_payload_crc32 snapshot))
    (fun offset len w => (w, source_chunk source snapshot (transfer_id snapshot) offset len)).

Definition file_current_snapshot (s : FileRaftSnapshotStore) : option RaftSnapshot :=
  current_descriptor <$> fsn_current s.

Definition file_stage_snapshot_chunk (w : World) (s : FileRaftSnapshotStore)
    (chunk : StagedSnapshotChunk) : Outcome unit :=
  if is_reopen_required (fsn_health s) then (w, s, Err SnapshotRequiresReopen)
  else
    match validate_staged_chunk chunk (fsn_staged_transfer s) with
    | Err error => (w, s, Err error)
    | Ok validated =>
        let before :=
          if ssc_offset chunk =? 0 then Some RunningCrc32_new
          else staged_body_crc <$> fsn_pending s in
        match before with
        | None => (w, s, Err (StagedChunkWithoutTransfer (ssc_transfer_id chunk) (ssc_offset chunk)))
        | Some body_crc_before_chunk =>
            match stage_pending_snapshot_chunk chunk (validated_received_len validated)
                    body_crc_before_chunk w with
            | (w, Err error) => (w, poison_if_io s error, Err error)
            | (w, Ok body_crc) =>
                (w, fsn_with_pending s
                      (Some {| staged_pending := pending_transfer_after_chunk chunk validated;
                               staged_body_crc := body_crc |}), Ok tt)
            end
        end
    end.

Definition file_promote_staged_snapshot (w : World) (s : FileRaftSnapshotStore)
    (snapshot : RaftSnapshot) : Outcome unit :=
  if is_reopen_required (fsn_health s) then (w, s, Err SnapshotRequiresReopen)
  else
    match validate_staged_promotion snapshot (fsn_staged_transfer s) with
    | Err error => (w, s, Err error)
    | Ok _ =>
        match fsn_pending s with
        | None => (w, s, Err (PromoteWithoutStagedTransfer (transfer_id snapshot)))
        | Some staged =>
            match open_staged_body (pst_received_len (staged_pending staged)) w with
            | (w, Err error) => (w, poison_if_io s error, Err error)
            | (w, Ok _) =>
                write_snapshot_streamed w s snapshot (Some (application_payload_crc32 snapshot))
                  (fun offset len =>
                     body_io "read pending snapshot transfer body for promotion"
                       (read_exact pending_snapshot_transfer_body_path offset len))
            end
        end
    end.

(** [PathBuf::exists] and the size of the body: an error is an absent file. *)
Definition staging_status (w : World) : World * (bool * option u64) :=
  let (w, manifest) := try_exists pending_snapshot_transfer_path w in
  let (w, body) := file_len pending_snapshot_transfer_body_path w in
  (w, (match manifest with Ok present => present | Err _ => false end,
       match body with Ok len => Some len | Err _ => None end)).

Definition file_remove_abandoned_staging (w : World) (s : FileRaftSnapshotStore) : Outcome bool :=
  if is_reopen_required (fsn_health s) then (w, s, Err SnapshotRequiresReopen)
  else
    match staging_status w with
    | (w, (false, Some _)) =>
        match body_io "remove abandoned pending snapshot transfer body"
                (remove_file pending_snapshot_transfer_body_path) w with
        | (w, Err error) => (w, poison_if_io s error, Err error)
        | (w, Ok _) =>
            match sync_parent_directory pending_snapshot_transfer_body_path w with
            | (w, Err error) =>
                (w, fsn_require_reopen s,
                 Err (SnapshotIo "sync pending snapshot transfer directory after abandoned body removal"
                        "snapshots" error))
            | (w, Ok _) => (w, s, Ok true)
            end
        end
    | (w, _) => (w, s, Ok false)
    end.

(** Serving a chunk; a failed read is no chunk. *)
Definition file_snapshot_chunk (w : World) (s : FileRaftSnapshotStore) (request : SnapshotChunkRequest)
  : option (list u8) :=
  current ← fsn_current s;
  let descriptor := current_descriptor current in
  if negb (transfer_id descriptor =? req_transfer_id request)
     || negb (bool_decide (metadata descriptor = req_metadata request))
     || negb (application_payload_len descriptor =? req_total_payload_len request)
     || negb (application_payload_crc32 descriptor =? req_application_payload_crc32 request)
  then None
  else
    stop ← u64_checked_add (req_offset request) (req_len request);
    if application_payload_len descriptor <? stop then None
    else
      let path := snapshot_path (current_file_name current) in
      match (let* _ := open_read path in
             read_exact path (current_payload_offset current + req_offset request) (req_len request)) w with
      | (_, Ok bytes) => Some bytes
      | (_, Err _) => None
      end.

(** ** Opening *)

Inductive OpenRaftSnapshotStoreError :=
| OpenSnapshot_Io (operation path : string) (source : StorageIoError)
| OpenSnapshot_Manifest (error : RaftSnapshotManifestDecodeError)
| OpenSnapshot_MissingSnapshot (path : string)
| OpenSnapshot_Snapshot (error : DecodeRaftSnapshotError)
| OpenSnapshot_PendingTransfer (error : DecodePendingSnapshotTransferError).

Inductive PendingSnapshotTransferRecovery :=
| DiscardedMissingBody
| DiscardedShortBody (expected_bytes actual_bytes : u64)
| DiscardedChecksumMismatch (expected actual : u32)
| IgnoredUnpublishedSuffix (published_bytes actual_bytes : u64).

Record FileRaftSnapshotStoreOpenReport := {
  created_directory : bool;
  pending_transfer_recovery : option PendingSnapshotTransferRecovery;
}.

Definition snapshot_io {A} (operation : string) (path : StorePath) (m : io A) (w : World)
  : World * result A OpenRaftSnapshotStoreError :=
  let (w, r) := m w in (w, map_err (OpenSnapshot_Io operation (path_display path)) r).

(** [File::open] and [read_to_end] of a file that may be absent. *)
Definition read_optional (path : StorePath) (open_operation read_operation : string) (w : World)
  : World * result (option (list u8)) OpenRaftSnapshotStoreError :=
  match open_read path w with
  | (w, Err error) =>
      if io_kind error =? ErrorKind_NotFound then (w, Ok None)
      else (w, Err (OpenSnapshot_Io open_operation (path_display path) error))
  | (w, Ok _) =>
      let (w, r) := snapshot_io read_operation path (read_to_end path) w in
      (w, let? bytes := r in Ok (Some bytes))
  end.

Definition read_manifest (w : World)
  : World * result (option SnapshotManifest) OpenRaftSnapshotStoreError :=
  match read_optional manifest_path "open raft snapshot manifest" "read raft snapshot manifest" w with
  | (w, Err error) => (w, Err error)
  | (w, Ok None) => (w, Ok None)
  | (w, Ok (Some bytes)) =>
      (w, let? manifest := map_err OpenSnapshot_Manifest (decode_manifest bytes) in Ok (Some manifest))
  end.

Definition SNAPSHOT_HEADER_PREFIX_BYTES : u64 := 4194304.
Definition VERIFY_CHUNK_BYTES : usize := 262144.

Definition bounded_usize_len (remaining : u64) (max_len : usize) : usize := N.min remaining max_len.

Record VerifiedSnapshotEnvelope := {
  verified_header : SnapshotEnvelopeHeader;
  verified_payload_crc32 : u32;
}.

(** The loop of [verify_snapshot_envelope]: what is left of the prefix first,
    then the file from [position] on. *)
Fixpoint verify_payload (fuel : nat) (path : StorePath) (w : World) (remaining : u64)
    (already_read : list u8) (position : u64) (payload_crc envelope_crc : RunningCrc32)
  : World * result (list u8 * u64 * RunningCrc32 * RunningCrc32) StorageIoError :=
  if remaining =? 0 then (w, Ok (already_read, position, payload_crc, envelope_crc))
  else
    match fuel with
    | 0%nat => (w, Ok (already_read, position, payload_crc, envelope_crc))
    | S fuel =>
        match already_read with
        | [] =>
            let want := bounded_usize_len remaining VERIFY_CHUNK_BYTES in
            match read_exact path position want w with
            | (w, Err error) => (w, Err error)
            | (w, Ok bytes) =>
                verify_payload fuel path w (remaining - length_u64 bytes) [] (position + want)
                  (RunningCrc32_update payload_crc bytes) (RunningCrc32_update envelope_crc bytes)
            end
        | _ =>
            let count := N.to_nat (bounded_usize_len remaining (length_u64 already_read)) in
            let bytes := take count already_read in
            verify_payload fuel path w (remaining - length_u64 bytes) (drop count already_read) position
              (RunningCrc32_update payload_crc bytes) (RunningCrc32_update envelope_crc bytes)
        end
    end.

(** The checks of the lengths, before the payload is read. *)
Definition check_snapshot_len (header : SnapshotEnvelopeHeader) (file_len : u64)
  : result unit DecodeRaftSnapshotError :=
  let short :=
    Snapshot_UnexpectedEof (header_payload_len header) (u64_saturating_sub file_len (header_len header)) in
  match (len ← u64_checked_add (header_len header) (header_payload_len header); u64_checked_add len 8) with
  | Some expected =>
      if file_len =? expected then Ok tt
      else if expected <? file_len then Err (Snapshot_TrailingBytes (file_len - expected))
      else Err short
  | None => Err short
  end.

Definition check_prefix_len (header : SnapshotEnvelopeHeader) (prefix : list u8)
  : result unit DecodeRaftSnapshotError :=
  if header_len header <=? length_u64 prefix then Ok tt
  else Err (Snapshot_UnexpectedEof (header_len header) (length_u64 prefix)).

(** The checks of the checksums, the envelope's first. *)
Definition check_snapshot_crcs (trailer : list u8) (payload_crc envelope_crc : RunningCrc32)
  : result u32 DecodeRaftSnapshotError :=
  let expected_payload_crc := from_be (take 4 trailer) in
  let expected_envelope_crc := from_be (drop 4 trailer) in
  let envelope_crc := RunningCrc32_value (RunningCrc32_update envelope_crc (take 4 trailer)) in
  if negb (envelope_crc =? expected_envelope_crc)
  then Err (Snapshot_EnvelopeChecksumMismatch expected_envelope_crc envelope_crc)
  else if negb (RunningCrc32_value payload_crc =? expected_payload_crc)
  then Err (Snapshot_PayloadChecksumMismatch expected_payload_crc (RunningCrc32_value payload_crc))
  else Ok expected_payload_crc.

(** The reads behind the header: the payload and the trailer. *)
Definition verify_snapshot_body (path : StorePath) (header : SnapshotEnvelopeHeader) (prefix : list u8)
    (w : World) : World * result VerifiedSnapshotEnvelope OpenRaftSnapshotStoreError :=
  let read_error error : OpenRaftSnapshotStoreError :=
    OpenSnapshot_Io "read raft snapshot" (path_display path) error in
  let envelope_crc := RunningCrc32_update RunningCrc32_new (take (N.to_nat (header_len header)) prefix) in
  let rounds := N.to_nat (header_payload_len header / VERIFY_CHUNK_BYTES + 2) in
  match verify_payload rounds path w (header_payload_len header)
          (drop (N.to_nat (header_len header)) prefix) (length_u64 prefix) RunningCrc32_new envelope_crc with
  | (w, Err error) => (w, Err (read_error error))
  | (w, Ok (already_read, position, payload_crc, envelope_crc)) =>
      let from_prefix := take 8 already_read in
      match read_exact path position (8 - length_u64 from_prefix) w with
      | (w, Err error) => (w, Err (read_error error))
      | (w, Ok rest) =>
          match check_snapshot_crcs (from_prefix ++ rest) payload_crc envelope_crc with
          | Err error => (w, Err (OpenSnapshot_Snapshot error))
          | Ok payload_crc32 =>
              (w, Ok {| verified_header := header; verified_payload_crc32 := payload_crc32 |})
          end
      end
  end.

Definition snapshot_file_len (path : StorePath) (w : World)
  : World * result u64 OpenRaftSnapshotStoreError :=
  match file_len path w with
  | (w, Ok len) => (w, Ok len)
  | (w, Err error) =>
      if io_kind error =? ErrorKind_NotFound
      then (w, Err (OpenSnapshot_MissingSnapshot (path_display path)))
      else (w, Err (OpenSnapshot_Io "stat raft snapshot" (path_display path) error))
  end.

Definition verify_snapshot_envelope (path : StorePath) (w : World)
  : World * result VerifiedSnapshotEnvelope OpenRaftSnapshotStoreError :=
  match snapshot_file_len path w with
  | (w, Err error) => (w, Err error)
  | (w, Ok file_len) =>
      match snapshot_io "open raft snapshot" path (open_read path) w with
      | (w, Err error) => (w, Err error)
      | (w, Ok _) =>
          match snapshot_io "read raft snapshot" path
                  (read_prefix path (N.min SNAPSHOT_HEADER_PREFIX_BYTES file_len)) w with
          | (w, Err error) => (w, Err error)
          | (w, Ok prefix) =>
              match (let? header := decode_raft_snapshot_header prefix in
                     let? _ := check_snapshot_len header file_len in
                     let? _ := check_prefix_len header prefix in
                     Ok header) with
              | Err error => (w, Err (OpenSnapshot_Snapshot error))
              | Ok header => verify_snapshot_body path header prefix w
              end
          end
      end
  end.

(** The checksum of the published prefix of the staged body, from [position]
    on. *)
Fixpoint checksum_staged_body_prefix (fuel : nat) (w : World) (buffer_len : usize) (remaining position : u64)
    (checksum : RunningCrc32) : World * result RunningCrc32 OpenRaftSnapshotStoreError :=
  if remaining =? 0 then (w, Ok checksum)
  else
    match fuel with
    | 0%nat => (w, Ok checksum)
    | S fuel =>
        let len := bounded_usize_len remaining buffer_len in
        match snapshot_io "read pending snapshot transfer body" pending_snapshot_transfer_body_path
                (read_exact pending_snapshot_transfer_body_path position len) w with
        | (w, Err error) => (w, Err error)
        | (w, Ok bytes) =>
            checksum_staged_body_prefix fuel w buffer_len (remaining - len) (position + len)
              (RunningCrc32_update checksum bytes)
        end
    end.

Definition VERIFY_STAGED_BODY_CHUNK_BYTES : usize := 262144.

Definition discard_inconsistent_staging (w : World) : World * result unit OpenRaftSnapshotStoreError :=
  let (w, r) := clear_staging w in
  (w, map_err (fun error =>
         match error with
         | SnapshotIo operation path source => OpenSnapshot_Io operation path source
         | _ => OpenSnapshot_Io "discard inconsistent pending snapshot transfer staging" "snapshots"
                  {| io_kind := ErrorKind_Other; io_raw_os_error := None; io_message := "" |}
         end) r).

Definition read_pending_snapshot_transfer_manifest (w : World)
  : World * result (option PendingTransferManifest) OpenRaftSnapshotStoreError :=
  match read_optional pending_snapshot_transfer_path "open pending snapshot transfer manifest"
          "read pending snapshot transfer manifest" w with
  | (w, Err error) => (w, Err error)
  | (w, Ok None) => (w, Ok None)
  | (w, Ok (Some bytes)) =>
      (w, let? manifest :=
            map_err OpenSnapshot_PendingTransfer (decode_pending_snapshot_transfer_manifest bytes) in
          Ok (Some manifest))
  end.

(** A staged transfer, and what was done about an interrupted one. *)
Abbreviation OpenedPendingSnapshotTransfer :=
  (option StagedTransfer * option PendingSnapshotTransferRecovery)%type.

Definition discarded (recovery : PendingSnapshotTransferRecovery) (w : World)
  : World * result OpenedPendingSnapshotTransfer OpenRaftSnapshotStoreError :=
  match discard_inconsistent_staging w with
  | (w, Err error) => (w, Err error)
  | (w, Ok _) => (w, Ok (None, Some recovery))
  end.

(** The body against its manifest. *)
Definition read_staged_body (manifest : PendingTransferManifest) (w : World)
  : World * result OpenedPendingSnapshotTransfer OpenRaftSnapshotStoreError :=
  let body_path := pending_snapshot_transfer_body_path in
  let received := ptm_received_payload_len manifest in
  match snapshot_io "stat pending snapshot transfer body" body_path (file_len body_path) w with
  | (w, Err error) => (w, Err error)
  | (w, Ok body_len) =>
      if body_len <? received then discarded (DiscardedShortBody received body_len) w
      else
        let buffer_len := bounded_usize_len received VERIFY_STAGED_BODY_CHUNK_BYTES in
        match checksum_staged_body_prefix (N.to_nat (received / VERIFY_STAGED_BODY_CHUNK_BYTES + 1)) w
                buffer_len received 0 RunningCrc32_new with
        | (w, Err error) => (w, Err error)
        | (w, Ok body_crc) =>
            if negb (RunningCrc32_value body_crc =? ptm_body_checksum manifest)
            then discarded (DiscardedChecksumMismatch (ptm_body_checksum manifest)
                              (RunningCrc32_value body_crc)) w
            else
              (w, Ok (Some {| staged_pending :=
                                {| pst_leader_id := ptm_leader_id manifest;
                                   pst_transfer_id := ptm_transfer_id manifest;
                                   pst_metadata := ptm_metadata manifest;
                                   pst_total_payload_len := ptm_total_payload_len manifest;
                                   pst_application_payload_crc32 := ptm_application_payload_crc32 manifest;
                                   pst_received_len := received |};
                              staged_body_crc := body_crc |},
                      if received <? body_len
                      then Some (IgnoredUnpublishedSuffix received body_len) else None))
        end
  end.

(** [read_staged_transfer] and [read_pending_snapshot_transfer] *)
Definition read_pending_snapshot_transfer (w : World)
  : World * result OpenedPendingSnapshotTransfer OpenRaftSnapshotStoreError :=
  match read_pending_snapshot_transfer_manifest w with
  | (w, Err error) => (w, Err error)
  | (w, Ok None) => (w, Ok (None, None))
  | (w, Ok (Some manifest)) =>
      let body_path := pending_snapshot_transfer_body_path in
      match open_read body_path w with
      | (w, Err error) =>
          if io_kind error =? ErrorKind_NotFound then discarded DiscardedMissingBody w
          else (w, Err (OpenSnapshot_Io "open pending snapshot transfer body" (path_display body_path) error))
      | (w, Ok _) => read_staged_body manifest w
      end
  end.

(** The name [snapshots] only ever is a directory. *)
Definition ensure_directory (sync : CreationSync) (w : World)
  : World * CreationSync * result bool OpenRaftSnapshotStoreError :=
  match open_read snapshots_path w with
  | (w, Ok _) => (w, sync, Ok false)
  | (w, Err error) =>
      if negb (io_kind error =? ErrorKind_NotFound)
      then (w, sync, Err (OpenSnapshot_Io "stat raft snapshot directory" "snapshots" error))
      else
        match create_dir snapshots_path w with
        | (w, Err error) =>
            (w, sync, Err (OpenSnapshot_Io "create raft snapshot directory" "snapshots" error))
        | (w, Ok _) =>
            let '(w, sync, r) := creation_sync snapshots_path sync w in
            (w, sync,
             match r with
             | Ok _ => Ok true
             | Err error => Err (OpenSnapshot_Io "sync raft snapshot parent directory" "snapshots" error)
             end)
        end
  end.

(** What the manifest selects. *)
Definition open_current (manifest : option SnapshotManifest) (w : World)
  : World * result (option CurrentSnapshot * option u64) OpenRaftSnapshotStoreError :=
  match manifest with
  | None => (w, Ok (None, Some 1))
  | Some manifest =>
      match verify_snapshot_envelope (snapshot_path (manifest_file_name manifest)) w with
      | (w, Err error) => (w, Err error)
      | (w, Ok verified) =>
          let header := verified_header verified in
          let descriptor :=
            RaftSnapshot_new (header_metadata header) (header_payload_len header)
              (verified_payload_crc32 verified) in
          (w, Ok (Some {| current_file_name := manifest_file_name manifest;
                          current_descriptor := descriptor;
                          current_payload_offset := header_len header |},
                  u64_checked_add (manifest_sequence manifest) 1))
      end
  end.

(** [open_with_creation_sync] *)
Definition file_snapshot_open (sync : CreationSync) (w : World)
  : World * CreationSync *
    result (FileRaftSnapshotStore * FileRaftSnapshotStoreOpenReport) OpenRaftSnapshotStoreError :=
  match ensure_directory sync w with
  | (w, sync, Err error) => (w, sync, Err error)
  | (w, sync, Ok created) =>
      match read_manifest w with
      | (w, Err error) => (w, sync, Err error)
      | (w, Ok manifest) =>
          match open_current manifest w with
          | (w, Err error) => (w, sync, Err error)
          | (w, Ok (current, next_sequence)) =>
              match read_pending_snapshot_transfer w with
              | (w, Err error) => (w, sync, Err error)
              | (w, Ok (pending, recovery)) =>
                  (w, sync,
                   Ok ({| fsn_current := current; fsn_pending := pending;
                          fsn_next_sequence := next_sequence; fsn_health := Healthy |},
                       {| created_directory := created; pending_transfer_recovery := recovery |}))
              end
          end
      end
  end.
