(* ===== verification/SnapshotStoreSpec.v ===== *)
(** * The file-backed snapshot store: what its files hold

    What the current manifest selects and what is staged, as a function of the
    contents of the files; how each operation of [SnapshotFile] changes it, and
    what a crash in the midst of it leaves. *)

From Stdlib Require Import Strings.Byte.
From Stdlib Require Import Strings.Ascii.
From Stdlib Require Import Strings.String.
From stdpp Require Import base strings list sorting numbers option pretty gmap.
From S2P Require Import Prelude.
From S2P Require Import Types.
From S2P Require Import Crc32.
From S2P Require Import Snapshot.
From S2P Require Import Wire.
From S2P Require Import Grammar.
From S2P Require Import CodecSpec.
From S2P Require Import Stores.
From S2P Require Import MemoryStores.
From S2P Require Import StorageFormat.
From S2P Require Import StorageSpec.
From S2P Require Import SnapshotFormat.
From S2P Require Import FileSystem.
From S2P Require Import LogFile.
From S2P Require Import SnapshotFile.

#[local] Arguments be_bytes : simpl never.
#[local] Arguments snapshot_bytes : simpl never.
#[local] Arguments put_header : simpl never.
#[local] Arguments pending_bytes : simpl never.

(** ** Running checksums *)

Definition crc_of (bytes : list u8) : RunningCrc32 := RunningCrc32_update RunningCrc32_new bytes.

Lemma crc_of_app a b : RunningCrc32_update (crc_of a) b = crc_of (a ++ b).
Proof.
  unfold crc_of, RunningCrc32_update. simpl. f_equal.
  rewrite !crc_update_bitwise, fold_left_app; [done|done|done|]. rewrite crc_update_bitwise by done. by apply crc_bitwise_small.
Qed.

Lemma crc_of_value a : RunningCrc32_value (crc_of a) = crc32 a.
Proof. done. Qed.

(** ** The names of snapshot files *)

(** ASCII without separators. *)
Definition plain (b : u8) : Prop := Byte.to_N b < 128 /\ b <> x2f /\ b <> x5c.

Lemma list_byte_of_string_app a b :
  list_byte_of_string (a +:+ b) = list_byte_of_string a ++ list_byte_of_string b.
Proof.
  induction a as [|c a IH]; [done|].
  change (list_byte_of_string (String c a +:+ b)) with (byte_of_ascii c :: list_byte_of_string (a +:+ b)). by rewrite IH.
Qed.

Lemma from_utf8_plain bytes : Forall plain bytes -> is_Some (from_utf8 bytes).
Proof.
  induction 1 as [|b bytes [Hb _] _ [s Hs]]; [by eexists|]. simpl. apply N.ltb_lt in Hb. rewrite Hb, Hs. by eexists.
Qed.

Lemma plain_digit x : x < 10 -> plain (byte_of_ascii (pretty_N_char x)).
Proof.
  intros Hx. assert (x ∈ [0;1;2;3;4;5;6;7;8;9]) as Hin.
  { rewrite !elem_of_cons. lia. }
  rewrite !elem_of_cons, elem_of_nil in Hin. by destruct_or!; subst.
Qed.

Lemma plain_pretty_go x s : Forall plain (list_byte_of_string s) -> Forall plain (list_byte_of_string (pretty_N_go x s)).
Proof.
  revert s. induction (N.lt_wf_0 x) as [x _ IH]. intros s Hs.
  destruct (decide (x = 0)) as [->|Hx]; [by rewrite pretty_N_go_0|].
  rewrite pretty_N_go_step by lia. apply IH; [apply N.div_lt; lia|]. constructor; [|done].
  apply plain_digit, N.mod_lt. lia.
Qed.

Lemma plain_pretty (x : N) : Forall plain (list_byte_of_string (pretty x)).
Proof.
  unfold pretty, pretty_N. case_decide; [|by apply plain_pretty_go]. by constructor.
Qed.

Lemma plain_name sequence snapshot : Forall plain (list_byte_of_string (snapshot_file_name sequence snapshot)).
Proof.
  unfold snapshot_file_name. rewrite !list_byte_of_string_app, !Forall_app.
  split_and!; try apply plain_pretty; by repeat constructor.
Qed.

Lemma snapshot_file_name_valid sequence snapshot :
  length_u64 (list_byte_of_string (snapshot_file_name sequence snapshot)) <= u16_max ->
  file_name_valid (snapshot_file_name sequence snapshot).
Proof.
  intros Hl. pose proof (plain_name sequence snapshot) as Hp. split_and!; [done|by apply from_utf8_plain|].
  unfold validate_manifest_file_name. rewrite Forall_forall in Hp.
  rewrite (bool_decide_false (x2f ∈ _)), (bool_decide_false (x5c ∈ _)).
  - done.
  - intros H%Hp. by destruct H as (_ & _ & ?).
  - intros H%Hp. by destruct H as (_ & ? & _).
Qed.

(** A name, as the store gives it to a snapshot. *)
Definition own_name (name : string) : Prop := exists sequence snapshot, name = snapshot_file_name sequence snapshot.

(** The envelope of the payload is a file of less than 2^64 bytes: a header has
    at most [SNAPSHOT_HEADER_PREFIX_BYTES]. *)
Definition payload_fits (len : u64) : Prop := len + SNAPSHOT_HEADER_PREFIX_BYTES < 18446744073709551616.

(** ** What the files say

    [files] gives the contents under every name. *)

Abbreviation Files := (StorePath -> option (list u8)).

(** The current manifest selects the snapshot [c], if any. *)
Definition selects (files : Files) (c : option RaftSnapshot) : Prop :=
  match files manifest_path with
  | None => c = None
  | Some bytes => exists m meta payload,
      manifest_valid m /\ own_name (manifest_file_name m) /\ encode_manifest m = Ok bytes /\
      storable meta /\ payload_fits (length_u64 payload) /\
      files (snapshot_path (manifest_file_name m)) = Some (snapshot_bytes meta payload) /\
      c = Some (from_payload meta payload)
  end.

(** The transfer a staging manifest describes. *)
Definition transfer_of (m : PendingTransferManifest) : PendingSnapshotTransfer :=
  {| pst_leader_id := ptm_leader_id m; pst_transfer_id := ptm_transfer_id m; pst_metadata := ptm_metadata m;
     pst_total_payload_len := ptm_total_payload_len m;
     pst_application_payload_crc32 := ptm_application_payload_crc32 m;
     pst_received_len := ptm_received_payload_len m |}.

(** The body has the bytes the manifest published. *)
Definition body_matches (m : PendingTransferManifest) (body : list u8) : Prop :=
  ptm_received_payload_len m <= length_u64 body /\
  crc32 (take (N.to_nat (ptm_received_payload_len m)) body) = ptm_body_checksum m.

#[export] Instance body_matches_dec m body : Decision (body_matches m body).
Proof. unfold body_matches. apply _. Defined.

(** A manifest is told by its bytes. *)
Lemma pending_bytes_inj m m' : pending_valid m -> pending_valid m' -> pending_bytes m = pending_bytes m' -> m' = m.
Proof.
  intros Hm Hm' Heq. assert (decode_pending_snapshot_transfer_manifest (pending_bytes m) = Ok m) as H1 by by apply decode_pending_Ok.
  assert (decode_pending_snapshot_transfer_manifest (pending_bytes m) = Ok m') as H2 by (apply decode_pending_Ok; by rewrite Heq).
  congruence.
Qed.

(** The transfer a manifest and a body give, if any. *)
Definition staged_in (manifest body : option (list u8)) (p : option PendingSnapshotTransfer) : Prop :=
  match manifest with
  | None => p = None
  | Some bytes => exists m, pending_valid m /\ bytes = pending_bytes m /\
      p = match body with
          | Some body => if decide (body_matches m body) then Some (transfer_of m) else None
          | None => None
          end
  end.

Definition staged (files : Files) : option PendingSnapshotTransfer -> Prop :=
  staged_in (files pending_snapshot_transfer_path) (files pending_snapshot_transfer_body_path).

(** ** What the handle holds *)

(** Files that are durable. *)
Definition durable (d : Disk) (path : StorePath) (data : option (list u8)) : Prop := entry d path = settled data.

Definition current_holds (d : Disk) (c : option CurrentSnapshot) : Prop :=
  match c with
  | None => durable d manifest_path None
  | Some c => exists m bytes meta payload,
      manifest_valid m /\ own_name (manifest_file_name m) /\ encode_manifest m = Ok bytes /\
      durable d manifest_path (Some bytes) /\ storable meta /\ payload_fits (length_u64 payload) /\
      durable d (snapshot_path (manifest_file_name m)) (Some (snapshot_bytes meta payload)) /\
      current_file_name c = manifest_file_name m /\ current_descriptor c = from_payload meta payload /\
      current_payload_offset c = length_u64 (put_header meta (length_u64 payload))
  end.

Definition pending_holds (d : Disk) (p : option StagedTransfer) : Prop :=
  match p with
  | None => durable d pending_snapshot_transfer_path None /\ exists body, durable d pending_snapshot_transfer_body_path body
  | Some st => exists m body, pending_valid m /\ body_matches m body /\
      durable d pending_snapshot_transfer_path (Some (pending_bytes m)) /\
      durable d pending_snapshot_transfer_body_path (Some body) /\
      staged_pending st = transfer_of m /\
      staged_body_crc st = crc_of (take (N.to_nat (ptm_received_payload_len m)) body)
  end.

Definition snapshots_hold (d : Disk) (s : FileRaftSnapshotStore) : Prop :=
  fsn_health s = Healthy /\ durable d snapshots_path (Some []) /\ current_holds d (fsn_current s) /\
  (forall n, fsn_next_sequence s = Some n -> fits64 n) /\ pending_holds d (fsn_pending s).

(** Contents a crash may leave. *)
Definition leaves (d : Disk) (files : Files) : Prop := forall path, may (entry d path) (files path).

Lemma leaves_durable d files path data : leaves d files -> durable d path data -> files path = data.
Proof. intros Hl Hd. specialize (Hl path). rewrite Hd in Hl. by apply may_settled in Hl. Qed.

Lemma selects_may d c files :
  may (entry d manifest_path) (files manifest_path) ->
  (forall name, own_name name -> may (entry d (snapshot_path name)) (files (snapshot_path name))) ->
  current_holds d c -> selects files (current_descriptor <$> c).
Proof.
  intros Hman Hl Hc. unfold selects. destruct c as [c|]; simpl in Hc.
  - destruct Hc as (m & bytes & meta & payload & Hm & Hown & He & Hd & Hs & Hf & Hd' & Hn & Hdesc & _).
    rewrite Hd in Hman. apply may_settled in Hman as ->. exists m, meta, payload. split_and!; try done.
    + specialize (Hl _ Hown). rewrite Hd' in Hl. by apply may_settled in Hl.
    + simpl. by rewrite Hdesc.
  - rewrite Hc in Hman. by apply may_settled in Hman as ->.
Qed.

Lemma current_holds_selects d c files :
  leaves d files -> current_holds d c -> selects files (current_descriptor <$> c).
Proof. intros Hl. apply selects_may; [apply Hl|]. intros name _. apply Hl. Qed.

Lemma pending_holds_staged d p files :
  leaves d files -> pending_holds d p -> staged files (staged_pending <$> p).
Proof.
  intros Hl Hp. unfold staged, staged_in. destruct p as [st|]; simpl in Hp.
  - destruct Hp as (m & body & Hm & Hb & Hd & Hd' & Ht & _). rewrite (leaves_durable _ _ _ _ Hl Hd).
    exists m. split_and!; [done|done|]. rewrite (leaves_durable _ _ _ _ Hl Hd'), decide_True by done.
    simpl. by rewrite Ht.
  - destruct Hp as [Hp _]. by rewrite (leaves_durable _ _ _ _ Hl Hp).
Qed.

Lemma durable_only ps d d' path data : only ps d d' -> path ∉ ps -> durable d path data -> durable d' path data.
Proof. intros Ho Hp Hd. apply calmer_settled. rewrite <- Hd. by apply Ho. Qed.

(** Only what the current snapshot does not use was touched. *)
Lemma current_holds_only ps d d' c :
  only ps d d' -> manifest_path ∉ ps -> (forall c', c = Some c' -> snapshot_path (current_file_name c') ∉ ps) ->
  current_holds d c -> current_holds d' c.
Proof.
  intros Ho Hm Hf Hc. destruct c as [c|]; simpl in *; [|by eapply durable_only].
  destruct Hc as (m & bytes & meta & payload & ? & ? & ? & Hd & ? & ? & Hd' & Hn & ? & ?).
  specialize (Hf c eq_refl). rewrite Hn in Hf. exists m, bytes, meta, payload. split_and!; try done; by eapply durable_only.
Qed.

Lemma pending_holds_only ps d d' p :
  only ps d d' -> pending_snapshot_transfer_path ∉ ps -> pending_snapshot_transfer_body_path ∉ ps ->
  pending_holds d p -> pending_holds d' p.
Proof.
  intros Ho Hm Hb Hp. destruct p as [st|]; simpl in *.
  2: { destruct Hp as [Hp [body Hbody]]. split; [by eapply durable_only|]. exists body. by eapply durable_only. }
  destruct Hp as (m & body & ? & ? & Hd & Hd' & ? & ?). exists m, body. split_and!; try done; by eapply durable_only.
Qed.

(** The names of staging and of the temporary files are none of a snapshot's. *)
Definition reserved (process : N) : list StorePath :=
  [manifest_path; pending_snapshot_transfer_path; pending_snapshot_transfer_body_path;
   temp_snapshot_path process; temp_manifest_path process; temp_pending_snapshot_transfer_path process;
   temp_body_path process; snapshots_path].

Ltac in_reserved := unfold reserved; rewrite !elem_of_cons; auto 10.
(** A name is none of a list. *)
Ltac not_listed := by let H := fresh in intros H; rewrite ?elem_of_cons, ?elem_of_nil in H; destruct_or?; inversion H.

Lemma own_name_reserved name process : own_name name -> snapshot_path name ∉ reserved process.
Proof.
  intros (sequence & snapshot & ->). unfold reserved. rewrite !elem_of_cons, elem_of_nil.
  intros H. destruct_or!; by inversion H.
Qed.

Lemma reserved_distinct process : NoDup (reserved process).
Proof.
  unfold reserved. repeat (apply NoDup_cons; split; [rewrite ?elem_of_cons, elem_of_nil; intros H; destruct_or?; by inversion H|]).
  constructor.
Qed.

(** ** Staging *)

Lemma write_temp_and_rename_spec temp path bytes o1 o2 o3 o4 w w' r :
  temp <> path -> write_temp_and_rename temp path bytes o1 o2 o3 o4 w = (w', r) ->
  only [temp; path] (disk w) (disk w') /\
  match r with
  | Ok _ => durable (disk w') path (Some bytes)
  | Err _ => forall o, may (entry (disk w') path) o -> may (entry (disk w) path) o \/ o = Some bytes
  end.
Proof.
  intros Hne. unfold write_temp_and_rename. destruct (replace_file temp path bytes w) as [w1 r1] eqn:H1.
  apply replace_file_spec in H1 as [Ho H1]; [|done]. destruct r1 as [[]|[[] error]]; intros [= <- <-]; done.
Qed.

Lemma remove_file_if_exists_spec path operation w w' r data :
  durable (disk w) path data -> remove_file_if_exists path operation w = (w', r) ->
  only [path] (disk w) (disk w') /\
  (forall o, may (entry (disk w') path) o -> o = data \/ o = None) /\
  (forall removed, r = Ok removed -> entry_now (entry (disk w') path) = None /\ (removed = false -> disk w' = disk w)).
Proof.
  intros Hd. unfold remove_file_if_exists, remove_file. rewrite Hd. destruct data as [data|]; simpl.
  - destruct (change_atomic _ w) as [w1 r1] eqn:H1. 
    assert (only [path] (disk w) (disk w1) /\ (forall o, may (entry (disk w1) path) o -> o = Some data \/ o = None)) as [Ho Hm].
    { assert (forall o, may (renamed None (settled (Some data))) o -> o = Some data \/ o = None) as Hr.
      { intros o (x & Hx & Hm). simpl in Hx. rewrite elem_of_cons, list_elem_of_singleton in Hx.
        destruct Hx as [-> | ->], o as [o|]; try done; auto. left. by apply survives_clean in Hm as ->. }
      apply change_atomic_spec in H1 as [[_ ->]|(? & _ & [-> | ->])]; (split; [try apply only_alter; done|]);
        rewrite ?entry_alter, Hd; try done. intros o. rewrite may_settled. by left. }
    pose proof H1 as H1'. apply change_atomic_spec in H1 as [[-> Hd1]|(error & -> & _)].
    + intros [= <- <-]. split_and!; [done|done|]. intros removed [= <-]. split; [|done]. by rewrite Hd1, entry_alter.
    + assert (io_kind error <> ErrorKind_NotFound) as Hnf%N.eqb_neq.
      { unfold change_atomic, change in H1'. destruct (next_fault w) as [w2 [fault|]] eqn:Hn; [|done].
        apply next_fault_device in Hn as [Hn _]. by simplify_eq/=. }
      rewrite Hnf. intros [= <- <-]. split_and!; [done|done|done].
  - intros [= <- <-]. split_and!; [done| |].
    + intros o. rewrite Hd, may_settled. by left.
    + intros removed [= <-]. by rewrite Hd.
Qed.

(** A known manifest gives its transfer or none, whatever the body is. *)
Lemma staged_in_body m bo :
  pending_valid m -> staged_in (Some (pending_bytes m)) bo (Some (transfer_of m)) \/ staged_in (Some (pending_bytes m)) bo None.
Proof.
  intros Hm. destruct bo as [body|]; [|by right; exists m]. destruct (decide (body_matches m body)) as [Hb|Hb]; [left|right];
    exists m; (split_and!; [done|done|]); [by rewrite decide_True|by rewrite decide_False].
Qed.

Lemma staged_in_cleared mo bo p mo' bo' :
  staged_in mo bo p -> mo' = mo \/ mo' = None -> bo' = bo \/ bo' = None -> staged_in mo' bo' p \/ staged_in mo' bo' None.
Proof.
  intros Hs [-> | ->] Hb; [|by right]. destruct Hb as [-> | ->]; [by left|]. destruct mo as [bytes|]; simpl in *; [|by right].
  right. destruct Hs as (m & Hm & -> & _). by exists m.
Qed.

Lemma durable_settle_directory d path data :
  entry_now (entry d path) = data -> (forall f, data = Some f -> file_unsynced f = []) ->
  durable (settle_directory (parent_directory path) d) path (file_data <$> data).
Proof.
  intros Hn Hs. unfold durable. rewrite entry_settle_directory, decide_True by done. unfold settle, settled. rewrite Hn.
  f_equal. destruct data as [f|]; [|done]. simpl. specialize (Hs f eq_refl). destruct f as [data unsynced]. simpl in *. by subst.
Qed.

Lemma clear_staging_spec w w' r mo bo p :
  durable (disk w) pending_snapshot_transfer_path mo -> durable (disk w) pending_snapshot_transfer_body_path bo ->
  staged_in mo bo p -> clear_staging w = (w', r) ->
  only [pending_snapshot_transfer_path; pending_snapshot_transfer_body_path] (disk w) (disk w') /\
  match r with
  | Ok _ => durable (disk w') pending_snapshot_transfer_path None /\ durable (disk w') pending_snapshot_transfer_body_path None
  | Err _ => forall files, leaves (disk w') files -> staged files p \/ staged files None
  end.
Proof.
  intros Hm Hb Hs. unfold clear_staging. destruct (remove_file_if_exists pending_snapshot_transfer_path _ w) as [w1 r1] eqn:H1.
  apply (remove_file_if_exists_spec _ _ _ _ _ _ Hm) in H1 as (Ho1 & Hm1 & Hr1).
  assert (durable (disk w1) pending_snapshot_transfer_body_path bo) as Hb1 by (eapply durable_only; [done|set_solver|done]).
  assert (forall d, only [pending_snapshot_transfer_path] (disk w) d ->
    only [pending_snapshot_transfer_path; pending_snapshot_transfer_body_path] (disk w) d) as Hweak
    by (intros d Ho; eapply only_weaken; [done|set_solver]).
  destruct r1 as [removed|].
  2: { intros [= <- <-]. split; [auto|]. intros files Hl. eapply staged_in_cleared; [done|by apply Hm1, Hl|].
       left. by eapply leaves_durable. }
  destruct (Hr1 removed eq_refl) as [Hn1 Hd1].
  destruct (remove_file_if_exists pending_snapshot_transfer_body_path _ w1) as [w2 r2] eqn:H2.
  apply (remove_file_if_exists_spec _ _ _ _ _ _ Hb1) in H2 as (Ho2 & Hm2 & Hr2).
  assert (only [pending_snapshot_transfer_path; pending_snapshot_transfer_body_path] (disk w) (disk w2)) as Ho.
  { etrans; (eapply only_weaken; [done|set_solver]). }
  assert (calmer (entry (disk w1) pending_snapshot_transfer_path) (entry (disk w2) pending_snapshot_transfer_path)) as Hc2
    by (apply Ho2; set_solver).
  assert (forall files, leaves (disk w2) files -> staged files p \/ staged files None) as Hleft.
  { intros files Hl. eapply staged_in_cleared; [done| |by apply Hm2, Hl]. apply Hm1. eapply calmer_may; [done|apply Hl]. }
  destruct r2 as [removed'|]; [|intros [= <- <-]; by split].
  destruct (Hr2 removed' eq_refl) as [Hn2 Hd2]. destruct (removed || removed') eqn:Hrem.
  - destruct (sync_parent_directory _ w2) as [w3 r3] eqn:H3. intros [= <- <-].
    assert (only [] (disk w2) (settle_directory SnapshotDirectory (disk w2))) as Hset by apply only_settle_directory.
    apply change_atomic_spec in H3 as [[-> ->]|(error & -> & Hd3)]; simpl.
    + split; [etrans; [done|]; eapply only_weaken; [done|set_solver]|]. split.
      * apply (durable_settle_directory (disk w2) pending_snapshot_transfer_path None); [|done]. destruct Hc2 as [-> _]. done.
      * by apply (durable_settle_directory (disk w2) pending_snapshot_transfer_body_path None).
    + destruct Hd3 as [-> | ->]; [done|]. split; [etrans; [done|]; eapply only_weaken; [done|set_solver]|].
      intros files Hl. apply Hleft. intros q. eapply calmer_may; [apply Hset; set_solver|apply Hl].
  - apply orb_false_iff in Hrem as [-> ->]. intros [= <- <-]. split; [done|].
    rewrite (Hd2 eq_refl), (Hd1 eq_refl) in *. unfold durable in *. rewrite Hm in Hn1. rewrite Hb in Hn2. 
    rewrite Hm, Hb. destruct mo, bo; done.
Qed.

Lemma body_io_inv {A} operation (m : io A) w w' r :
  body_io operation m w = (w', r) ->
  exists r', m w = (w', r') /\
    r = map_err (SnapshotIo operation (path_display pending_snapshot_transfer_body_path)) r'.
Proof. unfold body_io. destruct (m w) as [w1 r1]. intros [= <- <-]. eauto. Qed.

Lemma inspect_disk {A} (look : Disk -> result A StorageIoError) w w' r : inspect look w = (w', r) -> disk w' = disk w.
Proof. by intros [H _]%inspect_spec. Qed.

(** Appending after a cut leaves the name to the file, and once synced the
    bytes. *)
Lemma cut_append_spec path keep bytes w w1 r1 w2 r2 body :
  durable (disk w) path (Some body) ->
  ((set_len path keep w = (w1, r1) /\ N.to_nat keep <= length body)%nat \/ (w1 = w /\ r1 = Ok tt /\ keep = length_u64 body)) ->
  (r1 = Ok tt -> (let* _ := write_all path bytes in sync_data path) w1 = (w2, r2)) ->
  only [path] (disk w) (disk w1) /\
  (r1 = Ok tt -> only [path] (disk w) (disk w2) /\
     (r2 = Ok tt -> durable (disk w2) path (Some (take (N.to_nat keep) body ++ bytes)))).
Proof.
  intros Hd H1 H2.
  assert (only [path] (disk w) (disk w1) /\ (r1 = Ok tt -> exists f, entry_now (entry (disk w1) path) = Some f /\
    file_data f = take (N.to_nat keep) body /\ entry_was (entry (disk w1) path) = [])) as [Ho1 Hf1].
  { destruct H1 as [[H1 Hk]|(-> & -> & ->)].
    - apply change_atomic_spec in H1 as [[-> ->]|(error & -> & Hd1)].
      + split; [apply only_alter|]. intros _. rewrite entry_alter, Hd. simpl. by eexists.
      + split; [|done]. destruct Hd1 as [-> | ->]; [done|apply only_alter].
    - split; [done|]. intros _. rewrite Hd. simpl. eexists. split_and!; [done| |done]. simpl. unfold length_u64.
      by rewrite Nat2N.id, firstn_all. }
  split; [done|]. intros Hr1. destruct (Hf1 Hr1) as (f & Hf & Hdata & Hwas). specialize (H2 Hr1).
  apply io_bind_inv in H2 as [(w3 & [] & H3 & H4)|(error & H3 & ->)].
  - apply change_spec in H3 as [[_ Hd3]|(? & ? & [=] & _)].
    assert (only [path] (disk w) (disk w3)) as Ho3 by (etrans; [done|]; rewrite Hd3; apply only_alter).
    apply change_atomic_spec in H4 as [[-> Hd4]|(error & -> & Hd4)].
    + split; [etrans; [done|]; rewrite Hd4; apply only_alter|]. intros _. unfold durable.
      rewrite Hd4, entry_alter, Hd3, entry_alter. unfold update_file. simpl. rewrite Hf, Hwas. simpl. by rewrite Hdata.
    + split; [|done]. etrans; [done|]. destruct Hd4 as [-> | ->]; [done|apply only_alter].
  - apply change_spec in H3 as [[[=] _]|(? & k & _ & ->)]. split; [|done]. etrans; [done|]. apply only_alter.
Qed.

Lemma append_body_spec chunk w w' r body :
  durable (disk w) pending_snapshot_transfer_body_path (Some body) -> ssc_offset chunk <= length_u64 body ->
  append_pending_snapshot_body chunk w = (w', r) ->
  only [pending_snapshot_transfer_body_path] (disk w) (disk w') /\
  (r = Ok tt -> durable (disk w') pending_snapshot_transfer_body_path
     (Some (take (N.to_nat (ssc_offset chunk)) body ++ ssc_bytes chunk))).
Proof.
  intros Hd Hoff. unfold append_pending_snapshot_body.
  destruct (body_io _ (open_append _) w) as [w1 r1] eqn:H1. apply body_io_inv in H1 as (r1' & H1 & ->).
  assert (only [pending_snapshot_transfer_body_path] (disk w) (disk w1) /\ durable (disk w1) pending_snapshot_transfer_body_path (Some body)) as [Ho1 Hd1].
  { apply change_atomic_spec in H1 as [[_ ->]|(? & _ & [-> | ->])]; (split; [try apply only_alter; done|]); try done; by apply reopen_settled. }
  destruct r1' as [[]|]; simpl; [|by intros [= <- <-]].
  destruct (body_io _ (file_len _) w1) as [w2 r2] eqn:H2. apply body_io_inv in H2 as (r2' & H2 & ->).
  apply inspect_spec in H2 as [Hd2 H2]. destruct r2' as [len|]; simpl; [|intros [= <- <-]; by rewrite Hd2].
  rewrite Hd1 in H2. simpl in H2. destruct H2 as [[= ->]|(? & [=] & _)].
  destruct (N.ltb_spec (length_u64 body) (ssc_offset chunk)); [lia|]. rewrite <- Hd2 in Ho1, Hd1.
  destruct (if ssc_offset chunk <? length_u64 body then _ else _) as [w3 r3] eqn:H3.
  assert (exists r3', r3 = map_err (SnapshotIo "truncate pending snapshot transfer body to staged length"
      (path_display pending_snapshot_transfer_body_path)) r3' /\
    ((set_len pending_snapshot_transfer_body_path (ssc_offset chunk) w2 = (w3, r3') /\ N.to_nat (ssc_offset chunk) <= length body)%nat \/
     (w3 = w2 /\ r3' = Ok tt /\ ssc_offset chunk = length_u64 body))) as (r3' & -> & Hcut).
  { destruct (N.ltb_spec (ssc_offset chunk) (length_u64 body)).
    - apply body_io_inv in H3 as (r3' & H3 & ->). exists r3'. split; [done|]. left. split; [done|]. unfold length_u64 in *. lia.
    - injection H3 as <- <-. exists (Ok tt). split; [done|]. right. split_and!; [done|done|lia]. }
  destruct r3' as [[]|error]; simpl.
  - intros H4. apply body_io_inv in H4 as (r4 & H4 & ->).
    destruct (cut_append_spec _ _ (ssc_bytes chunk) _ _ _ w' r4 _ Hd1 Hcut) as [_ H5]; [done|].
    destruct (H5 eq_refl) as [Ho4 H6]. split; [by etrans|]. destruct r4 as [[]|]; simpl; [|done]. intros _. by apply H6.
  - intros [= <- <-]. split; [|done]. etrans; [done|].
    by destruct (cut_append_spec _ _ (ssc_bytes chunk) _ _ _ w3 (Ok tt) _ Hd1 Hcut) as [Ho3 _].
Qed.

Lemma body_chunk_spec chunk w w' r bo :
  durable (disk w) pending_snapshot_transfer_body_path bo ->
  (ssc_offset chunk <> 0 -> exists body, bo = Some body /\ ssc_offset chunk <= length_u64 body) ->
  write_pending_snapshot_body_chunk chunk w = (w', r) ->
  only [temp_body_path (process_id w); pending_snapshot_transfer_body_path] (disk w) (disk w') /\
  (r = Ok tt -> durable (disk w') pending_snapshot_transfer_body_path
     (Some (take (N.to_nat (ssc_offset chunk)) (default [] bo) ++ ssc_bytes chunk))).
Proof.
  intros Hd Hoff. unfold write_pending_snapshot_body_chunk. destruct (N.eqb_spec (ssc_offset chunk) 0) as [->|Hne].
  - unfold rewrite_pending_snapshot_body. intros H%write_temp_and_rename_spec; [|done]. destruct H as [Ho H]. split; [done|].
    intros ->. exact H.
  - destruct (Hoff Hne) as (body & -> & Hle). intros [Ho H]%(append_body_spec _ _ _ _ body); [|done|done].
    split; [eapply only_weaken; [done|set_solver]|done].
Qed.

(** ** The laws of the store *)

(** Names outside the store's directory are left alone. *)
Definition inside (d d' : Disk) : Prop :=
  forall q, parent_directory q = NodeDirectory -> calmer (entry d q) (entry d' q).

#[export] Instance inside_preorder : PreOrder inside.
Proof. split; [by intros d q _|]. intros a b c H1 H2 q Hq. etrans; [by apply H1|by apply H2]. Qed.

Lemma only_inside ps d d' :
  only ps d d' -> Forall (fun path => parent_directory path = SnapshotDirectory) ps -> inside d d'.
Proof. intros Ho Hps q Hq. apply Ho. intros Hin. rewrite Forall_forall in Hps. apply Hps in Hin. congruence. Qed.

(** A chunk of the machine types. *)
Definition chunk_fits (chunk : StagedSnapshotChunk) : Prop :=
  fits64 (ssc_leader_id chunk) /\ fits64 (ssc_transfer_id chunk) /\ metadata_valid (ssc_metadata chunk) /\
  fits64 (ssc_total_payload_len chunk) /\ fits32 (ssc_application_payload_crc32 chunk).

Definition manifest_after (chunk : StagedSnapshotChunk) (received : u64) (crc : RunningCrc32) : PendingTransferManifest :=
  {| ptm_leader_id := ssc_leader_id chunk; ptm_transfer_id := ssc_transfer_id chunk;
     ptm_metadata := ssc_metadata chunk; ptm_total_payload_len := ssc_total_payload_len chunk;
     ptm_application_payload_crc32 := ssc_application_payload_crc32 chunk;
     ptm_received_payload_len := received; ptm_body_checksum := RunningCrc32_value crc |}.

Lemma validate_staged_chunk_Ok chunk current v :
  validate_staged_chunk chunk current = Ok v ->
  validated_received_len v = ssc_offset chunk + length_u64 (ssc_bytes chunk) /\ fits64 (validated_received_len v) /\
  validated_received_len v <= ssc_total_payload_len chunk /\
  ssc_transfer_id chunk = transfer_id (RaftSnapshot_new (ssc_metadata chunk) (ssc_total_payload_len chunk) (ssc_application_payload_crc32 chunk)) /\
  (ssc_offset chunk <> 0 -> exists t, current = Some t /\ pst_received_len t = ssc_offset chunk).
Proof.
  unfold validate_staged_chunk, u64_checked_add. destruct (N.leb_spec (ssc_offset chunk + length_u64 (ssc_bytes chunk)) u64_max) as [Hm|]; [|done].
  destruct (N.ltb_spec (ssc_total_payload_len chunk) (ssc_offset chunk + length_u64 (ssc_bytes chunk))); [done|].
  case_match; [done|]. case_match; [done|]. destruct (N.eqb_spec (ssc_transfer_id chunk) (transfer_id (RaftSnapshot_new (ssc_metadata chunk)
    (ssc_total_payload_len chunk) (ssc_application_payload_crc32 chunk)))) as [Ht|]; [|done]. simpl.
  destruct (validate_continuation chunk current) as [[]|] eqn:Hc; [|done]. intros [= <-]. simpl. split_and!; try done.
  { unfold fits64, u64_max in *. lia. }
  intros Hne. unfold validate_continuation in Hc. apply N.eqb_neq in Hne. rewrite Hne in Hc. destruct current as [t|]; [|done].
  case_match; [done|]. destruct (N.eqb_spec (ssc_offset chunk) (pst_received_len t)); [|done]. by exists t.
Qed.

Lemma manifest_after_valid chunk current v crc body :
  chunk_fits chunk -> metadata_sized (ssc_metadata chunk) -> validate_staged_chunk chunk current = Ok v ->
  crc = crc_of body -> pending_valid (manifest_after chunk (validated_received_len v) crc).
Proof.
  intros (Hl & Ht & Hm & Htot & Hc) Hs Hv ->. apply validate_staged_chunk_Ok in Hv as (_ & Hf & Hle & Hid & _).
  split; [|done]. unfold pending_fields_fit. split_and!; try done. apply crc32_small.
Qed.

(** The manifest that publishes [p]. *)
Definition publishes (manifest : option (list u8)) (p : option PendingSnapshotTransfer) : Prop :=
  match manifest with
  | None => p = None
  | Some bytes => exists m, pending_valid m /\ bytes = pending_bytes m /\ p = Some (transfer_of m)
  end.

Lemma publishes_staged manifest p body :
  publishes manifest p -> exists p', (p' = p \/ p' = None) /\ staged_in manifest body p'.
Proof.
  destruct manifest as [bytes|]; simpl; [|intros ->; exists None; by auto]. intros (m & Hm & -> & ->).
  destruct (staged_in_body m body Hm); eauto.
Qed.

Lemma stage_pending_law chunk current v before w w' r mo bo p :
  chunk_fits chunk -> validate_staged_chunk chunk current = Ok v ->
  durable (disk w) pending_snapshot_transfer_path mo -> durable (disk w) pending_snapshot_transfer_body_path bo ->
  publishes mo p -> before = crc_of (take (N.to_nat (ssc_offset chunk)) (default [] bo)) ->
  (ssc_offset chunk <> 0 -> exists body, bo = Some body /\ ssc_offset chunk <= length_u64 body) ->
  stage_pending_snapshot_chunk chunk (validated_received_len v) before w = (w', r) ->
  exists t t', only [temp_body_path t; pending_snapshot_transfer_body_path; temp_pending_snapshot_transfer_path t'; pending_snapshot_transfer_path]
    (disk w) (disk w') /\
  match r with
  | Ok crc => pending_holds (disk w') (Some {| staged_pending := pending_transfer_after_chunk chunk v; staged_body_crc := crc |})
  | Err _ => forall files, leaves (disk w') files -> exists p', (p' = p \/ p' = None \/ p' = Some (pending_transfer_after_chunk chunk v)) /\
      staged files p'
  end.
Proof.
  intros Hfit Hv Hm Hb Hs -> Hoff. unfold stage_pending_snapshot_chunk. cbv zeta. rewrite crc_of_app.
  set (body := take _ (default [] bo) ++ ssc_bytes chunk). fold (manifest_after chunk (validated_received_len v) (crc_of body)).
  set (m := manifest_after chunk (validated_received_len v) (crc_of body)).
  assert (forall d files, leaves d files -> publishes (files pending_snapshot_transfer_path) p -> exists p',
    (p' = p \/ p' = None \/ p' = Some (pending_transfer_after_chunk chunk v)) /\ staged files p') as Hold.
  { intros d files Hl Hpub. destruct (publishes_staged _ _ (files pending_snapshot_transfer_body_path) Hpub) as (p' & Hp & Hst).
    exists p'. split; [naive_solver|done]. }
  destruct (encode_pending_snapshot_transfer_manifest m) as [encoded|] eqn:Henc.
  2: { intros [= <- <-]. exists 0, 0. split; [done|]. intros files Hl. eapply Hold; [done|]. by rewrite (leaves_durable _ _ _ _ Hl Hm). }
  apply encode_pending_Ok in Henc as [Hsize ->]; [|apply Hfit].
  destruct (write_pending_snapshot_body_chunk chunk w) as [w1 r1] eqn:H1.
  apply (body_chunk_spec _ _ _ _ _ Hb Hoff) in H1 as [Ho1 H1].
  intros Hrun. exists (process_id w), (process_id w1). revert Hrun.
  assert (durable (disk w1) pending_snapshot_transfer_path mo) as Hm1 by (eapply durable_only; [done|set_solver|done]).
  destruct r1 as [[]|error].
  2: { intros [= <- <-]. split; [eapply only_weaken; [done|set_solver]|]. intros files Hl. eapply Hold; [done|].
       by rewrite (leaves_durable _ _ _ _ Hl Hm1). }
  specialize (H1 eq_refl). fold body in H1.
  destruct (write_temp_and_rename _ _ _ _ _ _ _ w1) as [w2 r2] eqn:H2.
  apply write_temp_and_rename_spec in H2 as [Ho2 H2]; [|done].
  assert (pending_valid m) as Hmv by by eapply manifest_after_valid.
  assert (transfer_of m = pending_transfer_after_chunk chunk v) as Htr by done.
  assert (durable (disk w2) pending_snapshot_transfer_body_path (Some body)) as Hb2 by (eapply durable_only; [done|set_solver|done]).
  destruct r2 as [[]|error]; intros [= <- <-]; (split; [etrans; (eapply only_weaken; [done|set_solver])|]).
  - apply validate_staged_chunk_Ok in Hv as (Hr & _ & _ & _ & _).
    assert (validated_received_len v = length_u64 body) as Hlen.
    { rewrite Hr. unfold body. rewrite length_u64_app. f_equal. destruct (decide (ssc_offset chunk = 0)) as [->|Hne]; [done|].
      destruct (Hoff Hne) as (b & -> & Hle). simpl. by rewrite length_u64_take. }
    assert (take (N.to_nat (validated_received_len v)) body = body) as Htake.
    { rewrite Hlen. unfold length_u64. by rewrite Nat2N.id, firstn_all. }
    exists m, body. split_and!; try done.
    + split; [simpl; lia|]. simpl. by rewrite Htake.
    + simpl. by rewrite Htake.
  - intros files Hl. destruct (H2 _ (Hl pending_snapshot_transfer_path)) as [Hmay|Hnew].
    + eapply Hold; [done|]. rewrite Hm1 in Hmay. apply may_settled in Hmay. by rewrite Hmay.
    + unfold staged. rewrite Hnew. destruct (staged_in_body m (files pending_snapshot_transfer_body_path) Hmv); eauto.
Qed.

Lemma pending_holds_publishes d p :
  pending_holds d p -> exists mo bo, durable d pending_snapshot_transfer_path mo /\
    durable d pending_snapshot_transfer_body_path bo /\ publishes mo (staged_pending <$> p) /\ staged_in mo bo (staged_pending <$> p) /\
    (forall st, p = Some st -> exists body, bo = Some body /\ pst_received_len (staged_pending st) <= length_u64 body /\
       staged_body_crc st = crc_of (take (N.to_nat (pst_received_len (staged_pending st))) body)).
Proof.
  destruct p as [st|]; simpl.
  - intros (m & body & Hm & Hb & Hd & Hd' & Ht & Hc). exists (Some (pending_bytes m)), (Some body).
    split_and!; [done|done| | |].
    + exists m. by rewrite Ht.
    + exists m. rewrite decide_True, Ht by done. done.
    + intros st' [= <-]. exists body. rewrite Ht. split_and!; [done|apply Hb|done].
  - intros [Hd [body Hb]]. exists None, body. by split_and!.
Qed.

(** ** Writing a snapshot *)

(** A source of chunks reads and gives what it was asked for. *)
Definition serves (read_chunk : ReadChunk) (payload_len : u64) : Prop :=
  forall offset len w w' r, read_chunk offset len w = (w', r) ->
    disk w' = disk w /\ (forall bytes, r = Ok bytes -> offset + len <= payload_len -> length_u64 bytes = len).

Lemma write_all_spec path bytes w w' r f :
  entry_now (entry (disk w) path) = Some f -> write_all path bytes w = (w', r) ->
  only [path] (disk w) (disk w') /\
  (r = Ok tt -> exists f', entry_now (entry (disk w') path) = Some f' /\ file_data f' = file_data f ++ bytes).
Proof.
  intros Hf [[-> ->]|(error & k & -> & ->)]%change_spec; (split; [apply only_alter|]); [|done]. intros _.
  rewrite entry_alter. simpl. rewrite Hf. simpl. by eexists.
Qed.

(** The loop has enough rounds: the whole payload is written. *)
Lemma write_payload_chunks_spec fuel temp len read_chunk w s offset pc ec w' s' r f :
  serves read_chunk len -> entry_now (entry (disk w) temp) = Some f ->
  (offset < len -> len - offset <= N.of_nat fuel * SNAPSHOT_STREAM_CHUNK_BYTES) -> offset <= len ->
  write_payload_chunks fuel temp len read_chunk w s offset (crc_of pc) (crc_of ec) = (w', s', r) ->
  only [temp] (disk w) (disk w') /\
  (forall crcs, r = Ok crcs -> s' = s /\ exists payload f', length_u64 payload = len - offset /\
     entry_now (entry (disk w') temp) = Some f' /\ file_data f' = file_data f ++ payload /\
     crcs = (crc_of (pc ++ payload), crc_of (ec ++ payload))).
Proof.
  intros Hread. revert w offset pc ec f. induction fuel as [|fuel IH]; intros w offset pc ec f Hf Hfuel Hle; simpl.
  - destruct (N.ltb_spec offset len) as [Hlt|Hge]; simpl; [specialize (Hfuel Hlt); lia|]. intros [= <- <- <-].
    split; [done|]. intros crcs [= <-]. split; [done|]. exists [], f. rewrite !app_nil_r. split_and!; [|done|done|done].
    unfold length_u64. simpl. lia.
  - destruct (N.ltb_spec offset len) as [Hlt|Hge]; simpl.
    2: { intros [= <- <- <-]. split; [done|]. intros crcs [= <-]. split; [done|]. exists [], f. rewrite !app_nil_r.
         split_and!; [|done|done|done]. unfold length_u64. simpl. lia. }
    set (n := stream_chunk_len (len - offset) SNAPSHOT_STREAM_CHUNK_BYTES).
    assert (n = N.min (len - offset) SNAPSHOT_STREAM_CHUNK_BYTES) as Hn by done. clearbody n.
    destruct (read_chunk offset n w) as [w1 r1] eqn:H1. apply Hread in H1 as [Hd1 H1].
    destruct r1 as [bytes|]; [|intros [= <- <- <-]; by rewrite Hd1].
    specialize (H1 bytes eq_refl ltac:(lia)). rewrite <- Hd1 in Hf.
    destruct (write_all temp bytes w1) as [w2 r2] eqn:H2. apply (write_all_spec _ _ _ _ _ _ Hf) in H2 as [Ho2 H2].
    rewrite Hd1 in Ho2. destruct r2 as [[]|]; [|intros [= <- <- <-]; by split].
    destruct (H2 eq_refl) as (f2 & Hf2 & Hdata). rewrite !crc_of_app. specialize (Hfuel Hlt).
    intros [Ho3 H3]%(IH _ _ _ _ f2 Hf2); [|unfold SNAPSHOT_STREAM_CHUNK_BYTES in *; lia|lia].
    split; [by etrans|]. intros crcs ->. destruct (H3 crcs eq_refl) as (-> & payload & f3 & Hl & Hf3 & Hd3 & ->).
    split; [done|]. exists (bytes ++ payload), f3. rewrite length_u64_app, !app_assoc, Hd3, Hdata, <- !app_assoc.
    split_and!; [lia|done|done|done].
Qed.

Lemma write_trailer_spec temp a b w w' r f :
  entry_now (entry (disk w) temp) = Some f ->
  (let* _ := write_all temp a in let* _ := write_all temp b in sync_data temp) w = (w', r) ->
  only [temp] (disk w) (disk w') /\
  (r = Ok tt -> entry_now (entry (disk w') temp) = Some (clean (file_data f ++ a ++ b))).
Proof.
  intros Hf [(w1 & [] & H1 & H2)|(error & H1 & ->)]%io_bind_inv; apply (write_all_spec _ _ _ _ _ _ Hf) in H1 as [Ho1 H1]; [|by split].
  destruct (H1 eq_refl) as (f1 & Hf1 & Hd1).
  apply io_bind_inv in H2 as [(w2 & [] & Hw & H3)|(error & Hw & ->)]; destruct (write_all_spec _ _ _ _ _ _ Hf1 Hw) as [Ho2 Hok];
    [|split; [by etrans|done]].
  destruct (Hok eq_refl) as (f2 & Hf2 & Hd2). apply change_atomic_spec in H3 as [[-> Hd3]|(error & -> & Hd3)].
  - split; [etrans; [done|]; etrans; [done|]; rewrite Hd3; apply only_alter|]. intros _. rewrite Hd3, entry_alter. simpl.
    rewrite Hf2. simpl. by rewrite Hd2, Hd1, app_assoc.
  - split; [|done]. etrans; [done|]. etrans; [done|]. destruct Hd3 as [-> | ->]; [done|apply only_alter].
Qed.

Lemma write_snapshot_temp_spec w s temp meta len expected read_chunk w' s' r :
  serves read_chunk len ->
  write_snapshot_temp w s temp (put_header meta len) len (Some expected) read_chunk = (w', s', r) ->
  only [temp] (disk w) (disk w') /\
  (r = Ok tt -> s' = s /\ exists payload, length_u64 payload = len /\ crc32 payload = expected /\
     entry_now (entry (disk w') temp) = Some (clean (snapshot_bytes meta payload))).
Proof.
  intros Hread. unfold write_snapshot_temp. destruct (open_truncate temp w) as [w1 r1] eqn:H1.
  apply open_truncate_spec in H1 as [Ho1 H1]. destruct r1 as [[]|]; [|intros [= <- <- <-]; by split].
  destruct (H1 eq_refl) as (f1 & Hf1 & Hd1).
  destruct (write_all temp _ w1) as [w2 r2] eqn:H2. apply (write_all_spec _ _ _ _ _ _ Hf1) in H2 as [Ho2 H2].
  assert (only [temp] (disk w) (disk w2)) as Ho by by etrans.
  destruct r2 as [[]|]; [|intros [= <- <- <-]; by split]. destruct (H2 eq_refl) as (f2 & Hf2 & Hd2).
  rewrite Hd1, app_nil_l in Hd2. change RunningCrc32_new with (crc_of []) at 1. fold (crc_of (put_header meta len)).
  destruct (write_payload_chunks _ _ _ _ _ _ _ _ _) as [[w3 s3] r3] eqn:H3.
  apply (write_payload_chunks_spec _ _ _ _ _ _ _ _ _ _ _ _ f2) in H3 as [Ho3 H3]; [|done|done| |lia].
  2: { intros _. rewrite N2Nat.id. pose proof (N.div_mod' len SNAPSHOT_STREAM_CHUNK_BYTES).
       pose proof (N.mod_lt len SNAPSHOT_STREAM_CHUNK_BYTES ltac:(done)). lia. }
  destruct r3 as [[pc ec]|error]; [|intros [= <- <- <-]; split; [by etrans|done]].
  destruct (H3 _ eq_refl) as (-> & payload & f3 & Hl & Hf3 & Hd3 & [-> ->]%pair_equal_spec).
  rewrite N.sub_0_r in Hl.
  rewrite app_nil_l, crc_of_value. cbn [mbind option_bind].
  destruct (N.eqb_spec (crc32 payload) expected) as [Hcrc|]; cbn [negb]; [|intros [= <- <- <-]; split; [by etrans|done]].
  rewrite crc_of_app, crc_of_value. destruct (io_bind _ _ w3) as [w4 r4] eqn:H4.
  apply (write_trailer_spec _ _ _ _ _ _ _ Hf3) in H4 as [Ho4 H4].
  assert (only [temp] (disk w) (disk w4)) as Ho' by (etrans; [done|]; by etrans).
  destruct r4 as [[]|]; intros [= <- <- <-]; (split; [done|]); [|done]. intros _. split; [done|]. exists payload.
  split_and!; [done|done|]. rewrite (H4 eq_refl), Hd3, Hd2. unfold snapshot_bytes, finish_checksummed.
  rewrite Hl, <- !app_assoc. done.
Qed.

Section snapshot_laws.
Context (w : World) (s : FileRaftSnapshotStore).
Hypothesis Hholds : snapshots_hold (disk w) s.

(** Names the current snapshot does not use. *)
Lemma current_kept ps d' :
  only ps (disk w) d' -> manifest_path ∉ ps ->
  Forall (fun path => (exists t, path ∈ reserved t) \/ entry_now (entry (disk w) path) = None) ps ->
  current_holds d' (fsn_current s).
Proof.
  destruct Hholds as (_ & _ & Hc & _). intros Ho Hm Hps. eapply current_holds_only; [done|done| |done].
  intros c Hc'. rewrite Hc' in Hc. destruct Hc as (m & _ & meta & payload & _ & Hown & _ & _ & _ & _ & Hd & Hn & _). rewrite Hn.
  intros Hin. rewrite Forall_forall in Hps. destruct (Hps _ Hin) as [[t Ht]|Hnone]; [by eapply own_name_reserved|].
  by rewrite Hd in Hnone.
Qed.

Lemma leaves_selects d' files :
  current_holds d' (fsn_current s) -> leaves d' files -> selects files (file_current_snapshot s).
Proof. intros Hc Hl. by eapply current_holds_selects. Qed.

Lemma holds_leaves files :
  leaves (disk w) files -> selects files (file_current_snapshot s) /\ staged files (fsn_staged_transfer s).
Proof.
  destruct Hholds as (_ & _ & Hc & _ & Hp). intros Hl. split; [by eapply current_holds_selects|by eapply pending_holds_staged].
Qed.

Lemma directory_kept d' : inside (disk w) d' -> durable d' snapshots_path (Some []).
Proof. destruct Hholds as (_ & Hd & _). intros Hi. apply calmer_settled. rewrite <- Hd. by apply Hi. Qed.

Lemma stage_law chunk w' s' r :
  chunk_fits chunk -> file_stage_snapshot_chunk w s chunk = (w', s', r) ->
  inside (disk w) (disk w') /\
  match r with
  | Ok _ => snapshots_hold (disk w') s' /\ fsn_current s' = fsn_current s /\
      exists v, validate_staged_chunk chunk (fsn_staged_transfer s) = Ok v /\
        fsn_staged_transfer s' = Some (pending_transfer_after_chunk chunk v)
  | Err _ => forall files, leaves (disk w') files -> selects files (file_current_snapshot s) /\ exists p,
      (p = fsn_staged_transfer s \/ p = None \/
       exists v, validate_staged_chunk chunk (fsn_staged_transfer s) = Ok v /\ p = Some (pending_transfer_after_chunk chunk v)) /\
      staged files p
  end.
Proof.
  intros Hfit. unfold file_stage_snapshot_chunk. pose proof Hholds as (Hh & Hdir & Hc & Hseq & Hp). rewrite Hh. cbn [is_reopen_required].
  assert (forall files, leaves (disk w) files -> selects files (file_current_snapshot s) /\ exists p,
    (p = fsn_staged_transfer s \/ p = None \/ exists v, validate_staged_chunk chunk (fsn_staged_transfer s) = Ok v /\
       p = Some (pending_transfer_after_chunk chunk v)) /\ staged files p) as Hsame.
  { intros files [H1 H2]%holds_leaves. eauto 6. }
  destruct (validate_staged_chunk chunk (fsn_staged_transfer s)) as [v|error] eqn:Hv; [|intros [= <- <- <-]; by split].
  destruct (pending_holds_publishes _ _ Hp) as (mo & bo & Hm & Hb & Hpub & _ & Hst).
  pose proof Hv as (_ & _ & _ & _ & Hcont)%validate_staged_chunk_Ok.
  destruct (if ssc_offset chunk =? 0 then _ else _) as [before|] eqn:Hbefore; [|intros [= <- <- <-]; by split].
  assert (before = crc_of (take (N.to_nat (ssc_offset chunk)) (default [] bo)) /\
    (ssc_offset chunk <> 0 -> exists body, bo = Some body /\ ssc_offset chunk <= length_u64 body)) as [Hcrc Hoff].
  { destruct (N.eqb_spec (ssc_offset chunk) 0) as [->|Hne]; [by injection Hbefore as <-|].
    apply fmap_Some in Hbefore as (st & Hst' & ->). destruct (Hst st Hst') as (body & -> & Hle & ->).
    destruct (Hcont Hne) as (t & Ht & Hr). unfold fsn_staged_transfer in Ht. rewrite Hst' in Ht. injection Ht as <-.
    rewrite Hr in *. split; [done|]. intros _. by exists body. }
  destruct (stage_pending_snapshot_chunk chunk _ before w) as [w1 r1] eqn:H1.
  apply (stage_pending_law _ _ _ _ _ _ _ _ _ _ Hfit Hv Hm Hb Hpub Hcrc Hoff) in H1 as (t & t' & Ho & H1).
  assert (inside (disk w) (disk w1)) as Hi by (eapply only_inside; [done|by repeat constructor]).
  assert (current_holds (disk w1) (fsn_current s)) as Hc1.
  { eapply current_kept; [done|not_listed|].
    repeat (constructor; [left; first [exists t; by in_reserved|exists t'; by in_reserved]|]). done. }
  destruct r1 as [crc|error]; intros [= <- <- <-]; (split; [done|]).
  - split; [|split; [done|by exists v]]. split_and!; try done. by apply directory_kept.
  - intros files Hl. split; [by eapply leaves_selects|]. destruct (H1 files Hl) as (p & Hp' & Hs'). exists p. split; [|done].
    destruct Hp' as [-> |[-> | ->]]; eauto.
Qed.

Lemma clear_law w' s' r :
  file_clear_pending w s = (w', s', r) ->
  only [pending_snapshot_transfer_path; pending_snapshot_transfer_body_path] (disk w) (disk w') /\
  fsn_current s' = fsn_current s /\
  match r with
  | Ok _ => snapshots_hold (disk w') s' /\ fsn_pending s' = None
  | Err _ => forall files, leaves (disk w') files -> selects files (file_current_snapshot s) /\ exists p,
      (p = fsn_staged_transfer s \/ p = None) /\ staged files p
  end.
Proof.
  unfold file_clear_pending. pose proof Hholds as (Hh & Hdir & Hc & Hseq & Hp). rewrite Hh. cbn [is_reopen_required].
  destruct (pending_holds_publishes _ _ Hp) as (mo & bo & Hm & Hb & _ & Hst & _).
  destruct (clear_staging w) as [w1 r1] eqn:H1. apply (clear_staging_spec _ _ _ _ _ _ Hm Hb Hst) in H1 as [Ho H1].
  assert (inside (disk w) (disk w1)) as Hi by (eapply only_inside; [done|by repeat constructor]).
  assert (current_holds (disk w1) (fsn_current s)) as Hc1.
  { eapply current_kept; [done|not_listed|]. repeat (constructor; [left; exists 0; by in_reserved|]). done. }
  destruct r1 as [[]|error]; intros [= <- <- <-]; (split; [done|]).
  - destruct H1 as [H1 H1']. split; [done|]. split; [|done]. split_and!; try done; [by apply directory_kept|by split; [|exists None]].
  - split; [by destruct error|]. intros files Hl. split; [by eapply leaves_selects|]. destruct (H1 files Hl); eauto.
Qed.
End snapshot_laws.

(** ** Naming a snapshot *)

Lemma try_exists_spec path w w' r present :
  try_exists path w = (w', r) -> disk w' = disk w /\
  (r = Ok present -> present = (if entry_now (entry (disk w) path) is Some _ then true else false)).
Proof. intros [Hd H]%inspect_spec. split; [done|]. intros ->. by destruct H as [[= ->]|(? & [=] & _)]. Qed.

Lemma free_sequence_spec fuel w s snapshot n w' s' r :
  fits64 n -> free_sequence fuel w s snapshot n = (w', s', r) -> disk w' = disk w /\
  forall path name sequence, r = Ok (path, name, sequence) ->
    s' = s /\ path = snapshot_path name /\ name = snapshot_file_name sequence snapshot /\ fits64 sequence /\
    entry_now (entry (disk w) path) = None.
Proof.
  revert w n. induction fuel as [|fuel IH]; intros w n Hn; simpl; [by intros [= <- <- <-]|].
  destruct (try_exists _ w) as [w1 r1] eqn:H1. destruct r1 as [[]|error].
  - apply (try_exists_spec _ _ _ _ true) in H1 as [Hd _]. destruct (u64_checked_add n 1) as [n'|] eqn:Hadd; [|by intros [= <- <- <-]].
    rewrite <- Hd. apply IH. unfold u64_checked_add in Hadd. destruct (N.leb_spec (n + 1) u64_max); [|done].
    injection Hadd as <-. unfold fits64, u64_max in *. lia.
  - apply (try_exists_spec _ _ _ _ false) in H1 as [Hd Hnone]. intros [= <- <- <-]. split; [done|].
    intros path name sequence [= <- <- <-]. split_and!; try done. specialize (Hnone eq_refl). by case_match.
  - apply (try_exists_spec _ _ _ _ true) in H1 as [Hd _]. by intros [= <- <- <-].
Qed.

(** *** The search ends *)

Lemma list_byte_of_string_inj a b : list_byte_of_string a = list_byte_of_string b -> a = b.
Proof. intros Heq. by rewrite <- (string_of_list_byte_of_string a), Heq, string_of_list_byte_of_string. Qed.

Lemma snapshot_file_name_inj snapshot n m : snapshot_file_name n snapshot = snapshot_file_name m snapshot -> n = m.
Proof.
  unfold snapshot_file_name. intros Heq. apply (f_equal list_byte_of_string) in Heq.
  rewrite !(list_byte_of_string_app "snapshot-"), (list_byte_of_string_app (pretty n)), (list_byte_of_string_app (pretty m)) in Heq.
  apply app_inv_head, app_inv_tail, list_byte_of_string_inj in Heq. by apply (inj pretty) in Heq.
Qed.

(** A name that is taken. *)
Definition taken (d : Disk) (snapshot : RaftSnapshot) (sequence : N) : Prop :=
  entry_now (entry d (snapshot_path (snapshot_file_name sequence snapshot))) <> None.

Lemma taken_bound (d : Disk) snapshot (n : N) (count : nat) :
  (forall k, (k < count)%nat -> taken d snapshot (n + N.of_nat k)) -> (count <= size d)%nat.
Proof.
  intros Ht. set (paths := (fun k => snapshot_path (snapshot_file_name (n + N.of_nat k) snapshot)) <$> seq 0 count).
  assert (NoDup paths) as Hnd.
  { apply NoDup_fmap_2; [|apply NoDup_seq]. intros i j Hij. apply (f_equal snd), snapshot_file_name_inj in Hij. lia. }
  assert ((list_to_set paths : gset StorePath) ⊆ dom d) as Hsub.
  { intros path. unfold paths. rewrite elem_of_list_to_set, list_elem_of_fmap. intros (k & -> & Hk%elem_of_seq).
    apply elem_of_dom. destruct (d !! _) eqn:Hd; [done|]. destruct (Ht k); [lia|]. unfold entry. by rewrite Hd. }
  apply subseteq_size in Hsub. rewrite size_list_to_set, size_dom in Hsub by done.
  unfold paths in Hsub. by rewrite length_fmap, length_seq in Hsub.
Qed.

Lemma free_sequence_exhausted fuel w s snapshot n w' s' :
  n <= u64_max -> free_sequence fuel w s snapshot n = (w', s', Err SnapshotSequenceExhausted) ->
  (forall k, n <= k <= u64_max -> taken (disk w) snapshot k) \/
  (forall k, (k < fuel)%nat -> taken (disk w) snapshot (n + N.of_nat k)).
Proof.
  revert w n. induction fuel as [|fuel IH]; intros w n Hn; simpl; [right; lia|].
  destruct (try_exists _ w) as [w1 r1] eqn:H1. destruct r1 as [[]|error]; [|done|done].
  apply (try_exists_spec _ _ _ _ true) in H1 as [Hd Htrue]. specialize (Htrue eq_refl).
  assert (taken (disk w) snapshot n) as Ht by (unfold taken; by destruct (entry_now _)).
  unfold u64_checked_add. destruct (N.leb_spec (n + 1) u64_max) as [Hle|Hgt].
  - intros Hrun. destruct (IH _ _ Hle Hrun) as [Hall|Hall]; rewrite Hd in Hall; [left|right]; intros k Hk.
    + destruct (N.eq_dec k n) as [->|]; [done|]. apply Hall. lia.
    + destruct k as [|k]; [by rewrite N.add_0_r|]. replace (n + N.of_nat (S k)) with (n + 1 + N.of_nat k) by lia. apply Hall. lia.
  - intros _. left. intros k Hk. by replace k with n by lia.
Qed.

(** The search never gives up while a name is free. *)
Lemma snapshot_path_for_write_exhausted w s snapshot n w' s' :
  fsn_next_sequence s = Some n -> n <= u64_max ->
  snapshot_path_for_write w s snapshot = (w', s', Err SnapshotSequenceExhausted) ->
  forall k, n <= k <= u64_max -> taken (disk w) snapshot k.
Proof.
  unfold snapshot_path_for_write. intros -> Hn Hrun. destruct (free_sequence_exhausted _ _ _ _ _ _ _ Hn Hrun) as [Hall|Hall]; [done|].
  apply taken_bound in Hall. lia.
Qed.

(** ** Publishing a snapshot *)

Lemma publish_snapshot_file_spec w s temp path bytes w' s' r :
  temp <> path -> entry_now (entry (disk w) temp) = Some (clean bytes) ->
  publish_snapshot_file w s temp path = (w', s', r) ->
  only [temp; path] (disk w) (disk w') /\ (r = Ok tt -> s' = s /\ durable (disk w') path (Some bytes)).
Proof.
  intros Hne Ht. unfold publish_snapshot_file. destruct (select_temp temp path w) as [w1 r1] eqn:H1.
  apply (select_temp_spec _ _ _ _ _ _ Hne Ht) in H1 as [Ho H1].
  by destruct r1 as [[]|[[] error]]; intros [= <- <- <-]; split.
Qed.

Lemma publish_current_manifest_spec w s sequence name w' s' r :
  publish_current_manifest w s sequence name = (w', s', r) ->
  only [temp_manifest_path (process_id w); manifest_path] (disk w) (disk w') /\
  let m := {| manifest_sequence := sequence; manifest_file_name := name |} in
  match r with
  | Ok _ => s' = s /\ exists bytes, encode_manifest m = Ok bytes /\ durable (disk w') manifest_path (Some bytes)
  | Err _ => forall o, may (entry (disk w') manifest_path) o ->
      may (entry (disk w) manifest_path) o \/ exists bytes, encode_manifest m = Ok bytes /\ o = Some bytes
  end.
Proof.
  unfold publish_current_manifest. destruct (encode_manifest _) as [encoded|] eqn:He; [|by intros [= <- <- <-]; split; auto].
  destruct (write_temp_and_rename _ _ _ _ _ _ _ w) as [w1 r1] eqn:H1. apply write_temp_and_rename_spec in H1 as [Ho H1]; [|done].
  destruct r1 as [[]|error]; intros [= <- <- <-]; (split; [done|]); [by split; [|exists encoded]|].
  intros o [H|H]%H1; eauto.
Qed.

Lemma own_manifest_valid name sequence bytes :
  own_name name -> fits64 sequence ->
  encode_manifest {| manifest_sequence := sequence; manifest_file_name := name |} = Ok bytes ->
  manifest_valid {| manifest_sequence := sequence; manifest_file_name := name |}.
Proof.
  intros (q & snap & ->) Hseq [He _]%encode_manifest_Ok. split; [done|]. by apply snapshot_file_name_valid.
Qed.

Section writing.
Context (w : World) (s : FileRaftSnapshotStore).
Hypothesis Hholds : snapshots_hold (disk w) s.
Context (descriptor : RaftSnapshot).
Hypothesis Hvalid : metadata_valid (metadata descriptor).
Hypothesis Hlen : payload_fits (application_payload_len descriptor).

(** What a failed write may leave. *)
Definition torn_write (d : Disk) : Prop :=
  forall files, leaves d files -> exists c p,
    (c = file_current_snapshot s \/ c = Some descriptor) /\ (p = fsn_staged_transfer s \/ p = None) /\
    selects files c /\ staged files p.

Lemma torn_kept d : current_holds d (fsn_current s) -> pending_holds d (fsn_pending s) -> torn_write d.
Proof.
  intros Hc Hp files Hl. exists (file_current_snapshot s), (fsn_staged_transfer s).
  split_and!; [by left|by left|by eapply current_holds_selects|by eapply pending_holds_staged].
Qed.

(** The file's name is chosen and the envelope written there. *)
Definition placed (d : Disk) (name : string) (payload : list u8) : Prop :=
  own_name name /\ storable (metadata descriptor) /\ descriptor = from_payload (metadata descriptor) payload /\
  durable d (snapshot_path name) (Some (snapshot_bytes (metadata descriptor) payload)).

Lemma placed_fits d name payload : placed d name payload -> payload_fits (length_u64 payload).
Proof. intros (_ & _ & Hd & _). rewrite Hd in Hlen. apply Hlen. Qed.

Lemma placed_selects d name payload sequence bytes files :
  placed d name payload -> fits64 sequence ->
  encode_manifest {| manifest_sequence := sequence; manifest_file_name := name |} = Ok bytes ->
  files manifest_path = Some bytes -> may (entry d (snapshot_path name)) (files (snapshot_path name)) ->
  selects files (Some descriptor).
Proof.
  intros Hp Hseq He Hman Hfile. pose proof (placed_fits _ _ _ Hp). destruct Hp as (Hown & Hs & Hdesc & Hd).
  unfold selects. rewrite Hman. exists {| manifest_sequence := sequence; manifest_file_name := name |}, (metadata descriptor), payload.
  rewrite Hd in Hfile. apply may_settled in Hfile. split_and!; try done; [by eapply own_manifest_valid|by f_equal].
Qed.

Lemma placed_current d name payload sequence bytes :
  placed d name payload -> fits64 sequence ->
  encode_manifest {| manifest_sequence := sequence; manifest_file_name := name |} = Ok bytes ->
  durable d manifest_path (Some bytes) ->
  current_holds d (Some {| current_file_name := name; current_descriptor := descriptor;
    current_payload_offset := length_u64 (put_header (metadata descriptor) (application_payload_len descriptor)) |}).
Proof.
  intros Hp Hseq He Hman. pose proof (placed_fits _ _ _ Hp). destruct Hp as (Hown & Hs & Hdesc & Hd).
  exists {| manifest_sequence := sequence; manifest_file_name := name |}, bytes, (metadata descriptor), payload.
  split_and!; try done; [by eapply own_manifest_valid|]. simpl. by rewrite Hdesc.
Qed.

(** Everything but the envelope's name and the temporary files as before. *)
Lemma beside_kept ps d :
  only ps (disk w) d ->
  Forall (fun path => (exists t, path = temp_snapshot_path t \/ path = temp_manifest_path t) \/
    exists name, own_name name /\ path = snapshot_path name /\ entry_now (entry (disk w) path) = None) ps ->
  inside (disk w) d /\ current_holds d (fsn_current s) /\ pending_holds d (fsn_pending s).
Proof.
  destruct Hholds as (_ & _ & _ & _ & Hp). intros Ho Hps. rewrite Forall_forall in Hps.
  assert (forall t path, path ∈ reserved t -> (forall t', path <> temp_snapshot_path t' /\ path <> temp_manifest_path t') -> path ∉ ps) as Hnot.
  { intros t path Hres Hne Hin. destruct (Hps _ Hin) as [(t' & H)|(name & Hown & -> & _)]; [|by eapply own_name_reserved].
    destruct (Hne t'). by destruct H. }
  split_and!.
  - eapply only_inside; [done|]. apply Forall_forall. intros path Hin. by destruct (Hps _ Hin) as [(t & [-> | ->])|(name & _ & -> & _)].
  - eapply current_kept; [done|done|..].
    + apply (Hnot 0); [by in_reserved|]. intros t. by split.
    + apply Forall_forall. intros path Hin. destruct (Hps _ Hin) as [(t & [-> | ->])|(name & _ & _ & ?)]; [left; exists t; by in_reserved..|by right].
  - eapply pending_holds_only; [done|..|done]; (apply (Hnot 0); [by in_reserved|]); intros t; by split.
Qed.

(** The envelope is written under a name of its own and nothing else changes. *)
Lemma place_law read_chunk header sequence w1 s1 path name w2 s2 r2 w3 s3 r3 :
  serves read_chunk (application_payload_len descriptor) ->
  encode_raft_snapshot_header (metadata descriptor) (application_payload_len descriptor) = Ok header ->
  snapshot_path_for_write w s descriptor = (w1, s1, Ok (path, name, sequence)) ->
  write_snapshot_temp w1 s1 (temp_snapshot_path (process_id w1)) header (application_payload_len descriptor)
    (Some (application_payload_crc32 descriptor)) read_chunk = (w2, s2, r2) ->
  (r2 = Ok tt -> publish_snapshot_file w2 s2 (temp_snapshot_path (process_id w1)) path = (w3, s3, r3)) ->
  s1 = s /\ fits64 sequence /\
  (inside (disk w) (disk w2) /\ current_holds (disk w2) (fsn_current s) /\ pending_holds (disk w2) (fsn_pending s)) /\
  (r2 = Ok tt ->
   (inside (disk w) (disk w3) /\ current_holds (disk w3) (fsn_current s) /\ pending_holds (disk w3) (fsn_pending s)) /\
   (r3 = Ok tt -> s3 = s /\ exists payload, placed (disk w3) name payload /\ header = put_header (metadata descriptor) (application_payload_len descriptor))).
Proof.
  intros Hserves Hheader%encode_header_Ok Hpath Htemp Hpub; [|done]. destruct Hheader as [Hsized ->].
  unfold snapshot_path_for_write in Hpath. destruct Hholds as (_ & _ & _ & Hseq & _).
  destruct (fsn_next_sequence s) as [n|]; [|done]. apply free_sequence_spec in Hpath as [Hd1 Hpath]; [|by apply Hseq].
  destruct (Hpath _ _ _ eq_refl) as (-> & -> & Hname & Hfit & Hnone).
  assert (own_name name) as Hown by (by eexists _, _).
  apply write_snapshot_temp_spec in Htemp as [Ho2 Htemp]; [|done]. rewrite Hd1 in Ho2. split; [done|]. split; [done|]. split.
  { eapply beside_kept; [done|]. constructor; [|done]. left. eauto. }
  intros ->. destruct (Htemp eq_refl) as (-> & payload & Hl & Hcrc & Hbytes).
  assert (temp_snapshot_path (process_id w1) <> snapshot_path name) as Hne.
  { intros Heq. eapply (own_name_reserved name (process_id w1)); [done|]. rewrite <- Heq. by in_reserved. }
  apply (publish_snapshot_file_spec _ _ _ _ _ _ _ _ Hne Hbytes) in Hpub as [Ho3 Hpub]; [|done].
  assert (only [temp_snapshot_path (process_id w1); snapshot_path name] (disk w) (disk w3)) as Ho.
  { etrans; [|done]. eapply only_weaken; [done|]. intros q. rewrite !elem_of_cons. tauto. }
  split.
  { eapply beside_kept; [done|]. constructor; [left; eauto|]. constructor; [right; eauto|done]. }
  intros ->. destruct (Hpub eq_refl) as [-> Hd3]. split; [done|]. exists payload. split; [|done]. split_and!; try done.
  unfold from_payload, RaftSnapshot_new. rewrite Hl, Hcrc. by destruct descriptor.
Qed.

(** Publication: the manifest selects the envelope, or still the old one. *)
Lemma publication_law w3 name payload sequence w4 s4 r4 :
  inside (disk w) (disk w3) -> current_holds (disk w3) (fsn_current s) -> pending_holds (disk w3) (fsn_pending s) ->
  placed (disk w3) name payload -> fits64 sequence ->
  publish_current_manifest w3 s sequence name = (w4, s4, r4) ->
  inside (disk w) (disk w4) /\
  match r4 with
  | Ok _ => s4 = s /\ snapshots_hold (disk w4)
      {| fsn_current := Some {| current_file_name := name; current_descriptor := descriptor;
           current_payload_offset := length_u64 (put_header (metadata descriptor) (application_payload_len descriptor)) |};
         fsn_pending := fsn_pending s; fsn_next_sequence := u64_checked_add sequence 1; fsn_health := fsn_health s |}
  | Err _ => torn_write (disk w4)
  end.
Proof.
  intros Hi3 Hc3 Hp3 Hpl Hseq H4. apply publish_current_manifest_spec in H4 as [Ho4 H4].
  assert (inside (disk w) (disk w4)) as Hi4 by (etrans; [done|]; eapply only_inside; [done|by repeat constructor]).
  assert (pending_holds (disk w4) (fsn_pending s)) as Hp4 by (eapply pending_holds_only; [done|not_listed|not_listed|done]).
  assert (forall q, own_name q -> snapshot_path q ∉ [temp_manifest_path (process_id w3); manifest_path]) as Hother.
  { intros q Hq Hin. eapply (own_name_reserved q (process_id w3)); [done|]. revert Hin. rewrite elem_of_cons, list_elem_of_singleton.
    intros [-> | ->]; by in_reserved. }
  pose proof Hpl as (Hown & _). split; [done|]. destruct r4 as [[]|error].
  - destruct H4 as (-> & bytes & He & Hman). split; [done|]. split_and!.
    + apply Hholds.
    + by eapply directory_kept.
    + eapply placed_current; [|done|done|done]. destruct Hpl as (? & ? & ? & ?). split_and!; try done. eapply durable_only; [done|by apply Hother|done].
    + simpl. unfold u64_checked_add, fits64. intros n. destruct (N.leb_spec (sequence + 1) u64_max); [|done]. intros [= <-].
      unfold u64_max in *. lia.
    + done.
  - intros files Hl.
    assert (forall q, own_name q -> may (entry (disk w3) (snapshot_path q)) (files (snapshot_path q))) as Hmay.
    { intros q Hq. eapply calmer_may; [|apply Hl]. apply Ho4. by apply Hother. }
    destruct (H4 _ (Hl manifest_path)) as [Hold|(bytes & He & Hnew)].
    + exists (file_current_snapshot s), (fsn_staged_transfer s). split_and!; [by left|by left|by eapply selects_may|by eapply pending_holds_staged].
    + exists (Some descriptor), (fsn_staged_transfer s). split_and!; [by right|by left| |by eapply pending_holds_staged].
      eapply placed_selects; [done|done|done|done|by apply Hmay].
Qed.

(** A written snapshot is the current one and nothing is staged; a failed
    write leaves the old snapshot or the new one. *)
Lemma streamed_law read_chunk w' s' r :
  serves read_chunk (application_payload_len descriptor) ->
  write_snapshot_streamed w s descriptor (Some (application_payload_crc32 descriptor)) read_chunk = (w', s', r) ->
  inside (disk w) (disk w') /\
  match r with
  | Ok _ => snapshots_hold (disk w') s' /\ file_current_snapshot s' = Some descriptor /\ fsn_staged_transfer s' = None
  | Err _ => torn_write (disk w')
  end.
Proof.
  intros Hserves. unfold write_snapshot_streamed. pose proof Hholds as (Hh & _ & Hc & Hseq & Hp). rewrite Hh. cbn [is_reopen_required].
  destruct (encode_raft_snapshot_header _ _) as [header|error] eqn:Hheader; [|intros [= <- <- <-]; split; [done|by apply torn_kept]].
  destruct (snapshot_path_for_write w s descriptor) as [[w1 s1] r1] eqn:H1. destruct r1 as [[[path name] sequence]|error].
  2: { intros [= <- <- <-]. unfold snapshot_path_for_write in H1. destruct (fsn_next_sequence s) as [n|]; [|injection H1 as <- _ _; split; [done|by apply torn_kept]].
       apply free_sequence_spec in H1 as [Hd _]; [|by apply Hseq]. rewrite Hd. split; [done|by apply torn_kept]. }
  destruct (write_snapshot_temp _ _ _ _ _ _ _) as [[w2 s2] r2] eqn:H2.
  destruct (publish_snapshot_file w2 s2 (temp_snapshot_path (process_id w1)) path) as [[w3 s3] r3] eqn:H3.
  destruct (place_law _ _ _ _ _ _ _ _ _ _ _ _ _ Hserves Hheader H1 H2 (fun _ => H3)) as (-> & Hfit & (Hi2 & Hc2 & Hp2) & Hplace).
  destruct r2 as [[]|error]; [|intros [= <- <- <-]; split; [done|by apply torn_kept]].
  destruct (Hplace eq_refl) as [(Hi3 & Hc3 & Hp3) Hplaced].
  destruct r3 as [[]|error]; [|intros [= <- <- <-]; split; [done|by apply torn_kept]].
  destruct (Hplaced eq_refl) as (-> & payload & Hpl & ->).
  destruct (publish_current_manifest _ _ _ _) as [[w4 s4] r4] eqn:H4.
  apply (publication_law _ _ _ _ _ _ _ Hi3 Hc3 Hp3 Hpl Hfit) in H4 as [Hi4 H4].
  destruct r4 as [[]|error]; [|by intros [= <- <- <-]]. destruct H4 as [-> H4].
  destruct (file_clear_pending w4 _) as [[w5 s5] r5] eqn:H5. apply (clear_law _ _ H4) in H5 as (Ho5 & Hcur & H5).
  assert (inside (disk w) (disk w5)) as Hi5 by (etrans; [done|]; eapply only_inside; [done|by repeat constructor]).
  destruct r5 as [[]|error]; intros [= <- <- <-]; (split; [done|]).
  - destruct H5 as [H5 Hnone]. split; [done|]. unfold file_current_snapshot, fsn_staged_transfer. by rewrite Hcur, Hnone.
  - intros files Hl. destruct (H5 files Hl) as [Hsel (p & Hp' & Hst)]. exists (Some descriptor), p. by split_and!; [right| | |].
Qed.
End writing.

(** ** The three sources of a snapshot *)

Lemma serves_slice payload :
  serves (fun offset len w => (w, Ok (take (N.to_nat len) (drop (N.to_nat offset) payload)))) (length_u64 payload).
Proof.
  intros offset len w w' r [= <- <-]. split; [done|]. intros bytes [= <-] Hle. apply length_u64_take. rewrite length_u64_drop. lia.
Qed.

Lemma serves_source source snapshot len :
  serves (fun offset n w => (w, source_chunk source snapshot (transfer_id snapshot) offset n)) len.
Proof.
  intros offset n w w' r [= <- <-]. split; [done|]. intros bytes. unfold source_chunk. case_match; [|done].
  case_match eqn:Hl; [|done]. intros [= <-] _. by apply N.eqb_eq.
Qed.

Lemma read_exact_spec path offset len w w' r :
  read_exact path offset len w = (w', r) -> disk w' = disk w /\ (forall bytes, r = Ok bytes -> length_u64 bytes = len).
Proof.
  unfold read_exact. destruct (N.eqb_spec len 0) as [->|Hne].
  { intros [= <- <-]. split; [done|]. by intros bytes [= <-]. }
  intros [Hd H]%inspect_spec. split; [done|]. intros bytes ->. destruct H as [H|(? & [=] & _)].
  case_match; [|done]. destruct (N.leb_spec (offset + len) (length_u64 (file_data f))); [|done]. injection H as ->.
  apply length_u64_take. rewrite length_u64_drop. lia.
Qed.

Lemma serves_body len :
  serves (fun offset n => body_io "read pending snapshot transfer body for promotion"
    (read_exact pending_snapshot_transfer_body_path offset n)) len.
Proof.
  intros offset n w w' r (r' & [Hd H]%read_exact_spec & ->)%body_io_inv. split; [done|]. intros bytes Hok _.
  destruct r' as [bytes'|]; [|done]. injection Hok as <-. by apply H.
Qed.

Section sources.
Context (w : World) (s : FileRaftSnapshotStore).
Hypothesis Hholds : snapshots_hold (disk w) s.

Lemma write_law snapshot w' s' r :
  metadata_valid (prs_metadata snapshot) -> payload_fits (length_u64 (prs_application_payload snapshot)) ->
  file_write_snapshot w s snapshot = (w', s', r) ->
  let descriptor := from_payload (prs_metadata snapshot) (prs_application_payload snapshot) in
  inside (disk w) (disk w') /\
  match r with
  | Ok _ => snapshots_hold (disk w') s' /\ file_current_snapshot s' = Some descriptor /\ fsn_staged_transfer s' = None
  | Err _ => torn_write s descriptor (disk w')
  end.
Proof. intros Hm Hl H descriptor. eapply (streamed_law w s Hholds descriptor); [done|done|apply serves_slice|exact H]. Qed.

Lemma from_source_law snapshot source w' s' r :
  metadata_valid (metadata snapshot) -> payload_fits (application_payload_len snapshot) ->
  file_write_snapshot_from_source w s snapshot source = (w', s', r) ->
  inside (disk w) (disk w') /\
  match r with
  | Ok _ => snapshots_hold (disk w') s' /\ file_current_snapshot s' = Some snapshot /\ fsn_staged_transfer s' = None
  | Err _ => torn_write s snapshot (disk w')
  end.
Proof. intros Hm Hl H. eapply (streamed_law w s Hholds snapshot); [done|done|apply serves_source|exact H]. Qed.

(** A promotion writes what was staged. *)
Lemma promote_law snapshot w' s' r :
  metadata_valid (metadata snapshot) -> payload_fits (application_payload_len snapshot) ->
  file_promote_staged_snapshot w s snapshot = (w', s', r) ->
  inside (disk w) (disk w') /\
  match r with
  | Ok _ => snapshots_hold (disk w') s' /\ validate_staged_promotion snapshot (fsn_staged_transfer s) = Ok tt /\
      file_current_snapshot s' = Some snapshot /\ fsn_staged_transfer s' = None
  | Err _ => forall files, leaves (disk w') files -> exists c p,
      (c = file_current_snapshot s \/ validate_staged_promotion snapshot (fsn_staged_transfer s) = Ok tt /\ c = Some snapshot) /\
      (p = fsn_staged_transfer s \/ p = None) /\ selects files c /\ staged files p
  end.
Proof.
  intros Hm Hl. unfold file_promote_staged_snapshot. pose proof Hholds as (Hh & _). rewrite Hh. cbn [is_reopen_required].
  assert (forall d, disk d = disk w -> forall files, leaves (disk d) files -> exists c p,
    (c = file_current_snapshot s \/ validate_staged_promotion snapshot (fsn_staged_transfer s) = Ok tt /\ c = Some snapshot) /\
    (p = fsn_staged_transfer s \/ p = None) /\ selects files c /\ staged files p) as Hsame.
  { intros d Hd files. rewrite Hd. intros [H1 H2]%(holds_leaves w s Hholds). eauto 8. }
  destruct (validate_staged_promotion snapshot _) as [[]|error] eqn:Hv; [|intros [= <- <- <-]; split; [done|by apply Hsame]].
  destruct (fsn_pending s) as [st|]; [|intros [= <- <- <-]; split; [done|by apply Hsame]].
  destruct (open_staged_body _ w) as [w1 r1] eqn:H1.
  assert (disk w1 = disk w) as Hd1.
  { unfold open_staged_body in H1. destruct (body_io _ (open_read _) w) as [w2 r2] eqn:H2. apply body_io_inv in H2 as (? & H2%inspect_disk & ->).
    destruct x as [[]|]; simpl in H1; [|by injection H1 as <- _]. destruct (body_io _ (file_len _) w2) as [w3 r3] eqn:H3.
    apply body_io_inv in H3 as (? & H3%inspect_disk & ->). rewrite <- H2, <- H3. destruct x as [len|]; simpl in H1; [|by injection H1 as <- _].
    case_match; by injection H1 as <- _. }
  destruct r1 as [[]|error]; [|intros [= <- <- <-]; split; [by rewrite Hd1|by apply Hsame]].
  assert (snapshots_hold (disk w1) s) as Hholds1 by by rewrite Hd1.
  intros H2. apply (streamed_law w1 s Hholds1 snapshot) in H2 as [Hi H2]; [|done|done|apply serves_body]. rewrite Hd1 in Hi.
  split; [done|]. destruct r as [[]|error]; [naive_solver|]. intros files Hlv. destruct (H2 files Hlv) as (c & p & Hc & ?).
  exists c, p. destruct Hc as [-> | ->]; naive_solver.
Qed.
End sources.

(** ** Reading

    A computation that leaves the disk [d] alone and gives [v], unless a call
    fails. *)

Definition reads_as {A E : Type} (d : Disk) (v : A) (m : World -> World * result A E) : Prop :=
  forall w w' r, disk w = d -> m w = (w', r) ->
    disk w' = d /\ (faults w = [] -> faults w' = []) /\ (r = Ok v \/ (exists error, r = Err error) /\ faults w <> []).

Lemma inspect_outcome {A : Type} (look : Disk -> result A StorageIoError) w w' r :
  inspect look w = (w', r) -> disk w' = disk w /\ (faults w = [] -> faults w' = []) /\
  (r = look (disk w) \/ exists error, r = Err error /\ io_kind error <> ErrorKind_NotFound /\ faults w <> []).
Proof.
  intros H. pose proof H as [Hd Hr]%inspect_spec. unfold inspect, next_fault in H. destruct (faults w) as [|f fs] eqn:Hf.
  - injection H as <- <-. rewrite Hf. auto.
  - split_and!; [done|done|]. destruct Hr as [Hr|(error & Hr & Hk & _)]; [by left|]. right. by exists error.
Qed.

Lemma reads_inspect {A : Type} (d : Disk) (look : Disk -> result A StorageIoError) (v : A) : look d = Ok v -> reads_as d v (inspect look).
Proof. intros Hv w w' r <- (Hd & Hf & Hr)%inspect_outcome. split_and!; [done|done|]. rewrite Hv in Hr. naive_solver. Qed.

Lemma reads_ret {A E : Type} (d : Disk) (v : A) : @reads_as A E d v (fun w => (w, Ok v)).
Proof. intros w w' r <- [= <- <-]. auto. Qed.

Lemma reads_ext {A E : Type} (d : Disk) (v : A) (m m' : World -> World * result A E) :
  reads_as d v m -> (forall w, m' w = m w) -> reads_as d v m'.
Proof. intros Hm Heq w w' r Hw. rewrite Heq. by apply Hm. Qed.

Lemma reads_then {A B E F : Type} (d : Disk) (v : A) (u : B) (m : World -> World * result A E) (k : A -> World -> World * result B F) (g : E -> F) :
  reads_as d v m -> reads_as d u (k v) ->
  reads_as d u (fun w => match m w with (w, Ok x) => k x w | (w, Err error) => (w, Err (g error)) end).
Proof.
  intros Hm Hk w w' r Hw. destruct (m w) as [w1 r1] eqn:H1. apply Hm in H1 as (Hd1 & Hf1 & Hr1); [|done].
  destruct Hr1 as [->|[[error ->] Hne]].
  - intros H2. apply Hk in H2 as (Hd2 & Hf2 & Hr2); [|done]. split_and!; [done|auto|]. destruct Hr2 as [|[? Hne]]; [by left|right].
    split; [done|]. intros Hf. by apply Hne, Hf1.
  - intros [= <- <-]. split_and!; [done|done|]. eauto.
Qed.

Lemma reads_bind {A B : Type} (d : Disk) (v : A) (u : B) (m : io A) (k : A -> io B) :
  reads_as d v m -> reads_as d u (k v) -> reads_as d u (io_bind m k).
Proof. intros Hm Hk. exact (reads_then d v u m k (fun error => error) Hm Hk). Qed.

Lemma reads_mapped {A E F : Type} (d : Disk) (v : A) (m : World -> World * result A E) (f : E -> F) :
  reads_as d v m -> reads_as d v (fun w => let (w, r) := m w in (w, map_err f r)).
Proof.
  intros Hm w w' r Hw. destruct (m w) as [w1 r1] eqn:H1. apply Hm in H1 as (Hd1 & Hf1 & Hr1); [|done]. intros [= <- <-].
  split_and!; [done|done|]. destruct Hr1 as [->|[[error ->] Hne]]; simpl; eauto.
Qed.

Lemma reads_snapshot_io {A : Type} (d : Disk) (v : A) operation path (m : io A) :
  reads_as d v m -> reads_as d v (snapshot_io operation path m).
Proof. apply reads_mapped. Qed.

(** The part of a durable file at an offset. *)
Lemma reads_exact (d : Disk) path data offset len :
  entry_now (entry d path) = Some (clean data) -> len = 0 \/ offset + len <= length_u64 data ->
  reads_as d (take (N.to_nat len) (drop (N.to_nat offset) data)) (read_exact path offset len).
Proof.
  intros He Hle. unfold read_exact. destruct (N.eqb_spec len 0) as [->|Hne]; [apply reads_ret|]. destruct Hle as [|Hle]; [done|].
  apply reads_inspect. rewrite He. simpl. by destruct (N.leb_spec (offset + len) (length_u64 data)); [|lia].
Qed.

Lemma reads_optional (d : Disk) path data o1 o2 :
  durable d path data -> reads_as d data (read_optional path o1 o2).
Proof.
  intros Hd w w' r Hw. unfold read_optional. destruct (open_read path w) as [w1 r1] eqn:H1.
  apply inspect_outcome in H1 as (Hd1 & Hf1 & Hr1). rewrite Hw, Hd in Hr1.
  destruct Hr1 as [->|(error & -> & Hk%N.eqb_neq & Hne)].
  - destruct data as [data|]; simpl.
    + unfold snapshot_io. destruct (read_to_end path w1) as [w2 r2] eqn:H2. apply inspect_outcome in H2 as (Hd2 & Hf2 & Hr2).
      rewrite Hd1, Hw, Hd in Hr2. simpl in Hr2. intros [= <- <-]. split_and!; [congruence|auto|].
      destruct Hr2 as [->|(error & -> & _ & Hne)]; simpl; [by left|]. right. split; [eauto|]. intros Hf. by apply Hne, Hf1.
    + intros [= <- <-]. split_and!; [congruence|done|by left].
  - rewrite Hk. intros [= <- <-]. split_and!; [congruence|done|eauto].
Qed.

(** One round of the verification: from what is left of the prefix, or from the
    file. *)
Lemma reads_verify_round (fuel : nat) (d : Disk) (path : StorePath) (data payload already_read : list u8) (position count : u64)
    (rest : list u8) u (pc ec : list u8) :
  entry_now (entry d path) = Some (clean data) ->
  already_read ++ drop (N.to_nat position) data = payload ++ rest ->
  0 < length_u64 payload ->
  count = bounded_usize_len (length_u64 payload) (match already_read with [] => VERIFY_CHUNK_BYTES | _ => length_u64 already_read end) ->
  let bytes := take (N.to_nat count) payload in
  reads_as d u (fun w => verify_payload fuel path w (length_u64 (drop (N.to_nat count) payload)) (drop (N.to_nat count) already_read)
    (match already_read with [] => position + count | _ => position end) (crc_of (pc ++ bytes)) (crc_of (ec ++ bytes))) ->
  reads_as d u (fun w => verify_payload (S fuel) path w (length_u64 payload) already_read position (crc_of pc) (crc_of ec)).
Proof.
  intros He Happ Hlen Hcount bytes Hnext.
  assert (count <= length_u64 payload) as Hle by (rewrite Hcount; unfold bounded_usize_len; lia).
  assert (length_u64 (drop (N.to_nat count) payload) = length_u64 payload - length_u64 bytes) as Hrest.
  { unfold bytes. by rewrite length_u64_drop, length_u64_take. }
  destruct already_read as [|b already_read].
  - eapply reads_ext; [apply (reads_then d bytes u (read_exact path position count)
      (fun bytes w => verify_payload fuel path w (length_u64 payload - length_u64 bytes) [] (position + count)
         (RunningCrc32_update (crc_of pc) bytes) (RunningCrc32_update (crc_of ec) bytes)) (fun error => error))|].
    + replace bytes with (take (N.to_nat count) (drop (N.to_nat position) data)).
      * apply reads_exact; [done|]. right. apply (f_equal length_u64) in Happ. rewrite app_nil_l, length_u64_drop, length_u64_app in Happ. lia.
      * rewrite app_nil_l in Happ. rewrite Happ. unfold bytes. rewrite take_app_le; [done|]. unfold length_u64 in Hle. lia.
    + rewrite <- Hrest, !crc_of_app. by rewrite drop_nil in Hnext.
    + intros w. cbn [verify_payload]. rewrite (proj2 (N.eqb_neq _ _)) by lia. by rewrite <- Hcount.
  - eapply reads_ext; [exact Hnext|]. intros w. cbn [verify_payload]. rewrite (proj2 (N.eqb_neq _ _)) by lia. rewrite <- Hcount.
    assert (take (N.to_nat count) (b :: already_read) = bytes) as ->.
    { assert (N.to_nat count <= length (b :: already_read))%nat as Hc.
      { rewrite Hcount. unfold bounded_usize_len, length_u64. lia. }
      rewrite <- (take_app_le (b :: already_read) (drop (N.to_nat position) data)) by done. rewrite Happ.
      unfold bytes. rewrite take_app_le; [done|]. unfold length_u64 in Hle. lia. }
    by rewrite <- Hrest, !crc_of_app.
Qed.

(** The rounds suffice: the payload is read to its end. *)
Lemma reads_verify_payload (fuel : nat) (d : Disk) (path : StorePath) (data payload rest : list u8) (position : u64)
    (already_read pc ec : list u8) :
  entry_now (entry d path) = Some (clean data) ->
  already_read ++ drop (N.to_nat position) data = payload ++ rest ->
  length_u64 payload + (match already_read with [] => 0 | _ => VERIFY_CHUNK_BYTES end) <= N.of_nat fuel * VERIFY_CHUNK_BYTES \/ payload = [] ->
  exists already_read' position',
    already_read' ++ drop (N.to_nat position') data = rest /\
    reads_as d (already_read', position', crc_of (pc ++ payload), crc_of (ec ++ payload))
      (fun w => verify_payload fuel path w (length_u64 payload) already_read position (crc_of pc) (crc_of ec)).
Proof.
  intros He. revert payload already_read position pc ec.
  induction fuel as [|fuel IH]; intros payload already_read position pc ec Happ Hfuel.
  { assert (payload = []) as ->. { destruct Hfuel as [Hfuel|]; [|done]. destruct payload; [done|]. unfold length_u64 in Hfuel. simpl in Hfuel. lia. }
    exists already_read, position. rewrite !app_nil_r. split; [done|]. apply reads_ret. }
  destruct (decide (payload = [])) as [->|Hne].
  { exists already_read, position. rewrite !app_nil_r. split; [done|]. apply reads_ret. }
  destruct Hfuel as [Hfuel|]; [|done].
  assert (0 < length_u64 payload) as Hlen by (destruct payload; [done|]; unfold length_u64; simpl; lia).
  set (count := bounded_usize_len (length_u64 payload) (match already_read with [] => VERIFY_CHUNK_BYTES | _ => length_u64 already_read end)).
  assert (count <= length_u64 payload) as Hle by (unfold count, bounded_usize_len; lia).
  assert (drop (N.to_nat count) already_read ++
    drop (N.to_nat (match already_read with [] => position + count | _ => position end)) data =
    drop (N.to_nat count) payload ++ rest) as Happ'.
  { apply (f_equal (drop (N.to_nat count))) in Happ. rewrite (drop_app_le payload) in Happ by (unfold length_u64 in Hle; lia).
    rewrite <- Happ. destruct already_read as [|b already_read].
    - rewrite drop_nil, !app_nil_l, drop_drop. f_equal. lia.
    - rewrite drop_app_le; [done|]. unfold count, bounded_usize_len, length_u64. lia. }
  destruct (IH (drop (N.to_nat count) payload) _ _ (pc ++ take (N.to_nat count) payload) (ec ++ take (N.to_nat count) payload) Happ')
    as (already_read' & position' & Hrest & Hreads).
  { rewrite length_u64_drop. destruct already_read as [|b already_read].
    - left. rewrite drop_nil. unfold count, bounded_usize_len, VERIFY_CHUNK_BYTES in *. lia.
    - destruct (N.le_gt_cases (length_u64 payload) (length_u64 (b :: already_read))) as [Hl|Hl].
      + right. apply drop_ge. unfold count, bounded_usize_len, length_u64 in *. lia.
      + left. rewrite (drop_ge (b :: already_read)) by (unfold count, bounded_usize_len, length_u64 in *; lia).
        unfold VERIFY_CHUNK_BYTES in *. lia. }
  exists already_read', position'. split; [done|]. rewrite <- !app_assoc, take_drop in Hreads.
  by eapply reads_verify_round.
Qed.

Lemma check_snapshot_len_Ok meta len :
  storable meta -> payload_fits len ->
  check_snapshot_len {| header_metadata := meta; header_payload_len := len; header_len := length_u64 (put_header meta len) |}
    (length_u64 (put_header meta len) + len + 8) = Ok tt.
Proof.
  intros Hs%(length_put_header meta len) Hp. unfold payload_fits, SNAPSHOT_HEADER_PREFIX_BYTES in Hp.
  unfold check_snapshot_len, u64_checked_add, u64_max. cbn [header_len header_payload_len].
  rewrite (proj2 (N.leb_le _ _)) by lia. cbn [mbind option_bind].
  rewrite (proj2 (N.leb_le _ _)) by lia. by rewrite N.eqb_refl.
Qed.

Lemma check_snapshot_crcs_Ok header payload :
  let trailer := be_bytes 4 (crc32 payload) ++ be_bytes 4 (crc32 (header ++ payload ++ be_bytes 4 (crc32 payload))) in
  check_snapshot_crcs trailer (crc_of payload) (crc_of (header ++ payload)) = Ok (crc32 payload).
Proof.
  intros trailer. unfold check_snapshot_crcs, trailer.
  rewrite take_app_length', drop_app_length' by (symmetry; apply length_be_bytes).
  rewrite crc_of_app, !crc_of_value, <- app_assoc, !from_be_be_bytes. change (256 ^ N.of_nat 4) with 4294967296.
  rewrite !N.mod_small by apply crc32_small. by rewrite !N.eqb_refl.
Qed.

(** The payload and the trailer behind a header. *)
Lemma reads_verify_body (d : Disk) (path : StorePath) (h : SnapshotEnvelopeHeader) (header payload : list u8) limit :
  let tail := payload ++ be_bytes 4 (crc32 payload) ++ be_bytes 4 (crc32 (header ++ payload ++ be_bytes 4 (crc32 payload))) in
  let data := header ++ tail in
  entry_now (entry d path) = Some (clean data) -> take limit data = header ++ take (limit - length header) tail ->
  header_len h = length_u64 header -> header_payload_len h = length_u64 payload ->
  reads_as d {| verified_header := h; verified_payload_crc32 := crc32 payload |} (verify_snapshot_body path h (take limit data)).
Proof.
  intros tail data Hnow Hprefix Hh Hp. unfold verify_snapshot_body. cbv zeta. rewrite Hh, Hp.
  assert (N.to_nat (length_u64 header) = length header) as -> by (unfold length_u64; lia).
  assert (take (length header) (take limit data) = header) as -> by (rewrite Hprefix; by rewrite take_app_length).
  assert (drop (length header) (take limit data) = take (limit - length header) tail) as -> by (rewrite Hprefix; by rewrite drop_app_length).
  set (trailer := be_bytes 4 (crc32 payload) ++ be_bytes 4 (crc32 (header ++ payload ++ be_bytes 4 (crc32 payload)))) in *.
  assert (take (limit - length header) tail ++ drop (N.to_nat (length_u64 (take limit data))) data = payload ++ trailer) as Happ.
  { apply (app_inv_head header). rewrite app_assoc, <- Hprefix. unfold length_u64. rewrite Nat2N.id.
    rewrite length_take. destruct (Nat.le_ge_cases limit (length data)).
    - rewrite Nat.min_l by done. by rewrite take_drop.
    - rewrite Nat.min_r, drop_all, app_nil_r by done. by apply take_ge. }
  change RunningCrc32_new with (crc_of []) at 1. fold (crc_of header).
  destruct (reads_verify_payload (N.to_nat (length_u64 payload / VERIFY_CHUNK_BYTES + 2)) d path data payload trailer
    (length_u64 (take limit data)) (take (limit - length header) tail) [] header Hnow Happ) as (already_read & position & Hrest & Hreads).
  { left. rewrite N2Nat.id. pose proof (N.div_mod' (length_u64 payload) VERIFY_CHUNK_BYTES).
    pose proof (N.mod_lt (length_u64 payload) VERIFY_CHUNK_BYTES ltac:(done)). case_match; lia. }
  rewrite app_nil_l in Hreads. eapply reads_then; [exact Hreads|]. cbn beta match.
  assert (length trailer = 8%nat) as Htrailer by (unfold trailer; by rewrite length_app, !length_be_bytes).
  assert (length already_read <= 8)%nat as Hfew by (apply (f_equal length) in Hrest; rewrite length_app in Hrest; lia).
  rewrite take_ge by done.
  eapply reads_then.
  { apply (reads_exact d path data); [done|]. apply (f_equal length_u64) in Hrest. rewrite length_u64_app, length_u64_drop in Hrest.
    unfold length_u64 in *. lia. }
  cbn beta.
  assert (already_read ++ take (N.to_nat (8 - length_u64 already_read)) (drop (N.to_nat position) data) = trailer) as ->.
  { rewrite take_ge; [done|]. apply (f_equal length) in Hrest. rewrite length_app in Hrest. unfold length_u64. lia. }
  unfold trailer. rewrite check_snapshot_crcs_Ok. apply reads_ret.
Qed.

(** The whole envelope is verified, chunk by chunk. *)
Lemma reads_envelope (d : Disk) (path : StorePath) meta payload :
  durable d path (Some (snapshot_bytes meta payload)) -> storable meta -> payload_fits (length_u64 payload) ->
  reads_as d {| verified_header := {| header_metadata := meta; header_payload_len := length_u64 payload;
                                      header_len := length_u64 (put_header meta (length_u64 payload)) |};
                verified_payload_crc32 := crc32 payload |} (verify_snapshot_envelope path).
Proof.
  intros Hd Hs Hp. pose proof (length_put_header meta (length_u64 payload) Hs) as Hheader.
  pose proof (length_snapshot_bytes meta payload) as Hlen.
  set (header := put_header meta (length_u64 payload)) in *. set (data := snapshot_bytes meta payload) in *.
  set (limit := N.to_nat (N.min SNAPSHOT_HEADER_PREFIX_BYTES (length_u64 data))).
  set (tail := payload ++ be_bytes 4 (crc32 payload) ++ be_bytes 4 (crc32 (header ++ payload ++ be_bytes 4 (crc32 payload)))).
  assert (data = header ++ tail) as Hdata.
  { unfold data, snapshot_bytes, finish_checksummed, tail. fold header. by rewrite <- !app_assoc. }
  assert (take limit data = header ++ take (limit - length header) tail) as Hprefix.
  { rewrite Hdata. apply take_app_ge. unfold limit, length_u64, SNAPSHOT_HEADER_PREFIX_BYTES in *. lia. }
  assert (entry_now (entry d path) = Some (clean data)) as Hnow by by rewrite Hd.
  set (h := {| header_metadata := meta; header_payload_len := length_u64 payload; header_len := length_u64 header |}).
  assert (decode_raft_snapshot_header (take limit data) = Ok h) as Hdecode.
  { apply decode_header_Ok. split_and!; [done|unfold payload_fits, SNAPSHOT_HEADER_PREFIX_BYTES, fits64 in *; simpl; lia|done|]. by eexists. }
  unfold verify_snapshot_envelope. apply (reads_then d (length_u64 data) _ _ _ (fun error => error)).
  { unfold snapshot_file_len. intros w w' r Hw. destruct (file_len path w) as [w1 r1] eqn:H1. apply inspect_outcome in H1 as (Hd1 & Hf1 & Hr1).
    rewrite Hw, Hnow in Hr1. destruct Hr1 as [->|(error & -> & Hk%N.eqb_neq & Hne)]; simpl; [|rewrite Hk]; intros [= <- <-];
      (split_and!; [congruence|done|]); [by left|eauto]. }
  apply (reads_then d tt _ _ _ (fun error => error)).
  { apply reads_snapshot_io, reads_inspect. by rewrite Hnow. }
  apply (reads_then d (take limit data) _ _ _ (fun error => error)).
  { apply reads_snapshot_io. eapply reads_bind; [apply reads_inspect; by rewrite Hnow|apply reads_ret]. }
  cbn beta. rewrite Hdecode. cbn match.
  assert (check_snapshot_len h (length_u64 data) = Ok tt) as -> by (rewrite Hlen; by apply check_snapshot_len_Ok).
  assert (length header <= limit)%nat as Hlimit by (unfold limit, length_u64, SNAPSHOT_HEADER_PREFIX_BYTES in *; lia).
  unfold check_prefix_len. rewrite (proj2 (N.leb_le _ _)).
  2: { simpl. rewrite Hprefix, length_u64_app. lia. }
  rewrite Hdata in *. by apply (reads_verify_body d path h header payload limit).
Qed.

(** The published prefix of the staged body. *)
Lemma reads_staged_checksum (fuel : nat) (d : Disk) (body : list u8) (buffer_len received position : u64) (done_part : list u8) :
  entry_now (entry d pending_snapshot_transfer_body_path) = Some (clean body) ->
  received = 0 \/ 0 < buffer_len -> received <= N.of_nat fuel * buffer_len -> position + received <= length_u64 body ->
  reads_as d (crc_of (done_part ++ take (N.to_nat received) (drop (N.to_nat position) body)))
    (fun w => checksum_staged_body_prefix fuel w buffer_len received position (crc_of done_part)).
Proof.
  intros Hnow. revert received position done_part. induction fuel as [|fuel IH]; intros received position done_part Hbuf Hfuel Hle.
  { assert (received = 0) as -> by lia. rewrite app_nil_r. apply reads_ret. }
  cbn [checksum_staged_body_prefix]. destruct (N.eqb_spec received 0) as [->|Hne]; [rewrite app_nil_r; apply reads_ret|].
  destruct Hbuf as [|Hbuf]; [done|]. set (len := bounded_usize_len received buffer_len).
  assert (len = N.min received buffer_len) as Hlen by done. clearbody len.
  eapply reads_then; [apply reads_snapshot_io, (reads_exact _ _ body); [done|right; lia]|]. cbn beta. rewrite crc_of_app.
  replace (take (N.to_nat received) (drop (N.to_nat position) body)) with
    (take (N.to_nat len) (drop (N.to_nat position) body) ++ take (N.to_nat (received - len)) (drop (N.to_nat (position + len)) body)).
  - rewrite app_assoc. apply IH; lia.
  - replace (drop (N.to_nat (position + len)) body) with (drop (N.to_nat len) (drop (N.to_nat position) body)) by (rewrite drop_drop; f_equal; lia).
    rewrite take_take_drop. f_equal. lia.
Qed.

Lemma reads_staged_prefix (d : Disk) (body : list u8) (received : u64) :
  entry_now (entry d pending_snapshot_transfer_body_path) = Some (clean body) -> received <= length_u64 body ->
  reads_as d (crc_of (take (N.to_nat received) body))
    (fun w => checksum_staged_body_prefix (N.to_nat (received / VERIFY_STAGED_BODY_CHUNK_BYTES + 1)) w
      (bounded_usize_len received VERIFY_STAGED_BODY_CHUNK_BYTES) received 0 RunningCrc32_new).
Proof.
  intros Hnow Hle. apply (reads_staged_checksum _ d body _ received 0 []); [done|..].
  - unfold bounded_usize_len, VERIFY_STAGED_BODY_CHUNK_BYTES. lia.
  - rewrite N2Nat.id. unfold bounded_usize_len. pose proof (N.div_mod' received VERIFY_STAGED_BODY_CHUNK_BYTES).
    pose proof (N.mod_lt received VERIFY_STAGED_BODY_CHUNK_BYTES ltac:(done)).
    destruct (N.min_spec received VERIFY_STAGED_BODY_CHUNK_BYTES) as [[_ ->]|[_ ->]]; [|lia].
    rewrite N.mul_add_distr_r, N.mul_1_l. apply N.le_add_l.
  - lia.
Qed.

(** ** Opening *)

Lemma remove_calm path operation w :
  faults w = [] -> exists w' removed, remove_file_if_exists path operation w = (w', Ok removed) /\ faults w' = [].
Proof.
  intros Hf. unfold remove_file_if_exists, remove_file. destruct (entry_now _); [|by eexists _, _].
  rewrite change_atomic_calm by done. by eexists _, _.
Qed.

Lemma clear_staging_calm w : faults w = [] -> exists w', clear_staging w = (w', Ok tt) /\ faults w' = [].
Proof.
  intros Hf. unfold clear_staging.
  destruct (remove_calm pending_snapshot_transfer_path "remove pending snapshot transfer manifest" w Hf) as (w1 & b1 & -> & Hf1).
  destruct (remove_calm pending_snapshot_transfer_body_path "remove pending snapshot transfer body" w1 Hf1) as (w2 & b2 & -> & Hf2).
  destruct (b1 || b2); [|by eexists]. unfold sync_parent_directory, sync_directory. rewrite change_atomic_calm by done. by eexists.
Qed.

(** A staging that gives no transfer is removed. *)
Lemma discarded_law recovery w w' r mo bo :
  durable (disk w) pending_snapshot_transfer_path mo -> durable (disk w) pending_snapshot_transfer_body_path bo ->
  staged_in mo bo None -> discarded recovery w = (w', r) ->
  only [pending_snapshot_transfer_path; pending_snapshot_transfer_body_path] (disk w) (disk w') /\
  match r with
  | Ok (st, _) => pending_holds (disk w') st /\ st = None
  | Err _ => forall files, leaves (disk w') files -> staged files None
  end /\ (faults w = [] -> faults w' = [] /\ exists v, r = Ok v).
Proof.
  intros Hm Hb Hs. unfold discarded, discard_inconsistent_staging. destruct (clear_staging w) as [w1 r1] eqn:H1.
  pose proof H1 as [Ho Hr]%(clear_staging_spec _ _ _ _ _ _ Hm Hb Hs). destruct r1 as [[]|error]; simpl; intros [= <- <-]; (split; [done|]).
  - destruct Hr as [Hr Hr']. split; [by split; [split; [|exists None]|]|]. intros Hf. destruct (clear_staging_calm w Hf) as (w2 & H2 & Hf2).
    rewrite H1 in H2. injection H2 as <-. eauto.
  - split; [intros files Hl; by destruct (Hr files Hl)|]. intros Hf. destruct (clear_staging_calm w Hf) as (w2 & H2 & _).
    by rewrite H1 in H2.
Qed.

(** What a read gives, without its faults. *)
Lemma reads_run {A E : Type} (d : Disk) (v : A) (m : World -> World * result A E) w w' r :
  reads_as d v m -> disk w = d -> m w = (w', r) ->
  disk w' = d /\ (forall x, r = Ok x -> x = v) /\ (faults w = [] -> faults w' = [] /\ r = Ok v).
Proof.
  intros Hm Hw H. apply Hm in H as (Hd & Hf & Hr); [|done]. split_and!; [done|by intros x ->; destruct Hr as [[= ->]|[[? ?] _]]|].
  intros H. split; [by apply Hf|]. by destruct Hr as [|[_ ?]].
Qed.

Lemma staged_body_law m w w' r bo p :
  pending_valid m -> durable (disk w) pending_snapshot_transfer_path (Some (pending_bytes m)) ->
  durable (disk w) pending_snapshot_transfer_body_path (Some bo) -> staged_in (Some (pending_bytes m)) (Some bo) p ->
  read_staged_body m w = (w', r) ->
  only [pending_snapshot_transfer_path; pending_snapshot_transfer_body_path] (disk w) (disk w') /\
  match r with
  | Ok (st, _) => pending_holds (disk w') st /\ staged_pending <$> st = p
  | Err _ => forall files, leaves (disk w') files -> staged files p
  end /\ (faults w = [] -> faults w' = [] /\ exists v, r = Ok v).
Proof.
  intros Hv Hm Hb Hs.
  assert (p = if decide (body_matches m bo) then Some (transfer_of m) else None) as Hp.
  { destruct Hs as (m' & Hv' & Heq & ->). by rewrite (pending_bytes_inj _ _ Hv Hv' Heq). }
  assert (entry_now (entry (disk w) pending_snapshot_transfer_body_path) = Some (clean bo)) as Hnow by by rewrite Hb.
  assert (forall w1, disk w1 = disk w -> forall files, leaves (disk w1) files -> staged files p) as Hsame.
  { intros w1 -> files Hl. unfold staged. by rewrite (leaves_durable _ _ _ _ Hl Hm), (leaves_durable _ _ _ _ Hl Hb). }
  unfold read_staged_body. destruct (snapshot_io _ _ (file_len _) w) as [w1 r1] eqn:H1.
  eapply (reads_run (disk w) (length_u64 bo)) in H1 as (Hd1 & Hr1 & Hf1); [|apply reads_snapshot_io, reads_inspect; by rewrite Hnow|done].
  destruct r1 as [len|error].
  2: { intros [= <- <-]. split_and!; [by rewrite Hd1|by apply Hsame|]. intros Hf. by destruct (Hf1 Hf). }
  rewrite (Hr1 len eq_refl) in *. rewrite <- Hd1 in Hm, Hb, Hnow.
  destruct (N.ltb_spec (length_u64 bo) (ptm_received_payload_len m)) as [Hlt|Hge].
  { rewrite decide_False in Hp by (intros [? _]; lia). subst p. rewrite <- Hd1.
    intros (Ho & Hr & Hf)%(discarded_law _ _ _ _ _ _ Hm Hb Hs). split_and!; [done| |].
    - destruct r as [[st rec]|]; [|done]. destruct Hr as [Hr ->]. done.
    - intros Hf'. by apply Hf, Hf1. }
  destruct (checksum_staged_body_prefix _ w1 _ _ _ _) as [w2 r2] eqn:H2.
  destruct (reads_run _ _ _ _ _ _ (reads_staged_prefix _ _ _ Hnow Hge) eq_refl H2) as (Hd2 & Hr2 & Hf2). destruct r2 as [crc|error].
  2: { intros [= <- <-]. split_and!; [by rewrite Hd2, Hd1|apply Hsame; congruence|]. intros Hf. destruct (Hf1 Hf) as [Hf' _]. by destruct (Hf2 Hf'). }
  rewrite (Hr2 crc eq_refl) in *. rewrite crc_of_value. rewrite <- Hd2 in Hm, Hb, Hnow.
  destruct (N.eqb_spec (crc32 (take (N.to_nat (ptm_received_payload_len m)) bo)) (ptm_body_checksum m)) as [Hc|Hc]; cbn [negb].
  - intros [= <- <-]. split; [by rewrite Hd2, Hd1|]. split.
    + rewrite decide_True in Hp by by split. split; [|done]. exists m, bo. by split_and!.
    + intros Hf. destruct (Hf1 Hf) as [Hf' _]. destruct (Hf2 Hf'). eauto.
  - rewrite decide_False in Hp by (intros [_ ?]; congruence). subst p. rewrite <- Hd1, <- Hd2.
    intros (Ho & Hr & Hf)%(discarded_law _ _ _ _ _ _ Hm Hb Hs). split_and!; [done| |].
    + destruct r as [[st rec]|]; [|done]. destruct Hr as [Hr ->]. done.
    + intros Hf'. destruct (Hf1 Hf') as [Hf'' _]. by apply Hf, Hf2.
Qed.

Lemma read_pending_law w w' r mo bo p :
  durable (disk w) pending_snapshot_transfer_path mo -> durable (disk w) pending_snapshot_transfer_body_path bo ->
  staged_in mo bo p -> read_pending_snapshot_transfer w = (w', r) ->
  only [pending_snapshot_transfer_path; pending_snapshot_transfer_body_path] (disk w) (disk w') /\
  match r with
  | Ok (st, _) => pending_holds (disk w') st /\ staged_pending <$> st = p
  | Err _ => forall files, leaves (disk w') files -> staged files p
  end /\ (faults w = [] -> faults w' = [] /\ exists v, r = Ok v).
Proof.
  intros Hm Hb Hs.
  assert (forall w1, disk w1 = disk w -> forall files, leaves (disk w1) files -> staged files p) as Hsame.
  { intros w1 -> files Hl. unfold staged. by rewrite (leaves_durable _ _ _ _ Hl Hm), (leaves_durable _ _ _ _ Hl Hb). }
  unfold read_pending_snapshot_transfer, read_pending_snapshot_transfer_manifest.
  destruct (read_optional _ _ _ w) as [w1 r1] eqn:H1.
  destruct (reads_run _ _ _ _ _ _ (reads_optional _ _ _ _ _ Hm) eq_refl H1) as (Hd1 & Hr1 & Hf1).
  destruct r1 as [bytes|error].
  2: { intros [= <- <-]. split_and!; [by rewrite Hd1|by apply Hsame|]. intros Hf. by destruct (Hf1 Hf). }
  rewrite (Hr1 bytes eq_refl) in *. destruct mo as [bytes'|].
  2: { intros [= <- <-]. rewrite Hd1. split; [done|]. split; [|intros Hf; destruct (Hf1 Hf); eauto]. unfold staged_in in Hs. subst p.
       split; [|done]. split; [done|]. by eexists. }
  pose proof Hs as (m & Hv & -> & _). rewrite (proj2 (decode_pending_Ok _ m)) by done. cbn [map_err].
  destruct (open_read _ w1) as [w2 r2] eqn:H2. apply inspect_outcome in H2 as (Hd2 & Hf2 & Hr2). rewrite Hd1, Hb in Hr2.
  rewrite Hd1 in Hd2. rewrite <- Hd2 in Hm, Hb.
  destruct bo as [bo|]; simpl in Hr2.
  - destruct Hr2 as [->|(error & -> & Hk%N.eqb_neq & Hne)].
    + rewrite <- Hd2. intros (Ho & Hr & Hf)%(staged_body_law _ _ _ _ _ _ Hv Hm Hb Hs). split_and!; [done|done|].
      intros Hf'. apply Hf. destruct (Hf1 Hf'). by apply Hf2.
    + rewrite Hk. intros [= <- <-]. split_and!; [by rewrite Hd2|by apply Hsame|]. intros Hf. by destruct Hne, (Hf1 Hf).
  - assert (p = None) as -> by by destruct Hs as (? & _ & _ & ->).
    destruct Hr2 as [->|(error & -> & Hk%N.eqb_neq & Hne)].
    + cbn [io_kind not_found_error]. rewrite N.eqb_refl, <- Hd2.
      intros (Ho & Hr & Hf)%(discarded_law _ _ _ _ _ _ Hm Hb Hs). split_and!; [done| |].
      * destruct r as [[st rec]|]; [|done]. by destruct Hr as [Hr ->].
      * intros Hf'. apply Hf. destruct (Hf1 Hf'). by apply Hf2.
    + rewrite Hk. intros [= <- <-]. split_and!; [by rewrite Hd2|by apply Hsame|]. intros Hf. by destruct Hne, (Hf1 Hf).
Qed.

Lemma creation_sync_calm path sync w w' sync' r :
  creation_sync path sync w = (w', sync', r) ->
  only [] (disk w) (disk w') /\ (forall directory, recorded sync directory -> recorded sync' directory) /\
  (r = Ok tt -> entry_was (entry (disk w') path) = [] \/ recorded sync' (parent_directory path)) /\
  (faults w = [] -> faults w' = [] /\ r = Ok tt).
Proof.
  unfold creation_sync, sync_parent_directory, sync_directory. destruct sync as [|batch].
  - destruct (change_atomic _ w) as [w1 r1] eqn:H1. intros [= <- <- <-].
    assert (faults w = [] -> faults w1 = [] /\ r1 = Ok tt) as Hf.
    { intros Hf. rewrite change_atomic_calm in H1 by done. by injection H1 as <- <-. }
    apply change_atomic_spec in H1 as [[-> ->]|(error & -> & Hd)].
    + split_and!; [apply only_settle_directory|done| |done]. intros _. left. by rewrite entry_settle_directory, decide_True.
    + split_and!; [|done|done|done]. destruct Hd as [-> | ->]; [done|apply only_settle_directory].
  - intros [= <- <- <-]. destruct (recorded_parent batch path). split_and!; [done|done| |done]. intros _. by right.
Qed.

(** The directory, as it was found or created. *)
Lemma ensure_directory_law sync w w' sync' r dir :
  durable (disk w) snapshots_path dir -> dir = None \/ dir = Some [] -> ensure_directory sync w = (w', sync', r) ->
  only [snapshots_path] (disk w) (disk w') /\ (forall directory, recorded sync directory -> recorded sync' directory) /\
  (forall o, may (entry (disk w') snapshots_path) o -> o = dir \/ o = Some []) /\
  (forall created, r = Ok created -> entry_now (entry (disk w') snapshots_path) = Some (clean []) /\
     (entry_was (entry (disk w') snapshots_path) = [] \/ recorded sync' NodeDirectory)) /\
  (faults w = [] -> faults w' = [] /\ exists created, r = Ok created).
Proof.
  intros Hd Hdir. unfold ensure_directory. destruct (open_read snapshots_path w) as [w1 r1] eqn:H1.
  apply inspect_outcome in H1 as (Hd1 & Hf1 & Hr1). rewrite Hd in Hr1.
  assert (forall o, may (entry (disk w) snapshots_path) o -> o = dir \/ o = Some []) as Hsame.
  { intros o. rewrite Hd, may_settled. by left. }
  destruct Hr1 as [->|(error & -> & Hk%N.eqb_neq & Hne)].
  2: { rewrite Hk. cbn [negb]. intros [= <- <- <-]. rewrite Hd1. by split_and!. }
  destruct Hdir as [-> | ->]; simpl.
  2: { intros [= <- <- <-]. rewrite Hd1. split_and!; [done|done|done| |eauto]. intros created _. rewrite Hd. by split; [|left]. }
  destruct (create_dir snapshots_path w1) as [w2 r2] eqn:H2.
  assert (faults w = [] -> faults w2 = [] /\ r2 = Ok tt) as Hf2.
  { intros Hf. unfold create_dir in H2. rewrite change_atomic_calm in H2 by auto. injection H2 as <- <-. auto. }
  assert (only [snapshots_path] (disk w) (disk w2) /\ (forall o, may (entry (disk w2) snapshots_path) o -> o = None \/ o = Some []) /\
    (r2 = Ok tt -> entry_now (entry (disk w2) snapshots_path) = Some (clean []))) as (Ho2 & Hm2 & Hr2).
  { assert (entry (alter_entry created snapshots_path (disk w)) snapshots_path = renamed (Some (clean [])) vacant) as Hc
      by (rewrite entry_alter, Hd; done).
    assert (forall o, may (renamed (Some (clean [])) vacant) o -> o = None \/ o = Some []) as Hm.
    { intros o (x & Hx & H). simpl in Hx. rewrite elem_of_cons, list_elem_of_singleton in Hx.
      destruct Hx as [-> | ->], o as [o|]; try done; auto. right. by apply survives_clean in H as ->. }
    apply change_atomic_spec in H2 as [[-> ->]|(error & -> & [-> | ->])]; rewrite Hd1.
    - split_and!; [apply only_alter|by rewrite Hc|by rewrite Hc].
    - by split_and!.
    - split_and!; [apply only_alter|by rewrite Hc|done]. }
  destruct r2 as [[]|error].
  2: { intros [= <- <- <-]. split_and!; [done|done|done|done|]. intros Hf. by destruct (Hf2 Hf). }
  destruct (creation_sync snapshots_path sync w2) as [[w3 sync3] r3] eqn:H3. apply creation_sync_calm in H3 as (Ho3 & Hrec & Hw3 & Hf3).
  assert (calmer (entry (disk w2) snapshots_path) (entry (disk w3) snapshots_path)) as Hcalm by (apply Ho3; not_listed).
  intros [= <- <- <-]. split_and!; [|done| | |].
  - etrans; [done|]. eapply only_weaken; [done|]. intros q Hq. by apply elem_of_nil in Hq.
  - intros o Ho. apply Hm2. by eapply calmer_may.
  - intros created. destruct r3 as [[]|]; [|done]. intros _. destruct Hcalm as [-> _]. auto.
  - intros Hf. destruct (Hf2 Hf) as [Hf' _]. destruct (Hf3 Hf') as [? ->]. eauto.
Qed.

Section snapshot_opening.
Context (files : Files) (c : option RaftSnapshot) (p : option PendingSnapshotTransfer) (dir : option (list u8)).
Hypothesis Hdir : dir = None \/ dir = Some [].
Hypothesis Hselects : selects files c.
Hypothesis Hstaged : staged files p.

(** Everything in the directory is durable. *)
Definition found (d : Disk) : Prop :=
  forall path, parent_directory path = SnapshotDirectory -> durable d path (files path).

Lemma found_only d d' : found d -> only [snapshots_path] d d' -> found d'.
Proof.
  intros Hd Ho path Hp. eapply durable_only; [exact Ho| |by apply Hd]. intros ->%list_elem_of_singleton. done.
Qed.

Lemma reads_current (d : Disk) :
  found d -> exists manifest current next,
    reads_as d manifest read_manifest /\ reads_as d (current, next) (open_current manifest) /\
    current_holds d current /\ current_descriptor <$> current = c /\ (forall n, next = Some n -> fits64 n).
Proof.
  intros Hfound. pose proof (Hfound manifest_path eq_refl) as Hman.
  assert (forall manifest bytes, files manifest_path = bytes ->
    match bytes with None => manifest = None | Some bytes => exists m, manifest = Some m /\ decode_manifest bytes = Ok m end ->
    reads_as d manifest read_manifest) as Hread.
  { intros manifest bytes Hb Hm. unfold read_manifest. rewrite Hb in Hman.
    eapply reads_ext; [eapply (reads_then d bytes manifest
        (read_optional manifest_path "open raft snapshot manifest" "read raft snapshot manifest") (fun bytes w =>
      match bytes with None => (w, Ok None) | Some bytes =>
        (w, let? manifest := map_err OpenSnapshot_Manifest (decode_manifest bytes) in Ok (Some manifest)) end) (fun error => error));
      [by eapply reads_optional|]|done].
    destruct bytes as [bytes|]; [|subst; apply reads_ret]. destruct Hm as (m & -> & ->). apply reads_ret. }
  unfold selects in Hselects. destruct (files manifest_path) as [bytes|] eqn:Hbytes.
  - destruct Hselects as (m & meta & payload & Hm & Hown & He & Hs & Hp & Hfile & ->).
    pose proof (Hfound (snapshot_path (manifest_file_name m)) eq_refl) as Hd. rewrite Hfile in Hd.
    set (header := length_u64 (put_header meta (length_u64 payload))).
    exists (Some m), (Some {| current_file_name := manifest_file_name m; current_descriptor := from_payload meta payload;
      current_payload_offset := header |}), (u64_checked_add (manifest_sequence m) 1).
    split_and!.
    + apply (Hread _ (Some bytes) eq_refl). exists m. split; [done|]. by apply decode_manifest_Ok.
    + eapply (reads_then _ _ _ _ _ (fun error => error)); [apply (reads_envelope d (snapshot_path (manifest_file_name m)) meta payload Hd Hs Hp)|]. apply reads_ret.
    + exists m, bytes, meta, payload. by split_and!.
    + done.
    + intros n. unfold u64_checked_add, fits64, u64_max. destruct (N.leb_spec (manifest_sequence m + 1) 18446744073709551615); [|done].
      intros [= <-]. lia.
  - subst c. exists None, None, (Some 1). split_and!; [by apply (Hread _ None eq_refl)|apply reads_ret|done|done|by intros n [= <-]].
Qed.

(** What a crash leaves of a directory only read. *)
Lemma found_leaves d files' :
  found d -> leaves d files' -> selects files' c /\ staged files' p.
Proof.
  intros Hfound Hl. assert (forall path, parent_directory path = SnapshotDirectory -> files' path = files path) as Heq.
  { intros path Hp. by eapply leaves_durable; [|apply Hfound]. }
  split; [|unfold staged; by rewrite !Heq]. unfold selects. rewrite Heq by done. unfold selects in Hselects.
  destruct (files manifest_path); [|done]. destruct Hselects as (m & meta & payload & ? & ? & ? & ? & ? & Hf & ?).
  exists m, meta, payload. split_and!; try done. by rewrite Heq.
Qed.

Lemma staging_names_kept d d' :
  only [pending_snapshot_transfer_path; pending_snapshot_transfer_body_path] d d' -> inside d d'.
Proof. intros Ho. eapply only_inside; [done|by repeat constructor]. Qed.
End snapshot_opening.

(** Opening finds what the directory holds, and leaves it there. *)
Lemma snapshot_open_law files c p dir sync w w' sync' r :
  dir = None \/ dir = Some [] -> selects files c -> staged files p ->
  found files (disk w) -> durable (disk w) snapshots_path dir ->
  file_snapshot_open sync w = (w', sync', r) ->
  (forall q, parent_directory q = NodeDirectory -> q <> snapshots_path -> calmer (entry (disk w) q) (entry (disk w') q)) /\
  (forall directory, recorded sync directory -> recorded sync' directory) /\
  (forall files', leaves (disk w') files' ->
    (files' snapshots_path = dir \/ files' snapshots_path = Some []) /\ selects files' c /\ staged files' p) /\
  match r with
  | Ok (s, _) => fsn_health s = Healthy /\ current_holds (disk w') (fsn_current s) /\
      (forall n, fsn_next_sequence s = Some n -> fits64 n) /\ pending_holds (disk w') (fsn_pending s) /\
      file_current_snapshot s = c /\ fsn_staged_transfer s = p /\
      entry_now (entry (disk w') snapshots_path) = Some (clean []) /\
      (entry_was (entry (disk w') snapshots_path) = [] \/ recorded sync' NodeDirectory)
  | Err _ => True
  end /\ (faults w = [] -> faults w' = [] /\ exists v, r = Ok v).
Proof.
  intros Hdir Hsel Hst Hfound Hd. unfold file_snapshot_open. destruct (ensure_directory sync w) as [[w1 sync1] r1] eqn:H1.
  apply (ensure_directory_law _ _ _ _ _ _ Hd Hdir) in H1 as (Ho1 & Hrec1 & Hm1 & Hr1 & Hf1).
  assert (found files (disk w1)) as Hfound1 by by eapply found_only.
  assert (forall d, inside (disk w1) d -> forall q, parent_directory q = NodeDirectory -> q <> snapshots_path ->
    calmer (entry (disk w) q) (entry d q)) as Hin.
  { intros d Hi q Hq Hne. etrans; [apply Ho1; by rewrite list_elem_of_singleton|by apply Hi]. }
  assert (forall w2, disk w2 = disk w1 -> forall files', leaves (disk w2) files' ->
    (files' snapshots_path = dir \/ files' snapshots_path = Some []) /\ selects files' c /\ staged files' p) as Hsame.
  { intros w2 -> files' Hl. split; [apply Hm1, Hl|]. by eapply found_leaves. }
  destruct r1 as [created|error].
  2: { intros [= <- <- <-]. split; [by apply Hin|]. split; [done|]. split; [by apply Hsame|]. split; [done|]. intros Hf. by destruct (Hf1 Hf) as [_ [? ?]]. }
  destruct (Hr1 created eq_refl) as [Hnow Hwas]. destruct (reads_current _ _ Hsel _ Hfound1) as (manifest & current & next & Hman & Hcur & Hholds & <- & Hnext).
  destruct (read_manifest w1) as [w2 r2] eqn:H2. destruct (reads_run _ _ _ _ _ _ Hman eq_refl H2) as (Hd2 & Hr2 & Hf2).
  destruct r2 as [manifest'|error].
  2: { intros [= <- <- <-]. split; [by apply Hin; rewrite Hd2|]. split; [done|]. split; [by apply Hsame|]. split; [done|].
       intros Hf. destruct (Hf1 Hf) as [Hf' _]. by destruct (Hf2 Hf'). }
  rewrite (Hr2 manifest' eq_refl). destruct (open_current manifest w2) as [w3 r3] eqn:H3.
  destruct (reads_run _ _ _ _ _ _ Hcur Hd2 H3) as (Hd3 & Hr3 & Hf3). destruct r3 as [[current' next']|error].
  2: { intros [= <- <- <-]. split; [by apply Hin; rewrite Hd3|]. split; [done|]. split; [by apply Hsame|]. split; [done|].
       intros Hf. destruct (Hf1 Hf) as [Hf' _]. destruct (Hf2 Hf') as [Hf'' _]. by destruct (Hf3 Hf''). }
  injection (Hr3 _ eq_refl) as -> ->. destruct (read_pending_snapshot_transfer w3) as [w4 r4] eqn:H4.
  pose proof (Hfound1 pending_snapshot_transfer_path eq_refl) as Hp1. pose proof (Hfound1 pending_snapshot_transfer_body_path eq_refl) as Hp2.
  rewrite <- Hd3 in Hp1, Hp2. apply (read_pending_law _ _ _ _ _ _ Hp1 Hp2 Hst) in H4 as (Ho4 & Hr4 & Hf4). rewrite Hd3 in Ho4.
  pose proof (staging_names_kept _ _ Ho4) as Hi4.
  assert (forall q, q = snapshots_path -> calmer (entry (disk w1) q) (entry (disk w4) q)) as Hcalm by (intros q ->; by apply Hi4).
  assert (faults w = [] -> faults w4 = [] /\ exists v, r4 = Ok v) as Hf.
  { intros Hf. destruct (Hf1 Hf) as [Hf' _]. destruct (Hf2 Hf') as [Hf'' _]. by apply Hf4, Hf3. }
  assert (current_holds (disk w4) current) as Hc4.
  { eapply current_holds_only; [exact Ho4|not_listed| |done]. intros c' ->. destruct Hholds as (m & _ & _ & _ & _ & Hown & _ & _ & _ & _ & _ & Hn & _).
    rewrite Hn. intros Hin'. eapply (own_name_reserved _ 0); [done|]. revert Hin'. rewrite elem_of_cons, list_elem_of_singleton.
    intros [-> | ->]; by in_reserved. }
  assert (forall data, may (entry (disk w4) snapshots_path) data -> data = dir \/ data = Some []) as Hdirs.
  { intros data Hl. apply Hm1. eapply calmer_may; [by apply Hcalm|done]. }
  destruct (Hcalm _ eq_refl) as [Hnow4 Hwas4].
  destruct r4 as [[st recovery]|error]; intros [= <- <- <-]; (split; [by apply Hin|]); (split; [done|]).
  - split; [by destruct Hr4 as [Hr4 <-]; intros files' Hl; split_and!; [apply Hdirs, Hl|eapply current_holds_selects|eapply pending_holds_staged]|].
    split; [|intros H; destruct (Hf H); eauto]. destruct Hr4 as [Hr4 <-]. split_and!; try done.
    + by rewrite Hnow4.
    + simpl. destruct Hwas4 as [-> | ->]; [done|by left].
  - split; [by intros files' Hl; split_and!; [apply Hdirs, Hl|eapply current_holds_selects|apply Hr4]|].
    split; [done|]. intros H. by destruct (Hf H) as [_ [? ?]].
Qed.
