(* ===== verification/FileStores.v ===== *)
(** * The stores of a node in a directory

    Models [crates/rafter-storage/src/file_node_stores.rs],
    [journal_node_stores.rs] and [file_store_ownership.rs]: the three file-backed
    stores of a replica opened together, over either hard-state backend, and the
    storage traits they implement.

    The stores keep the laws of [Stores]: what is proved of the durable runtime
    over any lawful stores holds over these files.  A store is reopened after a
    crash of the host, and an opening that fails may be followed by another
    crash and another opening.  The operating system's lock is a parameter. *)

From Stdlib Require Import Strings.Byte.
From stdpp Require Import base strings list sorting numbers option pretty gmap relations.
From S2P Require Import Prelude.
From S2P Require Import Types.
From S2P Require Import Membership.
From S2P Require Import Snapshot.
From S2P Require Import CodecSpec.
From S2P Require Import Stores.
From S2P Require Import MemoryStores.
From S2P Require Import StorageSpec.
From S2P Require Import SnapshotFormat.
From S2P Require Import FileSystem.
From S2P Require Import HardStateFile.
From S2P Require Import LogFile.
From S2P Require Import SnapshotFile.
From S2P Require Import SnapshotStoreSpec.

(** ** Ownership of the directory *)

Definition FILE_STORE_OWNERSHIP_LOCK_NAME : string := ".rafter-storage.lock".

Definition lock_path : StorePath := (NodeDirectory, FILE_STORE_OWNERSHIP_LOCK_NAME).

Definition ErrorKind_InvalidInput : N := 4.

(** The answer of the operating system to [try_lock]. *)
Inductive TryLock := Locked | WouldBlock | LockError (source : StorageIoError).

Inductive AcquireFileStoreOwnershipError :=
| AlreadyHeld
| Ownership_Io (operation path : string) (source : StorageIoError).

Definition acquire_file_store_ownership (try_lock : World -> TryLock) (w : World)
  : World * result unit AcquireFileStoreOwnershipError :=
  match open_append lock_path w with
  | (w, Err source) =>
      (w, Err (Ownership_Io "open raft node store ownership lock" (path_display lock_path) source))
  | (w, Ok _) =>
      match try_lock w with
      | Locked => (w, Ok tt)
      | WouldBlock => (w, Err AlreadyHeld)
      | LockError source =>
          (w, Err (Ownership_Io "acquire raft node store ownership lock" (path_display lock_path) source))
      end
  end.

(** ** The bundle *)

Definition not_a_directory : StorageIoError :=
  {| io_kind := ErrorKind_InvalidInput; io_raw_os_error := None; io_message := "not a directory" |}.

Record NodeStores (S : Type) := {
  ns_world : World;
  ns_hard_state : S;
  ns_log_segment : FileRaftLogSegment;
  ns_snapshot_store : FileRaftSnapshotStore;
}.
Arguments ns_world {S}.
Arguments ns_hard_state {S}.
Arguments ns_log_segment {S}.
Arguments ns_snapshot_store {S}.

(** The variants of [OpenFileRaftNodeStoresError]; the error of the journal's
    bundle has [HardState] beside them. *)
Inductive OpenNodeStoresError (Error : Type) :=
| NodeStores_AlreadyOpen
| NodeStores_HardState (error : Error)
| NodeStores_Log (error : OpenRaftLogSegmentError)
| NodeStores_Snapshot (error : OpenRaftSnapshotStoreError)
| NodeStores_Io (operation path : string) (source : StorageIoError).
Arguments NodeStores_AlreadyOpen {Error}.
Arguments NodeStores_HardState {Error} error.
Arguments NodeStores_Log {Error} error.
Arguments NodeStores_Snapshot {Error} error.
Arguments NodeStores_Io {Error} operation path source.

Inductive LogOpenMode := LogStrict | LogRepairUncommittedTail.

Definition ownership_error {Error} (error : AcquireFileStoreOwnershipError) : OpenNodeStoresError Error :=
  match error with
  | AlreadyHeld => NodeStores_AlreadyOpen
  | Ownership_Io operation path source => NodeStores_Io operation path source
  end.

Section opening.
Context {S Error : Type} `{HardStateBackend S Error}.

Abbreviation Opened := (World * result (S * FileRaftLogSegment * FileRaftSnapshotStore) (OpenNodeStoresError Error))%type.

Definition log_mode (log_open_mode : LogOpenMode) (hard_state : S) : OpenMode :=
  match log_open_mode with
  | LogStrict => Strict
  | LogRepairUncommittedTail => RepairUncommittedTail (hs_commit_index (hb_current hard_state))
  end.

(** The batched syncs, at the end. *)
Definition flush_sync (sync : CreationSync) : io unit :=
  match sync with
  | Immediate => io_ret tt
  | Batched batch => let* _ := flush batch in io_ret tt
  end.

(** The three stores, once the directory is owned. *)
Definition open_stores (log_open_mode : LogOpenMode) (w : World) : Opened :=
  match hb_open w with
  | (w, Err error) => (w, Err (NodeStores_HardState error))
  | (w, Ok hard_state) =>
      match file_log_open log_path (Batched ParentDirectorySyncBatch_new) (log_mode log_open_mode hard_state) w with
      | (w, _, Err error) => (w, Err (NodeStores_Log error))
      | (w, sync, Ok log_segment) =>
          match file_snapshot_open sync w with
          | (w, _, Err error) => (w, Err (NodeStores_Snapshot error))
          | (w, sync, Ok (snapshot_store, _)) =>
              match flush_sync sync w with
              | (w, Err error) => (w, Err (NodeStores_Io "sync raft node store directory" "" error))
              | (w, Ok _) => (w, Ok (hard_state, log_segment, snapshot_store))
              end
          end
      end
  end.

(** [JournalRaftNodeStores::open_inner] *)
Definition open_inner (try_lock : World -> TryLock) (log_open_mode : LogOpenMode) (w : World) : Opened :=
  match acquire_file_store_ownership try_lock w with
  | (w, Err error) => (w, Err (ownership_error error))
  | (w, Ok _) => open_stores log_open_mode w
  end.

(** [FileRaftNodeStores::open_with_log_repair]; [is_dir] is what the metadata of
    the path tell. *)
Definition open_with_log_repair (is_dir : bool) (try_lock : World -> TryLock) (log_open_mode : LogOpenMode)
    (w : World) : Opened :=
  match inspect (fun _ => Ok is_dir) w with
  | (w, Err error) => (w, Err (NodeStores_Io "open raft node store directory" "" error))
  | (w, Ok false) => (w, Err (NodeStores_Io "open raft node store directory" "" not_a_directory))
  | (w, Ok true) => open_inner try_lock log_open_mode w
  end.
End opening.

(** The constructors of the two bundles. *)
Definition FileRaftNodeStores_open (is_dir : bool) (try_lock : World -> TryLock) :=
  open_with_log_repair (S := FileRaftHardStateStore) is_dir try_lock LogStrict.
Definition FileRaftNodeStores_open_repairing_uncommitted_log_tail (is_dir : bool) (try_lock : World -> TryLock) :=
  open_with_log_repair (S := FileRaftHardStateStore) is_dir try_lock LogRepairUncommittedTail.
Definition JournalRaftNodeStores_open (try_lock : World -> TryLock) :=
  open_inner (S := JournalRaftHardStateStore) try_lock LogStrict.
Definition JournalRaftNodeStores_open_repairing_uncommitted_log_tail (try_lock : World -> TryLock) :=
  open_inner (S := JournalRaftHardStateStore) try_lock LogRepairUncommittedTail.

(** The bundle over the medium it was opened on. *)
Definition bundled {S} (w : World) (parts : S * FileRaftLogSegment * FileRaftSnapshotStore) : NodeStores S :=
  let '(hard_state, log_segment, snapshot_store) := parts in
  {| ns_world := w; ns_hard_state := hard_state; ns_log_segment := log_segment; ns_snapshot_store := snapshot_store |}.

(** ** The storage traits

    The fields of the program's values have machine types; the model's numbers
    do not.  A value no program can build is refused here. *)

#[export] Instance fits64_dec n : Decision (fits64 n).
Proof. unfold fits64. apply _. Defined.
#[export] Instance fits32_dec n : Decision (fits32 n).
Proof. unfold fits32. apply _. Defined.
#[export] Instance from_option_dec {A} (P : A -> Prop) `{!forall a, Decision (P a)} o : Decision (from_option P True o).
Proof. destruct o; apply _. Defined.
#[export] Instance hard_state_fits_dec hs : Decision (hard_state_fits hs).
Proof. unfold hard_state_fits. apply _. Defined.
#[export] Instance MembershipSet_wf_dec m : Decision (MembershipSet_wf m).
Proof.
  unfold MembershipSet_wf. refine (cast_if (decide (voters m <> [] /\ ascending (voters m) /\ ascending (learners m) /\
    Forall (fun x => x ∉ learners m) (voters m)))); by rewrite Forall_forall in *.
Defined.
#[export] Instance set_valid_dec m : Decision (set_valid m).
Proof. unfold set_valid. apply _. Defined.
#[export] Instance config_valid_dec c : Decision (config_valid c).
Proof. destruct c; simpl; apply _. Defined.
#[export] Instance option_valid_dec {A} (P : A -> Prop) `{!forall a, Decision (P a)} o : Decision (option_valid P o).
Proof. destruct o; simpl; apply _. Defined.
#[export] Instance scc_valid_dec c : Decision (scc_valid c).
Proof. unfold scc_valid, identity_valid. apply _. Defined.
#[export] Instance id_valid_dec field value : Decision (id_valid field value).
Proof. unfold id_valid. destruct (validate_snapshot_id field value) as [[]|]; [by left|by right]. Defined.
#[export] Instance version_valid_dec v : Decision (version_valid v).
Proof. unfold version_valid, fits16. apply _. Defined.
#[export] Instance metadata_valid_dec m : Decision (metadata_valid m).
Proof. unfold metadata_valid, boundary_valid. apply _. Defined.
#[export] Instance kind_fits_dec kind : Decision (kind_fits kind).
Proof. destruct kind as [|[]|]; simpl; unfold joint_valid; apply _. Defined.
#[export] Instance entry_fits_dec e : Decision (entry_fits e).
Proof. unfold entry_fits. apply _. Defined.
#[export] Instance payload_fits_dec len : Decision (payload_fits len).
Proof. unfold payload_fits. apply _. Defined.
#[export] Instance chunk_fits_dec chunk : Decision (chunk_fits chunk).
Proof. unfold chunk_fits. apply _. Defined.

Section bundle.
Context {S Error : Type} `{HardStateBackend S Error}.
Implicit Types d : NodeStores S.

(** An operation of one of the stores. *)
Definition on_hard_state {R} (d : NodeStores S) (run : World -> S -> World * S * R) : NodeStores S * R :=
  let '(w, hard_state, r) := run (ns_world d) (ns_hard_state d) in
  ({| ns_world := w; ns_hard_state := hard_state; ns_log_segment := ns_log_segment d;
      ns_snapshot_store := ns_snapshot_store d |}, r).
Definition on_log {R} (d : NodeStores S) (run : World -> FileRaftLogSegment -> World * FileRaftLogSegment * R)
  : NodeStores S * R :=
  let '(w, log_segment, r) := run (ns_world d) (ns_log_segment d) in
  ({| ns_world := w; ns_hard_state := ns_hard_state d; ns_log_segment := log_segment;
      ns_snapshot_store := ns_snapshot_store d |}, r).
Definition on_snapshots {R} (d : NodeStores S)
    (run : World -> FileRaftSnapshotStore -> World * FileRaftSnapshotStore * R) : NodeStores S * R :=
  let '(w, snapshot_store, r) := run (ns_world d) (ns_snapshot_store d) in
  ({| ns_world := w; ns_hard_state := ns_hard_state d; ns_log_segment := ns_log_segment d;
      ns_snapshot_store := snapshot_store |}, r).

(** A call with values of the machine types. *)
Definition representable {A E} (P : Prop) `{!Decision P} (refusal : E) (call : NodeStores S * result A E) d
  : NodeStores S * result A E :=
  if decide P then call else (d, Err refusal).

#[export] Instance node_hard_state_store : RaftHardStateStore (NodeStores S) := {|
  persistence_domain := fun _ => None;
  write_hard_state := fun d state =>
    representable (hard_state_fits state) HardStateRequiresReopen
      (on_hard_state d (fun w s => hb_write w s state)) d;
  hard_state_current := fun d => hb_current (ns_hard_state d);
|}.

#[export] Instance node_log_segment : RaftLogSegment (NodeStores S) := {|
  persist_batch := fun d _ _ => (d, Ok None);
  append_entries := fun d entries =>
    representable (Forall entry_fits entries) AppendRequiresReopen
      (on_log d (fun w s => file_append_entries w s entries)) d;
  truncate_suffix := fun d from_index => on_log d (fun w s => file_truncate_suffix w s from_index);
  compact_prefix_through := fun d through_index =>
    on_log d (fun w s => file_compact_prefix_through w s through_index);
  replay_entries := fun d => cle_entries (flog_entries (ns_log_segment d));
  segment_next_index := fun d => flog_next_index (ns_log_segment d);
  compacted_through := fun d => flog_compacted_through (ns_log_segment d);
|}.

Definition descriptor_fits (snapshot : RaftSnapshot) : Prop :=
  metadata_valid (metadata snapshot) /\ payload_fits (application_payload_len snapshot).

#[export] Instance descriptor_fits_dec snapshot : Decision (descriptor_fits snapshot).
Proof. unfold descriptor_fits. apply _. Defined.

#[export] Instance node_snapshot_store : RaftSnapshotStore (NodeStores S) := {|
  write_snapshot := fun d snapshot =>
    representable (descriptor_fits (from_payload (prs_metadata snapshot) (prs_application_payload snapshot)))
      SnapshotRequiresReopen (on_snapshots d (fun w s => file_write_snapshot w s snapshot)) d;
  write_snapshot_from_source := fun d snapshot source =>
    representable (descriptor_fits snapshot) SnapshotRequiresReopen
      (on_snapshots d (fun w s => file_write_snapshot_from_source w s snapshot source)) d;
  current_snapshot := fun d => file_current_snapshot (ns_snapshot_store d);
  stage_snapshot_chunk := fun d chunk =>
    representable (chunk_fits chunk) SnapshotRequiresReopen
      (on_snapshots d (fun w s => file_stage_snapshot_chunk w s chunk)) d;
  promote_staged_snapshot := fun d snapshot =>
    representable (descriptor_fits snapshot) SnapshotRequiresReopen
      (on_snapshots d (fun w s => file_promote_staged_snapshot w s snapshot)) d;
  clear_pending_snapshot_transfer := fun d => on_snapshots d file_clear_pending;
  current_pending_snapshot_transfer := fun d => fsn_staged_transfer (ns_snapshot_store d);
|}.

#[export] Instance node_chunk_source : SnapshotChunkSource (NodeStores S) := {|
  snapshot_chunk := fun d request => file_snapshot_chunk (ns_world d) (ns_snapshot_store d) request;
|}.
End bundle.

(** ** What the files tell *)

(** A crash: some contents of every name, the directory of snapshots lost with
    its name. *)
Definition collapsed (files : Files) : Files := fun path =>
  match parent_directory path, files snapshots_path with
  | SnapshotDirectory, None => None
  | _, _ => files path
  end.

Lemma crash_leaves d d' : crash d d' -> exists files, leaves d files /\ forall path, durable d' path (collapsed files path).
Proof. intros [pick H]. exists pick. split; intros path; destruct (H path) as [Hm He]; [done|]. unfold durable. by rewrite He. Qed.

(** Two disks with the same names. *)
Lemma leaves_only ps d d' files path : leaves d' files -> only ps d d' -> path ∉ ps -> may (entry d path) (files path).
Proof. intros Hl Ho Hp. eapply calmer_may; [by apply Ho|apply Hl]. Qed.

Section tells.
Context {S Error : Type} `{HardStateBackendLaws S Error}.
Implicit Types d : NodeStores S.

(** The snapshots in [files], if there is a directory of them. *)
Definition tells_snapshots (files : Files) (c : option RaftSnapshot) (p : option PendingSnapshotTransfer) : Prop :=
  files snapshots_path = None /\ c = None /\ p = None \/
  files snapshots_path = Some [] /\ selects files c /\ staged files p.

(** What opening finds in [files]. *)
Definition tells (files : Files) (im : Image) : Prop :=
  (forall hs, hb_reads (files hard_state_path) hs -> hs = im_hard im) /\
  log_reads (files log_path) (files marker_path) (im_compacted im) (im_log im) /\
  tells_snapshots files (im_snapshot im) (im_pending im).

(** And the hard state can be read. *)
Definition tells_fully (files : Files) (im : Image) : Prop :=
  tells files im /\ hb_reads (files hard_state_path) (im_hard im).

(** The handles' view is what is on the disk, durably. *)
Definition holds (d : NodeStores S) : Prop :=
  hb_holds (entry (disk (ns_world d)) hard_state_path) (ns_hard_state d) /\
  log_holds (disk (ns_world d)) (ns_log_segment d) (im_log (image d)) /\
  snapshots_hold (disk (ns_world d)) (ns_snapshot_store d).

Lemma tells_collapsed files c p :
  tells_snapshots files c p ->
  (collapsed files snapshots_path = None \/ collapsed files snapshots_path = Some []) /\
  selects (collapsed files) c /\ staged (collapsed files) p.
Proof.
  unfold collapsed. intros [(Hd & -> & ->)|(Hd & Hs & Hp)].
  - split; [by left|]. unfold selects, staged, staged_in. simpl. by rewrite Hd.
  - split; [by right|]. revert Hs Hp. unfold selects, staged. simpl. by rewrite Hd.
Qed.

Lemma tells_directory files dir c p :
  files snapshots_path = dir \/ files snapshots_path = Some [] -> dir = None \/ dir = Some [] ->
  (dir = None -> c = None /\ p = None) -> selects files c -> staged files p -> tells_snapshots files c p.
Proof.
  intros Hf Hd Hn Hs Hp. destruct (files snapshots_path) as [bytes|] eqn:E.
  - right. rewrite E. destruct Hf as [<-|[= ->]]; [destruct Hd as [|[= ->]]; done|done].
  - left. destruct Hf as [<-|]; [|done]. by destruct (Hn eq_refl).
Qed.

Lemma hb_holds_tells e s o hs : hb_holds e s -> may e o -> hb_reads o hs -> hs = hb_current s.
Proof.
  intros (o' & -> & Hr)%hb_holds_settled ->%may_settled Hr'. by eapply hb_reads_unique.
Qed.

Lemma hb_holds_reads e s o : hb_holds e s -> may e o -> hb_reads o (hb_current s).
Proof. by intros (o' & -> & Hr)%hb_holds_settled ->%may_settled. Qed.

Lemma holds_tells d files : holds d -> leaves (disk (ns_world d)) files -> tells_fully files (image d).
Proof.
  intros (Hh & Hl & Hs) Hf. split; [|by eapply hb_holds_reads]. split_and!.
  - intros hs Hr. by eapply hb_holds_tells.
  - eapply (holds_reads (ns_world d)); [done|apply Hf..].
  - right. pose proof Hs as (_ & Hd & _). split; [by eapply leaves_durable|]. by eapply holds_leaves.
Qed.
End tells.

(** ** Frames *)

Ltac not_named := unfold hard_state_names, log_names; not_listed.

Lemma log_holds_only ps d d' s entries :
  only ps d d' -> log_path ∉ ps -> marker_path ∉ ps -> log_holds d s entries -> log_holds d' s entries.
Proof.
  intros Ho H1 H2 (Hv & (marker & Hm & Hmr) & physical & Hl & Hr). split; [done|]. split.
  - exists marker. split; [by eapply durable_only|done].
  - exists physical. split; [by eapply durable_only|done].
Qed.

Lemma snapshots_hold_only ps d d' s :
  only ps d d' -> Forall (fun path => parent_directory path = NodeDirectory /\ path <> snapshots_path) ps ->
  snapshots_hold d s -> snapshots_hold d' s.
Proof.
  intros Ho Hps (Hh & Hd & Hc & Hn & Hp). rewrite Forall_forall in Hps.
  assert (forall path, parent_directory path = SnapshotDirectory \/ path = snapshots_path -> path ∉ ps) as Hnot.
  { intros path Hpath Hin. destruct (Hps _ Hin). destruct Hpath; congruence. }
  split_and!; [done| | |done|].
  - eapply durable_only; [done|apply Hnot; by right|done].
  - eapply current_holds_only; [done|apply Hnot; by left| |done]. intros c' _. apply Hnot. by left.
  - eapply pending_holds_only; [done|apply Hnot; by left..|done].
Qed.

Lemma inside_only d d' q data : inside d d' -> parent_directory q = NodeDirectory -> durable d q data -> durable d' q data.
Proof. intros Hi Hq Hd. apply calmer_settled. rewrite <- Hd. by apply Hi. Qed.

Lemma log_holds_inside d d' s entries : inside d d' -> log_holds d s entries -> log_holds d' s entries.
Proof.
  intros Hi (Hv & (marker & Hm & Hmr) & physical & Hl & Hr). split; [done|]. split.
  - exists marker. split; [by eapply inside_only|done].
  - exists physical. split; [by eapply inside_only|done].
Qed.

(** ** Opening *)

Lemma flush_parents_law parents w w' r :
  flush_parents parents w = (w', r) ->
  only [] (disk w) (disk w') /\
  (r = Ok tt -> forall q, parent_directory q ∈ parents -> entry_was (entry (disk w') q) = []) /\
  (faults w = [] -> r = Ok tt /\ faults w' = []).
Proof.
  revert w. induction parents as [|parent parents IH]; intros w; cbn [flush_parents].
  - intros [= <- <-]. split_and!; [done|set_solver|done].
  - intros [(w1 & [] & H1 & H2)|(error & H1 & ->)]%io_bind_inv.
    + destruct (IH _ H2) as (Ho & Hw & Hf). pose proof H1 as [[_ Hd]|(? & [=] & _)]%change_atomic_spec.
      split_and!.
      * etrans; [|exact Ho]. rewrite Hd. apply only_settle_directory.
      * intros Hr q [Hq|Hq]%elem_of_cons; [|by apply Hw]. destruct (Ho q) as [_ [Hc|Hc]]; [set_solver| |done].
        rewrite Hc, Hd, entry_settle_directory, decide_True by done. done.
      * intros Hc. apply Hf. unfold sync_directory in H1. rewrite change_atomic_calm in H1 by done. by injection H1 as <-.
    + pose proof H1 as [[[=] _]|(? & _ & Hd)]%change_atomic_spec. split_and!; [|done|].
      * destruct Hd as [-> | ->]; [done|apply only_settle_directory].
      * intros Hc. unfold sync_directory in H1. by rewrite change_atomic_calm in H1.
Qed.

Lemma flush_sync_law sync w w' r :
  flush_sync sync w = (w', r) ->
  only [] (disk w) (disk w') /\
  (r = Ok tt -> forall q, recorded sync (parent_directory q) -> entry_was (entry (disk w') q) = []) /\
  (faults w = [] -> r = Ok tt /\ faults w' = []).
Proof.
  destruct sync as [|batch]; simpl; [by intros [= <- <-]|]. unfold flush, io_bind, io_ret.
  destruct (flush_parents _ w) as [w1 [[]|error]] eqn:E; apply flush_parents_law in E as (Ho & Hw & Hf);
    intros [= <- <-]; split_and!; auto.
Qed.

(** A name that was synced, or is among those to be synced. *)
Lemma flushed sync w w' r path data :
  flush_sync sync w = (w', r) -> r = Ok tt -> parent_directory path = NodeDirectory ->
  entry_now (entry (disk w) path) = Some (clean data) ->
  (entry_was (entry (disk w) path) = [] \/ recorded sync NodeDirectory) ->
  durable (disk w') path (Some data).
Proof.
  intros (Ho & Hw & _)%flush_sync_law -> Hp Hn Hwas. destruct (Ho path) as [Hn' Hc]; [set_solver|].
  assert (entry_was (entry (disk w') path) = []) as He.
  { destruct Hwas as [Hwas|Hrec]; [destruct Hc as [-> | ->]; done|]. apply Hw; [done|]. by rewrite Hp. }
  unfold durable, settled. destruct (entry (disk w') path) as [now was]. simpl in *. by rewrite He, Hn', Hn.
Qed.

Lemma acquire_law try_lock w w' r :
  acquire_file_store_ownership try_lock w = (w', r) -> only [lock_path] (disk w) (disk w').
Proof.
  unfold acquire_file_store_ownership. destruct (open_append lock_path w) as [w1 r1] eqn:E.
  intros Hrun. assert (w' = w1) as -> by (destruct r1; [case_match|]; by injection Hrun).
  apply change_atomic_spec in E as [[_ ->]|(? & _ & [-> | ->])]; [apply only_alter|done|apply only_alter].
Qed.

Section opening_law.
Context {S Error : Type} `{HardStateBackendLaws S Error}.
Context (files : Files) (im : Image).
Hypothesis Htells : tells files im.

(** What was found is still what a crash would leave. *)
Definition hard_state_kept (d : Disk) : Prop :=
  forall o hs, may (entry d hard_state_path) o -> hb_reads o hs -> hs = im_hard im.
Definition log_kept (d : Disk) : Prop :=
  forall log marker, may (entry d log_path) log -> may (entry d marker_path) marker ->
    log_reads log marker (im_compacted im) (im_log im).
Definition snapshots_kept (d : Disk) : Prop :=
  forall files', leaves d files' -> tells_snapshots files' (im_snapshot im) (im_pending im).

(** The directory of snapshots was not touched. *)
Definition snapshots_rest (d : Disk) : Prop :=
  found (collapsed files) d /\ durable d snapshots_path (collapsed files snapshots_path).

(** The directory after a crash, but for the lock. *)
Definition rests (d : Disk) : Prop := forall path, path <> lock_path -> durable d path (collapsed files path).

Lemma kept_tells d files' :
  hard_state_kept d -> log_kept d -> snapshots_kept d -> leaves d files' -> tells files' im.
Proof. intros Hh Hl Hs Hf. split_and!; [intros hs; apply Hh, Hf|apply Hl; apply Hf|by apply Hs]. Qed.

Lemma hard_state_kept_only ps d d' : only ps d d' -> hard_state_path ∉ ps -> hard_state_kept d -> hard_state_kept d'.
Proof. intros Ho Hp Hk o hs Hm. apply Hk. eapply calmer_may; [by apply Ho|done]. Qed.

Lemma log_kept_only ps d d' : only ps d d' -> log_path ∉ ps -> marker_path ∉ ps -> log_kept d -> log_kept d'.
Proof. intros Ho H1 H2 Hk log marker Hl Hm. apply Hk; (eapply calmer_may; [by apply Ho|done]). Qed.

Lemma snapshots_rest_only ps d d' :
  only ps d d' -> Forall (fun path => parent_directory path = NodeDirectory /\ path <> snapshots_path) ps ->
  snapshots_rest d -> snapshots_rest d'.
Proof.
  intros Ho Hps [Hf Hd]. rewrite Forall_forall in Hps. split.
  - intros path Hp. eapply durable_only; [done| |by apply Hf]. intros [? _]%Hps. congruence.
  - eapply durable_only; [done| |done]. by intros [_ []]%Hps.
Qed.

Lemma snapshots_rest_kept d : snapshots_rest d -> snapshots_kept d.
Proof.
  destruct Htells as (_ & _ & Ht). intros [Hf Hd] files' Hl. pose proof (leaves_durable _ _ _ _ Hl Hd) as Hdir.
  destruct (tells_collapsed _ _ _ Ht) as (Hc & Hs & Hp).
  destruct (found_leaves _ _ _ Hs Hp _ _ Hf Hl) as [Hs' Hp'].
  eapply tells_directory; [by left|done| |done|done]. unfold collapsed. simpl. intros Hn.
  destruct Ht as [(_ & Ht)|(Ht & _)]; [done|]. congruence.
Qed.

Lemma rests_kept d : rests d -> hard_state_kept d /\ log_kept d /\ snapshots_rest d.
Proof.
  intros Hr. destruct Htells as (Hh & Hl & _). split_and!.
  - intros o hs. rewrite (Hr hard_state_path) by done. intros ->%may_settled. apply Hh.
  - intros log marker. rewrite (Hr log_path), (Hr marker_path) by done. intros ->%may_settled ->%may_settled. done.
  - split; [|by apply Hr]. intros path Hp. apply Hr. by intros ->.
Qed.

Lemma rests_only d d' : rests d -> only [lock_path] d d' -> rests d'.
Proof. intros Hr Ho path Hp. eapply durable_only; [done| |by apply Hr]. by intros ->%list_elem_of_singleton. Qed.

(** The opening of the hard state. *)
Lemma hard_state_stage w w' r :
  rests (disk w) -> hb_open w = (w', r) ->
  hard_state_kept (disk w') /\ snapshots_rest (disk w') /\
  durable (disk w') log_path (files log_path) /\ durable (disk w') marker_path (files marker_path) /\
  (forall s, r = Ok s -> hb_holds (entry (disk w') hard_state_path) s /\ hb_current s = im_hard im).
Proof.
  intros Hr Hopen. pose proof (Hr hard_state_path ltac:(done)) as Hd. destruct (rests_kept _ Hr) as (Hhk & _ & Hsr).
  assert (only hard_state_names (disk w) (disk w') /\ hard_state_kept (disk w') /\
    (forall s, r = Ok s -> hb_holds (entry (disk w') hard_state_path) s /\ hb_current s = im_hard im)) as (Ho & Hk & Hs).
  { destruct r as [s|error].
    - destruct (hb_open_law _ _ _ _ Hd Hopen) as (Ho & Hh & Hrd). apply (Hhk (collapsed files hard_state_path)) in Hrd;
        [|rewrite Hd; by apply may_settled]. split_and!; [done| |by intros ? [= <-]].
      intros o hs Hm Hrd'. rewrite <- Hrd. by eapply hb_holds_tells.
    - destruct (hb_open_failed _ _ _ _ Hd Hopen) as [Ho Hh]; [done|]. split_and!; [done| |done].
      intros o hs Hm Hrd. apply (Hhk (collapsed files hard_state_path)); [rewrite Hd; by apply may_settled|by eapply Hh]. }
  split_and!; [done| | | |done].
  - eapply snapshots_rest_only; [done| |done]. by repeat constructor.
  - eapply durable_only; [done|not_named|by apply Hr].
  - eapply durable_only; [done|not_named|by apply Hr].
Qed.

(** The opening of the log. *)
Lemma log_stage commit sync w w' sync' r :
  hard_state_kept (disk w) -> snapshots_rest (disk w) ->
  durable (disk w) log_path (files log_path) -> durable (disk w) marker_path (files marker_path) ->
  file_log_open log_path sync (RepairUncommittedTail commit) w = (w', sync', r) ->
  only [log_path] (disk w) (disk w') /\ hard_state_kept (disk w') /\ log_kept (disk w') /\ snapshots_rest (disk w') /\
  (forall s, r = Ok s -> log_view s (im_log im) /\ flog_compacted_through s = im_compacted im /\
    exists physical, retains (im_compacted im) physical (im_log im) /\
      entry_now (entry (disk w') log_path) = Some (clean (segment physical)) /\
      (entry_was (entry (disk w') log_path) = [] \/ recorded sync' NodeDirectory)).
Proof.
  intros Hh Hsr Hl Hm Hopen. destruct Htells as (_ & Hlr & _).
  destruct (open_law _ _ _ _ Hlr _ _ _ _ _ _ Hl Hm Hopen) as (Ho & _ & Hk & Hr). split_and!.
  - done.
  - eapply hard_state_kept_only; [done|not_listed|done].
  - intros log marker Hml Hmm. assert (durable (disk w') marker_path (files marker_path)) as Hm'
      by (eapply durable_only; [done|not_listed|done]). rewrite Hm' in Hmm. apply may_settled in Hmm as ->. by apply Hk.
  - eapply snapshots_rest_only; [done| |done]. by repeat constructor.
  - by intros s ->.
Qed.

(** The opening of the snapshots. *)
Lemma snapshot_stage sync w w' sync' r :
  hard_state_kept (disk w) -> log_kept (disk w) -> snapshots_rest (disk w) ->
  file_snapshot_open sync w = (w', sync', r) ->
  (forall q, parent_directory q = NodeDirectory -> q <> snapshots_path -> calmer (entry (disk w) q) (entry (disk w') q)) /\
  (forall directory, recorded sync directory -> recorded sync' directory) /\
  hard_state_kept (disk w') /\ log_kept (disk w') /\ snapshots_kept (disk w') /\
  (forall s report, r = Ok (s, report) -> fsn_health s = Healthy /\ current_holds (disk w') (fsn_current s) /\
    (forall n, fsn_next_sequence s = Some n -> fits64 n) /\ pending_holds (disk w') (fsn_pending s) /\
    file_current_snapshot s = im_snapshot im /\ fsn_staged_transfer s = im_pending im /\
    entry_now (entry (disk w') snapshots_path) = Some (clean []) /\
    (entry_was (entry (disk w') snapshots_path) = [] \/ recorded sync' NodeDirectory)).
Proof.
  intros Hh Hl [Hf Hd] Hopen. pose proof Htells as (_ & _ & Ht). destruct (tells_collapsed _ _ _ Ht) as (Hdir & Hs & Hp).
  destruct (snapshot_open_law _ _ _ _ _ _ _ _ _ Hdir Hs Hp Hf Hd Hopen) as (Hc & Hrec & Hk & Hr & _). split_and!.
  - done.
  - done.
  - intros o hs Hm. apply Hh. eapply calmer_may; [by apply Hc|done].
  - intros log marker H1 H2. apply Hl; (eapply calmer_may; [by apply Hc|done]).
  - intros files' Hl'. destruct (Hk files' Hl') as (Hd' & Hs' & Hp'). eapply tells_directory; [done|done| |done|done].
    unfold collapsed. simpl. intros Hn. destruct Ht as [(_ & Ht)|(Ht & _)]; [done|]. congruence.
  - by intros s report ->.
Qed.

(** The bundle holds what was found, or nothing was lost. *)
Definition opened_as (w : World) (r : result (S * FileRaftLogSegment * FileRaftSnapshotStore) (OpenNodeStoresError Error)) : Prop :=
  match r with
  | Ok parts => holds (bundled w parts) /\ image (bundled w parts) = im
  | Err _ => forall files', leaves (disk w) files' -> tells files' im
  end.

(** The last sync makes the three stores durable. *)
Lemma flush_stage sync w w' r hard_state log_segment snapshot_store :
  hard_state_kept (disk w) -> log_kept (disk w) -> snapshots_kept (disk w) ->
  hb_holds (entry (disk w) hard_state_path) hard_state -> hb_current hard_state = im_hard im ->
  log_view log_segment (im_log im) -> flog_compacted_through log_segment = im_compacted im ->
  (exists marker, durable (disk w) marker_path marker /\ marker_reads marker (im_compacted im)) ->
  (exists physical, retains (im_compacted im) physical (im_log im) /\
    entry_now (entry (disk w) log_path) = Some (clean (segment physical)) /\
    (entry_was (entry (disk w) log_path) = [] \/ recorded sync NodeDirectory)) ->
  fsn_health snapshot_store = Healthy /\ current_holds (disk w) (fsn_current snapshot_store) /\
    (forall n, fsn_next_sequence snapshot_store = Some n -> fits64 n) /\
    pending_holds (disk w) (fsn_pending snapshot_store) /\
    file_current_snapshot snapshot_store = im_snapshot im /\ fsn_staged_transfer snapshot_store = im_pending im /\
    entry_now (entry (disk w) snapshots_path) = Some (clean []) /\
    (entry_was (entry (disk w) snapshots_path) = [] \/ recorded sync NodeDirectory) ->
  flush_sync sync w = (w', r) ->
  match r with
  | Ok _ => holds (bundled w' (hard_state, log_segment, snapshot_store)) /\
      image (bundled w' (hard_state, log_segment, snapshot_store)) = im
  | Err _ => forall files', leaves (disk w') files' -> tells files' im
  end.
Proof.
  intros Hhk Hlk Hsk Hh Hhs Hv Ht (marker & Hm & Hmr) (physical & Hret & Hln & Hlw) (Hhl & Hc & Hn & Hp & Hsn & Hst & Hdn & Hdw) Hfl.
  destruct (flush_sync_law _ _ _ _ Hfl) as (Ho & _). destruct r as [[]|error].
  - assert (im_log im = map unstamp (cle_entries (flog_entries log_segment))) as Hlog.
    { destruct Hv as (_ & _ & ->). simpl. by rewrite unstamp_stamp. }
    split.
    + split_and!; simpl.
      * pose proof Hh as (o & Hset & _)%hb_holds_settled. assert (entry (disk w') hard_state_path = settled o) as ->.
        { eapply (durable_only []); [done|not_listed|done]. } by rewrite <- Hset.
      * rewrite <- Hlog. split; [done|]. rewrite Ht. split.
        -- exists marker. split; [|done]. by eapply (durable_only []); [|not_listed|].
        -- exists physical. split; [|done]. by eapply flushed.
      * split_and!; [done|by eapply flushed| |done|].
        -- by eapply (current_holds_only []); [|not_listed|intros; not_listed|].
        -- by eapply (pending_holds_only []); [|not_listed|not_listed|].
    + unfold image. simpl. rewrite <- Hlog. by destruct im; simpl in *; subst.
  - intros files' Hl'. apply (kept_tells (disk w)); [done..|]. intros path. eapply leaves_only; [done|done|set_solver].
Qed.

Lemma open_stores_law w w' r :
  rests (disk w) -> open_stores LogRepairUncommittedTail w = (w', r) -> opened_as w' r.
Proof.
  intros Hr. unfold open_stores. destruct (hb_open w) as [w1 r1] eqn:H1.
  destruct (hard_state_stage _ _ _ Hr H1) as (Hhk1 & Hsr1 & Hl1 & Hm1 & Hs1). pose proof Htells as (_ & Hlr & _).
  assert (log_kept (disk w1)) as Hlk1.
  { intros log marker. rewrite Hl1, Hm1. by intros ->%may_settled ->%may_settled. }
  destruct r1 as [hard_state|error].
  2: { intros [= <- <-] files'. by apply kept_tells; [..|apply snapshots_rest_kept]. }
  destruct (Hs1 _ eq_refl) as [Hh Hhs]. clear Hs1. simpl.
  destruct (file_log_open log_path _ _ w1) as [[w2 sync2] r2] eqn:H2.
  destruct (log_stage _ _ _ _ _ _ Hhk1 Hsr1 Hl1 Hm1 H2) as (Ho2 & Hhk2 & Hlk2 & Hsr2 & Hs2). destruct r2 as [log_segment|error].
  2: { intros [= <- <-] files'. by apply kept_tells; [..|apply snapshots_rest_kept]. }
  destruct (Hs2 _ eq_refl) as (Hv & Ht & physical & Hret & Hln & Hlw). clear Hs2.
  destruct (file_snapshot_open sync2 w2) as [[w3 sync3] r3] eqn:H3.
  destruct (snapshot_stage _ _ _ _ _ Hhk2 Hlk2 Hsr2 H3) as (Hc3 & Hrec & Hhk3 & Hlk3 & Hsk3 & Hs3). destruct r3 as [[snapshot_store report]|error].
  2: { intros [= <- <-] files'. by apply kept_tells. }
  specialize (Hs3 _ _ eq_refl). destruct (flush_sync sync3 w3) as [w4 r4] eqn:H4.
  assert (forall q data, parent_directory q = NodeDirectory -> q <> snapshots_path -> q <> log_path ->
    durable (disk w1) q data -> durable (disk w3) q data) as Hsame.
  { intros q data Hq Hn1 Hn2 Hd. apply calmer_settled. rewrite <- Hd. etrans; [|by apply Hc3]. apply Ho2. by rewrite list_elem_of_singleton. }
  destruct (Hc3 log_path) as [Hnow3 Hwas3]; [done|done|].
  assert (opened_as w4 (match r4 with Ok _ => Ok (hard_state, log_segment, snapshot_store)
    | Err error => Err (NodeStores_Io "sync raft node store directory" "" error) end)) as Hend.
  { pose proof Hh as (o & Hset & _)%hb_holds_settled.
    assert (hb_holds (entry (disk w3) hard_state_path) hard_state) as Hh3 by (rewrite (Hsame _ o), <- Hset; done).
    assert (exists marker, durable (disk w3) marker_path marker /\ marker_reads marker (im_compacted im)) as Hmk
      by (exists (files marker_path); split; [by apply Hsame|apply Hlr]).
    unshelve epose proof (flush_stage sync3 w3 w4 r4 hard_state log_segment snapshot_store Hhk3 Hlk3 Hsk3 Hh3 Hhs Hv Ht Hmk _ Hs3 H4) as Hfl;
      [|by destruct r4].
    exists physical. split; [done|]. rewrite Hnow3. split; [done|]. destruct Hlw as [Hlw|]; [|by eauto].
    left. destruct Hwas3 as [-> | ->]; done. }
  destruct r4; by intros [= <- <-].
Qed.

Lemma open_inner_law try_lock w w' r :
  rests (disk w) -> open_inner try_lock LogRepairUncommittedTail w = (w', r) -> opened_as w' r.
Proof.
  intros Hr. unfold open_inner. destruct (acquire_file_store_ownership try_lock w) as [w1 r1] eqn:H1.
  apply acquire_law in H1. apply (rests_only _ _ Hr) in H1. destruct r1 as [[]|error]; [by apply open_stores_law|].
  intros [= <- <-] files' Hl. destruct (rests_kept _ H1) as (? & ? & ?). by eapply kept_tells; [..|apply snapshots_rest_kept|].
Qed.
End opening_law.

(** ** Restarting *)

Section restarting.
Context {S Error : Type} `{HardStateBackendLaws S Error}.
Implicit Types d : NodeStores S.

(** Either bundle's constructor: the journal's does not look at the directory. *)
Definition open_node_stores (checked : option bool) (try_lock : World -> TryLock) (log_open_mode : LogOpenMode) (w : World)
  : World * result (S * FileRaftLogSegment * FileRaftSnapshotStore) (OpenNodeStoresError Error) :=
  match checked with
  | Some is_dir => open_with_log_repair is_dir try_lock log_open_mode w
  | None => open_inner try_lock log_open_mode w
  end.

Lemma open_node_stores_law files im checked try_lock w w' r :
  tells files im -> rests files (disk w) ->
  open_node_stores checked try_lock LogRepairUncommittedTail w = (w', r) -> opened_as im w' r.
Proof.
  intros Ht Hr. destruct checked as [is_dir|]; [|by eapply open_inner_law]. simpl. unfold open_with_log_repair.
  destruct (inspect _ w) as [w1 r1] eqn:H1. apply inspect_disk in H1. rewrite <- H1 in Hr.
  destruct r1 as [[]|error]; [by eapply open_inner_law| |]; intros [= <- <-] files' Hl;
    destruct (rests_kept _ _ Ht _ Hr) as (? & ? & ?); by eapply kept_tells; [..|eapply snapshots_rest_kept|].
Qed.

(** The host crashes and the directory is opened; where that fails, the host may
    crash again. *)
Inductive restarts (medium : Disk) : NodeStores S -> Prop :=
| restarts_opened checked try_lock w w' parts :
    crash medium (disk w) ->
    open_node_stores checked try_lock LogRepairUncommittedTail w = (w', Ok parts) ->
    restarts medium (bundled w' parts)
| restarts_again checked try_lock w w' error d :
    crash medium (disk w) ->
    open_node_stores checked try_lock LogRepairUncommittedTail w = (w', Err error) ->
    restarts (disk w') d -> restarts medium d.

Lemma restart_law medium d (P : Image -> Prop) :
  restarts medium d -> (forall files, leaves medium files -> exists im, P im /\ tells files im) ->
  holds d /\ P (image d).
Proof.
  intros Hr. revert P. induction Hr as [medium checked try_lock w w' parts Hc Ho|medium checked try_lock w w' error d Hc Ho Hr IH];
    intros P HP; destruct (crash_leaves _ _ Hc) as (files & Hl & Hd); destruct (HP files Hl) as (im & HPim & Ht);
    (eapply open_node_stores_law in Ho; [|done|intros path _; apply Hd]).
  - destruct Ho as [Hh ->]. done.
  - destruct (IH (eq im)) as [Hh <-]; [|done]. intros files' Hl'. exists im. split; [done|]. by apply Ho.
Qed.

Definition node_reopens (d : NodeStores S) : NodeStores S -> Prop := restarts (disk (ns_world d)).

(** What a failed operation may leave. *)
Lemma reopened d (P : Image -> Prop) :
  (forall files, leaves (disk (ns_world d)) files -> exists im, P im /\ tells_fully files im) ->
  forall d', node_reopens d d' -> holds d' /\ P (image d').
Proof.
  intros HP d' Hr. apply (restart_law _ _ P Hr). intros files Hl. destruct (HP files Hl) as (im & ? & ? & _). by exists im.
Qed.

Lemma node_reopen_same d d' : holds d -> node_reopens d d' -> holds d' /\ image d' = image d.
Proof.
  intros Hh. apply (reopened d (fun im => im = image d)). intros files Hl. exists (image d).
  split; [done|]. by apply holds_tells.
Qed.

(** ** The laws of the stores *)

Lemma hb_holds_calmer e e' s : calmer e e' -> hb_holds e s -> hb_holds e' s.
Proof. intros Hc Hh. pose proof Hh as (o & -> & _)%hb_holds_settled. by rewrite (calmer_settled _ _ Hc). Qed.

Lemma snapshots_hold_tells w s files :
  snapshots_hold (disk w) s -> leaves (disk w) files ->
  tells_snapshots files (file_current_snapshot s) (fsn_staged_transfer s).
Proof.
  intros Hs Hl. right. pose proof Hs as (_ & Hd & _). split; [by eapply leaves_durable|]. by eapply holds_leaves.
Qed.

Lemma node_replay d : holds d -> replay_entries d = stamp (im_compacted (image d)) (im_log (image d)).
Proof. intros (_ & ((_ & _ & He) & _) & _). simpl. rewrite He. simpl. by rewrite unstamp_stamp. Qed.

(** Beside the hard state. *)
Lemma hard_state_frame d w' :
  holds d -> only hard_state_names (disk (ns_world d)) (disk w') ->
  log_holds (disk w') (ns_log_segment d) (im_log (image d)) /\ snapshots_hold (disk w') (ns_snapshot_store d).
Proof.
  intros (_ & Hl & Hs) Ho. split; [eapply log_holds_only; [done|not_named|not_named|done]|].
  eapply snapshots_hold_only; [done| |done]. by repeat constructor.
Qed.

(** Beside the log. *)
Lemma log_frame d w' :
  holds d -> only (log_names (process_id (ns_world d))) (disk (ns_world d)) (disk w') ->
  hb_holds (entry (disk w') hard_state_path) (ns_hard_state d) /\ snapshots_hold (disk w') (ns_snapshot_store d).
Proof.
  intros (Hh & _ & Hs) Ho. split; [eapply hb_holds_calmer; [apply Ho; not_named|done]|].
  eapply snapshots_hold_only; [done| |done]. by repeat constructor.
Qed.

(** Beside the snapshots. *)
Lemma snapshots_frame d w' :
  holds d -> inside (disk (ns_world d)) (disk w') ->
  hb_holds (entry (disk w') hard_state_path) (ns_hard_state d) /\
  log_holds (disk w') (ns_log_segment d) (im_log (image d)).
Proof.
  intros (Hh & Hl & _) Hi. split; [by eapply hb_holds_calmer; [apply Hi|]|by eapply log_holds_inside].
Qed.

(** The hard state may be either of two. *)
Lemma node_write_hard_state_law d hs d' r :
  holds d -> write_hard_state d hs = (d', r) ->
  match r with
  | Ok _ => holds d' /\ image d' = (image d) <| im_hard := hs |>
  | Err _ => forall files, leaves (disk (ns_world d')) files -> exists im,
      (im = image d \/ im = (image d) <| im_hard := hs |>) /\ tells_fully files im
  end.
Proof.
  intros Hd. pose proof Hd as (Hh & _). simpl. unfold representable. case_decide as Hfit.
  2: { intros [= <- <-] files Hl. exists (image d). split; [by left|by apply holds_tells]. }
  unfold on_hard_state. destruct (hb_write _ _ hs) as [[w' s'] r'] eqn:E. intros [= <- <-].
  destruct (hb_write_law _ _ _ _ _ _ Hh Hfit E) as [Ho Hr]. destruct (hard_state_frame _ _ Hd Ho) as [Hl Hs].
  destruct r' as [[]|error].
  - destruct Hr as [Hh' <-]. done.
  - intros files Hf. destruct (Hr _ (Hf hard_state_path)) as (hs' & Hrd & Hor).
    exists ((image d) <| im_hard := hs' |>). split.
    { destruct Hor as [-> | ->]; [left|by right]. by unfold image. }
    split; [|done]. split_and!; simpl.
    + intros hs'' Hrd'. by eapply hb_reads_unique.
    + by eapply (holds_reads w').
    + by eapply (snapshots_hold_tells w').
Qed.

(** The log is replaced, the other stores stay. *)
Lemma log_replaced d w' s' compacted entries :
  holds d -> only (log_names (process_id (ns_world d))) (disk (ns_world d)) (disk w') ->
  log_holds (disk w') s' entries -> flog_compacted_through s' = compacted ->
  let d' := {| ns_world := w'; ns_hard_state := ns_hard_state d; ns_log_segment := s'; ns_snapshot_store := ns_snapshot_store d |} in
  holds d' /\ image d' = {| im_hard := im_hard (image d); im_compacted := compacted; im_log := entries;
    im_snapshot := im_snapshot (image d); im_pending := im_pending (image d) |}.
Proof.
  intros Hd Ho Hl Hc d'. destruct (log_frame _ _ Hd Ho) as [Hh Hs].
  assert (im_log (image d') = entries) as He.
  { pose proof Hl as ((_ & _ & He) & _). simpl. rewrite He. simpl. apply unstamp_stamp. }
  split; [split_and!; [done| |done]; by rewrite He|]. rewrite <- He, <- Hc. done.
Qed.

Lemma log_torn d w' files im :
  holds d -> only (log_names (process_id (ns_world d))) (disk (ns_world d)) (disk w') ->
  leaves (disk w') files -> log_reads (files log_path) (files marker_path) (im_compacted im) (im_log im) ->
  im_hard im = im_hard (image d) -> im_snapshot im = im_snapshot (image d) -> im_pending im = im_pending (image d) ->
  tells_fully files im.
Proof.
  intros Hd Ho Hf Hr H1 H2 H3. destruct (log_frame _ _ Hd Ho) as [Hh Hs].
  split; [|rewrite H1; by eapply hb_holds_reads]. split_and!; [|done|].
  - rewrite H1. intros hs Hrd. by eapply hb_holds_tells.
  - rewrite H2, H3. by eapply (snapshots_hold_tells w').
Qed.

Lemma node_append_law d entries d' r :
  holds d -> append_entries d (stamp (im_last (image d)) entries) = (d', r) ->
  match r with
  | Ok _ => holds d' /\ image d' = (image d) <| im_log := im_log (image d) ++ entries |>
  | Err _ => forall files, leaves (disk (ns_world d')) files -> exists im,
      (exists k, im = (image d) <| im_log := im_log (image d) ++ take k entries |>) /\ tells_fully files im
  end.
Proof.
  intros Hd. pose proof Hd as (_ & Hl & _). simpl. unfold representable. case_decide as Hfit.
  2: { intros [= <- <-] files Hf. exists (image d). split; [|by apply holds_tells]. exists 0%nat. simpl. by rewrite app_nil_r. }
  unfold on_log. destruct (file_append_entries _ _ _) as [[w' s'] r'] eqn:E. intros [= <- <-].
  destruct (append_law _ _ _ Hl _ _ _ _ Hfit E) as [Ho Hr]. destruct r' as [[]|error].
  - destruct Hr as [Hl' Hc]. by apply log_replaced.
  - intros files Hf. destruct (Hr _ _ (Hf log_path) (Hf marker_path)) as [k Hk]. eexists. split; [by exists k|].
    by eapply log_torn.
Qed.

Lemma node_truncate_law d from d' r :
  holds d -> truncate_suffix d from = (d', r) ->
  match r with
  | Ok _ => holds d' /\ im_compacted (image d) < from /\ image d' = im_truncate from (image d)
  | Err _ => forall files, leaves (disk (ns_world d')) files -> exists im,
      (im = image d \/ im_compacted (image d) < from /\ im = im_truncate from (image d)) /\ tells_fully files im
  end.
Proof.
  intros Hd. pose proof Hd as (_ & Hl & _). simpl. unfold on_log.
  destruct (file_truncate_suffix _ _ from) as [[w' s'] r'] eqn:E. intros [= <- <-].
  destruct (truncate_law _ _ _ Hl _ _ _ _ E) as [Ho Hr]. destruct r' as [[]|error].
  - destruct Hr as (Hlt & Hc & Hl'). destruct (log_replaced _ _ _ _ _ Hd Ho Hl' Hc). done.
  - intros files Hf. destruct (Hr _ _ (Hf log_path) (Hf marker_path)) as [Hk|[Hlt Hk]].
    + exists (image d). split; [by left|by eapply log_torn].
    + exists (im_truncate from (image d)). split; [by right|by eapply log_torn].
Qed.

Lemma node_compact_law d through d' r :
  holds d -> through < u64_modulus -> compact_prefix_through d through = (d', r) ->
  match r with
  | Ok _ => holds d' /\ image d' = im_compact through (image d)
  | Err _ => forall files, leaves (disk (ns_world d')) files -> exists im,
      (im = image d \/ im = im_compact through (image d)) /\ tells_fully files im
  end.
Proof.
  intros Hd Hu. pose proof Hd as (_ & Hl & _). simpl. unfold on_log.
  destruct (file_compact_prefix_through _ _ through) as [[w' s'] r'] eqn:E. intros [= <- <-].
  destruct (compact_law _ _ _ Hl _ _ _ _ Hu E) as [Ho Hr]. destruct r' as [[]|error].
  - destruct Hr as [Hc Hl']. destruct (log_replaced _ _ _ _ _ Hd Ho Hl' Hc) as [Hh ->]. split; [done|].
    unfold im_compact. simpl. destruct (N.leb_spec through (flog_compacted_through (ns_log_segment d))) as [Hle|Hlt].
    + rewrite N.max_l by done. replace (N.to_nat _) with 0%nat by lia. done.
    + by rewrite N.max_r by lia.
  - intros files Hf. destruct (Hr _ _ (Hf log_path) (Hf marker_path)) as [Hk|[Hlt Hk]].
    + exists (image d). split; [by left|by eapply log_torn].
    + exists (im_compact through (image d)). split; [by right|]. unfold im_compact. simpl.
      destruct (N.leb_spec through (flog_compacted_through (ns_log_segment d))); [lia|]. by eapply log_torn.
Qed.

(** The snapshots are replaced, the other stores stay. *)
Lemma snapshots_replaced d w' s' c p :
  holds d -> inside (disk (ns_world d)) (disk w') -> snapshots_hold (disk w') s' ->
  file_current_snapshot s' = c -> fsn_staged_transfer s' = p ->
  let d' := {| ns_world := w'; ns_hard_state := ns_hard_state d; ns_log_segment := ns_log_segment d; ns_snapshot_store := s' |} in
  holds d' /\ image d' = (image d) <| im_snapshot := c |> <| im_pending := p |>.
Proof. intros Hd Hi Hs <- <- d'. by destruct (snapshots_frame _ _ Hd Hi) as [Hh Hl]. Qed.

Lemma snapshots_torn d w' files c p :
  holds d -> inside (disk (ns_world d)) (disk w') -> leaves (disk w') files -> selects files c -> staged files p ->
  tells_fully files ((image d) <| im_snapshot := c |> <| im_pending := p |>).
Proof.
  intros Hd Hi Hf Hc Hp. destruct (snapshots_frame _ _ Hd Hi) as [Hh Hl]. split; [|by eapply hb_holds_reads]. split_and!; simpl.
  - intros hs Hrd. by eapply hb_holds_tells.
  - by eapply (holds_reads w').
  - right. split; [|done]. eapply leaves_durable; [done|]. eapply (directory_kept (ns_world d)); [apply Hd|done].
Qed.

(** Publishing a snapshot: the old one or the new one, and the staged transfer
    or none. *)
Definition published (d : NodeStores S) (descriptor : RaftSnapshot) (im : Image) : Prop :=
  exists c p, (c = im_snapshot (image d) \/ c = Some descriptor) /\ (p = im_pending (image d) \/ p = None) /\
    im = (image d) <| im_snapshot := c |> <| im_pending := p |>.

Lemma published_same d descriptor : published d descriptor (image d).
Proof. exists (im_snapshot (image d)), (im_pending (image d)). split_and!; auto. Qed.

Lemma snapshots_written d w' s' (r : result unit RaftSnapshotStoreWriteError) descriptor :
  holds d -> inside (disk (ns_world d)) (disk w') ->
  match r with
  | Ok _ => snapshots_hold (disk w') s' /\ file_current_snapshot s' = Some descriptor /\ fsn_staged_transfer s' = None
  | Err _ => torn_write (ns_snapshot_store d) descriptor (disk w')
  end ->
  let d' := {| ns_world := w'; ns_hard_state := ns_hard_state d; ns_log_segment := ns_log_segment d; ns_snapshot_store := s' |} in
  match r with
  | Ok _ => holds d' /\ image d' = (image d) <| im_snapshot := Some descriptor |> <| im_pending := None |>
  | Err _ => forall files, leaves (disk w') files -> exists im, published d descriptor im /\ tells_fully files im
  end.
Proof.
  intros Hd Hi. destruct r as [[]|error]; simpl.
  - intros (Hs & Hc & Hp). by apply snapshots_replaced.
  - intros Ht files Hf. destruct (Ht files Hf) as (c & p & Hc & Hp & Hs & Hst). eexists. split; [by exists c, p|].
    by eapply snapshots_torn.
Qed.

Lemma node_write_snapshot_law d snapshot d' r :
  holds d -> write_snapshot d snapshot = (d', r) ->
  let descriptor := from_payload (prs_metadata snapshot) (prs_application_payload snapshot) in
  match r with
  | Ok _ => holds d' /\ image d' = (image d) <| im_snapshot := Some descriptor |> <| im_pending := None |>
  | Err _ => forall files, leaves (disk (ns_world d')) files -> exists im, published d descriptor im /\ tells_fully files im
  end.
Proof.
  intros Hd. pose proof Hd as (_ & _ & Hs). simpl. unfold representable. case_decide as Hfit.
  2: { intros [= <- <-] files Hf. exists (image d). split; [apply published_same|by apply holds_tells]. }
  unfold on_snapshots. destruct (file_write_snapshot _ _ _) as [[w' s'] r'] eqn:E. intros [= <- <-].
  destruct Hfit as [Hm Hp]. destruct (write_law _ _ Hs _ _ _ _ Hm Hp E). by apply snapshots_written.
Qed.

Lemma node_from_source_law d descriptor source d' r :
  holds d -> write_snapshot_from_source d descriptor source = (d', r) ->
  match r with
  | Ok _ => holds d' /\ image d' = (image d) <| im_snapshot := Some descriptor |> <| im_pending := None |>
  | Err _ => forall files, leaves (disk (ns_world d')) files -> exists im, published d descriptor im /\ tells_fully files im
  end.
Proof.
  intros Hd. pose proof Hd as (_ & _ & Hs). simpl. unfold representable. case_decide as Hfit.
  2: { intros [= <- <-] files Hf. exists (image d). split; [apply published_same|by apply holds_tells]. }
  unfold on_snapshots. destruct (file_write_snapshot_from_source _ _ _ _) as [[w' s'] r'] eqn:E. intros [= <- <-].
  destruct Hfit as [Hm Hp]. destruct (from_source_law _ _ Hs _ _ _ _ _ Hm Hp E). by apply snapshots_written.
Qed.

Lemma node_stage_law d chunk d' r :
  holds d -> stage_snapshot_chunk d chunk = (d', r) ->
  match r with
  | Ok _ => holds d' /\ exists v, validate_staged_chunk chunk (im_pending (image d)) = Ok v /\
      image d' = (image d) <| im_pending := Some (pending_transfer_after_chunk chunk v) |>
  | Err _ => forall files, leaves (disk (ns_world d')) files -> exists im,
      (exists p, (p = im_pending (image d) \/ p = None \/
         exists v, validate_staged_chunk chunk (im_pending (image d)) = Ok v /\
                   p = Some (pending_transfer_after_chunk chunk v)) /\
        im = (image d) <| im_pending := p |>) /\ tells_fully files im
  end.
Proof.
  intros Hd. pose proof Hd as (_ & _ & Hs). simpl. unfold representable. case_decide as Hfit.
  2: { intros [= <- <-] files Hf. exists (image d). split; [|by apply holds_tells]. exists (im_pending (image d)). by split; [left|]. }
  unfold on_snapshots. destruct (file_stage_snapshot_chunk _ _ _) as [[w' s'] r'] eqn:E. intros [= <- <-].
  destruct (stage_law _ _ Hs _ _ _ _ Hfit E) as [Hi Hr]. destruct r' as [[]|error].
  - destruct Hr as (Hs' & Hc & v & Hv & Hp). assert (file_current_snapshot s' = im_snapshot (image d)) as Hc'
      by (unfold file_current_snapshot; by rewrite Hc).
    destruct (snapshots_replaced _ _ _ _ _ Hd Hi Hs' Hc' Hp) as [Hh Him]. split; [done|]. by exists v.
  - intros files Hf. destruct (Hr files Hf) as (Hc & p & Hp & Hst). eexists. split; [by exists p|].
    by apply (snapshots_torn d w' files (im_snapshot (image d)) p).
Qed.

Lemma node_promote_law d snapshot d' r :
  holds d -> promote_staged_snapshot d snapshot = (d', r) ->
  match r with
  | Ok _ => holds d' /\ validate_staged_promotion snapshot (im_pending (image d)) = Ok tt /\
      image d' = (image d) <| im_snapshot := Some snapshot |> <| im_pending := None |>
  | Err _ => forall files, leaves (disk (ns_world d')) files -> exists im,
      (exists c p, (c = im_snapshot (image d) \/
           validate_staged_promotion snapshot (im_pending (image d)) = Ok tt /\ c = Some snapshot) /\
         (p = im_pending (image d) \/ p = None) /\
         im = (image d) <| im_snapshot := c |> <| im_pending := p |>) /\ tells_fully files im
  end.
Proof.
  intros Hd. pose proof Hd as (_ & _ & Hs). simpl. unfold representable. case_decide as Hfit.
  2: { intros [= <- <-] files Hf. exists (image d). split; [|by apply holds_tells].
       exists (im_snapshot (image d)), (im_pending (image d)). by split_and!; [left|left|]. }
  unfold on_snapshots. destruct (file_promote_staged_snapshot _ _ _) as [[w' s'] r'] eqn:E. intros [= <- <-].
  destruct Hfit as [Hm Hp]. destruct (promote_law _ _ Hs _ _ _ _ Hm Hp E) as [Hi Hr]. destruct r' as [[]|error].
  - destruct Hr as (Hs' & Hv & Hc & Hst). destruct (snapshots_replaced _ _ _ _ _ Hd Hi Hs' Hc Hst) as [Hh Him]. done.
  - intros files Hf. destruct (Hr files Hf) as (c & p & Hc & Hp' & Hsel & Hst). eexists. split; [by exists c, p|].
    by eapply snapshots_torn.
Qed.

Lemma node_clear_law d d' r :
  holds d -> clear_pending_snapshot_transfer d = (d', r) ->
  match r with
  | Ok _ => holds d' /\ image d' = (image d) <| im_pending := None |>
  | Err _ => forall files, leaves (disk (ns_world d')) files -> exists im,
      (im = image d \/ im = (image d) <| im_pending := None |>) /\ tells_fully files im
  end.
Proof.
  intros Hd. pose proof Hd as (_ & _ & Hs). simpl. unfold on_snapshots.
  destruct (file_clear_pending _ _) as [[w' s'] r'] eqn:E. intros [= <- <-].
  destruct (clear_law _ _ Hs _ _ _ E) as (Ho & Hc & Hr). pose proof (staging_names_kept _ _ Ho) as Hi. destruct r' as [[]|error].
  - destruct Hr as [Hs' Hp]. assert (file_current_snapshot s' = im_snapshot (image d)) as Hc'
      by (unfold file_current_snapshot; by rewrite Hc).
    assert (fsn_staged_transfer s' = None) as Hp' by (unfold fsn_staged_transfer; by rewrite Hp).
    by destruct (snapshots_replaced _ _ _ _ _ Hd Hi Hs' Hc' Hp').
  - intros files Hf. destruct (Hr files Hf) as (Hsel & p & Hp & Hst).
    pose proof (snapshots_torn _ _ _ _ _ Hd Hi Hf Hsel Hst). destruct Hp as [-> | ->]; eexists; (split; [|done]); auto.
Qed.

#[export, program] Instance node_store_laws : StoreLaws (NodeStores S) := {|
  healthy := holds;
  reopens := node_reopens;
|}.
Next Obligation. intros d d' Hd Hr. by apply (node_reopen_same d d'). Qed.
Next Obligation. intros d d' Hd Hr. by apply (node_reopen_same d d'). Qed.
Next Obligation. by apply node_replay. Qed.
Next Obligation. intros d (_ & Hl & _). exact (holds_next (ns_world d) _ _ Hl). Qed.
Next Obligation. intros d (_ & Hl & _). exact (holds_bound (ns_world d) _ _ Hl). Qed.
Next Obligation.
  intros d hs d' r Hd Hrun. apply node_write_hard_state_law in Hrun; [|done]. destruct r; [done|].
  by apply (reopened d' (fun im => im = image d \/ im = (image d) <| im_hard := hs |>)).
Qed.
Next Obligation.
  intros d entries d' r Hd Hrun. apply node_append_law in Hrun; [|done]. destruct r; [done|].
  by apply (reopened d' (fun im => exists k, im = (image d) <| im_log := im_log (image d) ++ take k entries |>)).
Qed.
Next Obligation.
  intros d from d' r Hd Hrun. apply node_truncate_law in Hrun; [|done]. destruct r; [done|].
  by apply (reopened d' (fun im => im = image d \/ im_compacted (image d) < from /\ im = im_truncate from (image d))).
Qed.
Next Obligation.
  intros d through d' r Hd Hu Hrun. apply node_compact_law in Hrun; [|done..]. destruct r; [done|].
  by apply (reopened d' (fun im => im = image d \/ im = im_compact through (image d))).
Qed.
Next Obligation. intros d domain entries hard d' r Hd [= <- <-]. done. Qed.
Next Obligation.
  intros d snapshot d' r Hd Hrun. apply node_write_snapshot_law in Hrun; [|done]. destruct r; [done|].
  exact (reopened d' _ Hrun).
Qed.
Next Obligation.
  intros d descriptor source d' r Hd Hrun. apply node_from_source_law in Hrun; [|done]. destruct r; [done|].
  exact (reopened d' _ Hrun).
Qed.
Next Obligation.
  intros d chunk d' r Hd Hrun. apply node_stage_law in Hrun; [|done]. destruct r; [done|].
  exact (reopened d' _ Hrun).
Qed.
Next Obligation.
  intros d snapshot d' r Hd Hrun. apply node_promote_law in Hrun; [|done]. destruct r; [done|].
  exact (reopened d' _ Hrun).
Qed.
Next Obligation.
  intros d d' r Hd Hrun. apply node_clear_law in Hrun; [|done]. destruct r; [done|].
  by apply (reopened d' (fun im => im = image d \/ im = (image d) <| im_pending := None |>)).
Qed.
End restarting.

(** ** Every call can be followed by a restart *)

Section restart_total.
Context {S Error : Type} `{HardStateBackendLaws S Error}.
Implicit Types d : NodeStores S.

(** The log reaches the commit index. *)
Definition reaches_commit (im : Image) : Prop := hs_commit_index (im_hard im) <= im_last im.

(** A call of the storage traits that leaves the committed entries alone. *)
Inductive store_call (d : NodeStores S) : NodeStores S -> Prop :=
| call_write_hard_state state d' r :
    hs_commit_index state <= im_last (image d) -> write_hard_state d state = (d', r) -> store_call d d'
| call_append_entries entries d' r : append_entries d (stamp (im_last (image d)) entries) = (d', r) -> store_call d d'
| call_truncate_suffix from d' r :
    hs_commit_index (im_hard (image d)) < from -> truncate_suffix d from = (d', r) -> store_call d d'
| call_compact_prefix_through through d' r :
    through < u64_modulus -> compact_prefix_through d through = (d', r) -> store_call d d'
| call_write_snapshot snapshot d' r : write_snapshot d snapshot = (d', r) -> store_call d d'
| call_write_snapshot_from_source snapshot source d' r :
    write_snapshot_from_source d snapshot source = (d', r) -> store_call d d'
| call_stage_snapshot_chunk chunk d' r : stage_snapshot_chunk d chunk = (d', r) -> store_call d d'
| call_promote_staged_snapshot snapshot d' r : promote_staged_snapshot d snapshot = (d', r) -> store_call d d'
| call_clear_pending d' r : clear_pending_snapshot_transfer d = (d', r) -> store_call d d'.

Lemma reaches_append im k entries :
  reaches_commit im -> reaches_commit (im <| im_log := im_log im ++ take k entries |>).
Proof. unfold reaches_commit, im_last. simpl. unfold length_u64. rewrite length_app. lia. Qed.

Lemma reaches_truncate im from :
  reaches_commit im -> hs_commit_index (im_hard im) < from -> reaches_commit (im_truncate from im).
Proof. unfold reaches_commit, im_last, im_truncate. simpl. unfold length_u64. rewrite length_take. lia. Qed.

Lemma reaches_compact im through : reaches_commit im -> reaches_commit (im_compact through im).
Proof.
  unfold reaches_commit, im_last, im_compact. destruct (N.leb_spec through (im_compacted im)); [done|]. simpl. unfold length_u64. rewrite length_drop. lia.
Qed.

(** What the call leaves to be found. *)
Lemma store_call_leaves d d' files :
  holds d -> reaches_commit (image d) -> store_call d d' -> leaves (disk (ns_world d')) files ->
  exists im, reaches_commit im /\ tells_fully files im.
Proof.
  intros Hd Hc Hcall Hl.
  assert (forall im, holds d' -> image d' = im -> reaches_commit im -> exists im, reaches_commit im /\ tells_fully files im) as Hok.
  { intros im Hh <- Hr. exists (image d'). split; [done|]. by apply holds_tells. }
  destruct Hcall as [state d' r Hs Hrun|entries d' r Hrun|from d' r Hf Hrun|through d' r Hu Hrun|snapshot d' r Hrun
    |snapshot source d' r Hrun|chunk d' r Hrun|snapshot d' r Hrun|d' r Hrun].
  - apply node_write_hard_state_law in Hrun; [|done]. destruct r; [destruct Hrun; by eapply Hok|].
    destruct (Hrun files Hl) as (im & Him & ?). exists im. split; [|done]. by destruct Him as [-> | ->].
  - apply node_append_law in Hrun; [|done]. destruct r.
    + destruct Hrun as [Hh Him]. eapply Hok; [done..|]. rewrite <- (firstn_all entries). by apply reaches_append.
    + destruct (Hrun files Hl) as (im & [k ->] & ?). eauto using reaches_append.
  - apply node_truncate_law in Hrun; [|done]. destruct r; [destruct Hrun as (? & _ & ?); eapply Hok; eauto using reaches_truncate|].
    destruct (Hrun files Hl) as (im & [-> |[_ ->]] & ?); eauto using reaches_truncate.
  - apply node_compact_law in Hrun; [|done..]. destruct r; [destruct Hrun; eapply Hok; eauto using reaches_compact|].
    destruct (Hrun files Hl) as (im & [-> | ->] & ?); eauto using reaches_compact.
  - apply node_write_snapshot_law in Hrun; [|done]. destruct r; [destruct Hrun; by eapply Hok|].
    destruct (Hrun files Hl) as (im & (c & p & _ & _ & ->) & ?). eexists. by split; [|done].
  - apply node_from_source_law in Hrun; [|done]. destruct r; [destruct Hrun; by eapply Hok|].
    destruct (Hrun files Hl) as (im & (c & p & _ & _ & ->) & ?). eexists. by split; [|done].
  - apply node_stage_law in Hrun; [|done]. destruct r; [destruct Hrun as (? & v & _ & ?); by eapply Hok|].
    destruct (Hrun files Hl) as (im & (p & _ & ->) & ?). eexists. by split; [|done].
  - apply node_promote_law in Hrun; [|done]. destruct r; [destruct Hrun as (? & _ & ?); by eapply Hok|].
    destruct (Hrun files Hl) as (im & (c & p & _ & _ & ->) & ?). eexists. by split; [|done].
  - apply node_clear_law in Hrun; [|done]. destruct r; [destruct Hrun; by eapply Hok|].
    destruct (Hrun files Hl) as (im & [-> | ->] & ?); eexists; by split; [|done].
Qed.

(** Opening without a fault. *)
Lemma open_stores_total files im w :
  tells_fully files im -> rests files (disk w) -> reaches_commit im -> faults w = [] ->
  exists w' parts, open_stores LogRepairUncommittedTail w = (w', Ok parts) /\ faults w' = [].
Proof.
  intros [Ht Hrd] Hr Hc Hf. pose proof Ht as (_ & Hlr & Hts).
  destruct (hb_open_total _ _ w (Hr hard_state_path ltac:(done)) Hrd Hf) as (w1 & hard_state & H1 & Hf1).
  destruct (hard_state_stage _ _ Ht _ _ _ Hr H1) as (Hhk & Hsr & Hl1 & Hm1 & Hs1). destruct (Hs1 _ eq_refl) as [_ Hhs].
  assert (hs_commit_index (hb_current hard_state) <= im_compacted im + length_u64 (im_log im)) as Hc1 by by rewrite Hhs.
  destruct (open_total _ _ _ _ Hlr _ (Batched ParentDirectorySyncBatch_new) _ Hl1 Hm1 Hf1 Hc1) as (w2 & sync2 & log_segment & H2 & Hf2).
  destruct (log_stage _ _ Ht _ _ _ _ _ _ Hhk Hsr Hl1 Hm1 H2) as (_ & Hhk2 & Hlk2 & Hsr2 & _).
  unfold open_stores. rewrite H1. simpl. rewrite H2. destruct (file_snapshot_open sync2 w2) as [[w3 sync3] r3] eqn:H3.
  destruct (tells_collapsed _ _ _ Hts) as (Hdir & Hsel & Hst). destruct Hsr2 as [Hfound Hdur].
  destruct (snapshot_open_law _ _ _ _ _ _ _ _ _ Hdir Hsel Hst Hfound Hdur H3) as (_ & _ & _ & _ & Hcalm).
  destruct (Hcalm Hf2) as [Hf3 [[snapshot_store report] ->]]. destruct (flush_sync sync3 w3) as [w4 r4] eqn:H4.
  apply flush_sync_law in H4 as (_ & _ & Hf4). destruct (Hf4 Hf3) as [-> ?]. eauto.
Qed.

(** The lock is free and the directory is there. *)
Definition unopposed (checked : option bool) (try_lock : World -> TryLock) : Prop :=
  (forall w, try_lock w = Locked) /\ checked <> Some false.

Lemma open_node_stores_total files im checked try_lock w :
  unopposed checked try_lock -> tells_fully files im -> rests files (disk w) -> reaches_commit im -> faults w = [] ->
  exists w' parts, open_node_stores checked try_lock LogRepairUncommittedTail w = (w', Ok parts) /\ faults w' = [].
Proof.
  intros [Hlock Hdir] Ht Hr Hc Hf.
  assert (exists w' parts, open_inner try_lock LogRepairUncommittedTail w = (w', Ok parts) /\ faults w' = []) as Hinner.
  { unfold open_inner. destruct (acquire_file_store_ownership try_lock w) as [w1 r1] eqn:H1.
    pose proof H1 as Ho%acquire_law. apply (rests_only _ _ _ Hr) in Ho.
    unfold acquire_file_store_ownership, open_append in H1. rewrite change_atomic_calm, Hlock in H1 by done.
    injection H1 as <- <-. by eapply open_stores_total. }
  destruct checked as [[]|]; [|done|done]. simpl. unfold open_with_log_repair. by rewrite inspect_calm.
Qed.
End restart_total.
