(* ===== verification/FileCluster.v ===== *)
(** * Replicas over files

    What the stores of [FileStores] and the durable runtime give together: a
    cluster whose replicas start on empty directories, any of whose system calls
    may fail and whose hosts may crash, keeps the properties of the kernel; a
    host that restarts finds what it was promised; and executions of the whole
    stack, from the runtime down to the bytes. *)

From Stdlib Require Import Strings.Byte.
From stdpp Require Import base strings list sorting numbers option gmap relations.
From S2P Require Import Prelude.
From S2P Require Import Types.
From S2P Require Import Snapshot.
From S2P Require Import Message.
From S2P Require Import Membership.
From S2P Require Import Config.
From S2P Require Import NodeState.
From S2P Require Import Spec.
From S2P Require Import Safety.
From S2P Require Import Cluster.
From S2P Require Import Scenario.
From S2P Require Import Stores.
From S2P Require Import MemoryStores.
From S2P Require Import Runtime.
From S2P Require Import RuntimeStep.
From S2P Require Import RuntimeCluster.
From S2P Require Import RuntimeScenario.
From S2P Require Import FileSystem.
From S2P Require Import HardStateFile.
From S2P Require Import LogFile.
From S2P Require Import SnapshotFile.
From S2P Require Import SnapshotStoreSpec.
From S2P Require Import FileStores.

Section replicas.
Context {S Error : Type} `{HardStateBackendLaws S Error}.
Implicit Types d : NodeStores S.

(** ** New replicas *)

(** The bundle of a replica whose directory was empty. *)
Definition founded (d : NodeStores S) : Prop :=
  exists checked try_lock w w' parts, (forall path, entry (disk w) path = vacant) /\
    open_node_stores checked try_lock LogRepairUncommittedTail w = (w', Ok parts) /\ d = bundled w' parts.

Lemma empty_tells : tells_fully (fun _ => None) fresh_image.
Proof.
  split; [|apply hb_reads_new]. split_and!; simpl.
  - intros hs Hr. by eapply hb_reads_unique; [|apply hb_reads_new].
  - split; [done|]. exists [], []. split_and!; [done|by split_and!|]. apply torn_stops, StorageSpec.torn_nil.
  - by left.
Qed.

Lemma empty_rests (medium : Disk) : (forall path, entry medium path = vacant) -> rests (fun _ => None) medium.
Proof. intros Hm path _. unfold durable. rewrite Hm. unfold collapsed. by destruct (parent_directory path). Qed.

Lemma founded_fresh d : founded d -> holds d /\ image d = fresh_image.
Proof.
  intros (checked & try_lock & w & w' & parts & Hw & Ho & ->).
  eapply open_node_stores_law in Ho; [|apply empty_tells|by apply empty_rests]. done.
Qed.

(** ** Clusters *)

Context (c : MembershipConfig) (configs : NodeId -> NodeConfig).
Implicit Types σ : Deployment (D := NodeStores S).

(** Every replica is new. *)
Definition founded_cluster (σ : Deployment (D := NodeStores S)) : Prop :=
  MembershipConfig_wf c /\ releases σ = [] /\
  forall i h, hosts σ !! i = Some h ->
    nc_id (configs i) = i /\ static_membership (configs i) = c /\ exists d, h = Down d /\ founded d.

Lemma founded_deployed σ : founded_cluster σ -> deployed c configs σ.
Proof.
  intros (Hwf & Hr & Hh). split_and!; [done..|]. intros i h Hi. destruct (Hh i h Hi) as (? & ? & d & -> & Hd).
  apply founded_fresh in Hd as [? ?]. split_and!; [done..|]. by exists d.
Qed.


End replicas.

(** ** Restarts *)

Section restarts_of_calls.
Context {S Error : Type} `{HardStateBackendLaws S Error}.
Implicit Types d : NodeStores S.



(** C7: an append that fails leaves the log as it was, extended by the first
    few of the new entries and by no part of another one, whatever was torn, and
    leaves the other stores alone. *)
Theorem failed_append_leaves_prefix d entries d' error d'' :
  holds d -> append_entries d (stamp (im_last (image d)) entries) = (d', Err error) ->
  restarts (disk (ns_world d')) d'' ->
  holds d'' /\ exists k, image d'' = (image d) <| im_log := im_log (image d) ++ take k entries |>.
Proof.
  intros Hd Hrun%node_append_law Hr; [|done].
  apply (restart_law _ _ (fun im => exists k, im = (image d) <| im_log := im_log (image d) ++ take k entries |>) Hr).
  intros files Hl.
  destruct (Hrun files Hl) as (im & Him & Ht & _). by exists im.
Qed.

(** C8: a snapshot whose publication fails at any call is either the current
    snapshot after a restart or leaves the old one current; the staged transfer
    is kept or gone, and the hard state and the log are untouched. *)
Theorem failed_publication_is_atomic d snapshot d' error d'' :
  holds d -> write_snapshot d snapshot = (d', Err error) -> restarts (disk (ns_world d')) d'' ->
  holds d'' /\ published d (from_payload (prs_metadata snapshot) (prs_application_payload snapshot)) (image d'').
Proof.
  intros Hd Hrun%node_write_snapshot_law Hr; [|done]. apply (restart_law _ _ (published d _) Hr). intros files Hl.
  destruct (Hrun files Hl) as (im & Him & Ht & _). by exists im.
Qed.
End restarts_of_calls.

(** ** Executions *)

(** A power cut: the names given fall back to their last durable contents, the
    others keep what they have. *)
Definition picked (back : list StorePath) (path : StorePath) (e : Entry) : option (list u8) :=
  file_data <$> (if decide (path ∈ back) then default (entry_now e) (head (entry_was e)) else entry_now e).

Definition power_cut (back : list StorePath) (d : Disk) : Disk :=
  map_imap (fun path e => Some (settled (
    match parent_directory path, picked back snapshots_path (entry d snapshots_path) with
    | SnapshotDirectory, None => None
    | _, _ => picked back path e
    end))) d.

Lemma survives_data f : survives f (file_data f).
Proof.
  split; [intros p Hp; apply Hp; by constructor|]. intros _. exists (file_data f). split; [by constructor|done].
Qed.

Lemma may_picked (e : Entry) (x : option File) : x ∈ entry_now e :: entry_was e -> may e (file_data <$> x).
Proof. intros Hx. exists x. split; [done|]. destruct x as [f|]; [apply survives_data|done]. Qed.

Lemma power_cut_crash back d : crash d (power_cut back d).
Proof.
  exists (fun path => picked back path (entry d path)). intros path. split.
  - apply may_picked. case_decide; [|by constructor]. destruct (entry_was (entry d path)); simpl; set_solver.
  - unfold power_cut. unfold entry at 1. rewrite map_lookup_imap.
    destruct (d !! path) as [e|] eqn:Hd; simpl.
    + assert (entry d path = e) as -> by (unfold entry; by rewrite Hd). done.
    + assert (entry d path = vacant) as -> by (unfold entry; by rewrite Hd). unfold picked at 1 3. simpl.
      by repeat case_match.
Qed.

Definition locks : World -> TryLock := fun _ => Locked.

Definition host (medium : Disk) (outcomes : list (option Fault)) : World :=
  {| disk := medium; faults := outcomes; process_id := 7 |}.

Section executions.
Context {S Error : Type} `{HardStateBackend S Error}.

(** The bundle of the directory on this host, if it opens. *)
Definition opened (w : World) : option (NodeStores S) :=
  match open_node_stores (Some true) locks LogRepairUncommittedTail w with
  | (w', Ok parts) => Some (bundled w' parts)
  | (_, Err _) => None
  end.
End executions.

Abbreviation FileNode := (NodeStores FileRaftHardStateStore).
Abbreviation Fleet := (Deployment (D := FileNode)) (only parsing).

(** The same handles, with these outcomes of the next system calls. *)
Definition with_outcomes {S} (d : NodeStores S) (outcomes : list (option Fault)) : NodeStores S :=
  {| ns_world := host (disk (ns_world d)) outcomes; ns_hard_state := ns_hard_state d;
     ns_log_segment := ns_log_segment d; ns_snapshot_store := ns_snapshot_store d |}.

(** A bundle that stands for none. *)
Definition no_node : FileNode :=
  {| ns_world := host ∅ []; ns_hard_state := FileRaftHardStateStore_empty hard_state_path;
     ns_log_segment := {| flog_path := log_path; flog_entries := {| cle_first_index := 1; cle_entries := [] |};
                          flog_compacted_through := 0; flog_health := ReopenRequired |};
     ns_snapshot_store := {| fsn_current := None; fsn_pending := None; fsn_next_sequence := None;
                             fsn_health := ReopenRequired |} |}.

Definition new_replica : FileNode := default no_node (opened (host ∅ [])).

Definition device_failure : Fault :=
  {| fault_error := {| io_kind := ErrorKind_Other; io_raw_os_error := Some 5%Z; io_message := "Input/output error (os error 5)" |};
     fault_progress := 0 |}.

(** *** A vote that is shown and lost *)

Definition vote_for_two : RaftHardState :=
  {| hs_current_term := 1; hs_voted_for := Some 2; hs_commit_index := 0; hs_committed_configuration := None |}.

(** The fifth call of a write syncs the directory. *)
Definition unsynced_vote : FileNode * result unit RaftHardStateStoreWriteError :=
  write_hard_state (with_outcomes new_replica [None; None; None; None; Some device_failure]) vote_for_two.
Definition reopened_vote : FileNode := default no_node (opened (host (disk (ns_world unsynced_vote.1)) [])).
Definition vote_after_crash : option FileNode :=
  opened (host (power_cut [hard_state_path] (disk (ns_world reopened_vote))) []).

(** C40: a write of the hard state that fails at the sync of its directory is
    shown by a reopened bundle as the current hard state, without having been
    synced: a vote that has been read back from the file store can be gone after
    a crash of the host. *)
Theorem reopened_vote_can_be_lost :
  (exists error, unsynced_vote.2 = Err error) /\
  opened (host (disk (ns_world unsynced_vote.1)) []) = Some reopened_vote /\
  hard_state_current reopened_vote = vote_for_two /\
  exists medium d, crash (disk (ns_world reopened_vote)) medium /\ opened (host medium []) = Some d /\
    hard_state_current (d : FileNode) = RaftHardState_default.
Proof.
  split; [vm_compute; by eexists|]. split; [vm_compute; reflexivity|]. split; [vm_compute; reflexivity|].
  exists (power_cut [hard_state_path] (disk (ns_world reopened_vote))), (default no_node vote_after_crash).
  split; [apply power_cut_crash|]. split; vm_compute; reflexivity.
Qed.

(** *** Schedules *)

(** The host of a bundle restarts: the names given fall back, and the calls from
    then on have these outcomes. *)
Definition cycle (back : list StorePath) (outcomes : list (option Fault)) (d : FileNode) : option FileNode :=
  opened (host (power_cut back (disk (ns_world d))) outcomes).

Lemma cycle_restarts back outcomes d d' : cycle back outcomes d = Some d' -> restarts (disk (ns_world d)) d'.
Proof.
  unfold cycle, opened. destruct (open_node_stores _ _ _ _) as [w' [parts|error]] eqn:E; [|done]. intros [= <-].
  eapply restarts_opened; [|exact E]. apply power_cut_crash.
Qed.

Inductive FileEvent :=
| FAct (i : NodeId) (input : Input)
| FArrive (position : nat)
| FSnap (i : NodeId) (snapshot : PersistedRaftSnapshot)
| FCrash (i : NodeId) (back : list StorePath) (outcomes : list (option Fault))
| FStart (i : NodeId) (applied : LogIndex).

Section file_schedule.
Context (c : MembershipConfig) (configs : NodeId -> NodeConfig).
Implicit Types (σ : Fleet).

(** The host goes down and its directory is opened again. *)
Definition file_down σ (i : NodeId) (back : list StorePath) (outcomes : list (option Fault)) (d : FileNode) : option Fleet :=
  (fun d' => set_host σ i (Down d') []) <$> cycle back outcomes d.

Definition file_act σ (i : NodeId) (input : Input) : option Fleet :=
  match hosts σ !! i with
  | Some (Running rt) =>
      if running_ok σ i && quiet_input c input then
        match runtime_call rt (CallStep input) with
        | (rt', Ok o) => Some (set_host σ i (Running rt') o)
        | (rt', Err _) => file_down σ i [] [] (rt_stores rt')
        end
      else None
  | _ => None
  end.

(** The next deployment, if the event may happen. *)
Definition file_event σ (e : FileEvent) : option Fleet :=
  match e with
  | FAct i input => if is_delivery input then None else file_act σ i input
  | FArrive position =>
      match arrival σ position with Some (i, input) => file_act σ i input | None => None end
  | FSnap i snapshot =>
      match hosts σ !! i with
      | Some (Running rt) =>
          match runtime_compact rt (CompactPayload snapshot) with
          | (rt', Ok _) => Some (set_host σ i (Running rt') [])
          | (rt', Err _) => file_down σ i [] [] (rt_stores rt')
          end
      | _ => None
      end
  | FCrash i back outcomes =>
      match hosts σ !! i with
      | Some (Running rt) => file_down σ i back outcomes (rt_stores rt)
      | _ => None
      end
  | FStart i applied =>
      match hosts σ !! i with
      | Some (Down d) =>
          match recover_with_storage_and_snapshot_store_applied_through (configs i) d applied with
          | (_, Ok (rt, o)) => Some (set_host σ i (Running rt) o)
          | (d', Err _) => file_down σ i [] [] d'
          end
      | _ => None
      end
  end.

Fixpoint file_events σ (events : list FileEvent) : option Fleet :=
  match events with
  | [] => Some σ
  | e :: events => σ' ← file_event σ e; file_events σ' events
  end.

Lemma file_down_inv σ i back outcomes d σ' :
  file_down σ i back outcomes d = Some σ' ->
  exists d', σ' = set_host σ i (Down d') [] /\ restarts (disk (ns_world d)) d'.
Proof. unfold file_down. rewrite fmap_Some. intros (d' & Hd & ->). exists d'. split; [done|by eapply cycle_restarts]. Qed.

Lemma file_act_step σ i input σ' :
  MembershipConfig_wf c -> (forall from m, input = InputMessage from m -> (from, Send i m) ∈ releases σ) ->
  file_act σ i input = Some σ' -> deployment_step c configs σ σ'.
Proof.
  intros Hc Hdel. unfold file_act. destruct (hosts σ !! i) as [[rt|d]|] eqn:Hi; try done.
  destruct (running_ok σ i && quiet_input c input) eqn:Hok; [|done]. apply andb_true_iff in Hok as [Hr Hq].
  pose proof (checked_allowed c σ i rt input Hc Hi Hr Hq Hdel) as Hallowed.
  destruct (runtime_call rt (CallStep input)) as [rt' [o|e]] eqn:Hrun.
  - intros <-%(inj Some). by eapply ds_call.
  - intros (d' & -> & Hd')%file_down_inv. by eapply ds_call_failed.
Qed.

Lemma file_event_step σ e σ' :
  MembershipConfig_wf c -> file_event σ e = Some σ' -> deployment_step c configs σ σ'.
Proof.
  intros Hc. destruct e as [i input|position|i snapshot|i back outcomes|i applied]; cbn [file_event].
  - destruct (is_delivery input) eqn:Hd; [done|]. apply file_act_step; [done|]. by intros from m ->.
  - destruct (arrival σ position) as [[i input]|] eqn:Har; [|done]. apply file_act_step; [done|].
    unfold arrival in Har. destruct (releases σ !! position) as [[from o]|] eqn:Hp; [|done].
    apply list_elem_of_lookup_2 in Hp. destruct o; simplify_eq. by intros ?? [= <- <-].
  - destruct (hosts σ !! i) as [[rt|d]|] eqn:Hi; try done.
    destruct (runtime_compact rt (CompactPayload snapshot)) as [rt' [o|e]] eqn:Hrun; [intros <-%(inj Some); by eapply ds_compact|].
    intros (d' & -> & Hd')%file_down_inv. by eapply ds_compact_failed.
  - destruct (hosts σ !! i) as [[rt|d]|] eqn:Hi; try done. intros (d' & -> & Hd')%file_down_inv. by eapply ds_crash.
  - destruct (hosts σ !! i) as [[rt|d]|] eqn:Hi; try done.
    destruct (recover_with_storage_and_snapshot_store_applied_through _ _ _) as [d' [[rt o]|e]] eqn:Hrun.
    + intros <-%(inj Some). by eapply ds_recover.
    + intros (d'' & -> & Hd'')%file_down_inv. by eapply ds_recover_failed.
Qed.

Lemma file_events_steps events σ σ' :
  MembershipConfig_wf c -> file_events σ events = Some σ' -> rtc (deployment_step c configs) σ σ'.
Proof.
  intros Hc. revert σ. induction events as [|e events IH]; intros σ; simpl; [by intros [= <-]|].
  rewrite bind_Some. intros (σ1 & He & Hs). eapply rtc_l; [by eapply file_event_step|by apply IH].
Qed.
End file_schedule.

(** *** Three replicas

    The replicas of [RuntimeScenario] on empty directories.  The write of node
    2's vote fails at the sync of its directory and its host restarts; once a
    command has committed the host of node 1 restarts too. *)

(** A new replica whose first write fails at its fifth call; the opening takes
    thirteen. *)
Definition unlucky_replica : FileNode :=
  default no_node (opened (host ∅ (replicate 17 None ++ [Some device_failure]))).

Definition replicas : Fleet :=
  {| hosts := <[1 := Down new_replica]> (<[2 := Down unlucky_replica]> (<[3 := Down new_replica]> ∅));
     releases := [] |}.

Definition ticks (i : NodeId) (k : nat) : list FileEvent := replicate k (FAct i Tick).

(** Node 1 is elected. *)
Definition replicas_elect : list FileEvent :=
  [FStart 1 0; FStart 2 0; FStart 3 0] ++ ticks 1 3 ++
  [FArrive 0; FArrive 1; FArrive 2; FArrive 4; FStart 2 0; FArrive 4; FArrive 6].

(** A command commits, node 1 compacts its log, the hosts of nodes 1 and 2
    restart and node 2 stands for election. *)
Definition replicas_continue : list FileEvent :=
  [FArrive 7; FArrive 9; FAct 1 (ClientProposal [x07]); FArrive 10; FArrive 11] ++ ticks 1 1 ++
  [FArrive 13; FSnap 1 fleet_snapshot; FCrash 1 [] []; FStart 1 0; FCrash 2 [] []; FStart 2 0] ++
  ticks 3 3 ++ ticks 2 5.

Definition replicas_elected : Fleet :=
  default replicas (file_events trio_membership quorum_configs replicas replicas_elect).
Definition replicas_final : Fleet :=
  default replicas (file_events trio_membership quorum_configs replicas_elected replicas_continue).

(** The runtime of a replica. *)
Definition file_runtime_at (σ : Fleet) (i : NodeId) : option (DurableRaftNode FileNode) :=
  match hosts σ !! i with Some (Running rt) => Some rt | _ => None end.
Definition idle_file_runtime : DurableRaftNode FileNode :=
  {| rt_node := trio; rt_stores := no_node; rt_persisted_tail := None; rt_fatal_error := None |}.
Definition first_file_leader : DurableRaftNode FileNode :=
  default idle_file_runtime (file_runtime_at replicas_elected 1).

Lemma opened_founded outcomes d : opened (host ∅ outcomes) = Some d -> founded (d : FileNode).
Proof.
  unfold opened. destruct (open_node_stores _ _ _ _) as [w' [parts|error]] eqn:E; [|done]. intros [= <-].
  exists (Some true), locks, (host ∅ outcomes), w', parts. split; [|by split]. intros path. reflexivity.
Defined.

Lemma replicas_founded : founded_cluster trio_membership quorum_configs replicas.
Proof.
  assert (founded new_replica) as Hnew by (apply (opened_founded []); vm_compute; reflexivity).
  assert (founded unlucky_replica) as Hunlucky
    by (apply (opened_founded (replicate 17 None ++ [Some device_failure])); vm_compute; reflexivity).
  split_and!; [exact fleet_wf|done|]. intros i h. unfold replicas. simpl. rewrite !lookup_insert_Some, lookup_empty.
  intros [[<- <-]|[_ [[<- <-]|[_ [[<- <-]|[_ ?]]]]]]; [..|done]; (split_and!; [done|vm_compute; reflexivity|]); by eexists.
Defined.

Lemma replicas_elect_steps : rtc (deployment_step trio_membership quorum_configs) replicas replicas_elected.
Proof. apply (file_events_steps _ _ replicas_elect); [exact fleet_wf|vm_compute; reflexivity]. Defined.

Lemma replicas_continue_steps : rtc (deployment_step trio_membership quorum_configs) replicas_elected replicas_final.
Proof. apply (file_events_steps _ _ replicas_continue); [exact fleet_wf|vm_compute; reflexivity]. Defined.

Lemma replicas_released position x : releases replicas_final !! position = Some x -> x ∈ releases replicas_final.
Proof. apply list_elem_of_lookup_2. Defined.



(** *** Failed calls *)

Lemma new_replica_holds : holds new_replica /\ image new_replica = fresh_image.
Proof. apply founded_fresh, (opened_founded []). vm_compute. reflexivity. Defined.

(** A replica that has voted. *)
Definition voted_replica : FileNode := (write_hard_state new_replica vote_for_two).1.
Definition voted_after_crash : FileNode := default no_node (cycle [] [] voted_replica).

Lemma voted_replica_holds : holds voted_replica.
Proof.
  assert (write_hard_state new_replica vote_for_two = (voted_replica, Ok tt)) as Hrun by (vm_compute; reflexivity).
  destruct new_replica_holds as [Hd _]. apply (node_write_hard_state_law _ _ _ _ Hd Hrun).
Defined.



(** Two entries are appended; the write stops inside the second. *)
Definition two_entries : list LogEntry :=
  [{| entry_term := 1; entry_kind := Noop |}; {| entry_term := 1; entry_kind := Application [x07; x08; x09] |}].
Definition torn_append : FileNode * result unit RaftLogSegmentAppendError :=
  append_entries (with_outcomes new_replica
    [Some {| fault_error := fault_error device_failure; fault_progress := 60 |}]) (stamp 0 two_entries).
Definition append_after_crash : FileNode := default no_node (cycle [] [] torn_append.1).

Lemma failed_append_leaves_prefix_witness :
  map unstamp (replay_entries append_after_crash) = take 1 two_entries /\
  holds append_after_crash /\
  exists k, image append_after_crash = (image new_replica) <| im_log := im_log (image new_replica) ++ take k two_entries |>.
Proof.
  split; [vm_compute; reflexivity|]. destruct new_replica_holds as [Hd Him].
  assert (exists error, torn_append.2 = Err error) as [error He] by (vm_compute; by eexists).
  refine (failed_append_leaves_prefix (with_outcomes new_replica
    [Some {| fault_error := fault_error device_failure; fault_progress := 60 |}]) two_entries torn_append.1 error
    append_after_crash Hd _ (cycle_restarts [] [] _ _ _)).
  - rewrite <- He. vm_compute. reflexivity.
  - vm_compute. reflexivity.
Defined.

(** The snapshot is published, and the sync of its directory fails: a crash
    leaves the new snapshot or none. *)
Definition publishing : FileNode := with_outcomes new_replica (replicate 13 None ++ [Some device_failure]).
Definition unsynced_publication : FileNode * result unit RaftSnapshotStoreWriteError :=
  write_snapshot publishing fleet_snapshot.
Definition publication_kept : FileNode := default no_node (cycle [] [] unsynced_publication.1).
Definition publication_lost : FileNode := default no_node (cycle [manifest_path] [] unsynced_publication.1).

Lemma failed_publication_is_atomic_witness :
  (current_snapshot publication_kept = Some (from_payload (prs_metadata fleet_snapshot) (prs_application_payload fleet_snapshot)) /\
   current_snapshot publication_lost = None) /\
  (holds publication_kept /\ published publishing (from_payload (prs_metadata fleet_snapshot)
     (prs_application_payload fleet_snapshot)) (image publication_kept)) /\
  holds publication_lost /\ published publishing (from_payload (prs_metadata fleet_snapshot)
     (prs_application_payload fleet_snapshot)) (image publication_lost).
Proof.
  split; [split; vm_compute; reflexivity|]. destruct new_replica_holds as [Hd Him].
  assert (exists error, unsynced_publication.2 = Err error) as [error He] by (vm_compute; by eexists).
  assert (write_snapshot publishing fleet_snapshot = (unsynced_publication.1, Err error)) as Hrun
    by (rewrite <- He; vm_compute; reflexivity).
  split.
  - refine (failed_publication_is_atomic publishing fleet_snapshot _ error _ Hd Hrun (cycle_restarts [] [] _ _ _)).
    vm_compute. reflexivity.
  - refine (failed_publication_is_atomic publishing fleet_snapshot _ error _ Hd Hrun (cycle_restarts [manifest_path] [] _ _ _)).
    vm_compute. reflexivity.
Defined.
